(* ===== verification/_CoqProject ===== *)
-Q . S2P
Prelude.v
ImmutableTree.v
MapOfSets.v
PosixState.v
PosixFd.v
PosixFdInv.v
PosixCalls.v
PosixBudget.v
PosixInit.v
PosixInitSpec.v
KleeReplay.v
PosixFdSpec.v
PosixFd32.v
PosixStubs.v
CMem.v
PosixConcretize.v
Libc.v
LibcSpec.v
NesCheckLib.v
Replay.v
KTest.v
ExprData.v
ExprCreate.v
ExprSem.v
ExprBool.v
ExprArith.v
ExprBits.v
ExprSpec.v
ExprOrder.v
ExprHeap.v
ExprRebuild.v
ExprNodes.v
ExprVisitor.v
Constraints.v
ExprEval.v
ExprEvalSound.v
ExprReads.v
Solver.v
SolverRange.v
SolverStaged.v
SolverCaching.v
SolverCexCaching.v
SolverIndependent.v
SolverIndependentSpec.v
SolverIndependentValues.v
SolverValidating.v
SolverChain.v
SolverExample.v
TimingSolver.v
TimingExample.v
Memory.v
MemorySpec.v
MemoryBytes.v
MemoryValues.v
MemoryFrame.v
MemoryObjects.v
MemoryExample.v
AddressSpace.v
AddressSpaceShare.v
AddressSpaceResolve.v
AddressSpaceExternal.v
AddressSpaceExample.v
Searchers.v
SearchersMeta.v
SearchersEngine.v
PTree.v
RandomPath.v
ExecutorStates.v
