(* ===== verification/Prelude.v ===== *)
(** * Verification of Vital-SE

    Vital-SE is a symbolic execution engine (a fork of KLEE with a Monte Carlo
    tree search over execution states) together with NesCheck, a pass that
    classifies and instruments unsafe pointers.  This library models, with
    executable definitions, two sides of it.  Of the engine: the expressions
    its path conditions are made of, with the simplifications done when they
    are built, their order and their evaluation; path conditions and their
    rewriting; the chain of solvers in front of the external one, with its
    caches; the memory of execution states, from the bytes of an object to the
    address spaces that share objects; the scheduling of execution states, that
    is the searchers, the process tree and the engine's bookkeeping; and the
    persistent containers on which the memory map and the solver caches are
    built.  Of what programs under test rely on at run time:
    the C runtime that is linked into every program (POSIX environment, C
    library, intrinsics), the libraries that replay a test natively, and the
    run-time table of NesCheck.  Source paths are below [src/vital-src/] unless
    they name another directory.

    ** The parts and how they interact

    - [lib/Core/Executor.cpp] runs states: [run] asks the searcher for a state,
      an instruction branches or terminates states, [updateStates] tells the
      searcher, the set of states and the process tree ([lib/Core/PTree.cpp]).
      The searchers of [lib/Core/Searcher.cpp] are stacked: some keep states of
      their own, some wrap others, one keeps its states as bits in the tree.
    - [lib/Expr/Expr.cpp] and [Updates.cpp] build expressions: every [create]
      method folds constants and rewrites.  [ExprVisitor.cpp],
      [ExprEvaluator.cpp] and [Assignment.h] evaluate them under the values a
      solver returned.
    - [lib/Expr/Constraints.cpp] adds a branch condition to a path condition:
      the condition is simplified by the known equalities, and a new equality
      is used to rewrite the constraints that are there, by visitors.
    - [lib/Core/TimingSolver.cpp] simplifies what the engine asks and hands it
      to the chain that [lib/Solver/ConstructSolverChain.cpp] stacks: the branch
      cache, the counterexample cache, the factoring into independent
      constraints, and a second solver that checks the answers, in front of a
      core solver.
    - [lib/Core/AddressSpace.cpp] is the memory of a state: a map from memory
      objects to object states ([lib/Core/Memory.cpp]), which forked states
      share until one of them writes.  A pointer is resolved to objects with
      queries; a byte of an object is concrete, symbolic, or in a list of
      updates.
    - [runtime/POSIX/fd_init.c] and [klee_init_env.c] run first: the command
      line is parsed, symbolic files, streams and the failures to inject are
      created, and the rest of the arguments reaches the program.
    - [runtime/POSIX/fd.c] then answers the program's file system calls from
      the file table [__exe_env] and the symbolic file system [__exe_fs], or
      forwards them to the kernel; [fd_64.c] and [fd_32.c] are the entry points
      in front of it, [stubs.c], [illegal.c] and [selinux.c] answer the calls
      that are refused or ignored.
    - [runtime/klee-libc], [runtime/Freestanding] and the fortified variants
      are the C library below; [runtime/Intrinsic] adds the checks and the
      helpers built on [klee_make_symbolic].
    - [runtime/Runtest/intrinsics.c] replaces the intrinsics when a generated
      test is replayed outside the engine; [tools/klee-replay] does so for
      programs that use the POSIX environment.
    - [include/klee/ADT/ImmutableTree.h] and [MapOfSets.h] are used by the
      engine's address spaces and counterexample cache.
    - [src/ccured-src/neschecklib.c] is called by code NesCheck instrumented.

    ** Files

    - [Prelude] (this file): machine integers as [Z] with the wrap-around of
      their C type, the [outcome] of a call (a value, or the reason the program
      stops), little-endian layout, overwriting a slice of a list, the shared
      tactics and the hint database [vital].
    - [ImmutableTree] (Module [ITree]): nodes, [balance], the updates and
      queries, the fixed-capacity stack and the iterators.
    - [MapOfSets] (Module [UBTree]): the trie of sorted sets with [insert],
      [lookup], [subsets], [supersets], [findSubset] and [findSuperset].
    - [PosixState]: the structures of [fd.h], the requests to the kernel, the
      world and its state monad.  [PosixFd] (Module [Fd]): one definition per
      function of [fd.c], and the entry points of [fd_64.c].
    - [PosixFdInv]: the shape of a file system, the invariant [wf], the relation
      [evolves], and the rules of the specification [spec] with its automation
      (hint database [fdspec], tactic [spec_auto]).  [PosixCalls]: the rule of
      every call, the step relation over calls and its reachable states;
      [PosixBudget]: the failures a program sees in a sequence of calls.
    - [PosixInit] (Module [Init]): [fd_init.c], [klee_init_env.c] and the
      intrinsics; [PosixInitSpec]: the class [Engine] of what the runtime
      relies on from the kernel and the engine, and the theorems on
      initialisation.  [PosixFdSpec]: what single calls and sequences of calls
      return.
    - [PosixFd32] (Module [Fd32]): [fd_32.c] and the directory records.
    - [PosixConcretize] (Module [Concretize]): the concretisation helpers of
      [fd.c] over symbolic values and path conditions.
    - [PosixStubs] (Module [Stubs]): [stubs.c], [illegal.c], [selinux.c],
      [putchar.c] and the fortified reads.
    - [KleeReplay] (Module [KleeReplay]): the engine functions of
      [tools/klee-replay/klee-replay.c], which replays a test with the code of
      [fd_init.c] and [klee_init_env.c], and a recorder of tests.
    - [CMem]: byte memory; [Libc] (Module [Libc]): the routines of klee-libc and
      Freestanding; [LibcSpec]: their theorems.
    - [NesCheckLib] (Module [NesCheck]), [Replay] (Module [Replay]) and [KTest],
      the files tests are written to ([lib/Basic/KTest.cpp]).
    - [ExprData]: kinds, arrays, update lists, expressions and constants;
      [ExprCreate]: every [create] method, [createFromKind] and [rebuild].
      [ExprSem]: the value of an expression under an assignment of bytes to
      arrays, and what it is for a constructor to be sound; [ExprBool],
      [ExprArith], [ExprBits]: the soundness of the rules, by class; [ExprSpec]:
      the theorems on construction.  [ExprOrder]: hashes and the comparison;
      [ExprEval]: the evaluator, [ExprEvalSound]: its soundness where a divisor
      may be 0.
    - [ExprHeap]: expressions as keys of finite maps, and the arrays of a
      program; [ExprRebuild] and [ExprNodes]: what rebuilding a node with new
      operands keeps, its value, its size (the [weight]), and what holds of all
      its nodes.  [ExprVisitor]: [ExprVisitor.cpp], the traversal with the
      visitor's methods as a record.  [Constraints]: [Constraints.cpp].
      [ExprReads]: [findReads] and [findSymbolicObjects] of [ExprUtil.cpp].
    - [Solver]: queries, the class [Solver] of the methods of a solver, the
      class [SolverSpec] of what they promise, and the front end of
      [Solver.cpp]; [SolverRange]: [getRange].  [SolverStaged]: incomplete
      solvers in front of complete ones; [SolverCaching], [SolverCexCaching]:
      the two caches; [SolverIndependent], [SolverIndependentSpec],
      [SolverIndependentValues]: independent constraints; [SolverValidating]:
      the solver that checks another.  [SolverChain]: the chain, an instance of
      [SolverSpec] whatever is in it; [SolverExample]: a core solver that
      enumerates.  [TimingSolver]: the queries of the engine; [TimingExample].
    - [Memory]: [Memory.cpp] with [BitArray.h] and [ArrayCache.cpp];
      [MemorySpec], [MemoryBytes], [MemoryValues], [MemoryFrame],
      [MemoryObjects]: its invariant, accesses to a byte and to several, what
      accesses leave alone, creation and bounds checks; [MemoryExample].
    - [AddressSpace]: [AddressSpace.cpp]; [AddressSpaceShare]: copy on write;
      [AddressSpaceResolve]: the resolution of pointers; [AddressSpaceExternal]:
      external calls; [AddressSpaceExample].
    - [Searchers]: the interface, the class [Searcher] of operations and the
      class [SearcherSpec] of what they promise, with depth first, breadth first
      and random search; [SearchersMeta]: interleaved, batching and iterative
      deepening over any searcher; [SearchersEngine]: the class [EngineSpec] of
      what the main loop needs, and the splitted searcher, with a depth first
      simulation searcher as the program builds it.
    - [PTree]: the process tree on a heap, and its relation to trees;
      [RandomPath]: the random path searcher on it.  [ExecutorStates]: branching,
      termination with the end of a simulation, suspending and resuming,
      updating and the main loop, over any [EngineSpec] searcher.

    ** Correspondence of state and operations

    The global variables of the runtime are the record [world]; a C function is
    a definition in the state monad [M], whose result is a [Stop] when an
    assertion fails, a memory object is overrun or an error is reported.
    A pointer to an entry of the file table is its index and a pointer to a
    symbolic file is a [dref], so that aliasing descriptors see each other's
    writes to a file.  The kernel is the parameter [sys], a function from
    requests to results with a state of its own: nothing is assumed about it
    in the invariants of [PosixCalls].  Initialisation depends on the hypotheses
    of [Engine] (requests are answered, allocations succeed, symbolic objects
    have the size asked for), instantiated by a concrete engine in
    [PosixInitSpec]; nothing is assumed of the values of symbolic objects.  One
    path of the symbolic execution is followed, on which every byte has a
    value; [PosixConcretize] is the exception and follows all paths.

    An expression is a value; the address of an array is a field, since the
    order of expressions compares it.  A constant is a non-negative [Z] below
    two to its width.  The value of a division by zero is the parameter of
    [DivByZero], the option to rewrite reads of constant arrays that of
    [ExprOptions]; with it on, an index outside the array is excluded.

    A call of a solver is a function of the state of the solver (its caches and
    those of the solvers below it) that returns, fails or stops; [sat] states
    that it returns, keeps the invariant and satisfies a postcondition.  The
    core solver is a parameter with its contract as hypothesis, met by the
    solver of [SolverExample].  A query means what its constraints and its
    expression say under the assignments of a [Universe] of arrays, which are 0
    beyond the end of an array.

    An object state is a record with its three stores; a read returns the
    object state as it leaves it, since it may flush caches and create the
    root of the list of updates.  Object states live in a heap that all
    address spaces share, a memory map is a tree of [ITree] from memory objects
    to addresses of that heap, and a memory object is a value.  Every
    statement on memory is under the assignments of a path condition, of which
    each state has its own.

    A state is its address.  What a searcher observes of the outside (random
    numbers, the clock, the instruction counter, the mode) is the [env] of a
    call, about which nothing is assumed.  A node of the process tree is an
    entry of a finite map from addresses, a child pointer a pair of an address
    and tag bits; [Rep] says that the heap is a tree and nothing else, and a
    tree with a hole follows the loops up the parent pointers.  The global
    [is_simulation_mode] and the flags of a simulation are fields of the engine;
    an access to a deleted state or node, and advancing an iterator whose
    element was erased, stop with [MemError].

    ** What the theorems show

    - Expressions: building a node from new operands of the same widths returns
      and gives an expression of the same width with the value of the operator
      on the values of the operands, whatever rewriting rules apply (divisions
      by zero apart); the
      mutually recursive constructors terminate; the comparison is a total order
      whose equality is structural; evaluation under an assignment of the bytes
      that are read is exact where no divisor is 0, except on [NotOptimized]
      nodes around a constant, which are not folded.
    - Path conditions: simplification by equalities and the rewriting of
      constraints end, and change neither the value of an expression where the
      constraints hold nor the assignments under which they hold.
    - Solvers: the front end is right for every solver that keeps the contract,
      [getRange] finds the exact range; each solver of the chain keeps the
      contract if the one below does, so every sequence of calls on a chain is
      answered right; the caches hold only true entries; the factors partition
      the constraints.  The questions of the engine (truth, validity, values,
      ranges, initial values) are answered for the expression it asked about,
      simplified or not.
    - Memory: a memory object is an array of bytes, at constant and symbolic
      offsets and in both byte orders; bounds checks are exact; forks with copy
      on write behave as if every state had a memory of its own, with reads
      that rearrange shared object states under several path conditions; the
      resolution of a pointer ends and finds exactly the objects that the
      pointer can point into, unless it says that it is incomplete; external
      calls see the concrete stores, and what they change is seen afterwards at
      the concrete bytes; a changed byte that was also flushed to the list of
      updates breaks the invariant of its object.
    - Scheduling: the main loop refines a scheduler that picks any live state,
      for every searcher that meets the interface, with the searcher, the set of
      states and the process tree in agreement at every step, outside of a
      simulation and while only states known to the searcher are terminated.
      Terminating a new state, and ending a simulation, access freed memory, as
      two statements show; suspended states
      leave the searcher only; the random path searcher holds exactly the live
      states along every exploration and does not disturb another one on the
      same tree; removing a state prunes the tree as it should; the interleaved
      searcher is fair, the splitted one keeps its two kinds of states apart,
      removed simulation states included.
      Two theorems state where the depth first and the batching searcher depart
      from what they mean to do.
    - Containers: every update of the balanced tree is the corresponding
      update of the ordered list of its values and keeps it ordered and
      balanced, the queries and iterators agree with that list, the height is
      logarithmic and the iterator's stack never overflows; the map of sets
      finds exactly the stored subsets and supersets.
    - POSIX: initialisation establishes the invariant on every path that the
      assumptions on symbolic files do not cut off; from any command line on,
      every state any sequence of calls reaches satisfies the invariant, with
      the injected failures the program sees within the budget it asked for, file sizes fixed and removed names staying removed; reads, writes,
      seeks, opens, duplications, removals and listings of symbolic files
      return what the code promises, on error branches too; concretisation
      changes nothing that a path can see; two theorems state where [dup2] and
      [has_permission] depart from POSIX.
    - C library: copying under overlap, copying and comparing strings, searching,
      number conversion with overflow, byte order, exit handlers.
    - Replay and NesCheck: the environment a recorded test sets up is set up
      again exactly by klee-replay on any host; a test is read back as it was
      written to its file, a truncated file is rejected, and the native library
      hands out its objects exactly and reports a mismatch; the metadata table
      is a finite map.

    ** Bounds and fuel

    Recursion is structural on trees, lists and loop counters where the code
    counts.  Loops over strings are given one step per mapped address of the
    memory and one more, which [CMem.str_at_size] shows is enough; the loops of
    [findSubset] the elements of the query and the nodes, an iteration over a
    tree one step per value and one more; the loops over directory records one
    step per byte.  Sums and differences are built with one step per addend on
    the right spine of the operands and four more, extracts and concatenations
    with two per level of nesting ([create_terminates] shows both are enough).
    A loop along the process tree has one step per node of the heap and at most
    two more.  The halving searches of [getRange] have 66 steps for 64 bits,
    the closures of independent constraints one step per constraint and one
    more, [findReads] one per node and one more, and the searches for the
    objects of a pointer one per object.  Visits of an expression and the
    adding of a constraint, which start again from what they rewrote, are shown
    to end for some fuel and to give the same result for every larger one: a
    rewritten expression has fewer nodes that are not constant.  There the
    option to rewrite reads of constant arrays is off, as it is by default.
    The number of forks of a run is below two to the 32, the width of the keys
    of address spaces.  A theorem that says a call returns rules out
    [OutOfFuel].

    ** Not modelled

    The interpreter of LLVM instructions and the NesCheck passes (C++ over LLVM
    and the vendored SVF library); the adapters to external solvers, and the
    fast counterexample, logging and assignment validating solvers, which are
    off by default; the copying of symbolic bytes to the concrete store for
    external calls; seeds, statistics, timers and query costs of the engine; the
    merging searcher, the weighted random searchers and the walks and rewards of
    the Monte Carlo tree search (floating-point numbers); the allocator KDAlloc
    and the memory manager; reference counts; the query parser and printer;
    process control, terminals and file creation of klee-replay; the stubs that
    only forward to C library functions outside the repository. *)

From Stdlib Require Export ZArith Lia.
From stdpp Require Export base option numbers.
From stdpp Require Export list gmap strings.

#[global] Open Scope Z_scope.

Declare Scope vital_scope.
Delimit Scope vital_scope with vital.

(** ** Machine integers

    An integer of the source is a [Z] together with the reduction its C type
    performs.  [wrapU w] is the value of an arithmetic result stored in an
    unsigned [w]-bit object, [wrapS w] of one stored in a signed [w]-bit
    object (two's complement). *)

Definition wrapU (w x : Z) : Z := x mod 2 ^ w.

Definition wrapS (w x : Z) : Z := (x + 2 ^ (w - 1)) mod 2 ^ w - 2 ^ (w - 1).

Definition u8 (x : Z) : Z := wrapU 8 x.
Definition u16 (x : Z) : Z := wrapU 16 x.
Definition u32 (x : Z) : Z := wrapU 32 x.
Definition u64 (x : Z) : Z := wrapU 64 x.
Definition s8 (x : Z) : Z := wrapS 8 x.
Definition s32 (x : Z) : Z := wrapS 32 x.
Definition s64 (x : Z) : Z := wrapS 64 x.

(** [bnot w x] is [~x] at an unsigned width, [nz] the C truth value. *)
Definition bnot (w x : Z) : Z := Z.lxor x (2 ^ w - 1).

Definition nz (x : Z) : bool := negb (x =? 0).

(** The bytes of a memory object. *)
Definition is_byte (b : Z) : bool := (0 <=? b) && (b <? 256).

(** Little-endian layout of an [n]-byte integer. *)
Fixpoint le_bytes (n : nat) (x : Z) : list Z :=
  match n with
  | O => []
  | S n' => x mod 256 :: le_bytes n' (x / 256)
  end.

Fixpoint le_val (l : list Z) : Z :=
  match l with
  | [] => 0
  | b :: l' => b + 256 * le_val l'
  end.

(** The bytes of a string literal. *)
Fixpoint bytes (s : string) : list Z :=
  match s with
  | EmptyString => []
  | String c s' => Z.of_N (Ascii.N_of_ascii c) :: bytes s'
  end.

(** ** Outcomes

    A call of the modelled code either returns, or stops the program: a failed
    [assert], an access outside a memory object, an error reported through
    [klee_report_error] (with its message), or a silent exit; [Infeasible] ends
    a path whose values contradict a [klee_assume].  [OutOfFuel] is
    the model's own value for a loop that was not given enough iterations;
    every theorem that states that a loop returns rules it out. *)

Inductive stop : Type :=
  | AssertFail
  | MemError
  | KleeError (msg : string)
  | SilentExit (code : Z)
  | Infeasible
  | OutOfFuel.

Inductive outcome (A : Type) : Type :=
  | Ret (a : A)
  | Stop (e : stop).
Arguments Ret {_} _.
Arguments Stop {_} _.

#[global] Instance stop_eq_dec : EqDecision stop.
Proof. solve_decision. Defined.

#[global] Instance outcome_ret : MRet outcome := fun A a => Ret a.
#[global] Instance outcome_bind : MBind outcome := fun A B f o =>
  match o with Ret a => f a | Stop e => Stop e end.
#[global] Instance outcome_fmap : FMap outcome := fun A B f o =>
  match o with Ret a => Ret (f a) | Stop e => Stop e end.

Definition of_option {A} (e : stop) (o : option A) : outcome A :=
  match o with Some a => Ret a | None => Stop e end.

Lemma outcome_bind_ret {A B} (o : outcome A) (f : A -> outcome B) b :
  (o ≫= f) = Ret b <-> exists a, o = Ret a /\ f a = Ret b.
Proof. destruct o; simpl; naive_solver. Qed.

(** ** Shared automation *)

Create HintDb vital discriminated.

(** Case analysis on the first test or match of the goal, recording the
    equation; [split_ifs] repeats it and simplifies. *)
Ltac split_if :=
  match goal with
  | |- context [if ?b then _ else _] => destruct b eqn:?
  | |- context [match ?b with _ => _ end] => destruct b eqn:?
  end.

Ltac split_ifs := repeat (split_if; simplify_eq/=).

(** The same for a hypothesis. *)
Ltac split_if_in H :=
  match type of H with
  | context [if ?b then _ else _] => destruct b eqn:?
  | context [match ?b with _ => _ end] => destruct b eqn:?
  end.

Ltac split_ifs_in H := repeat (split_if_in H; simplify_eq/=).

(** Turn boolean comparisons into propositions that [lia] reads. *)
Ltac to_prop :=
  repeat match goal with
  | H : (_ && _) = true |- _ => apply andb_true_iff in H; destruct H
  | H : (_ || _) = false |- _ => apply orb_false_iff in H; destruct H
  | H : negb _ = true |- _ => apply negb_true_iff in H
  | H : negb _ = false |- _ => apply negb_false_iff in H
  | H : (_ <? _) = true |- _ => apply Z.ltb_lt in H
  | H : (_ <? _) = false |- _ => apply Z.ltb_ge in H
  | H : (_ <=? _) = true |- _ => apply Z.leb_le in H
  | H : (_ <=? _) = false |- _ => apply Z.leb_gt in H
  | H : (_ =? _) = true |- _ => apply Z.eqb_eq in H
  | H : (_ =? _) = false |- _ => apply Z.eqb_neq in H
  end.

(** Take apart existentials and conjunctions of the context. *)
Ltac decompose_hyps :=
  repeat match goal with
  | H : exists _, _ |- _ => destruct H
  | H : _ /\ _ |- _ => destruct H
  end.

(** ** Integer lemmas *)

Lemma wrapU_range w x : 0 <= w -> 0 <= wrapU w x < 2 ^ w.
Proof. intros. apply Z.mod_pos_bound. apply Z.pow_pos_nonneg; lia. Qed.

Lemma wrapU_small w x : 0 <= x < 2 ^ w -> wrapU w x = x.
Proof. intros. by apply Z.mod_small. Qed.

Lemma wrapS_range w x : 0 < w -> - 2 ^ (w - 1) <= wrapS w x < 2 ^ (w - 1).
Proof.
  intros. unfold wrapS.
  assert (2 ^ w = 2 * 2 ^ (w - 1)) by
    (rewrite <- Z.pow_succ_r by lia; f_equal; lia).
  pose proof (Z.mod_pos_bound (x + 2 ^ (w - 1)) (2 ^ w)
                ltac:(apply Z.pow_pos_nonneg; lia)). lia.
Qed.

Lemma wrapS_small w x :
  0 < w -> - 2 ^ (w - 1) <= x < 2 ^ (w - 1) -> wrapS w x = x.
Proof.
  intros. unfold wrapS.
  assert (2 ^ w = 2 * 2 ^ (w - 1)) by
    (rewrite <- Z.pow_succ_r by lia; f_equal; lia).
  rewrite Z.mod_small by lia. lia.
Qed.

Lemma u64_range x : 0 <= u64 x < 2 ^ 64.
Proof. apply wrapU_range; lia. Qed.

Lemma u32_range x : 0 <= u32 x < 2 ^ 32.
Proof. apply wrapU_range; lia. Qed.

Lemma s64_small x : - 2 ^ 63 <= x < 2 ^ 63 -> s64 x = x.
Proof. intros. apply wrapS_small; simpl; lia. Qed.

Lemma s64_range x : - 2 ^ 63 <= s64 x < 2 ^ 63.
Proof. apply (wrapS_range 64); lia. Qed.

Lemma nz_true x : nz x = true <-> x <> 0.
Proof. unfold nz. rewrite negb_true_iff, Z.eqb_neq. done. Qed.

Lemma nz_false x : nz x = false <-> x = 0.
Proof. unfold nz. rewrite negb_false_iff, Z.eqb_eq. done. Qed.

Lemma length_le_bytes n x : length (le_bytes n x) = n.
Proof. revert x; induction n; intros x; simpl; auto. Qed.

Lemma le_val_bytes n x : le_val (le_bytes n x) = x mod 256 ^ Z.of_nat n.
Proof.
  revert x. induction n as [|n IH]; intros x.
  { simpl. by rewrite Z.mod_1_r. }
  cbn [le_bytes le_val]. rewrite IH, Nat2Z.inj_succ, Z.pow_succ_r by lia.
  rewrite Z.rem_mul_r by (try apply Z.pow_pos_nonneg; lia). lia.
Qed.

(** ** List lemmas

    [splice l n l'] overwrites [l] with [l'] from position [n] on, which is
    what a [memcpy] into the middle of an object does; it is only used with
    [n + length l' <= length l]. *)

Definition splice {A} (l : list A) (n : nat) (l' : list A) : list A :=
  take n l ++ l' ++ drop (n + length l') l.

Lemma length_splice {A} (l l' : list A) n :
  (n + length l' <= length l)%nat -> length (splice l n l') = length l.
Proof. intros. unfold splice. rewrite !length_app, length_take, length_drop. lia. Qed.

Lemma splice_nil {A} (l : list A) n : splice l n [] = l.
Proof. unfold splice. simpl. rewrite Nat.add_0_r. apply take_drop. Qed.

Lemma take_drop_splice {A} (l l' : list A) n :
  (n + length l' <= length l)%nat ->
  take (length l') (drop n (splice l n l')) = l'.
Proof.
  intros. unfold splice.
  rewrite drop_app_length' by (rewrite length_take; lia).
  by rewrite take_app_length.
Qed.

Lemma lookup_splice_out {A} (l l' : list A) n i :
  (n + length l' <= length l)%nat ->
  (i < n \/ n + length l' <= i)%nat -> splice l n l' !! i = l !! i.
Proof.
  intros Hb Hi. unfold splice. destruct (decide (i < n)%nat).
  - rewrite lookup_app_l by (rewrite length_take; lia).
    by rewrite lookup_take_lt.
  - rewrite lookup_app_r by (rewrite length_take; lia).
    rewrite length_take. rewrite lookup_app_r by lia.
    rewrite lookup_drop. f_equal. lia.
Qed.

Lemma last_app_cons {A} (l1 l2 : list A) x :
  last (l1 ++ x :: l2) = last (x :: l2).
Proof.
  rewrite last_app. destruct (last (x :: l2)) eqn:E; [done|].
  by apply last_None in E.
Qed.

Lemma last_cons_default {A} (l : list A) x :
  last (x :: l) = match last l with Some y => Some y | None => Some x end.
Proof. by rewrite last_cons. Qed.

Lemma filter_all {A} (P : A -> Prop) `{!forall x, Decision (P x)} (l : list A) :
  Forall P l -> filter P l = l.
Proof. induction 1; [done|]. rewrite filter_cons_True by done. congruence. Qed.

Lemma filter_none {A} (P : A -> Prop) `{!forall x, Decision (P x)} (l : list A) :
  Forall (fun x => ~ P x) l -> filter P l = [].
Proof. induction 1; [done|]. rewrite filter_cons_False by done. congruence. Qed.

#[export] Hint Resolve u64_range u32_range s64_range : vital.
