(* ===== verification/ImmutableTree.v ===== *)
(** * ImmutableTree: KLEE's persistent balanced search tree

    Models [src/vital-src/include/klee/ADT/ImmutableTree.h], the tree under
    [ImmutableMap]/[ImmutableSet], which hold the memory objects of an
    execution state.  A [Node*] is a value of [Node]; the shared sentinel
    [Node::terminator] is the constructor [terminator].  The tree is
    persistent, so sharing is not observable except through the reference
    counts and the [allocated] statistic, which are not modelled.  The
    iterator keeps its [FixedStack] with its capacity: a push beyond it stops
    with [MemError]. *)

From stdpp Require Import sorting.
From S2P Require Import Prelude.

(** Strict weak orderings, what [key_compare] must be for the container. *)
Class StrictWeakOrder {K : Type} (lt : K -> K -> bool) : Prop := {
  swo_irrefl : forall x, lt x x = false;
  swo_trans : forall x y z, lt x y = true -> lt y z = true -> lt x z = true;
  swo_neg : forall x y z, lt x y = true -> lt x z = true \/ lt z y = true
}.

Module ITree.

Section Tree.
Context {K V : Type} `{EqDecision V}.
Context (key_of_value : V -> K) (key_compare : K -> K -> bool).
(** The default-constructed value of the sentinel. *)
Context (terminator_value : V).

Inductive Node : Type :=
  | terminator
  | mkNode (l r : Node) (v : V) (h : nat).

#[global] Instance Node_eq_dec : EqDecision Node.
Proof. solve_decision. Defined.

Definition isTerminator (n : Node) : bool :=
  match n with terminator => true | mkNode _ _ _ _ => false end.

(** Field accesses; the sentinel's children are the sentinel itself. *)
Definition left (n : Node) : Node :=
  match n with terminator => terminator | mkNode l _ _ _ => l end.
Definition right (n : Node) : Node :=
  match n with terminator => terminator | mkNode _ r _ _ => r end.
Definition value (n : Node) : V :=
  match n with terminator => terminator_value | mkNode _ _ v _ => v end.
Definition height (n : Node) : nat :=
  match n with terminator => 0%nat | mkNode _ _ _ h => h end.

(** [new Node(l, r, v)]. *)
Definition new_Node (l r : Node) (v : V) : Node :=
  mkNode l r v (Nat.max (height l) (height r) + 1).

Definition balance (l : Node) (v : V) (r : Node) : Node :=
  if (height r + 2 <? height l)%nat then
    let ll := left l in
    let lr := right l in
    if (height lr <=? height ll)%nat then
      let nlr := new_Node lr r v in
      new_Node ll nlr (value l)
    else
      let lrl := left lr in
      let lrr := right lr in
      let nll := new_Node ll lrl (value l) in
      let nlr := new_Node lrr r v in
      new_Node nll nlr (value lr)
  else if (height l + 2 <? height r)%nat then
    let rl := left r in
    let rr := right r in
    if (height rl <=? height rr)%nat then
      let nrl := new_Node l rl v in
      new_Node nrl rr (value r)
    else
      let rll := left rl in
      let rlr := right rl in
      let nrl := new_Node l rll v in
      let nrr := new_Node rlr rr (value r) in
      new_Node nrl nrr (value rl)
  else new_Node l r v.

Fixpoint size (n : Node) : nat :=
  match n with
  | terminator => 0
  | mkNode l r _ _ => size l + 1 + size r
  end.

(** [popMin]/[popMax] return the new tree and the value written to
    [valueOut]. *)
Fixpoint popMin (n : Node) : Node * V :=
  match n with
  | terminator => (terminator, terminator_value)
  | mkNode l r v _ =>
      if isTerminator l then (r, v)
      else let (l', out) := popMin l in (balance l' v r, out)
  end.

Fixpoint popMax (n : Node) : Node * V :=
  match n with
  | terminator => (terminator, terminator_value)
  | mkNode l r v _ =>
      if isTerminator r then (l, v)
      else let (r', out) := popMax r in (balance l v r', out)
  end.

Fixpoint insert (v : V) (n : Node) : Node :=
  match n with
  | terminator => new_Node terminator terminator v
  | mkNode l r w _ =>
      if key_compare (key_of_value v) (key_of_value w) then
        balance (insert v l) w r
      else if key_compare (key_of_value w) (key_of_value v) then
        balance l w (insert v r)
      else n
  end.

Fixpoint replace (v : V) (n : Node) : Node :=
  match n with
  | terminator => new_Node terminator terminator v
  | mkNode l r w _ =>
      if key_compare (key_of_value v) (key_of_value w) then
        balance (replace v l) w r
      else if key_compare (key_of_value w) (key_of_value v) then
        balance l w (replace v r)
      else new_Node l r v
  end.

Fixpoint remove (k : K) (n : Node) : Node :=
  match n with
  | terminator => terminator
  | mkNode l r w _ =>
      if key_compare k (key_of_value w) then balance (remove k l) w r
      else if key_compare (key_of_value w) k then balance l w (remove k r)
      else if isTerminator l then r
      else if isTerminator r then l
      else let (nr, min) := popMin r in balance l min nr
  end.

(** The queries of [ImmutableTree] walk down from the root. *)
Definition empty (n : Node) : bool := isTerminator n.

Fixpoint count (k : K) (n : Node) : Z :=
  match n with
  | terminator => 0
  | mkNode l r v _ =>
      if key_compare k (key_of_value v) then count k l
      else if key_compare (key_of_value v) k then count k r
      else 1
  end.

Fixpoint lookup (k : K) (n : Node) : option V :=
  match n with
  | terminator => None
  | mkNode l r v _ =>
      if key_compare k (key_of_value v) then lookup k l
      else if key_compare (key_of_value v) k then lookup k r
      else Some v
  end.

(** The loop of [lookup_previous], with the local variable [result]. *)
Fixpoint lookup_previous_loop (k : K) (n : Node) (result : option V) : option V :=
  match n with
  | terminator => result
  | mkNode l r v _ =>
      if key_compare k (key_of_value v) then lookup_previous_loop k l result
      else if key_compare (key_of_value v) k then
        lookup_previous_loop k r (Some v)
      else Some v
  end.

Definition lookup_previous (k : K) (n : Node) : option V :=
  lookup_previous_loop k n None.

Fixpoint min_loop (n : Node) : V :=
  match n with
  | terminator => terminator_value
  | mkNode l _ v _ => if isTerminator l then v else min_loop l
  end.

Definition min (n : Node) : outcome V :=
  if isTerminator n then Stop AssertFail else Ret (min_loop n).

Fixpoint max_loop (n : Node) : V :=
  match n with
  | terminator => terminator_value
  | mkNode _ r v _ => if isTerminator r then v else max_loop r
  end.

Definition max (n : Node) : outcome V :=
  if isTerminator n then Stop AssertFail else Ret (max_loop n).

(** ** Iterators *)

(** [FixedStack<Node*>]: the elements, top first, and the capacity. *)
Record FixedStack := mkStack { elts : list Node; max_elts : nat }.

Definition push_back (n : Node) (s : FixedStack) : outcome FixedStack :=
  if (length (elts s) <? max_elts s)%nat
  then Ret (mkStack (n :: elts s) (max_elts s))
  else Stop MemError.

Definition back (s : FixedStack) : outcome Node :=
  match elts s with n :: _ => Ret n | [] => Stop MemError end.

Definition stack_empty (s : FixedStack) : bool :=
  match elts s with [] => true | _ :: _ => false end.

Record iterator := mkIter { it_root : Node; it_stack : FixedStack }.

(** [for (n = ...; !n->isTerminator(); n = n->left) stack.push_back(n)]. *)
Fixpoint push_left (n : Node) (s : FixedStack) : outcome FixedStack :=
  match n with
  | terminator => Ret s
  | mkNode l _ _ _ => s' ← push_back n s; push_left l s'
  end.

Fixpoint push_right (n : Node) (s : FixedStack) : outcome FixedStack :=
  match n with
  | terminator => Ret s
  | mkNode _ r _ _ => s' ← push_back n s; push_right r s'
  end.

(** [iterator(root, atBeginning)]. *)
Definition new_iterator (root : Node) (atBeginning : bool) : outcome iterator :=
  let s0 := mkStack [] (height root) in
  s ← (if atBeginning then push_left root s0 else Ret s0);
  Ret (mkIter root s).

Definition begin (n : Node) : outcome iterator := new_iterator n true.
Definition end_ (n : Node) : outcome iterator := new_iterator n false.

(** [operator*]. *)
Definition deref (it : iterator) : outcome V :=
  n ← back (it_stack it); Ret (value n).

(** [operator==] compares the stacks. *)
Definition iter_eq (a b : iterator) : bool :=
  bool_decide (elts (it_stack a) = elts (it_stack b)).

(** The inner [for (;;)] loops of [operator++] and [operator--]: pop until the
    popped node is the left (right) child of the new top.  The argument is the
    stack with [n] on top. *)
Fixpoint pop_up (from_child : Node -> Node) (n : Node) (s : list Node) : list Node :=
  match s with
  | [] => []
  | p :: s' => if bool_decide (n = from_child p) then p :: s'
               else pop_up from_child p s'
  end.

(** [operator++]. *)
Definition incr (it : iterator) : outcome iterator :=
  match elts (it_stack it) with
  | [] => Stop AssertFail
  | n :: s =>
      if isTerminator (right n) then
        Ret (mkIter (it_root it)
               (mkStack (pop_up left n s) (max_elts (it_stack it))))
      else
        s1 ← push_back (right n) (it_stack it);
        s2 ← push_left (left (right n)) s1;
        Ret (mkIter (it_root it) s2)
  end.

(** [operator--]. *)
Definition decr (it : iterator) : outcome iterator :=
  match elts (it_stack it) with
  | [] => s ← push_right (it_root it) (it_stack it);
          Ret (mkIter (it_root it) s)
  | n :: s =>
      if isTerminator (left n) then
        Ret (mkIter (it_root it)
               (mkStack (pop_up right n s) (max_elts (it_stack it))))
      else
        s1 ← push_back (left n) (it_stack it);
        s2 ← push_right (right (left n)) s1;
        Ret (mkIter (it_root it) s2)
  end.

(** The search loop of [lower_bound]; the flag tells that it returned from
    inside the loop. *)
Fixpoint lower_bound_loop (k : K) (n : Node) (s : FixedStack)
    : outcome (bool * FixedStack) :=
  match n with
  | terminator => Ret (false, s)
  | mkNode l r v _ =>
      s' ← push_back n s;
      if key_compare k (key_of_value v) then lower_bound_loop k l s'
      else if key_compare (key_of_value v) k then lower_bound_loop k r s'
      else Ret (true, s')
  end.

Definition lower_bound (k : K) (n : Node) : outcome iterator :=
  it0 ← new_iterator n false;
  '(found, s) ← lower_bound_loop k n (it_stack it0);
  let it := mkIter n s in
  if (found : bool) then Ret it
  else if stack_empty s then Ret it
  else
    last ← back s;
    if key_compare (key_of_value (value last)) k then incr it else Ret it.

Definition find (k : K) (n : Node) : outcome iterator :=
  e ← end_ n;
  it ← lower_bound k n;
  if iter_eq it e then Ret e
  else
    v ← deref it;
    if key_compare k (key_of_value v) then Ret e else Ret it.

Definition upper_bound (k : K) (n : Node) : outcome iterator :=
  e ← end_ n;
  it ← lower_bound k n;
  if iter_eq it e then Ret it
  else
    v ← deref it;
    if negb (key_compare k (key_of_value v)) then incr it else Ret it.

(** ** Abstract specification: the ordered list of values *)

Fixpoint elements (n : Node) : list V :=
  match n with
  | terminator => []
  | mkNode l r v _ => elements l ++ v :: elements r
  end.

Definition value_lt (a b : V) : Prop :=
  key_compare (key_of_value a) (key_of_value b) = true.

(** Two keys are the same element of the container when neither precedes the
    other. *)
Definition key_equiv (a b : K) : bool :=
  negb (key_compare a b) && negb (key_compare b a).

(** The search-tree invariant: an in-order walk is strictly increasing. *)
Definition bst (n : Node) : Prop := StronglySorted value_lt (elements n).

(** The balance invariant: stored heights are right and sibling heights differ
    by at most two. *)
Fixpoint avl (n : Node) : Prop :=
  match n with
  | terminator => True
  | mkNode l r _ h =>
      avl l /\ avl r /\ h = S (Nat.max (height l) (height r)) /\
      (height l <= height r + 2)%nat /\ (height r <= height l + 2)%nat
  end.

Fixpoint spec_insert (v : V) (l : list V) : list V :=
  match l with
  | [] => [v]
  | x :: l' =>
      if key_compare (key_of_value v) (key_of_value x) then v :: x :: l'
      else if key_compare (key_of_value x) (key_of_value v)
      then x :: spec_insert v l' else x :: l'
  end.

Fixpoint spec_replace (v : V) (l : list V) : list V :=
  match l with
  | [] => [v]
  | x :: l' =>
      if key_compare (key_of_value v) (key_of_value x) then v :: x :: l'
      else if key_compare (key_of_value x) (key_of_value v)
      then x :: spec_replace v l' else v :: l'
  end.

Definition spec_remove (k : K) (l : list V) : list V :=
  filter (fun x => key_equiv k (key_of_value x) = false) l.

Definition spec_lookup (k : K) (l : list V) : option V :=
  head (filter (fun x => key_equiv k (key_of_value x) = true) l).

Definition spec_lookup_previous (k : K) (l : list V) : option V :=
  last (filter (fun x => key_compare k (key_of_value x) = false) l).

(** ** Rebalancing *)

Lemma elements_balance l v r :
  elements (balance l v r) = elements l ++ v :: elements r.
Proof.
  unfold balance, new_Node.
  destruct (Nat.ltb_spec (height r + 2) (height l)).
  { destruct l as [|ll lr lv lh]; simpl in *; [lia|].
    destruct (Nat.leb_spec (height lr) (height ll)); simpl.
    - by list_simplifier.
    - destruct lr; simpl in *; [lia|]. by list_simplifier. }
  destruct (Nat.ltb_spec (height l + 2) (height r)); [|done].
  destruct r as [|rl rr rv rh]; simpl in *; [lia|].
  destruct (Nat.leb_spec (height rl) (height rr)); simpl.
  - by list_simplifier.
  - destruct rl; simpl in *; [lia|]. by list_simplifier.
Qed.

Lemma avl_new_Node l v r :
  avl l -> avl r -> (height l <= height r + 2)%nat ->
  (height r <= height l + 2)%nat -> avl (new_Node l r v).
Proof. intros. simpl. repeat split; try done; lia. Qed.

Lemma avl_height_pos n : avl n -> isTerminator n = false -> (0 < height n)%nat.
Proof. destruct n; simpl; [done|]. intros; decompose_hyps; lia. Qed.

(** [balance] repairs an imbalance of three; the new height is that of the
    higher subtree or one more. *)
Lemma avl_balance l v r :
  avl l -> avl r -> (height l <= height r + 3)%nat ->
  (height r <= height l + 3)%nat ->
  avl (balance l v r) /\
  (Nat.max (height l) (height r) <= height (balance l v r)
   <= Nat.max (height l) (height r) + 1)%nat /\
  ((height l <= height r + 2)%nat -> (height r <= height l + 2)%nat ->
   height (balance l v r) = S (Nat.max (height l) (height r))).
Proof.
  intros Hl Hr H1 H2. unfold balance.
  destruct (Nat.ltb_spec (height r + 2) (height l)).
  { destruct l as [|ll lr lv lh]; [simpl in *; lia|]. cbn [left right value] in *.
    simpl in Hl; destruct Hl as (?&?&?&?&?).
    destruct (Nat.leb_spec (height lr) (height ll)).
    - simpl in *. repeat split; try done; lia.
    - destruct lr as [|lrl lrr lrv lrh]; simpl in *; decompose_hyps; [lia|].
      repeat split; try done; lia. }
  destruct (Nat.ltb_spec (height l + 2) (height r)).
  { destruct r as [|rl rr rv rh]; [simpl in *; lia|]. cbn [left right value] in *.
    simpl in Hr; destruct Hr as (?&?&?&?&?).
    destruct (Nat.leb_spec (height rl) (height rr)).
    - simpl in *. repeat split; try done; lia.
    - destruct rl as [|rll rlr rlv rlh]; simpl in *; decompose_hyps; [lia|].
      repeat split; try done; lia. }
  simpl. repeat split; try done; lia.
Qed.

(** One-sided change of a balanced node: a subtree is replaced by a balanced
    one whose height differs by at most one. *)
Lemma avl_balance_node l v r l' r' h :
  avl (mkNode l r v h) -> avl l' -> avl r' ->
  (height l - 1 <= height l' <= height l + 1)%nat ->
  (height r - 1 <= height r' <= height r + 1)%nat ->
  (height l' = height l \/ height r' = height r) ->
  forall w, avl (balance l' w r') /\
    (h - 1 <= height (balance l' w r') <= h + 1)%nat /\
    ((height l <= height l')%nat -> (height r <= height r')%nat ->
     (h <= height (balance l' w r'))%nat) /\
    ((height l' <= height l)%nat -> (height r' <= height r)%nat ->
     (height (balance l' w r') <= h)%nat).
Proof.
  intros (?&?&->&?&?) ?? ? ? ? w.
  destruct (avl_balance l' w r') as (?&?&?); try done; try lia.
  destruct (decide (height l' <= height r' + 2 /\ height r' <= height l' + 2)%nat);
    repeat split; try done; lia.
Qed.

(** ** The balance invariant is kept by every update *)

(** Close an update case with [avl_balance_node] applied at the new children. *)
Local Ltac solve_avl H :=
  cbn [fst height] in *;
  edestruct H as (?&?&?&?);
  [eassumption|assumption|assumption|cbn [height]; lia|cbn [height]; lia|cbn [height]; lia|];
  cbn [height] in *; split; [eassumption|lia].

Lemma avl_insert v n :
  avl n -> avl (insert v n) /\ (height n <= height (insert v n) <= height n + 1)%nat.
Proof.
  induction n as [|l IHl r IHr w h]; intros Hn; [simpl; repeat split; lia|].
  pose proof Hn as (Hl&Hr&?&?&?). destruct (IHl Hl), (IHr Hr). cbn [insert].
  repeat case_match; [| |split; [done|lia]].
  - solve_avl (avl_balance_node l w r (insert v l) r h).
  - solve_avl (avl_balance_node l w r l (insert v r) h).
Qed.

Lemma avl_replace v n :
  avl n -> avl (replace v n) /\ (height n <= height (replace v n) <= height n + 1)%nat.
Proof.
  induction n as [|l IHl r IHr w h]; intros Hn; [simpl; repeat split; lia|].
  pose proof Hn as (Hl&Hr&?&?&?). destruct (IHl Hl), (IHr Hr). cbn [replace].
  repeat case_match.
  - solve_avl (avl_balance_node l w r (replace v l) r h).
  - solve_avl (avl_balance_node l w r l (replace v r) h).
  - split; [by apply avl_new_Node|simpl; lia].
Qed.

Lemma avl_popMin n :
  avl n -> avl (popMin n).1 /\ (height n - 1 <= height (popMin n).1 <= height n)%nat.
Proof.
  induction n as [|l IHl r IHr w h]; intros Hn; [simpl; repeat split; lia|].
  pose proof Hn as (Hl&Hr&?&?&?). pose proof (IHl Hl) as Hp. cbn [popMin].
  destruct l as [|ll lr lv lh]; [simpl in *; split; [done|lia]|].
  revert Hp. cbn [isTerminator].
  destruct (popMin (mkNode ll lr lv lh)) as [l' out]. intros [].
  solve_avl (avl_balance_node (mkNode ll lr lv lh) w r l' r h).
Qed.

Lemma avl_popMax n :
  avl n -> avl (popMax n).1 /\ (height n - 1 <= height (popMax n).1 <= height n)%nat.
Proof.
  induction n as [|l IHl r IHr w h]; intros Hn; [simpl; repeat split; lia|].
  pose proof Hn as (Hl&Hr&?&?&?). pose proof (IHr Hr) as Hp. cbn [popMax].
  destruct r as [|rl rr rv rh]; [simpl in *; split; [done|lia]|].
  revert Hp. cbn [isTerminator].
  destruct (popMax (mkNode rl rr rv rh)) as [r' out]. intros [].
  solve_avl (avl_balance_node l w (mkNode rl rr rv rh) l r' h).
Qed.

Lemma avl_remove k n :
  avl n -> avl (remove k n) /\ (height n - 1 <= height (remove k n) <= height n)%nat.
Proof.
  induction n as [|l IHl r IHr w h]; intros Hn; [simpl; repeat split; lia|].
  pose proof Hn as (Hl&Hr&?&?&?). destruct (IHl Hl), (IHr Hr). cbn [remove].
  case_match.
  { solve_avl (avl_balance_node l w r (remove k l) r h). }
  case_match.
  { solve_avl (avl_balance_node l w r l (remove k r) h). }
  destruct (isTerminator l) eqn:?; [destruct l; [|done]; simpl in *; split; [done|lia]|].
  destruct (isTerminator r) eqn:?; [destruct r; [|done]; simpl in *; split; [done|lia]|].
  pose proof (avl_popMin r Hr) as Hp. revert Hp. destruct (popMin r) as [nr m]. intros [].
  solve_avl (avl_balance_node l w r l nr h).
Qed.

(** A balanced tree is logarithmically shallow: the tree doubles every three
    levels. *)
Lemma avl_size_height_aux (m : nat) n :
  avl n -> (height n <= m)%nat -> (2 ^ (height n / 3) <= size n + 1)%nat.
Proof.
  revert n. induction m as [m IH] using lt_wf_ind. intros n Hn Hm.
  destruct n as [|l r v h]; [simpl; lia|].
  pose proof Hn as (Hl&Hr&->&?&?). cbn [size height] in *.
  remember (height l) as hl eqn:Ehl. remember (height r) as hr eqn:Ehr.
  destruct (decide (hl < 2 /\ hr < 2)%nat) as [[]|].
  { rewrite Nat.div_small by lia. rewrite Nat.pow_0_r. lia. }
  assert (Hb : (S (Nat.max hl hr) / 3 <= S (hl / 3) /\ S (Nat.max hl hr) / 3 <= S (hr / 3))%nat).
  { split.
    - transitivity ((hl + 1 * 3) / 3)%nat; [apply Nat.Div0.div_le_mono; lia|].
      rewrite Nat.div_add by lia. lia.
    - transitivity ((hr + 1 * 3) / 3)%nat; [apply Nat.Div0.div_le_mono; lia|].
      rewrite Nat.div_add by lia. lia. }
  pose proof (IH (Nat.max hl hr) ltac:(lia) l Hl ltac:(lia)) as IH1.
  pose proof (IH (Nat.max hl hr) ltac:(lia) r Hr ltac:(lia)) as IH2.
  rewrite <- Ehl in IH1. rewrite <- Ehr in IH2.
  pose proof (Nat.pow_le_mono_r 2 _ _ ltac:(lia) (proj1 Hb)) as Hp1.
  pose proof (Nat.pow_le_mono_r 2 _ _ ltac:(lia) (proj2 Hb)) as Hp2.
  rewrite Nat.pow_succ_r' in Hp1, Hp2. lia.
Qed.

(** ** Ordered-list lemmas of the specification *)

Context {Hswo : StrictWeakOrder key_compare}.

Implicit Types (v w x : V) (k : K).

Lemma lt_asym a b : key_compare a b = true -> key_compare b a = false.
Proof.
  intros H. destruct (key_compare b a) eqn:E; [|done].
  rewrite <- (swo_irrefl a). symmetry. eapply swo_trans; eauto.
Qed.

Lemma key_equiv_true a b :
  key_equiv a b = true <-> key_compare a b = false /\ key_compare b a = false.
Proof. unfold key_equiv. rewrite andb_true_iff, !negb_true_iff. done. Qed.

Lemma key_equiv_sym a b : key_equiv a b = key_equiv b a.
Proof. unfold key_equiv. apply andb_comm. Qed.

Lemma lt_equiv_r a b c :
  key_compare a b = true -> key_equiv b c = true -> key_compare a c = true.
Proof.
  intros H [? ?]%key_equiv_true.
  destruct (swo_neg a b c H); [done|congruence].
Qed.

Lemma lt_equiv_l a b c :
  key_compare a b = true -> key_equiv a c = true -> key_compare c b = true.
Proof.
  intros H [? ?]%key_equiv_true.
  destruct (swo_neg a b c H); [congruence|done].
Qed.

(** The three positions of a key relative to the root of a search tree. *)
Lemma bst_split l r v h :
  bst (mkNode l r v h) <->
  bst l /\ bst r /\ Forall (fun x => value_lt x v) (elements l) /\
  Forall (value_lt v) (elements r).
Proof.
  unfold bst. simpl. rewrite StronglySorted_app, StronglySorted_cons.
  rewrite !Forall_forall. split.
  - intros (H&?&?&?). split_and!; try done. intros x Hx. apply (H x v Hx). set_solver.
  - intros (?&?&H1&H2). split_and!; try done.
    intros x y Hx [->|Hy]%elem_of_cons; [by apply H1|].
    eapply swo_trans; [by apply H1|by apply H2].
Qed.

(** Which side of a sorted list a key falls on. *)
Lemma spec_insert_lt v x l1 l2 :
  value_lt v x -> spec_insert v (l1 ++ x :: l2) = spec_insert v l1 ++ x :: l2.
Proof.
  unfold value_lt. intros H. induction l1 as [|y l1 IH]; simpl; [by rewrite H|].
  repeat case_match; simpl; congruence.
Qed.

Lemma spec_insert_gt v x l1 l2 :
  value_lt x v -> Forall (fun y => value_lt y x) l1 ->
  spec_insert v (l1 ++ x :: l2) = l1 ++ x :: spec_insert v l2.
Proof.
  unfold value_lt. intros H. induction 1 as [|y l1 Hy ? IH]; simpl.
  - by rewrite (lt_asym _ _ H), H.
  - assert (Hyv : key_compare (key_of_value y) (key_of_value v) = true)
      by (eapply swo_trans; eauto).
    rewrite (lt_asym _ _ Hyv), Hyv. congruence.
Qed.

Lemma spec_insert_eq v x l1 l2 :
  key_equiv (key_of_value v) (key_of_value x) = true ->
  Forall (fun y => value_lt y x) l1 ->
  spec_insert v (l1 ++ x :: l2) = l1 ++ x :: l2.
Proof.
  unfold value_lt. intros H. induction 1 as [|y l1 Hy ? IH]; simpl.
  - apply key_equiv_true in H as [-> ->]. done.
  - assert (Hyv : key_compare (key_of_value y) (key_of_value v) = true)
      by (eapply lt_equiv_r; [done|by rewrite key_equiv_sym]).
    rewrite (lt_asym _ _ Hyv), Hyv. congruence.
Qed.

Lemma spec_replace_lt v x l1 l2 :
  value_lt v x -> spec_replace v (l1 ++ x :: l2) = spec_replace v l1 ++ x :: l2.
Proof.
  unfold value_lt. intros H. induction l1 as [|y l1 IH]; simpl; [by rewrite H|].
  repeat case_match; simpl; congruence.
Qed.

Lemma spec_replace_gt v x l1 l2 :
  value_lt x v -> Forall (fun y => value_lt y x) l1 ->
  spec_replace v (l1 ++ x :: l2) = l1 ++ x :: spec_replace v l2.
Proof.
  unfold value_lt. intros H. induction 1 as [|y l1 Hy ? IH]; simpl.
  - by rewrite (lt_asym _ _ H), H.
  - assert (Hyv : key_compare (key_of_value y) (key_of_value v) = true)
      by (eapply swo_trans; eauto).
    rewrite (lt_asym _ _ Hyv), Hyv. congruence.
Qed.

Lemma spec_replace_eq v x l1 l2 :
  key_equiv (key_of_value v) (key_of_value x) = true ->
  Forall (fun y => value_lt y x) l1 ->
  spec_replace v (l1 ++ x :: l2) = l1 ++ v :: l2.
Proof.
  unfold value_lt. intros H. induction 1 as [|y l1 Hy ? IH]; simpl.
  - apply key_equiv_true in H as [-> ->]. done.
  - assert (Hyv : key_compare (key_of_value y) (key_of_value v) = true)
      by (eapply lt_equiv_r; [done|by rewrite key_equiv_sym]).
    rewrite (lt_asym _ _ Hyv), Hyv. congruence.
Qed.

(** Keys strictly on one side are not equivalent, so filters drop them. *)
Lemma not_equiv_above k x l :
  key_compare k (key_of_value x) = true \/ key_equiv k (key_of_value x) = true ->
  Forall (value_lt x) l -> Forall (fun y => key_equiv k (key_of_value y) = false) l.
Proof.
  unfold value_lt. intros Hk Hf. eapply Forall_impl; [exact Hf|]. intros y Hy.
  destruct (key_equiv k (key_of_value y)) eqn:E; [|done].
  apply key_equiv_true in E as [E1 E2].
  destruct Hk as [Hk|Hk]; [rewrite (swo_trans _ _ _ Hk Hy) in E1; done|].
  rewrite key_equiv_sym in Hk. by rewrite (lt_equiv_l _ _ _ Hy Hk) in E1.
Qed.

Lemma not_equiv_below k x l :
  key_compare (key_of_value x) k = true \/ key_equiv k (key_of_value x) = true ->
  Forall (fun y => value_lt y x) l ->
  Forall (fun y => key_equiv k (key_of_value y) = false) l.
Proof.
  unfold value_lt. intros Hk Hf. eapply Forall_impl; [exact Hf|]. intros y Hy.
  destruct (key_equiv k (key_of_value y)) eqn:E; [|done].
  apply key_equiv_true in E as [E1 E2].
  destruct Hk as [Hk|Hk]; [rewrite (swo_trans _ _ _ Hy Hk) in E2; done|].
  rewrite key_equiv_sym in Hk. by rewrite (lt_equiv_r _ _ _ Hy Hk) in E2.
Qed.

Lemma filter_equiv_drop k l :
  Forall (fun y => key_equiv k (key_of_value y) = false) l ->
  filter (fun x => key_equiv k (key_of_value x) = true) l = [].
Proof. intros. apply filter_none. eapply Forall_impl; [done|]. simpl. congruence. Qed.

(** What the root comparison of a search says about the rest of the tree. *)
Lemma spec_remove_node k l v r h :
  bst (mkNode l r v h) ->
  spec_remove k (elements (mkNode l r v h)) =
  if key_compare k (key_of_value v) then spec_remove k (elements l) ++ v :: elements r
  else if key_compare (key_of_value v) k then elements l ++ v :: spec_remove k (elements r)
  else elements l ++ elements r.
Proof.
  intros (?&?&Hlt&Hgt)%bst_split. unfold spec_remove. simpl.
  rewrite filter_app, filter_cons.
  destruct (key_compare k (key_of_value v)) eqn:E1.
  { rewrite decide_True by (unfold key_equiv; by rewrite E1).
    rewrite (filter_all _ (elements r)); [done|]. eapply not_equiv_above; eauto. }
  destruct (key_compare (key_of_value v) k) eqn:E2.
  { rewrite decide_True by (unfold key_equiv; by rewrite E1, E2).
    rewrite (filter_all _ (elements l)); [done|]. eapply not_equiv_below; eauto. }
  assert (Heq : key_equiv k (key_of_value v) = true) by (by apply key_equiv_true).
  rewrite decide_False by congruence.
  rewrite !filter_all; [done|eapply not_equiv_above|eapply not_equiv_below]; eauto.
Qed.

Lemma spec_lookup_node k l v r h :
  bst (mkNode l r v h) ->
  spec_lookup k (elements (mkNode l r v h)) =
  if key_compare k (key_of_value v) then spec_lookup k (elements l)
  else if key_compare (key_of_value v) k then spec_lookup k (elements r)
  else Some v.
Proof.
  intros (?&?&Hlt&Hgt)%bst_split. unfold spec_lookup. simpl.
  rewrite filter_app, filter_cons.
  destruct (key_compare k (key_of_value v)) eqn:E1.
  { rewrite decide_False by (unfold key_equiv; by rewrite E1).
    rewrite (filter_equiv_drop k (elements r)); [by rewrite app_nil_r|].
    eapply not_equiv_above; eauto. }
  destruct (key_compare (key_of_value v) k) eqn:E2.
  { rewrite decide_False by (unfold key_equiv; by rewrite E1, E2).
    rewrite (filter_equiv_drop k (elements l)); [done|].
    eapply not_equiv_below; eauto. }
  assert (Heq : key_equiv k (key_of_value v) = true) by (by apply key_equiv_true).
  rewrite decide_True by congruence.
  rewrite (filter_equiv_drop k (elements l)); [done|eapply not_equiv_below; eauto].
Qed.

(** ** Updates and queries implement the specification *)

Lemma elements_insert v n :
  bst n -> elements (insert v n) = spec_insert v (elements n).
Proof.
  induction n as [|l IHl r IHr w h]; intros Hn; [done|].
  pose proof Hn as (Hl&Hr&Hlt&Hgt)%bst_split. cbn [insert].
  destruct (key_compare (key_of_value v) (key_of_value w)) eqn:E1.
  { rewrite elements_balance, IHl by done. cbn [elements]. by rewrite spec_insert_lt. }
  destruct (key_compare (key_of_value w) (key_of_value v)) eqn:E2.
  { rewrite elements_balance, IHr by done. cbn [elements]. by rewrite spec_insert_gt. }
  cbn [elements]. rewrite spec_insert_eq; [done|by apply key_equiv_true|done].
Qed.

Lemma elements_replace v n :
  bst n -> elements (replace v n) = spec_replace v (elements n).
Proof.
  induction n as [|l IHl r IHr w h]; intros Hn; [done|].
  pose proof Hn as (Hl&Hr&Hlt&Hgt)%bst_split. cbn [replace].
  destruct (key_compare (key_of_value v) (key_of_value w)) eqn:E1.
  { rewrite elements_balance, IHl by done. cbn [elements]. by rewrite spec_replace_lt. }
  destruct (key_compare (key_of_value w) (key_of_value v)) eqn:E2.
  { rewrite elements_balance, IHr by done. cbn [elements]. by rewrite spec_replace_gt. }
  cbn [elements]. rewrite spec_replace_eq; [done|by apply key_equiv_true|done].
Qed.

Lemma popMin_elements n :
  isTerminator n = false -> elements n = (popMin n).2 :: elements (popMin n).1.
Proof.
  induction n as [|l IHl r IHr w h]; [done|]. intros _. cbn [popMin].
  destruct l as [|ll lr lv lh]; [done|]. specialize (IHl eq_refl).
  cbn [isTerminator]. remember (mkNode ll lr lv lh) as l.
  destruct (popMin l) as [l' out]. cbn [fst snd] in *.
  rewrite elements_balance. cbn [elements]. by rewrite IHl.
Qed.

Lemma popMax_elements n :
  isTerminator n = false -> elements n = elements (popMax n).1 ++ [(popMax n).2].
Proof.
  induction n as [|l IHl r IHr w h]; [done|]. intros _. cbn [popMax].
  destruct r as [|rl rr rv rh]; [done|]. specialize (IHr eq_refl).
  cbn [isTerminator]. remember (mkNode rl rr rv rh) as r.
  destruct (popMax r) as [r' out]. cbn [fst snd] in *.
  rewrite elements_balance. cbn [elements]. rewrite IHr. by list_simplifier.
Qed.

Lemma elements_nil n : isTerminator n = true <-> elements n = [].
Proof.
  destruct n as [|l r v h]; [done|]. simpl. split; [done|].
  intros H. by destruct (elements l).
Qed.

Lemma elements_remove k n :
  bst n -> elements (remove k n) = spec_remove k (elements n).
Proof.
  induction n as [|l IHl r IHr w h]; intros Hn; [done|].
  pose proof Hn as (Hl&Hr&Hlt&Hgt)%bst_split.
  rewrite spec_remove_node by done. cbn [remove].
  destruct (key_compare k (key_of_value w)) eqn:E1.
  { rewrite elements_balance, IHl by done. done. }
  destruct (key_compare (key_of_value w) k) eqn:E2.
  { rewrite elements_balance, IHr by done. done. }
  destruct (isTerminator l) eqn:E3; [by apply elements_nil in E3 as ->|].
  destruct (isTerminator r) eqn:E4; [apply elements_nil in E4 as ->; by rewrite app_nil_r|].
  apply popMin_elements in E4. destruct (popMin r) as [nr m].
  by rewrite elements_balance, E4.
Qed.

Lemma lookup_elements k n : bst n -> lookup k n = spec_lookup k (elements n).
Proof.
  induction n as [|l IHl r IHr w h]; intros Hn; [done|].
  pose proof Hn as (Hl&Hr&_)%bst_split.
  rewrite spec_lookup_node by done. cbn [lookup]. repeat case_match; auto.
Qed.

Lemma count_lookup k n : count k n = match lookup k n with Some _ => 1 | None => 0 end.
Proof. induction n; simpl; repeat case_match; try congruence; by simplify_eq/=. Qed.

(** ** Sortedness of the specification *)

Lemma spec_insert_elem_of v x l :
  x ∈ spec_insert v l -> x = v \/ x ∈ l.
Proof. induction l; simpl; repeat case_match; set_solver. Qed.

Lemma spec_replace_elem_of v x l :
  x ∈ spec_replace v l -> x = v \/ x ∈ l.
Proof. induction l; simpl; repeat case_match; set_solver. Qed.

Lemma spec_insert_sorted v l :
  StronglySorted value_lt l -> StronglySorted value_lt (spec_insert v l).
Proof.
  induction 1 as [|x l Hs IH Hx]; simpl; [repeat constructor|].
  rewrite Forall_forall in Hx.
  destruct (key_compare (key_of_value v) (key_of_value x)) eqn:E1.
  { rewrite !StronglySorted_cons, Forall_cons, !Forall_forall. split_and!; try done.
    intros y Hy. eapply swo_trans; [exact E1|by apply Hx]. }
  destruct (key_compare (key_of_value x) (key_of_value v)) eqn:E2.
  - rewrite StronglySorted_cons, Forall_forall. split; [|done].
    intros y [->|?]%spec_insert_elem_of; [done|by apply Hx].
  - rewrite StronglySorted_cons, Forall_forall. done.
Qed.

Lemma spec_replace_sorted v l :
  StronglySorted value_lt l -> StronglySorted value_lt (spec_replace v l).
Proof.
  induction 1 as [|x l Hs IH Hx]; simpl; [repeat constructor|].
  rewrite Forall_forall in Hx.
  destruct (key_compare (key_of_value v) (key_of_value x)) eqn:E1.
  { rewrite !StronglySorted_cons, Forall_cons, !Forall_forall. split_and!; try done.
    intros y Hy. eapply swo_trans; [exact E1|by apply Hx]. }
  destruct (key_compare (key_of_value x) (key_of_value v)) eqn:E2.
  - rewrite StronglySorted_cons, Forall_forall. split; [|done].
    intros y [->|?]%spec_replace_elem_of; [done|by apply Hx].
  - rewrite StronglySorted_cons, Forall_forall. split; [|done].
    intros y Hy. eapply lt_equiv_l; [by apply Hx|].
    rewrite key_equiv_sym. by apply key_equiv_true.
Qed.

Lemma filter_sorted (P : V -> Prop) `{!forall x, Decision (P x)} l :
  StronglySorted value_lt l -> StronglySorted value_lt (filter P l).
Proof.
  induction 1 as [|x l Hs IH Hx]; [constructor|].
  rewrite filter_cons. case_decide; [|done].
  apply StronglySorted_cons. split; [|done].
  apply Forall_forall. intros y [_ Hy]%list_elem_of_filter.
  rewrite Forall_forall in Hx. by apply Hx.
Qed.

Lemma sorted_tail x l : StronglySorted value_lt (x :: l) -> StronglySorted value_lt l.
Proof. rewrite StronglySorted_cons. by intros []. Qed.

Lemma bst_popMin n : bst n -> bst (popMin n).1.
Proof.
  intros Hn. destruct (isTerminator n) eqn:E; [by destruct n|].
  unfold bst in *. rewrite (popMin_elements n E) in Hn. by eapply sorted_tail.
Qed.

Lemma bst_popMax n : bst n -> bst (popMax n).1.
Proof.
  intros Hn. destruct (isTerminator n) eqn:E; [by destruct n|].
  unfold bst in *. rewrite (popMax_elements n E) in Hn.
  by apply StronglySorted_app in Hn as (_&?&_).
Qed.

(** The container's type invariant and its updates. *)
Definition wf (n : Node) : Prop := bst n /\ avl n.

Inductive update : Type :=
  | UInsert (v : V) | UReplace (v : V) | URemove (k : K) | UPopMin | UPopMax.

Definition apply_update (u : update) (n : Node) : Node :=
  match u with
  | UInsert v => insert v n
  | UReplace v => replace v n
  | URemove k => remove k n
  | UPopMin => (popMin n).1
  | UPopMax => (popMax n).1
  end.

Lemma update_wf u n : wf n -> wf (apply_update u n).
Proof.
  intros [Hb Ha]. destruct u; simpl; (split; [|by apply avl_insert || by apply avl_replace
    || by apply avl_remove || by apply avl_popMin || by apply avl_popMax]).
  - unfold bst. rewrite elements_insert by done. by apply spec_insert_sorted.
  - unfold bst. rewrite elements_replace by done. by apply spec_replace_sorted.
  - unfold bst. rewrite elements_remove by done. by apply filter_sorted.
  - by apply bst_popMin.
  - by apply bst_popMax.
Qed.

Definition spec_update (u : update) (l : list V) : list V :=
  match u with
  | UInsert v => spec_insert v l
  | UReplace v => spec_replace v l
  | URemove k => spec_remove k l
  | UPopMin => tail l
  | UPopMax => removelast l
  end.

Lemma elements_update u n :
  bst n -> elements (apply_update u n) = spec_update u (elements n).
Proof.
  intros Hn. destruct u; simpl.
  - by apply elements_insert.
  - by apply elements_replace.
  - by apply elements_remove.
  - destruct (isTerminator n) eqn:E; [by destruct n|]. by rewrite (popMin_elements n E).
  - destruct (isTerminator n) eqn:E; [by destruct n|].
    by rewrite (popMax_elements n E), removelast_last.
Qed.

(** ** [lookup_previous], [min], [max] *)

Lemma drop_above k v l :
  key_compare (key_of_value v) k = false -> Forall (value_lt v) l ->
  Forall (fun x => ~ key_compare k (key_of_value x) = false) l.
Proof.
  intros Hk Hf. eapply Forall_impl; [exact Hf|]. intros y Hy. simpl.
  destruct (swo_neg _ _ k Hy) as [| ->]; [congruence|done].
Qed.

Lemma lookup_previous_loop_elements k n res :
  bst n -> lookup_previous_loop k n res =
  match spec_lookup_previous k (elements n) with Some x => Some x | None => res end.
Proof.
  revert res. induction n as [|l IHl r IHr v h]; intros res Hn; [done|].
  pose proof Hn as (Hl&Hr&Hlt&Hgt)%bst_split.
  unfold spec_lookup_previous in *. cbn [lookup_previous_loop elements].
  rewrite filter_app, filter_cons.
  destruct (key_compare k (key_of_value v)) eqn:E1.
  { rewrite decide_False by congruence. rewrite (filter_none _ (elements r)).
    - rewrite app_nil_r. by apply IHl.
    - eapply drop_above; [|done]. by apply lt_asym. }
  rewrite decide_True by done.
  destruct (key_compare (key_of_value v) k) eqn:E2.
  { rewrite IHr, last_app_cons, last_cons_default by done. by case_match. }
  rewrite (filter_none _ (elements r)) by (by eapply drop_above).
  by rewrite last_app_cons.
Qed.

Lemma min_elements n : isTerminator n = false -> min n = of_option AssertFail (head (elements n)).
Proof.
  intros Hn. unfold min. rewrite Hn.
  induction n as [|l IHl r IHr v h]; [done|]. cbn [min_loop elements].
  destruct l as [|ll lr lv lh]; [done|]. specialize (IHl eq_refl).
  cbn [isTerminator] in *. rewrite IHl.
  remember (mkNode ll lr lv lh) as l.
  destruct (elements l) eqn:E; [|done]. apply elements_nil in E. by subst.
Qed.

Lemma max_elements n : isTerminator n = false -> max n = of_option AssertFail (last (elements n)).
Proof.
  intros Hn. unfold max. rewrite Hn.
  induction n as [|l IHl r IHr v h]; [done|]. cbn [max_loop elements].
  rewrite last_app_cons, last_cons_default.
  destruct r as [|rl rr rv rh]; [done|]. specialize (IHr eq_refl).
  cbn [isTerminator] in *. rewrite IHr.
  remember (mkNode rl rr rv rh) as r.
  destruct (last (elements r)) eqn:E; [done|].
  apply last_None, elements_nil in E. by subst.
Qed.

Lemma size_elements n : size n = length (elements n).
Proof. induction n; simpl; [done|]. rewrite length_app. simpl. lia. Qed.

(** ** Iterators

    [path root s]: the stack [s] (top first) is the chain of nodes from [root]
    down to its top.  [remaining s] lists the values from the iterator's
    position to the end. *)

Inductive path (root : Node) : list Node -> Prop :=
  | path_root : isTerminator root = false -> path root [root]
  | path_left n s :
      path root (n :: s) -> isTerminator (left n) = false ->
      path root (left n :: n :: s)
  | path_right n s :
      path root (n :: s) -> isTerminator (right n) = false ->
      path root (right n :: n :: s).

Fixpoint after (n : Node) (s : list Node) : list V :=
  match s with
  | [] => []
  | p :: s' => if bool_decide (n = left p)
               then value p :: elements (right p) ++ after p s'
               else after p s'
  end.

Definition remaining (s : list Node) : list V :=
  match s with
  | [] => []
  | n :: s' => value n :: elements (right n) ++ after n s'
  end.

Definition iter_ok (root : Node) (it : iterator) : Prop :=
  it_root it = root /\ max_elts (it_stack it) = height root /\
  (elts (it_stack it) = [] \/ path root (elts (it_stack it))).

Lemma elements_node n :
  isTerminator n = false ->
  elements n = elements (left n) ++ value n :: elements (right n).
Proof. by destruct n. Qed.

(** Every node of a path is a balanced search tree, and the path is no longer
    than the tree is high. *)
Lemma path_inv root s :
  wf root -> path root s ->
  match s with
  | [] => False
  | n :: s' => isTerminator n = false /\ wf n /\ (length s' + height n <= height root)%nat
  end.
Proof.
  intros Hwf. induction 1 as [|n s Hp IH Hl|n s Hp IH Hr]; [done|..];
    destruct IH as (Hn&[Hb Ha]&Hlen); destruct n as [|l r v h]; try done;
    simpl in Hl || simpl in Hr;
    pose proof Hb as (?&?&_)%bst_split; destruct Ha as (?&?&->&?&?);
    simpl in *; split_and!; try done; lia.
Qed.

Lemma children_differ n :
  bst n -> isTerminator (left n) = false -> left n <> right n.
Proof.
  destruct n as [|l r v h]; [done|]. simpl. intros (_&_&Hlt&Hgt)%bst_split Hl ->.
  destruct (elements r) as [|x xs] eqn:E; [by apply elements_nil in E; congruence|].
  apply Forall_cons in Hlt as [H1 _], Hgt as [H2 _].
  unfold value_lt in *. by rewrite (lt_asym _ _ H1) in H2.
Qed.

Lemma path_push root s n :
  wf root -> path root (n :: s) ->
  push_back n (mkStack s (height root)) = Ret (mkStack (n :: s) (height root)).
Proof.
  intros Hwf Hp. pose proof (path_inv _ _ Hwf Hp) as (Hn&[_ Ha]&Hlen).
  unfold push_back. simpl. pose proof (avl_height_pos n Ha Hn).
  by destruct (Nat.ltb_spec (length s) (height root)); [|lia].
Qed.

(** Descending to the leftmost node below the top of a path. *)
Lemma push_left_spec root m s :
  wf root -> path root (m :: s) ->
  exists s', push_left (left m) (mkStack (m :: s) (height root))
             = Ret (mkStack s' (height root)) /\
    path root s' /\ remaining s' = elements m ++ after m s.
Proof.
  intros Hwf. revert s. induction m as [|l IHl r _ v h]; intros s Hp.
  { by apply path_inv in Hp as [? _]. }
  cbn [left]. destruct l as [|ll lr lv lh]; [by exists (mkNode terminator r v h :: s)|].
  remember (mkNode ll lr lv lh) as l.
  assert (Hp' : path root (l :: mkNode l r v h :: s))
    by (apply (path_left root (mkNode l r v h)); subst; done).
  destruct (IHl _ Hp') as (s'&E&?&Hrem). exists s'. split_and!; [|done|].
  - rewrite <- E. subst l. cbn [push_left].
    rewrite (path_push root) by done. done.
  - rewrite Hrem. cbn [after left value right]. rewrite bool_decide_true by done.
    cbn [elements]. by rewrite <- (assoc_L (++)).
Qed.

Lemma pop_up_spec root n s :
  path root (n :: s) ->
  (pop_up left n s = [] \/ path root (pop_up left n s)) /\
  remaining (pop_up left n s) = after n s.
Proof.
  revert n. induction s as [|p s IH]; intros n Hp; simpl; [by split; [left|]|].
  assert (path root (p :: s)) by (by inversion Hp).
  case_bool_decide; [by split; [right|]|by apply IH].
Qed.

Lemma iter_ok_nonend root it x l :
  iter_ok root it -> remaining (elts (it_stack it)) = x :: l ->
  path root (elts (it_stack it)).
Proof. intros (_&_&[E|E]) H; [by rewrite E in H|done]. Qed.

(** [operator++] never overflows the stack and moves by one element. *)
Lemma incr_spec root it x l :
  wf root -> iter_ok root it -> remaining (elts (it_stack it)) = x :: l ->
  exists it', incr it = Ret it' /\ iter_ok root it' /\
    remaining (elts (it_stack it')) = l.
Proof.
  intros Hwf Hok Hrem. pose proof (iter_ok_nonend _ _ _ _ Hok Hrem) as Hp.
  destruct it as [rt [s mx]], Hok as (Hr&Hm&_). simpl in *. subst rt mx.
  destruct s as [|n s]; [done|]. unfold incr. simpl in *. simplify_eq/=.
  pose proof (path_inv _ _ Hwf Hp) as (Hn&[Hb _]&_).
  destruct (isTerminator (right n)) eqn:Er.
  { destruct (pop_up_spec _ _ _ Hp) as [??]. eexists. split_and!; [done|by split_and!|].
    simpl. apply elements_nil in Er as ->. done. }
  pose proof (path_right _ _ _ Hp Er) as Hp'.
  rewrite (path_push root) by done. simpl.
  destruct (push_left_spec _ _ _ Hwf Hp') as (s'&->&?&Hs'). simpl.
  eexists. split_and!; [done|by split_and!; [| |right]|]. simpl. rewrite Hs'. simpl.
  rewrite bool_decide_false; [done|]. intros Heq.
  apply (children_differ n Hb); [by rewrite <- Heq|done].
Qed.

Lemma begin_spec root :
  wf root -> exists it, begin root = Ret it /\ iter_ok root it /\
    remaining (elts (it_stack it)) = elements root.
Proof.
  intros Hwf. unfold begin, new_iterator. destruct (isTerminator root) eqn:E.
  { destruct root; [|done]. eexists. split_and!; [done|by split_and!; [| |left]|done]. }
  assert (Hp : path root [root]) by (by constructor).
  destruct (push_left_spec _ _ _ Hwf Hp) as (s'&Es&?&Hs').
  destruct root as [|l r v h]; [done|]. remember (mkNode l r v h) as root.
  assert (Hpl : push_left root (mkStack [] (height root))
                = push_left (left root) (mkStack [root] (height root))).
  { rewrite Heqroot at 1. cbn [push_left]. rewrite <- Heqroot.
    rewrite (path_push root) by done. by rewrite Heqroot. }
  rewrite Hpl, Es. simpl. eexists. split_and!; [done|by split_and!; [| |right]|].
  simpl. rewrite Hs'. simpl. by rewrite app_nil_r.
Qed.

Lemma deref_spec root it x l :
  wf root -> iter_ok root it -> remaining (elts (it_stack it)) = x :: l ->
  deref it = Ret x.
Proof.
  intros Hwf Hok Hrem. destruct it as [rt [s mx]]. simpl in *.
  destruct s as [|n s]; simplify_eq/=. done.
Qed.

(** The client loop [for (it = begin(); it != end(); ++it)]. *)
Fixpoint collect (fuel : nat) (it e : iterator) : outcome (list V) :=
  if iter_eq it e then Ret []
  else match fuel with
  | O => Stop OutOfFuel
  | S fuel' =>
      v ← deref it; it' ← incr it; vs ← collect fuel' it' e; Ret (v :: vs)
  end.

Definition to_list (fuel : nat) (n : Node) : outcome (list V) :=
  b ← begin n; e ← end_ n; collect fuel b e.

Lemma collect_spec root it e l fuel :
  wf root -> iter_ok root it -> remaining (elts (it_stack it)) = l ->
  elts (it_stack e) = [] -> (length l <= fuel)%nat -> collect fuel it e = Ret l.
Proof.
  intros Hwf. revert it fuel. induction l as [|x l IH]; intros it fuel Hok Hrem He Hf.
  - assert (E : elts (it_stack it) = []) by (by destruct (elts (it_stack it))).
    destruct fuel; cbn [collect]; unfold iter_eq; by rewrite E, He.
  - assert (E : iter_eq it e = false).
    { unfold iter_eq. rewrite He. apply bool_decide_eq_false. intros E. by rewrite E in Hrem. }
    destruct fuel; [simpl in Hf; lia|]. cbn [collect]. rewrite E.
    rewrite (deref_spec root it x l) by done. simpl.
    destruct (incr_spec root it x l) as (it'&->&?&?); [done..|]. simpl.
    rewrite (IH it' fuel); [done..|simpl in Hf; lia].
Qed.

(** [operator--]: [consumed] lists the values before the iterator's position. *)

Fixpoint before (n : Node) (s : list Node) : list V :=
  match s with
  | [] => []
  | p :: s' => if bool_decide (n = right p)
               then before p s' ++ elements (left p) ++ [value p]
               else before p s'
  end.

Definition consumed (root : Node) (s : list Node) : list V :=
  match s with
  | [] => elements root
  | n :: s' => before n s' ++ elements (left n)
  end.

Lemma path_partition root n s :
  wf root -> path root (n :: s) -> before n s ++ elements n ++ after n s = elements root.
Proof.
  intros Hwf. remember (n :: s) as st eqn:Est. intros Hp. revert n s Est.
  induction Hp as [|m st Hp IH Hl|m st Hp IH Hr]; intros n s Est; simplify_eq/=.
  - by rewrite app_nil_r.
  - pose proof (path_inv _ _ Hwf Hp) as (Hm&[Hb _]&_).
    rewrite bool_decide_false by (by apply children_differ).
    rewrite bool_decide_true by done.
    rewrite <- (IH m st eq_refl), (elements_node m Hm). by list_simplifier.
  - pose proof (path_inv _ _ Hwf Hp) as (Hm&[Hb _]&_).
    rewrite bool_decide_true by done. rewrite bool_decide_false.
    + rewrite <- (IH m st eq_refl), (elements_node m Hm). by list_simplifier.
    + intros Heq. apply (children_differ m Hb); [by rewrite <- Heq|done].
Qed.

Lemma iter_partition root it :
  wf root -> iter_ok root it ->
  consumed root (elts (it_stack it)) ++ remaining (elts (it_stack it)) = elements root.
Proof.
  intros Hwf (_&_&[->|Hp]); [by simpl; rewrite app_nil_r|].
  pose proof (path_inv _ _ Hwf Hp) as Hi.
  destruct (elts (it_stack it)) as [|n s]; [done|]. destruct Hi as (Hn&_&_).
  rewrite <- (path_partition root n s Hwf Hp), (elements_node n Hn). simpl.
  by list_simplifier.
Qed.

Lemma push_right_spec root m s :
  wf root -> path root (m :: s) ->
  exists n0 s0, push_right (right m) (mkStack (m :: s) (height root))
             = Ret (mkStack (n0 :: s0) (height root)) /\
    path root (n0 :: s0) /\
    consumed root (n0 :: s0) ++ [value n0] = before m s ++ elements m.
Proof.
  intros Hwf. revert s. induction m as [|l _ r IHr v h]; intros s Hp.
  { by apply path_inv in Hp as [? _]. }
  cbn [right]. destruct r as [|rl rr rv rh].
  { eexists _, s. split_and!; [done..|]. simpl. by list_simplifier. }
  remember (mkNode rl rr rv rh) as r.
  assert (Hp' : path root (r :: mkNode l r v h :: s))
    by (apply (path_right root (mkNode l r v h)); subst; done).
  destruct (IHr _ Hp') as (n0&s0&E&?&Hc). exists n0, s0. split_and!; [|done|].
  - rewrite <- E. subst r. cbn [push_right]. rewrite (path_push root) by done. done.
  - rewrite Hc. cbn [before left value right]. rewrite bool_decide_true by done.
    cbn [elements]. by list_simplifier.
Qed.

Lemma pop_up_right_spec root n s :
  path root (n :: s) ->
  match pop_up right n s with
  | [] => before n s = []
  | p :: s' => path root (p :: s') /\ consumed root (p :: s') ++ [value p] = before n s
  end.
Proof.
  revert n. induction s as [|p s IH]; intros n Hp; simpl; [done|].
  assert (path root (p :: s)) by (by inversion Hp).
  case_bool_decide; [|by apply IH]. split; [done|]. simpl. by list_simplifier.
Qed.

Lemma decr_spec root it x l :
  wf root -> iter_ok root it -> consumed root (elts (it_stack it)) = l ++ [x] ->
  exists it', decr it = Ret it' /\ iter_ok root it' /\
    consumed root (elts (it_stack it')) = l /\
    remaining (elts (it_stack it')) = x :: remaining (elts (it_stack it)).
Proof.
  intros Hwf Hok Hc.
  enough (exists it', decr it = Ret it' /\ iter_ok root it' /\
    consumed root (elts (it_stack it')) = l) as (it'&?&Hok'&Hc').
  { exists it'. split_and!; try done.
    pose proof (iter_partition _ _ Hwf Hok) as H1.
    pose proof (iter_partition _ _ Hwf Hok') as H2.
    rewrite Hc in H1. rewrite Hc', <- H1, <- (assoc_L (++)) in H2.
    by apply app_inv_head in H2. }
  destruct it as [rt [s mx]], Hok as (Hr&Hm&Hs). simpl in *. subst rt mx.
  destruct s as [|n s]; simpl in Hc; unfold decr; simpl.
  - destruct (isTerminator root) eqn:E; [apply elements_nil in E; rewrite E in Hc; by destruct l|].
    assert (Hp : path root [root]) by (by constructor).
    destruct (push_right_spec _ _ _ Hwf Hp) as (n0&s0&Es&?&Hcc).
    assert (Hpr : push_right root (mkStack [] (height root))
                  = push_right (right root) (mkStack [root] (height root))).
    { pose proof (path_push root [] root Hwf Hp) as Hpush. clear -Hpush E.
      destruct root; [done|]. cbn [push_right right]. by rewrite Hpush. }
    rewrite Hpr, Es. simpl. eexists. split_and!; [done|by split_and!; [| |right]|].
    change (before root [] ++ elements root) with (elements root) in Hcc.
    rewrite Hc in Hcc. by apply app_inj_tail in Hcc as [??].
  - destruct Hs as [|Hp]; [done|]. pose proof (path_inv _ _ Hwf Hp) as (Hn&[Hb _]&_).
    destruct (isTerminator (left n)) eqn:El.
    + apply elements_nil in El. rewrite El, app_nil_r in Hc.
      pose proof (pop_up_right_spec _ _ _ Hp) as Hpop.
      eexists. split; [done|]. destruct (pop_up right n s) as [|p s'].
      { rewrite Hpop in Hc. by destruct l. }
      destruct Hpop as [? Hcc]. rewrite Hc in Hcc. apply app_inj_tail in Hcc as [? _].
      split; [by split_and!; [| |right]|done].
    + pose proof (path_left _ _ _ Hp El) as Hp'. rewrite (path_push root) by done. simpl.
      destruct (push_right_spec _ _ _ Hwf Hp') as (n0&s0&->&?&Hcc). simpl.
      eexists. split_and!; [done|by split_and!; [| |right]|].
      cbn [before] in Hcc. rewrite bool_decide_false in Hcc by (by apply children_differ).
      rewrite Hc in Hcc. by apply app_inj_tail in Hcc as [??].
Qed.

(** A position with nothing before it is the one of [begin]. *)
Lemma before_nil_push_left root s :
  wf root -> path root s ->
  match s with
  | [] => True
  | n :: s' => before n s' = [] ->
      push_left root (mkStack [] (height root)) = push_left (left n) (mkStack (n :: s') (height root))
  end.
Proof.
  intros Hwf. induction 1 as [Hr|n s Hp IH Hl|n s Hp IH Hr].
  - intros _. pose proof (path_push root [] root Hwf (path_root root Hr)) as Hpush.
    destruct root; [done|]. cbn [push_left left]. by rewrite Hpush.
  - simpl. pose proof (path_inv _ _ Hwf Hp) as (Hm&[Hb _]&_).
    rewrite bool_decide_false by (by apply children_differ). intros Hbef. rewrite IH by done.
    pose proof (path_push root (n :: s) (left n) Hwf (path_left _ _ _ Hp Hl)) as Hpush.
    destruct (left n); [done|]. cbn [push_left left]. by rewrite Hpush.
  - simpl. rewrite bool_decide_true by done. by destruct (before n s), (elements (left n)).
Qed.

Lemma iter_eq_begin root it b :
  wf root -> iter_ok root it -> begin root = Ret b ->
  iter_eq it b = true <-> consumed root (elts (it_stack it)) = [].
Proof.
  intros Hwf Hok Hb. destruct (begin_spec root Hwf) as (b' & Eb & Hokb & Hrem).
  replace b' with b in * by congruence. unfold iter_eq. rewrite bool_decide_eq_true. split.
  - intros E. pose proof (iter_partition root b Hwf Hokb) as P. rewrite Hrem in P. rewrite E.
    apply (app_inv_tail (elements root)). by rewrite P.
  - intros Hc. destruct it as [rt [s mx]], Hok as (_&_&Hs). simpl in *.
    assert (Hst : exists st, push_left root (mkStack [] (height root)) = Ret st /\ elts st = s).
    { destruct Hs as [->|Hp].
      - simpl in Hc. apply elements_nil in Hc. destruct root; [|done]. by eexists.
      - pose proof (before_nil_push_left root s Hwf Hp) as Hpl. destruct s as [|n s]; [by inversion Hp|].
        simpl in Hc. apply app_nil in Hc as [H1 H2]. rewrite Hpl by done. apply elements_nil in H2.
        destruct (left n); [|done]. by eexists. }
    destruct Hst as (st & Est & <-). unfold begin, new_iterator in Hb. rewrite Est in Hb.
    cbn in Hb. by injection Hb as <-.
Qed.

(** ** Bounds: the values not before [k] *)

Definition not_before (k : K) (l : list V) : list V :=
  filter (fun x => key_compare (key_of_value x) k = false) l.

Definition strictly_after (k : K) (l : list V) : list V :=
  filter (fun x => key_compare k (key_of_value x) = true) l.

Lemma not_before_keep k v l :
  key_compare (key_of_value v) k = false -> Forall (value_lt v) l -> not_before k l = l.
Proof.
  intros Hk Hf. apply filter_all. eapply Forall_impl; [exact Hf|]. intros y Hy. simpl.
  destruct (key_compare (key_of_value y) k) eqn:E; [|done].
  by rewrite (swo_trans _ _ _ Hy E) in Hk.
Qed.

Lemma not_before_drop k v l :
  key_compare k (key_of_value v) = false -> Forall (fun x => value_lt x v) l ->
  not_before k l = [].
Proof.
  intros Hk Hf. apply filter_none. eapply Forall_impl; [exact Hf|]. intros y Hy. simpl.
  destruct (swo_neg _ _ k Hy) as [-> |]; [done|congruence].
Qed.

Lemma not_before_node k l v r h :
  bst (mkNode l r v h) ->
  not_before k (elements (mkNode l r v h)) =
  if key_compare k (key_of_value v) then not_before k (elements l) ++ v :: elements r
  else if key_compare (key_of_value v) k then not_before k (elements r)
  else v :: elements r.
Proof.
  intros (?&?&Hlt&Hgt)%bst_split. unfold not_before at 1. simpl.
  rewrite filter_app, filter_cons. fold (not_before k (elements l)) (not_before k (elements r)).
  destruct (key_compare k (key_of_value v)) eqn:E1.
  { rewrite decide_True by (by apply lt_asym).
    rewrite (not_before_keep k v (elements r)) by (try apply lt_asym; done). done. }
  rewrite (not_before_drop k v (elements l)) by done. simpl.
  destruct (key_compare (key_of_value v) k) eqn:E2; [by rewrite decide_False|].
  rewrite decide_True by done. by rewrite (not_before_keep k v (elements r)).
Qed.

Lemma lower_bound_loop_spec root k m s :
  wf root -> path root (m :: s) ->
  exists found c s', lower_bound_loop k m (mkStack s (height root))
      = Ret (found, mkStack (c :: s') (height root)) /\
    path root (c :: s') /\
    (found = true -> key_compare (key_of_value (value c)) k = false) /\
    (if key_compare (key_of_value (value c)) k then tail (remaining (c :: s'))
     else remaining (c :: s')) = not_before k (elements m) ++ after m s.
Proof.
  intros Hwf. revert s. induction m as [|l IHl r IHr v h]; intros s Hp.
  { by apply path_inv in Hp as [? _]. }
  pose proof (path_inv _ _ Hwf Hp) as (_&[Hb _]&_).
  rewrite not_before_node by done.
  cbn [lower_bound_loop]. rewrite (path_push root) by done.
  unfold mbind, outcome_bind.
  destruct (key_compare k (key_of_value v)) eqn:E1.
  { destruct l as [|ll lr lv lh].
    { exists false, (mkNode terminator r v h), s. split_and!; [done..|]. simpl.
      by rewrite (lt_asym _ _ E1). }
    remember (mkNode ll lr lv lh) as l.
    assert (Hp' : path root (l :: mkNode l r v h :: s))
      by (apply (path_left root (mkNode l r v h)); subst; done).
    destruct (IHl _ Hp') as (found&c&s'&->&?&?&Hrem). exists found, c, s'.
    split_and!; [done..|]. rewrite Hrem. cbn [after left value right].
    rewrite bool_decide_true by done. by list_simplifier. }
  destruct (key_compare (key_of_value v) k) eqn:E2.
  { destruct r as [|rl rr rv rh].
    { exists false, (mkNode l terminator v h), s. split_and!; [done..|]. simpl. by rewrite E2. }
    remember (mkNode rl rr rv rh) as r.
    assert (Hp' : path root (r :: mkNode l r v h :: s))
      by (apply (path_right root (mkNode l r v h)); subst; done).
    destruct (IHr _ Hp') as (found&c&s'&->&?&?&Hrem). exists found, c, s'.
    split_and!; [done..|]. rewrite Hrem. cbn [after left value right]. rewrite bool_decide_false; [done|].
    intros Heq. apply (children_differ _ Hb); [simpl; by subst|done]. }
  exists true, (mkNode l r v h), s. split_and!; [done..|]. simpl. by rewrite E2.
Qed.

Lemma lower_bound_spec root k :
  wf root -> exists it, lower_bound k root = Ret it /\ iter_ok root it /\
    remaining (elts (it_stack it)) = not_before k (elements root).
Proof.
  intros Hwf. unfold lower_bound, new_iterator. simpl.
  destruct (isTerminator root) eqn:E.
  { destruct root; [|done]. eexists. split_and!; [done|by split_and!; [| |left]|done]. }
  assert (Hp : path root [root]) by (by constructor).
  destruct (lower_bound_loop_spec root k root [] Hwf Hp) as (found&c&s'&->&Hp'&Hf&Hrem).
  simpl in Hrem. rewrite app_nil_r in Hrem. simpl.
  assert (Hok : iter_ok root (mkIter root (mkStack (c :: s') (height root))))
    by (by split_and!; [| |right]).
  destruct (key_compare (key_of_value (value c)) k) eqn:Ec.
  - destruct found; [by specialize (Hf eq_refl)|]. simpl.
    destruct (incr_spec root _ _ _ Hwf Hok eq_refl) as (it'&->&?&Hr).
    exists it'. split_and!; [done..|]. by rewrite Hr.
  - exists (mkIter root (mkStack (c :: s') (height root))).
    split_and!; [by destruct found|done|done].
Qed.

Lemma not_before_head k l x xs :
  StronglySorted value_lt l -> not_before k l = x :: xs ->
  key_compare (key_of_value x) k = false /\ Forall (value_lt x) xs /\
  strictly_after k l =
    (if key_compare k (key_of_value x) then x :: xs else xs).
Proof.
  induction 1 as [|y l Hs IH Hy]; [done|]. unfold not_before, strictly_after in *.
  rewrite !filter_cons. case_decide as Hd.
  - intros [= <- <-]. split_and!; [done| |].
    { apply Forall_forall. intros z [_ Hz]%list_elem_of_filter.
      rewrite Forall_forall in Hy. by apply Hy. }
    assert (Heq : filter (fun x => key_compare (key_of_value x) k = false) l = l)
      by (by eapply (not_before_keep k y)).
    rewrite Heq.
    assert (Hall : filter (fun x => key_compare k (key_of_value x) = true) l = l).
    { apply filter_all. eapply Forall_impl; [exact Hy|]. intros z Hz. simpl.
      destruct (swo_neg _ _ k Hz) as [|]; [congruence|done]. }
    rewrite Hall. by repeat case_match; case_decide.
  - rewrite (decide_False (P := key_compare k (key_of_value y) = true)); [by apply IH|].
    intros E. apply lt_asym in E. congruence.
Qed.

Lemma not_before_nil k l :
  StronglySorted value_lt l -> not_before k l = [] -> strictly_after k l = [].
Proof.
  intros _ H. apply filter_none. apply Forall_forall. intros x Hx E.
  apply lt_asym in E. apply (not_elem_of_nil x). rewrite <- H.
  by apply list_elem_of_filter.
Qed.

Lemma iter_eq_end root it :
  iter_ok root it ->
  iter_eq it (mkIter root (mkStack [] (height root))) = true <->
  remaining (elts (it_stack it)) = [].
Proof.
  intros _. unfold iter_eq. simpl. rewrite bool_decide_eq_true.
  by destruct (elts (it_stack it)).
Qed.

(** ** Properties *)

(** C13: every update of the tree ([insert], [replace], [remove], [popMin],
    [popMax]) keeps the container's invariant (in-order keys strictly
    increasing, stored heights exact, sibling heights within two) and acts on
    the in-order list exactly as the ordered-list operation of the
    specification. *)
Theorem tree_update_refines u n :
  wf n -> wf (apply_update u n) /\ elements (apply_update u n) = spec_update u (elements n).
Proof. intros Hn. split; [by apply update_wf|by apply elements_update; destruct Hn]. Qed.

(** On a well-formed tree the queries agree with the in-order list:
    [lookup] and [count] find the value with an equivalent key, and
    [lookup_previous] the last value whose key is not above the argument;
    [min]/[max]/[popMin]/[popMax] give the ends and [size] the length. *)
Theorem tree_queries_refine k n :
  wf n ->
  lookup k n = spec_lookup k (elements n) /\
  count k n = match spec_lookup k (elements n) with Some _ => 1 | None => 0 end /\
  lookup_previous k n = spec_lookup_previous k (elements n) /\
  (empty n = true <-> elements n = []) /\ size n = length (elements n) /\
  (elements n <> [] ->
   min n = of_option AssertFail (head (elements n)) /\
   max n = of_option AssertFail (last (elements n)) /\
   Some (popMin n).2 = head (elements n) /\ Some (popMax n).2 = last (elements n)).
Proof.
  intros [Hb _]. rewrite count_lookup, lookup_elements by done.
  split_and!; [done|done| |apply elements_nil|apply size_elements|].
  - unfold lookup_previous. rewrite lookup_previous_loop_elements by done. by case_match.
  - intros Hne. assert (E : isTerminator n = false)
      by (destruct (isTerminator n) eqn:E; [by apply elements_nil in E|done]).
    split_and!; [by apply min_elements|by apply max_elements| |].
    + by rewrite (popMin_elements n E).
    + by rewrite (popMax_elements n E), last_snoc.
Qed.

(** A tree reached from the empty one by any sequence of updates is
    logarithmically shallow: its height [h] satisfies [2^(h/3) <= size + 1].
    With fewer than [2^64] elements no height exceeds 194, so the [unsigned]
    height arithmetic of [balance] cannot wrap. *)
Theorem tree_height_bound (us : list update) :
  let n := fold_right apply_update terminator us in
  (2 ^ (height n / 3) <= size n + 1)%nat.
Proof.
  intros n. assert (Hwf : wf n).
  { subst n. induction us; simpl; [split; constructor|by apply update_wf]. }
  destruct Hwf. by apply (avl_size_height_aux (height n)).
Qed.

(** Iterating from [begin()] with [operator++] until [end()] yields exactly
    the in-order values of a well-formed tree, in [size] steps, and the
    iterator's fixed-capacity stack (capacity = height of the root) never
    overflows. *)
Theorem iteration_complete n fuel :
  wf n -> (size n <= fuel)%nat -> to_list fuel n = Ret (elements n).
Proof.
  intros Hwf Hf. unfold to_list. destruct (begin_spec n Hwf) as (b&->&?&?). simpl.
  eapply collect_spec; [done..|by rewrite <- size_elements].
Qed.

(** From every iterator position, [operator++] moves to the next value and
    [operator--] (from [end()] too) back to the previous one, without
    overflowing the stack: a step forward and a step back cancel. *)
Theorem iterator_step_back n it x l :
  wf n -> iter_ok n it -> remaining (elts (it_stack it)) = x :: l ->
  exists it1 it2, incr it = Ret it1 /\ decr it1 = Ret it2 /\
    remaining (elts (it_stack it1)) = l /\
    remaining (elts (it_stack it2)) = x :: l /\ deref it2 = Ret x.
Proof.
  intros Hwf Hok Hrem. destruct (incr_spec n it x l Hwf Hok Hrem) as (it1&E1&Hok1&Hr1).
  pose proof (iter_partition n it Hwf Hok) as P0.
  pose proof (iter_partition n it1 Hwf Hok1) as P1.
  assert (Hc : consumed n (elts (it_stack it1)) = consumed n (elts (it_stack it)) ++ [x]).
  { rewrite Hr1 in P1. rewrite Hrem, cons_middle, (assoc_L (++)), <- P1 in P0.
    by apply app_inv_tail in P0. }
  destruct (decr_spec n it1 x _ Hwf Hok1 Hc) as (it2&E2&Hok2&_&Hr2).
  rewrite Hr1 in Hr2. exists it1, it2. split_and!; try done. by eapply deref_spec.
Qed.

(** [lower_bound(k)] positions the iterator at the first value whose key is
    not below [k], [upper_bound(k)] at the first above [k], and [find(k)] at
    the value equivalent to [k] or at [end()]. *)
Theorem bounds_correct k n :
  wf n ->
  (exists it, lower_bound k n = Ret it /\ iter_ok n it /\
     remaining (elts (it_stack it)) = not_before k (elements n)) /\
  (exists it, upper_bound k n = Ret it /\ iter_ok n it /\
     remaining (elts (it_stack it)) = strictly_after k (elements n)) /\
  (exists it, find k n = Ret it /\ iter_ok n it /\
     head (remaining (elts (it_stack it))) = spec_lookup k (elements n)).
Proof.
  intros Hwf. destruct (lower_bound_spec n k Hwf) as (it&E&Hok&Hrem).
  assert (Hend : iter_ok n (mkIter n (mkStack [] (height n)))) by (by split_and!; [| |left]).
  split; [eauto|]. unfold upper_bound, find, end_, new_iterator. simpl. rewrite E. simpl.
  pose proof (iter_eq_end n it Hok) as Hie. destruct Hwf as [Hb Ha].
  destruct (not_before k (elements n)) as [|x xs] eqn:Enb.
  { apply Hie in Hrem as Hie'. rewrite Hie'. split; eexists; (split_and!; [done..|]).
    - rewrite Hrem. by rewrite not_before_nil.
    - simpl. unfold spec_lookup. rewrite filter_none; [done|].
      apply Forall_forall. intros z Hz [_ Hq]%key_equiv_true.
      apply (not_elem_of_nil z). rewrite <- Enb. by apply list_elem_of_filter. }
  destruct (not_before_head k (elements n) x xs Hb Enb) as (Hx&Hxs&Hsa).
  rewrite (deref_spec n it x xs) by done.
  destruct (iter_eq it _); [by rewrite (proj1 Hie eq_refl) in Hrem|]. simpl.
  assert (Hlk : spec_lookup k (elements n) =
    if key_compare k (key_of_value x) then None else Some x).
  { unfold spec_lookup.
    assert (Hf : filter (fun x => key_equiv k (key_of_value x) = true) (elements n)
      = filter (fun x => key_equiv k (key_of_value x) = true) (x :: xs)).
    { rewrite <- Enb. unfold not_before. rewrite list_filter_filter.
      apply list_filter_iff. intros z. rewrite key_equiv_true. tauto. }
    rewrite Hf, filter_cons, (filter_equiv_drop k xs).
    - unfold key_equiv. rewrite Hx. by destruct (key_compare k (key_of_value x)).
    - eapply not_equiv_above; [|exact Hxs]. unfold key_equiv. rewrite Hx.
      destruct (key_compare k (key_of_value x)); auto. }
  rewrite Hlk, Hsa. destruct (key_compare k (key_of_value x)) eqn:Ek; simpl.
  - split; eexists; split_and!; try done.
  - destruct (incr_spec n it x xs (conj Hb Ha) Hok Hrem) as (it'&->&?&?).
    split; eexists; (split_and!; [done..|]); [done|by rewrite Hrem].
Qed.

End Tree.

(** ** Witnesses, on the integers with [<] *)

#[export] Instance Zltb_swo : StrictWeakOrder Z.ltb.
Proof. split; intros; to_prop; rewrite ?Z.ltb_ge, ?Z.ltb_lt in *; lia. Qed.

Definition ztree (l : list Z) : @Node Z :=
  fold_left (fun n v => insert id Z.ltb 0 v n) l terminator.

Lemma ztree_wf l : wf id Z.ltb (ztree l).
Proof.
  unfold ztree. generalize (terminator : @Node Z), (conj (SSorted_nil _) I : wf id Z.ltb terminator).
  induction l as [|v l IH]; intros n Hn; simpl; [done|].
  apply IH. by apply (update_wf id Z.ltb 0 (UInsert v)).
Qed.

Definition zsample : @Node Z := ztree [5; 1; 9; 3; 7; 8; 2; 6; 4].

Lemma tree_update_refines_witness :
  elements (apply_update id Z.ltb 0 (URemove (K:=Z) 5) zsample) = [1; 2; 3; 4; 6; 7; 8; 9].
Proof.
  rewrite (proj2 (tree_update_refines id Z.ltb 0 (URemove 5) zsample (ztree_wf _))).
  reflexivity.
Defined.

Lemma tree_queries_refine_witness :
  lookup_previous id Z.ltb 100 zsample = Some 9.
Proof.
  rewrite (proj1 (proj2 (proj2 (tree_queries_refine id Z.ltb 0 100 zsample (ztree_wf _))))).
  reflexivity.
Defined.

Lemma tree_height_bound_witness :
  (2 ^ (height (fold_right (apply_update id Z.ltb 0%Z) terminator
                 (map (UInsert (K:=Z)) [4; 6; 2; 8; 7; 3; 9; 1; 5]%Z)) / 3) <= 10)%nat.
Proof.
  exact (tree_height_bound id Z.ltb 0 (map (UInsert (K:=Z)) [4; 6; 2; 8; 7; 3; 9; 1; 5])).
Defined.

Lemma iteration_complete_witness :
  to_list 0 9 zsample = Ret [1; 2; 3; 4; 5; 6; 7; 8; 9].
Proof.
  apply (iteration_complete id Z.ltb 0 zsample 9); [apply ztree_wf|vm_compute; lia].
Defined.

Lemma iterator_step_back_witness :
  exists it it1 it2, begin zsample = Ret it /\ incr it = Ret it1 /\ decr it1 = Ret it2 /\
    deref 0 it2 = Ret 1.
Proof.
  destruct (begin_spec id Z.ltb 0 zsample (ztree_wf _)) as (it&E&Hok&Hrem).
  destruct (iterator_step_back id Z.ltb 0 zsample it 1 [2;3;4;5;6;7;8;9]
              (ztree_wf _) Hok Hrem) as (it1&it2&?&?&?&?&?).
  exists it, it1, it2. auto.
Defined.

Lemma bounds_correct_witness :
  exists it, upper_bound id Z.ltb 0 4 zsample = Ret it /\
    remaining 0 (elts (it_stack it)) = [5; 6; 7; 8; 9].
Proof.
  destruct (proj1 (proj2 (bounds_correct id Z.ltb 0 4 zsample (ztree_wf _)))) as (it&E&_&R).
  exists it. split; [exact E|]. rewrite R. reflexivity.
Defined.

End ITree.
