(* ===== verification/MapOfSets.v ===== *)
(** * MapOfSets: the UBTree index behind the counterexample cache

    Models [src/vital-src/include/klee/ADT/MapOfSets.h]: a trie that maps
    finite sets of keys to values and answers subset and superset queries (the
    counterexample-caching solver stores constraint sets in it).  A
    [std::set<K>] is the list of its elements in increasing order, a
    [std::map<K,Node>] the list of its entries in increasing key order.  A
    [V*] result is an [option V].  The container's iterator class is not
    modelled. *)

From stdpp Require Import sorting.
From S2P Require Import Prelude.

(** The ordering of the keys: [operator<] is a strict total order that agrees
    with [operator==]. *)
Class StrictTotal {K : Type} (lt : K -> K -> bool) : Prop := {
  st_irrefl : forall x, lt x x = false;
  st_trans : forall x y z, lt x y = true -> lt y z = true -> lt x z = true;
  st_total : forall x y, lt x y = true \/ x = y \/ lt y x = true
}.

Module UBTree.

Section UBTree.
Context {K V : Type} `{EqDecision K} (lt : K -> K -> bool).
(** [V()], the default value. *)
Context (V0 : V).

Inductive Node : Type :=
  mkNode (value : V) (isEndOfSet : bool) (children : list (K * Node)).

Definition value (n : Node) : V := let (v, _, _) := n in v.
Definition isEndOfSet (n : Node) : bool := let (_, e, _) := n in e.
Definition children (n : Node) : list (K * Node) := let (_, _, cs) := n in cs.

(** [Node()]. *)
Definition new_Node : Node := mkNode V0 false [].

(** [std::set<K>::insert]. *)
Fixpoint set_insert (x : K) (s : list K) : list K :=
  match s with
  | [] => [x]
  | y :: s' => if lt x y then x :: y :: s'
               else if lt y x then y :: set_insert x s' else y :: s'
  end.

(** [children.find(x)]. *)
Fixpoint child_find (x : K) (cs : list (K * Node)) : option Node :=
  match cs with
  | [] => None
  | (y, c) :: cs' => if lt x y then None
                     else if lt y x then child_find x cs' else Some c
  end.

(** [children.insert(std::make_pair(x, Node())).first->second], with the
    update [f] of the child the caller goes on with. *)
Fixpoint child_insert (x : K) (f : Node -> Node) (cs : list (K * Node))
    : list (K * Node) :=
  match cs with
  | [] => [(x, f new_Node)]
  | (y, c) :: cs' =>
      if lt x y then (x, f new_Node) :: cs
      else if lt y x then (y, c) :: child_insert x f cs'
      else (y, f c) :: cs'
  end.

Fixpoint insert (set : list K) (v : V) (n : Node) : Node :=
  match set with
  | [] => mkNode v true (children n)
  | x :: set' =>
      mkNode (value n) (isEndOfSet n) (child_insert x (insert set' v) (children n))
  end.

Fixpoint lookup (set : list K) (n : Node) : option V :=
  match set with
  | [] => if isEndOfSet n then Some (value n) else None
  | x :: set' =>
      match child_find x (children n) with
      | None => None
      | Some c => lookup set' c
      end
  end.

Definition clear (root : Node) : Node := mkNode V0 false [].

(** [findSubsets]: the result vector is the list of pushed pairs. *)
Fixpoint findSubsets (s : list K) (n : Node) (accum : list K) : list (list K * V) :=
  (if isEndOfSet n then [(accum, value n)] else []) ++
  (fix loop (it : list K) : list (list K * V) :=
     match it with
     | [] => []
     | elt :: it' =>
         match child_find elt (children n) with
         | Some c => findSubsets it' c (set_insert elt accum)
         | None => []
         end ++ loop it'
     end) s.

Definition subsets (root : Node) (set : list K) : list (list K * V) :=
  findSubsets set root [].

Fixpoint findSupersets (n : Node) (accum : list K) (s : list K) : list (list K * V) :=
  match n with
  | mkNode v e cs =>
      match s with
      | [] =>
          (if e then [(accum, v)] else []) ++
          (fix loop (cs : list (K * Node)) :=
             match cs with
             | [] => []
             | (k, c) :: cs' =>
                 findSupersets c (set_insert k accum) [] ++ loop cs'
             end) cs
      | elt :: next =>
          (fix loop (cs : list (K * Node)) :=
             match cs with
             | [] => []
             | (k, c) :: cs' =>
                 if bool_decide (elt = k) then
                   findSupersets c (set_insert k accum) next ++ loop cs'
                 else if lt k elt then
                   findSupersets c (set_insert k accum) s ++ loop cs'
                 else []
             end) cs
      end
  end.

Definition supersets (root : Node) (set : list K) : list (list K * V) :=
  findSupersets root [] set.

(** [while ( *it < kbegin->first) { ++it; if (it==end) return 0; }] *)
Fixpoint skip_it (it : list K) (kf : K) : option (list K) :=
  match it with
  | [] => None
  | e :: it' => if lt e kf then skip_it it' kf else Some it
  end.

(** [while (kbegin->first < *it) { ++kbegin; if (kbegin==kend) return 0; }],
    and [children.lower_bound(e)]. *)
Fixpoint skip_k (k : list (K * Node)) (e : K) : list (K * Node) :=
  match k with
  | [] => []
  | (kf, c) :: k' => if lt kf e then skip_k k' e else k
  end.

Section Search.
Context (p : V -> bool).

(** One iteration of the [for (;;)] loop of [findSubset], with the recursive
    call and the next iteration as arguments. *)
Definition findSubset_iter
    (findSubset : Node -> list K -> outcome (option V))
    (loop : list K -> list (K * Node) -> outcome (option V))
    (it : list K) (k : list (K * Node)) : outcome (option V) :=
  match k with
  | [] => Ret None
  | (kf, c) :: _ =>
      match skip_it it kf with
      | None => Ret None
      | Some [] => Stop MemError
      | Some (e :: it') =>
          let third it1 :=
            match it1 with
            | [] => Stop MemError
            | e1 :: _ =>
                match skip_k k e1 with
                | [] => Ret None
                | k1 => loop it1 k1
                end
            end in
          if bool_decide (e = kf) then
            res ← findSubset c it';
            match res with
            | Some _ => Ret res
            | None => if bool_decide (it' = []) then Ret res else third it'
            end
          else third (e :: it')
      end
  end.

(** The private [findSubset(n, begin, end, p)] up to its loop. *)
Definition findSubset_body
    (loop : list K -> list (K * Node) -> outcome (option V))
    (n : Node) (s : list K) : outcome (option V) :=
  if isEndOfSet n && p (value n) then Ret (Some (value n))
  else match s with
       | [] => Ret None
       | b :: _ =>
           match skip_k (children n) b with
           | [] => Ret None
           | k => loop s k
           end
       end.

Fixpoint findSubset_loop (fuel : nat) (it : list K) (k : list (K * Node))
    : outcome (option V) :=
  match fuel with
  | O => Stop OutOfFuel
  | S fuel' =>
      findSubset_iter (findSubset_body (findSubset_loop fuel'))
        (findSubset_loop fuel') it k
  end.

Definition findSubset (fuel : nat) (n : Node) (s : list K) : outcome (option V) :=
  findSubset_body (findSubset_loop fuel) n s.

Fixpoint findSuperset (n : Node) (s : list K) : option V :=
  match n with
  | mkNode v e cs =>
      match s with
      | [] =>
          if e && p v then Some v
          else
            (fix loop (cs : list (K * Node)) :=
               match cs with
               | [] => None
               | (_, c) :: cs' =>
                   match findSuperset c [] with
                   | Some res => Some res
                   | None => loop cs'
                   end
               end) cs
      | b :: s' =>
          match
            (fix loop (cs : list (K * Node)) :=
               match cs with
               | [] => None
               | (_, c) :: cs' =>
                   match findSuperset c s with
                   | Some res => Some res
                   | None => loop cs'
                   end
               end) cs
          with
          | Some res => Some res
          | None =>
              (* kmid = children.lower_bound(b) *)
              (fix mid (cs : list (K * Node)) :=
                 match cs with
                 | [] => None
                 | (k, c) :: cs' =>
                     if lt k b then mid cs'
                     else if bool_decide (b = k) then findSuperset c s' else None
                 end) cs
          end
      end
  end.
End Search.

(** ** What the tree stores *)

(** [stored n s v]: following the keys of [s] from [n] ends at a node marked
    as the end of a set, with value [v]. *)
Inductive stored : Node -> list K -> V -> Prop :=
  | stored_here v cs : stored (mkNode v true cs) [] v
  | stored_child w e cs k c s v :
      (k, c) ∈ cs -> stored c s v -> stored (mkNode w e cs) (k :: s) v.

Definition key_lt (a b : K) : Prop := lt a b = true.
Definition entry_lt (a b : K * Node) : Prop := lt a.1 b.1 = true.

Definition above (lo : option K) (k : K) : Prop :=
  match lo with None => True | Some b => lt b k = true end.

(** The tree invariant: children are in strictly increasing key order and the
    keys along every path increase strictly. *)
Fixpoint wf (lo : option K) (n : Node) : Prop :=
  match n with
  | mkNode _ _ cs =>
      StronglySorted entry_lt cs /\
      (fix go (cs : list (K * Node)) : Prop :=
         match cs with
         | [] => True
         | (k, c) :: cs' => (above lo k /\ wf (Some k) c) /\ go cs'
         end) cs
  end.

(** Number of nodes below a list of children, which bounds the search. *)
Fixpoint nodes (n : Node) : nat :=
  match n with
  | mkNode _ _ cs =>
      (fix go (cs : list (K * Node)) : nat :=
         match cs with [] => 0 | (_, c) :: cs' => S (nodes c) + go cs' end)%nat cs
  end.

Definition nodes_list (cs : list (K * Node)) : nat := nodes (mkNode V0 false cs).

Lemma Node_rect' (P : Node -> Prop) :
  (forall v e cs, Forall (fun kc => P kc.2) cs -> P (mkNode v e cs)) -> forall n, P n.
Proof.
  intros H. fix IH 1. intros [v e cs]. apply H.
  induction cs as [|[k c] cs IHcs]; constructor; [apply IH|apply IHcs].
Qed.

Lemma wf_unfold lo v e cs :
  wf lo (mkNode v e cs) <->
  StronglySorted entry_lt cs /\
  forall k c, (k, c) ∈ cs -> above lo k /\ wf (Some k) c.
Proof.
  simpl. apply and_iff_compat_l. induction cs as [|[k c] cs IH].
  - set_solver.
  - rewrite IH. split.
    + intros [? ?] k' c' [[= -> ->]|?]%elem_of_cons; [done|auto].
    + intros H. split; [apply H; set_solver|intros; apply H; set_solver].
Qed.

Lemma wf_new lo : wf lo new_Node.
Proof. simpl. split; [constructor|done]. Qed.

Lemma nodes_list_cons k c cs : nodes_list ((k, c) :: cs) = (S (nodes c) + nodes_list cs)%nat.
Proof. done. Qed.

Context {Hst : StrictTotal lt}.

Lemma elt_asym a b : lt a b = true -> lt b a = false.
Proof.
  intros H. destruct (lt b a) eqn:E; [|done].
  rewrite <- (st_irrefl a). symmetry. eapply st_trans; eauto.
Qed.

Lemma lt_ne a b : lt a b = true -> a <> b.
Proof. intros H ->. by rewrite st_irrefl in H. Qed.

Lemma lt_cases a b : lt a b = false -> lt b a = false -> a = b.
Proof. destruct (st_total a b) as [|[|]]; congruence. Qed.

Lemma sorted_head_lt x s y : StronglySorted key_lt (x :: s) -> y ∈ s -> lt x y = true.
Proof. rewrite StronglySorted_cons, Forall_forall. intros [H _]. apply H. Qed.

Lemma child_find_spec x c cs :
  StronglySorted entry_lt cs -> child_find x cs = Some c <-> (x, c) ∈ cs.
Proof.
  induction 1 as [|[y d] cs Hs IH Hy]; simpl; [set_solver|].
  rewrite Forall_forall in Hy. rewrite elem_of_cons.
  destruct (lt x y) eqn:E1.
  { split; [done|]. intros [[= -> ->]|H]; [by rewrite st_irrefl in E1|].
    apply Hy in H. unfold entry_lt in H. simpl in H.
    apply elt_asym in H. congruence. }
  destruct (lt y x) eqn:E2.
  { rewrite IH. split; [by right|]. intros [[= -> ->]|]; [by rewrite st_irrefl in E2|done]. }
  rewrite (lt_cases x y) by done. split.
  - intros [= ->]. by left.
  - intros [[= ->]|H]; [done|]. apply Hy in H. by apply lt_ne in H.
Qed.

Lemma child_find_insert x f cs y :
  StronglySorted entry_lt cs ->
  child_find y (child_insert x f cs) =
  if bool_decide (y = x) then Some (f (default new_Node (child_find x cs)))
  else child_find y cs.
Proof.
  induction 1 as [|[z d] cs Hs IH Hz]; simpl.
  - case_bool_decide as Hyx; [subst; by rewrite !st_irrefl|].
    destruct (st_total y x) as [->|[|E]]; [done..|]. by rewrite (elt_asym _ _ E), E.
  - rewrite Forall_forall in Hz.
    destruct (lt x z) eqn:E1; [|destruct (lt z x) eqn:E2]; simpl.
    + case_bool_decide as Hyx; [subst; by rewrite !st_irrefl|].
      destruct (lt y x) eqn:E3; [|by destruct (lt x y) eqn:E4; [|exfalso; eauto using lt_cases]].
      by rewrite (st_trans _ _ _ E3 E1).
    + rewrite IH. case_bool_decide as Hyx; [subst; by rewrite E1, E2|done].
    + pose proof (lt_cases _ _ E1 E2) as ->.
      case_bool_decide as Hyx; [subst; by rewrite st_irrefl|].
      destruct (lt y z) eqn:E3, (lt z y) eqn:E4; try done. exfalso; eauto using lt_cases.
Qed.

Lemma child_insert_elem x f cs k c :
  StronglySorted entry_lt cs -> (k, c) ∈ child_insert x f cs ->
  (k = x /\ c = f (default new_Node (child_find x cs))) \/ (k, c) ∈ cs.
Proof.
  induction 1 as [|[z d] cs Hs IH Hz]; simpl; [set_solver|].
  destruct (lt x z) eqn:E1; [set_solver|destruct (lt z x) eqn:E2]; [set_solver|].
  pose proof (lt_cases _ _ E1 E2) as ->. set_solver.
Qed.

Lemma child_insert_sorted x f cs :
  StronglySorted entry_lt cs -> StronglySorted entry_lt (child_insert x f cs).
Proof.
  induction 1 as [|[z d] cs Hs IH Hz]; simpl; [repeat constructor|].
  rewrite Forall_forall in Hz.
  destruct (lt x z) eqn:E1; [|destruct (lt z x) eqn:E2].
  - rewrite !StronglySorted_cons, !Forall_forall. split_and!; try done.
    intros [y e] [[= -> ->]|Hy]%elem_of_cons; [done|].
    apply Hz in Hy. unfold entry_lt in *. simpl in *. eapply st_trans; eauto.
  - rewrite StronglySorted_cons, Forall_forall. split; [|done].
    intros [y e] [[-> ->]|Hy]%child_insert_elem; [done| |done]. by apply Hz in Hy.
  - rewrite StronglySorted_cons, Forall_forall. split; [|done].
    intros y Hy. by apply Hz in Hy.
Qed.

Lemma wf_insert s v lo n :
  wf lo n -> StronglySorted key_lt s -> (forall x, head s = Some x -> above lo x) ->
  wf lo (insert s v n).
Proof.
  revert lo n. induction s as [|x s IH]; intros lo [w e cs] Hn Hs Hlo; [done|].
  apply wf_unfold in Hn as [Hcs Hc]. cbn [insert children value isEndOfSet].
  apply wf_unfold. split; [by apply child_insert_sorted|].
  intros k c [[-> ->]|?]%child_insert_elem; [|by apply Hc|done].
  split; [by apply Hlo|]. apply IH.
  - destruct (child_find x cs) as [d|] eqn:E; [|exact (wf_new (Some x))].
    apply child_find_spec in E; [|done]. by apply Hc in E as [_ ?].
  - by apply StronglySorted_cons in Hs as [_ ?].
  - intros y Hy. destruct s as [|z s]; simplify_eq/=. eapply sorted_head_lt; [done|set_solver].
Qed.

Lemma lookup_stored lo n s v : wf lo n -> lookup s n = Some v <-> stored n s v.
Proof.
  revert lo n. induction s as [|x s IH]; intros lo [w e cs] Hn; simpl.
  - split; [destruct e; [|done]; intros [= ->]; constructor|]. by inversion 1.
  - apply wf_unfold in Hn as [Hcs Hc].
    destruct (child_find x cs) as [c|] eqn:E.
    + apply child_find_spec in E; [|done].
      rewrite (IH (Some x) c) by (by apply Hc). split; [by econstructor|].
      inversion 1 as [|? ? ? ? c' ? ? Hin]; subst.
      apply child_find_spec in E; [|done]. apply child_find_spec in Hin; [|done]. by simplify_eq.
    + split; [done|]. inversion 1 as [|? ? ? ? c' ? ? Hin]; subst.
      apply child_find_spec in Hin; [|done]. congruence.
Qed.

Lemma lookup_new s : lookup s new_Node = None.
Proof. by destruct s. Qed.

Lemma lookup_insert_raw s v lo n s' :
  wf lo n -> lookup s' (insert s v n) = if bool_decide (s' = s) then Some v else lookup s' n.
Proof.
  revert s' lo n. induction s as [|x s IH]; intros s' lo [w e cs] Hn; simpl.
  - by destruct s'; simpl; try case_bool_decide.
  - apply wf_unfold in Hn as [Hcs Hc]. destruct s' as [|y s']; simpl; [by try case_bool_decide|].
    rewrite child_find_insert by done. case_bool_decide as Hyx; [subst y|].
    + assert (Hd : wf (Some x) (default new_Node (child_find x cs))).
      { destruct (child_find x cs) as [d|] eqn:E; [|exact (wf_new (Some x))].
        apply child_find_spec in E; [|done]. by apply Hc in E as [_ ?]. }
      rewrite (IH _ _ _ Hd). repeat case_bool_decide; simplify_eq; try done.
      destruct (child_find x cs); simpl; [done|by rewrite lookup_new].
    + rewrite (bool_decide_false (y :: s' = x :: s)); [done|]. congruence.
Qed.

(** ** Enumerating subsets and supersets *)

Lemma stored_inv w e cs s v :
  stored (mkNode w e cs) s v <->
  (s = [] /\ e = true /\ v = w) \/
  (exists k c s', s = k :: s' /\ (k, c) ∈ cs /\ stored c s' v).
Proof.
  split; [inversion 1; subst; eauto 10|].
  intros [(->&->&->)|(k&c&s'&->&?&?)]; [constructor|by econstructor].
Qed.

Lemma stored_sorted lo n s v :
  wf lo n -> stored n s v -> StronglySorted key_lt s /\ forall x, x ∈ s -> above lo x.
Proof.
  intros Hn Hst'. revert lo Hn. induction Hst' as [|w e cs k c s v Hin Hc IH]; intros lo Hn.
  { split; [constructor|set_solver]. }
  apply wf_unfold in Hn as [_ Hn]. destruct (Hn _ _ Hin) as [Hk Hwf].
  destruct (IH _ Hwf) as [Hs Hab]. split.
  - apply StronglySorted_cons. split; [by apply Forall_forall|done].
  - intros x [->|Hx]%elem_of_cons; [done|]. specialize (Hab x Hx).
    destruct lo; simpl in *; [by eapply st_trans|done].
Qed.

(** The keys below a child are above the child's key. *)
Lemma stored_above k c s v x :
  wf (Some k) c -> stored c s v -> x ∈ s -> lt k x = true.
Proof. intros Hc Hs. apply (stored_sorted _ _ _ _ Hc Hs). Qed.

Lemma set_insert_snoc x acc :
  (forall y, y ∈ acc -> lt y x = true) -> set_insert x acc = acc ++ [x].
Proof.
  induction acc as [|y acc IH]; intros H; simpl; [done|].
  assert (Hy : lt y x = true) by (apply H; set_solver).
  rewrite (elt_asym _ _ Hy), Hy, IH; [done|set_solver].
Qed.

Definition acc_below (acc : list K) (lo : option K) : Prop :=
  forall x y, x ∈ acc -> above lo y -> lt x y = true.

Lemma acc_below_step acc lo k :
  acc_below acc lo -> above lo k ->
  set_insert k acc = acc ++ [k] /\ acc_below (acc ++ [k]) (Some k).
Proof.
  intros Hacc Hk. split.
  - apply set_insert_snoc. intros y Hy. by apply Hacc.
  - intros x y [Hx|Hx]%elem_of_app Hy; simpl in Hy.
    + eapply st_trans; [by apply (Hacc x k)|done].
    + apply list_elem_of_singleton in Hx as ->. done.
Qed.

(** A strictly increasing tail below the head loses nothing when the head of
    the other list is smaller. *)
Lemma subset_tail e it s' :
  (forall x, x ∈ s' -> lt e x = true) -> s' ⊆ e :: it -> s' ⊆ it.
Proof.
  intros H Hs x Hx. specialize (Hs x Hx). apply elem_of_cons in Hs as [->|]; [|done].
  apply H in Hx. by rewrite st_irrefl in Hx.
Qed.

Lemma findSubsets_unfold s n acc :
  findSubsets s n acc =
  (if isEndOfSet n then [(acc, value n)] else []) ++
  (fix loop (it : list K) : list (list K * V) :=
     match it with
     | [] => []
     | elt :: it' =>
         match child_find elt (children n) with
         | Some c => findSubsets it' c (set_insert elt acc)
         | None => []
         end ++ loop it'
     end) s.
Proof. by destruct s. Qed.

Lemma findSubsets_spec s : forall n acc lo a v,
  wf lo n -> StronglySorted key_lt s -> acc_below acc lo ->
  (a, v) ∈ findSubsets s n acc <->
  exists s', a = acc ++ s' /\ stored n s' v /\ s' ⊆ s.
Proof.
  remember (length s) as m eqn:Em. revert s Em.
  induction m as [m IHm] using lt_wf_ind. intros s -> n acc lo a v Hn Hs Hacc.
  destruct n as [w e cs]. pose proof Hn as [Hcs Hc]%wf_unfold.
  rewrite findSubsets_unfold. cbn [isEndOfSet value children].
  set (loop := fix loop (it : list K) := _).
  assert (Hloop : forall it, StronglySorted key_lt it -> (length it <= length s)%nat ->
    (a, v) ∈ loop it <-> exists k c s', a = acc ++ k :: s' /\ (k, c) ∈ cs /\
      stored c s' v /\ k ∈ it /\ s' ⊆ it).
  { induction it as [|elt it IHit]; intros Hit Hlen.
    { simpl. split; [set_solver|]. intros (?&?&?&?&?&?&?&?). set_solver. }
    pose proof Hit as [Hhd Htl]%StronglySorted_cons. rewrite Forall_forall in Hhd.
    cbn [length] in Hlen. unfold loop. fold loop. rewrite elem_of_app, IHit by (done || lia).
    split.
    - intros [H|(k&c&s'&?&?&?&?&?)]; [|exists k, c, s'; split_and!; set_solver].
      destruct (child_find elt cs) as [c|] eqn:E; [|set_solver].
      apply child_find_spec in E; [|done]. destruct (Hc _ _ E) as [Hab Hwf].
      destruct (acc_below_step _ _ _ Hacc Hab) as [Hins Hacc'].
      rewrite Hins in H. eapply (IHm (length it)) in H; [|lia|done..].
      destruct H as (s'&->&?&?). exists elt, c, s'.
      split_and!; [by rewrite <- (assoc_L (++))|done..|set_solver|set_solver].
    - intros (k&c&s'&->&Hin&Hsto&Hk&Hsub). destruct (Hc _ _ Hin) as [Hab Hwf].
      assert (Habove : forall x, x ∈ s' -> lt k x = true) by (intros; by eapply stored_above).
      apply elem_of_cons in Hk as [->|Hk].
      + left. rewrite (proj2 (child_find_spec elt c cs Hcs)) by done.
        destruct (acc_below_step _ _ _ Hacc Hab) as [Hins Hacc']. rewrite Hins.
        eapply (IHm (length it)); [lia|done..|]. exists s'.
        split_and!; [by rewrite <- (assoc_L (++))|done|by eapply subset_tail].
      + right. exists k, c, s'. split_and!; try done. eapply subset_tail; [|done].
        intros x Hx. eapply st_trans; [by apply Hhd|by apply Habove]. }
  rewrite elem_of_app, Hloop by done. clear Hloop loop. split.
  - intros [H|(k&c&s'&->&?&?&?&?)].
    + destruct e; [|set_solver]. apply list_elem_of_singleton in H as [= -> ->].
      exists []. split_and!; [by rewrite app_nil_r|constructor|set_solver].
    + exists (k :: s'). split_and!; [done|by econstructor|set_solver].
  - intros (s'&->&[(->&->&->)|(k&c&s''&->&?&?)]%stored_inv&Hsub).
    + left. rewrite app_nil_r. set_solver.
    + right. exists k, c, s''. split_and!; set_solver.
Qed.

(** The two loops of [findSupersets] as enumerations over the children. *)
Lemma findSupersets_all_elem w e cs acc x :
  x ∈ findSupersets (mkNode w e cs) acc [] <->
  (e = true /\ x = (acc, w)) \/
  exists k c, (k, c) ∈ cs /\ x ∈ findSupersets c (set_insert k acc) [].
Proof.
  cbn [findSupersets]. rewrite elem_of_app.
  apply ZifyClasses.or_morph; [destruct e; set_solver|].
  induction cs as [|[k c] cs IH]; [set_solver|]. rewrite elem_of_app, IH. split.
  - intros [?|(k'&c'&?&?)]; [exists k, c|exists k', c']; set_solver.
  - intros (k'&c'&[[= -> ->]|?]%elem_of_cons&?); [by left|right; eauto].
Qed.

Lemma findSupersets_loop_elem w e cs acc elt next x :
  StronglySorted entry_lt cs ->
  x ∈ findSupersets (mkNode w e cs) acc (elt :: next) <->
  exists k c, (k, c) ∈ cs /\
    ((k = elt /\ x ∈ findSupersets c (set_insert k acc) next) \/
     (lt k elt = true /\ x ∈ findSupersets c (set_insert k acc) (elt :: next))).
Proof.
  cbn [findSupersets]. induction 1 as [|[k c] cs Hs IH Hk]; [set_solver|].
  rewrite Forall_forall in Hk.
  assert (Hrest : forall k' c', (k', c') ∈ cs -> lt k k' = true) by (intros k' c'; apply Hk).
  case_bool_decide as Hek; [subst k|destruct (lt k elt) eqn:Elt].
  - rewrite elem_of_app, IH. split.
    + intros [?|(k'&c'&?&?)]; [exists elt, c|exists k', c']; set_solver.
    + intros (k'&c'&[[= -> ->]|?]%elem_of_cons&[[? Hx]|[Hl Hx]]); 
        [by left|by rewrite st_irrefl in Hl|right; exists k', c'; tauto..].
  - rewrite elem_of_app, IH. split.
    + intros [?|(k'&c'&?&?)]; [exists k, c|exists k', c']; set_solver.
    + intros (k'&c'&[[= -> ->]|?]%elem_of_cons&[[? Hx]|[Hl Hx]]); 
        [done|by left|right; exists k', c'; tauto..].
  - split; [set_solver|]. intros (k'&c'&Hin&Hcase). exfalso.
    assert (Hke : lt elt k = true) by (destruct (st_total elt k) as [|[|]]; congruence).
    assert (Hek' : lt elt k' = true).
    { apply elem_of_cons in Hin as [[= -> ->]|Hin]; [done|].
      eapply st_trans; [done|by eapply Hrest]. }
    destruct Hcase as [[-> _]|[H _]]; [by rewrite st_irrefl in Hek'|].
    apply elt_asym in H. congruence.
Qed.

Lemma findSupersets_spec n : forall s acc lo a v,
  wf lo n -> StronglySorted key_lt s -> acc_below acc lo ->
  (a, v) ∈ findSupersets n acc s <->
  exists s', a = acc ++ s' /\ stored n s' v /\ s ⊆ s'.
Proof.
  induction n as [w e cs IH] using Node_rect'. intros s acc lo a v Hn Hs Hacc.
  pose proof Hn as [Hcs Hc]%wf_unfold. rewrite Forall_forall in IH.
  assert (Hstep : forall k c t, (k, c) ∈ cs -> StronglySorted key_lt t ->
    (a, v) ∈ findSupersets c (set_insert k acc) t <->
    exists s', a = acc ++ k :: s' /\ stored c s' v /\ t ⊆ s').
  { intros k c t Hin Ht. destruct (Hc _ _ Hin) as [Hab Hwf].
    destruct (acc_below_step _ _ _ Hacc Hab) as [-> Hacc'].
    rewrite (IH (k, c) Hin t _ (Some k)) by done.
    split; intros (s'&?&?&?); exists s'; split_and!; try done;
      [by rewrite <- (assoc_L (++)) in *|by rewrite <- (assoc_L (++))]. }
  destruct s as [|elt next].
  - rewrite findSupersets_all_elem. split.
    + intros [[-> [= -> ->]]|(k&c&Hin&Hx)].
      * exists []. split_and!; [by rewrite app_nil_r|constructor|set_solver].
      * apply Hstep in Hx as (s'&->&?&_); [|done|constructor].
        exists (k :: s'). split_and!; [done|by econstructor|set_solver].
    + intros (s'&->&[(->&->&->)|(k&c&s''&->&?&?)]%stored_inv&Hsub).
      * left. by rewrite app_nil_r.
      * right. exists k, c. split; [done|]. apply Hstep; [done|constructor|]. set_solver.
  - pose proof Hs as [Hhd Htl]%StronglySorted_cons. rewrite Forall_forall in Hhd.
    rewrite findSupersets_loop_elem by done. split.
    + intros (k&c&Hin&[[-> Hx]|[Hk Hx]]); apply Hstep in Hx as (s'&->&?&?); try done;
        eexists; (split_and!; [done|by econstructor|set_solver]).
    + intros (s'&->&[(->&->&->)|(k&c&s''&->&Hin&Hsto)]%stored_inv&Hsub); [set_solver|].
      exists k, c. split; [done|]. destruct (Hc _ _ Hin) as [_ Hwf].
      destruct (decide (k = elt)) as [->|Hne]; [left|right].
      * split; [done|]. apply Hstep; [done..|]. exists s''. split_and!; [done..|].
        apply (subset_tail elt); [|set_solver]. intros x Hx. by apply Hhd.
      * assert (Hk : lt k elt = true) by (eapply stored_above; [done..|set_solver]).
        split; [done|]. apply Hstep; [done..|]. exists s''. split_and!; [done..|].
        apply (subset_tail k); [|done]. intros x [->|Hx]%elem_of_cons; [done|].
        eapply st_trans; [done|by apply Hhd].
Qed.

(** ** Searching for one subset or superset *)

Section SearchSpec.
Context (p : V -> bool).

(** [answers Q r]: [r] is a value that satisfies [p] and [Q], or none does. *)
Definition answers (Q : V -> Prop) (r : option V) : Prop :=
  match r with
  | Some v => Q v /\ p v = true
  | None => forall v, Q v -> p v = false
  end.

Lemma answers_iff (Q1 Q2 : V -> Prop) r :
  (forall v, Q1 v <-> Q2 v) -> answers Q1 r -> answers Q2 r.
Proof. intros H. destruct r; simpl; naive_solver. Qed.

Lemma answers_mono (Q1 Q2 : V -> Prop) r :
  (forall v, (Q2 v -> p v = false \/ Q1 v) /\ (Q1 v -> Q2 v)) -> answers Q1 r -> answers Q2 r.
Proof. intros H. destruct r; simpl; [naive_solver|]. intros Hn v Hv. destruct (H v). naive_solver. Qed.

Lemma skip_it_spec it kf :
  match skip_it it kf with
  | None => forall x, x ∈ it -> lt x kf = true
  | Some it1 => exists pre e it', it1 = e :: it' /\ it = pre ++ it1 /\
      (forall x, x ∈ pre -> lt x kf = true) /\ lt e kf = false
  end.
Proof.
  induction it as [|e it IH]; simpl; [set_solver|].
  destruct (lt e kf) eqn:E; [|exists [], e, it; split_and!; set_solver].
  destruct (skip_it it kf) as [it1|]; [|set_solver].
  destruct IH as (pre&e'&it'&->&->&?&?). exists (e :: pre), e', it'. split_and!; set_solver.
Qed.

Lemma skip_k_spec k e :
  exists pre, k = pre ++ skip_k k e /\ (forall y c, (y, c) ∈ pre -> lt y e = true) /\
    forall y c k', skip_k k e = (y, c) :: k' -> lt y e = false.
Proof.
  induction k as [|[y c] k IH]; simpl; [exists []; set_solver|].
  destruct (lt y e) eqn:E.
  - destruct IH as (pre&Hk&?&?). exists ((y, c) :: pre). rewrite Hk at 1. set_solver.
  - exists []. split_and!; [done|set_solver|]. by intros ??? [= <- <- <-].
Qed.

Lemma nodes_list_app k1 k2 : nodes_list (k1 ++ k2) = (nodes_list k1 + nodes_list k2)%nat.
Proof.
  induction k1 as [|[y c] k1 IH]; simpl app; [done|].
  rewrite !nodes_list_cons, IH. lia.
Qed.

Lemma nodes_children n : nodes n = nodes_list (children n).
Proof. by destruct n. Qed.

(** What [findSubset] looks for below a node and below a list of children. *)
Definition sub_node (n : Node) (s : list K) (v : V) : Prop :=
  exists s', stored n s' v /\ s' ⊆ s.
Definition sub_list (k : list (K * Node)) (it : list K) (v : V) : Prop :=
  exists kf c s', (kf, c) ∈ k /\ stored c s' v /\ kf :: s' ⊆ it.

Definition wf_list (k : list (K * Node)) : Prop :=
  StronglySorted entry_lt k /\ forall y c, (y, c) ∈ k -> wf (Some y) c.

Lemma wf_list_children lo n : wf lo n -> wf_list (children n).
Proof. destruct n as [w e cs]. intros [? H]%wf_unfold. split; [done|]. intros; by eapply H. Qed.

Lemma wf_list_app pre k : wf_list (pre ++ k) -> wf_list k.
Proof. intros [Hs H]. split; [by apply StronglySorted_app in Hs as (_&_&?)|set_solver]. Qed.

(** Children before the first element of the query cannot take part. *)
Lemma sub_list_skip k e it v :
  StronglySorted key_lt (e :: it) ->
  sub_list k (e :: it) v <-> sub_list (skip_k k e) (e :: it) v.
Proof.
  intros Hs. destruct (skip_k_spec k e) as (pre&Hk&Hpre&_). split.
  - intros (kf&c&s'&Hin&?&Hsub). exists kf, c, s'. split_and!; try done.
    rewrite Hk in Hin. apply elem_of_app in Hin as [Hin|]; [|done]. exfalso.
    apply Hpre in Hin. assert (kf ∈ e :: it) as [->|Hm]%elem_of_cons by set_solver.
    + by rewrite st_irrefl in Hin.
    + pose proof (sorted_head_lt _ _ _ Hs Hm) as Hm'. apply elt_asym in Hm'. congruence.
  - intros (kf&c&s'&?&?&?). exists kf, c, s'. split_and!; try done.
    rewrite Hk. set_solver.
Qed.

Lemma findSubset_body_spec loop n s lo :
  wf lo n -> StronglySorted key_lt s ->
  (forall k, wf_list k -> s <> [] -> (nodes_list k <= nodes n)%nat ->
     exists r, loop s k = Ret r /\ answers (sub_list k s) r) ->
  exists r, findSubset_body p loop n s = Ret r /\ answers (sub_node n s) r.
Proof.
  intros Hn Hs Hloop. unfold findSubset_body.
  destruct (isEndOfSet n && p (value n)) eqn:Ee.
  { apply andb_true_iff in Ee as [He Hp]. exists (Some (value n)). split; [done|].
    split; [|done]. destruct n as [w e cs]. simpl in He. subst e.
    exists []. split; [constructor|set_solver]. }
  assert (Hhere : forall v, stored n [] v -> p v = false).
  { intros v Hv. destruct n. apply stored_inv in Hv as [(_&->&->)|(?&?&?&?&_)]; [|done].
    by rewrite andb_true_l in Ee. }
  assert (Hkids : forall v, sub_node n s v -> p v = false \/ sub_list (children n) s v).
  { intros v (s'&Hv&Hsub). destruct n as [w e cs].
    pose proof Hv as [(->&_)|(k&c&s''&->&?&?)]%stored_inv; [left; auto|right].
    exists k, c, s''. by split_and!. }
  destruct s as [|b s].
  { exists None. split; [done|]. intros v Hv. destruct (Hkids v Hv) as [|H]; [done|].
    destruct H as (?&?&?&?&?&?). set_solver. }
  destruct (skip_k_spec (children n) b) as (pre&Hk&_).
  destruct (skip_k (children n) b) as [|kc k] eqn:Esk.
  { exists None. split; [done|]. intros v Hv. destruct (Hkids v Hv) as [|H]; [done|].
    apply sub_list_skip in H; [|done]. rewrite Esk in H. destruct H as (?&?&?&?&_). set_solver. }
  assert (Hwl : wf_list (kc :: k)).
  { eapply (wf_list_app pre). rewrite <- Hk. by eapply wf_list_children. }
  destruct (Hloop (kc :: k)) as (r&->&Hr); [done..| |].
  { rewrite nodes_children, Hk, nodes_list_app. lia. }
  exists r. split; [done|]. destruct r as [v|]; simpl in *.
  - destruct Hr as [(kf&c&s'&Hin&?&?) ?]. split; [|done]. exists (kf :: s'). split; [|done].
    destruct n as [w e cs]. simpl in *. econstructor; [|done]. rewrite Hk. set_solver.
  - intros v Hv. destruct (Hkids v Hv) as [|H]; [done|].
    apply sub_list_skip in H; [|done]. rewrite Esk in H. by apply Hr.
Qed.

(** The part of the query below the first remaining child key is useless. *)
Lemma sub_list_drop_it pre it kf c k v :
  wf_list ((kf, c) :: k) -> (forall x, x ∈ pre -> lt x kf = true) ->
  sub_list ((kf, c) :: k) (pre ++ it) v <-> sub_list ((kf, c) :: k) it v.
Proof.
  intros [Hs Hwf] Hpre. split; intros (y&d&s'&Hin&Hsto&Hsub); exists y, d, s';
    (split_and!; [done..|]); [|set_solver].
  assert (Hy : y = kf \/ lt kf y = true).
  { apply StronglySorted_cons in Hs as [Hs _]. rewrite Forall_forall in Hs.
    apply elem_of_cons in Hin as [[= -> ->]|Hin]; [by left|right; apply (Hs _ Hin)]. }
  assert (Hge : forall x, x ∈ y :: s' -> lt x kf = false).
  { intros x [->|Hx]%elem_of_cons.
    - destruct Hy as [->|Hy]; [apply st_irrefl|by apply elt_asym].
    - pose proof (stored_above _ _ _ _ _ (Hwf _ _ Hin) Hsto Hx) as Hyx.
      apply elt_asym. destruct Hy as [->|Hy]; [done|by eapply st_trans]. }
  intros x Hx. specialize (Hsub x Hx). apply elem_of_app in Hsub as [H|]; [|done].
  apply Hpre in H. rewrite Hge in H; done.
Qed.

(** When the query and the children start with the same key, a set either
    uses that child or skips the key. *)
Lemma sub_list_split e c k it' v :
  wf_list ((e, c) :: k) -> sub_list ((e, c) :: k) (e :: it') v ->
  sub_node c it' v \/ sub_list ((e, c) :: k) it' v.
Proof.
  intros [Hks Hwf] (y&d&s'&Hin&Hsto&Hsub).
  pose proof Hin as [[= -> ->]|Hin']%elem_of_cons.
  - left. exists s'. split; [done|]. apply (subset_tail e); [|set_solver].
    intros x Hx. eapply stored_above; [by apply Hwf|done..].
  - right. exists y, d, s'. split_and!; [done..|].
    apply StronglySorted_cons in Hks as [Hks _]. rewrite Forall_forall in Hks.
    specialize (Hks _ Hin'). unfold entry_lt in Hks. simpl in Hks.
    apply (subset_tail e); [|done]. intros x [->|Hx]%elem_of_cons; [done|].
    eapply st_trans; [done|]. eapply stored_above; [by apply Hwf|done..].
Qed.

Lemma findSubset_third loop kf c k e1 it1 :
  wf_list ((kf, c) :: k) -> StronglySorted key_lt (e1 :: it1) -> lt kf e1 = true ->
  (forall k1, wf_list k1 -> (nodes_list k1 <= nodes_list k)%nat ->
     exists r, loop (e1 :: it1) k1 = Ret r /\ answers (sub_list k1 (e1 :: it1)) r) ->
  exists r, match skip_k ((kf, c) :: k) e1 with
            | [] => Ret None | k1 => loop (e1 :: it1) k1 end = Ret r /\
    answers (sub_list ((kf, c) :: k) (e1 :: it1)) r.
Proof.
  intros Hwl Hs Hlt Hloop.
  assert (Hskip : skip_k ((kf, c) :: k) e1 = skip_k k e1) by (simpl; by rewrite Hlt).
  assert (Heq : forall v, sub_list (skip_k k e1) (e1 :: it1) v <->
                          sub_list ((kf, c) :: k) (e1 :: it1) v).
  { intros v. by rewrite (sub_list_skip ((kf, c) :: k)), Hskip. }
  rewrite Hskip. destruct (skip_k_spec k e1) as (pre&Hk&_).
  assert (Hwl' : wf_list (skip_k k e1)).
  { apply (wf_list_app ((kf, c) :: pre)). simpl. by rewrite <- Hk. }
  assert (Hn : (nodes_list (skip_k k e1) <= nodes_list k)%nat)
    by (rewrite Hk at 2; rewrite nodes_list_app; lia).
  destruct (skip_k k e1) as [|kc k1].
  - exists None. split; [done|]. eapply answers_iff; [exact Heq|].
    intros v (?&?&?&?&_). set_solver.
  - destruct (Hloop (kc :: k1)) as (r&->&Hr); [done..|]. exists r. split; [done|].
    by eapply answers_iff.
Qed.

Lemma findSubset_loop_spec fuel : forall it k,
  wf_list k -> StronglySorted key_lt it -> (length it + nodes_list k < fuel)%nat ->
  exists r, findSubset_loop p fuel it k = Ret r /\ answers (sub_list k it) r.
Proof.
  induction fuel as [|fuel IH]; intros it k Hwl Hs Hf; [lia|].
  cbn [findSubset_loop]. unfold findSubset_iter. destruct k as [|[kf c] k].
  { exists None. split; [done|]. intros v (?&?&?&?&_). set_solver. }
  rewrite nodes_list_cons in Hf. pose proof (skip_it_spec it kf) as Hskip.
  destruct (skip_it it kf) as [it1|].
  2: { exists None. split; [done|]. intros v Hv. rewrite <- (app_nil_r it) in Hv.
       apply sub_list_drop_it in Hv; [|done..]. destruct Hv as (?&?&?&?&?&?). set_solver. }
  destruct Hskip as (pre&e&it'&->&->&Hpre&He). rewrite length_app in Hf. simpl in Hf.
  apply StronglySorted_app in Hs as (_&_&Hs).
  pose proof Hs as [Hhd Htl]%StronglySorted_cons. rewrite Forall_forall in Hhd.
  pose proof (fun v => sub_list_drop_it pre (e :: it') kf c k v Hwl Hpre) as Hdrop.
  assert (Hthird : forall e1 t1, StronglySorted key_lt (e1 :: t1) -> lt kf e1 = true ->
    (length (e1 :: t1) <= S (length it'))%nat ->
    exists r, match skip_k ((kf, c) :: k) e1 with
              | [] => Ret None | k1 => findSubset_loop p fuel (e1 :: t1) k1 end = Ret r /\
      answers (sub_list ((kf, c) :: k) (e1 :: t1)) r).
  { intros e1 t1 Hs1 Hlt Hlen. apply findSubset_third; [done..|].
    intros k1 ??. apply IH; [done..|lia]. }
  case_bool_decide as Hekf; [subst kf|].
  - assert (Hwc : wf (Some e) c) by (apply Hwl; set_solver).
    destruct (findSubset_body_spec (findSubset_loop p fuel) c it' (Some e) Hwc Htl) as (r&->&Hr).
    { intros k1 ???. apply IH; [done..|lia]. }
    unfold mbind, outcome_bind. destruct r as [v|].
    { exists (Some v). split; [done|]. destruct Hr as [(s'&?&?) ?]. split; [|done].
      apply Hdrop. exists e, c, s'. split_and!; set_solver. }
    pose proof (fun v => sub_list_split e c k it' v Hwl) as Hsplit.
    case_bool_decide as Hnil.
    { exists None. split; [done|]. intros v [Hv|Hv]%Hdrop%Hsplit; [by apply Hr|].
      subst it'. destruct Hv as (?&?&?&?&?&?). set_solver. }
    destruct it' as [|e1 t1]; [done|].
    destruct (Hthird e1 t1) as (r&->&Hr'); [done|apply Hhd; set_solver|simpl; lia|].
    exists r. split; [done|]. destruct r as [v|]; simpl in *.
    + destruct Hr' as [(y&d&s'&?&?&?) ?]. split; [|done]. apply Hdrop.
      exists y, d, s'. split_and!; set_solver.
    + intros v [Hv|Hv]%Hdrop%Hsplit; [by apply Hr|by apply Hr'].
  - destruct (Hthird e it') as (r&->&Hr'); [done| |simpl; lia|].
    { destruct (st_total kf e) as [|[|]]; congruence. }
    exists r. split; [done|]. eapply answers_iff; [|exact Hr']. intros v. by rewrite Hdrop.
Qed.

(** The child loops of [findSuperset]. *)
Lemma findSuperset_loop_spec (f : Node -> option V) (Q : K -> Node -> V -> Prop) ds :
  (forall k c, (k, c) ∈ ds -> answers (Q k c) (f c)) ->
  answers (fun v => exists k c, (k, c) ∈ ds /\ Q k c v)
    ((fix loop (cs : list (K * Node)) :=
        match cs with
        | [] => None
        | (_, c) :: cs' => match f c with Some res => Some res | None => loop cs' end
        end) ds).
Proof.
  induction ds as [|[k c] ds IH]; intros H.
  { intros v (?&?&?&_). set_solver. }
  pose proof (H k c ltac:(set_solver)) as Hc. destruct (f c) as [v|].
  - destruct Hc. split; [|done]. exists k, c. split; [set_solver|done].
  - assert (IH' := IH ltac:(set_solver)). revert IH'.
    generalize ((fix loop (cs : list (K * Node)) :=
        match cs with
        | [] => None
        | (_, c) :: cs' => match f c with Some res => Some res | None => loop cs' end
        end) ds) as r. intros [v|]; simpl.
    + intros [(k'&c'&?&?) ?]. split; [|done]. exists k', c'. split; [set_solver|done].
    + intros Hn v (k'&c'&[[= -> ->]|Hin]%elem_of_cons&HQ); [by apply Hc|eauto].
Qed.

Lemma findSuperset_mid_spec (f : Node -> option V) b ds :
  StronglySorted entry_lt ds ->
  (fix mid (cs : list (K * Node)) :=
     match cs with
     | [] => None
     | (k, c) :: cs' =>
         if lt k b then mid cs' else if bool_decide (b = k) then f c else None
     end) ds = match child_find b ds with Some c => f c | None => None end.
Proof.
  induction 1 as [|[k c] ds Hs IH _]; [done|]. simpl. rewrite IH.
  destruct (lt k b) eqn:E1; [by rewrite (elt_asym _ _ E1)|].
  case_bool_decide as Hb; [subst; by rewrite st_irrefl|].
  destruct (lt b k) eqn:E2; [done|]. exfalso. eauto using lt_cases.
Qed.

Definition sup_node (n : Node) (s : list K) (v : V) : Prop :=
  exists s', stored n s' v /\ s ⊆ s'.

Lemma findSuperset_spec n : forall s lo,
  wf lo n -> StronglySorted key_lt s -> answers (sup_node n s) (findSuperset p n s).
Proof.
  induction n as [w e cs IH] using Node_rect'. intros s lo Hn Hs.
  pose proof Hn as [Hcs Hc]%wf_unfold. rewrite Forall_forall in IH.
  assert (Hkids : forall t, StronglySorted key_lt t -> forall k c, (k, c) ∈ cs ->
    answers (sup_node c t) (findSuperset p c t)).
  { intros t Ht k c Hin. apply (IH (k, c) Hin t (Some k)); [by apply Hc|done]. }
  destruct s as [|b s]; cbn [findSuperset].
  - destruct (e && p w) eqn:E.
    { apply andb_true_iff in E as [-> ?]. split; [|done]. exists []. split; [constructor|done]. }
    eapply answers_mono; [|apply (findSuperset_loop_spec (fun c => findSuperset p c [])
      (fun _ c => sup_node c [])), Hkids; done].
    intros v. split.
    + intros (s'&[(->&->&->)|(k&c&s''&->&?&?)]%stored_inv&_);
        [left; by destruct (p w)|right]. exists k, c. split; [done|]. exists s''. split; [done|set_solver].
    + intros (k&c&?&s'&?&_). exists (k :: s'). split; [by econstructor|set_solver].
  - pose proof Hs as [Hhd Htl]%StronglySorted_cons. rewrite Forall_forall in Hhd.
    pose proof (findSuperset_loop_spec (fun c => findSuperset p c (b :: s))
      (fun _ c => sup_node c (b :: s)) cs (Hkids _ Hs)) as Hloop. cbv beta in Hloop.
    rewrite (findSuperset_mid_spec (fun c => findSuperset p c s)) by done.
    destruct ((fix loop (cs : list (K * Node)) := _) cs) as [v|].
    { destruct Hloop as [(k&c&?&s'&?&?) ?]. split; [|done]. exists (k :: s').
      split; [by econstructor|set_solver]. }
    assert (Hsplit : forall v, sup_node (mkNode w e cs) (b :: s) v ->
      p v = false \/ exists c, child_find b cs = Some c /\ sup_node c s v).
    { intros v (s'&[(->&->&->)|(k&c&s''&->&Hin&Hsto)]%stored_inv&Hsub); [set_solver|].
      destruct (decide (k = b)) as [->|Hne]; [right|left].
      - exists c. split; [by apply child_find_spec|]. exists s''. split; [done|].
        apply (subset_tail b); [|set_solver]. intros x Hx. by apply Hhd.
      - apply Hloop. exists k, c. split; [done|]. exists s''. split; [done|].
        assert (Hkb : lt k b = true) by (eapply stored_above; [by apply Hc|done|set_solver]).
        apply (subset_tail k); [|done]. intros x [->|Hx]%elem_of_cons; [done|].
        eapply st_trans; [done|by apply Hhd]. }
    destruct (child_find b cs) as [c|] eqn:Eb.
    + apply child_find_spec in Eb; [|done]. pose proof (Hkids s Htl b c Eb) as Hm.
      destruct (findSuperset p c s) as [v|]; simpl in *.
      * destruct Hm as [(s'&?&?) ?]. split; [|done]. exists (b :: s').
        split; [by econstructor|set_solver].
      * intros v [|(c'&[= <-]&?)]%Hsplit; [done|by apply Hm].
    + intros v [|(c'&?&?)]%Hsplit; done.
Qed.

End SearchSpec.

(** Insertion into a set. *)
Lemma set_insert_elem x s y : y ∈ set_insert x s <-> y = x \/ y ∈ s.
Proof.
  induction s as [|z s IH]; simpl; [set_solver|].
  destruct (lt x z) eqn:E1; [set_solver|]. destruct (lt z x) eqn:E2; [rewrite !elem_of_cons, IH; tauto|].
  assert (x = z) as -> by (by apply lt_cases). set_solver.
Qed.

Lemma set_insert_sorted x s : StronglySorted key_lt s -> StronglySorted key_lt (set_insert x s).
Proof.
  induction s as [|z s IH]; simpl; intros Hs; [by repeat constructor|].
  apply StronglySorted_inv in Hs as [Hs Hz]. rewrite Forall_forall in Hz.
  destruct (lt x z) eqn:E1.
  - constructor; [by constructor; [|apply Forall_forall]|]. apply Forall_forall.
    intros y [->|Hy]%elem_of_cons; [done|]. eapply (st_trans x z y); [done|]. by apply Hz.
  - destruct (lt z x) eqn:E2; [|by constructor; [|apply Forall_forall]].
    constructor; [by apply IH|]. apply Forall_forall. intros y [->|Hy]%set_insert_elem; [done|]. by apply Hz.
Qed.

(** The searches in terms of what is stored. *)
Lemma findSubset_stored n s p fuel :
  wf None n -> StronglySorted key_lt s -> (length s + nodes n < fuel)%nat ->
  exists r, findSubset p fuel n s = Ret r /\ answers p (sub_node n s) r.
Proof.
  intros Hn Hs Hf. unfold findSubset.
  apply (findSubset_body_spec p (findSubset_loop p fuel) n s None Hn Hs).
  intros k ???. apply findSubset_loop_spec; [done..|lia].
Qed.

(** ** Properties *)

(** The tree reached by a sequence of insertions from the empty map. *)
Definition inserts (l : list (list K * V)) : Node :=
  fold_left (fun n sv => insert sv.1 sv.2 n) l new_Node.

Lemma inserts_wf l : Forall (fun sv => StronglySorted key_lt sv.1) l -> wf None (inserts l).
Proof.
  unfold inserts. assert (H := wf_new None). revert H. generalize new_Node.
  induction l as [|[s v] l IH]; intros n Hn Hf; [done|].
  apply Forall_cons in Hf as [Hs Hf]. apply IH; [|done]. by apply wf_insert.
Qed.

(** Inserting a set keeps the tree invariant, and afterwards [lookup] gives
    the inserted value for that set and is unchanged for every other set. *)
Theorem mapofsets_insert_lookup n s v s' :
  wf None n -> StronglySorted key_lt s ->
  wf None (insert s v n) /\
  lookup s' (insert s v n) = if bool_decide (s' = s) then Some v else lookup s' n.
Proof. intros. split; [by apply wf_insert|by eapply lookup_insert_raw]. Qed.

(** [subsets(set)] returns exactly the stored (set, value) pairs whose set is
    included in the argument, and [supersets(set)] those whose set includes
    it. *)
Theorem mapofsets_enumerate n s a v :
  wf None n -> StronglySorted key_lt s ->
  ((a, v) ∈ subsets n s <-> lookup a n = Some v /\ a ⊆ s) /\
  ((a, v) ∈ supersets n s <-> lookup a n = Some v /\ s ⊆ a).
Proof.
  intros Hn Hs. unfold subsets, supersets.
  rewrite (findSubsets_spec s n [] None), (findSupersets_spec n s [] None),
    (lookup_stored None) by (done || (intros ? ?; set_solver)).
  split; split; [intros (s'&->&?&?)|intros [??]|intros (s'&->&?&?)|intros [??]]; try done;
    by exists a.
Qed.

(** [findSubset(set, p)] terminates (with [|set| + nodes] iterations), never
    dereferences an end iterator, and returns a stored value that satisfies
    [p] and whose set is included in [set] if there is one, null otherwise. *)
Theorem mapofsets_findSubset n s p fuel :
  wf None n -> StronglySorted key_lt s -> (length s + nodes n < fuel)%nat ->
  exists r, findSubset p fuel n s = Ret r /\
    match r with
    | Some v => p v = true /\ exists s', lookup s' n = Some v /\ s' ⊆ s
    | None => forall s' v, lookup s' n = Some v -> s' ⊆ s -> p v = false
    end.
Proof.
  intros Hn Hs Hf. destruct (findSubset_stored n s p fuel Hn Hs Hf) as (r&->&Hr).
  exists r. split; [done|]. destruct r as [v|]; simpl in Hr.
  - destruct Hr as [(s'&?&?) ?]. split; [done|]. exists s'.
    by rewrite (lookup_stored None).
  - intros s' v Hl Hsub. apply Hr. exists s'. by rewrite (lookup_stored None) in Hl.
Qed.

(** [findSuperset(set, p)] returns a stored value that satisfies [p] and
    whose set includes [set] if there is one, and null otherwise. *)
Theorem mapofsets_findSuperset n s p :
  wf None n -> StronglySorted key_lt s ->
  match findSuperset p n s with
  | Some v => p v = true /\ exists s', lookup s' n = Some v /\ s ⊆ s'
  | None => forall s' v, lookup s' n = Some v -> s ⊆ s' -> p v = false
  end.
Proof.
  intros Hn Hs. pose proof (findSuperset_spec p n s None Hn Hs) as Hr.
  destruct (findSuperset p n s) as [v|]; simpl in Hr.
  - destruct Hr as [(s'&?&?) ?]. split; [done|]. exists s'.
    by rewrite (lookup_stored None).
  - intros s' v Hl Hsub. apply Hr. exists s'. by rewrite (lookup_stored None) in Hl.
Qed.

End UBTree.

(** ** Witnesses, on sets of integers *)

#[export] Instance Zltb_total : StrictTotal Z.ltb.
Proof. split; intros; rewrite ?Z.ltb_lt, ?Z.ltb_ge in *; lia. Qed.

Definition zmap : @Node Z Z :=
  inserts Z.ltb 0 [([1; 3], 10); ([2], 20); ([], 5); ([1; 2; 3; 4], 30)].

Lemma zmap_wf : wf Z.ltb None zmap.
Proof. apply (inserts_wf Z.ltb 0). repeat constructor. Qed.

Lemma mapofsets_insert_lookup_witness :
  lookup Z.ltb [2; 4] (insert Z.ltb 0 [2; 4] 77 zmap) = Some 77.
Proof.
  rewrite (proj2 (mapofsets_insert_lookup Z.ltb 0 zmap [2; 4] 77 [2; 4] zmap_wf
                    ltac:(repeat constructor))).
  reflexivity.
Defined.

Lemma mapofsets_enumerate_witness : ([1; 3], 10) ∈ subsets Z.ltb zmap [1; 3; 5].
Proof.
  apply (mapofsets_enumerate Z.ltb zmap [1; 3; 5] [1; 3] 10 zmap_wf
           ltac:(repeat constructor)).
  split; [reflexivity|set_solver].
Defined.

Lemma mapofsets_findSubset_witness :
  findSubset Z.ltb (fun v => 6 <? v) 30 zmap [1; 3; 5] = Ret (Some 10) /\
  exists r, findSubset Z.ltb (fun v => 6 <? v) 30 zmap [1; 3; 5] = Ret r.
Proof.
  split; [reflexivity|].
  destruct (mapofsets_findSubset Z.ltb 0 zmap [1; 3; 5] (fun v => 6 <? v) 30 zmap_wf
              ltac:(repeat constructor) ltac:(vm_compute; lia)) as (r&?&_).
  by exists r.
Defined.

Lemma mapofsets_findSuperset_witness :
  exists s', lookup Z.ltb s' zmap = Some 30 /\ [2; 4] ⊆ s'.
Proof.
  exact (proj2 (mapofsets_findSuperset Z.ltb zmap [2; 4] (fun _ => true) zmap_wf
                  ltac:(repeat constructor))).
Defined.

End UBTree.
