(* ===== verification/PosixState.v ===== *)
(** * State of the symbolic POSIX runtime

    Models the data structures of [src/vital-src/runtime/POSIX/fd.h] and the
    interface of [fd.c] to the operating system.  The layout constants are
    those of Linux on x86-64, where [O_RDONLY] is 0.

    A [char*] path is [None] for a null pointer or the list of its characters
    (bytes) without the terminating NUL.  A user buffer is the list of bytes
    from the pointer to the end of its memory object.  An [exe_disk_file_t*]
    is a [dref], which names one of the files of [__exe_fs], so that pointer
    comparisons are comparisons of names.  The operating system behind
    [syscall] is a parameter: a state [OS] and a function [sys] from requests
    to results. *)

From S2P Require Import Prelude.

(** ** Constants of the C library headers *)

Definition O_RDONLY : Z := 0.
Definition O_WRONLY : Z := 1.
Definition O_RDWR : Z := 2.
Definition O_ACCMODE : Z := 3.
Definition O_CREAT : Z := 64.
Definition O_EXCL : Z := 128.
Definition O_TRUNC : Z := 512.
Definition AT_FDCWD : Z := -100.

Definition EPERM : Z := 1.
Definition ENOENT : Z := 2.
Definition EIO : Z := 5.
Definition EBADF : Z := 9.
Definition EAGAIN : Z := 11.
Definition ENOMEM : Z := 12.
Definition EACCES : Z := 13.
Definition EFAULT : Z := 14.
Definition EEXIST : Z := 17.
Definition ENOTDIR : Z := 20.
Definition EISDIR : Z := 21.
Definition EINVAL : Z := 22.
Definition ENFILE : Z := 23.
Definition EMFILE : Z := 24.
Definition ENOTTY : Z := 25.
Definition ERANGE : Z := 34.
Definition ECHILD : Z := 10.
Definition EAFNOSUPPORT : Z := 97.

Definition SEEK_SET : Z := 0.
Definition SEEK_CUR : Z := 1.
Definition SEEK_END : Z := 2.

Definition S_IFMT : Z := 61440.
Definition S_IFDIR : Z := 16384.
Definition S_IFCHR : Z := 8192.
Definition S_IFREG : Z := 32768.
Definition S_IFLNK : Z := 40960.
Definition S_ISGID : Z := 1024.
Definition S_IRUSR : Z := 256.
Definition S_IRGRP : Z := 32.
Definition S_IROTH : Z := 4.
Definition S_IWUSR : Z := 128.
Definition S_IWGRP : Z := 16.
Definition S_IWOTH : Z := 2.

Definition S_ISDIR (m : Z) : bool := Z.land m S_IFMT =? S_IFDIR.
Definition S_ISCHR (m : Z) : bool := Z.land m S_IFMT =? S_IFCHR.
Definition S_ISREG (m : Z) : bool := Z.land m S_IFMT =? S_IFREG.
Definition S_ISLNK (m : Z) : bool := Z.land m S_IFMT =? S_IFLNK.

(** ** The structures of fd.h *)

(** [struct stat64], the fields the runtime uses. *)
Record stat64 := mkStat {
  st_dev : Z; st_ino : Z; st_mode : Z; st_nlink : Z; st_uid : Z; st_gid : Z;
  st_rdev : Z; st_size : Z; st_blksize : Z; st_blocks : Z;
  st_atime : Z; st_mtime : Z; st_ctime : Z }.

Record exe_disk_file_t := mkDfile {
  size : Z;
  contents : list Z;
  stat : stat64 }.

Definition eOpen : Z := Z.shiftl 1 0.
Definition eCloseOnExec : Z := Z.shiftl 1 1.
Definition eReadable : Z := Z.shiftl 1 2.
Definition eWriteable : Z := Z.shiftl 1 3.

(** The targets of an [exe_disk_file_t*]. *)
Inductive dref : Type := DStdin | DStdout | DSym (i : nat).

#[global] Instance dref_eq_dec : EqDecision dref.
Proof. solve_decision. Defined.

Record exe_file_t := mkFile {
  fd : Z;
  flags : Z;
  off : Z;
  dfile : option dref }.

(** [memset(f, 0, sizeof *f)]. *)
Definition zero_file : exe_file_t := mkFile 0 0 0 None.

(** The [int*] fields that say which call fails are [None] while null. *)
Record exe_file_system_t := mkFs {
  n_sym_files : Z;
  sym_stdin : option exe_disk_file_t;
  sym_stdout : option exe_disk_file_t;
  stdout_writes : Z;
  sym_files : list exe_disk_file_t;
  max_failures : Z;
  read_fail : option Z; write_fail : option Z; close_fail : option Z;
  ftruncate_fail : option Z; getcwd_fail : option Z;
  chmod_fail : option Z; fchmod_fail : option Z }.

Definition MAX_FDS : nat := 32.

Record exe_sym_env_t := mkEnv {
  fds : list exe_file_t;
  umask_ : Z;
  save_all_writes : Z }.

(** The function-local [static int n_calls] counters. *)
Record counters := mkCounters {
  n_close : Z; n_read : Z; n_write : Z; n_chmod : Z; n_fchmod : Z;
  n_ftruncate : Z; n_getcwd : Z }.

(** ** The operating system interface

    The requests the runtime hands to the kernel, to the allocator and to the
    engine.  [KleeMakeSymbolic] asks for the bytes the current path gives to a
    fresh symbolic object. *)

Inductive sysreq : Type :=
  | SysAccess (path : list Z) (mode : Z)
  | SysOpen (path : list Z) (fl mode : Z)
  | SysOpenat (basefd : Z) (path : list Z) (fl mode : Z)
  | SysUtimes (path : list Z) (times : option (Z * Z))
  | SysFutimesat (fd : Z) (path : option (list Z)) (times : option (Z * Z))
  | SysRead (fd count : Z)
  | SysPread64 (fd count off : Z)
  | SysWrite (fd : Z) (data : list Z)
  | SysPwrite64 (fd : Z) (data : list Z) (off : Z)
  | SysLseek (fd off whence : Z)
  | SysStat (path : list Z)
  | SysLstat (path : list Z)
  | SysNewfstatat (fd : Z) (path : list Z) (fl : Z)
  | SysFstat (fd : Z)
  | SysChdir (path : list Z)
  | SysFchdir (fd : Z)
  | SysChmod (path : list Z) (mode : Z)
  | SysFchmod (fd mode : Z)
  | SysChown (path : list Z) (owner group : Z)
  | SysFchown (fd owner group : Z)
  | SysFtruncate (fd length : Z)
  | SysIoctl (fd request buf : Z)
  | SysFcntl (fd cmd : Z) (arg : option Z)
  | SysStatfs (path : list Z)
  | SysFstatfs (fd : Z)
  | SysFsync (fd : Z)
  | SysReadlink (path : option (list Z)) (bufsize : Z)
  | SysGetdents64 (fd count : Z)
  | SysSelect (nfds : Z) (rd wr ex : list Z)
  | SysMalloc (size : Z)
  | KleeMakeSymbolic (name : list Z) (nbytes : Z)
  | KleeMakeSymbolicStat (name : list Z)
  | KleeIsSymbolic (value : Z)
  | SysGetcwd (size : Z)
  | SysGeteuid
  | SysGetgid
  | SysGetegid
  | SysGettimeofday.

(** The return value, the error number set when it is -1, and what the kernel
    writes to the caller's buffer. *)
Record sysres := mkRes {
  sr_ret : Z; sr_errno : Z; sr_data : list Z; sr_stat : option stat64 }.

(** The environment of the program: the answer to a request and its new state.
    It may also end the program. *)
Definition kernel (OS : Type) : Type := sysreq -> OS -> outcome (sysres * OS).

(** ** The world and its monad *)

Section World.
Context {OS : Type}.

Record world := mkWorld {
  w_fs : exe_file_system_t;
  w_env : exe_sym_env_t;
  w_calls : counters;
  w_errno : Z;
  w_os : OS }.

Definition M (A : Type) : Type := world -> outcome (A * world).

#[global] Instance M_ret : MRet M := fun A a w => Ret (a, w).
#[global] Instance M_bind : MBind M := fun A B f m w =>
  match m w with Ret (a, w') => f a w' | Stop e => Stop e end.

Definition halt {A} (e : stop) : M A := fun _ => Stop e.
Definition gets {A} (f : world -> A) : M A := fun w => Ret (f w, w).
Definition modify (f : world -> world) : M unit := fun w => Ret (tt, f w).

Definition set_fs (f : exe_file_system_t -> exe_file_system_t) (w : world) : world :=
  mkWorld (f (w_fs w)) (w_env w) (w_calls w) (w_errno w) (w_os w).
Definition set_env (f : exe_sym_env_t -> exe_sym_env_t) (w : world) : world :=
  mkWorld (w_fs w) (f (w_env w)) (w_calls w) (w_errno w) (w_os w).
Definition set_calls (f : counters -> counters) (w : world) : world :=
  mkWorld (w_fs w) (w_env w) (f (w_calls w)) (w_errno w) (w_os w).
Definition set_errno (e : Z) (w : world) : world :=
  mkWorld (w_fs w) (w_env w) (w_calls w) e (w_os w).
Definition set_os (o : OS) (w : world) : world :=
  mkWorld (w_fs w) (w_env w) (w_calls w) (w_errno w) o.

(** [errno = e; return -1;] *)
Definition fail {A} (e : Z) (r : A) : M A := modify (set_errno e);; mret r.

(** Writing a file table entry. *)
Definition put_file (i : nat) (f : exe_file_t) : M unit :=
  modify (set_env (fun e => mkEnv (<[i := f]> (fds e)) (umask_ e) (save_all_writes e))).

(** Dereferencing and writing an [exe_disk_file_t*]. *)
Definition get_df (fs : exe_file_system_t) (d : dref) : option exe_disk_file_t :=
  match d with
  | DStdin => sym_stdin fs
  | DStdout => sym_stdout fs
  | DSym i => sym_files fs !! i
  end.

Definition fs_put_df (d : dref) (x : exe_disk_file_t) (fs : exe_file_system_t)
    : exe_file_system_t :=
  let '(mkFs n i o sw sf mf a b c e f g h) := fs in
  match d with
  | DStdin => mkFs n (Some x) o sw sf mf a b c e f g h
  | DStdout => mkFs n i (Some x) sw sf mf a b c e f g h
  | DSym k => mkFs n i o sw (<[k := x]> sf) mf a b c e f g h
  end.

Definition deref_df (d : dref) : M exe_disk_file_t := fun w =>
  match get_df (w_fs w) d with Some x => Ret (x, w) | None => Stop MemError end.

Definition put_df (d : dref) (x : exe_disk_file_t) : M unit :=
  modify (set_fs (fs_put_df d x)).

(** Storing the bytes of a file. *)
Definition put_contents (d : dref) (c : list Z) : M unit :=
  x ← deref_df d; put_df d (mkDfile (size x) c (stat x)).

Definition put_max_failures (n : Z) : M unit :=
  modify (set_fs (fun '(mkFs k i o sw sf _ a b c e f g h) =>
                    mkFs k i o sw sf n a b c e f g h)).

Definition put_stdout_writes (n : Z) : M unit :=
  modify (set_fs (fun '(mkFs k i o _ sf mf a b c e f g h) =>
                    mkFs k i o n sf mf a b c e f g h)).

(** The fault-injection test [if (__exe_fs.max_failures && *X_fail == n_calls)
    { __exe_fs.max_failures--; errno = e; return r; }] of the system calls. *)
Definition inject {A} (p : exe_file_system_t -> option Z) (n_calls e : Z) (r : A)
    (k : M A) : M A :=
  mf ← gets (fun w => max_failures (w_fs w));
  if nz mf then
    which ← gets (fun w => p (w_fs w));
    match which with
    | None => halt MemError
    | Some x => if x =? n_calls then put_max_failures (mf - 1);; fail e r else k
    end
  else k.

Context (sys : kernel OS).

(** [syscall(...)]: on -1 the error number is set. *)
Definition syscall (q : sysreq) : M sysres := fun w =>
  match sys q (w_os w) with
  | Stop e => Stop e
  | Ret (r, o) =>
      let w' := set_os o w in
      Ret (r, if sr_ret r =? -1 then set_errno (sr_errno r) w' else w')
  end.

End World.

Arguments world : clear implicits.
Arguments M : clear implicits.
