(* ===== verification/PosixFd.v ===== *)
(** * The symbolic file descriptor layer

    Models [src/vital-src/runtime/POSIX/fd.c] (and the entry points of
    [fd_64.c] that forward to it): one definition per function, each the whole
    body of the C function, in the state monad of [PosixState].  A pointer to
    an entry of [__exe_env.fds] is the entry's index, so that a write through
    one pointer is seen through every other.  A function that stores into a
    buffer of the caller returns the buffer's new contents beside its result.

    The program runs on one path of the symbolic execution, on which every
    byte has a value: the concretisation helpers ([__concretize_ptr],
    [__concretize_size], [__concretize_string]) return the value they are
    given, which [PosixConcretize] proves of their code.  [klee_warning] has no
    effect on the program. *)

From S2P Require Import Prelude PosixState.

Module Fd.
Section Fd.
Context {OS : Type} (sys : kernel OS).

Abbreviation M := (PosixState.M OS).
Abbreviation syscall := (PosixState.syscall sys).

(** ** Shared steps *)

(** [return syscall(...)] from a function that returns [int]. *)
Definition syscall_int (q : sysreq) : M Z :=
  r ← syscall q; mret (s32 (sr_ret r)).

(** The string behind a pointer that is passed on to the kernel; a null
    pointer is dereferenced. *)
Definition cstr (p : option (list Z)) : M (list Z) :=
  match p with None => halt MemError | Some s => mret s end.

(** [*f] for an entry of the file table. *)
Definition get_entry (i : nat) : M exe_file_t := fun w =>
  match fds (w_env w) !! i with Some f => Ret (f, w) | None => Stop MemError end.

Definition set_off (i : nat) (o : Z) : M unit :=
  f ← get_entry i; put_file i (mkFile (fd f) (flags f) o (dfile f)).

Definition set_flags (i : nat) (fl : Z) : M unit :=
  f ← get_entry i; put_file i (mkFile (fd f) fl (off f) (dfile f)).

Definition set_fd (i : nat) (x : Z) : M unit :=
  f ← get_entry i; put_file i (mkFile x (flags f) (off f) (dfile f)).

Definition set_dfile (i : nat) (d : option dref) : M unit :=
  f ← get_entry i; put_file i (mkFile (fd f) (flags f) (off f) d).

Definition set_stat (d : dref) (g : stat64 -> stat64) : M unit :=
  x ← deref_df d; put_df d (mkDfile (size x) (contents x) (g (stat x))).

Definition with_mode (m : Z) (s : stat64) : stat64 :=
  let '(mkStat a b _ d e f g h i j k l n) := s in mkStat a b m d e f g h i j k l n.
Definition with_ino (x : Z) (s : stat64) : stat64 :=
  let '(mkStat a _ c d e f g h i j k l n) := s in mkStat a x c d e f g h i j k l n.
Definition with_times (at_ mt : Z) (s : stat64) : stat64 :=
  let '(mkStat a b c d e f g h i j _ _ n) := s in
  mkStat a b c d e f g h i j at_ mt n.

(** Prefixing [++n_calls] of the function whose counter [g] bumps. *)
Definition bump (g : counters -> counters) (n : counters -> Z) : M Z :=
  modify (set_calls g);; gets (fun w => n (w_calls w)).

Definition is_open (f : exe_file_t) : bool := nz (Z.land (flags f) eOpen).

(** The loop [for (fd = 0; fd < MAX_FDS; ++fd) if (!(fds[fd].flags & eOpen))
    break;]: the index it stops at. *)
Fixpoint free_slot (l : list exe_file_t) : nat :=
  match l with
  | [] => 0
  | f :: l' => if is_open f then S (free_slot l') else 0
  end.

(** The bytes of a buffer up to the first NUL; [None] when there is none. *)
Fixpoint until_nul (l : list Z) : option (list Z) :=
  match l with
  | [] => None
  | c :: l' => if c =? 0 then Some [] else cons c <$> until_nul l'
  end.

(** [klee_check_memory_access(buf, n)]. *)
Definition check_access (buf : list Z) (n : Z) : M unit :=
  if (0 <=? n) && (n <=? Z.of_nat (length buf)) then mret tt else halt MemError.

(** What the kernel stores into the first [n] bytes of [buf]. *)
Definition kernel_store (buf data : list Z) (n : Z) : list Z :=
  splice buf 0 (take (Z.to_nat n) data).

(** [memcpy(dst + doff, src + soff, n)] on two objects. *)
Definition memcpy_at (dst : list Z) (doff : Z) (src : list Z) (soff n : Z)
    : M (list Z) :=
  if n =? 0 then mret dst else
  if (0 <=? doff) && (doff + n <=? Z.of_nat (length dst)) &&
     (0 <=? soff) && (soff + n <=? Z.of_nat (length src)) && (0 <=? n)
  then mret (splice dst (Z.to_nat doff)
               (take (Z.to_nat n) (drop (Z.to_nat soff) src)))
  else halt MemError.

(** ** Name lookup *)

Definition getcwd (buf : option (list Z)) (sz : Z) : M (option (list Z)) :=
  n_calls ← bump (fun '(mkCounters a b c d e f g) => mkCounters a b c d e f (s32 (g + 1)))
                 n_getcwd;
  inject getcwd_fail n_calls ERANGE None (
    b ← match buf with
        | None =>
            r ← syscall (SysMalloc 1024);
            if sr_ret r =? 0 then fail ENOMEM None
            else mret (Some (sr_data r, 1024))
        | Some b => if sz =? 0 then fail EINVAL None else mret (Some (b, sz))
        end;
    match b with
    | None => mret None
    | Some (b, n) =>
        check_access b n;;
        r ← syscall (SysGetcwd n);
        if s32 (sr_ret r) =? -1 then mret None
        else mret (Some (kernel_store b (sr_data r) n))
    end).

(** [strncmp(a, b, n) == 0] on two strings. *)
Fixpoint strncmp_eq (a b : list Z) (n : nat) : bool :=
  match n with
  | O => true
  | S n' =>
      match a, b with
      | [], [] => true
      | x :: a', y :: b' => (x =? y) && strncmp_eq a' b' n'
      | _, _ => false
      end
  end.

(** Removing the current directory from an absolute path. *)
Definition strip_cwd (pathname : list Z) : M (list Z) :=
  if nth 0 pathname 0 =? 47 then
    r ← getcwd (Some (replicate 1024 0)) 1024;
    match r with
    | None => mret pathname
    | Some buf =>
        match until_nul buf with
        | None => halt MemError
        | Some cwd =>
            let cwd := if match last cwd with Some c => c =? 47 | None => false end
                       then take (length cwd - 1) cwd else cwd in
            let cwd_len := length cwd in
            if strncmp_eq pathname cwd cwd_len then
              if negb (nth cwd_len pathname 0 =? 0)
              then mret (drop (cwd_len + 1) pathname) else mret pathname
            else mret pathname
        end
    end
  else mret pathname.

(** The loop over the symbolic files, from file [i] on, [k] files left. *)
Fixpoint find_sym (fs : exe_file_system_t) (c : Z) (k : nat) (i : Z)
    : outcome (option dref) :=
  match k with
  | O => Ret None
  | S k' =>
      if s8 c =? 65 + s8 i then
        match sym_files fs !! Z.to_nat i with
        | None => Stop MemError
        | Some df => if st_ino (stat df) =? 0 then Ret None
                     else Ret (Some (DSym (Z.to_nat i)))
        end
      else find_sym fs c k' (i + 1)
  end.

Definition __get_sym_file (pathname : option (list Z)) : M (option dref) :=
  match pathname with
  | None => mret None
  | Some p =>
      p ← strip_cwd p;
      let c := nth 0 p 0 in
      if (c =? 0) || negb (nth 1 p 0 =? 0) then mret None
      else
        fs ← gets w_fs;
        match find_sym fs c (Z.to_nat (n_sym_files fs)) 0 with
        | Ret d => mret d
        | Stop e => halt e
        end
  end.

(** The entry of a valid descriptor. *)
Definition __get_file (fd_ : Z) : M (option nat) :=
  if (0 <=? fd_) && (fd_ <? Z.of_nat MAX_FDS) then
    f ← get_entry (Z.to_nat fd_);
    mret (if is_open f then Some (Z.to_nat fd_) else None)
  else mret None.

Definition access (pathname : option (list Z)) (mode : Z) : M Z :=
  d ← __get_sym_file pathname;
  match d with
  | Some _ => mret 0
  | None => p ← cstr pathname; syscall_int (SysAccess p mode)
  end.

Definition umask (mask : Z) : M Z :=
  r ← gets (fun w => umask_ (w_env w));
  modify (set_env (fun e => mkEnv (fds e) (Z.land mask 511) (save_all_writes e)));;
  mret r.

(** ** Opening and closing *)

Definition has_permission (flags : Z) (s : stat64) : bool :=
  let mode := st_mode s in
  let read_access := nz (Z.land flags O_RDONLY) || nz (Z.land flags O_RDWR) in
  let write_access := nz (Z.land flags O_WRONLY) || nz (Z.land flags O_RDWR) in
  if read_access &&
     nz (Z.lor (Z.lor (Z.land mode S_IRUSR) (Z.land mode S_IRGRP))
               (Z.land mode S_IROTH)) then false
  else if write_access &&
     negb (nz (Z.lor (Z.lor (Z.land mode S_IWUSR) (Z.land mode S_IWGRP))
                     (Z.land mode S_IWOTH))) then false
  else true.

(** The flags of a descriptor opened with [flags]. *)
Definition open_flags (flags : Z) : Z :=
  if Z.land flags O_ACCMODE =? O_RDONLY then Z.lor eOpen eReadable
  else if Z.land flags O_ACCMODE =? O_WRONLY then Z.lor eOpen eWriteable
  else Z.lor eOpen (Z.lor eReadable eWriteable).

(** The branch of [__fd_open] for a symbolic file; false when it returned -1. *)
Definition open_sym (i : nat) (d : dref) (flags mode : Z) : M bool :=
  set_dfile i (Some d);;
  if nz (Z.land flags O_CREAT) && nz (Z.land flags O_EXCL) then fail EEXIST false
  else if nz (Z.land flags O_TRUNC) && nz (Z.land flags O_RDONLY)
  then fail EACCES false
  else if nz (Z.land flags O_EXCL) && negb (nz (Z.land flags O_CREAT))
  then fail EACCES false
  else
    x ← deref_df d;
    if negb (has_permission flags (stat x)) then fail EACCES false
    else
      um ← gets (fun w => umask_ (w_env w));
      set_stat d (fun s =>
        with_mode (Z.lor (Z.land (st_mode s) (Z.lnot 511))
                         (Z.land mode (Z.lnot um))) s);;
      mret true.

Definition __fd_open (pathname : option (list Z)) (flags mode : Z) : M Z :=
  i ← gets (fun w => free_slot (fds (w_env w)));
  if bool_decide (i = MAX_FDS) then fail EMFILE (-1) else
  put_file i zero_file;;
  df ← __get_sym_file pathname;
  ok ← match df with
       | Some d => open_sym i d flags mode
       | None =>
           p ← cstr pathname;
           os_fd ← syscall_int (SysOpen p flags mode);
           if os_fd =? -1 then mret false else set_fd i os_fd;; mret true
       end;
  if ok : bool then set_flags i (open_flags flags);; mret (Z.of_nat i)
  else mret (-1).

Definition __fd_openat (basefd : Z) (pathname : option (list Z)) (flags mode : Z)
    : M Z :=
  let rest (basefd : Z) : M Z :=
    df ← __get_sym_file pathname;
    match df with
    | Some _ => __fd_open pathname flags mode
    | None =>
        i ← gets (fun w => free_slot (fds (w_env w)));
        if bool_decide (i = MAX_FDS) then fail EMFILE (-1) else
        put_file i zero_file;;
        p ← cstr pathname;
        os_fd ← syscall_int (SysOpenat basefd p flags mode);
        if os_fd =? -1 then mret (-1) else
        set_fd i os_fd;;
        set_flags i (open_flags flags);;
        mret (Z.of_nat i)
    end in
  if basefd =? AT_FDCWD then rest basefd else
  bf ← __get_file basefd;
  match bf with
  | None => fail EBADF (-1)
  | Some j =>
      f ← get_entry j;
      match dfile f with
      | Some _ => fail ENOENT (-1)
      | None => rest (fd f)
      end
  end.

Definition close (fd_ : Z) : M Z :=
  n_calls ← bump (fun '(mkCounters a b c d e f g) => mkCounters (s32 (a + 1)) b c d e f g)
                 n_close;
  f ← __get_file fd_;
  match f with
  | None => fail EBADF (-1)
  | Some i =>
      inject close_fail n_calls EIO (-1) (put_file i zero_file;; mret 0)
  end.

(** ** Times *)

(** The two [tv_sec] values of a [struct timeval[2]]. *)
Definition utimes (path : option (list Z)) (times : option (Z * Z)) : M Z :=
  d ← __get_sym_file path;
  match d with
  | Some d =>
      ts ← match times with
           | Some ts => mret ts
           | None => r ← syscall SysGettimeofday;
                     let now := nth 0 (sr_data r) 0 in mret (now, now)
           end;
      set_stat d (with_times ts.1 ts.2);; mret 0
  | None => p ← cstr path; syscall_int (SysUtimes p times)
  end.

Definition futimesat (fd_ : Z) (path : option (list Z)) (times : option (Z * Z))
    : M Z :=
  let rest (fd_ : Z) : M Z :=
    d ← __get_sym_file path;
    match d with
    | Some _ => utimes path times
    | None => syscall_int (SysFutimesat fd_ path times)
    end in
  if fd_ =? AT_FDCWD then rest fd_ else
  bf ← __get_file fd_;
  match bf with
  | None => fail EBADF (-1)
  | Some j =>
      f ← get_entry j;
      match dfile f with
      | Some _ => fail ENOENT (-1)
      | None => rest (fd f)
      end
  end.

(** ** Reading and writing *)

Definition read (fd_ : Z) (buf : option (list Z)) (count : Z)
    : M (Z * option (list Z)) :=
  n_calls ← bump (fun '(mkCounters a b c d e f g) => mkCounters a (s32 (b + 1)) c d e f g)
                 n_read;
  if count =? 0 then mret (0, buf) else
  match buf with
  | None => fail EFAULT (-1, None)
  | Some b =>
      f ← __get_file fd_;
      match f with
      | None => fail EBADF (-1, buf)
      | Some i =>
          inject read_fail n_calls EIO (-1, buf) (
            f ← get_entry i;
            match dfile f with
            | None =>
                check_access b count;;
                r ← syscall (if fd f =? 0 then SysRead (fd f) count
                             else SysPread64 (fd f) count (off f));
                let n := s32 (sr_ret r) in
                if n =? -1 then mret (-1, buf) else
                (if negb (fd f =? 0) then set_off i (s64 (off f + n)) else mret tt);;
                mret (n, Some (kernel_store b (sr_data r) count))
            | Some d =>
                if off f <? 0 then halt AssertFail else
                x ← deref_df d;
                if size x <? off f then mret (0, buf) else
                let count := if size x <? u64 (off f + count)
                             then u64 (size x - off f) else count in
                b' ← memcpy_at b 0 (contents x) (off f) count;
                set_off i (s64 (off f + count));;
                mret (s64 count, Some b')
            end)
      end
  end.

(** The three steps of a write to a symbolic file: how many bytes fit, storing
    them, counting the bytes of standard output. *)
Definition write_actual (f : exe_file_t) (x : exe_disk_file_t) (count saw : Z) : M Z :=
  if u64 (off f + count) <=? size x then mret count
  else if nz saw then halt AssertFail
  else if off f <? size x then mret (u64 (size x - off f))
  else mret 0.

Definition write_store (d : dref) (f : exe_file_t) (x : exe_disk_file_t)
    (buf : option (list Z)) (actual_count : Z) : M unit :=
  if nz actual_count then
    match buf with
    | None => halt MemError
    | Some b =>
        c' ← memcpy_at (contents x) (off f) b 0 actual_count;
        put_contents d c'
    end
  else mret tt.

Definition write_count (d : dref) (actual_count : Z) : M unit :=
  if bool_decide (d = DStdout) then
    sw ← gets (fun w => stdout_writes (w_fs w));
    put_stdout_writes (u32 (sw + actual_count))
  else mret tt.

Definition write (fd_ : Z) (buf : option (list Z)) (count : Z) : M Z :=
  n_calls ← bump (fun '(mkCounters a b c d e f g) => mkCounters a b (s32 (c + 1)) d e f g)
                 n_write;
  f ← __get_file fd_;
  match f with
  | None => fail EBADF (-1)
  | Some i =>
      inject write_fail n_calls EIO (-1) (
        f ← get_entry i;
        match dfile f with
        | None =>
            match buf with
            | None => halt MemError
            | Some b =>
                check_access b count;;
                let data := take (Z.to_nat count) b in
                r ← syscall (if (fd f =? 1) || (fd f =? 2) then SysWrite (fd f) data
                             else SysPwrite64 (fd f) data (off f));
                let n := s32 (sr_ret r) in
                if n =? -1 then mret (-1) else
                if n <? 0 then halt AssertFail else
                (if negb (fd f =? 1) && negb (fd f =? 2)
                 then set_off i (s64 (off f + n)) else mret tt);;
                mret n
            end
        | Some d =>
            x ← deref_df d;
            saw ← gets (fun w => save_all_writes (w_env w));
            actual_count ← write_actual f x count saw;
            write_store d f x buf actual_count;;
            write_count d actual_count;;
            set_off i (s64 (off f + count));;
            mret (s64 count)
        end)
  end.

Definition __fd_lseek (fd_ offset whence : Z) : M Z :=
  f ← __get_file fd_;
  match f with
  | None => fail EBADF (-1)
  | Some i =>
      f ← get_entry i;
      match dfile f with
      | None =>
          new_off ←
            (if whence =? SEEK_SET then
               r ← syscall (SysLseek (fd f) offset SEEK_SET); mret (s64 (sr_ret r))
             else
               r ← syscall (SysLseek (fd f) (off f) SEEK_SET);
               let new_off := s64 (sr_ret r) in
               if new_off =? -1 then mret new_off else
               if negb (new_off =? off f) then halt AssertFail else
               r ← syscall (SysLseek (fd f) offset whence); mret (s64 (sr_ret r)));
          if new_off =? -1 then mret (-1) else
          set_off i new_off;; mret new_off
      | Some d =>
          x ← deref_df d;
          let new_off :=
            if whence =? SEEK_SET then Some offset
            else if whence =? SEEK_CUR then Some (s64 (off f + offset))
            else if whence =? SEEK_END then Some (s64 (size x + offset))
            else None in
          match new_off with
          | None => fail EINVAL (-1)
          | Some o => if o <? 0 then fail EINVAL (-1) else set_off i o;; mret o
          end
      end
  end.

(** ** Status *)

(** The second component is what is stored into the caller's [struct stat]. *)
Definition os_stat (q : sysreq) : M (Z * option stat64) :=
  r ← syscall q; mret (s32 (sr_ret r), sr_stat r).

Definition df_stat (d : dref) : M (Z * option stat64) :=
  x ← deref_df d; mret (0, Some (stat x)).

Definition __fd_stat (path : option (list Z)) : M (Z * option stat64) :=
  d ← __get_sym_file path;
  match d with
  | Some d => df_stat d
  | None => p ← cstr path; os_stat (SysStat p)
  end.

Definition fstatat (fd_ : Z) (path : option (list Z)) (fl : Z)
    : M (Z * option stat64) :=
  let rest (fd_ : Z) : M (Z * option stat64) :=
    d ← __get_sym_file path;
    match d with
    | Some d => df_stat d
    | None =>
        match path with
        | None => halt AssertFail
        | Some p => os_stat (SysNewfstatat fd_ p fl)
        end
    end in
  if fd_ =? AT_FDCWD then rest fd_ else
  bf ← __get_file fd_;
  match bf with
  | None => fail EBADF (-1, None)
  | Some j =>
      f ← get_entry j;
      match dfile f with
      | Some _ => fail ENOENT (-1, None)
      | None => rest (fd f)
      end
  end.

Definition __fd_lstat (path : option (list Z)) : M (Z * option stat64) :=
  d ← __get_sym_file path;
  match d with
  | Some d => df_stat d
  | None => p ← cstr path; os_stat (SysLstat p)
  end.

Definition __fd_fstat (fd_ : Z) : M (Z * option stat64) :=
  f ← __get_file fd_;
  match f with
  | None => fail EBADF (-1, None)
  | Some i =>
      f ← get_entry i;
      match dfile f with
      | None => os_stat (SysFstat (fd f))
      | Some d => df_stat d
      end
  end.

(** ** Directories, modes and owners *)

(** The calls that refuse a symbolic file with [e] and otherwise pass the
    path to the kernel. *)
Definition chdir (path : option (list Z)) : M Z :=
  d ← __get_sym_file path;
  match d with
  | Some _ => fail ENOENT (-1)
  | None => p ← cstr path; syscall_int (SysChdir p)
  end.

Definition fchdir (fd_ : Z) : M Z :=
  f ← __get_file fd_;
  match f with
  | None => fail EBADF (-1)
  | Some i =>
      f ← get_entry i;
      match dfile f with
      | Some _ => fail ENOENT (-1)
      | None => syscall_int (SysFchdir (fd f))
      end
  end.

Definition __df_chmod (d : dref) (mode : Z) : M Z :=
  euid ← syscall SysGeteuid;
  x ← deref_df d;
  if u32 (sr_ret euid) =? st_uid (stat x) then
    gid ← syscall SysGetgid;
    let mode := if negb (u32 (sr_ret gid) =? st_gid (stat x))
                then Z.land mode (Z.lnot S_ISGID) else mode in
    set_stat d (fun s => with_mode (Z.lor (Z.land (st_mode s) (Z.lnot 4095))
                                          (Z.land mode 4095)) s);;
    mret 0
  else fail EPERM (-1).

Definition chmod (path : option (list Z)) (mode : Z) : M Z :=
  d ← __get_sym_file path;
  n_calls ← bump (fun '(mkCounters a b c d e f g) => mkCounters a b c (s32 (d + 1)) e f g)
                 n_chmod;
  inject chmod_fail n_calls EIO (-1) (
    match d with
    | Some d => __df_chmod d mode
    | None => p ← cstr path; syscall_int (SysChmod p mode)
    end).

Definition fchmod (fd_ : Z) (mode : Z) : M Z :=
  f ← __get_file fd_;
  match f with
  | None => fail EBADF (-1)
  | Some i =>
      n_calls ← bump (fun '(mkCounters a b c d e f g) =>
                        mkCounters a b c d (s32 (e + 1)) f g) n_fchmod;
      inject fchmod_fail n_calls EIO (-1) (
        f ← get_entry i;
        match dfile f with
        | Some d => __df_chmod d mode
        | None => syscall_int (SysFchmod (fd f) mode)
        end)
  end.

Definition __df_chown (d : dref) (owner group : Z) : M Z := fail EPERM (-1).

Definition chown (path : option (list Z)) (owner group : Z) : M Z :=
  d ← __get_sym_file path;
  match d with
  | Some d => __df_chown d owner group
  | None => p ← cstr path; syscall_int (SysChown p owner group)
  end.

Definition fchown (fd_ owner group : Z) : M Z :=
  f ← __get_file fd_;
  match f with
  | None => fail EBADF (-1)
  | Some i =>
      f ← get_entry i;
      match dfile f with
      | Some d => __df_chown d owner group
      | None => syscall_int (SysFchown fd_ owner group)
      end
  end.

Definition lchown (path : option (list Z)) (owner group : Z) : M Z :=
  d ← __get_sym_file path;
  match d with
  | Some d => __df_chown d owner group
  | None => p ← cstr path; syscall_int (SysChown p owner group)
  end.

Definition __fd_ftruncate (fd_ len : Z) : M Z :=
  f ← __get_file fd_;
  n_calls ← bump (fun '(mkCounters a b c d e f g) =>
                    mkCounters a b c d e (s32 (f + 1)) g) n_ftruncate;
  match f with
  | None => fail EBADF (-1)
  | Some i =>
      inject ftruncate_fail n_calls EIO (-1) (
        f ← get_entry i;
        match dfile f with
        | Some _ => fail EIO (-1)
        | None => syscall_int (SysFtruncate (fd f) len)
        end)
  end.

(** ** Directory listings

    [struct dirent64] is laid out as [d_ino] (8 bytes), [d_off] (8),
    [d_reclen] (2), [d_type] (1) and [d_name] from byte 19 on; its size is
    280. *)

Definition sizeof_dirent64 : Z := 280.

(** A store of an [n]-byte integer at byte [o] of a buffer. *)
Definition store (n : nat) (x o : Z) (buf : list Z) : M (list Z) :=
  memcpy_at buf o (le_bytes n x) 0 (Z.of_nat n).

Definition load (n : nat) (o : Z) (buf : list Z) : M Z :=
  if (0 <=? o) && (o + Z.of_nat n <=? Z.of_nat (length buf))
  then mret (le_val (take n (drop (Z.to_nat o) buf))) else halt MemError.

(** The loop that emits the symbolic files from file [i] on ([k] files left)
    at [pos], the byte position of [dirp]; returns [bytes] and the buffer. *)
Fixpoint emit_dents (k : nat) (i pos bytes : Z) (buf : list Z)
    : M (Z * Z * list Z) :=
  match k with
  | O => mret (pos, bytes, buf)
  | S k' =>
      x ← deref_df (DSym (Z.to_nat i));
      buf ← store 8 (st_ino (stat x)) pos buf;
      buf ← store 2 sizeof_dirent64 (pos + 16) buf;
      buf ← store 1 (Z.shiftr (Z.land (st_mode (stat x)) S_IFMT) 12) (pos + 18) buf;
      buf ← store 1 (65 + i) (pos + 19) buf;
      buf ← store 1 0 (pos + 20) buf;
      buf ← store 8 ((i + 1) * sizeof_dirent64) (pos + 8) buf;
      reclen ← load 2 (pos + 16) buf;
      emit_dents k' (i + 1) (pos + sizeof_dirent64) (bytes + reclen) buf
  end.

(** The loop that patches the offsets of the kernel's records. *)
Fixpoint patch_dents (fuel : nat) (pos res : Z) (buf : list Z) : M (list Z) :=
  match fuel with
  | O => halt OutOfFuel
  | S fuel' =>
      if pos <? res then
        o ← load 8 (pos + 8) buf;
        buf ← store 8 (o + 4096) (pos + 8) buf;
        reclen ← load 2 (pos + 16) buf;
        patch_dents fuel' (s32 (pos + reclen)) res buf
      else mret buf
  end.

Definition __fd_getdents (fd_ : Z) (dirp : list Z) (count : Z)
    : M (Z * list Z) :=
  f ← __get_file (s32 fd_);
  match f with
  | None => fail EBADF (-1, dirp)
  | Some idx =>
      f ← get_entry idx;
      match dfile f with
      | Some _ => fail EINVAL (-1, dirp)
      | None =>
          if u64 (off f) <? 4096 then
            n ← gets (fun w => n_sym_files (w_fs w));
            let i := off f / sizeof_dirent64 in
            if negb (i * sizeof_dirent64 =? off f) || (n <? i)
            then fail EINVAL (-1, dirp)
            else
              '(pos, bytes, buf) ← emit_dents (Z.to_nat (n - i)) i 0 0 dirp;
              let pad := if 4096 <=? count then 4096 else count in
              buf ← store 8 0 pos buf;
              buf ← store 2 (u16 (pad - bytes)) (pos + 16) buf;
              buf ← store 1 0 (pos + 18) buf;
              buf ← store 1 0 (pos + 19) buf;
              buf ← store 8 4096 (pos + 8) buf;
              reclen ← load 2 (pos + 16) buf;
              set_off idx pad;;
              mret (s32 (bytes + reclen), buf)
          else
            let os_pos := s64 (off f - 4096) in
            buf ← memcpy_at dirp 0 (replicate (Z.to_nat count) 0) 0 count;
            s ← syscall (SysLseek (fd f) os_pos SEEK_SET);
            if s64 (sr_ret s) =? -1 then halt AssertFail else
            r ← syscall (SysGetdents64 (fd f) count);
            let res := s32 (sr_ret r) in
            if -1 <? res then
              let buf := kernel_store buf (sr_data r) count in
              s ← syscall (SysLseek (fd f) 0 SEEK_CUR);
              if s64 (sr_ret s) =? -1 then halt AssertFail else
              set_off idx (s64 (sr_ret s + 4096));;
              buf ← patch_dents (S (Z.to_nat res)) 0 res buf;
              mret (res, buf)
            else mret (res, buf)
      end
  end.

(** ** ioctl and fcntl *)

Definition TCGETS : Z := 21505.
Definition TCSETS : Z := 21506.
Definition TCSETSW : Z := 21507.
Definition TCSETSF : Z := 21508.
Definition TIOCGWINSZ : Z := 21523.
Definition TIOCSWINSZ : Z := 21524.
Definition FIONREAD : Z := 21531.
Definition MTIOCGET : Z := 2150657282.

(** What [ioctl] stores through its third argument. *)
Inductive ioctl_out : Type :=
  | IoNone
  | IoTermios (c_iflag c_oflag c_cflag c_lflag c_line : Z) (c_cc : list Z)
  | IoWinsize (ws_row ws_col : Z)
  | IoInt (res : Z)
  | IoKernel (data : list Z).

Definition ioctl (fd_ request buf : Z) : M (Z * ioctl_out) :=
  f ← __get_file fd_;
  match f with
  | None => fail EBADF (-1, IoNone)
  | Some i =>
      f ← get_entry i;
      match dfile f with
      | None =>
          r ← syscall (SysIoctl (fd f) request buf);
          mret (s32 (sr_ret r), IoKernel (sr_data r))
      | Some d =>
          x ← deref_df d;
          let chr := S_ISCHR (st_mode (stat x)) in
          let null_buf := buf =? 0 in
          if request =? TCGETS then
            if chr then
              if null_buf then halt MemError else
              mret (0, IoTermios 27906 5 1215 35287 0
                         [3; 28; 127; 21; 4; 0; 1; 255; 17; 19; 26; 255; 18; 15;
                          23; 22; 255; 0; 0])
            else fail ENOTTY (-1, IoNone)
          else if request =? TCSETS then
            if chr then mret (0, IoNone) else fail ENOTTY (-1, IoNone)
          else if request =? TCSETSW then
            if fd_ =? 0 then mret (0, IoNone) else fail ENOTTY (-1, IoNone)
          else if request =? TCSETSF then
            if chr then mret (0, IoNone) else fail ENOTTY (-1, IoNone)
          else if request =? TIOCGWINSZ then
            if null_buf then halt MemError else
            if chr then mret (0, IoWinsize 24 80)
            else fail ENOTTY (-1, IoWinsize 24 80)
          else if request =? TIOCSWINSZ then
            if chr then fail EINVAL (-1, IoNone) else fail ENOTTY (-1, IoNone)
          else if request =? FIONREAD then
            if chr then
              if null_buf then halt MemError else
              if off f <? size x then mret (0, IoInt (s32 (size x - off f)))
              else mret (0, IoInt 0)
            else fail ENOTTY (-1, IoNone)
          else if request =? MTIOCGET then fail EINVAL (-1, IoNone)
          else fail EINVAL (-1, IoNone)
      end
  end.

Definition F_GETFD : Z := 1.
Definition F_SETFD : Z := 2.
Definition F_GETFL : Z := 3.
Definition F_GETLK : Z := 5.
Definition F_SETLK : Z := 6.
Definition F_SETLKW : Z := 7.
Definition F_GETOWN : Z := 9.
Definition F_GETSIG : Z := 11.
Definition F_GETLEASE : Z := 1025.
Definition F_NOTIFY : Z := 1026.
Definition FD_CLOEXEC : Z := 1.
Definition F_UNLCK : Z := 2.

(** [va] is the variadic argument: an [int], or the address of a
    [struct flock].  The second result is what is stored into its [l_type]; the
    variable [arg] has no value ([None]) after the lock commands. *)
Definition fcntl (fd_ cmd va : Z) : M (Z * option Z) :=
  f ← __get_file fd_;
  match f with
  | None => fail EBADF (-1, None)
  | Some i =>
      let arg :=
        if (cmd =? F_GETFD) || (cmd =? F_GETFL) || (cmd =? F_GETOWN) ||
           (cmd =? F_GETSIG) || (cmd =? F_GETLEASE) || (cmd =? F_NOTIFY)
        then Some 0
        else if (cmd =? F_GETLK) || (cmd =? F_SETLK) || (cmd =? F_SETLKW)
        then None else Some (u32 va) in
      f ← get_entry i;
      match dfile f with
      | Some _ =>
          if cmd =? F_GETFD then
            mret (if nz (Z.land (flags f) eCloseOnExec) then FD_CLOEXEC else 0, None)
          else if cmd =? F_SETFD then
            let fl := Z.land (flags f) (Z.lnot eCloseOnExec) in
            let fl := if nz (Z.land (default 0 arg) FD_CLOEXEC)
                      then Z.lor fl eCloseOnExec else fl in
            set_flags i fl;; mret (0, None)
          else if cmd =? F_GETFL then mret (0, None)
          else if cmd =? F_GETLK then
            if va =? 0 then halt MemError else mret (0, Some F_UNLCK)
          else if cmd =? F_SETLK then mret (0, None)
          else fail EINVAL (-1, None)
      | None => r ← syscall_int (SysFcntl (fd f) cmd arg); mret (r, None)
      end
  end.

Definition __fd_statfs (path : option (list Z)) : M (Z * list Z) :=
  d ← __get_sym_file path;
  match d with
  | Some _ => fail ENOENT (-1, [])
  | None => p ← cstr path;
            r ← syscall (SysStatfs p); mret (s32 (sr_ret r), sr_data r)
  end.

Definition fstatfs (fd_ : Z) : M (Z * list Z) :=
  f ← __get_file fd_;
  match f with
  | None => fail EBADF (-1, [])
  | Some i =>
      f ← get_entry i;
      match dfile f with
      | Some _ => fail EBADF (-1, [])
      | None => r ← syscall (SysFstatfs (fd f)); mret (s32 (sr_ret r), sr_data r)
      end
  end.

Definition fsync (fd_ : Z) : M Z :=
  f ← __get_file fd_;
  match f with
  | None => fail EBADF (-1)
  | Some i =>
      f ← get_entry i;
      match dfile f with
      | Some _ => mret 0
      | None => syscall_int (SysFsync (fd f))
      end
  end.

(** ** Duplicating descriptors *)

Definition dup2 (oldfd newfd : Z) : M Z :=
  f ← __get_file oldfd;
  match f with
  | None => fail EBADF (-1)
  | Some i =>
      if negb ((0 <=? newfd) && (newfd <? Z.of_nat MAX_FDS)) then fail EBADF (-1)
      else
        let j := Z.to_nat newfd in
        f2 ← get_entry j;
        (if is_open f2 then close newfd;; mret tt else mret tt);;
        f ← get_entry i;
        put_file j f;;
        set_flags j (Z.land (flags f) (Z.lnot eCloseOnExec));;
        mret newfd
  end.

Definition dup (oldfd : Z) : M Z :=
  f ← __get_file oldfd;
  match f with
  | None => fail EBADF (-1)
  | Some _ =>
      k ← gets (fun w => free_slot (fds (w_env w)));
      if bool_decide (k = MAX_FDS) then fail EMFILE (-1)
      else dup2 oldfd (Z.of_nat k)
  end.

(** ** Removing names *)

Definition rmdir (pathname : option (list Z)) : M Z :=
  d ← __get_sym_file pathname;
  match d with
  | Some d =>
      x ← deref_df d;
      if S_ISDIR (st_mode (stat x)) then set_stat d (with_ino 0);; mret 0
      else fail ENOTDIR (-1)
  | None => fail EPERM (-1)
  end.

Definition unlink (pathname : option (list Z)) : M Z :=
  d ← __get_sym_file pathname;
  match d with
  | Some d =>
      x ← deref_df d;
      if S_ISREG (st_mode (stat x)) then set_stat d (with_ino 0);; mret 0
      else if S_ISDIR (st_mode (stat x)) then fail EISDIR (-1)
      else fail EPERM (-1)
  | None => fail EPERM (-1)
  end.

Definition unlinkat (dirfd : Z) (pathname : option (list Z)) (fl : Z) : M Z :=
  d ← __get_sym_file pathname;
  match d with
  | Some d =>
      x ← deref_df d;
      if S_ISREG (st_mode (stat x)) then set_stat d (with_ino 0);; mret 0
      else if S_ISDIR (st_mode (stat x)) then fail EISDIR (-1)
      else fail EPERM (-1)
  | None => fail EPERM (-1)
  end.

(** Storing [c] at position [k] of the caller's buffer. *)
Definition poke (k : Z) (c : Z) (buf : list Z) : M (list Z) :=
  memcpy_at buf k [c] 0 1.

Definition readlink (path : option (list Z)) (buf : list Z) (bufsize : Z)
    : M (Z * list Z) :=
  d ← __get_sym_file path;
  match d with
  | Some d =>
      x ← deref_df d;
      if S_ISLNK (st_mode (stat x)) then
        p ← cstr path;
        buf ← poke 0 (nth 0 p 0) buf;
        buf ← (if 1 <? bufsize then poke 1 46 buf else mret buf);
        buf ← (if 2 <? bufsize then poke 2 108 buf else mret buf);
        buf ← (if 3 <? bufsize then poke 3 110 buf else mret buf);
        buf ← (if 4 <? bufsize then poke 4 107 buf else mret buf);
        mret (if 5 <? bufsize then 5 else bufsize, buf)
      else fail EINVAL (-1, buf)
  | None =>
      r ← syscall (SysReadlink path bufsize);
      mret (sr_ret r, kernel_store buf (sr_data r) bufsize)
  end.

Definition chroot (path : option (list Z)) : M Z :=
  p ← cstr path;
  if nth 0 p 0 =? 0 then fail ENOENT (-1)
  else if (nth 0 p 0 =? 47) && (nth 1 p 0 =? 0) then mret 0
  else fail ENOENT (-1).

(** ** select

    An [fd_set] is its 16 words of 64 bits ([long]).  The macros of [fd.c]
    shift the [int] constant 1: a distance outside 0..31 is reported by the
    engine's overshift check, distance 31 gives the negative [int] whose sign
    extension sets all the higher bits of the word. *)

Definition NFDBITS : Z := 64.
Definition FD_ZERO : list Z := replicate 16 0.

Definition fd_bit (n : Z) : outcome Z :=
  let k := Z.rem n NFDBITS in
  if (0 <=? k) && (k <? 32) then Ret (s32 (Z.shiftl 1 k))
  else Stop (KleeError "overshift error").

Definition FD_ISSET (n : Z) (p : list Z) : outcome bool :=
  b ← fd_bit n;
  if n <? 0 then Stop MemError else
  word ← of_option MemError (p !! Z.to_nat (Z.quot n NFDBITS));
  Ret (nz (Z.land word b)).

Definition FD_SET (n : Z) (p : list Z) : outcome (list Z) :=
  b ← fd_bit n;
  if n <? 0 then Stop MemError else
  word ← of_option MemError (p !! Z.to_nat (Z.quot n NFDBITS));
  Ret (<[Z.to_nat (Z.quot n NFDBITS) := Z.lor word b]> p).

(** [if (FD_ISSET(i, in)) FD_SET(j, out)]; [out] may be a null pointer. *)
Definition copy_bit (i : Z) (in_ : list Z) (j : Z) (out : option (list Z))
    : outcome (option (list Z)) :=
  b ← FD_ISSET i in_;
  if b : bool then
    o ← of_option MemError out; o' ← FD_SET j o; Ret (Some o')
  else Ret out.

(** The three sets of one [select] call. *)
Record sets := mkSets { s_read : option (list Z); s_write : option (list Z);
                        s_except : option (list Z) }.

Definition copy_bits (i : Z) (in_ : sets) (j : Z) (out : sets) : outcome sets :=
  r ← copy_bit i (default FD_ZERO (s_read in_)) j (s_read out);
  w ← copy_bit i (default FD_ZERO (s_write in_)) j (s_write out);
  e ← copy_bit i (default FD_ZERO (s_except in_)) j (s_except out);
  Ret (mkSets r w e).

Definition lift {A} (o : outcome A) : M A := fun w =>
  match o with Ret a => Ret (a, w) | Stop e => Stop e end.

(** The first loop, over descriptors [i], [i]+1, ... ([k] left).  [inl] with
    the caller's sets when it returned -1. *)
Fixpoint select_scan (k : nat) (i : Z) (in_ user os : sets) (count os_nfds : Z)
    : M (sets + (sets * sets * Z * Z)) :=
  match k with
  | O => mret (inr (user, os, count, os_nfds))
  | S k' =>
      r ← lift (FD_ISSET i (default FD_ZERO (s_read in_)));
      set ← (if r : bool then mret true else
             w ← lift (FD_ISSET i (default FD_ZERO (s_write in_)));
             if w : bool then mret true else
             lift (FD_ISSET i (default FD_ZERO (s_except in_))));
      if set : bool then
        f ← __get_file i;
        match f with
        | None => fail EBADF (inl user)
        | Some idx =>
            f ← get_entry idx;
            match dfile f with
            | Some _ =>
                user ← lift (copy_bits i in_ i user);
                select_scan k' (i + 1) in_ user os (s32 (count + 1)) os_nfds
            | None =>
                os ← lift (copy_bits i in_ (fd f) os);
                select_scan k' (i + 1) in_ user os count
                  (if os_nfds <=? fd f then s32 (fd f + 1) else os_nfds)
            end
        end
      else select_scan k' (i + 1) in_ user os count os_nfds
  end.

(** [if (p && FD_ISSET(f->fd, os)) FD_SET(i, p)]. *)
Definition back_bit (j : Z) (os : option (list Z)) (i : Z) (p : option (list Z))
    : outcome (option (list Z)) :=
  match p with
  | None => Ret None
  | Some _ => copy_bit j (default FD_ZERO os) i p
  end.

(** The second loop, which translates the kernel's sets back. *)
Fixpoint select_back (k : nat) (i : Z) (os user : sets) : M sets :=
  match k with
  | O => mret user
  | S k' =>
      f ← __get_file i;
      match f with
      | None => select_back k' (i + 1) os user
      | Some idx =>
          f ← get_entry idx;
          match dfile f with
          | Some _ => select_back k' (i + 1) os user
          | None =>
              r ← lift (back_bit (fd f) (s_read os) i (s_read user));
              w ← lift (back_bit (fd f) (s_write os) i (s_write user));
              e ← lift (back_bit (fd f) (s_except os) i (s_except user));
              select_back k' (i + 1) os (mkSets r w e)
          end
      end
  end.

Definition select (nfds : Z) (in_ : sets) : M (Z * sets) :=
  let zero (p : option (list Z)) := (fun _ => FD_ZERO) <$> p in
  let user := mkSets (zero (s_read in_)) (zero (s_write in_)) (zero (s_except in_)) in
  let os := mkSets (Some FD_ZERO) (Some FD_ZERO) (Some FD_ZERO) in
  r ← select_scan (Z.to_nat nfds) 0 in_ user os 0 0;
  match r with
  | inl user => mret (-1, user)
  | inr (user, os, count, os_nfds) =>
      if 0 <? os_nfds then
        r ← syscall (SysSelect os_nfds (default [] (s_read os))
                       (default [] (s_write os)) (default [] (s_except os)));
        let n := s32 (sr_ret r) in
        if n =? -1 then
          if count =? 0 then mret (-1, user) else mret (count, user)
        else
          let os := mkSets (Some (take 16 (sr_data r)))
                           (Some (take 16 (drop 16 (sr_data r))))
                           (Some (take 16 (drop 32 (sr_data r)))) in
          user ← select_back (Z.to_nat nfds) 0 os user;
          mret (s32 (count + n), user)
      else mret (count, user)
  end.

(** ** Entry points of fd_64.c *)

Definition open (pathname : option (list Z)) (flags va : Z) : M Z :=
  let mode := if nz (Z.land flags O_CREAT) then u32 va else 0 in
  __fd_open pathname flags mode.

Definition openat (fd_ : Z) (pathname : option (list Z)) (flags va : Z) : M Z :=
  let mode := if nz (Z.land flags O_CREAT) then u32 va else 0 in
  __fd_openat fd_ pathname flags mode.

Definition lseek (fd_ offset whence : Z) : M Z := __fd_lseek fd_ offset whence.
Definition __xstat (vers : Z) (path : option (list Z)) : M (Z * option stat64) :=
  __fd_stat path.
Definition stat_ (path : option (list Z)) : M (Z * option stat64) := __fd_stat path.
Definition __lxstat (vers : Z) (path : option (list Z)) : M (Z * option stat64) :=
  __fd_lstat path.
Definition lstat (path : option (list Z)) : M (Z * option stat64) := __fd_lstat path.
Definition __fxstat (vers fd_ : Z) : M (Z * option stat64) := __fd_fstat fd_.
Definition fstat (fd_ : Z) : M (Z * option stat64) := __fd_fstat fd_.
Definition ftruncate64 (fd_ len : Z) : M Z := __fd_ftruncate fd_ len.
Definition statfs (path : option (list Z)) : M (Z * list Z) := __fd_statfs path.
Definition getdents64 (fd_ : Z) (dirp : list Z) (count : Z) : M (Z * list Z) :=
  __fd_getdents (u32 fd_) dirp (u32 count).
End Fd.
End Fd.
