(* ===== verification/PosixFdInv.v ===== *)
(** * The invariant of the file descriptor layer

    [wf s w] is the well-formedness of the runtime's state relative to its
    shape [s] (the sizes of the symbolic files and of symbolic standard input
    and output), which no call changes.  [evolves] says what the
    calls may do to the rest: the failure budget never grows, a file keeps its
    size, and an unlinked file stays unlinked.  [spec] is a partial-correctness
    judgement for the monad with its rules; with them every entry point is
    shown to preserve the invariant by the same automation. *)

From S2P Require Import Prelude PosixState PosixFd.
Import Fd.

Create HintDb fdspec discriminated.

Record shape := mkShape {
  sh_files : list Z; sh_in : option Z; sh_out : option Z }.

(** The size of the file a pointer refers to. *)
Definition dsize (s : shape) (d : dref) : option Z :=
  match d with
  | DStdin => sh_in s
  | DStdout => sh_out s
  | DSym i => sh_files s !! i
  end.

Definition valid_dref (s : shape) (d : dref) : Prop := is_Some (dsize s d).

Definition wf_df (n : Z) (x : exe_disk_file_t) : Prop :=
  0 <= n < 2 ^ 32 /\ size x = n /\ Z.of_nat (length (contents x)) = n /\
  Forall is_byte (contents x).

Definition wf_file (s : shape) (f : exe_file_t) : Prop :=
  (flags f = 0 \/ is_open f = true) /\ 0 <= flags f < 16 /\
  - 2 ^ 63 <= off f < 2 ^ 63 /\
  match dfile f with None => True | Some d => valid_dref s d end.

Record wf_fs (s : shape) (fs : exe_file_system_t) : Prop := {
  wf_n : n_sym_files fs = Z.of_nat (length (sh_files s));
  wf_dfs : forall d, option_Forall2 wf_df (dsize s d) (get_df fs d);
  wf_budget : 0 <= max_failures fs < 2 ^ 32 }.

Record wf_env (s : shape) (e : exe_sym_env_t) : Prop := {
  wf_fds_len : length (fds e) = MAX_FDS;
  wf_fds : Forall (wf_file s) (fds e);
  wf_umask : 0 <= umask_ e < 512 }.

Definition wf {OS} (s : shape) (w : world OS) : Prop :=
  wf_fs s (w_fs w) /\ wf_env s (w_env w).

(** What a file may become. *)
Definition df_evolves (x y : exe_disk_file_t) : Prop :=
  size y = size x /\
  (st_ino (stat y) = st_ino (stat x) \/ st_ino (stat y) = 0).

Definition evolves {OS} (w w' : world OS) : Prop :=
  max_failures (w_fs w') <= max_failures (w_fs w) /\
  forall d x, get_df (w_fs w) d = Some x ->
    exists y, get_df (w_fs w') d = Some y /\ df_evolves x y.

#[global] Instance evolves_preorder {OS} : PreOrder (@evolves OS).
Proof.
  split.
  - intros w. split; [lia|]. intros d x H. exists x. unfold df_evolves. auto.
  - intros w1 w2 w3 [H1 H2] [H3 H4]. split; [lia|]. intros d x Hx.
    destruct (H2 d x Hx) as (y & Hy & E1 & E2).
    destruct (H4 d y Hy) as (z & Hz & E3 & E4).
    exists z. split; [done|]. split; [congruence|].
    destruct E4 as [-> | ->]; auto.
Qed.

Section Inv.
Context {OS : Type} (sys : kernel OS) (s : shape).

Implicit Types w : world OS.

Definition spec {A} (m : M OS A) (Q : A -> Prop) : Prop :=
  forall w a w', wf s w -> m w = Ret (a, w') -> wf s w' /\ evolves w w' /\ Q a.

(** ** Rules *)

Lemma spec_ret {A} (a : A) (Q : A -> Prop) : Q a -> spec (mret a) Q.
Proof. intros HQ w b w' Hw [= <- <-]. split_and!; [done|reflexivity|done]. Qed.

Lemma spec_bind {A B} (m : M OS A) (k : A -> M OS B) (Q : A -> Prop) R :
  spec m Q -> (forall a, Q a -> spec (k a) R) -> spec (m ≫= k) R.
Proof.
  intros Hm Hk w b w2 Hw Hb. unfold mbind, M_bind in Hb.
  destruct (m w) as [[a w1]|] eqn:E; [|done].
  destruct (Hm _ _ _ Hw E) as (H1 & H2 & H3).
  destruct (Hk a H3 _ _ _ H1 Hb) as (H4 & H5 & H6).
  split_and!; [done|by etransitivity|done].
Qed.

Lemma spec_conseq {A} (m : M OS A) (Q R : A -> Prop) :
  spec m Q -> (forall a, Q a -> R a) -> spec m R.
Proof. intros Hm Hi w a w' Hw E. destruct (Hm _ _ _ Hw E) as (?&?&?). auto. Qed.

Lemma spec_halt {A} e (Q : A -> Prop) : spec (halt e) Q.
Proof. intros w a w' _ [=]. Qed.

Lemma spec_gets {A} (f : world OS -> A) (Q : A -> Prop) :
  (forall w, wf s w -> Q (f w)) -> spec (gets f) Q.
Proof. intros HQ w a w' Hw [= <- <-]. split_and!; [done|reflexivity|auto]. Qed.

(** A state change that leaves the file system and the environment alone. *)
Lemma spec_modify_other (g : world OS -> world OS) :
  (forall w, w_fs (g w) = w_fs w /\ w_env (g w) = w_env w) ->
  spec (modify g) (fun _ => True).
Proof.
  intros Hg w a w' Hw [= <- <-]. destruct (Hg w) as [E1 E2].
  unfold wf, evolves. rewrite E1, E2.
  split_and!; try apply Hw; [lia| |done]. intros d x Hx. exists x.
  unfold df_evolves. auto.
Qed.

Lemma spec_fail {A} e (r : A) (Q : A -> Prop) : Q r -> spec (fail e r) Q.
Proof.
  intros HQ. apply spec_bind with (fun _ => True); [by apply spec_modify_other|].
  intros _ _. by apply spec_ret.
Qed.

Lemma spec_bump g n : spec (bump (OS:=OS) g n) (fun _ => True).
Proof.
  apply spec_bind with (fun _ => True); [by apply spec_modify_other|].
  intros _ _. by apply spec_gets.
Qed.

Lemma spec_syscall q : spec (syscall sys q) (fun _ => True).
Proof.
  intros w a w' Hw. unfold syscall. destruct (sys q (w_os w)) as [[r o]|]; [|done].
  intros [= <- <-]. unfold wf, evolves.
  assert (forall w2 : world OS, w_fs w2 = w_fs w -> w_env w2 = w_env w ->
    (wf_fs s (w_fs w2) /\ wf_env s (w_env w2)) /\
    (max_failures (w_fs w2) <= max_failures (w_fs w) /\
     (forall d x, get_df (w_fs w) d = Some x ->
        exists y, get_df (w_fs w2) d = Some y /\ df_evolves x y)) /\ True) as H.
  { intros w2 E1 E2. rewrite E1, E2. split_and!; try apply Hw; [lia| |done].
    intros d x Hx. exists x. unfold df_evolves. auto. }
  apply H; by destruct (_ =? _).
Qed.

Lemma spec_syscall_int q : spec (syscall_int sys q) (fun _ => True).
Proof.
  apply spec_bind with (fun _ => True); [apply spec_syscall|].
  intros. by apply spec_ret.
Qed.

Lemma spec_get_entry i : spec (get_entry i) (fun f => wf_file s f /\ (i < MAX_FDS)%nat).
Proof.
  intros w f w' Hw. unfold get_entry. destruct (fds (w_env w) !! i) eqn:E; [|done].
  intros [= <- <-]. split_and!; [done|reflexivity| |].
  - eapply Forall_lookup_1; [apply Hw|done].
  - apply lookup_lt_Some in E. destruct Hw as [_ [<- _ _]]. done.
Qed.

Lemma spec_put_file i f : wf_file s f -> spec (put_file i f) (fun _ => True).
Proof.
  intros Hf w a w' [Hfs [Hl Hall Hu]] [= <- <-]. split_and!.
  - split; [done|]. constructor; simpl; [by rewrite length_insert| |done].
    by apply Forall_insert.
  - split; [simpl; lia|]. intros d x Hx. exists x. unfold df_evolves. auto.
  - done.
Qed.

Lemma get_df_valid fs d n :
  wf_fs s fs -> dsize s d = Some n -> exists x, get_df fs d = Some x /\ wf_df n x.
Proof.
  intros [_ H _] E. specialize (H d). rewrite E in H. inversion H; subst; eauto.
Qed.

Lemma get_df_wf fs d x :
  wf_fs s fs -> get_df fs d = Some x -> exists n, dsize s d = Some n /\ wf_df n x.
Proof.
  intros [_ H _] E. specialize (H d). rewrite E in H. inversion H; subst; eauto.
Qed.

Definition df_at (d : dref) (x : exe_disk_file_t) : Prop :=
  exists n, dsize s d = Some n /\ wf_df n x.

Lemma spec_deref_df d : spec (deref_df d) (df_at d).
Proof.
  intros w x w' Hw. unfold deref_df. destruct (get_df (w_fs w) d) eqn:E; [|done].
  intros [= <- <-]. split_and!; [done|reflexivity|]. exact (get_df_wf _ _ _ (proj1 Hw) E).
Qed.

(** Replacing a file by another. *)
Lemma get_fs_put_df fs d x y d' :
  get_df fs d = Some x ->
  get_df (fs_put_df d y fs) d' = if decide (d = d') then Some y else get_df fs d'.
Proof.
  intros Hd. destruct fs, d as [| |i], d' as [| |j]; simpl in *; try done.
  destruct (decide (DSym i = DSym j)); simplify_eq.
  - apply list_lookup_insert_eq. by eapply lookup_lt_Some.
  - apply list_lookup_insert_ne. congruence.
Qed.

Lemma fs_put_df_other fs d y :
  max_failures (fs_put_df d y fs) = max_failures fs /\
  n_sym_files (fs_put_df d y fs) = n_sym_files fs.
Proof. by destruct fs, d. Qed.

(** Reading a file, computing its successor and writing it back. *)
Lemma spec_update_df d (g : exe_disk_file_t -> exe_disk_file_t) :
  (forall n x, dsize s d = Some n -> wf_df n x -> wf_df n (g x) /\ df_evolves x (g x)) ->
  spec (x ← deref_df d; put_df d (g x)) (fun _ => True).
Proof.
  intros Hg w a w' [Hfs He]. unfold deref_df, put_df, mbind, M_bind, modify.
  destruct (get_df (w_fs w) d) as [x|] eqn:E; [|done]. intros [= <- <-].
  destruct (get_df_wf _ _ _ Hfs E) as (n & Hn & Hx).
  destruct (Hg n x Hn Hx) as [Hg1 Hg2].
  destruct (fs_put_df_other (w_fs w) d (g x)) as [Eb En], Hfs as [H1 H2 H3].
  split_and!; [split; [constructor|done]|split|done]; simpl; rewrite ?Eb, ?En;
    try done; intros d'; rewrite (get_fs_put_df _ _ _ _ _ E); case_decide; subst; auto.
  - rewrite Hn. by constructor.
  - intros z Hz. simplify_eq. eauto.
  - intros z Hz. exists z. unfold df_evolves. auto.
Qed.

Lemma spec_set_stat d g :
  (forall x, st_ino (g x) = st_ino x \/ st_ino (g x) = 0) ->
  spec (set_stat d g) (fun _ => True).
Proof.
  intros Hg. apply spec_update_df. intros n x Hn Hx. split; [apply Hx|].
  split; [done|apply Hg].
Qed.

Lemma spec_put_max_failures n :
  forall w w' a, wf s w -> 0 <= n <= max_failures (w_fs w) ->
  put_max_failures n w = Ret (a, w') -> wf s w' /\ evolves w w'.
Proof.
  intros w w' a [[] He] Hn [= <- <-]. unfold wf, evolves, set_fs.
  destruct w as [[] ? ? ? ?]; simpl in *.
  split; [split; [constructor; simpl; auto; lia|done]|].
  split; [lia|]. intros d x Hx. exists x. unfold df_evolves. destruct d; auto.
Qed.

Lemma spec_inject {A} p n e (r : A) k Q :
  Q r -> spec k Q -> spec (inject p n e r k) Q.
Proof.
  intros Hr Hk w a w' Hw. unfold inject, mbind, M_bind, gets.
  destruct (nz (max_failures (w_fs w))) eqn:Hnz; [|by apply Hk].
  destruct (p (w_fs w)) as [x|]; [|done].
  destruct (x =? n); [|by apply Hk]. intros H. apply nz_true in Hnz.
  destruct (put_max_failures _ w) as [[u w1]|] eqn:E1; [|done].
  assert (0 <= max_failures (w_fs w) - 1 <= max_failures (w_fs w)) as Hr1.
  { destruct Hw as [[_ _ ?] _]. lia. }
  destruct (spec_put_max_failures _ _ _ _ Hw Hr1 E1) as [H1 H2].
  destruct (spec_fail e r Q Hr _ _ _ H1 H) as (?&?&?).
  split_and!; [done|by etransitivity|done].
Qed.

Lemma spec_lift {A} (o : outcome A) : spec (lift o) (fun _ => True).
Proof. intros w a w' Hw. unfold lift. destruct o; [|done]. intros [= <- <-].
  split_and!; [done|reflexivity|done]. Qed.

(** ** The steps shared by the calls *)

Lemma spec_cstr p : spec (cstr p) (fun _ => True).
Proof. destruct p; [by apply spec_ret|apply spec_halt]. Qed.

Lemma spec_check_access b n : spec (check_access b n) (fun _ => True).
Proof. unfold check_access. case_match; [by apply spec_ret|apply spec_halt]. Qed.

Lemma Forall_splice (P : Z -> Prop) l k l' :
  Forall P l -> Forall P l' -> Forall P (splice l k l').
Proof. intros. unfold splice. rewrite !Forall_app. split_and!;
  auto using Forall_take, Forall_drop. Qed.

Lemma spec_memcpy dst doff src soff n :
  Forall is_byte dst -> Forall is_byte src ->
  spec (memcpy_at dst doff src soff n)
       (fun b => length b = length dst /\ Forall is_byte b).
Proof.
  intros Hd Hs. unfold memcpy_at. split_if; [by apply spec_ret|].
  split_if; [apply spec_ret|apply spec_halt]. to_prop.
  split; [apply length_splice; rewrite length_take, length_drop; lia|].
  apply Forall_splice; [done|]. by apply Forall_take, Forall_drop.
Qed.

Lemma spec_memcpy_any dst doff src soff n :
  spec (memcpy_at dst doff src soff n) (fun _ => True).
Proof.
  unfold memcpy_at. repeat split_if; first [by apply spec_ret|apply spec_halt].
Qed.

Lemma spec_put_contents d c :
  (forall n, dsize s d = Some n -> Z.of_nat (length c) = n) -> Forall is_byte c ->
  spec (put_contents d c) (fun _ => True).
Proof.
  intros Hl Hb. apply (spec_update_df d (fun x => mkDfile (size x) c (stat x))).
  intros n x Hn (H1 & H2 & H3 & H4). split; [|by split; auto].
  split_and!; simpl; auto; lia.
Qed.

Lemma spec_put_stdout_writes n : spec (put_stdout_writes n) (fun _ => True).
Proof.
  intros w a w' [[H1 H2 H3] He] [= <- <-]. unfold wf, evolves, set_fs.
  destruct w as [[] ? ? ? ?]; simpl in *.
  split_and!; [constructor; auto|done|lia| |done].
  intros d x Hx. exists x. unfold df_evolves. auto.
Qed.

Lemma spec_umask_set m : spec (modify (set_env (fun e =>
  mkEnv (fds e) (Z.land m 511) (save_all_writes e)))) (fun _ => True).
Proof.
  intros w a w' [Hf [H1 H2 H3]] [= <- <-]. split_and!; [split; [done|]|..]; auto.
  - constructor; simpl; auto. change 511 with (Z.ones 9).
    rewrite Z.land_ones by lia. apply Z.mod_pos_bound. lia.
  - split; [done|]. intros d x Hx. exists x. unfold df_evolves. auto.
Qed.

Definition flags_ok (fl : Z) : Prop :=
  0 <= fl < 16 /\ (fl = 0 \/ nz (Z.land fl eOpen) = true).

Definition dfile_ok (d : option dref) : Prop :=
  match d with None => True | Some d => valid_dref s d end.

Lemma wf_file_iff x fl o d :
  wf_file s (mkFile x fl o d) <->
  flags_ok fl /\ - 2 ^ 63 <= o < 2 ^ 63 /\ dfile_ok d.
Proof. unfold wf_file, flags_ok, dfile_ok, is_open; simpl. tauto. Qed.

Lemma wf_file_parts f :
  wf_file s f -> flags_ok (flags f) /\ - 2 ^ 63 <= off f < 2 ^ 63 /\ dfile_ok (dfile f).
Proof. destruct f. apply wf_file_iff. Qed.

(** Rewriting one field of an entry. *)
Lemma spec_update_file i (g : exe_file_t -> exe_file_t) :
  (forall f, wf_file s f -> wf_file s (g f)) ->
  spec (f ← get_entry i; put_file i (g f)) (fun _ => True).
Proof.
  intros Hg. eapply spec_bind; [apply spec_get_entry|]. intros f [Hf _].
  apply spec_put_file. auto.
Qed.

Lemma spec_set_off i o : - 2 ^ 63 <= o < 2 ^ 63 -> spec (set_off i o) (fun _ => True).
Proof.
  intros Ho. apply (spec_update_file i). intros f Hf.
  apply wf_file_parts in Hf. apply wf_file_iff. tauto.
Qed.

Lemma spec_set_fd i x : spec (set_fd i x) (fun _ => True).
Proof.
  apply (spec_update_file i). intros f Hf.
  apply wf_file_parts in Hf. apply wf_file_iff. tauto.
Qed.

Lemma spec_set_flags i fl : flags_ok fl -> spec (set_flags i fl) (fun _ => True).
Proof.
  intros Ho. apply (spec_update_file i). intros f Hf.
  apply wf_file_parts in Hf. apply wf_file_iff. tauto.
Qed.

Lemma spec_set_dfile i d : valid_dref s d -> spec (set_dfile i (Some d)) (fun _ => True).
Proof.
  intros Ho. apply (spec_update_file i). intros f Hf.
  apply wf_file_parts in Hf. apply wf_file_iff. tauto.
Qed.

Lemma wf_zero_file : wf_file s zero_file.
Proof. split_and!; simpl; auto; lia. Qed.

Lemma open_flags_ok fl : flags_ok (open_flags fl).
Proof.
  unfold open_flags. split_ifs; (split; [vm_compute; split; congruence|by right]).
Qed.

(** The sixteen values of a flags word. *)
Lemma flags_ok_update fl (b : bool) :
  flags_ok fl ->
  flags_ok (if b then Z.lor (Z.land fl (Z.lnot eCloseOnExec)) eCloseOnExec
            else Z.land fl (Z.lnot eCloseOnExec)) \/ fl = 0.
Proof.
  intros [Hr Hf].
  assert (fl = 0 \/ fl = 1 \/ fl = 2 \/ fl = 3 \/ fl = 4 \/ fl = 5 \/ fl = 6 \/
    fl = 7 \/ fl = 8 \/ fl = 9 \/ fl = 10 \/ fl = 11 \/ fl = 12 \/ fl = 13 \/
    fl = 14 \/ fl = 15) as H by lia.
  repeat (destruct H as [-> | H]; [try (right; reflexivity); left; destruct b;
    (split; [vm_compute; split; congruence|]);
    destruct Hf as [Hf|Hf]; solve [discriminate Hf | by right]|]).
  subst. left. destruct b; (split; [vm_compute; split; congruence|by right]).
Qed.

Lemma flags_ok_clear fl : flags_ok fl -> flags_ok (Z.land fl (Z.lnot eCloseOnExec)).
Proof.
  intros H. destruct (flags_ok_update fl false H) as [?| ->]; [done|].
  split; [vm_compute; split; congruence|by left].
Qed.

Lemma wf_file_flags f : wf_file s f -> flags_ok (flags f).
Proof. intros (?&?&_). split; auto. Qed.

Lemma find_sym_valid fs c k i :
  forall d, find_sym fs c k i = Ret (Some d) -> wf_fs s fs -> valid_dref s d.
Proof.
  revert i. induction k as [|k IH]; intros i d; simpl; [done|].
  split_if; [|apply IH]. destruct (sym_files fs !! Z.to_nat i) as [x|] eqn:E; [|done].
  split_if; [done|]. intros [= <-] Hw.
  destruct (get_df_wf fs (DSym (Z.to_nat i)) x Hw E) as (n & Hn & _). by exists n.
Qed.

End Inv.

#[export] Hint Resolve spec_halt spec_bump spec_syscall spec_syscall_int
  spec_get_entry spec_deref_df spec_lift spec_cstr spec_check_access
  spec_memcpy_any spec_put_stdout_writes spec_umask_set spec_set_fd : fdspec.

(** ** Automation

    One step of a preservation proof, by the form of the computation: the
    rules above for the monad's own forms, [fdspec] for a known computation,
    case analysis for a test or a match.  The first computation of a sequence
    that is not a known one is given the postcondition [True]. *)

Ltac spec_known := solve [eauto with fdspec].

Ltac spec_step :=
  lazymatch goal with
  | |- forall _, _ => intros ?
  | |- spec _ (let _ := _ in _) _ => cbv zeta
  | |- spec _ (mret _) _ => apply spec_ret
  | |- spec _ (halt _) _ => apply spec_halt
  | |- spec _ (fail _ _) _ => apply spec_fail
  | |- spec _ (inject _ _ _ _ _) _ => apply spec_inject
  | |- spec _ (gets _) _ => apply spec_gets
  | |- spec _ (if ?b then _ else _) _ => destruct b eqn:?
  | |- spec _ (match ?x with _ => _ end) _ => destruct x eqn:?
  | |- spec _ (mbind ?k ?m) _ =>
      lazymatch m with
      | gets _ => apply spec_bind with (fun _ => True); [by apply spec_gets|]
      | _ => first [spec_known
                   |eapply spec_bind; [spec_known|]
                   |apply spec_bind with (fun _ => True)]
      end
  | |- spec _ _ _ => first [spec_known|eapply spec_conseq; [spec_known|]]
  | |- True => exact I
  end.

Ltac spec_auto := repeat spec_step.
