(* ===== verification/PosixCalls.v ===== *)
(** * Every call preserves the invariant

    The preservation lemmas of the entry points of [fd.c], by the rules and
    the automation of [PosixFdInv], and the reachability theorem: [call] lists
    the calls a program can make, [exec] runs one, and every state that is
    reachable by any sequence of calls from a well-formed one is well-formed. *)

From S2P Require Import Prelude PosixState PosixFd PosixFdInv.
Import Fd.

Section Calls.
Context {OS : Type} (sys : kernel OS) (s : shape).

Abbreviation ok m := (spec (OS:=OS) s m (fun _ => True)).

Lemma spec_put_zero i : ok (put_file i zero_file).
Proof. apply spec_put_file, wf_zero_file. Qed.

Lemma spec_get_file x : spec (OS:=OS) s (__get_file x) (fun _ => True).
Proof. unfold __get_file. spec_auto. Qed.

Lemma spec_getcwd b n : ok (getcwd sys b n).
Proof. unfold getcwd. spec_auto. Qed.

Hint Resolve spec_put_zero spec_get_file spec_getcwd : fdspec.

Lemma spec_strip_cwd p : ok (strip_cwd sys p).
Proof. unfold strip_cwd. spec_auto. Qed.

Hint Resolve spec_strip_cwd : fdspec.

Lemma spec_get_sym_file p :
  spec s (__get_sym_file sys p) (fun d => dfile_ok s d).
Proof.
  unfold __get_sym_file. destruct p as [p|]; [|by apply spec_ret].
  eapply spec_bind; [apply spec_strip_cwd|]. intros q _. cbv zeta.
  split_if; [by apply spec_ret|].
  eapply spec_bind with (Q := wf_fs s); [apply spec_gets; intros w Hw; apply Hw|].
  intros fs Hfs. destruct (find_sym _ _ _ _) as [d|] eqn:E; [|apply spec_halt].
  apply spec_ret. destruct d as [d|]; [|done]. by eapply find_sym_valid.
Qed.

Hint Resolve spec_get_sym_file : fdspec.

Lemma spec_access p m : ok (access sys p m).
Proof. unfold access. spec_auto. Qed.

Lemma spec_umask m : ok (umask m).
Proof. unfold umask. spec_auto. Qed.

Lemma spec_close x : ok (close (OS:=OS) x).
Proof. unfold close. spec_auto. Qed.

Lemma with_mode_ino m x : st_ino (with_mode m x) = st_ino x \/ st_ino (with_mode m x) = 0.
Proof. destruct x; auto. Qed.
Lemma with_times_ino a m x :
  st_ino (with_times a m x) = st_ino x \/ st_ino (with_times a m x) = 0.
Proof. destruct x; auto. Qed.
Lemma with_ino_zero x : st_ino (with_ino 0 x) = st_ino x \/ st_ino (with_ino 0 x) = 0.
Proof. destruct x; auto. Qed.

Lemma spec_stat_mode d (g : stat64 -> Z) : ok (set_stat d (fun x => with_mode (g x) x)).
Proof. apply spec_set_stat. intros. apply with_mode_ino. Qed.
Lemma spec_stat_times d a m : ok (set_stat d (with_times a m)).
Proof. apply spec_set_stat. intros. apply with_times_ino. Qed.
Lemma spec_stat_ino d : ok (set_stat d (with_ino 0)).
Proof. apply spec_set_stat. intros. apply with_ino_zero. Qed.

Lemma spec_open_flags i fl : ok (set_flags i (open_flags fl)).
Proof. apply spec_set_flags, open_flags_ok. Qed.

Hint Resolve spec_close spec_stat_mode spec_stat_times spec_stat_ino
  spec_open_flags spec_set_dfile : fdspec.

Lemma spec_fd_open p fl m : ok (__fd_open sys p fl m).
Proof. unfold __fd_open, open_sym. spec_auto. Qed.

Hint Resolve spec_fd_open : fdspec.

Lemma spec_fd_openat b p fl m : ok (__fd_openat sys b p fl m).
Proof. unfold __fd_openat. spec_auto. Qed.

Lemma spec_utimes p t : ok (utimes sys p t).
Proof. unfold utimes. spec_auto. Qed.

Hint Resolve spec_utimes : fdspec.

Lemma spec_futimesat x p t : ok (futimesat sys x p t).
Proof. unfold futimesat. spec_auto. Qed.

(** ** Data transfer *)

Lemma spec_set_off_s64 i x : ok (set_off i (s64 x)).
Proof. apply spec_set_off, s64_range. Qed.

Hint Resolve spec_set_off_s64 : fdspec.

Lemma spec_read x b n : ok (read sys x b n).
Proof. unfold read. spec_auto. Qed.

(** The store of a [write] into a file of the right size. *)
Lemma spec_write_store d (x : exe_disk_file_t) o b n :
  df_at s d x -> Forall is_byte b ->
  ok (c ← memcpy_at (contents x) o b 0 n; put_contents d c).
Proof.
  intros (m & Hm & H1 & H2 & H3 & H4) Hb.
  eapply spec_bind; [by apply spec_memcpy|]. intros c [Hc Hc'].
  apply spec_put_contents; [|done]. intros k Hk. simplify_eq. lia.
Qed.

Hint Resolve spec_write_store : fdspec.

Lemma spec_write x b n :
  (match b with Some b => Forall is_byte b | None => True end) ->
  ok (write sys x b n).
Proof.
  intros Hb. unfold write, write_actual, write_store, write_count. spec_auto.
Qed.

Definition off_ok (o : Z) : Prop := - 2 ^ 63 <= o < 2 ^ 63.

Lemma spec_set_off_ok i o : off_ok o -> ok (set_off i o).
Proof. apply spec_set_off. Qed.

Lemma s64_off_ok x : off_ok (s64 x).
Proof. apply s64_range. Qed.

Hint Resolve spec_set_off_ok s64_off_ok : fdspec.

Lemma spec_lseek x o wh : off_ok o -> ok (__fd_lseek sys x o wh).
Proof.
  intros Ho. unfold __fd_lseek.
  eapply spec_bind; [apply spec_get_file|]. intros [i|] _; [|by apply spec_fail].
  eapply spec_bind; [apply spec_get_entry|]. intros f _.
  destruct (dfile f) as [d|].
  - eapply spec_bind; [apply spec_deref_df|]. intros y _. cbv zeta.
    destruct (if wh =? SEEK_SET then _ else _) as [o'|] eqn:E;
      [|by apply spec_fail].
    assert (off_ok o') by (split_ifs_in E; auto with fdspec). spec_auto.
  - apply spec_bind with off_ok; [|spec_auto].
    spec_auto; auto with fdspec.
Qed.

(** ** Status and names *)

Lemma spec_df_stat d : ok (df_stat d).
Proof. unfold df_stat. spec_auto. Qed.

Lemma spec_os_stat q : ok (os_stat sys q).
Proof. unfold os_stat. spec_auto. Qed.

Hint Resolve spec_df_stat spec_os_stat : fdspec.

Lemma spec_fd_stat p : ok (__fd_stat sys p).
Proof. unfold __fd_stat. spec_auto. Qed.

Lemma spec_fstatat x p fl : ok (fstatat sys x p fl).
Proof. unfold fstatat. spec_auto. Qed.

Lemma spec_fd_lstat p : ok (__fd_lstat sys p).
Proof. unfold __fd_lstat. spec_auto. Qed.

Lemma spec_fd_fstat x : ok (__fd_fstat sys x).
Proof. unfold __fd_fstat. spec_auto. Qed.

Lemma spec_chdir p : ok (chdir sys p).
Proof. unfold chdir. spec_auto. Qed.

Lemma spec_fchdir x : ok (fchdir sys x).
Proof. unfold fchdir. spec_auto. Qed.

Lemma spec_df_chmod d m : ok (__df_chmod sys d m).
Proof. unfold __df_chmod. spec_auto. Qed.

Hint Resolve spec_df_chmod : fdspec.

Lemma spec_chmod p m : ok (chmod sys p m).
Proof. unfold chmod. spec_auto. Qed.

Lemma spec_fchmod x m : ok (fchmod sys x m).
Proof. unfold fchmod. spec_auto. Qed.

Lemma spec_chown p o g : ok (chown sys p o g).
Proof. unfold chown, __df_chown. spec_auto. Qed.

Lemma spec_fchown x o g : ok (fchown sys x o g).
Proof. unfold fchown, __df_chown. spec_auto. Qed.

Lemma spec_lchown p o g : ok (lchown sys p o g).
Proof. unfold lchown, __df_chown. spec_auto. Qed.

Lemma spec_ftruncate x n : ok (__fd_ftruncate sys x n).
Proof. unfold __fd_ftruncate. spec_auto. Qed.

(** ** Directory listings *)

Lemma spec_store n x o b : ok (store n x o b).
Proof. apply spec_memcpy_any. Qed.

Lemma spec_load n o b : ok (load n o b).
Proof. unfold load. spec_auto. Qed.

Hint Resolve spec_store spec_load : fdspec.

Lemma spec_emit_dents k : forall i p n b, ok (emit_dents k i p n b).
Proof. induction k as [|k IH]; simpl; spec_auto. Qed.

Lemma spec_patch_dents k : forall p r b, ok (patch_dents k p r b).
Proof. induction k as [|k IH]; simpl; spec_auto. Qed.

Hint Resolve spec_emit_dents spec_patch_dents : fdspec.

Lemma spec_getdents x b n : 0 <= n -> ok (__fd_getdents sys x b n).
Proof.
  intros Hn.
  assert (off_ok (if 4096 <=? n then 4096 else n)).
  { split_if; to_prop; unfold off_ok; lia. }
  unfold __fd_getdents. spec_auto.
Qed.

(** ** ioctl, fcntl and the rest *)

Lemma spec_ioctl x r b : ok (ioctl sys x r b).
Proof. unfold ioctl. spec_auto. Qed.

(** The entry read right after a lookup is open. *)
Lemma spec_open_entry {A} x (k0 : M OS A) k (R : A -> Prop) :
  spec s k0 R ->
  (forall i f, wf_file s f -> is_open f = true -> spec s (k i f) R) ->
  spec s (o ← __get_file x;
          match o with None => k0 | Some i => f ← get_entry i; k i f end) R.
Proof.
  intros H0 Hk w a w' Hw E. unfold __get_file, get_entry, mbind, M_bind in E.
  destruct (_ && _); [|by apply (H0 w)].
  destruct (fds (w_env w) !! Z.to_nat x) as [f|] eqn:Ef; [|done]. simpl in E.
  destruct (is_open f) eqn:Eo; [|by apply (H0 w)].
  rewrite Ef in E. apply (Hk (Z.to_nat x) f); [|done|done|done].
  destruct Hw as [_ [_ Hall _]]. by eapply Forall_lookup_1 in Hall.
Qed.

Lemma flags_ok_open f b :
  wf_file s f -> is_open f = true ->
  flags_ok (if b : bool then Z.lor (Z.land (flags f) (Z.lnot eCloseOnExec)) eCloseOnExec
            else Z.land (flags f) (Z.lnot eCloseOnExec)).
Proof.
  intros Hf Ho. destruct (flags_ok_update (flags f) b) as [?|E]; [|done|].
  - by apply (wf_file_flags s).
  - unfold is_open in Ho. by rewrite E in Ho.
Qed.

Lemma spec_fcntl x c v : ok (fcntl sys x c v).
Proof.
  unfold fcntl. cbv zeta. apply spec_open_entry; [spec_auto|].
  intros i f Hf Ho. spec_auto. by apply spec_set_flags, flags_ok_open.
Qed.

Lemma spec_fd_statfs p : ok (__fd_statfs sys p).
Proof. unfold __fd_statfs. spec_auto. Qed.

Lemma spec_fstatfs x : ok (fstatfs sys x).
Proof. unfold fstatfs. spec_auto. Qed.

Lemma spec_fsync x : ok (fsync sys x).
Proof. unfold fsync. spec_auto. Qed.

Lemma spec_copy_entry i f : wf_file s f -> ok (put_file i f).
Proof. apply spec_put_file. Qed.

Lemma spec_clear_cloexec i f :
  wf_file s f -> ok (set_flags i (Z.land (flags f) (Z.lnot eCloseOnExec))).
Proof. intros Hf. by apply spec_set_flags, flags_ok_clear, (wf_file_flags s). Qed.

Lemma spec_dup2 o n : ok (dup2 (OS:=OS) o n).
Proof.
  unfold dup2.
  assert (forall i f, (fun f => wf_file s f /\ (i < MAX_FDS)%nat) f -> wf_file s f)
    by (intros ? ? [? ?]; done).
  spec_auto.
  - apply spec_copy_entry. naive_solver.
  - apply spec_clear_cloexec. naive_solver.
Qed.

Hint Resolve spec_dup2 : fdspec.

Lemma spec_dup o : ok (dup (OS:=OS) o).
Proof. unfold dup. spec_auto. Qed.

Lemma spec_rmdir p : ok (rmdir sys p).
Proof. unfold rmdir. spec_auto. Qed.

Lemma spec_unlink p : ok (unlink sys p).
Proof. unfold unlink. spec_auto. Qed.

Lemma spec_unlinkat x p fl : ok (unlinkat sys x p fl).
Proof. unfold unlinkat. spec_auto. Qed.

Lemma spec_poke k c b : ok (poke (OS:=OS) k c b).
Proof. apply spec_memcpy_any. Qed.

Hint Resolve spec_poke : fdspec.

Lemma spec_readlink p b n : ok (readlink sys p b n).
Proof. unfold readlink. spec_auto. Qed.

Lemma spec_chroot p : ok (chroot (OS:=OS) p).
Proof. unfold chroot. spec_auto. Qed.

Lemma spec_select_scan k : forall i a b c d e, ok (select_scan (OS:=OS) k i a b c d e).
Proof. induction k as [|k IH]; simpl; spec_auto. Qed.

Lemma spec_select_back k : forall i a b, ok (select_back (OS:=OS) k i a b).
Proof. induction k as [|k IH]; simpl; spec_auto. Qed.

Hint Resolve spec_select_scan spec_select_back : fdspec.

Lemma spec_select n i : ok (select sys n i).
Proof. unfold select. spec_auto. Qed.

End Calls.

(** ** Sequences of calls *)

Inductive call : Type :=
  | CAccess (p : option (list Z)) (mode : Z)
  | CUmask (mask : Z)
  | COpen (p : option (list Z)) (fl mode : Z)
  | COpenat (x : Z) (p : option (list Z)) (fl mode : Z)
  | CUtimes (p : option (list Z)) (times : option (Z * Z))
  | CFutimesat (x : Z) (p : option (list Z)) (times : option (Z * Z))
  | CClose (x : Z)
  | CRead (x : Z) (buf : option (list Z)) (count : Z)
  | CWrite (x : Z) (buf : option (list Z)) (count : Z)
  | CLseek (x offset whence : Z)
  | CStat (p : option (list Z))
  | CFstatat (x : Z) (p : option (list Z)) (fl : Z)
  | CLstat (p : option (list Z))
  | CFstat (x : Z)
  | CChdir (p : option (list Z))
  | CFchdir (x : Z)
  | CChmod (p : option (list Z)) (mode : Z)
  | CFchmod (x mode : Z)
  | CChown (p : option (list Z)) (owner group : Z)
  | CFchown (x owner group : Z)
  | CLchown (p : option (list Z)) (owner group : Z)
  | CFtruncate (x len : Z)
  | CGetdents (x : Z) (dirp : list Z) (count : Z)
  | CIoctl (x request buf : Z)
  | CFcntl (x cmd va : Z)
  | CStatfs (p : option (list Z))
  | CFstatfs (x : Z)
  | CFsync (x : Z)
  | CDup2 (oldfd newfd : Z)
  | CDup (oldfd : Z)
  | CRmdir (p : option (list Z))
  | CUnlink (p : option (list Z))
  | CUnlinkat (x : Z) (p : option (list Z)) (fl : Z)
  | CReadlink (p : option (list Z)) (buf : list Z) (bufsize : Z)
  | CSelect (nfds : Z) (sets : Fd.sets)
  | CGetcwd (buf : option (list Z)) (size : Z)
  | CChroot (p : option (list Z)).

Section Exec.
Context {OS : Type} (sys : kernel OS).

(** The return value of one call. *)
Definition exec (c : call) : M OS Z :=
  match c with
  | CAccess p m => access sys p m
  | CUmask m => umask m
  | COpen p fl m => open sys p fl m
  | COpenat x p fl m => openat sys x p fl m
  | CUtimes p t => utimes sys p t
  | CFutimesat x p t => futimesat sys x p t
  | CClose x => close x
  | CRead x b n => r ← read sys x b n; mret r.1
  | CWrite x b n => write sys x b n
  | CLseek x o wh => lseek sys x o wh
  | CStat p => r ← stat_ sys p; mret r.1
  | CFstatat x p fl => r ← fstatat sys x p fl; mret r.1
  | CLstat p => r ← lstat sys p; mret r.1
  | CFstat x => r ← fstat sys x; mret r.1
  | CChdir p => chdir sys p
  | CFchdir x => fchdir sys x
  | CChmod p m => chmod sys p m
  | CFchmod x m => fchmod sys x m
  | CChown p o g => chown sys p o g
  | CFchown x o g => fchown sys x o g
  | CLchown p o g => lchown sys p o g
  | CFtruncate x n => ftruncate64 sys x n
  | CGetdents x b n => r ← getdents64 sys x b n; mret r.1
  | CIoctl x r b => r ← ioctl sys x r b; mret r.1
  | CFcntl x c v => r ← fcntl sys x c v; mret r.1
  | CStatfs p => r ← statfs sys p; mret r.1
  | CFstatfs x => r ← fstatfs sys x; mret r.1
  | CFsync x => fsync sys x
  | CDup2 o n => dup2 o n
  | CDup o => dup o
  | CRmdir p => rmdir sys p
  | CUnlink p => unlink sys p
  | CUnlinkat x p fl => unlinkat sys x p fl
  | CReadlink p b n => r ← readlink sys p b n; mret r.1
  | CSelect n i => r ← select sys n i; mret r.1
  | CGetcwd b n => r ← getcwd sys b n;
                   mret (match r with Some _ => 1 | None => 0 end)
  | CChroot p => chroot p
  end.

(** The arguments that have a C type: a [char] buffer, an [off64_t]. *)
Definition wf_call (c : call) : Prop :=
  match c with
  | CWrite _ (Some b) _ => Forall is_byte b
  | CLseek _ o _ => off_ok o
  | _ => True
  end.

(** One call, and any number of them, none of which stops the program. *)
Inductive step : world OS -> world OS -> Prop :=
  | step_call w c r w' : wf_call c -> exec c w = Ret (r, w') -> step w w'.

Definition reachable : world OS -> world OS -> Prop := rtc step.

#[local] Hint Resolve spec_access spec_umask spec_close spec_fd_open
  spec_fd_openat spec_utimes spec_futimesat spec_read spec_lseek spec_fd_stat
  spec_fstatat spec_fd_lstat spec_fd_fstat spec_chdir spec_fchdir spec_chmod
  spec_fchmod spec_chown spec_fchown spec_lchown spec_ftruncate spec_ioctl
  spec_fcntl spec_fd_statfs spec_fstatfs spec_fsync spec_dup2 spec_dup
  spec_rmdir spec_unlink spec_unlinkat spec_readlink spec_select spec_getcwd
  spec_chroot : fdspec.

Lemma spec_getdents64 s x b n : spec s (getdents64 sys x b n) (fun _ => True).
Proof. apply spec_getdents. apply u32_range. Qed.

#[local] Hint Resolve spec_getdents64 : fdspec.

Lemma exec_spec s c : wf_call c -> spec s (exec c) (fun _ => True).
Proof.
  intros Hc. destruct c; simpl in *; unfold open, openat, lseek, stat_, lstat,
    fstat, ftruncate64, statfs; try spec_known; spec_auto.
  apply spec_write. by destruct buf.
Qed.

Lemma reachable_wf s w w' : wf s w -> reachable w w' -> wf s w' /\ evolves w w'.
Proof.
  intros Hw Hr. induction Hr as [w|w1 w2 w3 [w c r w2' Hc E] Hr IH];
    [split; [done|reflexivity]|].
  destruct (exec_spec s c Hc _ _ _ Hw E) as (H1 & H2 & _).
  destruct (IH H1) as [H3 H4]. split; [done|]. by etransitivity.
Qed.

End Exec.
