(* ===== verification/PosixBudget.v ===== *)
(** * The failure budget

    A program under test sees an injected failure as a call that returns -1
    with [EIO].  For [close], and for [read] and [write] on a symbolic file,
    there is no other way to get this answer; [injected] tests for it.  Every
    such failure takes one from the budget, so that in a sequence of calls
    their number and the budget left never exceed the budget at the start. *)

From S2P Require Import Prelude PosixState PosixFd PosixFdInv PosixCalls.
Import Fd.

Section Budget.
Context {OS : Type} (sys : kernel OS).

Implicit Types w : world OS.

Abbreviation budget w := (max_failures (w_fs w)).

(** The descriptor is open on a symbolic file. *)
Definition on_symbolic w (x : Z) : bool :=
  match fds (w_env w) !! Z.to_nat x with
  | Some f => match dfile f with Some _ => true | None => false end
  | None => false
  end.

(** The call [c] made in [w] returned [r] in [w'] and was made to fail.  A byte
    count of a [write] is a [size_t] that fits the result. *)
Definition injected w (c : call) (r : Z) w' : bool :=
  (r =? -1) && (w_errno w' =? EIO) &&
  match c with
  | CClose _ => true
  | CRead x _ _ => on_symbolic w x
  | CWrite x _ n => on_symbolic w x && (0 <=? n) && (n <? 2 ^ 63)
  | _ => false
  end.

(** A sequence of calls, none of which stops the program, with the number of
    those that were made to fail. *)
Inductive runs : world OS -> Z -> world OS -> Prop :=
  | runs_nil w : runs w 0 w
  | runs_call w c r w' n w'' :
      wf_call c -> exec sys c w = Ret (r, w') -> runs w' n w'' ->
      runs w ((if injected w c r w' then 1 else 0) + n) w''.

(** ** One call *)

(** The test of a call: the failure takes one from the budget, or the call goes
    on. *)
Lemma inject_cases {A} p n e (r : A) k w a w' :
  inject p n e r k w = Ret (a, w') -> budget w' = budget w - 1 \/ k w = Ret (a, w').
Proof.
  unfold inject, mbind, M_bind, gets. destruct (nz (budget w)); [|by right].
  destruct (p (w_fs w)) as [x|]; [|done]. destruct (x =? n); [|by right]. intros [= <- <-]. left.
  simpl. by destruct (w_fs w).
Qed.

Lemma get_file_same x w o w' : __get_file x w = Ret (o, w') -> w' = w /\ forall i, o = Some i -> i = Z.to_nat x.
Proof.
  unfold __get_file, get_entry, mbind, M_bind. destruct (_ && _); [|by intros [= <- <-]].
  destruct (fds (w_env w) !! Z.to_nat x) as [f|]; [|done]. intros [= <- <-].
  split; [done|]. intros i. by destruct (is_open f); intros [= ->].
Qed.

Lemma close_failed x w r w' :
  close x w = Ret (r, w') -> r = -1 -> w_errno w' = EIO -> budget w' = budget w - 1.
Proof.
  unfold close, bump, mbind, M_bind, modify, gets. set (w1 := set_calls _ w).
  destruct (__get_file x w1) as [[o w2]|] eqn:E; [|done]. apply get_file_same in E as [-> _].
  destruct o as [i|].
  - intros [Hb|Hk]%inject_cases; [by intros _ _; rewrite Hb|].
    unfold put_file, modify, mbind, M_bind in Hk. intros. simplify_eq.
  - by intros [= <- <-] _ He.
Qed.

(** The bytes copied out of a file are fewer than [2^32]. *)
Lemma memcpy_small dst o src so n b w w' :
  memcpy_at (OS:=OS) dst o src so n w = Ret (b, w') -> Z.of_nat (length src) < 2 ^ 32 -> n = 0 \/ 0 <= n < 2 ^ 32.
Proof.
  unfold memcpy_at. destruct (Z.eqb_spec n 0); [by left|].
  destruct (_ && _ && _ && _ && _) eqn:Eb; [|done]. to_prop. intros _ Hl. right.
  repeat match goal with H : _ && _ = true |- _ => apply andb_true_iff in H as [? ?] end. to_prop. lia.
Qed.

Lemma read_failed s x b n w r w' :
  wf s w -> on_symbolic w x = true -> exec sys (CRead x b n) w = Ret (r, w') -> r = -1 ->
  w_errno w' = EIO -> budget w' = budget w - 1.
Proof.
  intros Hw Hs. cbn [exec]. unfold mbind at 1, M_bind at 1.
  destruct (read sys x b n w) as [[[r0 b0] w0]|] eqn:Er; [|done]. intros [= <- <-] -> He.
  unfold read, bump, mbind, M_bind, modify, gets in Er. revert Er. set (w1 := set_calls _ w).
  destruct (n =? 0); [intros [= ]|]. destruct b as [b|]; [|by intros [= _ <-]].
  destruct (__get_file x w1) as [[o w2]|] eqn:E; [|done]. apply get_file_same in E as [-> Hi].
  destruct o as [i|]; [|by intros [= _ <-]].
  rewrite (Hi i eq_refl). intros [Hb|Hk]%inject_cases; [exact Hb|]. exfalso.
  unfold get_entry, on_symbolic in *. simpl in Hk.
  destruct (fds (w_env w) !! Z.to_nat x) as [f|]; [|done]. destruct (dfile f) as [d|]; [|done].
  destruct (off f <? 0) eqn:Eo; [done|]. unfold deref_df in Hk. simpl in Hk.
  destruct (get_df (w_fs w) d) as [y|] eqn:Ey; [|done].
  destruct (get_df_wf s (w_fs w) d y (proj1 Hw) Ey) as (m & _ & Hm & Hsz & Hlen & _).
  destruct (size y <? off f); [by simplify_eq|].
  set (c := if _ <? _ then _ else n) in Hk.
  destruct (memcpy_at b 0 (contents y) (off f) c w1) as [[b' w3]|] eqn:Em; [|done].
  apply memcpy_small in Em; [|lia].
  destruct (set_off _ _ w3) as [[? ?]|]; [|done]. injection Hk as Hr _ _.
  unfold s64 in Hr. rewrite wrapS_small in Hr by (simpl; lia). lia.
Qed.

Lemma write_failed x b n w r w' :
  on_symbolic w x = true -> 0 <= n < 2 ^ 63 -> write sys x b n w = Ret (r, w') -> r = -1 ->
  w_errno w' = EIO -> budget w' = budget w - 1.
Proof.
  intros Hs Hn Er -> He. unfold write, bump, mbind, M_bind, modify, gets in Er. revert Er. set (w1 := set_calls _ w).
  destruct (__get_file x w1) as [[o w2]|] eqn:E; [|done]. apply get_file_same in E as [-> Hi].
  destruct o as [i|]; [|by intros [= <-]].
  rewrite (Hi i eq_refl). intros [Hb|Hk]%inject_cases; [exact Hb|]. exfalso.
  unfold get_entry, on_symbolic in *. simpl in Hk.
  destruct (fds (w_env w) !! Z.to_nat x) as [f|]; [|done]. destruct (dfile f) as [d|]; [|done].
  repeat match type of Hk with
  | match ?m with Ret _ => _ | Stop _ => _ end = _ => destruct m as [[? ?]|]; [|done]
  end.
  injection Hk as Hr _. unfold s64 in Hr. rewrite wrapS_small in Hr by (simpl; lia). lia.
Qed.

Lemma injected_spends s w c r w' :
  wf s w -> exec sys c w = Ret (r, w') -> injected w c r w' = true -> budget w' = budget w - 1.
Proof.
  intros Hw E Hi. unfold injected in Hi. apply andb_true_iff in Hi as [[Hr He]%andb_true_iff Hc]. to_prop.
  destruct c; try done.
  - by eapply close_failed.
  - by eapply (read_failed s).
  - apply andb_true_iff in Hc as [[Hs H0]%andb_true_iff H1]. to_prop. by eapply write_failed.
Qed.

(** ** Sequences of calls *)

Lemma runs_budget s w n w' :
  wf s w -> runs w n w' -> wf s w' /\ evolves w w' /\ n + budget w' <= budget w.
Proof.
  intros Hw Hr. induction Hr as [w|w c r w1 n w2 Hc E Hr IH]; [split_and!; [done|reflexivity|lia]|].
  destruct (exec_spec sys s c Hc _ _ _ Hw E) as (H1 & H2 & _). destruct (IH H1) as (H3 & H4 & H5).
  split_and!; [done|by etransitivity|]. destruct (injected w c r w1) eqn:Ei.
  - pose proof (injected_spends s w c r w1 Hw E Ei). lia.
  - destruct H2. lia.
Qed.

End Budget.
