(* ===== verification/PosixInit.v ===== *)
(** * Setting up the symbolic environment

    Models [src/vital-src/runtime/POSIX/fd_init.c] (the static environment, the
    creation of a symbolic file, [klee_init_fds]),
    [src/vital-src/runtime/POSIX/klee_init_env.c] (the parsing of the
    environment options out of the program's arguments) and
    [src/vital-src/runtime/Intrinsic/klee_range.c], in the monad of
    [PosixState].  The values of symbolic objects come from the engine through
    [KleeMakeSymbolic]; [klee_prefer_cex] and [klee_mark_global] do not change
    the program's state. *)

From S2P Require Import Prelude PosixState PosixFd.

Module Init.
Section Init.
Context {OS : Type} (sys : kernel OS).

Abbreviation M := (PosixState.M OS).
Abbreviation syscall := (PosixState.syscall sys).

(** ** The engine's intrinsics *)

Definition klee_report_error {A} (msg : string) : M A := halt (KleeError msg).

Definition klee_assume (b : bool) : M unit := if b then mret tt else halt Infeasible.

Definition klee_make_symbolic (name : list Z) (n : Z) : M (list Z) :=
  r ← syscall (KleeMakeSymbolic name n); mret (sr_data r).

Definition make_symbolic_int (name : list Z) : M Z :=
  b ← klee_make_symbolic name 4; mret (s32 (le_val b)).

(** [malloc(n)] followed by the test of the result. *)
Definition malloc_or_die (n : Z) : M unit :=
  r ← syscall (SysMalloc n);
  if sr_ret r =? 0 then klee_report_error "out of memory in klee_init_env"
  else mret tt.

Definition klee_range (start end_ : Z) (name : list Z) : M Z :=
  if end_ <=? start then klee_report_error "invalid range" else
  if s32 (start + 1) =? end_ then mret start else
  x ← make_symbolic_int name;
  (if start =? 0 then klee_assume (u32 x <? u32 end_)
   else klee_assume (start <=? x);; klee_assume (x <? end_));;
  mret x.

(** The other intrinsics of [runtime/Intrinsic]. *)
Definition klee_int (name : list Z) : M Z := make_symbolic_int name.

Definition klee_choose (n : Z) : M Z :=
  b ← klee_make_symbolic (bytes "klee_choose") 8;
  let x := le_val b in
  if n <=? x then halt (SilentExit 0) else mret x.

Definition klee_div_zero_check (z : Z) : M unit :=
  if z =? 0 then klee_report_error "divide by zero" else mret tt.

Definition klee_overshift_check (bitWidth shift : Z) : M unit :=
  if bitWidth <=? shift then klee_report_error "overshift error" else mret tt.

(** ** fd_init.c *)

(** The statically initialised [__exe_env] and the zero [__exe_fs]. *)
Definition __exe_env : exe_sym_env_t :=
  mkEnv ([mkFile 0 (Z.lor eOpen eReadable) 0 None;
          mkFile 1 (Z.lor eOpen eWriteable) 0 None;
          mkFile 2 (Z.lor eOpen eWriteable) 0 None] ++
         replicate (MAX_FDS - 3) zero_file) 18 0.

Definition __exe_fs : exe_file_system_t :=
  mkFs 0 None None 0 [] 0 None None None None None None None.

Definition with_size_blocks (n b : Z) (x : stat64) : stat64 :=
  let '(mkStat a i c d e f g _ k _ l m o) := x in mkStat a i c d e f g n k b l m o.

Definition __create_new_dfile (size : Z) (name : list Z) (defaults : stat64)
    : M exe_disk_file_t :=
  malloc_or_die 144;;
  (if 64 <? Z.of_nat (length name) + 6 then halt MemError else mret tt);;
  let sname := name ++ bytes "_stat" in
  (if size =? 0 then halt AssertFail else mret tt);;
  malloc_or_die size;;
  contents ← klee_make_symbolic name size;
  r ← syscall (KleeMakeSymbolicStat sname);
  let s := default defaults (sr_stat r) in
  sym ← syscall (KleeIsSymbolic (st_ino s));
  let s := if (sr_ret sym =? 0) && (Z.land (st_ino s) 2147483647 =? 0)
           then Fd.with_ino (st_ino defaults) s else s in
  klee_assume (negb (Z.land (st_ino s) 2147483647 =? 0));;
  klee_assume (Z.land (st_blksize s) (Z.lnot 65535) =? 0);;
  mret (mkDfile size contents (with_size_blocks size 8 s)).

(** The loop that creates the files [k], [k]+1, ... ([n] left). *)
Fixpoint create_files (n : nat) (k file_length : Z) (defaults : stat64)
    : M (list exe_disk_file_t) :=
  match n with
  | O => mret []
  | S n' =>
      df ← __create_new_dfile file_length (u8 (65 + k) :: bytes "_data") defaults;
      l ← create_files n' (k + 1) file_length defaults;
      mret (df :: l)
  end.

Definition set_fd_dfile (i : nat) (d : dref) : M unit := Fd.set_dfile i (Some d).

(** [int*] cells that say which call fails. *)
Definition make_fail (name : string) : M (option Z) :=
  x ← make_symbolic_int (bytes name); mret (Some x).

Definition put_stdin (x : option exe_disk_file_t) : M unit :=
  modify (set_fs (fun '(mkFs n _ o sw sf mf a b c e f g h) =>
                    mkFs n x o sw sf mf a b c e f g h)).

Definition put_stdout (x : option exe_disk_file_t) : M unit :=
  modify (set_fs (fun '(mkFs n i _ sw sf mf a b c e f g h) =>
                    mkFs n i x sw sf mf a b c e f g h)).

Definition put_files (n : Z) (files : list exe_disk_file_t) : M unit :=
  modify (set_fs (fun '(mkFs _ i o sw _ mf a b c e f g h) =>
                    mkFs n i o sw files mf a b c e f g h)).

Definition put_fails (rf wf cf tf gf : option Z) : M unit :=
  modify (set_fs (fun '(mkFs n i o sw sf mf _ _ _ _ _ g h) =>
                    mkFs n i o sw sf mf rf wf cf tf gf g h)).

(** The four parts of [klee_init_fds]: files, standard input, failures,
    standard output. *)
Definition init_files (n_files file_length : Z) (s : stat64) : M unit :=
  r ← syscall (SysMalloc (u64 (24 * n_files)));
  (if nz n_files && (sr_ret r =? 0)
   then klee_report_error "out of memory in klee_init_env" else mret tt);;
  files ← create_files (Z.to_nat n_files) 0 file_length s;
  put_files n_files files.

Definition init_stdin (stdin_length : Z) (s : stat64) : M unit :=
  if nz stdin_length then
    malloc_or_die 24;;
    df ← __create_new_dfile stdin_length (bytes "stdin") s;
    put_stdin (Some df);;
    set_fd_dfile 0 DStdin
  else put_stdin None.

Definition init_failures (max_failures_ : Z) : M unit :=
  put_max_failures max_failures_;;
  if nz max_failures_ then
    m1 ← syscall (SysMalloc 4); m2 ← syscall (SysMalloc 4);
    m3 ← syscall (SysMalloc 4); m4 ← syscall (SysMalloc 4);
    m5 ← syscall (SysMalloc 4);
    (if existsb (fun r => sr_ret r =? 0) [m1; m2; m3; m4; m5]
     then klee_report_error "out of memory in klee_init_env" else mret tt);;
    rf ← make_fail "read_fail"; wf ← make_fail "write_fail";
    cf ← make_fail "close_fail"; tf ← make_fail "ftruncate_fail";
    gf ← make_fail "getcwd_fail";
    put_fails rf wf cf tf gf
  else mret tt.

Definition init_stdout (sym_stdout_flag : Z) (s : stat64) : M unit :=
  if nz sym_stdout_flag then
    malloc_or_die 24;;
    df ← __create_new_dfile 1024 (bytes "stdout") s;
    put_stdout (Some df);;
    set_fd_dfile 1 DStdout;;
    put_stdout_writes 0
  else put_stdout None.

Definition klee_init_fds (n_files file_length stdin_length sym_stdout_flag
    save_all_writes_flag max_failures_ : Z) : M unit :=
  st ← Fd.stat_ sys (Some (bytes "."));
  let s := default (mkStat 0 0 0 0 0 0 0 0 0 0 0 0 0) st.2 in
  init_files n_files file_length s;;
  init_stdin stdin_length s;;
  init_failures max_failures_;;
  init_stdout sym_stdout_flag s;;
  modify (set_env (fun e => mkEnv (fds e) (umask_ e) save_all_writes_flag)).

(** ** klee_init_env.c *)

Fixpoint str_to_int_loop (s : list Z) (res : Z) (error_msg : string) : M Z :=
  match s with
  | [] => mret res
  | c :: s' =>
      if (48 <=? c) && (c <=? 57)
      then str_to_int_loop s' (s64 (s64 (res * 10) + (c - 48))) error_msg
      else klee_report_error error_msg
  end.

Definition __str_to_int (s : list Z) (error_msg : string) : M Z :=
  match s with
  | [] => klee_report_error error_msg
  | _ => str_to_int_loop s 0 error_msg
  end.

Fixpoint __streq (a b : list Z) : bool :=
  match a, b with
  | [], [] => true
  | x :: a', y :: b' => if x =? y then __streq a' b' else false
  | _, _ => false
  end.

Definition __get_sym_str (numChars : Z) (name : list Z) : M (list Z) :=
  malloc_or_die (u64 (s32 (numChars + 1)));;
  s ← klee_make_symbolic name (s32 (numChars + 1));
  if (0 <=? numChars) && (numChars <? Z.of_nat (length s))
  then mret (<[Z.to_nat numChars := 0]> s) else halt MemError.

Definition __add_arg (argv : list (list Z)) (arg : list Z) (argcMax : Z)
    : M (list (list Z)) :=
  if Z.of_nat (length argv) =? argcMax
  then klee_report_error "too many arguments for klee_init_env"
  else mret (argv ++ [arg]).

(** The local variables of [klee_init_env] that the loop changes. *)
Record opts := mkOpts {
  new_argv : list (list Z);
  o_sym_files : Z; o_sym_file_len : Z; o_sym_stdin_len : Z;
  o_sym_stdout : Z; o_save_all_writes : Z; o_fd_fail : Z; o_sym_arg_num : Z }.

Definition opts0 : opts := mkOpts [] 0 0 0 0 0 0 0.

Definition sym_arg_name (n : Z) : list Z :=
  bytes "arg" ++ [u8 (48 + n / 10); u8 (48 + n mod 10)].

(** Adding one symbolic argument of at most [max_len] characters. *)
Definition add_sym_arg (max_len : Z) (o : opts) : M opts :=
  let '(mkOpts av sf sl si so sw ff n) := o in
  s ← __get_sym_str (s32 max_len) (sym_arg_name n);
  av ← __add_arg av (default s (Fd.until_nul s)) 1024;
  mret (mkOpts av sf sl si so sw ff (u32 (n + 1))).

Fixpoint add_sym_args (k : nat) (max_len : Z) (o : opts) : M opts :=
  match k with
  | O => mret o
  | S k' => o ← add_sym_arg max_len o; add_sym_args k' max_len o
  end.

Definition flag2 (arg : list Z) (name : string) : bool :=
  __streq arg (bytes ("--" ++ name)) || __streq arg (bytes ("-" ++ name)).

Definition sym_arg_msg : string := "--sym-arg expects an integer argument <max-len>".
Definition sym_args_msg : string :=
  "--sym-args expects three integer arguments <min-argvs> <max-argvs> <max-len>".
Definition sym_files_msg : string :=
  "--sym-files expects two integer arguments <no-sym-files> <sym-file-len>".
Definition sym_stdin_msg : string :=
  "--sym-stdin expects one integer argument <sym-stdin-len>".
Definition max_fail_msg : string :=
  "--max-fail expects an integer argument <max-failures>".
Definition too_many_msg : string := "No more than 100 symbolic arguments allowed.".

(** A message that ends in a newline. *)
Definition line (s : string) : string := (s ++ String (Ascii.ascii_of_nat 10) EmptyString)%string.

Definition usage_msg : string :=
  foldr (fun l acc => (line l ++ acc)%string) EmptyString
    ["klee_init_env"; EmptyString;
     "usage: (klee_init_env) [options] [program arguments]";
     "  -sym-arg <N>              - Replace by a symbolic argument with length N";
     "  -sym-args <MIN> <MAX> <N> - Replace by at least MIN arguments and at most";
     "                              MAX arguments, each with maximum length N";
     "  -sym-files <NUM> <N>      - Make NUM symbolic files ('A', 'B', 'C', etc.),";
     "                              each with size N";
     "  -sym-stdin <N>            - Make stdin symbolic with size N.";
     "  -sym-stdout               - Make stdout symbolic.";
     "  -save-all-writes          - Allow write operations to execute as expected";
     "                              even if they exceed the file size. If set to 0, all";
     "                              writes exceeding the initial file size are discarded.";
     "                              Note: file offset is always incremented.";
     "  -max-fail <N>             - Allow up to N injected failures";
     "  -fd-fail                  - Shortcut for '-max-fail 1'"; EmptyString].

(** The loop [while (k < argc)], on the arguments from [argv[k]] on. *)
Fixpoint parse_args (args : list (list Z)) (o : opts) : M opts :=
  let '(mkOpts av sf sl si so sw ff n) := o in
  match args with
  | [] => mret o
  | arg :: rest =>
      if flag2 arg "sym-arg" then
        match rest with
        | [] => klee_report_error sym_arg_msg
        | a :: rest' =>
            max_len ← __str_to_int a sym_arg_msg;
            if 99 <? n then klee_report_error too_many_msg else
            o ← add_sym_arg (u32 max_len) o;
            parse_args rest' o
        end
      else if flag2 arg "sym-args" then
        match rest with
        | a :: b :: c :: rest' =>
            min_argvs ← __str_to_int a sym_args_msg;
            max_argvs ← __str_to_int b sym_args_msg;
            max_len ← __str_to_int c sym_args_msg;
            let min_argvs := u32 min_argvs in
            let max_argvs := u32 max_argvs in
            if (max_argvs <? min_argvs) || ((min_argvs =? 0) && (max_argvs =? 0))
            then klee_report_error "Invalid range to --sym-args" else
            n_args ← klee_range (s32 min_argvs) (s32 (u32 (max_argvs + 1)))
                       (bytes "n_args");
            if 99 <? u32 (n + max_argvs) then klee_report_error too_many_msg else
            o ← add_sym_args (Z.to_nat n_args) (u32 max_len) o;
            parse_args rest' o
        | _ => klee_report_error sym_args_msg
        end
      else if flag2 arg "sym-files" then
        match rest with
        | a :: b :: rest' =>
            if nz sf then 
              klee_report_error (line "Multiple --sym-files are not allowed.") else
            sf ← __str_to_int a sym_files_msg;
            sl ← __str_to_int b sym_files_msg;
            let sf := u32 sf in let sl := u32 sl in
            if sf =? 0 then klee_report_error
              (line "The first argument to --sym-files (number of files) cannot be 0")
            else if sl =? 0 then klee_report_error
              (line "The second argument to --sym-files (file size) cannot be 0")
            else parse_args rest' (mkOpts av sf sl si so sw ff n)
        | _ => klee_report_error sym_files_msg
        end
      else if flag2 arg "sym-stdin" then
        match rest with
        | [] => klee_report_error sym_stdin_msg
        | a :: rest' =>
            si ← __str_to_int a sym_stdin_msg;
            parse_args rest' (mkOpts av sf sl (u32 si) so sw ff n)
        end
      else if flag2 arg "sym-stdout" then
        parse_args rest (mkOpts av sf sl si 1 sw ff n)
      else if flag2 arg "save-all-writes" then
        parse_args rest (mkOpts av sf sl si so 1 ff n)
      else if flag2 arg "fd-fail" then
        parse_args rest (mkOpts av sf sl si so sw 1 n)
      else if flag2 arg "bout-file" then
        match rest with [] => mret o | _ :: rest' => parse_args rest' o end
      else if flag2 arg "max-fail" then
        match rest with
        | [] => klee_report_error max_fail_msg
        | a :: rest' =>
            ff ← __str_to_int a max_fail_msg;
            parse_args rest' (mkOpts av sf sl si so sw (s32 ff) n)
        end
      else
        av ← __add_arg av arg 1024;
        parse_args rest (mkOpts av sf sl si so sw ff n)
  end.

(** [argc == 2 && __streq(argv[1], "--help")]. *)
Definition is_help (argv : list (list Z)) : bool :=
  match argv with [_; a] => __streq a (bytes "--help") | _ => false end.

(** Returns the new argument vector. *)
Definition klee_init_env (argv : list (list Z)) : M (list (list Z)) :=
  (if is_help argv then klee_report_error usage_msg else mret tt);;
  o ← parse_args argv opts0;
  malloc_or_die (8 * (Z.of_nat (length (new_argv o)) + 1));;
  klee_init_fds (o_sym_files o) (o_sym_file_len o) (o_sym_stdin_len o)
    (o_sym_stdout o) (o_save_all_writes o) (u32 (o_fd_fail o));;
  mret (new_argv o).

Definition __klee_posix_wrapper (main : list (list Z) -> M Z) (argv : list (list Z))
    : M Z :=
  argv ← klee_init_env argv; main argv.

End Init.
End Init.
