(* ===== verification/PosixInitSpec.v ===== *)
(** * The initial state is well-formed and the options are bounded

    [Engine sys] states what the runtime relies on from the allocator and the
    engine: every request is answered, allocations succeed, and a fresh
    symbolic object has the requested number of bytes.  Nothing is assumed of
    the values of a symbolic [struct stat]: a path whose values contradict the
    assumptions of [__create_new_dfile] is cut off, and on every other path
    [klee_init_fds] returns and establishes the invariant of [PosixFdInv].
    From there every sequence of calls keeps the invariant, and the failures it
    sees stay within the budget of the command line. *)

From S2P Require Import Prelude PosixState PosixFd PosixFdInv PosixCalls PosixBudget PosixInit.
Import Fd Init.

Class Engine {OS : Type} (sys : kernel OS) : Prop := {
  engine_answers : forall q o, exists r o', sys q o = Ret (r, o');
  engine_malloc : forall n o r o', sys (SysMalloc n) o = Ret (r, o') -> sr_ret r <> 0;
  engine_bytes : forall name n o r o', 0 <= n ->
    sys (KleeMakeSymbolic name n) o = Ret (r, o') ->
    Z.of_nat (length (sr_data r)) = n /\ Forall is_byte (sr_data r) }.

(** The values of the path satisfy what is assumed of a symbolic [struct stat]:
    the path is not cut off there. *)
Definition stats_feasible {OS : Type} (sys : kernel OS) : Prop :=
  forall name o r o', sys (KleeMakeSymbolicStat name) o = Ret (r, o') ->
    exists st, sr_stat r = Some st /\
      Z.land (st_ino st) 2147483647 <> 0 /\ Z.land (st_blksize st) (Z.lnot 65535) = 0.

Section InitSpec.
Context {OS : Type} (sys : kernel OS).

Implicit Types w : world OS.

(** ** Total correctness

    A computation returns with [Q], or its path is cut off by an assumption,
    which only happens when the values of the path contradict one. *)

Definition wp {A} (m : M OS A) (Q : A -> world OS -> Prop) w : Prop :=
  match m w with
  | Ret (a, w') => Q a w'
  | Stop e => e = Infeasible /\ ~ stats_feasible sys
  end.

Lemma wp_assume b (Q : unit -> world OS -> Prop) w :
  (b = true -> Q tt w) -> (b = false -> ~ stats_feasible sys) -> wp (klee_assume b) Q w.
Proof. unfold wp, klee_assume. destruct b; simpl; auto. Qed.

Lemma wp_ret {A} (a : A) Q w : Q a w -> wp (mret a) Q w.
Proof. done. Qed.

Lemma wp_bind {A B} (m : M OS A) (k : A -> M OS B) Q w :
  wp m (fun a w' => wp (k a) Q w') w -> wp (m ≫= k) Q w.
Proof. unfold wp, mbind, M_bind. by destruct (m w) as [[a w']|]. Qed.

Lemma wp_conseq {A} (m : M OS A) (Q R : A -> world OS -> Prop) w :
  wp m Q w -> (forall a w', Q a w' -> R a w') -> wp m R w.
Proof. unfold wp. destruct (m w) as [[a w']|]; auto. Qed.

(** The requests that only concern the outside world. *)
Definition quiet (w w' : world OS) : Prop :=
  w_fs w' = w_fs w /\ w_env w' = w_env w.

#[local] Instance quiet_preorder : PreOrder quiet.
Proof.
  split; [done|]. intros w1 w2 w3 [E1 E2] [E3 E4]. split; congruence.
Qed.

Lemma wp_quiet_bind {A B} (m : M OS A) (k : A -> M OS B) (P : A -> Prop) Q w0 w :
  quiet w0 w -> wp m (fun a w' => quiet w w' /\ P a) w ->
  (forall a w', quiet w0 w' -> P a -> wp (k a) Q w') -> wp (m ≫= k) Q w.
Proof.
  intros H0 Hm Hk. apply wp_bind. eapply wp_conseq; [exact Hm|].
  intros a w' [H1 H2]. apply Hk; [by etransitivity|done].
Qed.

(** [r] answers request [q]. *)
Definition answered (q : sysreq) (r : sysres) : Prop := exists o o', sys q o = Ret (r, o').

Lemma quiet_syscall q w r w' :
  syscall sys q w = Ret (r, w') -> quiet w w' /\ answered q r.
Proof.
  unfold syscall. destruct (sys q (w_os w)) as [[r0 o]|] eqn:E; [|done].
  intros [= -> <-]. split; [by destruct (_ =? _)|]. by exists (w_os w), o.
Qed.

Context `{!Engine sys}.

Lemma wp_syscall q w :
  wp (syscall sys q) (fun r w' => quiet w w' /\ answered q r) w.
Proof.
  unfold wp. destruct (syscall sys q w) as [[r w']|e] eqn:E; [by apply quiet_syscall|].
  destruct (engine_answers q (w_os w)) as (r&o&H). unfold syscall in E.
  by rewrite H in E.
Qed.

Lemma malloc_nonzero n r : answered (SysMalloc n) r -> (sr_ret r =? 0) = false.
Proof. intros (o&o'&H). apply Z.eqb_neq. by eapply engine_malloc. Qed.

Lemma wp_malloc_or_die n w : wp (malloc_or_die sys n) (fun _ w' => quiet w w' /\ True) w.
Proof.
  apply wp_bind. eapply wp_conseq; [apply wp_syscall|]. intros r w' [Hq Hr].
  rewrite (malloc_nonzero n) by done. by apply wp_ret.
Qed.

Lemma wp_make_symbolic name n w : 0 <= n ->
  wp (klee_make_symbolic sys name n) (fun b w' => quiet w w' /\
       (Z.of_nat (length b) = n /\ Forall is_byte b)) w.
Proof.
  intros Hn. apply wp_bind. eapply wp_conseq; [apply wp_syscall|].
  intros r w' [Hq (o&o'&E)]. apply wp_ret. split; [done|]. by eapply engine_bytes.
Qed.

(** What [__create_new_dfile] makes of a non-zero size. *)
Definition fresh_df (n : Z) (x : exe_disk_file_t) : Prop :=
  wf_df n x /\ st_ino (stat x) <> 0 /\ st_size (stat x) = n.

Lemma land_nonzero a b : Z.land a b <> 0 -> a <> 0.
Proof. intros H ->. by rewrite Z.land_0_l in H. Qed.

Lemma wp_create_new_dfile n name d w :
  0 < n < 2 ^ 32 -> (length name <= 58)%nat ->
  wp (__create_new_dfile sys n name d) (fun x w' => quiet w w' /\ fresh_df n x) w.
Proof.
  intros Hn Hname. unfold __create_new_dfile.
  eapply (wp_quiet_bind _ _ _ _ w w); [done|apply wp_malloc_or_die|].
  intros _ w1 H1 _. destruct (Z.ltb_spec 64 (Z.of_nat (length name) + 6)); [lia|].
  apply wp_bind, wp_ret. cbv zeta. destruct (Z.eqb_spec n 0); [lia|].
  apply wp_bind, wp_ret.
  eapply (wp_quiet_bind _ _ _ _ w w1); [done|apply wp_malloc_or_die|].
  intros _ w2 H2 _.
  eapply (wp_quiet_bind _ _ _ _ w w2); [done|apply wp_make_symbolic; lia|].
  intros b w3 H3 [Hb1 Hb2].
  eapply (wp_quiet_bind _ _ _ _ w w3); [done|apply wp_syscall|].
  intros r w4 H4 (o&o'&E).
  eapply (wp_quiet_bind _ _ (fun _ => True) _ w w4); [done| |].
  { eapply wp_conseq; [apply wp_syscall|naive_solver]. }
  intros sym w5 H5 _. set (st := default d (sr_stat r)).
  set (s0 := if _ && _ then _ else st).
  assert (Hfeas : stats_feasible sys -> s0 = st /\
    (Z.land (st_ino st) 2147483647 =? 0) = false /\ (Z.land (st_blksize st) (Z.lnot 65535) =? 0) = true).
  { intros Hs. destruct (Hs _ _ _ _ E) as (st0 & E0 & Hino%Z.eqb_neq & Hblk%Z.eqb_eq).
    subst s0 st. rewrite E0. simpl. by rewrite Hino, andb_false_r. }
  apply wp_bind, wp_assume.
  2: { intros Hb Hs. destruct (Hfeas Hs) as (E0 & E1 & _). by rewrite E0, E1 in Hb. }
  intros Hino%negb_true_iff%Z.eqb_neq. apply wp_bind, wp_assume.
  2: { intros Hb Hs. destruct (Hfeas Hs) as (E0 & _ & E2). by rewrite E0, E2 in Hb. }
  intros _. apply wp_ret. split; [done|]. split; [|split].
  - split_and!; simpl; auto; lia.
  - apply land_nonzero in Hino. simpl. by destruct s0.
  - simpl. by destruct s0.
Qed.

Lemma wp_create_files k : forall i len d w,
  0 < len < 2 ^ 32 ->
  wp (create_files sys k i len d) (fun l w' =>
        quiet w w' /\ length l = k /\ Forall (fresh_df len) l) w.
Proof.
  induction k as [|k IH]; intros i len d w Hlen; simpl; [by apply wp_ret|].
  eapply (wp_quiet_bind _ _ _ _ w w); [done|apply wp_create_new_dfile; simpl; lia|].
  intros x w1 H1 Hx. apply wp_bind. eapply wp_conseq; [by apply IH|].
  intros l w2 (H2 & H3 & H4). apply wp_ret. split_and!; simpl; auto.
  by etransitivity.
Qed.

Lemma wp_stat_dot w :
  w_fs w = __exe_fs -> wp (stat_ sys (Some (bytes "."))) (fun _ w' => quiet w w' /\ True) w.
Proof.
  intros Hfs. unfold stat_, __fd_stat. apply wp_bind.
  assert (__get_sym_file sys (Some (bytes ".")) w = Ret (None, w)) as E.
  { unfold __get_sym_file, strip_cwd, mbind, M_bind, gets. simpl. by rewrite Hfs. }
  unfold wp at 1. rewrite E. apply wp_bind, wp_ret, wp_bind.
  eapply wp_conseq; [apply wp_syscall|]. intros r w' [? _]. by apply wp_ret.
Qed.

Lemma wp_make_fail name w :
  wp (make_fail sys name) (fun x w' => quiet w w' /\ True) w.
Proof.
  apply wp_bind, wp_bind.
  eapply wp_conseq; [apply wp_make_symbolic; lia|]. intros b w' [? _].
  apply wp_ret, wp_ret. done.
Qed.

(** [at_ fs e w]: the file system and the environment of [w]. *)
Definition at_ (fs : exe_file_system_t) (e : exe_sym_env_t) w : Prop :=
  w_fs w = fs /\ w_env w = e.

Lemma at_bind {A B} (m : M OS A) (k : A -> M OS B) (P : A -> Prop) Q fs e w :
  at_ fs e w -> wp m (fun a w' => quiet w w' /\ P a) w ->
  (forall a w', at_ fs e w' -> P a -> wp (k a) Q w') -> wp (m ≫= k) Q w.
Proof.
  intros [H1 H2] Hm Hk. eapply (wp_quiet_bind m k P Q w w); [done|exact Hm|].
  intros a w' [E1 E2]. apply Hk. split; congruence.
Qed.

Definition env_dfile (i : nat) (d : dref) (e : exe_sym_env_t) : exe_sym_env_t :=
  mkEnv (alter (fun f => mkFile (fd f) (flags f) (off f) (Some d)) i (fds e))
        (umask_ e) (save_all_writes e).

Lemma wp_set_fd_dfile i d fs e w :
  (i < length (fds e))%nat -> at_ fs e w ->
  wp (set_fd_dfile i d) (fun _ w' => at_ fs (env_dfile i d e) w') w.
Proof.
  intros Hi [E1 E2]. destruct (lookup_lt_is_Some_2 _ _ Hi) as [f Hf].
  unfold wp, set_fd_dfile, set_dfile, get_entry, put_file, mbind, M_bind, modify.
  rewrite E2, Hf. split; simpl; [done|]. rewrite E2. unfold env_dfile. f_equal.
  apply list_eq. intros j. destruct (decide (i = j)) as [<-|Hne].
  - rewrite list_lookup_alter_eq, Hf. simpl. by apply list_lookup_insert_eq.
  - by rewrite list_lookup_alter_ne, list_lookup_insert_ne.
Qed.

(** ** The parts of klee_init_fds *)

(** An optional standard stream of length [len]; no stream when it is 0. *)
Definition stream_ok (len : Z) (o : option exe_disk_file_t) : Prop :=
  match o with None => len = 0 | Some x => len <> 0 /\ fresh_df len x end.

Lemma wp_init_files n len s0 w :
  0 <= n -> (n = 0 \/ 0 < len < 2 ^ 32) -> at_ __exe_fs __exe_env w ->
  wp (init_files sys n len s0) (fun _ w' => exists l,
        Z.of_nat (length l) = n /\ Forall (fresh_df len) l /\
        at_ (mkFs n None None 0 l 0 None None None None None None None) __exe_env w') w.
Proof.
  intros Hn Hlen Hat.
  eapply at_bind; [exact Hat| |].
  { apply wp_syscall. }
  intros r w1 H1 Hr. apply wp_bind. rewrite (malloc_nonzero _ _ Hr), andb_false_r.
  apply wp_ret, wp_bind.
  assert (wp (create_files sys (Z.to_nat n) 0 len s0) (fun l w' => quiet w1 w' /\
    length l = Z.to_nat n /\ Forall (fresh_df len) l) w1) as Hc.
  { destruct Hlen as [->|Hlen]; [by apply wp_ret|by apply wp_create_files]. }
  eapply wp_conseq; [exact Hc|]. intros l w2 ([E1 E2] & Hl & Hall).
  exists l. split_and!; [lia|done|]. destruct H1 as [F1 F2].
  split; simpl; [|congruence]. by rewrite E1, F1.
Qed.

Lemma wp_init_stdin len s0 fs e w :
  0 <= len < 2 ^ 32 -> (0 < length (fds e))%nat -> at_ fs e w ->
  wp (init_stdin sys len s0) (fun _ w' => exists x, stream_ok len x /\
      at_ (let '(mkFs n _ o sw sf mf a b c e f g h) := fs in
           mkFs n x o sw sf mf a b c e f g h)
          (if nz len then env_dfile 0 DStdin e else e) w') w.
Proof.
  intros Hlen Hfds Hq. unfold init_stdin. destruct (nz len) eqn:E.
  - apply nz_true in E.
    eapply at_bind; [exact Hq|apply wp_malloc_or_die|]. intros _ w1 H1 _.
    eapply at_bind; [exact H1|apply wp_create_new_dfile; simpl; lia|].
    intros x w2 [F1 F2] Hx. apply wp_bind. unfold put_stdin, modify, wp at 1.
    eapply wp_conseq; [eapply wp_set_fd_dfile; [exact Hfds|by split]|].
    intros ? w' [G1 G2]. exists (Some x). split; [done|].
    split; [|done]. rewrite G1. simpl. rewrite F1. by destruct fs.
  - apply nz_false in E. exists None. split; [done|]. destruct Hq as [F1 F2].
    split; simpl; [|done]. rewrite F1. by destruct fs.
Qed.

Lemma wp_init_failures mf fs e w :
  at_ fs e w ->
  wp (init_failures sys mf) (fun _ w' => exists a b c d g,
      at_ (let '(mkFs n i o sw sf _ _ _ _ _ _ p q) := fs in
           mkFs n i o sw sf mf a b c d g p q) e w') w.
Proof.
  intros [F1 F2]. apply wp_bind. unfold put_max_failures, modify, wp at 1.
  destruct fs as [n i o sw sf mf0 a b c d g p q].
  destruct (nz mf).
  2: { exists a, b, c, d, g. split; simpl; [by rewrite F1|done]. }
  assert (at_ (mkFs n i o sw sf mf a b c d g p q) e
    (set_fs (fun '(mkFs k i o sw sf _ a b c e f g h) =>
               mkFs k i o sw sf mf a b c e f g h) w)) as H0
    by (split; simpl; [by rewrite F1|done]).
  assert (forall w', wp (syscall sys (SysMalloc 4)) (fun r w2 =>
    quiet w' w2 /\ (sr_ret r =? 0) = false) w') as Hm.
  { intros w'. eapply wp_conseq; [apply wp_syscall|]. intros r w2 [? Hr].
    split; [done|]. by apply (malloc_nonzero 4). }
  do 5 (eapply at_bind; [exact H0|apply Hm|clear H0; intros ? ? H0 ?]).
  cbv beta in *. simpl existsb.
  repeat match goal with E : (sr_ret _ =? 0) = false |- _ => rewrite E; clear E end.
  apply wp_bind, wp_ret.
  do 5 (eapply at_bind; [exact H0|apply wp_make_fail|clear H0; intros ? ? H0 _]).
  destruct H0 as [G1 G2]. do 5 eexists. split; simpl; [by rewrite G1|done].
Qed.

Lemma wp_init_stdout fl s0 fs e w :
  (1 < length (fds e))%nat -> at_ fs e w ->
  wp (init_stdout sys fl s0) (fun _ w' => exists x sw',
      stream_ok (if nz fl then 1024 else 0) x /\
      at_ (let '(mkFs n i _ sw sf mf a b c e f g h) := fs in
           mkFs n i x sw' sf mf a b c e f g h)
          (if nz fl then env_dfile 1 DStdout e else e) w') w.
Proof.
  intros Hfds Hq. unfold init_stdout. destruct (nz fl) eqn:E.
  - eapply at_bind; [exact Hq|apply wp_malloc_or_die|]. intros _ w1 H1 _.
    eapply at_bind; [exact H1|apply wp_create_new_dfile; simpl; lia|].
    intros x w2 [F1 F2] Hx. apply wp_bind. unfold put_stdout, modify, wp at 1.
    apply wp_bind. eapply wp_conseq; [eapply wp_set_fd_dfile; [exact Hfds|by split]|].
    intros ? w' [G1 G2]. exists (Some x), 0. split; [done|].
    split; simpl; [|done]. rewrite G1. simpl. rewrite F1. by destruct fs.
  - exists None, (stdout_writes fs). split; [done|]. destruct Hq as [F1 F2].
    split; simpl; [|done]. rewrite F1. by destruct fs.
Qed.

(** ** The initial state *)

(** The environment after [klee_init_fds]. *)
Definition init_env (in_ out : bool) (saw : Z) : exe_sym_env_t :=
  let e := if in_ then env_dfile 0 DStdin __exe_env else __exe_env in
  let e := if out then env_dfile 1 DStdout e else e in
  mkEnv (fds e) (umask_ e) saw.

Definition init_shape (n len in_len out : Z) : shape :=
  mkShape (replicate (Z.to_nat n) len) (if nz in_len then Some in_len else None)
          (if nz out then Some 1024 else None).

Definition initial (w : world OS) : Prop := at_ __exe_fs __exe_env w.

Lemma stream_ok_wf len x :
  stream_ok len x -> option_Forall2 wf_df (if nz len then Some len else None) x.
Proof.
  destruct x as [x|]; simpl; [|intros ->; constructor].
  intros [H1 [H2 _]]. apply nz_true in H1. rewrite H1. by constructor.
Qed.

Lemma exe_env_wf s : wf_env s __exe_env.
Proof.
  constructor; [done| |by vm_compute].
  assert (forall x fl, flags_ok fl -> wf_file s (mkFile x fl 0 None)).
  { intros. apply wf_file_iff. split_and!; simpl; (done || lia). }
  apply Forall_app; split.
  - repeat constructor; apply H; (split; [by vm_compute|by right]).
  - apply Forall_replicate, wf_zero_file.
Qed.

Lemma env_dfile_wf s i d e :
  wf_env s e -> valid_dref s d -> wf_env s (env_dfile i d e).
Proof.
  intros [H1 H2 H3] Hd. constructor; simpl; [by rewrite length_alter| |done].
  apply Forall_alter; [done|]. intros f _ Hf.
  apply wf_file_parts in Hf. apply wf_file_iff. tauto.
Qed.

Lemma init_env_wf n len in_len out saw :
  wf_env (init_shape n len in_len out) (init_env (nz in_len) (nz out) saw).
Proof.
  set (s := init_shape n len in_len out).
  assert (wf_env s (if nz in_len then env_dfile 0 DStdin __exe_env else __exe_env)) as H1.
  { destruct (nz in_len) eqn:E; [|apply exe_env_wf].
    apply env_dfile_wf; [apply exe_env_wf|].
    unfold valid_dref, s; simpl. rewrite E. eauto. }
  assert (wf_env s (let e := if nz in_len then env_dfile 0 DStdin __exe_env else __exe_env
                    in if nz out then env_dfile 1 DStdout e else e)) as H2.
  { simpl. destruct (nz out) eqn:E; [|done]. apply env_dfile_wf; [done|].
    unfold valid_dref, s; simpl. rewrite E. eauto. }
  destruct H2. by constructor.
Qed.

(** What [klee_init_fds] promises about the state it leaves. *)
Record init_post (n len in_len out saw mf : Z) w : Prop := {
  ip_wf : wf (init_shape n len in_len out) w;
  ip_env : w_env w = init_env (nz in_len) (nz out) saw;
  ip_budget : max_failures (w_fs w) = mf;
  ip_visible : forall d x, get_df (w_fs w) d = Some x ->
    st_ino (stat x) <> 0 /\ st_size (stat x) = size x }.

Lemma fresh_files_wf len l d :
  Forall (fresh_df len) l ->
  option_Forall2 wf_df (replicate (length l) len !! d) (l !! d).
Proof.
  intros H. destruct (l !! d) as [x|] eqn:E.
  - rewrite lookup_replicate_2 by (by eapply lookup_lt_Some). constructor.
    eapply Forall_lookup_1 in H as [? _]; [|exact E]. done.
  - rewrite lookup_ge_None_2; [constructor|].
    rewrite length_replicate. by apply lookup_ge_None_1.
Qed.

Lemma fresh_visible n x : fresh_df n x -> st_ino (stat x) <> 0 /\ st_size (stat x) = size x.
Proof. intros ((_ & -> & _) & H1 & H2). auto. Qed.

Lemma init_post_intro n len in_len out saw mf l x y sw a b c d g p q w :
  Z.of_nat (length l) = n -> Forall (fresh_df len) l -> stream_ok in_len x ->
  stream_ok (if nz out then 1024 else 0) y -> 0 <= mf < 2 ^ 32 ->
  w_fs w = mkFs n x y sw l mf a b c d g p q ->
  w_env w = init_env (nz in_len) (nz out) saw ->
  init_post n len in_len out saw mf w.
Proof.
  intros <- Hl Hx Hy Hmf E1 E2. constructor; [|done|by rewrite E1|].
  - split; [|rewrite E2; apply init_env_wf]. rewrite E1. constructor; simpl.
    + by rewrite length_replicate, Nat2Z.id.
    + intros [| |i]; simpl.
      * by apply stream_ok_wf.
      * apply stream_ok_wf in Hy. by destruct (nz out).
      * rewrite Nat2Z.id. by apply fresh_files_wf.
    + done.
  - rewrite E1. intros [| |i] z Hz; simpl in Hz; subst.
    + destruct Hx as [_ Hx]. by eapply fresh_visible.
    + destruct Hy as [_ Hy]. by eapply fresh_visible.
    + eapply Forall_lookup_1 in Hl; [|exact Hz]. by eapply fresh_visible.
Qed.

Lemma wp_klee_init_fds n len in_len out saw mf w :
  initial w -> 0 <= n -> (n = 0 \/ 0 < len < 2 ^ 32) -> 0 <= in_len < 2 ^ 32 ->
  0 <= mf < 2 ^ 32 ->
  wp (klee_init_fds sys n len in_len out saw mf)
     (fun _ w' => init_post n len in_len out saw mf w') w.
Proof.
  intros Hw Hn Hlen Hin Hmf. unfold klee_init_fds.
  eapply at_bind; [exact Hw|apply wp_stat_dot, Hw|]. intros st w1 H1 _. cbv zeta.
  apply wp_bind. eapply wp_conseq; [by apply wp_init_files|].
  intros ? w2 (l & Hl & Hall & H2). apply wp_bind.
  eapply wp_conseq; [apply wp_init_stdin; [done| |exact H2]|]; [simpl; lia|].
  intros ? w3 (x & Hx & H3). apply wp_bind.
  eapply wp_conseq; [apply wp_init_failures; exact H3|].
  intros ? w4 (fa & fb & fc & fe & fg & H4). apply wp_bind.
  eapply wp_conseq; [apply wp_init_stdout; [|exact H4]|].
  { destruct (nz in_len); simpl; rewrite ?length_alter; simpl; lia. }
  intros ? w5 (y & sw & Hy & [F1 F2]). unfold wp, modify.
  eapply init_post_intro; [exact Hl|exact Hall|exact Hx|exact Hy|exact Hmf|exact F1|].
  simpl. by rewrite F2.
Qed.

(** ** The option parser *)

(** Partial correctness of the computations that leave the runtime's state
    alone. *)
Definition returns {A} (m : M OS A) (Q : A -> Prop) : Prop :=
  forall w a w', m w = Ret (a, w') -> quiet w w' /\ Q a.

Lemma returns_ret {A} (a : A) (Q : A -> Prop) : Q a -> returns (mret a) Q.
Proof. by intros HQ w b w' [= <- <-]. Qed.

Lemma returns_halt {A} e (Q : A -> Prop) : returns (halt e) Q.
Proof. intros w b w' [=]. Qed.

Lemma returns_error {A} msg (Q : A -> Prop) : returns (klee_report_error msg) Q.
Proof. apply returns_halt. Qed.

Lemma returns_bind {A B} (m : M OS A) (k : A -> M OS B) P Q :
  returns m P -> (forall a, P a -> returns (k a) Q) -> returns (m ≫= k) Q.
Proof.
  intros Hm Hk w b w' E. unfold mbind, M_bind in E.
  destruct (m w) as [[a w1]|] eqn:Em; [|done].
  destruct (Hm _ _ _ Em) as [H1 H2]. destruct (Hk a H2 _ _ _ E) as [H3 H4].
  split; [by etransitivity|done].
Qed.

Lemma returns_syscall q : returns (syscall sys q) (fun _ => True).
Proof. intros w a w' E. by apply quiet_syscall in E as [? _]. Qed.

Lemma returns_malloc n : returns (malloc_or_die sys n) (fun _ => True).
Proof.
  eapply returns_bind; [apply returns_syscall|]. intros r _.
  split_if; [apply returns_error|by apply returns_ret].
Qed.

Lemma returns_make_symbolic name n :
  returns (klee_make_symbolic sys name n) (fun _ => True).
Proof.
  eapply returns_bind; [apply returns_syscall|]. intros. by apply returns_ret.
Qed.

Lemma returns_str_to_int_loop a msg : forall r,
  returns (str_to_int_loop a r msg) (fun _ => True).
Proof.
  induction a as [|c a IH]; intros r; simpl; [by apply returns_ret|].
  split_if; [apply IH|apply returns_error].
Qed.

Lemma returns_str_to_int a msg : returns (__str_to_int a msg) (fun _ => True).
Proof.
  destruct a; [apply returns_error|]. apply returns_str_to_int_loop.
Qed.

Lemma returns_get_sym_str n name : returns (__get_sym_str sys n name) (fun _ => True).
Proof.
  eapply returns_bind; [apply returns_malloc|]. intros _ _.
  eapply returns_bind; [apply returns_make_symbolic|]. intros b _.
  split_if; [by apply returns_ret|apply returns_halt].
Qed.

Lemma u32_small x : 0 <= x < 2 ^ 32 -> u32 x = x.
Proof. apply wrapU_small. Qed.

Lemma u32_neg x : - 2 ^ 32 <= x < 0 -> u32 x = x + 2 ^ 32.
Proof.
  intros. unfold u32, wrapU. rewrite <- (Z.mod_add x 1 (2 ^ 32)) by lia.
  apply Z.mod_small. lia.
Qed.

Lemma s32_big x : 2 ^ 31 <= x < 2 ^ 32 -> s32 x = x - 2 ^ 32.
Proof.
  intros. unfold s32, wrapS. simpl Z.pow.
  rewrite <- (Z.mod_add _ (-1)) by lia. rewrite Z.mod_small; lia.
Qed.

Lemma returns_range start end_ name :
  - 2 ^ 31 <= start < 2 ^ 31 -> - 2 ^ 31 <= end_ < 2 ^ 31 ->
  returns (klee_range sys start end_ name) (fun x => start <= x < end_).
Proof.
  intros Hs He. unfold klee_range. split_if; [apply returns_error|]. to_prop.
  split_if; to_prop.
  { apply returns_ret. lia. }
  unfold make_symbolic_int.
  apply returns_bind with (fun x => - 2 ^ 31 <= x < 2 ^ 31).
  { eapply returns_bind; [apply returns_make_symbolic|]. intros b _.
    apply returns_ret. apply (wrapS_range 32); lia. }
  intros x Hx. apply returns_bind with (fun _ => start <= x < end_);
    [|intros; by apply returns_ret].
  destruct (Z.eqb_spec start 0) as [->|Hne].
  - unfold klee_assume. split_if; [|apply returns_halt]. to_prop. apply returns_ret.
    destruct (decide (0 <= x)).
    + rewrite !u32_small in * by lia. lia.
    + rewrite u32_neg, u32_small in * by lia. lia.
  - unfold klee_assume. eapply returns_bind with (fun _ => start <= x).
    + split_if; [|apply returns_halt]. to_prop. by apply returns_ret.
    + intros _ ?. split_if; [|apply returns_halt]. to_prop. by apply returns_ret.
Qed.

Definition opts_ok (o : opts) : Prop :=
  (length (new_argv o) <= 1024)%nat /\ 0 <= o_sym_arg_num o <= 100 /\
  0 <= o_sym_files o < 2 ^ 32 /\ 0 <= o_sym_file_len o < 2 ^ 32 /\
  (o_sym_files o = 0 \/ 0 < o_sym_file_len o) /\ 0 <= o_sym_stdin_len o < 2 ^ 32.

Lemma returns_add_arg av arg :
  (length av <= 1024)%nat ->
  returns (__add_arg av arg 1024) (fun av' => (length av' <= 1024)%nat).
Proof.
  intros Hl. unfold __add_arg. split_if; [apply returns_error|]. to_prop.
  apply returns_ret. rewrite length_app. simpl. lia.
Qed.

Lemma returns_add_sym_arg len o :
  opts_ok o -> o_sym_arg_num o <= 99 ->
  returns (add_sym_arg sys len o) (fun o' => opts_ok o' /\
    o_sym_arg_num o' = o_sym_arg_num o + 1).
Proof.
  intros (H1 & H2 & H3) Hn. destruct o as [av sf sl si so sw ff n]. simpl in *.
  eapply returns_bind; [apply returns_get_sym_str|]. intros s0 _.
  eapply returns_bind; [by apply returns_add_arg|]. intros av' Hav.
  assert (u32 (n + 1) = n + 1) as E by (apply wrapU_small; lia).
  apply returns_ret. unfold opts_ok; simpl. rewrite E.
  split; [split_and!; try done; lia|done].
Qed.

Lemma returns_add_sym_args k len : forall o,
  opts_ok o -> o_sym_arg_num o + Z.of_nat k <= 99 ->
  returns (add_sym_args sys k len o) opts_ok.
Proof.
  induction k as [|k IH]; intros o Ho Hk; simpl; [by apply returns_ret|].
  eapply returns_bind; [apply returns_add_sym_arg; [done|lia]|].
  intros o' [Ho' E]. apply IH; [done|lia].
Qed.

(** The range handed to [klee_range] bounds the arguments [--sym-args] adds. *)
Lemma sym_args_bound mn mx n k :
  0 <= mn < 2 ^ 32 -> 0 <= mx < 2 ^ 32 -> 0 <= n <= 100 ->
  s32 mn <= k < s32 (u32 (mx + 1)) -> u32 (n + mx) <= 99 ->
  n + Z.of_nat (Z.to_nat k) <= 99 \/ k <= 0.
Proof.
  intros H1 H2 Hn Hk Hs. destruct (decide (k <= 0)); [by right|left].
  assert (mx + 1 < 2 ^ 31) as Hmx.
  { destruct (decide (mx + 1 < 2 ^ 32)).
    - rewrite u32_small in Hk by lia. destruct (decide (mx + 1 < 2 ^ 31)); [done|].
      rewrite (s32_big (mx + 1)) in Hk by lia. lia.
    - assert (mx + 1 = 2 ^ 32) as E by lia. rewrite E in Hk. change (s32 (u32 (2 ^ 32))) with 0 in Hk. lia. }
  rewrite u32_small in Hk by lia. unfold s32 in Hk.
  rewrite (wrapS_small 32 (mx + 1)) in Hk by (simpl; lia).
  rewrite u32_small in Hs by lia. lia.
Qed.

(** The options that only set a field. *)
Ltac parse_next IH :=
  apply IH; [simpl in *; lia|unfold opts_ok in *; simpl in *; intuition lia].

Lemma returns_parse_args k : forall args o,
  (length args <= k)%nat -> opts_ok o -> returns (parse_args sys args o) opts_ok.
Proof.
  induction k as [|k IH]; intros args o Hk Ho;
    destruct o as [av sf sl si so sw ff n], args as [|arg rest]; cbn [parse_args];
    try (by apply returns_ret); [simpl in Hk; lia|].
  pose proof (fun x => u32_range x) as Hu.
  destruct (flag2 arg "sym-arg").
  { destruct rest as [|a rest']; [apply returns_error|].
    eapply returns_bind; [apply returns_str_to_int|]. intros ml _.
    destruct (Z.ltb_spec 99 n); [apply returns_error|].
    eapply returns_bind; [by apply returns_add_sym_arg|]. intros o' [Ho' _].
    apply IH; [simpl in Hk; lia|done]. }
  destruct (flag2 arg "sym-args").
  { destruct rest as [|a [|b [|c rest']]]; try apply returns_error.
    do 3 (eapply returns_bind; [apply returns_str_to_int|intros ? _]). cbv zeta.
    split_if; [apply returns_error|].
    eapply returns_bind; [apply returns_range; apply (wrapS_range 32); lia|].
    intros na Hna. cbv beta in Hna. destruct (Z.ltb_spec 99 (u32 (n + u32 a1)));
      [apply returns_error|].
    apply returns_bind with opts_ok.
    - destruct (sym_args_bound _ _ n na (Hu a0) (Hu a1) ltac:(apply Ho) Hna) as [Hb|Hb];
        [lia|by apply returns_add_sym_args|].
      assert (Z.to_nat na = O) as -> by lia. by apply returns_ret.
    - intros o' Ho'. apply IH; [simpl in Hk; lia|done]. }
  destruct (flag2 arg "sym-files").
  { destruct rest as [|a [|b rest']]; try apply returns_error.
    split_if; [apply returns_error|].
    do 2 (eapply returns_bind; [apply returns_str_to_int|intros ? _]). cbv zeta.
    split_if; [apply returns_error|]. split_if; [apply returns_error|]. to_prop.
    pose proof (Hu a0). pose proof (Hu a1). parse_next IH. }
  destruct (flag2 arg "sym-stdin").
  { destruct rest as [|a rest']; [apply returns_error|].
    eapply returns_bind; [apply returns_str_to_int|intros v _].
    pose proof (Hu v). parse_next IH. }
  destruct (flag2 arg "sym-stdout"); [parse_next IH|].
  destruct (flag2 arg "save-all-writes"); [parse_next IH|].
  destruct (flag2 arg "fd-fail"); [parse_next IH|].
  destruct (flag2 arg "bout-file").
  { destruct rest as [|a rest']; [by apply returns_ret|]. parse_next IH. }
  destruct (flag2 arg "max-fail").
  { destruct rest as [|a rest']; [apply returns_error|].
    eapply returns_bind; [apply returns_str_to_int|intros v _]. parse_next IH. }
  eapply returns_bind; [apply returns_add_arg, Ho|]. intros av' Hav. parse_next IH.
Qed.

(** [klee_init_env] as a whole: when it returns, the arguments left are those
    of the parsed options and the state is that of [klee_init_fds] on them. *)
Lemma klee_init_env_post argv w av w' :
  initial w -> klee_init_env sys argv w = Ret (av, w') ->
  exists o wo, parse_args sys argv opts0 w = Ret (o, wo) /\ new_argv o = av /\ opts_ok o /\
    init_post (o_sym_files o) (o_sym_file_len o) (o_sym_stdin_len o)
      (o_sym_stdout o) (o_save_all_writes o) (u32 (o_fd_fail o)) w'.
Proof.
  intros Hw E. unfold klee_init_env, mbind, M_bind in E.
  destruct (is_help argv); [done|].
  cbn [mret M_ret] in E.
  destruct (parse_args sys argv opts0 w) as [[o w2]|] eqn:E2; [|done].
  assert (opts_ok opts0) as H0 by (split_and!; simpl; lia).
  destruct (returns_parse_args _ _ _ (le_n _) H0 _ _ _ E2) as [[Q1 Q2] Ho].
  destruct (malloc_or_die sys _ w2) as [[u3 w3]|] eqn:E3; [|done].
  destruct (returns_malloc _ _ _ _ E3) as [[Q3 Q4] _].
  pose proof (wp_klee_init_fds (o_sym_files o) (o_sym_file_len o)
    (o_sym_stdin_len o) (o_sym_stdout o) (o_save_all_writes o) (u32 (o_fd_fail o)) w3) as Hi.
  destruct Ho as (O1 & O2 & O3 & O4 & O5 & O6). unfold wp in Hi.
  destruct (klee_init_fds _ _ _ _ _ _ _ w3) as [[u4 w4]|] eqn:E4; [|done].
  injection E as <- <-. exists o, w2.
  split_and!; [done|done|unfold opts_ok; tauto|]. apply Hi; try done.
  - destruct Hw. split; congruence.
  - lia.
  - destruct O5; [by left|right; lia].
  - apply u32_range.
Qed.

(** Arguments that are not options are copied in order. *)
Lemma parse_args_plain args : forall av sf sl si so sw ff n w,
  Forall (fun a => forall f, In f ["sym-arg"; "sym-args"; "sym-files"; "sym-stdin";
     "sym-stdout"; "save-all-writes"; "fd-fail"; "bout-file"; "max-fail"]%string ->
     flag2 a f = false) args ->
  (length av + length args <= 1024)%nat ->
  parse_args sys args (mkOpts av sf sl si so sw ff n) w
  = Ret (mkOpts (av ++ args) sf sl si so sw ff n, w).
Proof.
  induction args as [|a args IH]; intros av sf sl si so sw ff n w Ha Hl; cbn [parse_args].
  { by rewrite app_nil_r. }
  inversion Ha as [|? ? Hf Ha']; subst.
  rewrite !Hf by (simpl; tauto). unfold __add_arg, mbind, M_bind.
  destruct (Z.eqb_spec (Z.of_nat (length av)) 1024); simpl in Hl; [lia|].
  cbn [mret M_ret]. rewrite IH; [|done|rewrite length_app; simpl; lia].
  by rewrite <- app_assoc.
Qed.

End InitSpec.

(** ** A sample engine *)

Definition sample_stat : stat64 := mkStat 1 42 33188 1 0 0 0 0 4096 8 0 0 0.

Definition sample_sys (q : sysreq) (o : unit) : outcome (sysres * unit) :=
  Ret (match q with
   | SysMalloc _ => mkRes 4096 0 [] None
   | KleeMakeSymbolic _ n =>
       mkRes 0 0 (if n =? 4 then [1; 0; 0; 0] else replicate (Z.to_nat n) 65) None
   | KleeMakeSymbolicStat _ => mkRes 0 0 [] (Some sample_stat)
   | SysStat _ => mkRes 0 0 [] (Some sample_stat)
   | _ => mkRes (-1) ENOENT [] None
   end, o).

#[global] Instance sample_engine : Engine sample_sys.
Proof.
  split; simpl.
  - intros q o. by eexists _, _.
  - intros n o r o' [= <- <-]. simpl. lia.
  - intros name n o r o' Hn [= <- <-]. simpl. destruct (Z.eqb_spec n 4) as [->|_].
    + split; [done|]. by repeat constructor.
    + rewrite length_replicate. split; [lia|]. by apply Forall_replicate.
Qed.

Lemma sample_stats_feasible : stats_feasible sample_sys.
Proof. intros name o r o' [= <- <-]. exists sample_stat. split_and!; [done|by vm_compute|by vm_compute]. Qed.

Definition world0 : world unit := mkWorld __exe_fs __exe_env (mkCounters 0 0 0 0 0 0 0) 0 tt.

(** The state after initialisation with the options [argv]. *)
Definition sample_init (argv : list string) : world unit :=
  match klee_init_env sample_sys (bytes <$> argv) world0 with
  | Ret (_, w) => w
  | Stop _ => world0
  end.

(** Run a list of calls. *)
Fixpoint run (cs : list call) (w : world unit) : outcome (world unit) :=
  match cs with
  | [] => Ret w
  | c :: cs' => match exec sample_sys c w with Ret (_, w') => run cs' w' | Stop e => Stop e end
  end.

Lemma run_reachable cs : forall w w',
  Forall wf_call cs -> run cs w = Ret w' -> reachable sample_sys w w'.
Proof.
  induction cs as [|c cs IH]; intros w w' Hc Hr; simpl in Hr.
  { injection Hr as ->. apply rtc_refl. }
  inversion Hc; subst. destruct (exec sample_sys c w) as [[r w1]|] eqn:E; [|done].
  eapply rtc_l; [by econstructor|]. by apply IH.
Qed.

(** The failures seen by a list of calls. *)
Fixpoint run_failures (cs : list call) (w : world unit) : Z :=
  match cs with
  | [] => 0
  | c :: cs' =>
      match exec sample_sys c w with
      | Ret (r, w') => (if injected w c r w' then 1 else 0) + run_failures cs' w'
      | Stop _ => 0
      end
  end.

Lemma run_runs cs : forall w w',
  Forall wf_call cs -> run cs w = Ret w' -> runs sample_sys w (run_failures cs w) w'.
Proof.
  induction cs as [|c cs IH]; intros w w' Hc Hr; simpl in Hr.
  { injection Hr as ->. constructor. }
  inversion Hc; subst. simpl. destruct (exec sample_sys c w) as [[r w1]|] eqn:E; [|done].
  eapply runs_call; [done|done|]. by apply IH.
Qed.

(** ** Properties *)

(** C34: [klee_init_fds] from the statically initialised state, whatever values
    the symbolic [struct stat]s get.  When it returns, it leaves a well-formed
    state: the requested number of files of the requested size, each visible
    (with an inode number that is not 0) and with its size in its [struct
    stat], standard input and output replaced exactly when asked for, and the
    requested failure budget.  The only way not to return is a path that is cut
    off because its values contradict an assumption on a [struct stat], so that
    on a path whose values do not contradict one the call returns. *)
Theorem init_fds_establishes {OS} (sys : kernel OS) `{!Engine sys}
    (w : world OS) n len in_len out saw mf :
  initial w -> 0 <= n -> (n = 0 \/ 0 < len < 2 ^ 32) -> 0 <= in_len < 2 ^ 32 ->
  0 <= mf < 2 ^ 32 ->
  (forall w', klee_init_fds sys n len in_len out saw mf w = Ret (tt, w') ->
     init_post n len in_len out saw mf w') /\
  (forall e, klee_init_fds sys n len in_len out saw mf w = Stop e -> e = Infeasible) /\
  (stats_feasible sys -> exists w', klee_init_fds sys n len in_len out saw mf w = Ret (tt, w')).
Proof.
  intros Hw Hn Hlen Hin Hmf.
  pose proof (wp_klee_init_fds sys n len in_len out saw mf w Hw Hn Hlen Hin Hmf) as H.
  unfold wp in H. destruct (klee_init_fds _ _ _ _ _ _ _ w) as [[[] w']|e].
  - split_and!; [by intros ? [= <-]|done|by exists w'].
  - destruct H as [-> Hs]. split_and!; [done|by intros ? [= <-]|done].
Qed.

Lemma init_fds_establishes_witness :
  exists w', klee_init_fds sample_sys 2 16 8 1 0 3 world0 = Ret (tt, w') /\
    init_post 2 16 8 1 0 3 w'.
Proof.
  destruct (init_fds_establishes sample_sys world0 2 16 8 1 0 3) as (Hpost & _ & Hret); try lia; [by split|].
  destruct (Hret sample_stats_feasible) as [w' Hw']. exists w'. split; [exact Hw'|by apply Hpost].
Defined.

(** C1: the runtime from the command line on.  Let [o] be the options parsed
    from the arguments, and [n] the number of calls of any sequence of calls
    after [klee_init_env] that fail with [EIO] by injection, as the program
    can tell: a [close], or a [read] or [write] of a symbolic file.  Then the
    program gets the at most 1024 arguments of [o]; the state reached is
    well-formed for the files and streams of [o]; no symbolic file has changed
    its size, and a removed one stays removed; and the failures seen and the
    budget left are together at most the budget that [o] asks for. *)
Theorem runtime_invariant {OS} (sys : kernel OS) `{!Engine sys}
    argv (w : world OS) av w1 n w2 :
  initial w -> klee_init_env sys argv w = Ret (av, w1) -> runs sys w1 n w2 ->
  exists o wo, parse_args sys argv opts0 w = Ret (o, wo) /\ new_argv o = av /\ opts_ok o /\
    wf (init_shape (o_sym_files o) (o_sym_file_len o) (o_sym_stdin_len o)
          (o_sym_stdout o)) w2 /\ evolves w1 w2 /\
    0 <= max_failures (w_fs w2) /\ n + max_failures (w_fs w2) <= u32 (o_fd_fail o).
Proof.
  intros Hw E Hr. destruct (klee_init_env_post sys argv w av w1 Hw E)
    as (o & wo & Hp & Hav & Ho & [Hwf _ Hb _]).
  destruct (runs_budget sys _ w1 n w2 Hwf Hr) as (Hwf2 & Hev & Hn).
  exists o, wo. rewrite <- Hb. split_and!; try done. apply Hwf2.
Qed.

Definition sample_argv : list string :=
  ["prog"; "--sym-files"; "1"; "4"; "--sym-stdout"; "--max-fail"; "1"]%string.

Definition sample_calls : list call :=
  [COpen (Some (bytes "A")) O_RDONLY 0; CRead 3 (Some [0; 0; 0]) 3;
   CWrite 1 (Some [104; 105]) 2; CUnlink (Some (bytes "A")); CClose 3].

(** The first read is the one to fail. *)
Lemma sample_failures : run_failures sample_calls (sample_init sample_argv) = 1.
Proof. vm_compute. reflexivity. Qed.

Lemma sample_budget_option o wo :
  parse_args sample_sys (bytes <$> sample_argv) opts0 world0 = Ret (o, wo) -> u32 (o_fd_fail o) = 1.
Proof.
  intros E. assert (match parse_args sample_sys (bytes <$> sample_argv) opts0 world0 with
    | Ret (o, _) => u32 (o_fd_fail o) | Stop _ => 0 end = 1) as H by (vm_compute; reflexivity).
  rewrite E in H. exact H.
Qed.

Lemma spent_budget n b m : n = 1 -> m = 1 -> n + b <= m -> b <= 0.
Proof. lia. Qed.

Lemma runtime_invariant_witness :
  exists o wo, parse_args sample_sys (bytes <$> sample_argv) opts0 world0 = Ret (o, wo) /\
    u32 (o_fd_fail o) = 1 /\ run_failures sample_calls (sample_init sample_argv) = 1 /\
    max_failures (w_fs (match run sample_calls (sample_init sample_argv) with
       | Ret w => w | Stop _ => world0 end)) <= 0.
Proof.
  destruct (runtime_invariant sample_sys (bytes <$> sample_argv) world0
    [bytes "prog"] (sample_init sample_argv) (run_failures sample_calls (sample_init sample_argv))
    (match run sample_calls (sample_init sample_argv) with Ret w => w | Stop _ => world0 end))
    as (o & wo & Hp & _ & _ & _ & _ & _ & Hn).
  - by split.
  - vm_compute. reflexivity.
  - apply (run_runs sample_calls); [repeat constructor|]. vm_compute. reflexivity.
  - pose proof (sample_budget_option o wo Hp) as Ho.
    exists o, wo. exact (conj Hp (conj Ho (conj sample_failures (spent_budget _ _ _ sample_failures Ho Hn)))).
Defined.

(** A command line without runtime options reaches the program
    unchanged, and asks for no symbolic file, stream or failure. *)
Theorem plain_command_line {OS} (sys : kernel OS) argv (w : world OS) :
  Forall (fun a => forall f, In f ["sym-arg"; "sym-args"; "sym-files"; "sym-stdin";
     "sym-stdout"; "save-all-writes"; "fd-fail"; "bout-file"; "max-fail"]%string ->
     flag2 a f = false) argv ->
  (length argv <= 1024)%nat ->
  parse_args sys argv opts0 w = Ret (mkOpts argv 0 0 0 0 0 0 0, w).
Proof. intros Ha Hl. by apply (parse_args_plain sys argv [] 0 0 0 0 0 0 0 w). Qed.

Lemma plain_command_line_witness :
  parse_args sample_sys [bytes "ls"; bytes "-l"] opts0 world0
  = Ret (mkOpts [bytes "ls"; bytes "-l"] 0 0 0 0 0 0 0, world0).
Proof.
  apply (plain_command_line sample_sys); [|simpl; lia].
  repeat constructor; intros f Hf; simpl in Hf; intuition (subst; vm_compute; reflexivity).
Defined.
