(* ===== verification/KleeReplay.v ===== *)
(** * Replaying a test with klee-replay

    Models the engine functions that [src/vital-src/tools/klee-replay/klee-replay.c]
    defines for the code it shares with the runtime: the tool is linked with
    [klee_init_env.c] and [fd_init.c], so it parses the command line of the test
    and sets up the symbolic files with the same code ([PosixInit]), while
    [klee_make_symbolic] takes the bytes from the test instead of the solver.
    The decoding of a child's exit status is here too.

    The main theorem relates two runs of that code: one in the engine, which
    records the bytes of every symbolic object, and one in the tool on the
    recorded test, possibly on another machine. *)

From S2P Require Import Prelude PosixState PosixFd PosixInit.
Import Fd Init.

Module KleeReplay.

(** ** The test *)

(** A [KTestObject]; the tool does not look at its name. *)
Record KTestObject := mkObject { o_bytes : list Z }.
Definition numBytes (o : KTestObject) : Z := Z.of_nat (length (o_bytes o)).

(** [struct stat64] read from its 144 bytes. *)
Definition sizeof_stat64 : Z := 144.
Definition field (o n : nat) (b : list Z) : Z := le_val (take n (drop o b)).
Definition decode_stat (b : list Z) : stat64 :=
  mkStat (field 0 8 b) (field 8 8 b) (field 24 4 b) (field 16 8 b) (field 28 4 b)
    (field 32 4 b) (field 40 8 b) (s64 (field 48 8 b)) (s64 (field 56 8 b))
    (s64 (field 64 8 b)) (s64 (field 72 8 b)) (s64 (field 88 8 b)) (s64 (field 104 8 b)).

Section Tool.
Context {OS : Type} (host : kernel OS).

(** The static variables [input] and [obj_index], beside the host system. *)
Record tool := mkTool { t_os : OS; input : list KTestObject; obj_index : Z }.

(** Prints the message and exits with status 1. *)
Definition __emit_error {A} (msg : string) : outcome A := Stop (KleeError msg).

Definition klee_make_symbolic (nbytes : Z) (t : tool) : outcome (list Z * tool) :=
  if Z.of_nat (length (input t)) <=? obj_index t
  then __emit_error "ran out of appropriate inputs"
  else
    boo ← of_option MemError (input t !! Z.to_nat (obj_index t));
    if negb (numBytes boo =? nbytes) then Stop (SilentExit 1)
    else Ret (o_bytes boo, mkTool (t_os t) (input t) (u32 (obj_index t + 1))).

Definition klee_is_symbolic (x : Z) : Z := 0.

(** The environment of the shared code in the tool. *)
Definition replay_kernel : kernel tool := fun q t =>
  match q with
  | KleeMakeSymbolic _ n =>
      '(b, t) ← klee_make_symbolic n t; Ret (mkRes 0 0 b None, t)
  | KleeMakeSymbolicStat _ =>
      '(b, t) ← klee_make_symbolic sizeof_stat64 t;
      Ret (mkRes 0 0 b (Some (decode_stat b)), t)
  | KleeIsSymbolic x => Ret (mkRes (klee_is_symbolic x) 0 [] None, t)
  | _ =>
      '(r, o) ← host q (t_os t);
      Ret (r, mkTool o (input t) (obj_index t))
  end.

(** The tool's own versions of two intrinsics: a range is checked instead of
    assumed, and a false assumption is only reported. *)
Definition klee_assume (x : Z) : M tool Z := mret 0.

Definition klee_range (start end_ : Z) (name : list Z) : M tool Z :=
  if end_ <=? start then halt (SilentExit 1) else
  if s32 (start + 1) =? end_ then mret start else
  r ← make_symbolic_int replay_kernel name;
  if (r <? start) || (end_ <=? r) then halt (SilentExit 1) else mret r.
End Tool.

Arguments tool : clear implicits.

(** ** The exit status of the monitored program *)

Definition WTERMSIG (status : Z) : Z := Z.land status 127.
Definition WIFEXITED (status : Z) : bool := WTERMSIG status =? 0.
Definition WIFSIGNALED (status : Z) : bool :=
  0 <? Z.shiftr (s8 (WTERMSIG status + 1)) 1.
Definition WEXITSTATUS (status : Z) : Z := Z.shiftr (Z.land status 65280) 8.

(** The status [process_status] exits with. *)
Definition process_status (status : Z) : Z :=
  if WIFSIGNALED status then 77
  else if WIFEXITED status then WEXITSTATUS status
  else 0.

(** ** Recording

    The engine on one path: a fresh symbolic object has the bytes [choose]
    gives it, and the test of the path holds them in order of creation. *)
Section Recorder.
Context {OS E : Type} (sys : kernel OS) (choose : list Z -> Z -> E -> list Z * E).

Record recorder := mkRecorder { r_os : OS; r_engine : E; r_log : list KTestObject }.

(** A size that is negative as a [long] is larger than any memory object. *)
Definition record_object (name : list Z) (n : Z) (r : recorder)
    : outcome (list Z * recorder) :=
  if n <? 0 then Stop MemError else
  let '(b, e) := choose name n (r_engine r) in
  Ret (b, mkRecorder (r_os r) e (r_log r ++ [mkObject b])).

Definition record_kernel : kernel recorder := fun q r =>
  match q with
  | KleeMakeSymbolic name n =>
      '(b, r) ← record_object name n r; Ret (mkRes 0 0 b None, r)
  | KleeMakeSymbolicStat name =>
      '(b, r) ← record_object name sizeof_stat64 r;
      Ret (mkRes 0 0 b (Some (decode_stat b)), r)
  | KleeIsSymbolic _ => Ret (mkRes 1 0 [] None, r)
  | _ =>
      '(x, o) ← sys q (r_os r);
      Ret (x, mkRecorder o (r_engine r) (r_log r))
  end.
End Recorder.

Arguments recorder : clear implicits.

(** ** Following a recorded run *)

(** What the tool needs from its host: memory, and some answer to [stat]. *)
Class Host {OS : Type} (host : kernel OS) : Prop := {
  host_malloc : forall n o, exists r o', host (SysMalloc n) o = Ret (r, o') /\ sr_ret r <> 0;
  host_stat : forall p o, exists r o', host (SysStat p) o = Ret (r, o') }.

(** What the recorder needs from the engine: objects of the size asked for. *)
Class Chooser {E : Type} (choose : list Z -> Z -> E -> list Z * E) : Prop :=
  chooser_length : forall name n e, 0 <= n -> Z.of_nat (length (choose name n e).1) = n.

Section Follows.
Context {OS E OS2 : Type} (sys : kernel OS) (choose : list Z -> Z -> E -> list Z * E)
  (host : kernel OS2) `{!Chooser choose} `{!Host host}.

Abbreviation rec := (record_kernel sys choose).
Abbreviation rep := (replay_kernel host).
Abbreviation log w := (r_log (w_os w)).

(** The tool is at the point of the recorded run [w1], on the test [full]. *)
Definition at_point (full : list KTestObject) (w1 : world (recorder OS E))
    (w2 : world (tool OS2)) : Prop :=
  w_fs w1 = w_fs w2 /\ w_env w1 = w_env w2 /\ w_calls w1 = w_calls w2 /\
  input (w_os w2) = full /\ obj_index (w_os w2) = Z.of_nat (length (log w1)).

(** Whenever [m1] returns in the recorder, [m2] returns a related value in the
    tool on every test that starts with what was recorded. *)
Definition follows {A B} (R : A -> B -> Prop) (m1 : M (recorder OS E) A)
    (m2 : M (tool OS2) B) : Prop :=
  forall w1 a w1', m1 w1 = Ret (a, w1') ->
  log w1 `prefix_of` log w1' /\
    forall full w2, at_point full w1 w2 -> log w1' `prefix_of` full ->
      Z.of_nat (length full) < 2 ^ 32 ->
      exists b w2', m2 w2 = Ret (b, w2') /\ R a b /\ at_point full w1' w2'.

Lemma follows_ret {A B} (R : A -> B -> Prop) a b : R a b -> follows R (mret a) (mret b).
Proof.
  intros HR w1 a' w1' [= <- <-]. split; [done|].
  intros full w2 Hat _ _. by exists b, w2.
Qed.

Lemma follows_halt {A B} (R : A -> B -> Prop) e m2 : follows R (halt e) m2.
Proof. by intros w1 a w1' [=]. Qed.

Lemma follows_bind {A B A' B'} (R : A -> B -> Prop) (S : A' -> B' -> Prop) m1 m2 k1 k2 :
  (forall a, exists b, R a b) ->
  follows R m1 m2 -> (forall a b, R a b -> follows S (k1 a) (k2 b)) ->
  follows S (m1 ≫= k1) (m2 ≫= k2).
Proof.
  intros HR Hm Hk w1 a' w1'. unfold mbind, M_bind.
  destruct (m1 w1) as [[a w]|] eqn:E1; [|done].
  intros E2. destruct (Hm _ _ _ E1) as [P1 H1]. destruct (HR a) as [b0 Hb0].
  destruct (Hk a b0 Hb0 _ _ _ E2) as [P2 _]. split; [by etransitivity|].
  intros full w2 Hat Hp Hl.
  destruct (H1 full w2 Hat) as (b&w2'&->&Hab&Hat'); [by etransitivity|done|].
  by apply (Hk a b Hab _ _ _ E2).
Qed.

Lemma follows_bind_eq {A A' B'} (S : A' -> B' -> Prop) (m1 : M _ A) m2 k1 k2 :
  follows eq m1 m2 -> (forall a, follows S (k1 a) (k2 a)) -> follows S (m1 ≫= k1) (m2 ≫= k2).
Proof.
  intros Hm Hk. apply (follows_bind eq); [by eexists|done|]. intros a _ <-. apply Hk.
Qed.

(** Steps that do not concern the environment. *)
Lemma follows_gets {A} (f : exe_file_system_t -> exe_sym_env_t -> A) :
  follows eq (gets (fun w => f (w_fs w) (w_env w))) (gets (fun w => f (w_fs w) (w_env w))).
Proof.
  intros w1 a w1' [= <- <-]. split; [done|]. intros full w2 Hat _ _.
  exists (f (w_fs w1) (w_env w1)), w2. pose proof Hat as (E1&E2&_).
  unfold gets. rewrite E1, E2. by split_and!.
Qed.

Lemma follows_set_fs f : follows eq (modify (set_fs f)) (modify (set_fs f)).
Proof.
  intros w1 a w1' [= <- <-]. split; [done|]. intros full w2 (E1&E2&E3&E4&E5) _ _.
  exists tt. eexists. split_and!; [done..|]. unfold at_point. simpl. by rewrite E1.
Qed.

Lemma follows_set_env g : follows eq (modify (set_env g)) (modify (set_env g)).
Proof.
  intros w1 a w1' [= <- <-]. split; [done|]. intros full w2 (E1&E2&E3&E4&E5) _ _.
  exists tt. eexists. split_and!; [done..|]. unfold at_point. simpl. by rewrite E2.
Qed.

Lemma follows_get_entry i : follows eq (get_entry i) (get_entry i).
Proof.
  intros w1 a w1'. unfold get_entry. destruct (_ !! i) as [f|] eqn:Ef; [|done].
  intros [= <- <-]. split; [done|]. intros full w2 Hat _ _. exists f, w2.
  pose proof Hat as (E1&E2&_). rewrite <- E2, Ef. by split_and!.
Qed.

Lemma follows_deref d : follows eq (deref_df d) (deref_df d).
Proof.
  intros w1 a w1'. unfold deref_df. destruct (get_df _ _) as [x|] eqn:Ef; [|done].
  intros [= <- <-]. split; [done|]. intros full w2 Hat _ _. exists x, w2.
  pose proof Hat as (E1&E2&_). rewrite <- E1, Ef. by split_and!.
Qed.

(** ** Requests *)

(** Taking the next object of the test. *)
Lemma take_object full w1 w2 b n :
  at_point full w1 w2 -> log w1 ++ [mkObject b] `prefix_of` full ->
  Z.of_nat (length full) < 2 ^ 32 -> Z.of_nat (length b) = n ->
  klee_make_symbolic n (w_os w2)
  = Ret (b, mkTool (t_os (w_os w2)) full (Z.of_nat (length (log w1 ++ [mkObject b])))).
Proof.
  intros (_&_&_&Ei&Eo) [rest ->] Hl Hb. unfold klee_make_symbolic. rewrite Ei, Eo.
  rewrite !length_app in *. simpl in Hl.
  destruct (Z.leb_spec (Z.of_nat (length (log w1) + length [mkObject b] + length rest))
    (Z.of_nat (length (log w1)))); [simpl in *; lia|].
  rewrite Nat2Z.id, lookup_app_l by (rewrite length_app; simpl; lia).
  rewrite lookup_app_r, Nat.sub_diag by lia. cbn -[Z.eqb].
  unfold numBytes. cbn [o_bytes]. destruct (Z.eqb_spec (Z.of_nat (length b)) n); [|lia].
  unfold mbind, outcome_bind. cbn [negb]. do 3 f_equal.
  unfold u32. rewrite wrapU_small; simpl; lia.
Qed.

Lemma follows_symbolic name n :
  follows eq (Init.klee_make_symbolic rec name n) (Init.klee_make_symbolic rep name n).
Proof.
  intros w1 a w1'. unfold Init.klee_make_symbolic, syscall, mbind, M_bind.
  cbn [record_kernel]. unfold record_object. destruct (Z.ltb_spec n 0); [done|].
  destruct (choose name n (r_engine (w_os w1))) as [b e] eqn:Ec.
  intros [= <- <-]. split; [by eexists|]. intros full w2 Hat Hp Hl.
  pose proof (chooser_length name n (r_engine (w_os w1)) ltac:(lia)) as Hb. rewrite Ec in Hb.
  pose proof (take_object full w1 w2 b n Hat Hp Hl Hb) as Ht.
  destruct Hat as (E1&E2&E3&E4&E5). cbn [replay_kernel]. rewrite Ht.
  eexists _, _. split; [reflexivity|]. by split_and!.
Qed.

Lemma follows_stat_object {A B} (S : A -> B -> Prop) name k1 k2 :
  (forall b, let r := mkRes 0 0 b (Some (decode_stat b)) in follows S (k1 r) (k2 r)) ->
  follows S (syscall rec (KleeMakeSymbolicStat name) ≫= k1)
            (syscall rep (KleeMakeSymbolicStat name) ≫= k2).
Proof.
  intros Hk w1 a w1'. unfold syscall, mbind, M_bind. cbn [record_kernel].
  unfold record_object. change (sizeof_stat64 <? 0) with false. cbv iota.
  destruct (choose name sizeof_stat64 (r_engine (w_os w1))) as [b e] eqn:Ec.
  intros H1. destruct (Hk b _ _ _ H1) as [P1 H2]. simpl in P1.
  split; [etransitivity; [|exact P1]; by eexists|]. intros full w2 Hat Hp Hl.
  pose proof (chooser_length name sizeof_stat64 (r_engine (w_os w1)) ltac:(done)) as Hb.
  rewrite Ec in Hb.
  assert (log w1 ++ [mkObject b] `prefix_of` full) as Hp' by (by etransitivity).
  pose proof (take_object full w1 w2 b sizeof_stat64 Hat Hp' Hl Hb) as Ht.
  destruct Hat as (E1&E2&E3&E4&E5). cbn [replay_kernel]. rewrite Ht.
  apply (H2 full); [|done..]. by split_and!.
Qed.

(** In the engine the inode of a fresh object is symbolic, in the tool nothing
    is. *)
Lemma follows_is_symbolic {A B} (S : A -> B -> Prop) x k1 k2 :
  follows S (k1 (mkRes 1 0 [] None)) (k2 (mkRes 0 0 [] None)) ->
  follows S (syscall rec (KleeIsSymbolic x) ≫= k1) (syscall rep (KleeIsSymbolic x) ≫= k2).
Proof.
  intros Hk w1 a w1' H1. destruct (Hk _ _ _ H1) as [P1 H2]. split; [done|].
  intros full w2 Hat Hp Hl. by apply (H2 full).
Qed.

(** A request both sides pass on to their own system, whatever the answers. *)
Lemma follows_os (R : sysres -> sysres -> Prop) q :
  (forall r, rec q r = ('(x, o) ← sys q (r_os r); Ret (x, mkRecorder o (r_engine r) (r_log r)))) ->
  (forall t, rep q t = ('(x, o) ← host q (t_os t); Ret (x, mkTool o (input t) (obj_index t)))) ->
  (forall a o, exists b o', host q o = Ret (b, o') /\ R a b) ->
  follows R (syscall rec q) (syscall rep q).
Proof.
  intros H1 H2 HR w1 a w1'. unfold syscall. rewrite H1.
  destruct (sys q (r_os (w_os w1))) as [[x o]|]; [|done].
  intros [= <- <-]. split; [by destruct (_ =? _)|]. intros full w2 (E1&E2&E3&E4&E5) _ _.
  rewrite H2. destruct (HR x (t_os (w_os w2))) as (b&o'&Hb&Hr). rewrite Hb.
  eexists _, _. split; [reflexivity|]. split; [done|].
  do 2 destruct (_ =? _); by split_and!.
Qed.

Lemma follows_request_malloc {A B} (S : A -> B -> Prop) n k1 k2 :
  (forall a b, (sr_ret b =? 0) = false -> follows S (k1 a) (k2 b)) ->
  follows S (syscall rec (SysMalloc n) ≫= k1) (syscall rep (SysMalloc n) ≫= k2).
Proof.
  intros Hk. apply (follows_bind (fun _ b => (sr_ret b =? 0) = false)); [|..|done].
  - intros _. by exists (mkRes 1 0 [] None).
  - apply follows_os; [done..|]. intros _ o.
    destruct (host_malloc n o) as (b&o'&?&?%Z.eqb_neq). eauto.
Qed.

Lemma follows_malloc n : follows eq (malloc_or_die rec n) (malloc_or_die rep n).
Proof.
  apply follows_request_malloc. intros a b ->.
  destruct (sr_ret a =? 0); [apply follows_halt|]. by apply follows_ret.
Qed.

Lemma follows_assume b : follows eq (Init.klee_assume b) (Init.klee_assume b).
Proof. destruct b; [by apply follows_ret|apply follows_halt]. Qed.

Lemma follows_error {A} msg (m2 : M _ A) : follows eq (Init.klee_report_error msg) m2.
Proof. apply follows_halt. Qed.

Lemma follows_eq_ret {A} (a : A) : follows eq (mret a) (mret a).
Proof. by apply follows_ret. Qed.

Create HintDb replay discriminated.
#[local] Hint Resolve follows_symbolic follows_malloc follows_assume
  follows_error follows_eq_ret follows_get_entry follows_deref follows_set_fs
  follows_set_env : replay.
#[local] Hint Extern 1 (follows _ (halt _) _) => apply follows_halt : replay.

(** One step of two runs of the same code. *)
Ltac follow_step :=
  match goal with
  | |- follows _ (syscall _ (KleeMakeSymbolicStat _) ≫= _) _ =>
      apply follows_stat_object; intros
  | |- follows _ (syscall _ (KleeIsSymbolic _) ≫= _) _ => apply follows_is_symbolic
  | |- follows _ (?m1 ≫= _) (?m2 ≫= _) => apply follows_bind_eq; [|intros]
  | |- follows _ (if ?b then _ else _) (if ?b then _ else _) => destruct b eqn:?
  | |- follows _ (match ?b with _ => _ end) (match ?b with _ => _ end) => destruct b eqn:?
  | _ => solve [eauto 2 with replay]
  end.
Ltac follow := repeat (cbv beta zeta; follow_step).

Lemma follows_new_dfile n name d1 d2 :
  follows eq (__create_new_dfile rec n name d1) (__create_new_dfile rep n name d2).
Proof.
  unfold __create_new_dfile. do 5 (apply follows_bind_eq; [follow|intros]).
  apply follows_stat_object. intros b r. subst r. apply follows_is_symbolic.
  cbn [sr_ret sr_stat default Z.eqb andb from_option id]. set (s := decode_stat b).
  destruct (Z.land (st_ino s) 2147483647 =? 0) eqn:Ei; cbn [negb Init.klee_assume].
  - by intros ? ? ? [=].
  - rewrite Ei. follow.
Qed.

Lemma follows_create_files k : forall i len d1 d2,
  follows eq (create_files rec k i len d1) (create_files rep k i len d2).
Proof.
  induction k as [|k IH]; intros i len d1 d2; cbn [create_files]; [follow|].
  apply follows_bind_eq; [apply follows_new_dfile|intros]. follow.
Qed.

(** ** The shared code *)

Lemma follows_range a b name : follows eq (Init.klee_range rec a b name) (Init.klee_range rep a b name).
Proof. unfold Init.klee_range, make_symbolic_int. follow. Qed.

Lemma follows_make_fail name : follows eq (make_fail rec name) (make_fail rep name).
Proof. unfold make_fail, make_symbolic_int. follow. Qed.

Lemma follows_set_fd_dfile i d : follows eq (set_fd_dfile i d) (set_fd_dfile i d).
Proof. unfold set_fd_dfile, set_dfile, put_file. follow. Qed.

Lemma follows_init_files n len s1 s2 :
  follows eq (init_files rec n len s1) (init_files rep n len s2).
Proof.
  apply follows_request_malloc. intros a b Hb. rewrite Hb, andb_false_r.
  apply follows_bind_eq; [destruct (_ && _); follow|intros].
  apply follows_bind_eq; [apply follows_create_files|intros].
  unfold put_files. follow.
Qed.

Lemma follows_init_stdin n s1 s2 : follows eq (init_stdin rec n s1) (init_stdin rep n s2).
Proof.
  unfold init_stdin, put_stdin. destruct (nz n); [|follow]. follow_step; [follow|].
  apply follows_bind_eq; [apply follows_new_dfile|intros].
  follow. apply follows_set_fd_dfile.
Qed.

Lemma follows_init_stdout n s1 s2 : follows eq (init_stdout rec n s1) (init_stdout rep n s2).
Proof.
  unfold init_stdout, put_stdout, put_stdout_writes. destruct (nz n); [|follow].
  follow_step; [follow|].
  apply follows_bind_eq; [apply follows_new_dfile|intros].
  follow. apply follows_set_fd_dfile.
Qed.

#[local] Hint Resolve follows_range follows_make_fail follows_set_fd_dfile
  follows_init_files follows_init_stdin follows_init_stdout : replay.

Lemma follows_init_failures n : follows eq (init_failures rec n) (init_failures rep n).
Proof.
  unfold init_failures, put_max_failures, put_fails. follow_step; [follow|].
  destruct (nz n); [|follow].
  do 5 (apply follows_request_malloc; intros ? ? ?).
  apply follows_bind_eq; [|intros; follow]. cbn [existsb].
  repeat match goal with Hb : (sr_ret _ =? 0) = false |- _ => rewrite Hb; clear Hb end.
  destruct (_ || _); follow.
Qed.

(** The status of the current directory may differ between the machines. *)
Lemma follows_stat_dot :
  follows (fun _ _ => True) (stat_ rec (Some (bytes "."))) (stat_ rep (Some (bytes "."))).
Proof.
  apply (follows_bind eq); [by eexists| |].
  - change (follows eq (fs ← gets w_fs;
      match find_sym fs 46 (Z.to_nat (n_sym_files fs)) 0 with
      | Ret d => mret d | Stop e => halt e end)
      (fs ← gets w_fs;
      match find_sym fs 46 (Z.to_nat (n_sym_files fs)) 0 with
      | Ret d => mret d | Stop e => halt e end)).
    apply follows_bind_eq; [apply (follows_gets (fun fs _ => fs))|intros]. follow.
  - intros [d|] _ <-.
    + apply (follows_bind eq); [by eexists|apply follows_deref|]. intros. by apply follows_ret.
    + apply (follows_bind eq); [by eexists|by apply follows_ret|]. intros p _ <-.
      apply (follows_bind (fun _ _ => True)); [by eexists| |intros; by apply follows_ret].
      apply follows_os; [done..|]. intros _ o.
      destruct (host_stat p o) as (b&o'&?). eauto.
Qed.

Lemma follows_init_fds n len i o s mf :
  follows eq (klee_init_fds rec n len i o s mf) (klee_init_fds rep n len i o s mf).
Proof.
  apply (follows_bind (fun _ _ => True)); [by eexists|apply follows_stat_dot|].
  intros a b _.
  do 4 (apply follows_bind_eq; [by eauto using follows_init_failures with replay|intros]).
  follow.
Qed.

Lemma follows_str_to_int s msg : follows eq (__str_to_int s msg) (__str_to_int s msg).
Proof.
  destruct s as [|c s]; [follow|]. unfold __str_to_int. generalize (c :: s), 0.
  clear c s. intros s. induction s as [|c s IH]; intros x; cbn [str_to_int_loop]; follow.
Qed.

Lemma follows_add_arg av a k : follows eq (__add_arg av a k) (__add_arg av a k).
Proof. unfold __add_arg. follow. Qed.

#[local] Hint Resolve follows_str_to_int follows_add_arg follows_init_fds : replay.

Lemma follows_sym_arg len o : follows eq (add_sym_arg rec len o) (add_sym_arg rep len o).
Proof. destruct o. unfold add_sym_arg, __get_sym_str. follow. Qed.

Lemma follows_sym_args k : forall len o,
  follows eq (add_sym_args rec k len o) (add_sym_args rep k len o).
Proof.
  induction k as [|k IH]; intros len o; cbn [add_sym_args]; [follow|].
  apply follows_bind_eq; [apply follows_sym_arg|intros; apply IH].
Qed.

#[local] Hint Resolve follows_sym_arg follows_sym_args : replay.

Lemma follows_parse_args k : forall args o, (length args <= k)%nat ->
  follows eq (parse_args rec args o) (parse_args rep args o).
Proof.
  induction k as [|k IH]; intros [|arg args] [av sf sl si so sw ff n] Hk;
    [by apply follows_ret|simpl in Hk; lia|by apply follows_ret|].
  cbn [parse_args]. follow; simpl in Hk; apply IH; simpl; lia.
Qed.

Lemma follows_init_env argv :
  follows eq (klee_init_env rec argv) (klee_init_env rep argv).
Proof.
  unfold klee_init_env. apply follows_bind_eq; [follow|intros].
  apply follows_bind_eq; [by apply (follows_parse_args (length argv))|intros]. follow.
Qed.

Lemma s32_range x : - 2 ^ 31 <= s32 x < 2 ^ 31.
Proof. apply (wrapS_range 32). lia. Qed.

(** Where the runtime's [klee_range] returns, so does the tool's. *)
Lemma range_agrees start end_ name (w : world (tool OS2)) x w' :
  - 2 ^ 31 <= start < 2 ^ 31 -> - 2 ^ 31 <= end_ < 2 ^ 31 ->
  Init.klee_range rep start end_ name w = Ret (x, w') ->
  klee_range host start end_ name w = Ret (x, w').
Proof.
  intros Hs He. unfold Init.klee_range, klee_range.
  destruct (Z.leb_spec end_ start); [done|]. destruct (_ =? _); [done|].
  unfold make_symbolic_int, mbind, M_bind.
  destruct (Init.klee_make_symbolic rep name 4 w) as [[b w2]|]; [|done].
  unfold mret, M_ret. cbv beta iota. pose proof (s32_range (le_val b)) as Hr.
  set (v := s32 (le_val b)) in *. unfold Init.klee_assume.
  destruct (Z.eqb_spec start 0) as [->|].
  - destruct (Z.ltb_spec (u32 v) (u32 end_)); [|done]. intros [= <- <-].
    assert (u32 end_ = end_) as Hu by (apply wrapU_small; simpl; lia).
    assert (0 <= v).
    { destruct (decide (0 <= v)); [done|]. exfalso.
      assert (u32 v = v + 2 ^ 32); [|simpl in *; lia].
      unfold u32, wrapU. rewrite <- (Z.mod_add v 1 (2 ^ 32)) by done.
      apply Z.mod_small. simpl in *; lia. }
    assert (u32 v = v) by (apply wrapU_small; simpl in *; lia).
    destruct (Z.ltb_spec v 0); [lia|]. destruct (Z.leb_spec end_ v); [lia|done].
  - destruct (Z.leb_spec start v); [|done]. destruct (Z.ltb_spec v end_); [|done].
    intros [= <- <-]. destruct (Z.ltb_spec v start); [lia|].
    destruct (Z.leb_spec end_ v); [lia|done].
Qed.

(** C35: a test recorded by the engine replays exactly: whenever the option
    parsing and the set-up of the symbolic files return on a path, running the
    same code in klee-replay on the recorded objects returns, on any host that
    has memory, with the same arguments, the same symbolic files, streams and
    failures and the same file table, having used every object of the test;
    and the tool's checked [klee_range] gives what the runtime's gives. *)
Theorem replay_reproduces_environment argv (w1 w1' : world (recorder OS E)) av
    (w2 : world (tool OS2)) :
  klee_init_env rec argv w1 = Ret (av, w1') ->
  r_log (w_os w1) = [] -> Z.of_nat (length (r_log (w_os w1'))) < 2 ^ 32 ->
  w_fs w2 = w_fs w1 -> w_env w2 = w_env w1 -> w_calls w2 = w_calls w1 ->
  input (w_os w2) = r_log (w_os w1') -> obj_index (w_os w2) = 0 ->
  (exists w2', klee_init_env rep argv w2 = Ret (av, w2') /\
     w_fs w2' = w_fs w1' /\ w_env w2' = w_env w1' /\
     obj_index (w_os w2') = Z.of_nat (length (input (w_os w2')))) /\
  (forall start end_ name w x w', - 2 ^ 31 <= start < 2 ^ 31 -> - 2 ^ 31 <= end_ < 2 ^ 31 ->
     Init.klee_range rep start end_ name w = Ret (x, w') ->
     klee_range host start end_ name w = Ret (x, w')).
Proof.
  intros Hr Hl Hlen E1 E2 E3 E4 E5. split; [|apply range_agrees].
  destruct (follows_init_env argv _ _ _ Hr) as [_ H].
  destruct (H (log w1') w2) as (b&w2'&Hb&<-&(F1&F2&_&F4&F5)); [|done..|].
  - split_and!; [done..|]. by rewrite Hl, E5.
  - exists w2'. by rewrite F4.
Qed.
End Follows.

(** ** Witness: one symbolic argument and one symbolic file *)

Definition plain_sys (q : sysreq) (o : unit) : outcome (sysres * unit) :=
  Ret (match q with
       | SysMalloc _ => mkRes 4096 0 [] None
       | _ => mkRes (-1) ENOENT [] None
       end, o).

#[global] Instance plain_host : Host plain_sys.
Proof. split; intros; [|eauto]. eexists _, _. split; [reflexivity|]. done. Qed.

(** A counter supplies the first eight bytes of an object. *)
Definition count_bytes (name : list Z) (n : Z) (e : Z) : list Z * Z :=
  (take (Z.to_nat n) (replicate 8 (u8 (1 + e)) ++ [1] ++ replicate (Z.to_nat n) 0), e + 1).

#[global] Instance count_chooser : Chooser count_bytes.
Proof.
  intros name n e Hn. unfold count_bytes. cbn [fst].
  rewrite length_take, !length_app, !length_replicate. lia.
Qed.

Definition sample_argv : list (list Z) :=
  bytes <$> ["prog"; "--sym-arg"; "3"; "--sym-files"; "1"; "8"]%string.

Definition rec_start : world (recorder unit Z) :=
  mkWorld __exe_fs __exe_env (mkCounters 0 0 0 0 0 0 0) 0 (mkRecorder tt 0 []).
Definition rec_run := klee_init_env (record_kernel plain_sys count_bytes) sample_argv rec_start.
Definition rec_end : world (recorder unit Z) :=
  match rec_run with Ret (_, w) => w | Stop _ => rec_start end.
Definition rep_start : world (tool unit) :=
  mkWorld __exe_fs __exe_env (mkCounters 0 0 0 0 0 0 0) 0 (mkTool tt (r_log (w_os rec_end)) 0).

Lemma rec_returns :
  klee_init_env (record_kernel plain_sys count_bytes) sample_argv rec_start
  = Ret ([bytes "prog"; [1; 1; 1]], rec_end).
Proof. vm_compute. reflexivity. Qed.

Lemma replay_reproduces_environment_witness :
  exists w2', klee_init_env (replay_kernel plain_sys) sample_argv rep_start
              = Ret ([bytes "prog"; [1; 1; 1]], w2') /\ w_fs w2' = w_fs rec_end.
Proof.
  destruct (replay_reproduces_environment plain_sys count_bytes plain_sys sample_argv
    rec_start rec_end [bytes "prog"; [1; 1; 1]] rep_start rec_returns eq_refl
    ltac:(vm_compute; reflexivity) eq_refl eq_refl eq_refl eq_refl eq_refl)
    as [(w2'&H1&H2&_) _].
  exists w2'. exact (conj H1 H2).
Defined.
End KleeReplay.
