(* ===== verification/PosixFdSpec.v ===== *)
(** * Functional behaviour of the file descriptor layer

    What the main calls of [fd.c] do on a symbolic file when no failure is
    injected, as equations on the whole state: the data transferred by [read]
    and [write], the offset, and nothing else; the allocation of descriptors;
    name lookup and removal; duplication.  The round-trip theorem composes
    them.  The error paths have their own theorems. *)

From S2P Require Import Prelude PosixState PosixFd PosixFdInv PosixCalls PosixInit PosixInitSpec.
Import Fd.

Section FdSpec.
Context {OS : Type} (sys : kernel OS).

Implicit Types w : world OS.

(** A descriptor that is open on a symbolic file. *)
Record sym_fd w (fd_ : Z) (f : exe_file_t) (d : dref) (x : exe_disk_file_t) : Prop := {
  sf_range : 0 <= fd_ < 32;
  sf_entry : fds (w_env w) !! Z.to_nat fd_ = Some f;
  sf_open : is_open f = true;
  sf_dfile : dfile f = Some d;
  sf_df : get_df (w_fs w) d = Some x;
  sf_size : 0 <= size x < 2 ^ 32;
  sf_len : Z.of_nat (length (contents x)) = size x }.

Definition no_failures w : Prop := max_failures (w_fs w) = 0.

(** The state with entry [i] replaced, and with file [d] replaced. *)
Definition upd_file (i : nat) (f : exe_file_t) w : world OS :=
  set_env (fun e => mkEnv (<[i := f]> (fds e)) (umask_ e) (save_all_writes e)) w.

Definition at_off (f : exe_file_t) (o : Z) : exe_file_t :=
  mkFile (fd f) (flags f) o (dfile f).

Lemma sym_fd_wf s w fd_ f d :
  wf s w -> 0 <= fd_ < 32 -> fds (w_env w) !! Z.to_nat fd_ = Some f ->
  is_open f = true -> dfile f = Some d -> exists x, sym_fd w fd_ f d x.
Proof.
  intros [Hfs He] Hr Hf Ho Hd.
  assert (wf_file s f) as Hwf by (eapply Forall_lookup_1; [apply He|done]).
  apply wf_file_parts in Hwf as (_ & _ & Hv). rewrite Hd in Hv. destruct Hv as [n Hn].
  destruct (get_df_valid s _ d n Hfs Hn) as (x & Hx & H1 & H2 & H3 & _).
  exists x. constructor; auto; congruence.
Qed.

(** ** Monad steps *)

Lemma run_get_file w fd_ f :
  0 <= fd_ < 32 -> fds (w_env w) !! Z.to_nat fd_ = Some f -> is_open f = true ->
  __get_file (OS:=OS) fd_ w = Ret (Some (Z.to_nat fd_), w).
Proof.
  intros Hr Hf Ho. unfold __get_file, get_entry, mbind, M_bind.
  destruct (Z.leb_spec 0 fd_); [|lia].
  change (Z.of_nat MAX_FDS) with 32. destruct (Z.ltb_spec fd_ 32); [|lia].
  simpl. by rewrite Hf, Ho.
Qed.

Lemma run_get_file_closed w fd_ :
  (forall f, 0 <= fd_ < 32 -> fds (w_env w) !! Z.to_nat fd_ = Some f -> is_open f = false) ->
  length (fds (w_env w)) = MAX_FDS ->
  __get_file (OS:=OS) fd_ w = Ret (None, w).
Proof.
  intros H Hl. unfold __get_file, get_entry, mbind, M_bind.
  change (Z.of_nat MAX_FDS) with 32. split_if; [|done]. to_prop.
  destruct (lookup_lt_is_Some_2 (fds (w_env w)) (Z.to_nat fd_)) as [f Hf].
  { rewrite Hl. unfold MAX_FDS in *. lia. }
  rewrite Hf. rewrite (H f); [done| |done]. unfold MAX_FDS in *. lia.
Qed.

Lemma run_bind {A B} (m : M OS A) (k : A -> M OS B) w a w' :
  m w = Ret (a, w') -> (m ≫= k) w = k a w'.
Proof. intros E. unfold mbind, M_bind. by rewrite E. Qed.

Lemma run_get_entry w i f : fds (w_env w) !! i = Some f -> get_entry i w = Ret (f, w).
Proof. intros E. unfold get_entry. by rewrite E. Qed.

Lemma run_deref w d x : get_df (w_fs w) d = Some x -> deref_df d w = Ret (x, w).
Proof. intros E. unfold deref_df. by rewrite E. Qed.

Lemma run_set_off w i f o :
  fds (w_env w) !! i = Some f -> set_off i o w = Ret (tt, upd_file i (at_off f o) w).
Proof. intros Hf. unfold set_off, get_entry, mbind, M_bind. by rewrite Hf. Qed.

Lemma run_inject_none {A} p n e (r : A) k w :
  no_failures w -> inject p n e r k w = k w.
Proof.
  intros H. unfold inject, mbind, M_bind, gets. unfold no_failures in H. by rewrite H.
Qed.

(** ** read *)

(** The bytes a read of [count] bytes at offset [o] returns. *)
Definition read_slice (c : list Z) (o count : Z) : list Z :=
  take (Z.to_nat count) (drop (Z.to_nat o) c).

Definition bump_read w : world OS :=
  set_calls (fun '(mkCounters a b c d e f g) => mkCounters a (s32 (b + 1)) c d e f g) w.

Lemma u64_small x : 0 <= x < 2 ^ 64 -> u64 x = x.
Proof. apply wrapU_small. Qed.

Lemma run_memcpy dst doff src soff n w :
  0 <= doff -> 0 <= soff -> 0 <= n -> doff + n <= Z.of_nat (length dst) ->
  soff + n <= Z.of_nat (length src) ->
  memcpy_at (OS:=OS) dst doff src soff n w
  = Ret (splice dst (Z.to_nat doff) (read_slice src soff n), w).
Proof.
  intros. unfold memcpy_at. destruct (Z.eqb_spec n 0) as [->|].
  { unfold read_slice. by rewrite take_0, splice_nil. }
  repeat (match goal with |- context [?a <=? ?b] => destruct (Z.leb_spec a b); [|lia] end).
  done.
Qed.

Lemma read_slice_clip c o count :
  0 <= o -> 0 <= count -> Z.of_nat (length c) <= o + count ->
  read_slice c o count = read_slice c o (Z.of_nat (length c) - o).
Proof.
  intros Ho Hc Hl. unfold read_slice. rewrite !take_ge; rewrite ?length_drop; lia || done.
Qed.

Lemma length_read_slice c o n :
  0 <= o -> 0 <= n -> o + n <= Z.of_nat (length c) ->
  Z.of_nat (length (read_slice c o n)) = n.
Proof. intros. unfold read_slice. rewrite length_take, length_drop. lia. Qed.

Lemma read_run w fd_ f d x b count :
  sym_fd w fd_ f d x -> no_failures w -> 0 <= off f < 2 ^ 62 ->
  0 < count <= Z.of_nat (length b) -> Z.of_nat (length b) < 2 ^ 62 ->
  let n := Z.min count (Z.max 0 (size x - off f)) in
  read sys fd_ (Some b) count w
  = Ret ((n, Some (splice b 0 (read_slice (contents x) (off f) n))),
         upd_file (Z.to_nat fd_) (at_off f (off f + n)) (bump_read w)).
Proof.
  intros [Hr Hf Ho Hd Hx Hs Hl] Hnf Hoff Hc Hb n.
  unfold read, bump, mbind, M_bind, modify, gets.
  destruct (Z.eqb_spec count 0); [lia|].
  fold (bump_read w). rewrite (run_get_file (bump_read w) fd_ f) by done.
  rewrite run_inject_none by done.
  change (get_entry (Z.to_nat fd_) (bump_read w)) with
    (match fds (w_env w) !! Z.to_nat fd_ with Some f => Ret (f, bump_read w)
     | None => Stop MemError end).
  rewrite Hf, Hd. destruct (Z.ltb_spec (off f) 0); [lia|].
  unfold deref_df. change (w_fs (bump_read w)) with (w_fs w). rewrite Hx.
  destruct (Z.ltb_spec (size x) (off f)) as [Hgt|Hle].
  - assert (n = 0) as -> by lia. unfold read_slice. rewrite take_0, splice_nil.
    f_equal. f_equal. unfold upd_file, set_env. rewrite Z.add_0_r.
    destruct w as [fs [fs' um sw] cs en os], f; simpl in *. unfold bump_read, at_off; simpl.
    unfold set_calls; simpl. by rewrite list_insert_id.
  - cbv zeta. rewrite (u64_small (off f + count)) by lia.
    rewrite (u64_small (size x - off f)) by lia.
    assert ((if size x <? off f + count then size x - off f else count) = n) as ->.
    { destruct (Z.ltb_spec (size x) (off f + count)); lia. }
    rewrite run_memcpy by lia. rewrite (run_set_off _ _ f) by done.
    rewrite !s64_small by lia. done.
Qed.

(** ** write *)

Definition bump_write w : world OS :=
  set_calls (fun '(mkCounters a b c d e f g) => mkCounters a b (s32 (c + 1)) d e f g) w.

(** The bytes of a write of [count] bytes at offset [o] that reach the file. *)
Definition stored (x : exe_disk_file_t) (o count : Z) : Z :=
  Z.min count (Z.max 0 (size x - o)).

Definition write_df (x : exe_disk_file_t) (o : Z) (b : list Z) (n : Z) : exe_disk_file_t :=
  mkDfile (size x) (splice (contents x) (Z.to_nat o) (read_slice b 0 n)) (stat x).

(** The output counter of symbolic standard output. *)
Definition upd_writes (d : dref) (n : Z) (fs : exe_file_system_t) : exe_file_system_t :=
  if bool_decide (d = DStdout) then
    let '(mkFs k i o sw sf mf a b c e f g h) := fs in
    mkFs k i o (u32 (sw + n)) sf mf a b c e f g h
  else fs.

Definition write_world (fd_ : Z) f d x b count w : world OS :=
  let n := stored x (off f) count in
  upd_file (Z.to_nat fd_) (at_off f (off f + count))
    (set_fs (fun fs => upd_writes d n (if nz n then fs_put_df d (write_df x (off f) b n) fs else fs))
       (bump_write w)).

Lemma run_write_actual w f x count saw :
  0 <= off f < 2 ^ 62 -> 0 <= count < 2 ^ 62 -> 0 <= size x < 2 ^ 32 ->
  saw = 0 \/ off f + count <= size x ->
  write_actual (OS:=OS) f x count saw w = Ret (stored x (off f) count, w).
Proof.
  intros Hoff Hc Hs Hsaw. unfold write_actual, stored.
  rewrite (u64_small (off f + count)) by lia.
  destruct (Z.leb_spec (off f + count) (size x)).
  { rewrite Z.min_l by lia. done. }
  destruct Hsaw as [->|]; [|lia]. simpl. destruct (Z.ltb_spec (off f) (size x)).
  - rewrite u64_small by lia. rewrite Z.min_r, Z.max_r by lia. done.
  - rewrite Z.max_l, Z.min_r by lia. done.
Qed.

Lemma run_write_store w d f x b n :
  get_df (w_fs w) d = Some x -> 0 <= off f -> 0 <= n <= Z.of_nat (length b) ->
  n = 0 \/ off f + n <= Z.of_nat (length (contents x)) ->
  write_store (OS:=OS) d f x (Some b) n w
  = Ret (tt, set_fs (fun fs => if nz n then fs_put_df d (write_df x (off f) b n) fs
                               else fs) w).
Proof.
  intros Hx Hoff Hb Hn. unfold write_store. destruct (nz n) eqn:En.
  - apply nz_true in En. erewrite run_bind by (apply run_memcpy; lia).
    unfold put_contents. by erewrite run_bind by (by apply run_deref).
  - by destruct w.
Qed.

Lemma run_write_count w d n :
  write_count (OS:=OS) d n w = Ret (tt, set_fs (upd_writes d n) w).
Proof.
  unfold write_count, upd_writes. case_bool_decide; [|by destruct w].
  destruct w as [[] ? ? ? ?]. done.
Qed.

Lemma write_run w fd_ f d x b count :
  sym_fd w fd_ f d x -> no_failures w -> 0 <= off f < 2 ^ 62 ->
  0 <= count <= Z.of_nat (length b) -> Z.of_nat (length b) < 2 ^ 62 ->
  save_all_writes (w_env w) = 0 \/ off f + count <= size x ->
  write sys fd_ (Some b) count w = Ret (count, write_world fd_ f d x b count w).
Proof.
  intros [Hr Hf Ho Hd Hx Hs Hl] Hnf Hoff Hc Hb Hsaw. unfold write.
  erewrite run_bind by reflexivity. fold (bump_write w).
  erewrite run_bind by (by apply (run_get_file (bump_write w) fd_ f)). cbv beta iota.
  rewrite run_inject_none by done.
  erewrite run_bind by (by apply (run_get_entry (bump_write w))). rewrite Hd.
  erewrite run_bind by (by apply (run_deref (bump_write w))).
  erewrite run_bind by reflexivity.
  erewrite run_bind by (apply run_write_actual; simpl; auto; lia).
  assert (stored x (off f) count = 0 \/
    0 < stored x (off f) count /\ off f + stored x (off f) count <= size x /\
    stored x (off f) count <= count) as Hn by (unfold stored; lia).
  erewrite run_bind by (apply run_write_store; simpl; auto; lia).
  erewrite run_bind by apply run_write_count.
  erewrite run_bind by (by apply run_set_off).
  rewrite !s64_small by lia. done.
Qed.

(** ** lseek *)

Lemma lseek_run w fd_ f d x o :
  sym_fd w fd_ f d x -> 0 <= o ->
  __fd_lseek sys fd_ o SEEK_SET w = Ret (o, upd_file (Z.to_nat fd_) (at_off f o) w).
Proof.
  intros [Hr Hf Ho Hd Hx Hs Hl] Hpos. unfold __fd_lseek.
  erewrite run_bind by (by apply (run_get_file w fd_ f)). cbv beta iota.
  erewrite run_bind by (by apply run_get_entry). rewrite Hd.
  erewrite run_bind by (by apply run_deref). simpl.
  destruct (Z.ltb_spec o 0); [lia|]. by erewrite run_bind by (by apply run_set_off).
Qed.

(** ** Following a descriptor through a write *)

Lemma get_upd_writes d n fs d' : get_df (upd_writes d n fs) d' = get_df fs d'.
Proof. unfold upd_writes. case_bool_decide; by destruct fs, d'. Qed.

Lemma upd_file_entry i f w g :
  fds (w_env w) !! i = Some g -> fds (w_env (upd_file i f w)) !! i = Some f.
Proof. intros H. apply list_lookup_insert_eq. by eapply lookup_lt_Some. Qed.

Lemma get_put_df w d x y :
  get_df (w_fs w) d = Some x -> get_df (w_fs (set_fs (fs_put_df d y) w)) d = Some y.
Proof.
  intros Hx. unfold set_fs. cbn [w_fs]. rewrite (get_fs_put_df _ _ _ _ _ Hx).
  by rewrite decide_True.
Qed.

Lemma write_sym_fd w fd_ f d x b count :
  sym_fd w fd_ f d x -> 0 <= off f -> 0 <= count <= Z.of_nat (length b) ->
  off f + count <= size x ->
  sym_fd (write_world fd_ f d x b count w) fd_ (at_off f (off f + count)) d
    (write_df x (off f) b count).
Proof.
  intros [Hr Hf Ho Hd Hx Hs Hl] Hoff Hc Hfit. unfold write_world.
  assert (stored x (off f) count = count) as -> by (unfold stored; lia).
  assert (length (read_slice b 0 count) = Z.to_nat count) as Hlen.
  { pose proof (length_read_slice b 0 count). lia. }
  constructor; try done.
  - by eapply upd_file_entry.
  - simpl. rewrite get_upd_writes. destruct (nz count) eqn:En.
    + rewrite (get_fs_put_df _ _ _ _ _ Hx). by rewrite decide_True.
    + apply nz_false in En as ->. unfold write_df, read_slice.
      rewrite take_0, splice_nil, Hx. by destruct x.
  - simpl. rewrite length_splice; [done|]. rewrite Hlen. lia.
Qed.

Lemma lseek_sym_fd w fd_ f d x o :
  sym_fd w fd_ f d x -> sym_fd (upd_file (Z.to_nat fd_) (at_off f o) w) fd_ (at_off f o) d x.
Proof.
  intros [Hr Hf Ho Hd Hx Hs Hl]. constructor; try done. by eapply upd_file_entry.
Qed.

Lemma write_no_failures fd_ f d x b count w :
  no_failures w -> no_failures (write_world fd_ f d x b count w).
Proof.
  unfold no_failures, write_world; simpl. intros H. unfold upd_writes.
  destruct (fs_put_df_other (w_fs w) d (write_df x (off f) b (stored x (off f) count))) as [E _].
  rewrite <- H, <- E at 1. case_bool_decide; destruct (nz _);
    destruct w as [[] ? ? ? ?]; by destruct d.
Qed.

(** ** Names *)

Lemma s8_small x : -128 <= x < 128 -> s8 x = x.
Proof. intros. apply (wrapS_small 8); simpl; lia. Qed.

(** The letter of file [k]. *)
Definition letter (k : nat) : Z := 65 + Z.of_nat k.

Definition lookup_result (fs : exe_file_system_t) (k : nat) : option dref :=
  match sym_files fs !! k with
  | Some x => if st_ino (stat x) =? 0 then None else Some (DSym k)
  | None => None
  end.

Lemma find_sym_letter fs k m : forall i,
  (k <= 62)%nat -> (i <= k < i + m)%nat -> is_Some (sym_files fs !! k) ->
  find_sym fs (letter k) m (Z.of_nat i) = Ret (lookup_result fs k).
Proof.
  unfold letter, lookup_result.
  induction m as [|m IH]; intros i Hk Hi [x Hx]; [lia|]. cbn [find_sym].
  rewrite !s8_small by lia. destruct (Z.eqb_spec (65 + Z.of_nat k) (65 + Z.of_nat i)).
  - assert (i = k) as -> by lia. rewrite Nat2Z.id, Hx. by destruct (_ =? _).
  - replace (Z.of_nat i + 1) with (Z.of_nat (S i)) by lia. apply IH; eauto; lia.
Qed.

Lemma find_sym_none fs c m : forall i,
  (i + m <= 63)%nat -> 0 <= c < 128 -> (c < 65 + Z.of_nat i \/ 65 + Z.of_nat (i + m) <= c) ->
  find_sym fs c m (Z.of_nat i) = Ret None.
Proof.
  induction m as [|m IH]; intros i Hm Hc Hr; [done|]. cbn [find_sym].
  rewrite !s8_small by lia. destruct (Z.eqb_spec c (65 + Z.of_nat i)); [lia|].
  replace (Z.of_nat i + 1) with (Z.of_nat (S i)) by lia. apply IH; lia.
Qed.

Lemma get_sym_file_char w c :
  c <> 0 -> c <> 47 ->
  __get_sym_file sys (Some [c]) w =
  match find_sym (w_fs w) c (Z.to_nat (n_sym_files (w_fs w))) 0 with
  | Ret d => Ret (d, w) | Stop e => Stop e end.
Proof.
  intros H0 H47. unfold __get_sym_file, strip_cwd. cbv beta iota. simpl nth.
  destruct (Z.eqb_spec c 47); [lia|]. erewrite run_bind by reflexivity. cbv zeta.
  simpl. rewrite (proj2 (Z.eqb_neq c 0) H0). simpl.
  unfold mbind, M_bind, gets. by destruct (find_sym _ _ _ _).
Qed.

Lemma get_sym_file_letter s w k :
  wf s w -> (k <= 62)%nat -> (k < length (sh_files s))%nat ->
  __get_sym_file sys (Some [letter k]) w = Ret (lookup_result (w_fs w) k, w).
Proof.
  intros [Hfs _] Hk Hn. rewrite get_sym_file_char by (unfold letter; lia).
  destruct (lookup_lt_is_Some_2 _ _ Hn) as [n Hn'].
  destruct (get_df_valid s (w_fs w) (DSym k) n Hfs Hn') as (x & Hx & _).
  rewrite (wf_n s _ Hfs), Nat2Z.id. change 0 with (Z.of_nat 0).
  rewrite find_sym_letter; [done|done|lia|by exists x].
Qed.

(** ** Descriptor allocation *)

Lemma free_slot_le l : (free_slot l <= length l)%nat.
Proof. induction l as [|f l IH]; simpl; [lia|]. destruct (is_open f); simpl; lia. Qed.

Lemma free_slot_min l j :
  (j < free_slot l)%nat -> exists f, l !! j = Some f /\ is_open f = true.
Proof.
  revert j. induction l as [|f l IH]; intros j; simpl; [lia|].
  destruct (is_open f) eqn:E; [|lia]. intros Hj. destruct j as [|j]; [by exists f|].
  apply IH. lia.
Qed.

Lemma free_slot_free l :
  (free_slot l < length l)%nat -> exists f, l !! free_slot l = Some f /\ is_open f = false.
Proof.
  induction l as [|f l IH]; simpl; [lia|]. destruct (is_open f) eqn:E; [|by exists f].
  intros H. apply IH. lia.
Qed.

(** ** open *)

(** The open mode of a file after [open]. *)
Definition opened_df (x : exe_disk_file_t) (mode um : Z) : exe_disk_file_t :=
  mkDfile (size x) (contents x)
    (with_mode (Z.lor (Z.land (st_mode (stat x)) (Z.lnot 511))
                      (Z.land mode (Z.lnot um))) (stat x)).

Lemma run_set_stat w d x g :
  get_df (w_fs w) d = Some x ->
  set_stat d g w = Ret (tt, set_fs (fs_put_df d (mkDfile (size x) (contents x) (g (stat x)))) w).
Proof. intros Hx. unfold set_stat. by erewrite run_bind by (by apply run_deref). Qed.

Lemma run_put_twice i f g w :
  put_file i g (upd_file i f w) = Ret (tt, upd_file i g w).
Proof.
  unfold put_file, modify, upd_file, set_env; simpl. by rewrite list_insert_insert_eq.
Qed.

Lemma run_open_sym w i d fl mode x f :
  (i < length (fds (w_env w)))%nat -> get_df (w_fs w) d = Some x ->
  Z.land fl O_EXCL = 0 -> has_permission fl (stat x) = true ->
  open_sym (OS:=OS) i d fl mode (upd_file i f w)
  = Ret (true, upd_file i (mkFile (fd f) (flags f) (off f) (Some d))
                 (set_fs (fs_put_df d (opened_df x mode (umask_ (w_env w)))) w)).
Proof.
  intros Hi Hx He Hp. unfold open_sym, set_dfile.
  erewrite run_bind.
  2:{ erewrite run_bind by (by apply run_get_entry, list_lookup_insert_eq).
      apply run_put_twice. }
  rewrite He, Z.land_0_r, !andb_false_r. simpl.
  erewrite run_bind by (by apply run_deref). rewrite Hp. simpl.
  erewrite run_bind by reflexivity.
  by erewrite run_bind by (by apply run_set_stat).
Qed.

Lemma run_open w p fl mode d x :
  length (fds (w_env w)) = MAX_FDS ->
  let i := free_slot (fds (w_env w)) in
  (i < MAX_FDS)%nat ->
  __get_sym_file sys p (upd_file i zero_file w) = Ret (Some d, upd_file i zero_file w) ->
  get_df (w_fs w) d = Some x ->
  Z.land fl O_EXCL = 0 -> has_permission fl (stat x) = true ->
  __fd_open sys p fl mode w
  = Ret (Z.of_nat i,
         upd_file i (mkFile 0 (open_flags fl) 0 (Some d))
           (set_fs (fs_put_df d (opened_df x mode (umask_ (w_env w)))) w)).
Proof.
  intros Hl i Hi Hg Hx He Hp. unfold __fd_open.
  erewrite run_bind by reflexivity. fold i. rewrite bool_decide_eq_false_2 by lia.
  erewrite run_bind by reflexivity.
  change (set_env _ w) with (upd_file i zero_file w). erewrite run_bind by exact Hg.
  cbv beta iota. erewrite run_bind by (apply run_open_sym; eauto; lia).
  cbv beta iota. unfold set_flags. erewrite run_bind.
  2:{ erewrite run_bind by (apply run_get_entry, list_lookup_insert_eq; simpl; lia).
      apply run_put_twice. }
  done.
Qed.

(** ** close, dup, unlink *)

Definition bump_close w : world OS :=
  set_calls (fun '(mkCounters a b c d e f g) => mkCounters (s32 (a + 1)) b c d e f g) w.

Lemma close_run w fd_ f :
  0 <= fd_ < 32 -> fds (w_env w) !! Z.to_nat fd_ = Some f -> is_open f = true ->
  no_failures w ->
  close (OS:=OS) fd_ w = Ret (0, upd_file (Z.to_nat fd_) zero_file (bump_close w)).
Proof.
  intros Hr Hf Ho Hn. unfold close. erewrite run_bind by reflexivity.
  fold (bump_close w).
  erewrite run_bind by (by apply (run_get_file (bump_close w) fd_ f)). cbv beta iota.
  by rewrite run_inject_none.
Qed.

Definition dup_entry (f : exe_file_t) : exe_file_t :=
  mkFile (fd f) (Z.land (flags f) (Z.lnot eCloseOnExec)) (off f) (dfile f).

Lemma dup2_run w o n f g :
  0 <= o < 32 -> 0 <= n < 32 -> o <> n ->
  fds (w_env w) !! Z.to_nat o = Some f -> is_open f = true ->
  fds (w_env w) !! Z.to_nat n = Some g -> no_failures w ->
  dup2 o n w = Ret (n, upd_file (Z.to_nat n) (dup_entry f)
                         (if is_open g then bump_close w else w)).
Proof.
  intros Ho Hn Hne Hf Hopen Hg Hnf. unfold dup2.
  erewrite run_bind by (by apply (run_get_file w o f)). cbv beta iota.
  change (Z.of_nat MAX_FDS) with 32.
  destruct (Z.leb_spec 0 n), (Z.ltb_spec n 32); try lia. simpl.
  erewrite run_bind by (by apply run_get_entry).
  assert (Z.to_nat n <> Z.to_nat o) by lia.
  destruct (is_open g) eqn:Eg.
  - erewrite run_bind.
    2:{ erewrite run_bind by (by eapply close_run). reflexivity. }
    erewrite run_bind by (apply run_get_entry; simpl; by rewrite list_lookup_insert_ne).
    erewrite run_bind by apply run_put_twice. unfold set_flags. erewrite run_bind.
    2:{ erewrite run_bind by (apply run_get_entry, list_lookup_insert_eq;
          simpl; by eapply lookup_lt_Some). apply run_put_twice. }
    done.
  - erewrite run_bind by reflexivity.
    erewrite run_bind by (by apply run_get_entry).
    erewrite run_bind by reflexivity. unfold set_flags.
    change (set_env _ w) with (upd_file (Z.to_nat n) f w). erewrite run_bind.
    2:{ erewrite run_bind by (apply run_get_entry, list_lookup_insert_eq;
          by eapply lookup_lt_Some). apply run_put_twice. }
    done.
Qed.

(** ** Closed descriptors *)

Definition closed w (x : Z) : Prop :=
  length (fds (w_env w)) = MAX_FDS /\
  forall f, 0 <= x < 32 -> fds (w_env w) !! Z.to_nat x = Some f -> is_open f = false.

(** The calls that report a closed descriptor, with the descriptor they look
    up: a [read] asks for no bytes or has no buffer before it looks at the
    descriptor, and [AT_FDCWD] names the current directory. *)
Definition uses_fd (c : call) : option Z :=
  match c with
  | CRead x (Some _) n => if n =? 0 then None else Some x
  | COpenat x _ _ _ | CFutimesat x _ _ | CFstatat x _ _ =>
      if x =? AT_FDCWD then None else Some x
  | CClose x | CWrite x _ _ | CLseek x _ _ | CFstat x | CFchdir x | CFchmod x _
  | CFchown x _ _ | CFtruncate x _ | CIoctl x _ _ | CFcntl x _ _ | CFstatfs x
  | CFsync x | CDup2 x _ | CDup x => Some x
  | CGetdents x _ _ => Some (s32 (u32 x))
  | _ => None
  end.

Lemma run_closed w x : closed w x -> __get_file (OS:=OS) x w = Ret (None, w).
Proof. intros [Hl Hc]. by apply run_get_file_closed. Qed.

Lemma run_fail {A} e (r : A) w : fail e r w = Ret (r, set_errno e w).
Proof. done. Qed.

Lemma closed_call w c x :
  uses_fd c = Some x -> closed w x ->
  exists w', exec sys c w = Ret (-1, w') /\ w_errno w' = EBADF /\
    w_fs w' = w_fs w /\ w_env w' = w_env w /\ w_os w' = w_os w.
Proof.
  intros Hu Hc. pose proof (run_closed w x Hc) as Hg.
  assert (forall g, __get_file x (set_calls g w) = Ret (None, set_calls g w)) as Hg'.
  { intros g. apply run_closed. exact Hc. }
  destruct c; simpl in Hu; simplify_eq; repeat case_match; simplify_eq;
    eexists (set_errno EBADF (_ : world OS)); simpl; unfold openat, __fd_openat, futimesat,
      close, read, write, lseek, __fd_lseek, fstatat, fstat, __fd_fstat, fchdir,
      fchmod, fchown, ftruncate64, __fd_ftruncate, getdents64, __fd_getdents,
      ioctl, fcntl, fstatfs, fsync, dup2, dup;
    repeat match goal with H : (_ =? _) = _ |- _ => rewrite H end;
    unfold bump, mbind, M_bind, modify, gets; rewrite ?Hg';
    try (rewrite Hg); split_and!; reflexivity.
Qed.

(** ** Injected failures *)

Definition spend w : world OS :=
  set_errno EIO (set_fs (fun '(mkFs k i o sw sf n a b c e f g h) =>
                           mkFs k i o sw sf (n - 1) a b c e f g h) w).

Lemma run_inject_hit {A} p n (r : A) k w :
  max_failures (w_fs w) <> 0 -> p (w_fs w) = Some n ->
  inject p n EIO r k w = Ret (r, spend w).
Proof.
  intros Hm Hp. unfold inject, mbind, M_bind, gets. apply nz_true in Hm as ->.
  rewrite Hp, Z.eqb_refl. unfold spend, put_max_failures, fail, modify, set_fs, mbind, M_bind.
  by destruct w as [[] ? ? ? ?].
Qed.

End FdSpec.

(** ** Sample states *)

Definition sample_w : world unit :=
  match Init.klee_init_fds sample_sys 2 8 0 0 0 0 world0 with
  | Ret (_, w) => w | Stop _ => world0 end.

(** With file [A] open for writing on descriptor 3. *)
Definition sample_open : world unit :=
  match run [COpen (Some [65]) O_WRONLY 0] sample_w with Ret w => w | Stop _ => sample_w end.

Definition sample_f : exe_file_t := mkFile 0 9 0 (Some (DSym 0)).
Definition sample_x : exe_disk_file_t :=
  default (mkDfile 0 [] sample_stat) (get_df (w_fs sample_open) (DSym 0)).

Lemma sample_sym_fd : sym_fd sample_open 3 sample_f (DSym 0) sample_x.
Proof. constructor; vm_compute; (done || (split; congruence)). Qed.

Lemma wp_run {A} (m : M unit A) (Q : world unit -> Prop) w w0 :
  wp sample_sys m (fun _ => Q) w -> Q (match m w with Ret (_, w') => w' | Stop _ => w0 end).
Proof.
  unfold wp. destruct (m w) as [[a w']|]; [done|]. intros [_ Hs]. by destruct Hs; apply sample_stats_feasible.
Qed.

Lemma sample_wf : wf (init_shape 2 8 0 0) sample_w.
Proof.
  unfold sample_w.
  apply (wp_run (Init.klee_init_fds sample_sys 2 8 0 0 0 0) (wf (init_shape 2 8 0 0))).
  eapply wp_conseq; [apply wp_klee_init_fds; [apply _|by split|lia|lia|lia|lia]|].
  intros a w' H. apply H.
Qed.

(** ** Properties *)

(** C31: a read from a symbolic file returns the smaller of the requested
    count and what is left after the offset (0 beyond the end), stores exactly
    that slice of the contents at the start of the buffer, advances the offset
    by it, and changes nothing else but its own call counter. *)
Theorem read_returns_slice {OS} (sys : kernel OS)
    (w : world OS) fd_ f d x b count :
  sym_fd w fd_ f d x -> no_failures w -> 0 <= off f < 2 ^ 62 ->
  0 < count <= Z.of_nat (length b) -> Z.of_nat (length b) < 2 ^ 62 ->
  let n := Z.min count (Z.max 0 (size x - off f)) in
  read sys fd_ (Some b) count w
  = Ret ((n, Some (splice b 0 (read_slice (contents x) (off f) n))),
         upd_file (Z.to_nat fd_) (at_off f (off f + n)) (bump_read w)).
Proof. apply read_run. Qed.

Lemma read_returns_slice_witness :
  exists w', read sample_sys 3 (Some (replicate 10 0)) 10 sample_open
    = Ret ((8, Some (replicate 8 65 ++ [0; 0])), w').
Proof.
  eexists. erewrite (read_returns_slice sample_sys sample_open 3 sample_f (DSym 0) sample_x);
    [reflexivity|exact sample_sym_fd|by vm_compute|by vm_compute|by vm_compute|by vm_compute].
Defined.

(** C32: a write to a symbolic file always reports the full count and advances
    the offset by it, but only the bytes that fit below the file's size are
    stored, the size never grows, and bytes of standard output are counted
    only when stored. *)
Theorem write_effect {OS} (sys : kernel OS)
    (w : world OS) fd_ f d x b count :
  sym_fd w fd_ f d x -> no_failures w -> 0 <= off f < 2 ^ 62 ->
  0 <= count <= Z.of_nat (length b) -> Z.of_nat (length b) < 2 ^ 62 ->
  save_all_writes (w_env w) = 0 \/ off f + count <= size x ->
  write sys fd_ (Some b) count w = Ret (count, write_world fd_ f d x b count w).
Proof. apply write_run. Qed.

Lemma write_effect_witness :
  write sample_sys 3 (Some (replicate 10 66)) 10 sample_open
  = Ret (10, write_world 3 sample_f (DSym 0) sample_x (replicate 10 66) 10 sample_open).
Proof.
  apply (write_effect sample_sys sample_open 3 sample_f (DSym 0) sample_x);
    [exact sample_sym_fd|by vm_compute|by vm_compute|by vm_compute|by vm_compute|by left].
Defined.

(** C24: what is written to a symbolic file within its size is what is read
    back after seeking to where the write began, for every position, length
    and data. *)
Theorem write_seek_read {OS} (sys : kernel OS)
    (w : world OS) fd_ f d x data :
  let count := Z.of_nat (length data) in
  sym_fd w fd_ f d x -> no_failures w -> 0 <= off f -> 0 < count ->
  off f + count <= size x ->
  exists w1 w2 w3,
    write sys fd_ (Some data) count w = Ret (count, w1) /\
    __fd_lseek sys fd_ (off f) SEEK_SET w1 = Ret (off f, w2) /\
    forall b, length b = length data ->
      read sys fd_ (Some b) count w2 = Ret ((count, Some data), w3).
Proof.
  intros count Hs Hnf Ho Hc Hfit. pose proof (sf_size _ _ _ _ _ Hs) as Hsz.
  pose proof (write_sym_fd w fd_ f d x data count Hs Ho ltac:(lia) Hfit) as Hs1.
  do 3 eexists. split_and!.
  - by apply write_run; (done || lia || right; lia).
  - by eapply lseek_run.
  - intros b Hb. erewrite read_run; [|by apply lseek_sym_fd| | | |]; try lia;
      [|by apply write_no_failures|simpl; lia].
    simpl size. simpl off. rewrite Z.min_l by lia. do 3 f_equal.
    simpl contents. f_equal.
    assert (read_slice data 0 count = data) as E.
    { unfold read_slice. rewrite drop_0, take_ge by lia. done. }
    rewrite E. unfold read_slice. unfold count. rewrite Nat2Z.id, take_drop_splice.
    + unfold splice. simpl. rewrite drop_ge by lia. by rewrite app_nil_r.
    + pose proof (sf_len _ _ _ _ _ Hs). lia.
Qed.

Lemma write_seek_read_witness :
  exists w1 w2 w3,
    write sample_sys 3 (Some [1; 2; 3]) 3 sample_open = Ret (3, w1) /\
    __fd_lseek sample_sys 3 0 SEEK_SET w1 = Ret (0, w2) /\
    forall b, length b = 3%nat ->
      read sample_sys 3 (Some b) 3 w2 = Ret ((3, Some [1; 2; 3]), w3).
Proof.
  apply (write_seek_read sample_sys sample_open 3 sample_f (DSym 0) sample_x [1; 2; 3]);
    [exact sample_sym_fd|by vm_compute|by vm_compute|by vm_compute|by vm_compute].
Defined.

(** C33: opening the symbolic file with letter [k] (in a well-formed state, not
    removed, without [O_EXCL], permission granted) returns the lowest
    descriptor that is not open; every lower one is open, the new entry refers
    to file [k] at offset 0, and no other entry changes. *)
Theorem open_lowest_descriptor {OS} (sys : kernel OS)
    s (w : world OS) k x fl mode :
  wf s w -> (k <= 62)%nat -> sym_files (w_fs w) !! k = Some x ->
  st_ino (stat x) <> 0 -> Z.land fl O_EXCL = 0 -> has_permission fl (stat x) = true ->
  (free_slot (fds (w_env w)) < MAX_FDS)%nat ->
  exists i w', __fd_open sys (Some [letter k]) fl mode w = Ret (Z.of_nat i, w') /\
    (forall j, (j < i)%nat -> exists f, fds (w_env w) !! j = Some f /\ is_open f = true) /\
    (exists f, fds (w_env w) !! i = Some f /\ is_open f = false) /\
    fds (w_env w') !! i = Some (mkFile 0 (open_flags fl) 0 (Some (DSym k))) /\
    (forall j, j <> i -> fds (w_env w') !! j = fds (w_env w) !! j) /\
    get_df (w_fs w') (DSym k) = Some (opened_df x mode (umask_ (w_env w))).
Proof.
  intros Hw Hk Hx Hino He Hp Hfree. set (i := free_slot (fds (w_env w))) in *.
  assert (length (fds (w_env w)) = MAX_FDS) as Hl by apply Hw.
  assert (wf s (upd_file i zero_file w)) as Hw'.
  { eapply (spec_put_zero s i); [exact Hw|reflexivity]. }
  assert ((k < length (sh_files s))%nat) as Hn.
  { destruct (get_df_wf s (w_fs w) (DSym k) x (proj1 Hw) Hx) as (n & Hn & _).
    by eapply lookup_lt_Some. }
  exists i, (upd_file i (mkFile 0 (open_flags fl) 0 (Some (DSym k)))
    (set_fs (fs_put_df (DSym k) (opened_df x mode (umask_ (w_env w)))) w)).
  split_and!.
  - apply run_open; auto. rewrite (get_sym_file_letter sys s) by done.
    unfold lookup_result. simpl. rewrite Hx. by rewrite (proj2 (Z.eqb_neq _ _) Hino).
  - apply free_slot_min.
  - apply free_slot_free. lia.
  - apply list_lookup_insert_eq. simpl. lia.
  - intros j Hj. simpl. by rewrite list_lookup_insert_ne.
  - exact (get_put_df w (DSym k) x _ Hx).
Qed.

Lemma open_lowest_descriptor_witness :
  exists i w', __fd_open sample_sys (Some [letter 1]) O_RDONLY 0 sample_open
    = Ret (Z.of_nat i, w') /\
    fds (w_env w') !! i = Some (mkFile 0 (open_flags O_RDONLY) 0 (Some (DSym 1))).
Proof.
  assert (wf (init_shape 2 8 0 0) sample_open) as Hw.
  { eapply (reachable_wf sample_sys); [apply sample_wf|].
    apply (run_reachable [COpen (Some [65]) O_WRONLY 0]); [repeat constructor|].
    by vm_compute. }
  destruct (open_lowest_descriptor sample_sys _ sample_open 1
    (default sample_x (sym_files (w_fs sample_open) !! 1%nat)) O_RDONLY 0 Hw)
    as (i & w' & H1 & _ & _ & H2 & _);
    [lia|by vm_compute|by vm_compute|done|by vm_compute|vm_compute; lia|].
  exists i, w'. exact (conj H1 H2).
Defined.

(** C38: a descriptor that is out of range or not open.  [close], [write],
    [lseek], [fstat], [fchdir], [fchmod], [fchown], [ftruncate], [ioctl],
    [fcntl], [fstatfs], [fsync], [getdents], [dup], [dup2] (of the first
    descriptor), [read] of at least one byte into a buffer, and [openat],
    [futimesat] and [fstatat] (other than of [AT_FDCWD]) fail on it with
    [EBADF] and leave the files, the descriptor table and the outside world
    unchanged.  The other calls on one descriptor do not look at it first: a
    [read] of no bytes returns 0 and a [read] into a null pointer fails with
    [EFAULT], with only the counter of reads advanced, and [unlinkat] does
    what [unlink] does with the path. *)
Theorem closed_descriptor_EBADF {OS} (sys : kernel OS) (w : world OS) x :
  closed w x ->
  (forall c, uses_fd c = Some x ->
    exists w', exec sys c w = Ret (-1, w') /\ w_errno w' = EBADF /\
      w_fs w' = w_fs w /\ w_env w' = w_env w /\ w_os w' = w_os w) /\
  (forall buf, exec sys (CRead x buf 0) w = Ret (0, bump_read w)) /\
  (forall count, count <> 0 ->
    exec sys (CRead x None count) w = Ret (-1, set_errno EFAULT (bump_read w))) /\
  (forall p fl, exec sys (CUnlinkat x p fl) w = exec sys (CUnlink p) w).
Proof.
  intros Hc. split_and!.
  - intros c Hu. by apply (closed_call sys w c x).
  - done.
  - intros count Hn%Z.eqb_neq. simpl. unfold read. rewrite Hn. done.
  - done.
Qed.

Lemma closed_descriptor_EBADF_witness :
  (exists w', exec sample_sys (CWrite 7 (Some [1]) 1) sample_open = Ret (-1, w') /\
    w_errno w' = EBADF /\ w_fs w' = w_fs sample_open /\
    w_env w' = w_env sample_open /\ w_os w' = w_os sample_open) /\
  exec sample_sys (CRead 7 None 4) sample_open = Ret (-1, set_errno EFAULT (bump_read sample_open)).
Proof.
  destruct (closed_descriptor_EBADF sample_sys sample_open 7) as (H1 & _ & H2 & _).
  { split; [done|]. intros f _ Hf. vm_compute in Hf. by simplify_eq. }
  split; [by apply H1|by apply H2].
Defined.

(** Unlinking a regular symbolic file succeeds, after which its name no
    longer resolves, while every descriptor open on it keeps its contents. *)
Theorem unlink_hides_name {OS} (sys : kernel OS)
    s (w : world OS) k x :
  wf s w -> (k <= 62)%nat -> sym_files (w_fs w) !! k = Some x ->
  st_ino (stat x) <> 0 -> S_ISREG (st_mode (stat x)) = true ->
  exists w', unlink sys (Some [letter k]) w = Ret (0, w') /\
    __get_sym_file sys (Some [letter k]) w' = Ret (None, w') /\
    w_env w' = w_env w /\
    exists y, sym_files (w_fs w') !! k = Some y /\ contents y = contents x /\ size y = size x.
Proof.
  intros Hw Hk Hx Hino Hreg.
  assert ((k < length (sh_files s))%nat) as Hn.
  { destruct (get_df_wf s (w_fs w) (DSym k) x (proj1 Hw) Hx) as (n & Hn & _).
    by eapply lookup_lt_Some. }
  set (y := mkDfile (size x) (contents x) (with_ino 0 (stat x))).
  set (w' := set_fs (fs_put_df (DSym k) y) w).
  assert (unlink sys (Some [letter k]) w = Ret (0, w')) as E.
  { unfold unlink. erewrite run_bind by (by eapply get_sym_file_letter).
    unfold lookup_result. rewrite Hx, (proj2 (Z.eqb_neq _ _) Hino). cbv beta iota.
    erewrite run_bind by (by apply run_deref). rewrite Hreg.
    by erewrite run_bind by (by apply run_set_stat). }
  assert (wf s w') as Hw' by (by eapply (spec_unlink sys s)).
  assert (sym_files (w_fs w') !! k = Some y) as Hy.
  { exact (get_put_df w (DSym k) x _ Hx). }
  exists w'. split_and!; [done| |done|by exists y].
  rewrite (get_sym_file_letter sys s) by done. unfold lookup_result. rewrite Hy.
  simpl. by destruct (stat x).
Qed.

Lemma unlink_hides_name_witness :
  exists w', unlink sample_sys (Some [letter 1]) sample_w = Ret (0, w') /\
    __get_sym_file sample_sys (Some [letter 1]) w' = Ret (None, w').
Proof.
  destruct (unlink_hides_name sample_sys _ sample_w 1
    (default sample_x (sym_files (w_fs sample_w) !! 1%nat)) sample_wf)
    as (w' & H1 & H2 & _); [lia|by vm_compute|by vm_compute|by vm_compute|].
  exists w'. exact (conj H1 H2).
Defined.

(** Duplicating an open descriptor onto another one makes that one a copy
    of it (same file, same offset, close-on-exec cleared), closing it first if
    it was open, and changes no third descriptor. *)
Theorem dup2_copies {OS} (w : world OS) o n f g :
  0 <= o < 32 -> 0 <= n < 32 -> o <> n ->
  fds (w_env w) !! Z.to_nat o = Some f -> is_open f = true ->
  fds (w_env w) !! Z.to_nat n = Some g -> no_failures w ->
  exists w', dup2 o n w = Ret (n, w') /\
    fds (w_env w') !! Z.to_nat n = Some (dup_entry f) /\
    forall j, j <> Z.to_nat n -> fds (w_env w') !! j = fds (w_env w) !! j.
Proof.
  intros Ho Hn Hne Hf Hopen Hg Hnf. eexists. split; [by eapply dup2_run|]. split.
  - apply list_lookup_insert_eq. apply lookup_lt_Some in Hg. by destruct (is_open g).
  - intros j Hj. simpl. rewrite list_lookup_insert_ne by done. by destruct (is_open g).
Qed.

Lemma dup2_copies_witness :
  exists w', dup2 3 1 sample_open = Ret (1, w') /\
    fds (w_env w') !! 1%nat = Some (dup_entry sample_f).
Proof.
  destruct (dup2_copies sample_open 3 1 sample_f (mkFile 1 9 0 None)) as (w' & H1 & H2 & _);
    [lia|lia|lia|by vm_compute|done|by vm_compute|by vm_compute|].
  exists w'. exact (conj H1 H2).
Defined.

(** Duplicating an open descriptor onto itself reports success but leaves
    the descriptor closed. *)
Theorem dup2_self_closes {OS} (w : world OS) o f :
  0 <= o < 32 -> fds (w_env w) !! Z.to_nat o = Some f -> is_open f = true ->
  no_failures w ->
  exists w', dup2 o o w = Ret (o, w') /\ __get_file o w' = Ret (None, w').
Proof.
  intros Ho Hf Hopen Hnf. unfold dup2. eexists. split.
  - erewrite run_bind by (by apply (run_get_file w o f)). cbv beta iota.
    change (Z.of_nat MAX_FDS) with 32.
    destruct (Z.leb_spec 0 o), (Z.ltb_spec o 32); try lia. simpl.
    erewrite run_bind by (by apply run_get_entry). rewrite Hopen.
    erewrite run_bind.
    2:{ erewrite run_bind by (by eapply close_run). reflexivity. }
    assert (Z.to_nat o < length (fds (w_env w)))%nat by (by eapply lookup_lt_Some).
    erewrite run_bind by (by apply run_get_entry, list_lookup_insert_eq).
    erewrite run_bind by apply run_put_twice. unfold set_flags. erewrite run_bind.
    2:{ erewrite run_bind by (by apply run_get_entry, list_lookup_insert_eq).
        apply run_put_twice. }
    reflexivity.
  - assert (Z.to_nat o < length (fds (w_env w)))%nat by (by eapply lookup_lt_Some).
    unfold __get_file. destruct (_ && _); [|done].
    by erewrite run_bind by (by apply run_get_entry, list_lookup_insert_eq).
Qed.

Lemma dup2_self_closes_witness :
  exists w', dup2 3 3 sample_open = Ret (3, w') /\ __get_file 3 w' = Ret (None, w').
Proof.
  apply (dup2_self_closes sample_open 3 sample_f); [lia|by vm_compute|done|by vm_compute].
Defined.

(** A file that anyone may read cannot be opened for reading and writing:
    the call fails with [EACCES] whatever the write permissions are. *)
Theorem open_rdwr_readable_fails {OS} (sys : kernel OS)
    s (w : world OS) k x mode :
  wf s w -> (k <= 62)%nat -> sym_files (w_fs w) !! k = Some x ->
  st_ino (stat x) <> 0 -> Z.land (st_mode (stat x)) S_IRUSR <> 0 ->
  (free_slot (fds (w_env w)) < MAX_FDS)%nat ->
  exists w', __fd_open sys (Some [letter k]) O_RDWR mode w = Ret (-1, w') /\
    w_errno w' = EACCES.
Proof.
  intros Hw Hk Hx Hino Hmode Hfree. set (i := free_slot (fds (w_env w))) in *.
  assert (wf s (upd_file i zero_file w)) as Hw'.
  { eapply (spec_put_zero s i); [exact Hw|reflexivity]. }
  assert ((k < length (sh_files s))%nat) as Hn.
  { destruct (get_df_wf s (w_fs w) (DSym k) x (proj1 Hw) Hx) as (n & Hn & _).
    by eapply lookup_lt_Some. }
  assert (has_permission O_RDWR (stat x) = false) as Hp.
  { unfold has_permission. simpl. destruct (nz (Z.lor _ _)) eqn:E; [done|].
    apply nz_false, Z.lor_eq_0_iff in E as [E _].
    apply Z.lor_eq_0_iff in E as [E _]. done. }
  eexists. split.
  - unfold __fd_open. erewrite run_bind by reflexivity. fold i.
    rewrite bool_decide_eq_false_2 by lia. erewrite run_bind by reflexivity.
    change (set_env _ w) with (upd_file i zero_file w).
    erewrite run_bind by (by eapply get_sym_file_letter).
    unfold lookup_result. simpl. rewrite Hx, (proj2 (Z.eqb_neq _ _) Hino).
    erewrite run_bind.
    2:{ unfold open_sym. erewrite run_bind.
        2:{ unfold set_dfile. erewrite run_bind by (apply run_get_entry,
              list_lookup_insert_eq; rewrite (wf_fds_len _ _ (proj2 Hw)); lia).
            apply run_put_twice. }
        simpl. erewrite run_bind by (by apply run_deref). rewrite Hp. reflexivity. }
    reflexivity.
  - reflexivity.
Qed.

Lemma open_rdwr_readable_fails_witness :
  exists w', __fd_open sample_sys (Some [letter 0]) O_RDWR 0 sample_w = Ret (-1, w') /\
    w_errno w' = EACCES.
Proof.
  apply (open_rdwr_readable_fails sample_sys _ sample_w 0
    (default sample_x (sym_files (w_fs sample_w) !! 0%nat)) 0 sample_wf);
    [lia|by vm_compute|by vm_compute|by vm_compute|vm_compute; lia].
Defined.

(** C39: while the failure budget is not spent, the read, write or close whose
    ordinal is the chosen one fails with [EIO], takes one from the budget, and
    leaves the descriptor table and the files untouched. *)
Theorem chosen_call_fails {OS} (sys : kernel OS)
    (w : world OS) fd_ f b count :
  0 <= fd_ < 32 -> fds (w_env w) !! Z.to_nat fd_ = Some f -> is_open f = true ->
  max_failures (w_fs w) <> 0 -> count <> 0 ->
  (read_fail (w_fs w) = Some (s32 (n_read (w_calls w) + 1)) ->
   read sys fd_ (Some b) count w = Ret ((-1, Some b), spend (bump_read w))) /\
  (write_fail (w_fs w) = Some (s32 (n_write (w_calls w) + 1)) ->
   write sys fd_ (Some b) count w = Ret (-1, spend (bump_write w))) /\
  (close_fail (w_fs w) = Some (s32 (n_close (w_calls w) + 1)) ->
   close fd_ w = Ret (-1, spend (bump_close w))).
Proof.
  intros Hr Hf Ho Hm Hc.
  assert (forall g, __get_file fd_ (set_calls g w) = Ret (Some (Z.to_nat fd_), set_calls g w))
    as Hg by (intros g; by apply (run_get_file _ fd_ f)).
  apply Z.eqb_neq in Hc as Hc'.
  split_and!; intros Hp.
  - unfold read. erewrite run_bind by reflexivity. rewrite Hc'. cbv beta iota.
    erewrite run_bind by apply Hg. cbv beta iota. fold (bump_read w).
    apply run_inject_hit; [done|]. simpl. rewrite Hp. by destruct w as [? ? [] ? ?].
  - unfold write. erewrite run_bind by reflexivity.
    erewrite run_bind by apply Hg. cbv beta iota. fold (bump_write w).
    apply run_inject_hit; [done|]. simpl. rewrite Hp. by destruct w as [? ? [] ? ?].
  - unfold close. erewrite run_bind by reflexivity.
    erewrite run_bind by apply Hg. cbv beta iota. fold (bump_close w).
    apply run_inject_hit; [done|]. simpl. rewrite Hp. by destruct w as [? ? [] ? ?].
Qed.

Definition sample_budget : world unit :=
  set_fs (fun '(mkFs k i o sw sf _ _ b c e f g h) =>
            mkFs k i o sw sf 1 (Some 1) b c e f g h) sample_open.

Lemma chosen_call_fails_witness :
  read sample_sys 3 (Some [0; 0]) 2 sample_budget
  = Ret ((-1, Some [0; 0]), spend (bump_read sample_budget)).
Proof.
  apply (chosen_call_fails sample_sys sample_budget 3 sample_f [0; 0] 2);
    [lia|by vm_compute|done|by vm_compute|lia|by vm_compute].
Defined.
