(* ===== verification/PosixFd32.v ===== *)
(** * Entry points for callers of the plain (not 64-bit) interfaces

    Models [src/vital-src/runtime/POSIX/fd_32.c], which is built for 32-bit and
    for 64-bit programs: [w] is the size of a [long] in bytes (4 or 8), which
    fixes the widths of [off_t] and [ino_t] and the layout of [struct dirent].
    The theorems describe the directory records that [__fd_getdents] lays out
    and their rewriting in place by [getdents]. *)

From S2P Require Import Prelude PosixState PosixFd PosixFdInv PosixInitSpec PosixFdSpec.
Import Fd.

Module Fd32.
Section Fd32.
Context {OS : Type} (sys : kernel OS) (w : nat).

Abbreviation M := (PosixState.M OS).

(** [long] and [unsigned long]. *)
Definition slong (x : Z) : Z := wrapS (8 * Z.of_nat w) x.
Definition ulong (x : Z) : Z := wrapU (8 * Z.of_nat w) x.

(** The fields whose types differ between [struct stat64] and [struct stat] are
    the inode, the size and the number of blocks. *)
Definition __stat64_to_stat (a : stat64) : stat64 :=
  mkStat (st_dev a) (ulong (st_ino a)) (st_mode a) (st_nlink a) (st_uid a) (st_gid a)
    (st_rdev a) (slong (st_size a)) (st_blksize a) (slong (st_blocks a))
    (st_atime a) (st_mtime a) (st_ctime a).

Definition open (pathname : option (list Z)) (flags va : Z) : M Z :=
  let mode := if nz (Z.land flags O_CREAT) then u32 va else 0 in
  __fd_open sys pathname flags mode.

Definition openat (fd_ : Z) (pathname : option (list Z)) (flags va : Z) : M Z :=
  let mode := if nz (Z.land flags O_CREAT) then u32 va else 0 in
  __fd_openat sys fd_ pathname flags mode.

Definition lseek (fd_ off_ whence : Z) : M Z :=
  r ← __fd_lseek sys fd_ off_ whence; mret (slong r).

Definition __xstat (vers : Z) (path : option (list Z)) : M (Z * option stat64) :=
  '(res, tmp) ← __fd_stat sys path; mret (res, __stat64_to_stat <$> tmp).
Definition stat_ (path : option (list Z)) : M (Z * option stat64) :=
  '(res, tmp) ← __fd_stat sys path; mret (res, __stat64_to_stat <$> tmp).
Definition __lxstat (vers : Z) (path : option (list Z)) : M (Z * option stat64) :=
  '(res, tmp) ← __fd_lstat sys path; mret (res, __stat64_to_stat <$> tmp).
Definition lstat (path : option (list Z)) : M (Z * option stat64) :=
  '(res, tmp) ← __fd_lstat sys path; mret (res, __stat64_to_stat <$> tmp).
Definition __fxstat (vers fd_ : Z) : M (Z * option stat64) :=
  '(res, tmp) ← __fd_fstat sys fd_; mret (res, __stat64_to_stat <$> tmp).
Definition fstat (fd_ : Z) : M (Z * option stat64) :=
  '(res, tmp) ← __fd_fstat sys fd_; mret (res, __stat64_to_stat <$> tmp).

Definition ftruncate (fd_ len : Z) : M Z := __fd_ftruncate sys fd_ len.
Definition statfs (path : option (list Z)) : M (Z * list Z) := __fd_statfs sys path.

(** The loop of [getdents] at byte [pos] of the buffer, of which [res] bytes
    hold records.  [struct dirent] has [d_ino] at 0, [d_off] at [w],
    [d_reclen] at [2w], [d_type] at [2w+2] and [d_name] at [2w+3]. *)
Fixpoint rewrite_dents (fuel : nat) (pos res : Z) (buf : list Z) : M (list Z) :=
  match fuel with
  | O => halt OutOfFuel
  | S k =>
      if pos <? res then
        let dp o := pos + 2 * Z.of_nat w + o in
        reclen ← load 2 (pos + 16) buf;
        let name_len := ulong (reclen - 19) in
        ino ← load 8 pos buf;
        buf ← store w ino pos buf;
        doff ← load 8 (pos + 8) buf;
        buf ← store w doff (pos + Z.of_nat w) buf;
        reclen ← load 2 (pos + 16) buf;
        buf ← store 2 reclen (dp 0) buf;
        ty ← load 1 (pos + 18) buf;
        buf ← store 1 ty (dp 2) buf;
        buf ← memcpy_at buf (dp 3) buf (pos + 19) name_len;
        reclen ← load 2 (dp 0) buf;
        rewrite_dents k (pos + reclen) res buf
      else mret buf
  end.

Definition getdents (fd_ : Z) (dirp : list Z) (nbytes : Z) : M (Z * list Z) :=
  '(res, buf) ← __fd_getdents sys (u32 fd_) dirp (u32 nbytes);
  if 0 <? res then
    buf ← rewrite_dents (S (Z.to_nat res)) 0 res buf;
    mret (res, buf)
  else mret (res, buf).

Definition open64 (pathname : option (list Z)) (flags va : Z) : M Z :=
  let mode := if nz (Z.land flags O_CREAT) then u32 va else 0 in
  __fd_open sys pathname flags mode.

(** ** Directory records *)

(** [d_area] is the rest of the record from [d_name] on. *)
Record dent := mkDent { d_ino : Z; d_off : Z; d_reclen : Z; d_type : Z; d_area : list Z }.

Definition dent_ok (d : dent) : Prop :=
  19 <= d_reclen d < 65536 /\ Z.of_nat (length (d_area d)) = d_reclen d - 19.

(** The fixed fields with [n]-byte [d_ino] and [d_off]; a [struct dirent64]; the
    record [getdents] makes of it, which keeps its length. *)
Definition header (n : nat) (d : dent) : list Z :=
  le_bytes n (d_ino d) ++ le_bytes n (d_off d) ++ le_bytes 2 (d_reclen d) ++
  le_bytes 1 (d_type d).

Definition enc64 (d : dent) : list Z := header 8 d ++ d_area d.

Definition enc (d : dent) : list Z :=
  let new := header w d ++ d_area d in new ++ drop (length new) (enc64 d).

Definition records (l : list dent) : list Z := concat (enc64 <$> l).

Lemma length_header n d : length (header n d) = (2 * n + 3)%nat.
Proof. unfold header. rewrite !length_app, !length_le_bytes. lia. Qed.

Lemma length_enc64 d : dent_ok d -> Z.of_nat (length (enc64 d)) = d_reclen d.
Proof. intros [H1 H2]. unfold enc64. rewrite length_app, length_header. lia. Qed.

Lemma le_bytes_mod n k x : (n <= k)%nat -> le_bytes n (x mod 256 ^ Z.of_nat k) = le_bytes n x.
Proof.
  revert k x. induction n as [|n IH]; intros k x Hk; [done|]. destruct k as [|k]; [lia|].
  cbn [le_bytes]. rewrite Nat2Z.inj_succ, Z.pow_succ_r by lia.
  rewrite Z.rem_mul_r by (try apply Z.pow_pos_nonneg; lia). f_equal.
  - rewrite (Z.mul_comm 256), Z.mod_add by lia. by rewrite Z.mod_mod by lia.
  - rewrite (Z.mul_comm 256), Z.div_add, Z.div_small, Z.add_0_l by
      (try apply Z.mod_pos_bound; lia). apply IH. lia.
Qed.

(** ** A record overwritten from its start

    [done] has been written over the first bytes of the record [X]. *)
Definition partial (pre done_ X post : list Z) : list Z :=
  pre ++ done_ ++ drop (length done_) X ++ post.

Lemma splice_partial pre done_ X post y :
  (length done_ + length y <= length X)%nat ->
  splice (partial pre done_ X post) (length pre + length done_) y
  = partial pre (done_ ++ y) X post.
Proof.
  intros H. unfold splice, partial.
  rewrite (app_assoc pre done_), take_app_length' by (rewrite length_app; lia).
  rewrite <- drop_drop, drop_app_length' by (rewrite length_app; lia).
  rewrite drop_app_le by (rewrite length_drop; lia).
  rewrite drop_drop, length_app. by rewrite <- !app_assoc.
Qed.

Lemma slice_partial pre done_ X post o n :
  (length done_ <= o)%nat -> (o + n <= length X)%nat ->
  take n (drop (length pre + o) (partial pre done_ X post)) = take n (drop o X).
Proof.
  intros H1 H2. unfold partial. rewrite <- drop_drop, drop_app_length.
  replace o with (length done_ + (o - length done_))%nat at 1 by lia.
  rewrite <- drop_drop, drop_app_length, drop_app_le by (rewrite length_drop; lia).
  rewrite drop_drop, take_app_le by (rewrite length_drop; lia).
  f_equal. f_equal. lia.
Qed.

Lemma length_partial pre done_ X post :
  (length done_ <= length X)%nat ->
  length (partial pre done_ X post) = (length pre + length X + length post)%nat.
Proof. intros. unfold partial. rewrite !length_app, length_drop. lia. Qed.

Lemma copy_partial pre done_ X post src soff n y (s : world OS) pos :
  pos = Z.of_nat (length pre + length done_) ->
  0 <= soff -> 0 <= n -> soff + n <= Z.of_nat (length src) ->
  take (Z.to_nat n) (drop (Z.to_nat soff) src) = y -> Z.of_nat (length y) = n ->
  (length done_ + length y <= length X)%nat ->
  memcpy_at (partial pre done_ X post) pos src soff n s
  = Ret (partial pre (done_ ++ y) X post, s).
Proof.
  intros -> H1 H2 H3 Hy Hn Hl.
  rewrite run_memcpy; [|lia..|rewrite length_partial by lia; lia|done].
  unfold read_slice. rewrite Hy, Nat2Z.id. by rewrite splice_partial.
Qed.

Lemma store_partial pre done_ X post n x (s : world OS) pos :
  pos = Z.of_nat (length pre + length done_) -> (length done_ + n <= length X)%nat ->
  store n x pos (partial pre done_ X post) s
  = Ret (partial pre (done_ ++ le_bytes n x) X post, s).
Proof.
  intros -> Hl. unfold store.
  apply copy_partial; rewrite ?length_le_bytes; try lia.
  rewrite drop_0, take_ge; [done|]. rewrite length_le_bytes. lia.
Qed.

Lemma run_load n o buf (s : world OS) :
  0 <= o -> o + Z.of_nat n <= Z.of_nat (length buf) ->
  load n o buf s = Ret (le_val (take n (drop (Z.to_nat o) buf)), s).
Proof.
  intros. unfold load. destruct (Z.leb_spec 0 o); [|lia].
  destruct (Z.leb_spec (o + Z.of_nat n) (Z.of_nat (length buf))); [done|lia].
Qed.

Lemma load_partial pre done_ X post n o (s : world OS) pos :
  pos = Z.of_nat (length pre + o) -> (length done_ <= o)%nat -> (o + n <= length X)%nat ->
  load n pos (partial pre done_ X post) s = Ret (le_val (take n (drop o X)), s).
Proof.
  intros -> H1 H2. rewrite run_load; [|lia|rewrite length_partial by lia; lia].
  by rewrite Nat2Z.id, slice_partial.
Qed.

(** Reading a piece that has been written. *)
Lemma load_done pre a c rest X post n (s : world OS) pos :
  pos = Z.of_nat (length pre + length a) -> length c = n ->
  load n pos (partial pre (a ++ c ++ rest) X post) s = Ret (le_val c, s).
Proof.
  intros -> <-. unfold partial.
  rewrite run_load; [|lia|rewrite !length_app; lia].
  rewrite Nat2Z.id, <- drop_drop, drop_app_length, <- !app_assoc.
  by rewrite drop_app_length, take_app_length.
Qed.

(** The fields of a record. *)
Lemma piece_at (a b c : list Z) o n :
  length a = o -> length b = n -> take n (drop o (a ++ b ++ c)) = b.
Proof. intros <- <-. by rewrite drop_app_length, take_app_length. Qed.

Lemma fields64 d :
  take 8 (drop 0 (enc64 d)) = le_bytes 8 (d_ino d) /\
  take 8 (drop 8 (enc64 d)) = le_bytes 8 (d_off d) /\
  take 2 (drop 16 (enc64 d)) = le_bytes 2 (d_reclen d) /\
  take 1 (drop 18 (enc64 d)) = le_bytes 1 (d_type d) /\
  drop 19 (enc64 d) = d_area d.
Proof. repeat split; reflexivity. Qed.

Context (Hw : (2 <= w <= 8)%nat).

Lemma rewrite_one d k pre post res (s : world OS) :
  dent_ok d -> Z.of_nat (length pre) < res ->
  rewrite_dents (S k) (Z.of_nat (length pre)) res (pre ++ enc64 d ++ post) s
  = rewrite_dents k (Z.of_nat (length pre) + d_reclen d) res (pre ++ enc d ++ post) s.
Proof.
  intros Hd Hres. pose proof (length_enc64 d Hd) as HX. destruct Hd as [Hr Ha].
  destruct (fields64 d) as (F1&F2&F3&F4&F5).
  cbn [rewrite_dents]. destruct (Z.ltb_spec (Z.of_nat (length pre)) res); [|lia].
  change (pre ++ enc64 d ++ post) with (partial pre [] (enc64 d) post).
  pose proof (length_le_bytes w) as Lw.
  pose proof (length_le_bytes 2) as L2. pose proof (length_le_bytes 1) as L1.
  assert (R : le_val (le_bytes 2 (d_reclen d)) = d_reclen d).
  { rewrite le_val_bytes. apply Z.mod_small. simpl. lia. }
  erewrite run_bind by (apply (load_partial _ _ _ _ 2 16); simpl; lia). rewrite F3, R.
  assert (N : ulong (d_reclen d - 19) = d_reclen d - 19).
  { apply wrapU_small. split; [lia|]. apply Z.lt_le_trans with (2 ^ 16); [simpl; lia|].
    apply Z.pow_le_mono_r; lia. }
  rewrite N.
  erewrite run_bind by (apply (load_partial _ _ _ _ 8 0); simpl; lia). rewrite F1.
  erewrite run_bind by (apply store_partial; simpl; lia).
  erewrite run_bind by (apply (load_partial _ _ _ _ 8 8); simpl; rewrite ?Lw; lia). rewrite F2.
  erewrite run_bind by (apply store_partial; simpl; rewrite ?Lw; lia).
  erewrite run_bind by (apply (load_partial _ _ _ _ 2 16); rewrite ?length_app, ?Lw; simpl; lia).
  rewrite F3, R.
  erewrite run_bind by (apply store_partial; rewrite ?length_app, ?Lw; simpl; lia).
  erewrite run_bind by
    (apply (load_partial _ _ _ _ 1 18); rewrite ?length_app, ?Lw, ?L2; simpl; lia).
  rewrite F4.
  erewrite run_bind by (apply store_partial; rewrite ?length_app, ?Lw, ?L2; simpl; lia).
  erewrite run_bind.
  2:{ apply (copy_partial _ _ _ _ _ _ _ (d_area d)); rewrite ?length_app, ?Lw, ?L2, ?L1;
        try (simpl; lia).
      - unfold partial. rewrite ?length_app, ?length_drop, ?length_app, ?Lw, ?L2, ?L1.
        simpl. lia.
      - replace (Z.to_nat (Z.of_nat (length pre) + 19)) with (length pre + 19)%nat by lia.
        rewrite slice_partial by (rewrite ?length_app, ?Lw, ?L2, ?L1; simpl; lia).
        rewrite F5. apply take_ge. lia. }
  rewrite app_nil_l, !le_val_bytes, (le_bytes_mod 1 1) by lia.
  rewrite !le_bytes_mod by lia.
  rewrite <- !app_assoc, (app_assoc (le_bytes w (d_ino d))).
  erewrite run_bind by (apply load_done; rewrite ?length_app, ?Lw, ?L2; simpl; lia).
  rewrite R. f_equal. unfold partial, enc, header. by rewrite <- !app_assoc.
Qed.

Lemma rewrite_dents_run ds : forall fuel pre post res (s : world OS),
  Forall dent_ok ds -> (length ds < fuel)%nat ->
  res = Z.of_nat (length pre + length (records ds)) ->
  rewrite_dents fuel (Z.of_nat (length pre)) res (pre ++ records ds ++ post) s
  = Ret (pre ++ concat (enc <$> ds) ++ post, s).
Proof.
  induction ds as [|d ds IH]; intros fuel pre post res s Hds Hf Hres;
    (destruct fuel as [|k]; [simpl in Hf; lia|]).
  - cbn [rewrite_dents]. simpl in Hres. destruct (Z.ltb_spec (Z.of_nat (length pre)) res);
      [lia|done].
  - apply Forall_cons in Hds as [Hd Hds]. pose proof (length_enc64 d Hd) as HX.
    unfold records in *. rewrite fmap_cons, concat_cons, length_app in *.
    rewrite <- app_assoc. destruct Hd as [Hr Ha].
    rewrite rewrite_one by (done || lia).
    assert (HE : length (enc d) = length (enc64 d)).
    { unfold enc. rewrite length_app, length_drop, length_app, length_header.
      assert (length (enc64 d) = 19 + length (d_area d))%nat by lia. lia. }
    specialize (IH k (pre ++ enc d) post res s Hds). rewrite length_app in IH.
    rewrite <- !app_assoc in IH. simpl in Hf.
    replace (Z.of_nat (length pre) + d_reclen d)
      with (Z.of_nat (length pre + length (enc d))) by lia.
    rewrite IH by lia. rewrite fmap_cons, concat_cons. by rewrite <- app_assoc.
Qed.

(** ** The listing of the symbolic files *)

(** The record of symbolic file number [i]; [area] is what the buffer held
    behind the two bytes of the name. *)
Definition file_dent (x : exe_disk_file_t) (i : Z) (area : list Z) : dent :=
  mkDent (st_ino (stat x)) ((i + 1) * sizeof_dirent64) sizeof_dirent64
    (Z.shiftr (Z.land (st_mode (stat x)) S_IFMT) 12) (u8 (65 + i) :: 0 :: area).

Fixpoint file_dents (xs : list exe_disk_file_t) (i : Z) (buf : list Z) : list dent :=
  match xs with
  | [] => []
  | x :: xs' => file_dent x i (take 259 (drop 21 buf)) ::
                file_dents xs' (i + 1) (drop 280 buf)
  end.

(** The record that covers the rest of the first [pad] bytes. *)
Definition pad_dent (reclen : Z) (area : list Z) : dent := mkDent 0 4096 reclen 0 (0 :: area).

Lemma run_store n x pre old post buf (s : world OS) pos :
  buf = pre ++ old ++ post -> pos = Z.of_nat (length pre) -> length old = n ->
  store n x pos buf s = Ret (pre ++ le_bytes n x ++ post, s).
Proof.
  intros -> -> <-. unfold store. pose proof (length_le_bytes (length old) x) as L.
  rewrite run_memcpy; [|lia..|rewrite !length_app; lia|lia].
  unfold read_slice. rewrite drop_0, take_ge by lia. unfold splice.
  rewrite Nat2Z.id, take_app_length, L, <- drop_drop, drop_app_length, drop_app_length.
  done.
Qed.

Lemma run_load_piece n pre c post buf (s : world OS) pos :
  buf = pre ++ c ++ post -> pos = Z.of_nat (length pre) -> length c = n ->
  load n pos buf s = Ret (le_val c, s).
Proof.
  intros -> -> <-. rewrite run_load; [|lia|rewrite !length_app; lia].
  by rewrite Nat2Z.id, drop_app_length, take_app_length.
Qed.

(** The pieces of a record of which [d_name] has at least one byte. *)
Lemma record_pieces (r : list Z) :
  (20 <= length r)%nat -> exists a b c d e, r = a ++ b ++ c ++ d ++ e ++ drop 20 r /\
    length a = 8%nat /\ length b = 8%nat /\ length c = 2%nat /\ length d = 1%nat /\
    length e = 1%nat.
Proof.
  intros H. exists (take 8 r), (take 8 (drop 8 r)), (take 2 (drop 16 r)),
    (take 1 (drop 18 r)), (take 1 (drop 19 r)).
  rewrite !length_take, !length_drop. split_and!; try lia.
  rewrite <- (take_drop 8 r) at 1. f_equal. rewrite <- (take_drop 8 (drop 8 r)) at 1.
  rewrite drop_drop. f_equal. rewrite <- (take_drop 2 (drop (8 + 8) r)) at 1.
  rewrite drop_drop. f_equal. rewrite <- (take_drop 1 (drop (8 + 8 + 2) r)) at 1.
  rewrite drop_drop. f_equal. rewrite <- (take_drop 1 (drop (8 + 8 + 2 + 1) r)) at 1.
  by rewrite drop_drop.
Qed.

(** A store over the piece [old] of the buffer, [pre] and [post] around it. *)
Local Ltac store_piece p o q :=
  erewrite run_bind by
    (apply (run_store _ _ p o q); [by rewrite <- ?app_assoc|
       rewrite ?length_app, ?length_le_bytes; lia|done]).

(** The stores of one record, in the order of the code. *)
Lemma emit_one k x i bytes pre r post (s : world OS) :
  get_df (w_fs s) (DSym (Z.to_nat i)) = Some x -> length r = 280%nat ->
  emit_dents (S k) i (Z.of_nat (length pre)) bytes (pre ++ r ++ post) s
  = emit_dents k (i + 1) (Z.of_nat (length pre) + 280) (bytes + 280)
      (pre ++ enc64 (file_dent x i (drop 21 r)) ++ post) s.
Proof.
  intros Hx Hr. cbn [emit_dents]. erewrite run_bind by (by apply run_deref).
  destruct (record_pieces r) as (a&b&c&d&e&Er&La&Lb&Lc&Ld&Le); [lia|].
  destruct (drop 20 r) as [|n1 g] eqn:Eg; [apply (f_equal length) in Eg;
    rewrite length_drop in Eg; simpl in Eg; lia|].
  replace (drop 21 r) with g by (change 21%nat with (20 + 1)%nat; by rewrite <- drop_drop, Eg).
  rewrite Er. change (n1 :: g) with ([n1] ++ g).
  store_piece pre a (b ++ c ++ d ++ e ++ [n1] ++ g ++ post).
  store_piece (pre ++ le_bytes 8 (st_ino (stat x)) ++ b) c (d ++ e ++ [n1] ++ g ++ post).
  store_piece (pre ++ le_bytes 8 (st_ino (stat x)) ++ b ++ le_bytes 2 sizeof_dirent64) d
    (e ++ [n1] ++ g ++ post).
  set (ty := le_bytes 1 _). assert (Lt : length ty = 1%nat) by apply length_le_bytes.
  store_piece (pre ++ le_bytes 8 (st_ino (stat x)) ++ b ++ le_bytes 2 sizeof_dirent64 ++ ty) e
    ([n1] ++ g ++ post).
  store_piece (pre ++ le_bytes 8 (st_ino (stat x)) ++ b ++ le_bytes 2 sizeof_dirent64 ++ ty ++
    le_bytes 1 (65 + i)) [n1] (g ++ post).
  store_piece (pre ++ le_bytes 8 (st_ino (stat x))) b
    (le_bytes 2 sizeof_dirent64 ++ ty ++ le_bytes 1 (65 + i) ++ le_bytes 1 0 ++ g ++ post).
  erewrite run_bind by
    (apply (run_load_piece 2 (pre ++ le_bytes 8 (st_ino (stat x)) ++ le_bytes 8 ((i + 1) * sizeof_dirent64))
       (le_bytes 2 sizeof_dirent64) (ty ++ le_bytes 1 (65 + i) ++ le_bytes 1 0 ++ g ++ post));
       [by rewrite <- ?app_assoc|
       rewrite ?length_app, ?length_le_bytes; lia|done]).
  f_equal. unfold enc64, header. cbn [d_ino d_off d_reclen d_type d_area file_dent].
  by rewrite <- !app_assoc.
Qed.

Lemma emit_run xs : forall i bytes pre rest (s : world OS),
  0 <= i -> (forall j x, xs !! j = Some x -> sym_files (w_fs s) !! (Z.to_nat i + j)%nat = Some x) ->
  (280 * length xs <= length rest)%nat ->
  emit_dents (length xs) i (Z.of_nat (length pre)) bytes (pre ++ rest) s
  = Ret ((Z.of_nat (length pre + 280 * length xs), bytes + 280 * Z.of_nat (length xs),
          pre ++ records (file_dents xs i rest) ++ drop (280 * length xs) rest), s).
Proof.
  induction xs as [|x xs IH]; intros i bytes pre rest s Hi Hxs Hl.
  { unfold emit_dents, mret, M_ret. simpl. by rewrite !Nat.add_0_r, Z.add_0_r. }
  cbn [length] in *. rewrite <- (take_drop 280 rest) at 1. rewrite (emit_one _ x); cycle 1.
  { simpl. rewrite <- (Hxs O x eq_refl). f_equal. lia. }
  { rewrite length_take. lia. }
  set (d := file_dent x i (drop 21 (take 280 rest))).
  assert (Hd : length (enc64 d) = 280%nat).
  { unfold enc64. rewrite length_app, length_header. simpl.
    rewrite length_drop, length_take. lia. }
  specialize (IH (i + 1) (bytes + 280) (pre ++ enc64 d) (drop 280 rest) s).
  rewrite length_app, Hd, <- !app_assoc in IH.
  replace (Z.of_nat (length pre) + 280) with (Z.of_nat (length pre + 280)) by lia.
  rewrite IH; [|lia| |rewrite length_drop; lia].
  - cbn [file_dents]. unfold records. rewrite fmap_cons, concat_cons, <- !app_assoc, drop_drop.
    replace (take 259 (drop 21 rest)) with (drop 21 (take 280 rest)).
    2:{ rewrite take_drop_commute. done. }
    replace (280 * S (length xs))%nat with (280 + 280 * length xs)%nat by lia.
    rewrite Nat.add_assoc.
    by replace (bytes + 280 * Z.of_nat (S (length xs)))
      with (bytes + 280 + 280 * Z.of_nat (length xs)) by lia.
  - intros j y Hj. rewrite <- (Hxs (S j) y Hj). f_equal. lia.
Qed.

Lemma file_dents_ok xs : forall i buf, (280 * length xs <= length buf)%nat ->
  Forall dent_ok (file_dents xs i buf).
Proof.
  induction xs as [|x xs IH]; intros i buf H; simpl in H; [constructor|].
  constructor; [|apply IH; rewrite length_drop; lia].
  split; simpl; unfold sizeof_dirent64; [lia|]. rewrite length_take, length_drop. lia.
Qed.

Lemma length_records l : Forall dent_ok l ->
  Z.of_nat (length (records l)) = foldr (fun d n => d_reclen d + n) 0 l.
Proof.
  induction 1 as [|d l Hd Hl IH]; [done|]. unfold records in *.
  rewrite fmap_cons, concat_cons, length_app, Nat2Z.inj_add, IH.
  cbn [foldr]. rewrite length_enc64 by done. done.
Qed.

Lemma file_dents_length xs : forall i buf, length (file_dents xs i buf) = length xs.
Proof. induction xs; intros; simpl; auto. Qed.

Lemma file_dents_size xs i buf : (280 * length xs <= length buf)%nat ->
  length (records (file_dents xs i buf)) = (280 * length xs)%nat.
Proof.
  intros H. enough (Z.of_nat (length (records (file_dents xs i buf)))
                    = 280 * Z.of_nat (length xs)) by lia.
  rewrite length_records by (by apply file_dents_ok). clear H.
  revert i buf. induction xs as [|x xs IH]; intros i buf; [done|].
  cbn [file_dents foldr length]. rewrite IH. unfold file_dent, sizeof_dirent64. simpl. lia.
Qed.

(** The records of a listing from file [i] on in the first [pad] bytes. *)
Definition listing (fs : exe_file_system_t) (i : nat) (dirp : list Z) (pad : nat) : list dent :=
  let xs := drop i (sym_files fs) in
  let bytes := (280 * length xs)%nat in
  file_dents xs (Z.of_nat i) dirp ++
  [pad_dent (Z.of_nat (pad - bytes)) (take (pad - bytes - 20) (drop (bytes + 20) dirp))].

(** The stores of the last record. *)
Lemma pad_run pos reclen pre r post buf0 (s : world OS) {B} (k : list Z -> Z -> M B) :
  pos = Z.of_nat (length pre) -> buf0 = pre ++ r ++ post ->
  (20 <= length r)%nat -> reclen = Z.of_nat (length r) -> reclen < 65536 ->
  (buf ← store 8 0 pos buf0;
   buf ← store 2 (u16 reclen) (pos + 16) buf;
   buf ← store 1 0 (pos + 18) buf;
   buf ← store 1 0 (pos + 19) buf;
   buf ← store 8 4096 (pos + 8) buf;
   n ← load 2 (pos + 16) buf;
   k buf n) s
  = k (pre ++ enc64 (pad_dent reclen (drop 20 r)) ++ post) reclen s.
Proof.
  intros -> -> Hr Hn Hb.
  destruct (record_pieces r Hr) as (a&b&c&d&e&Er&La&Lb&Lc&Ld&Le).
  assert (u16 reclen = reclen) as -> by (apply wrapU_small; simpl; lia).
  set (g := drop 20 r) in *. rewrite Er.
  store_piece pre a (b ++ c ++ d ++ e ++ g ++ post).
  store_piece (pre ++ le_bytes 8 0 ++ b) c (d ++ e ++ g ++ post).
  store_piece (pre ++ le_bytes 8 0 ++ b ++ le_bytes 2 reclen) d (e ++ g ++ post).
  store_piece (pre ++ le_bytes 8 0 ++ b ++ le_bytes 2 reclen ++ le_bytes 1 0) e (g ++ post).
  store_piece (pre ++ le_bytes 8 0) b
    (le_bytes 2 reclen ++ le_bytes 1 0 ++ le_bytes 1 0 ++ g ++ post).
  erewrite run_bind by
    (apply (run_load_piece 2 (pre ++ le_bytes 8 0 ++ le_bytes 8 4096) (le_bytes 2 reclen)
       (le_bytes 1 0 ++ le_bytes 1 0 ++ g ++ post));
       [by rewrite <- ?app_assoc|rewrite ?length_app, ?length_le_bytes; lia|done]).
  rewrite le_val_bytes, Z.mod_small by (simpl; lia). f_equal.
  unfold enc64, header. cbn [d_ino d_off d_reclen d_type d_area pad_dent].
  by rewrite <- !app_assoc.
Qed.

Lemma records_app l1 l2 : records (l1 ++ l2) = records l1 ++ records l2.
Proof. unfold records. by rewrite fmap_app, concat_app. Qed.

Section Listing.
Context (s : world OS) (fd_ : Z) (f : exe_file_t) (i : nat) (dirp : list Z).
Abbreviation n := (length (sym_files (w_fs s))).
Abbreviation pad := (Nat.min 4096 (length dirp)).
Context (Hr : 0 <= fd_ < 32) (Hf : fds (w_env s) !! Z.to_nat fd_ = Some f)
  (Ho : is_open f = true) (Hd : dfile f = None) (Hoff : off f = 280 * Z.of_nat i)
  (Hi : (i <= n)%nat) (Hi' : 280 * Z.of_nat i < 4096)
  (Hn : n_sym_files (w_fs s) = Z.of_nat n)
  (Hc : Z.of_nat (length dirp) < 2 ^ 32) (Hfit : (280 * (n - i) + 20 <= pad)%nat).

Lemma listing_ok : Forall dent_ok (listing (w_fs s) i dirp pad).
Proof.
  unfold listing. apply Forall_app. split.
  - apply file_dents_ok. rewrite length_drop. lia.
  - constructor; [|constructor].
    split; cbn [d_reclen d_area pad_dent length]; rewrite ?length_take, ?length_drop; lia.
Qed.

Lemma listing_size : length (records (listing (w_fs s) i dirp pad)) = pad.
Proof.
  unfold listing. rewrite records_app, length_app.
  rewrite file_dents_size by (rewrite length_drop; lia).
  unfold records. cbn [fmap list_fmap concat]. rewrite app_nil_r.
  unfold enc64. rewrite length_app, length_header. cbn [d_area pad_dent length].
  rewrite length_take, !length_drop. lia.
Qed.

Lemma getdents64_run :
  __fd_getdents sys fd_ dirp (Z.of_nat (length dirp)) s
  = Ret ((Z.of_nat pad, records (listing (w_fs s) i dirp pad) ++ drop pad dirp),
         upd_file (Z.to_nat fd_) (at_off f (Z.of_nat pad)) s).
Proof.
  unfold __fd_getdents.
  assert (s32 fd_ = fd_) as -> by (apply wrapS_small; simpl; lia).
  erewrite run_bind by (by apply (run_get_file s fd_ f)). cbv beta iota.
  erewrite run_bind by (by apply run_get_entry). rewrite Hd.
  assert (u64 (off f) = off f) as -> by (apply wrapU_small; simpl; lia).
  destruct (Z.ltb_spec (off f) 4096); [|lia].
  erewrite run_bind by reflexivity. cbv zeta beta. rewrite Hn.
  replace (off f / sizeof_dirent64) with (Z.of_nat i)
    by (rewrite Hoff; unfold sizeof_dirent64; rewrite Z.mul_comm, Z.div_mul; lia).
  unfold sizeof_dirent64 at 1. destruct (Z.eqb_spec (Z.of_nat i * 280) (off f)); [|lia].
  destruct (Z.ltb_spec (Z.of_nat n) (Z.of_nat i)); [lia|]. cbn [negb orb].
  assert (P : (if 4096 <=? Z.of_nat (length dirp) then 4096 else Z.of_nat (length dirp))
              = Z.of_nat pad) by (destruct (Z.leb_spec 4096 (Z.of_nat (length dirp))); lia).
  rewrite P. unfold listing. set (xs := drop i (sym_files (w_fs s))).
  assert (Lx : length xs = (n - i)%nat) by apply length_drop.
  replace (Z.to_nat (Z.of_nat n - Z.of_nat i)) with (length xs) by lia.
  erewrite run_bind.
  2:{ apply (emit_run xs (Z.of_nat i) 0 [] dirp s); [lia| |lia].
      intros j x Hj. rewrite Nat2Z.id. unfold xs in Hj. by rewrite lookup_drop in Hj. }
  cbv beta iota. rewrite app_nil_l. set (B := (280 * length xs)%nat).
  set (recs := records (file_dents xs (Z.of_nat i) dirp)).
  assert (LB : length recs = B) by (apply file_dents_size; lia).
  change (length [] + B)%nat with B.
  assert (HB : B = (280 * (n - i))%nat) by (unfold B; lia).
  set (r := take (pad - B) (drop B dirp)).
  assert (Lr : length r = (pad - B)%nat).
  { unfold r. rewrite length_take, length_drop. lia. }
  assert (Er : recs ++ drop B dirp = recs ++ r ++ drop pad dirp).
  { f_equal. unfold r. rewrite <- (take_drop (pad - B) (drop B dirp)) at 1.
    rewrite drop_drop. do 2 f_equal. lia. }
  replace (Z.of_nat pad - (0 + 280 * Z.of_nat (length xs))) with (Z.of_nat (pad - B)) by lia.
  etransitivity; [apply (pad_run _ _ recs r (drop pad dirp)); [by rewrite LB|done|lia..]|].
  erewrite run_bind by (by apply run_set_off). unfold mret, M_ret. f_equal. f_equal. f_equal.
  - transitivity (s32 (Z.of_nat pad)); [f_equal; lia|].
    apply wrapS_small; [lia|]. change (2 ^ (32 - 1)) with 2147483648. lia.
  - rewrite records_app, <- app_assoc. f_equal. unfold records.
    cbn [fmap list_fmap concat]. rewrite app_nil_r. do 3 f_equal.
    unfold r. by rewrite <- drop_drop, skipn_firstn_comm.
Qed.

Lemma getdents_run :
  getdents fd_ dirp (Z.of_nat (length dirp)) s
  = Ret ((Z.of_nat pad, concat (enc <$> listing (w_fs s) i dirp pad) ++ drop pad dirp),
         upd_file (Z.to_nat fd_) (at_off f (Z.of_nat pad)) s).
Proof.
  unfold getdents.
  assert (u32 fd_ = fd_) as -> by (apply wrapU_small; simpl; lia).
  assert (u32 (Z.of_nat (length dirp)) = Z.of_nat (length dirp)) as ->
    by (apply wrapU_small; simpl; lia).
  erewrite run_bind by apply getdents64_run. cbv beta iota.
  destruct (Z.ltb_spec 0 (Z.of_nat pad)); [|lia].
  erewrite run_bind; [reflexivity|].
  apply (rewrite_dents_run _ _ [] (drop pad dirp)); [apply listing_ok| |].
  - unfold listing. rewrite length_app, file_dents_length, length_drop. cbn [length]. lia.
  - by rewrite listing_size.
Qed.

(** C36: listing a directory from file number [i] on, with room for the records,
    returns the first [min(4096, count)] bytes filled with one record for each
    symbolic file from [i] on, with its inode, type, letter and offset, and a
    last record of inode 0 that covers the rest; the descriptor's offset moves
    there.  [getdents] returns the same records, each in the layout of
    [struct dirent]. *)
Theorem getdents_lists_files :
  let ds := listing (w_fs s) i dirp pad in
  let s' := upd_file (Z.to_nat fd_) (at_off f (Z.of_nat pad)) s in
  Forall dent_ok ds /\ length ds = (n - i + 1)%nat /\
  __fd_getdents sys fd_ dirp (Z.of_nat (length dirp)) s
  = Ret ((Z.of_nat pad, records ds ++ drop pad dirp), s') /\
  getdents fd_ dirp (Z.of_nat (length dirp)) s
  = Ret ((Z.of_nat pad, concat (enc <$> ds) ++ drop pad dirp), s').
Proof.
  split_and!; [apply listing_ok| |apply getdents64_run|apply getdents_run].
  unfold listing. rewrite length_app, file_dents_length, length_drop. simpl. lia.
Qed.
End Listing.

(** Whatever records the kernel returned, the loop of [getdents] terminates
    and turns each of them in place into a [struct dirent] with the same inode
    and offset (cut to a [long]), length, type and name, at the same position
    in the buffer; the bytes after the records are untouched. *)
Theorem getdents_rewrites_in_place ds post (s : world OS) :
  Forall dent_ok ds ->
  rewrite_dents (S (length (records ds))) 0 (Z.of_nat (length (records ds)))
    (records ds ++ post) s
  = Ret (concat (enc <$> ds) ++ post, s) /\
  Forall2 (fun d r => length r = length (enc64 d) /\
             take (2 * w + 3) r = header w d /\
             take (length (d_area d)) (drop (2 * w + 3) r) = d_area d) ds (enc <$> ds).
Proof.
  intros Hds. split.
  - apply (rewrite_dents_run ds _ [] post); [done| |done].
    clear s. induction Hds as [|d ds Hd Hds IH]; [simpl; lia|].
    pose proof (length_enc64 d Hd) as HX. destruct Hd as [Hr Ha].
    unfold records in *. rewrite fmap_cons, concat_cons, length_app. simpl. lia.
  - apply Forall2_fmap_r, Forall_Forall2_diag. eapply Forall_impl; [exact Hds|].
    intros d Hd. cbv beta. pose proof (length_enc64 d Hd) as HX. destruct Hd as [Hr Ha].
    pose proof (length_header w d) as LH. unfold enc. split_and!.
    + rewrite length_app, length_drop, length_app, LH. lia.
    + rewrite <- app_assoc, <- LH. apply take_app_length.
    + rewrite <- app_assoc, <- LH, drop_app_length. apply take_app_length.
Qed.
End Fd32.

(** ** Witnesses *)

Lemma getdents_lists_files_witness :
  __fd_getdents sample_sys 0 (replicate 600 7) 600 sample_w
  = Ret ((600, records (listing (w_fs sample_w) 0 (replicate 600 7) 600) ++ []),
         upd_file 0 (at_off (mkFile 0 5 0 None) 600) sample_w).
Proof.
  refine (proj1 (proj2 (proj2 (getdents_lists_files sample_sys 4 _ sample_w 0
    (mkFile 0 5 0 None) 0 (replicate 600 7) _ _ _ _ _ _ _ _ _ _)))); [lia|lia|..].
  1-4: vm_compute; reflexivity.
  all: vm_compute; (reflexivity || lia).
Defined.

Definition sample_dents : list dent :=
  [mkDent 17 24 24 4 [46; 0; 0; 0; 0]; mkDent 4294967301 48 24 8 [97; 98; 0; 9; 9]].

Lemma getdents_rewrites_in_place_witness :
  rewrite_dents (OS:=unit) 4 49 0 48 (records sample_dents ++ [1; 2]) sample_w
  = Ret (concat (enc 4 <$> sample_dents) ++ [1; 2], sample_w).
Proof.
  apply (getdents_rewrites_in_place 4 ltac:(lia) sample_dents [1; 2] sample_w).
  repeat constructor; simpl; lia.
Defined.
End Fd32.
