(* ===== verification/PosixStubs.v ===== *)
(** * The stubs of the POSIX runtime

    Models [src/vital-src/runtime/POSIX/stubs.c] and [illegal.c]: the system
    calls the runtime does not simulate.  Most of them refuse with a fixed error
    number, a few report success without doing anything; time comes from
    [gettimeofday], a parameter as in [PosixFd].  [selinux.c] is modelled with
    the file-creation context as its state.

    The device-number helpers [gnu_dev_major], [gnu_dev_minor] and
    [gnu_dev_makedev] are arithmetic; they are shown to be inverse to each
    other on the whole range of their types. *)

From S2P Require Import Prelude PosixState PosixFd.

Module Stubs.
Section Stubs.
Context {OS : Type} (sys : kernel OS).

Abbreviation M := (PosixState.M OS).
Abbreviation syscall := (PosixState.syscall sys).

(** ** stubs.c: calls that succeed without effect *)

Definition __syscall_rt_sigaction (signum act oldact something : Z) : M Z := mret 0.
Definition sigaction (signum act oldact : Z) : M Z := mret 0.
Definition sigprocmask (how set oldset : Z) : M Z := mret 0.
Definition fdatasync (fd_ : Z) : M Z := mret 0.
Definition nanosleep (req rem : Z) : M Z := mret 0.
Definition setgid (gid : Z) : M Z := mret 0.
Definition setuid (uid : Z) : M Z := mret 0.
Definition sync : M unit := mret tt.
Definition getloadavg (loadavg nelem : Z) : M Z := mret (-1).

(** ** stubs.c: calls that are refused *)

Definition __socketcall (type args : Z) : M Z := fail EAFNOSUPPORT (-1).
Definition mkdir (pathname : option (list Z)) (mode : Z) : M Z := fail EIO (-1).
Definition mkfifo (pathname : option (list Z)) (mode : Z) : M Z := fail EIO (-1).
Definition mknod (pathname : option (list Z)) (mode dev : Z) : M Z := fail EIO (-1).
Definition pipe (filedes : Z) : M Z := fail ENFILE (-1).
Definition link (oldpath newpath : option (list Z)) : M Z := fail EPERM (-1).
Definition symlink (oldpath newpath : option (list Z)) : M Z := fail EPERM (-1).
Definition rename (oldpath newpath : option (list Z)) : M Z := fail EPERM (-1).
Definition clock_settime (clk_id res : Z) : M Z := fail EPERM (-1).
Definition utime (filename : option (list Z)) (buf : Z) : M Z := fail EPERM (-1).
Definition futimes (fd_ : Z) (times : Z) : M Z := fail EBADF (-1).
Definition wait (status : Z) : M Z := fail ECHILD (-1).
Definition wait3 (status options rusage : Z) : M Z := fail ECHILD (-1).
Definition wait4 (pid status options rusage : Z) : M Z := fail ECHILD (-1).
Definition waitpid (pid status options : Z) : M Z := fail ECHILD (-1).
Definition waitid (idtype id infop options : Z) : M Z := fail ECHILD (-1).
Definition acl_delete_def_file (path_p : option (list Z)) : M Z := fail EPERM (-1).
Definition acl_extended_file (path_p : Z) : M Z := fail ENOENT (-1).
Definition acl_entries (acl : Z) : M Z := fail EINVAL (-1).
Definition acl_from_mode (mode : Z) : M Z := fail ENOMEM 0.
Definition acl_get_fd (fd_ : Z) : M Z := fail ENOMEM 0.
Definition acl_get_file (pathname : option (list Z)) (type : Z) : M Z := fail ENOMEM 0.
Definition acl_set_fd (fd_ acl : Z) : M Z := fail EPERM (-1).
Definition acl_set_file (path_p : option (list Z)) (type acl : Z) : M Z := fail EPERM (-1).
Definition acl_free (obj_p : Z) : M Z := fail EINVAL (-1).
Definition mount (source target filesystemtype : option (list Z)) (mountflags data : Z) : M Z := fail EPERM (-1).
Definition umount (target : option (list Z)) : M Z := fail EPERM (-1).
Definition umount2 (target : option (list Z)) (fl : Z) : M Z := fail EPERM (-1).
Definition swapon (path : option (list Z)) (swapflags : Z) : M Z := fail EPERM (-1).
Definition swapoff (path : option (list Z)) : M Z := fail EPERM (-1).
Definition setgroups (size list_ : Z) : M Z := fail EPERM (-1).
Definition sethostname (name : option (list Z)) (len : Z) : M Z := fail EPERM (-1).
Definition setpgid (pid pgid : Z) : M Z := fail EPERM (-1).
Definition setpgrp : M Z := fail EPERM (-1).
Definition setpriority (which who prio : Z) : M Z := fail EPERM (-1).
Definition setresgid (rgid egid sgid : Z) : M Z := fail EPERM (-1).
Definition setresuid (ruid euid suid : Z) : M Z := fail EPERM (-1).
Definition setrlimit (resource rlim : Z) : M Z := fail EPERM (-1).
Definition setrlimit64 (resource rlim : Z) : M Z := fail EPERM (-1).
Definition setsid : M Z := fail EPERM (-1).
Definition settimeofday (tv tz : Z) : M Z := fail EPERM (-1).
Definition reboot (flag : Z) : M Z := fail EPERM (-1).
Definition mlock (addr len : Z) : M Z := fail EPERM (-1).
Definition munlock (addr len : Z) : M Z := fail EPERM (-1).
Definition pause : M Z := fail EPERM (-1).
Definition readahead (fd_ offset count : Z) : M Z := fail EPERM (-1).
Definition mmap (start length prot fl fd_ offset : Z) : M Z := fail EPERM (-1).
Definition mmap64 (start length prot fl fd_ offset : Z) : M Z := fail EPERM (-1).
Definition munmap (start length : Z) : M Z := fail EPERM (-1).

(** ** stubs.c: time and identity *)

(** [gettimeofday]: seconds and microseconds. *)
Definition gettimeofday : M (Z * Z) :=
  r ← syscall SysGettimeofday; mret (nth 0 (sr_data r) 0, nth 1 (sr_data r) 0).

(** The seconds and nanoseconds stored through [res]. *)
Definition clock_gettime (clk_id : Z) : M (Z * (Z * Z)) :=
  tv ← gettimeofday; mret (0, (tv.1, s64 (tv.2 * 1000))).

(** The value returned and what is stored when [t] is not null. *)
Definition time (t : bool) : M (Z * option Z) :=
  tv ← gettimeofday; mret (tv.1, if t then Some tv.1 else None).

(** The four fields of [struct tms], when [buf] is not null. *)
Definition times (buf : bool) : M (Z * option (list Z)) :=
  mret (0, if buf then Some [0; 0; 0; 0] else None).

Definition euidaccess (pathname : option (list Z)) (mode : Z) : M Z :=
  Fd.access sys pathname mode.

Definition eaccess (pathname : option (list Z)) (mode : Z) : M Z :=
  euidaccess pathname mode.

Definition group_member (gid : Z) : M Z :=
  g ← syscall SysGetgid;
  if gid =? u32 (sr_ret g) then mret 1
  else e ← syscall SysGetegid; mret (Z.b2z (gid =? u32 (sr_ret e))).

(** ** Library calls on top of the descriptor layer: putchar.c of klee-libc and
    the fortified calls of Fortify/fortify.c *)

Definition putchar (c : Z) : M Z :=
  r ← Fd.write sys 1 (Some [u8 c]) 1;
  if 1 =? r then mret c else mret (-1).

Definition __read_chk (fd_ : Z) (buf : option (list Z)) (nbytes buflen : Z)
    : M (Z * option (list Z)) :=
  if buflen <? nbytes then halt (KleeError "read overflow")
  else Fd.read sys fd_ buf nbytes.

Definition __readlink_chk (path : option (list Z)) (buf : list Z) (len buflen : Z)
    : M (Z * list Z) :=
  if buflen <? len then halt (KleeError "readlink overflow")
  else Fd.readlink sys path buf len.

(** ** illegal.c *)

Definition kill (pid sig : Z) : M Z := fail EPERM (-1).
Definition execl (path arg : option (list Z)) : M Z := fail EACCES (-1).
Definition execlp (file arg : option (list Z)) : M Z := fail EACCES (-1).
Definition execle (path arg : option (list Z)) : M Z := fail EACCES (-1).
Definition execv (path : option (list Z)) (argv : Z) : M Z := fail EACCES (-1).
Definition execvp (file : option (list Z)) (argv : Z) : M Z := fail EACCES (-1).
Definition execve (file : option (list Z)) (argv envp : Z) : M Z := fail EACCES (-1).
Definition fork : M Z := fail ENOMEM (-1).
Definition vfork : M Z := fork.
Definition _setjmp (env : Z) : M Z := mret 0.
Definition longjmp (env val : Z) : M unit := halt (KleeError "longjmp unsupported").

End Stubs.

(** ** Device numbers *)

Definition gnu_dev_major (dev : Z) : Z :=
  Z.lor (Z.land (Z.shiftr dev 8) 4095) (Z.land (u32 (Z.shiftr dev 32)) (Z.lnot 4095)).

Definition gnu_dev_minor (dev : Z) : Z :=
  Z.lor (Z.land dev 255) (Z.land (u32 (Z.shiftr dev 12)) (Z.lnot 255)).

Definition gnu_dev_makedev (major minor : Z) : Z :=
  Z.lor (Z.lor (Z.lor (Z.land minor 255) (Z.shiftl (Z.land major 4095) 8))
               (Z.shiftl (Z.land minor (Z.lnot 255)) 12))
        (Z.shiftl (Z.land major (Z.lnot 4095)) 32).

(** ** selinux.c *)

Definition exe_selinux : Z := 1.
Definition is_selinux_enabled : Z := exe_selinux.

(** [create_con]: null or a string. *)
Definition getfscreatecon (create_con : option (list Z)) : Z * option (list Z) :=
  (0, create_con).

(** Returns the result and the new [create_con]. *)
Definition setfscreatecon (context create_con : option (list Z))
    : outcome (Z * option (list Z)) :=
  match context with
  | None => Ret (0, None)
  | Some c =>
      if negb (nth 0 c 0 =? 0) && (nth 1 c 0 =? 0) then Stop (SilentExit 1)
      else Ret (-1, create_con)
  end.

Definition ENOSPC : Z := 28.

(** The result and the error number assigned. *)
Definition setfilecon (path con : option (list Z)) : Z * option Z :=
  match con with Some _ => (0, None) | None => (-1, Some ENOSPC) end.

Definition lsetfilecon (path con : option (list Z)) : Z * option Z := setfilecon path con.
Definition fsetfilecon (fd_ : Z) (con : option (list Z)) : Z * option Z :=
  setfilecon (Some []) con.

(** ** Device numbers round trip *)

Lemma testbit_high x w n : 0 <= x < 2 ^ w -> w <= n -> 0 <= w -> Z.testbit x n = false.
Proof.
  intros Hx Hn Hw. apply Z.testbit_false; [lia|]. rewrite Z.div_small; [done|].
  assert (2 ^ w <= 2 ^ n) by (apply Z.pow_le_mono_r; lia). lia.
Qed.

Lemma testbit_mask k n :
  0 <= k -> Z.testbit (2 ^ k - 1) n = (0 <=? n) && (n <? k).
Proof.
  intros. replace (2 ^ k - 1) with (Z.ones k) by (rewrite Z.ones_equiv; lia).
  destruct (Z.leb_spec 0 n); [|by apply Z.testbit_neg_r].
  destruct (Z.ltb_spec n k).
  - by apply Z.ones_spec_low.
  - by apply Z.ones_spec_high.
Qed.

Lemma testbit_unmask k n : 0 <= k -> Z.testbit (Z.lnot (2 ^ k - 1)) n = (k <=? n).
Proof.
  intros. destruct (Z.leb_spec 0 n).
  - rewrite Z.lnot_spec, testbit_mask by done.
    destruct (Z.leb_spec 0 n), (Z.ltb_spec n k), (Z.leb_spec k n); lia || done.
  - rewrite Z.testbit_neg_r by done. destruct (Z.leb_spec k n); lia || done.
Qed.

Lemma testbit_wrap w x n : 0 <= w ->
  Z.testbit (wrapU w x) n = (n <? w) && Z.testbit x n.
Proof.
  intros. unfold wrapU. destruct (Z.ltb_spec n w).
  - by rewrite Z.mod_pow2_bits_low.
  - by rewrite Z.mod_pow2_bits_high by lia.
Qed.

Lemma testbit_shl x k n : 0 <= k -> Z.testbit (Z.shiftl x k) n = Z.testbit x (n - k).
Proof.
  intros. destruct (Z.leb_spec 0 n); [by apply Z.shiftl_spec|].
  by rewrite !Z.testbit_neg_r by lia.
Qed.

Lemma testbit_shr x k n :
  0 <= k -> Z.testbit (Z.shiftr x k) n = (0 <=? n) && Z.testbit x (n + k).
Proof.
  intros. destruct (Z.leb_spec 0 n); [by apply Z.shiftr_spec|].
  by rewrite Z.testbit_neg_r by lia.
Qed.

(** Decide an equation between bits of masks, shifts and unions by cases on
    the position; the remaining bits are those of the original words. *)
Ltac bits_step :=
  match goal with
  | |- context [?a <? ?b] => destruct (Z.ltb_spec a b); try lia
  | |- context [?a <=? ?b] => destruct (Z.leb_spec a b); try lia
  end.

Ltac bits_solve :=
  repeat (rewrite Z.lor_spec || rewrite Z.land_spec ||
    (rewrite testbit_shl by lia) || (rewrite testbit_shr by lia) ||
    (rewrite testbit_wrap by lia) || (rewrite (testbit_mask 8) by lia) ||
    (rewrite (testbit_mask 12) by lia) || (rewrite (testbit_unmask 8) by lia) ||
    (rewrite (testbit_unmask 12) by lia));
  repeat bits_step; simpl; rewrite ?andb_false_r, ?andb_true_r, ?orb_false_r; simpl;
  rewrite ?Z.add_simpl_r, ?Z.sub_add.

Lemma major_makedev ma mi :
  0 <= ma < 2 ^ 32 -> 0 <= mi < 2 ^ 32 -> gnu_dev_major (gnu_dev_makedev ma mi) = ma.
Proof.
  intros HM Hm. unfold gnu_dev_major, gnu_dev_makedev, u32.
  change 4095 with (2 ^ 12 - 1). change 255 with (2 ^ 8 - 1).
  apply Z.bits_inj'. intros n Hn. bits_solve; try reflexivity.
  all: rewrite ?(testbit_high ma 32 n), ?(testbit_high mi 32 (n + 8 - 12)),
    ?(testbit_high mi 32 (n + 32 - 12)) by lia; reflexivity.
Qed.

Lemma minor_makedev ma mi :
  0 <= ma < 2 ^ 32 -> 0 <= mi < 2 ^ 32 -> gnu_dev_minor (gnu_dev_makedev ma mi) = mi.
Proof.
  intros HM Hm. unfold gnu_dev_minor, gnu_dev_makedev, u32.
  change 4095 with (2 ^ 12 - 1). change 255 with (2 ^ 8 - 1).
  apply Z.bits_inj'. intros n Hn. bits_solve; try reflexivity.
  all: rewrite ?(testbit_high mi 32 n) by lia; reflexivity.
Qed.

Lemma makedev_parts d :
  0 <= d < 2 ^ 64 -> gnu_dev_makedev (gnu_dev_major d) (gnu_dev_minor d) = d.
Proof.
  intros Hd. unfold gnu_dev_minor, gnu_dev_major, gnu_dev_makedev, u32.
  change 4095 with (2 ^ 12 - 1). change 255 with (2 ^ 8 - 1).
  apply Z.bits_inj'. intros n Hn. bits_solve; try reflexivity.
  all: rewrite ?(testbit_high d 64 n) by lia; reflexivity.
Qed.

(** Packing and unpacking device numbers are inverse to each other: a
    major and a minor number of 32 bits come back from the packed number, and
    every 64-bit device number is the packing of its two parts. *)
Theorem device_numbers_roundtrip ma mi d :
  0 <= ma < 2 ^ 32 -> 0 <= mi < 2 ^ 32 -> 0 <= d < 2 ^ 64 ->
  gnu_dev_major (gnu_dev_makedev ma mi) = ma /\
  gnu_dev_minor (gnu_dev_makedev ma mi) = mi /\
  gnu_dev_makedev (gnu_dev_major d) (gnu_dev_minor d) = d.
Proof. auto using major_makedev, minor_makedev, makedev_parts. Qed.

Lemma device_numbers_roundtrip_witness :
  gnu_dev_major (gnu_dev_makedev 70000 300000) = 70000 /\
  gnu_dev_minor (gnu_dev_makedev 70000 300000) = 300000 /\
  gnu_dev_makedev (gnu_dev_major 2049) (gnu_dev_minor 2049) = 2049.
Proof. apply (device_numbers_roundtrip 70000 300000 2049); lia. Defined.

End Stubs.
