(* ===== verification/CMem.v ===== *)
(** * Byte memory

    The memory the routines of [runtime/klee-libc] and [runtime/Freestanding]
    work on: a finite map from addresses to bytes (0..255), in which the
    addresses of live objects are mapped.  An access to an unmapped address is
    the engine's memory error.  Address arithmetic stays inside an object and
    does not wrap. *)

From S2P Require Import Prelude.

Abbreviation mem := (gmap Z Z).

Definition load (m : mem) (a : Z) : outcome Z := of_option MemError (m !! a).

Definition store (m : mem) (a v : Z) : outcome mem :=
  match m !! a with Some _ => Ret (<[a := u8 v]> m) | None => Stop MemError end.

(** [l] is stored from [p] on; [s] is a C string at [p]; [n] bytes from [p] on
    are mapped. *)
Definition bytes_at (m : mem) (p : Z) (l : list Z) : Prop :=
  forall i b, l !! i = Some b -> m !! (p + Z.of_nat i) = Some b.

Definition str_at (m : mem) (p : Z) (s : list Z) : Prop :=
  bytes_at m p (s ++ [0]) /\ Forall (fun c => c <> 0) s.

Definition mapped (m : mem) (p n : Z) : Prop :=
  forall a, p <= a < p + n -> is_Some (m !! a).

(** The memory with [l] written from [p] on. *)
Fixpoint write_bytes (p : Z) (l : list Z) (m : mem) : mem :=
  match l with
  | [] => m
  | b :: l' => <[p := b]> (write_bytes (p + 1) l' m)
  end.

(** ** Lemmas *)

Lemma bytes_at_cons m p b l :
  bytes_at m p (b :: l) <-> m !! p = Some b /\ bytes_at m (p + 1) l.
Proof.
  split.
  - intros H. split; [specialize (H O b eq_refl); by rewrite Z.add_0_r in H|].
    intros i c Hi. specialize (H (S i) c Hi). rewrite <- H. f_equal. lia.
  - intros [H1 H2] [|i] c Hi; simpl in Hi; simplify_eq.
    + by rewrite Z.add_0_r.
    + rewrite <- (H2 i c Hi). f_equal. lia.
Qed.

Lemma bytes_at_nil m p : bytes_at m p [].
Proof. by intros i b Hi. Qed.

Lemma bytes_at_app m p l1 l2 :
  bytes_at m p (l1 ++ l2) <-> bytes_at m p l1 /\ bytes_at m (p + Z.of_nat (length l1)) l2.
Proof.
  revert p. induction l1 as [|b l1 IH]; intros p; simpl.
  - rewrite Z.add_0_r. split; [split; [apply bytes_at_nil|done]|by intros [_ ?]].
  - rewrite !bytes_at_cons, IH.
    replace (p + 1 + Z.of_nat (length l1)) with (p + Z.of_nat (S (length l1))) by lia.
    tauto.
Qed.

Lemma str_at_cons m p c s :
  str_at m p (c :: s) <-> m !! p = Some c /\ c <> 0 /\ str_at m (p + 1) s.
Proof.
  unfold str_at. simpl. rewrite bytes_at_cons, Forall_cons. tauto.
Qed.

Lemma str_at_nil m p : str_at m p [] <-> m !! p = Some 0.
Proof.
  unfold str_at. simpl. rewrite bytes_at_cons. split; [tauto|].
  intros H. split_and!; [done|apply bytes_at_nil|done].
Qed.

Lemma lookup_write_bytes p l m a :
  write_bytes p l m !! a =
  if decide (p <= a < p + Z.of_nat (length l)) then l !! Z.to_nat (a - p) else m !! a.
Proof.
  revert p. induction l as [|b l IH]; intros p; simpl.
  - case_decide; [lia|done].
  - destruct (decide (a = p)) as [->|Hne].
    + rewrite lookup_insert_eq, decide_True by lia. by rewrite Z.sub_diag.
    + rewrite lookup_insert_ne, IH by done. do 2 case_decide; try lia; [|done].
      replace (Z.to_nat (a - p)) with (S (Z.to_nat (a - (p + 1)))) by lia. done.
Qed.

Lemma write_bytes_app p l1 l2 m :
  write_bytes p (l1 ++ l2) m
  = write_bytes p l1 (write_bytes (p + Z.of_nat (length l1)) l2 m).
Proof.
  revert p. induction l1 as [|b l1 IH]; intros p; simpl; [by rewrite Z.add_0_r|].
  rewrite IH. do 3 f_equal. lia.
Qed.

(** Writing below or above the address of an insertion commutes with it. *)
Lemma write_bytes_insert p l m a v :
  a < p \/ p + Z.of_nat (length l) <= a ->
  write_bytes p l (<[a := v]> m) = <[a := v]> (write_bytes p l m).
Proof.
  intros Ha. apply map_eq. intros x. rewrite lookup_write_bytes.
  destruct (decide (x = a)) as [->|Hne].
  - rewrite decide_False by lia. by rewrite !lookup_insert_eq.
  - rewrite !lookup_insert_ne, lookup_write_bytes by done. done.
Qed.

Lemma bytes_at_write p l m : bytes_at (write_bytes p l m) p l.
Proof.
  intros i b Hi. rewrite lookup_write_bytes.
  assert (i < length l)%nat by (by eapply lookup_lt_Some).
  rewrite decide_True by lia. by replace (Z.to_nat (p + Z.of_nat i - p)) with i by lia.
Qed.

Lemma bytes_at_write_other p l m q l' :
  bytes_at m q l' -> q + Z.of_nat (length l') <= p \/ p + Z.of_nat (length l) <= q ->
  bytes_at (write_bytes p l m) q l'.
Proof.
  intros H Hd i b Hi. assert (i < length l')%nat by (by eapply lookup_lt_Some).
  rewrite lookup_write_bytes, decide_False by lia. by apply H.
Qed.

Lemma bytes_at_insert m p l a v :
  bytes_at m p l -> a < p \/ p + Z.of_nat (length l) <= a ->
  bytes_at (<[a := v]> m) p l.
Proof.
  intros H Ha i b Hi. assert (i < length l)%nat by (by eapply lookup_lt_Some).
  rewrite lookup_insert_ne by lia. by apply H.
Qed.

Lemma mapped_insert m p n a v : mapped m p n -> mapped (<[a := v]> m) p n.
Proof.
  intros H x Hx. destruct (decide (x = a)) as [->|]; [rewrite lookup_insert_eq; eauto|].
  rewrite lookup_insert_ne by done. by apply H.
Qed.

Lemma mapped_sub m p n q k : mapped m p n -> p <= q -> q + k <= p + n -> mapped m q k.
Proof. intros H ? ? a Ha. apply H. lia. Qed.

Lemma store_mapped m a v : is_Some (m !! a) -> store m a v = Ret (<[a := u8 v]> m).
Proof. intros [x Hx]. unfold store. by rewrite Hx. Qed.

Lemma load_lookup m a v : m !! a = Some v -> load m a = Ret v.
Proof. intros H. unfold load. by rewrite H. Qed.

Lemma u8_byte v : is_byte v = true -> u8 v = v.
Proof. unfold is_byte. intros H. to_prop. apply wrapU_small. simpl. lia. Qed.

(** Contiguous bytes are bounded by the size of the memory, so a scan needs at
    most one step more than the memory has bytes. *)
Lemma bytes_at_size m p l : bytes_at m p l -> (length l <= size m)%nat.
Proof.
  intros H. rewrite <- (length_seqZ p (Z.of_nat (length l))) at 1
    || rewrite <- (Nat2Z.id (length l)).
  rewrite <- size_dom.
  transitivity (size (list_to_set (seqZ p (Z.of_nat (length l))) : gset Z)).
  - rewrite size_list_to_set by apply NoDup_seqZ. rewrite length_seqZ. lia.
  - apply subseteq_size. intros a Ha. apply elem_of_list_to_set, elem_of_seqZ in Ha.
    apply elem_of_dom.
    destruct (lookup_lt_is_Some_2 l (Z.to_nat (a - p))) as [b Hb]; [lia|].
    exists b. rewrite <- (H _ _ Hb). f_equal. lia.
Qed.

Lemma str_at_size m p s : str_at m p s -> (length s < size m)%nat.
Proof.
  intros [H _]. apply bytes_at_size in H. rewrite length_app in H. simpl in H. lia.
Qed.

Lemma size_insert_mapped (m : mem) a v : is_Some (m !! a) -> size (<[a := v]> m) = size m.
Proof. intros [x Hx]. by rewrite map_size_insert_Some. Qed.

#[export] Hint Resolve bytes_at_nil mapped_insert : vital.
