(* ===== verification/PosixConcretize.v ===== *)
(** * Concretisation of values handed to the kernel

    Models [__concretize_ptr], [__concretize_size] and [__concretize_string] of
    [src/vital-src/runtime/POSIX/fd.c].  Unlike the rest of the runtime, which
    is modelled on one path on which every byte has a value, these helpers are
    about the path itself: a value is a constant or an expression over the
    valuations of the symbolic inputs, a path is the set of valuations that
    satisfy its condition, a branch on an expression forks, and [klee_assume]
    narrows the path.  The theorem is that on every path that comes out, the
    value and the memory are what they were for each valuation of the path,
    which is why [PosixFd] may treat the helpers as the identity. *)

From S2P Require Import Prelude CMem.

Module Concretize.
Section Concretize.
(** The valuations of the symbolic inputs, and [klee_get_valuel]: the value the
    engine picks for an expression on a path. *)
Context {V : Type}.
Abbreviation pathcond := (V -> bool).
Context (klee_get_valuel : pathcond -> (V -> Z) -> Z).

Inductive value : Type := Con (z : Z) | Sym (e : V -> Z).

Definition eval (v : V) (x : value) : Z :=
  match x with Con z => z | Sym e => e v end.

Abbreviation smem := (gmap Z value).

(** ** Paths *)

(** The results on the paths a computation splits into. *)
Definition P (A : Type) : Type := pathcond -> list (outcome A * pathcond).

#[global] Instance P_ret : MRet P := fun A a pc => [(Ret a, pc)].
#[global] Instance P_bind : MBind P := fun A B f m pc =>
  m pc ≫= fun '(r, pc') =>
    match r with Ret a => f a pc' | Stop e => [(Stop e, pc')] end.

Definition stop_path {A} (e : stop) : P A := fun pc => [(Stop e, pc)].

(** [if (c)] on an expression: both sides, each with its condition. *)
Definition fork (c : V -> bool) : P bool := fun pc =>
  [(Ret true, fun v => pc v && c v); (Ret false, fun v => pc v && negb (c v))].

Definition klee_assume (c : V -> bool) : P unit := fun pc =>
  [(Ret tt, fun v => pc v && c v)].

Definition get_value (e : V -> Z) : P Z := fun pc => [(Ret (klee_get_valuel pc e), pc)].

(** ** The helpers *)

Definition __concretize_ptr (p : value) : P Z :=
  x ← get_value (fun v => s64 (eval v p));
  let pc := u64 x in
  klee_assume (fun v => pc =? eval v p);;
  mret pc.

Definition __concretize_size (s : value) : P Z :=
  x ← get_value (fun v => s64 (eval v s));
  let sc := u64 x in
  klee_assume (fun v => sc =? eval v s);;
  mret sc.

(** [!(i&(i-1))] on [unsigned i]: the positions at which a symbolic character
    stays symbolic, 0 and the powers of two. *)
Definition keeps (i : Z) : bool := Z.land i (u32 (i - 1)) =? 0.

(** The loop [for (i = 0;; ++i, ++sc)]. *)
Fixpoint concretize_loop (fuel : nat) (i sc : Z) (m : smem) : P smem :=
  match fuel with
  | O => stop_path OutOfFuel
  | S k =>
      match m !! sc with
      | None => stop_path MemError
      | Some (Con z) =>
          if s8 z =? 0 then mret m
          else concretize_loop k (u32 (i + 1)) (sc + 1) m
      | Some (Sym e) =>
          if keeps i then
            z ← fork (fun v => s8 (e v) =? 0);
            if z : bool then mret (<[sc := Con 0]> m) else
            s ← fork (fun v => s8 (e v) =? 47);
            concretize_loop k (u32 (i + 1)) (sc + 1)
              (if s : bool then <[sc := Con 47]> m else m)
          else
            x ← get_value (fun v => s8 (e v));
            let cc := s8 x in
            klee_assume (fun v => cc =? s8 (e v));;
            let m := <[sc := Con (u8 cc)]> m in
            if cc =? 0 then mret m
            else concretize_loop k (u32 (i + 1)) (sc + 1) m
      end
  end.

(** A scan that has not ended after one step per mapped address has left the
    memory. *)
Definition __concretize_string (s : value) (m : smem) : P (value * smem) :=
  sc ← __concretize_ptr s;
  m' ← concretize_loop (S (size m)) 0 sc m;
  mret (s, m').

(** ** Every path is a part of the path before *)

Definition narrows {A} (c : P A) : Prop :=
  forall pc r pc' v, (r, pc') ∈ c pc -> pc' v = true -> pc v = true.

Lemma elem_bind {A B} (c : P A) (f : A -> P B) pc r pc' :
  (r, pc') ∈ (c ≫= f) pc <->
  exists r0 pc0, (r0, pc0) ∈ c pc /\
    match r0 with Ret a => (r, pc') ∈ f a pc0 | Stop e => r = Stop e /\ pc' = pc0 end.
Proof.
  unfold mbind, P_bind. rewrite list_elem_of_bind. split.
  - intros ([r0 pc0]&H1&H2). exists r0, pc0. split; [done|].
    destruct r0; [done|]. apply list_elem_of_singleton in H1. by simplify_eq.
  - intros (r0&pc0&H1&H2). exists (r0, pc0). split; [|done].
    destruct r0; [done|]. destruct H2 as [-> ->]. by apply list_elem_of_singleton.
Qed.

Lemma narrows_ret {A} (a : A) : narrows (mret a).
Proof. intros pc r pc' v H. apply list_elem_of_singleton in H. by simplify_eq. Qed.

Lemma narrows_stop {A} e : narrows (stop_path (A:=A) e).
Proof. intros pc r pc' v H. apply list_elem_of_singleton in H. by simplify_eq. Qed.

Lemma narrows_bind {A B} (c : P A) (f : A -> P B) :
  narrows c -> (forall a, narrows (f a)) -> narrows (c ≫= f).
Proof.
  intros Hc Hf pc r pc' v (r0&pc0&H1&H2)%elem_bind Hv. apply (Hc _ _ _ _ H1).
  destruct r0; [by eapply Hf|]. by destruct H2 as [_ ->].
Qed.

Lemma narrows_fork c : narrows (fork c).
Proof.
  intros pc r pc' v H Hv. unfold fork in H. rewrite !elem_of_cons in H.
  destruct H as [|[|[]%not_elem_of_nil]]; simplify_eq; by to_prop.
Qed.

Lemma narrows_assume c : narrows (klee_assume c).
Proof.
  intros pc r pc' v H Hv. apply list_elem_of_singleton in H. simplify_eq. by to_prop.
Qed.

Lemma narrows_value e : narrows (get_value e).
Proof. intros pc r pc' v H. apply list_elem_of_singleton in H. by simplify_eq. Qed.

Lemma narrows_loop fuel : forall i sc m, narrows (concretize_loop fuel i sc m).
Proof.
  induction fuel as [|k IH]; intros i sc m; cbn [concretize_loop];
    [apply narrows_stop|].
  destruct (m !! sc) as [[z|e]|]; [destruct (_ =? _)|destruct (keeps _)|];
    auto using narrows_ret, narrows_stop.
  - apply narrows_bind; [apply narrows_fork|]. intros []; [apply narrows_ret|].
    apply narrows_bind; [apply narrows_fork|auto].
  - apply narrows_bind; [apply narrows_value|]. intros x.
    apply narrows_bind; [apply narrows_assume|]. intros _. simpl.
    destruct (_ =? _); auto using narrows_ret.
Qed.

(** ** Following one valuation *)

Lemma bind_fork {A} c (f : bool -> P A) pc r pc' v :
  (forall b, narrows (f b)) -> (r, pc') ∈ (fork c ≫= f) pc -> pc' v = true ->
  exists pc0, pc0 v = true /\ (r, pc') ∈ f (c v) pc0.
Proof.
  intros Hf (r0&pc0&H1&H2)%elem_bind Hv. unfold fork in H1.
  rewrite !elem_of_cons in H1.
  destruct H1 as [|[|[]%not_elem_of_nil]]; simplify_eq;
    pose proof (Hf _ _ _ _ _ H2 Hv) as Hn; cbn beta in Hn; to_prop; eexists;
    (split; [exact (Hf _ _ _ _ _ H2 Hv)|]);
    match goal with E : c v = _ |- _ => by rewrite E end.
Qed.

Lemma bind_assume {A} c (f : unit -> P A) pc r pc' v :
  (forall b, narrows (f b)) -> (r, pc') ∈ (klee_assume c ≫= f) pc -> pc' v = true ->
  c v = true /\ exists pc0, pc0 v = true /\ (r, pc') ∈ f tt pc0.
Proof.
  intros Hf (r0&pc0&H1&H2)%elem_bind Hv. apply list_elem_of_singleton in H1.
  simplify_eq. pose proof (Hf _ _ _ _ _ H2 Hv) as Hn.
  cbn beta in Hn. to_prop. split; [done|]. eexists. split; [exact (Hf _ _ _ _ _ H2 Hv)|done].
Qed.

Lemma bind_value {A} e (f : Z -> P A) pc :
  (get_value e ≫= f) pc = f (klee_get_valuel pc e) pc.
Proof. unfold mbind, P_bind, get_value. simpl. by rewrite app_nil_r. Qed.

Lemma char_byte b : is_byte b = true ->
  u8 (s8 b) = b /\ s8 (s8 b) = s8 b /\ (s8 b = 0 -> b = 0) /\ (s8 b = 47 -> b = 47).
Proof.
  intros Hb. unfold is_byte in Hb. to_prop.
  unfold u8, s8, wrapU, wrapS. change (2 ^ 8) with 256. change (2 ^ (8 - 1)) with 128.
  repeat split; Z.div_mod_to_equations; lia.
Qed.

Lemma eval_insert v (m : smem) a x :
  (eval v <$> m) !! a = Some x -> eval v <$> <[a := Con x]> m = eval v <$> m.
Proof. intros H. rewrite fmap_insert. by apply insert_id. Qed.

(** What the loop leaves behind on the path of a valuation. *)
Definition loop_post (v : V) (i sc : Z) (m : smem) (l : list Z) (r : outcome smem) : Prop :=
  exists m', r = Ret m' /\ eval v <$> m' = eval v <$> m /\
    (forall a, a < sc -> m' !! a = m !! a) /\
    forall k : nat, (k <= length l)%nat -> keeps (u32 (i + Z.of_nat k)) = false ->
      exists z, m' !! (sc + Z.of_nat k) = Some (Con z).

(** One step of the loop over a character that is not NUL. *)
Lemma loop_post_step v i sc m m1 b l r :
  0 <= i < 2 ^ 32 -> loop_post v (u32 (i + 1)) (sc + 1) m1 l r ->
  eval v <$> m1 = eval v <$> m -> (forall a, a < sc -> m1 !! a = m !! a) ->
  (keeps i = false -> exists z, m1 !! sc = Some (Con z)) ->
  loop_post v i sc m (b :: l) r.
Proof.
  intros Hi (m'&->&He&Hlt&Hk) He1 Hlt1 Hc. exists m'. split_and!; [done|congruence|..].
  - intros a Ha. rewrite Hlt, Hlt1 by lia. done.
  - intros [|k] Hl Hkeep.
    + rewrite Z.add_0_r in *. rewrite Hlt by lia. apply Hc.
      rewrite <- Hkeep. f_equal. symmetry. by apply wrapU_small.
    + simpl in Hl. destruct (Hk k) as [z Hz]; [lia| |].
      * rewrite <- Hkeep. f_equal. unfold u32, wrapU.
        rewrite Zplus_mod_idemp_l. f_equal. lia.
      * exists z. rewrite <- Hz. f_equal. lia.
Qed.

(** The end of the loop, at the NUL. *)
Lemma loop_post_end v i sc m m1 :
  0 <= i < 2 ^ 32 -> eval v <$> m1 = eval v <$> m ->
  (forall a, a < sc -> m1 !! a = m !! a) ->
  (keeps i = false -> exists z, m1 !! sc = Some (Con z)) ->
  loop_post v i sc m [] (Ret m1).
Proof.
  intros Hi He Hlt Hc. exists m1. split_and!; [done..|].
  intros k Hk Hkeep. simpl in Hk. replace k with 0%nat in * by lia.
  rewrite Z.add_0_r in *. apply Hc. rewrite <- Hkeep. f_equal. symmetry.
  by apply wrapU_small.
Qed.

Lemma insert_below (m : smem) sc x a : a < sc -> <[sc := x]> m !! a = m !! a.
Proof. intros. by rewrite lookup_insert_ne by lia. Qed.

Lemma insert_here (m : smem) sc z : exists z', <[sc := Con z]> m !! sc = Some (Con z').
Proof. exists z. apply lookup_insert_eq. Qed.

Lemma eval_lookup v (m : smem) a b :
  (eval v <$> m) !! a = Some b -> exists x, m !! a = Some x /\ eval v x = b.
Proof. rewrite lookup_fmap. intros (x&->&->)%fmap_Some. eauto. Qed.

(** The first character of the string, and the rest when it is not NUL. *)
Lemma str_first m p l : str_at m p l ->
  exists b, m !! p = Some b /\ (b = 0 -> l = []) /\
    (b <> 0 -> exists l', l = b :: l' /\ str_at m (p + 1) l').
Proof.
  destruct l as [|b l]; [rewrite str_at_nil|rewrite str_at_cons].
  - intros H. exists 0. split_and!; [done..|]. by intros [].
  - intros (H&Hb&Hs). exists b. split_and!; [done..|]. intros _. eauto.
Qed.

Lemma loop_sound v fuel : forall i sc m pc r pc' l,
  (r, pc') ∈ concretize_loop fuel i sc m pc -> pc' v = true ->
  str_at (eval v <$> m) sc l -> Forall is_byte l -> (length l < fuel)%nat ->
  0 <= i < 2 ^ 32 -> loop_post v i sc m l r.
Proof.
  induction fuel as [|n IH]; intros i sc m pc r pc' l Hin Hv Hs Hl Hf Hi; [lia|].
  destruct (str_first _ _ _ Hs) as (b&Hb&Hz&Hnz).
  destruct (eval_lookup _ _ _ _ Hb) as (x&Hx&Ex).
  assert (Hbyte : is_byte b = true).
  { destruct (decide (b = 0)) as [->|Hne]; [done|].
    destruct (Hnz Hne) as (l'&->&_). apply Forall_cons in Hl as [Hl _].
    by apply Is_true_true. }
  destruct (char_byte b Hbyte) as (U8&S8&Z0&Z47).
  assert (Hne : s8 b <> 0 -> b <> 0) by (intros E ->; by apply E).
  assert (Hstep : forall m1 pc1, (r, pc') ∈ concretize_loop n (u32 (i + 1)) (sc + 1) m1 pc1 ->
    b <> 0 -> eval v <$> m1 = eval v <$> m -> (forall a, a < sc -> m1 !! a = m !! a) ->
    (keeps i = false -> exists z, m1 !! sc = Some (Con z)) -> loop_post v i sc m l r).
  { intros m1 pc1 H1 H2 H3 H4 H5. destruct (Hnz H2) as (l'&->&Hs'). simpl in Hf.
    apply (loop_post_step v i sc m m1); auto. apply Forall_cons in Hl as [_ Hl].
    eapply IH; [exact H1|done|by rewrite H3|done|lia|apply u32_range]. }
  cbn [concretize_loop] in Hin. rewrite Hx in Hin. destruct x as [z|e]; simpl in Ex; subst.
  - destruct (Z.eqb_spec (s8 b) 0) as [E|E].
    + apply list_elem_of_singleton in Hin. simplify_eq. rewrite Hz by auto.
      apply loop_post_end; eauto.
    + eapply Hstep; eauto.
  - destruct (keeps i) eqn:Ek.
    + apply (bind_fork _ _ _ _ _ v) in Hin as (pc1&_&Hin); [|clear..|done].
      2:{ intros []; [apply narrows_ret|]. apply narrows_bind; [apply narrows_fork|].
          intros. apply narrows_loop. }
      destruct (Z.eqb_spec (s8 (e v)) 0) as [E|E].
      * apply list_elem_of_singleton in Hin. simplify_eq. rewrite Hz by auto.
        rewrite Z0 in Hb by done. apply loop_post_end; eauto using insert_below, insert_here, eval_insert.
      * apply (bind_fork _ _ _ _ _ v) in Hin as (pc2&_&Hin); [|intros; apply narrows_loop|done].
        destruct (Z.eqb_spec (s8 (e v)) 47) as [E'|E'].
        -- rewrite Z47 in Hb by done.
           eapply Hstep; eauto using insert_below, insert_here, eval_insert.
        -- eapply Hstep; eauto. congruence.
    + rewrite bind_value in Hin.
      apply (bind_assume _ _ _ _ _ v) in Hin as (Ec&pc1&_&Hin); [|clear|done].
      2:{ intros _. destruct (_ =? _); [apply narrows_ret|apply narrows_loop]. }
      to_prop. rewrite Ec, U8 in Hin.
      destruct (Z.eqb_spec (s8 (e v)) 0) as [E|E].
      * apply list_elem_of_singleton in Hin. simplify_eq. rewrite Hz by auto.
        apply loop_post_end; eauto using insert_below, insert_here, eval_insert.
      * eapply Hstep; eauto using insert_below, insert_here, eval_insert.
Qed.

Lemma ptr_sound p pc r pc' v :
  (r, pc') ∈ __concretize_ptr p pc -> pc' v = true -> pc v = true /\ r = Ret (eval v p).
Proof.
  unfold __concretize_ptr. rewrite bind_value. intros Hin Hv. split.
  { revert Hin Hv. apply narrows_bind; [apply narrows_assume|]. intros. apply narrows_ret. }
  apply (bind_assume _ _ _ _ _ v) in Hin as (Ec&pc1&_&Hin);
    [|intros; apply narrows_ret|done].
  apply list_elem_of_singleton in Hin. to_prop. simplify_eq. by rewrite Ec.
Qed.

(** ** Some path goes on *)

Definition live {A} (c : P A) : Prop :=
  forall pc, (exists v, pc v = true) -> exists r pc' v, (r, pc') ∈ c pc /\ pc' v = true.

Lemma live_ret {A} (a : A) : live (mret a).
Proof. intros pc [v Hv]. exists (Ret a), pc, v. split; [left|done]. Qed.

Lemma live_stop {A} e : live (stop_path (A:=A) e).
Proof. intros pc [v Hv]. exists (Stop e), pc, v. split; [left|done]. Qed.

Lemma live_fork c : live (fork c).
Proof.
  intros pc [v Hv]. unfold fork. destruct (c v) eqn:E.
  - exists (Ret true). eexists. exists v. split; [left|]. simpl. by rewrite Hv, E.
  - exists (Ret false). eexists. exists v. split; [right; left|]. simpl. by rewrite Hv, E.
Qed.

Lemma live_bind {A B} (c : P A) (f : A -> P B) :
  live c -> (forall a, live (f a)) -> live (c ≫= f).
Proof.
  intros Hc Hf pc Hpc. destruct (Hc pc Hpc) as ([a|e]&pc0&v&Hin&Hv).
  - destruct (Hf a pc0) as (r&pc'&v'&Hin'&Hv'); [eauto|].
    exists r, pc', v'. split; [|done]. apply elem_bind. eauto.
  - exists (Stop e), pc0, v. split; [|done]. apply elem_bind. by exists (Stop e), pc0.
Qed.

(** The engine answers with a value the expression takes on the path. *)
Definition value_possible : Prop := forall pc e, (exists v, pc v = true) ->
  exists v, pc v = true /\ klee_get_valuel pc e = e v.

Context (Hvalue : value_possible).

(** Picking a value and assuming it leaves a valuation. *)
Lemma live_pick {A} e (test : Z -> V -> bool) (f : Z -> unit -> P A) pc :
  (exists v, pc v = true) -> (forall v, pc v = true -> test (e v) v = true) ->
  (forall x, live (f x tt)) ->
  exists r pc' v,
    (r, pc') ∈ (get_value e ≫= fun x => klee_assume (test x) ≫= f x) pc /\ pc' v = true.
Proof.
  intros Hpc Ht Hf. rewrite bind_value. destruct (Hvalue pc e Hpc) as (v&Hv&->).
  destruct (Hf (e v) (fun v' => pc v' && test (e v) v')) as (r&pc'&v'&Hin&Hv').
  { exists v. by rewrite Hv, Ht. }
  exists r, pc', v'. split; [|done]. apply elem_bind. exists (Ret tt). eexists.
  split; [by apply list_elem_of_singleton|done].
Qed.

Lemma s8_idem x : s8 (s8 x) = s8 x.
Proof.
  unfold s8, wrapS. change (2 ^ 8) with 256. change (2 ^ (8 - 1)) with 128.
  Z.div_mod_to_equations; lia.
Qed.

Lemma live_loop fuel : forall i sc m, live (concretize_loop fuel i sc m).
Proof.
  induction fuel as [|k IH]; intros i sc m; cbn [concretize_loop]; [apply live_stop|].
  destruct (m !! sc) as [[z|e]|]; [destruct (_ =? _)|destruct (keeps _)|];
    auto using live_ret, live_stop.
  - apply live_bind; [apply live_fork|]. intros []; [apply live_ret|].
    apply live_bind; [apply live_fork|auto].
  - intros pc Hpc. apply (live_pick _ (fun x v => s8 x =? s8 (e v))); [done|..].
    + intros v _. rewrite s8_idem. apply Z.eqb_refl.
    + intros x. simpl. destruct (_ =? _); auto using live_ret.
Qed.

Lemma u64_s64 x : 0 <= x < 2 ^ 64 -> u64 (s64 x) = x.
Proof.
  unfold u64, s64, wrapU, wrapS. intros.
  change (2 ^ (64 - 1)) with (2 ^ 63). Z.div_mod_to_equations; lia.
Qed.

Lemma live_ptr {A} p (f : Z -> P A) pc :
  (exists v, pc v = true) -> (forall v, pc v = true -> 0 <= eval v p < 2 ^ 64) ->
  (forall x, live (f x)) ->
  exists r pc' v, (r, pc') ∈ (__concretize_ptr p ≫= f) pc /\ pc' v = true.
Proof.
  intros Hpc Hr Hf.
  destruct (live_pick (fun v => s64 (eval v p)) (fun x v => u64 x =? eval v p)
    (fun x _ => f (u64 x)) pc) as (r&pc'&v&Hin&Hv); [done|..|].
  { intros v Hv. rewrite u64_s64 by auto. apply Z.eqb_refl. }
  { auto. }
  exists r, pc', v. split; [|done]. unfold __concretize_ptr.
  rewrite bind_value in Hin. apply elem_bind in Hin as (r0&pc0&H1&H2).
  apply list_elem_of_singleton in H1. simplify_eq.
  apply elem_bind. eexists (Ret _), _. split; [|exact H2].
  rewrite bind_value. apply elem_bind. eexists (Ret tt), _.
  split; [by apply list_elem_of_singleton|]. by apply list_elem_of_singleton.
Qed.

(** C37: concretising a string changes nothing the program can see: every path
    that comes out is a part of the path that went in, on each of its
    valuations the call returns, the pointer and the whole memory evaluate as
    before, and the characters outside the positions 0 and the powers of two
    are constants; a size keeps its value too.  At least one path goes on. *)
Theorem concretize_string_faithful s m pc :
  (forall r pc' v, (r, pc') ∈ __concretize_string s m pc -> pc' v = true ->
     pc v = true /\
     forall l, str_at (eval v <$> m) (eval v s) l -> Forall is_byte l ->
       exists m', r = Ret (s, m') /\ eval v <$> m' = eval v <$> m /\
         forall k : nat, (k <= length l)%nat -> keeps (u32 (Z.of_nat k)) = false ->
           exists z, m' !! (eval v s + Z.of_nat k) = Some (Con z)) /\
  (forall r pc' v, (r, pc') ∈ __concretize_size s pc -> pc' v = true ->
     pc v = true /\ r = Ret (eval v s)) /\
  ((exists v, pc v = true) -> (forall v, pc v = true -> 0 <= eval v s < 2 ^ 64) ->
   exists r pc' v, (r, pc') ∈ __concretize_string s m pc /\ pc' v = true).
Proof.
  split_and!; [|apply ptr_sound|].
  - intros r pc' v (r0&pc0&H1&H2)%elem_bind Hv.
    assert (Hv0 : pc0 v = true).
    { destruct r0; [|by destruct H2 as [_ ->]]. revert H2 Hv.
      apply narrows_bind; [apply narrows_loop|]. intros. apply narrows_ret. }
    destruct (ptr_sound _ _ _ _ _ H1 Hv0) as [Hpc ->]. split; [done|].
    intros l Hs Hl. apply elem_bind in H2 as (r1&pc1&H2&H3).
    assert (loop_post v 0 (eval v s) m l r1) as (m'&->&He&_&Hk).
    { apply (loop_sound v _ _ _ _ _ _ _ _ H2); [|done..| |lia].
      - destruct r1; [by apply list_elem_of_singleton in H3; simplify_eq|].
        by destruct H3 as [_ ->].
      - apply str_at_size in Hs. rewrite map_size_fmap in Hs. lia. }
    apply list_elem_of_singleton in H3. simplify_eq. eauto.
  - intros Hpc Hr. apply live_ptr; [done..|]. intros x.
    apply live_bind; [apply live_loop|]. intros. apply live_ret.
Qed.
End Concretize.

(** ** Witness: one symbolic input of two possible values *)

Definition pick (pc : bool -> bool) (e : bool -> Z) : Z :=
  if pc true then e true else e false.

Lemma pick_possible : value_possible pick.
Proof.
  intros pc e [v Hv]. unfold pick. destruct (pc true) eqn:E; [by exists true|].
  destruct v; [congruence|]. by exists false.
Qed.

(** A string of four characters with a symbolic second and fourth character. *)
Definition sample_mem : gmap Z (@value bool) :=
  list_to_map [(10, Con 65); (11, Sym (fun b : bool => if b then 47 else 67)); (12, Con 66);
               (13, Sym (fun b : bool => if b then 68 else 69)); (14, Con 0)].

Lemma sample_str (b : bool) :
  str_at (eval b <$> sample_mem) 10 [65; if b then 47 else 67; 66; if b then 68 else 69].
Proof. rewrite !str_at_cons, str_at_nil. destruct b; split_and!; (reflexivity || discriminate). Qed.

Lemma concretize_string_faithful_witness :
  exists r (pc' : bool -> bool) (b : bool) m' z,
    (r, pc') ∈ __concretize_string pick (Con 10) sample_mem (fun _ => true) /\
    pc' b = true /\ r = Ret (Con 10, m') /\ m' !! 13 = Some (Con z).
Proof.
  destruct (concretize_string_faithful pick pick_possible (Con 10) sample_mem (fun _ => true))
    as (H1&_&H2).
  destruct H2 as (r&pc'&b&Hin&Hb); [by exists true|simpl; lia|].
  destruct (H1 r pc' b Hin Hb) as (_&H3).
  destruct (H3 _ (sample_str b)) as (m'&E&_&H4); [destruct b; repeat constructor|].
  destruct (H4 3%nat) as [z Hz]; [destruct b; simpl; lia|reflexivity|].
  exists r, pc', b, m', z. exact (conj Hin (conj Hb (conj E Hz))).
Defined.
End Concretize.
