(* ===== verification/Libc.v ===== *)
(** * The C library routines of the engine's runtime

    Models the string and memory routines of [src/vital-src/runtime/klee-libc]
    and [src/vital-src/runtime/Freestanding] on the memory of [CMem]: one
    definition per function, with the loops of the source.  A loop that scans
    memory gets one more iteration than the memory has bytes, which is enough
    for it to find the terminator or an unmapped address; the theorems show
    that it is.

    The fortified variants ([..._chk]) of [fortify-fs.c] and [fortify-klibc.c]
    and [__cxa_atexit.c], [htonl.c], [tolower.c] and [toupper.c] are here too. *)

From S2P Require Import Prelude CMem.

Module Libc.

(** ** Freestanding *)

Fixpoint memcpy_loop (n : nat) (dest src : Z) (m : mem) : outcome mem :=
  match n with
  | O => Ret m
  | S n' =>
      v ← load m src; m ← store m dest v;
      memcpy_loop n' (dest + 1) (src + 1) m
  end.

Definition memcpy (m : mem) (destaddr srcaddr len : Z) : outcome (Z * mem) :=
  m ← memcpy_loop (Z.to_nat len) destaddr srcaddr m; Ret (destaddr, m).

(** The downward loop, which copies the last byte first. *)
Fixpoint memmove_down (n : nat) (a b : Z) (m : mem) : outcome mem :=
  match n with
  | O => Ret m
  | S n' =>
      v ← load m b; m ← store m a v; memmove_down n' (a - 1) (b - 1) m
  end.

Definition memmove (m : mem) (dst src count : Z) : outcome (Z * mem) :=
  if src =? dst then Ret (dst, m)
  else
    m ← (if dst <? src then memcpy_loop (Z.to_nat count) dst src m
         else memmove_down (Z.to_nat count) (dst + (count - 1)) (src + (count - 1)) m);
    Ret (dst, m).

Fixpoint memset_loop (n : nat) (a s : Z) (m : mem) : outcome mem :=
  match n with
  | O => Ret m
  | S n' => m ← store m a s; memset_loop n' (a + 1) s m
  end.

Definition memset (m : mem) (dst s count : Z) : outcome (Z * mem) :=
  m ← memset_loop (Z.to_nat count) dst s m; Ret (dst, m).

Fixpoint memcmp_loop (n : nat) (p1 p2 : Z) (m : mem) : outcome Z :=
  match n with
  | O => Ret 0
  | S n' =>
      a ← load m p1; b ← load m p2;
      if negb (a =? b) then Ret (a - b) else memcmp_loop n' (p1 + 1) (p2 + 1) m
  end.

Definition memcmp (m : mem) (s1 s2 n : Z) : outcome Z :=
  if negb (n =? 0) then memcmp_loop (Z.to_nat n) s1 s2 m else Ret 0.

(** ** klee-libc: memory *)

Fixpoint bcmp_loop (n : nat) (p1 p2 : Z) (m : mem) : outcome Z :=
  match n with
  | O => Ret 0
  | S n' =>
      a ← load m p1; b ← load m p2;
      if negb (a =? b) then Ret 1 else bcmp_loop n' (p1 + 1) (p2 + 1) m
  end.

Definition bcmp (m : mem) (s1 s2 n : Z) : outcome Z := bcmp_loop (Z.to_nat n) s1 s2 m.

(** Returns the address found, 0 for the null pointer.  The byte is compared
    with the [int] argument as it is. *)
Fixpoint memchr_loop (n : nat) (p c : Z) (m : mem) : outcome Z :=
  match n with
  | O => Ret 0
  | S n' =>
      b ← load m p; if b =? c then Ret p else memchr_loop n' (p + 1) c m
  end.

Definition memchr (m : mem) (s c n : Z) : outcome Z :=
  if negb (n =? 0) then memchr_loop (Z.to_nat n) s c m else Ret 0.

Definition mempcpy (m : mem) (destaddr srcaddr len : Z) : outcome (Z * mem) :=
  '(d, m) ← memcpy m destaddr srcaddr len; Ret (d + len, m).

(** ** klee-libc: strings *)

Fixpoint strlen_loop (fuel : nat) (s : Z) (m : mem) : outcome Z :=
  match fuel with
  | O => Stop OutOfFuel
  | S k => c ← load m s; if c =? 0 then Ret s else strlen_loop k (s + 1) m
  end.

Definition fuel (m : mem) : nat := S (size m).

Definition strlen (m : mem) (str : Z) : outcome Z :=
  s ← strlen_loop (fuel m) str m; Ret (s - str).

(** The loop that copies up to and including the NUL; returns the final [to]. *)
Fixpoint strcpy_loop (fuel : nat) (to from : Z) (m : mem) : outcome (Z * mem) :=
  match fuel with
  | O => Stop OutOfFuel
  | S k =>
      c ← load m from; m ← store m to c;
      if c =? 0 then Ret (to, m) else strcpy_loop k (to + 1) (from + 1) m
  end.

Definition strcpy (m : mem) (to from : Z) : outcome (Z * mem) :=
  '(_, m) ← strcpy_loop (fuel m) to from m; Ret (to, m).

Definition stpcpy (m : mem) (to from : Z) : outcome (Z * mem) :=
  strcpy_loop (fuel m) to from m.

Definition strcat (m : mem) (s append : Z) : outcome (Z * mem) :=
  e ← strlen_loop (fuel m) s m;
  '(_, m) ← strcpy_loop (fuel m) e append m;
  Ret (s, m).

(** The padding loop and the copying loop of [strncpy]. *)
Fixpoint strncpy_loop (n : nat) (d s : Z) (m : mem) : outcome mem :=
  match n with
  | O => Ret m
  | S n' =>
      c ← load m s; m ← store m d c;
      if c =? 0 then memset_loop n' (d + 1) 0 m
      else strncpy_loop n' (d + 1) (s + 1) m
  end.

Definition strncpy (m : mem) (dst src n : Z) : outcome (Z * mem) :=
  m ← (if negb (n =? 0) then strncpy_loop (Z.to_nat n) dst src m else Ret m);
  Ret (dst, m).

(** [*a && *a == *b] reads [*b] only when [*a] is not 0; the bytes at the end
    are read again as unsigned. *)
Fixpoint strcmp_loop (fuel : nat) (a b : Z) (m : mem) : outcome Z :=
  match fuel with
  | O => Stop OutOfFuel
  | S k =>
      x ← load m a;
      if x =? 0 then y ← load m b; Ret (x - y)
      else y ← load m b; if x =? y then strcmp_loop k (a + 1) (b + 1) m else Ret (x - y)
  end.

Definition strcmp (m : mem) (a b : Z) : outcome Z := strcmp_loop (fuel m) a b m.

Definition strcoll (m : mem) (s1 s2 : Z) : outcome Z := strcmp m s1 s2.

Fixpoint strncmp_loop (n : nat) (s1 s2 : Z) (m : mem) : outcome Z :=
  match n with
  | O => Ret 0
  | S n' =>
      x ← load m s1; y ← load m s2;
      if negb (x =? y) then Ret (x - y)
      else if x =? 0 then Ret 0 else strncmp_loop n' (s1 + 1) (s2 + 1) m
  end.

Definition strncmp (m : mem) (s1 s2 n : Z) : outcome Z :=
  if n =? 0 then Ret 0 else strncmp_loop (Z.to_nat n) s1 s2 m.

Fixpoint strchr_loop (fuel : nat) (p c : Z) (m : mem) : outcome Z :=
  match fuel with
  | O => Stop OutOfFuel
  | S k =>
      b ← load m p;
      if b =? c then Ret p else if b =? 0 then Ret 0 else strchr_loop k (p + 1) c m
  end.

Definition strchr (m : mem) (p ch : Z) : outcome Z := strchr_loop (fuel m) p (u8 ch) m.

Fixpoint strrchr_loop (fuel : nat) (t c l : Z) (m : mem) : outcome Z :=
  match fuel with
  | O => Stop OutOfFuel
  | S k =>
      b ← load m t;
      let l := if b =? c then t else l in
      if b =? 0 then Ret l else strrchr_loop k (t + 1) c l m
  end.

Definition strrchr (m : mem) (t ch : Z) : outcome Z := strrchr_loop (fuel m) t (u8 ch) 0 m.

(** ** Fortified variants *)

Definition __memmove_chk (m : mem) (dest src len destlen : Z) : outcome (Z * mem) :=
  if destlen <? len then Stop (KleeError "memmove overflow") else memmove m dest src len.

Definition __memset_chk (m : mem) (dest c len destlen : Z) : outcome (Z * mem) :=
  if destlen <? len then Stop (KleeError "memset overflow") else memset m dest c len.

Definition __memcpy_chk (m : mem) (dest src len destlen : Z) : outcome (Z * mem) :=
  if destlen <? len then Stop (KleeError "memcpy overflow") else memcpy m dest src len.

Definition __mempcpy_chk (m : mem) (dest src len destlen : Z) : outcome (Z * mem) :=
  if destlen <? len then Stop (KleeError "mempcpy overflow") else mempcpy m dest src len.

Definition __stpcpy_chk (m : mem) (dest src destlen : Z) : outcome (Z * mem) :=
  stpcpy m dest src.
Definition __strcat_chk (m : mem) (dest src destlen : Z) : outcome (Z * mem) :=
  strcat m dest src.
Definition __strcpy_chk (m : mem) (dest src destlen : Z) : outcome (Z * mem) :=
  strcpy m dest src.
Definition __strncpy_chk (m : mem) (s1 s2 n s1len : Z) : outcome (Z * mem) :=
  strncpy m s1 s2 n.

(** ** Characters and byte order *)

Definition tolower (ch : Z) : Z :=
  if u32 (ch - 65) <? 26 then ch - (65 - 97) else ch.

Definition toupper (ch : Z) : Z :=
  if u32 (ch - 97) <? 26 then ch + (65 - 97) else ch.

(** On a little-endian machine. *)
Definition htons (v : Z) : Z := u16 (Z.lor (Z.shiftr v 8) (Z.shiftl v 8)).

Definition htonl (v : Z) : Z :=
  u32 (Z.lor (htons (u16 (Z.shiftr v 16))) (Z.shiftl (htons (u16 v)) 16)).

Definition ntohs (v : Z) : Z := htons v.
Definition ntohl (v : Z) : Z := htonl v.

(** ** Exit handlers *)

Definition MAX_ATEXIT : Z := 128.

(** The used part of [AtExit]: function and argument. *)
Abbreviation AtExit := (list (Z * Z)).

Definition __cxa_atexit (t : AtExit) (fn arg dso_handle : Z) : outcome (Z * AtExit) :=
  if Z.of_nat (length t) =? MAX_ATEXIT
  then Stop (KleeError "__cxa_atexit: no room in array!")
  else Ret (0, t ++ [(fn, arg)]).

Definition __cxa_thread_atexit_impl (t : AtExit) (fn arg dso_handle : Z)
    : outcome (Z * AtExit) := __cxa_atexit t fn arg dso_handle.

Definition atexit (t : AtExit) (fn : Z) : outcome (Z * AtExit) := __cxa_atexit t fn 0 0.

(** [for (i = NumAtExit - 1; i < MAX_ATEXIT; --i)]: the calls made, in order;
    [i] is unsigned, so the loop ends when it wraps below 0. *)
Fixpoint run_at_exit_loop (k : nat) (t : AtExit) (i : Z) : outcome (list (Z * Z)) :=
  match k with
  | O => Stop OutOfFuel
  | S k' =>
      if i <? MAX_ATEXIT then
        e ← of_option MemError (t !! Z.to_nat i);
        l ← run_at_exit_loop k' t (u32 (i - 1)); Ret (e :: l)
      else Ret []
  end.

Definition RunAtExit (t : AtExit) : outcome (list (Z * Z)) :=
  run_at_exit_loop 129 t (u32 (Z.of_nat (length t) - 1)).

(** ** Numbers *)

Definition isspace (c : Z) : bool := (c =? 32) || ((9 <=? c) && (c <=? 13)).

(** The digit a [char] stands for, before the test against the base. *)
Definition digit (c : Z) : option Z :=
  let c := s8 c in
  if (48 <=? c) && (c <=? 57) then Some (c - 48)
  else if (65 <=? c) && (c <=? 90) then Some (c - (65 - 10))
  else if (97 <=? c) && (c <=? 122) then Some (c - (97 - 10))
  else None.

(** [do { c = *s++; } while (isspace(c));]: the character and the next
    position. *)
Fixpoint skip_space (fuel : nat) (s : Z) (m : mem) : outcome (Z * Z) :=
  match fuel with
  | O => Stop OutOfFuel
  | S k => c ← load m s; if isspace c then skip_space k (s + 1) m else Ret (c, s + 1)
  end.

(** The conversion loop, from character [c] with [s] behind it. *)
Fixpoint conv_loop (fuel : nat) (base cutoff cutlim : Z) (c s acc any : Z) (m : mem)
    : outcome (Z * Z * Z) :=
  match fuel with
  | O => Stop OutOfFuel
  | S k =>
      match digit c with
      | None => Ret (acc, any, s)
      | Some d =>
          if base <=? d then Ret (acc, any, s)
          else
            let '(acc, any) :=
              if (any <? 0) || (cutoff <? acc) || ((acc =? cutoff) && (cutlim <? d))
              then (acc, -1) else (u64 (u64 (acc * base) + d), 1) in
            c ← load m s;
            conv_loop k base cutoff cutlim c (s + 1) acc any m
      end
  end.

(** The common beginning of [strtol] and [strtoul]: the sign, the base, the
    first character and the position after it. *)
Definition prologue (m : mem) (nptr base : Z) : outcome (bool * Z * Z * Z) :=
  '(c, s) ← skip_space (fuel m) nptr m;
  '(neg, c, s) ←
    (if c =? 45 then c ← load m s; Ret (true, c, s + 1)
     else if c =? 43 then c ← load m s; Ret (false, c, s + 1)
     else Ret (false, c, s));
  '(base, c, s) ←
    (if ((base =? 0) || (base =? 16)) && (c =? 48) then
       x ← load m s;
       if (x =? 120) || (x =? 88) then c ← load m (s + 1); Ret (16, c, s + 2)
       else Ret (base, c, s)
     else Ret (base, c, s));
  let base := if base =? 0 then if c =? 48 then 8 else 10 else base in
  Ret (neg, base, c, s).

(** What the two functions return: the value, the new [errno] when it is
    assigned, and the position stored through [endptr]. *)
Record conv := mkConv { cv_val : Z; cv_errno : option Z; cv_end : Z }.

Definition ERANGE : Z := 34.
Definition EINVAL : Z := 22.
Definition LONG_MAX : Z := 2 ^ 63 - 1.
Definition LONG_MIN : Z := - 2 ^ 63.
Definition ULONG_MAX : Z := 2 ^ 64 - 1.

Definition strtol (m : mem) (nptr base : Z) : outcome conv :=
  '(neg, base, c, s) ← prologue m nptr base;
  if (base <? 2) || (36 <? base) then Ret (mkConv 0 (Some EINVAL) nptr)
  else
    let cutoff := if neg : bool then u64 (u64 (- (LONG_MIN + LONG_MAX)) + LONG_MAX)
                  else LONG_MAX in
    let cutlim := cutoff mod base in
    let cutoff := cutoff / base in
    '(acc, any, s) ← conv_loop (fuel m) base cutoff cutlim c s 0 0 m;
    Ret (if any <? 0 then mkConv (if neg then LONG_MIN else LONG_MAX) (Some ERANGE) (s - 1)
         else if any =? 0 then mkConv (s64 acc) (Some EINVAL) nptr
         else mkConv (s64 (if neg then u64 (- acc) else acc)) None (s - 1)).

Definition strtoul (m : mem) (nptr base : Z) : outcome conv :=
  '(neg, base, c, s) ← prologue m nptr base;
  if (base <? 2) || (36 <? base) then Ret (mkConv 0 (Some EINVAL) nptr)
  else
    let cutoff := ULONG_MAX / base in
    let cutlim := ULONG_MAX mod base in
    '(acc, any, s) ← conv_loop (fuel m) base cutoff cutlim c s 0 0 m;
    Ret (if any <? 0 then mkConv ULONG_MAX (Some ERANGE) (s - 1)
         else if any =? 0 then mkConv acc (Some EINVAL) nptr
         else mkConv (if neg : bool then u64 (- acc) else acc) None (s - 1)).

Definition atoi (m : mem) (str : Z) : outcome Z :=
  r ← strtol m str 10; Ret (s32 (cv_val r)).

End Libc.
