(* ===== verification/LibcSpec.v ===== *)
(** * Correctness of the C library routines

    The routines of [Libc] against reference definitions: copying as
    [write_bytes] of the bytes the source held (for [memmove] under any
    overlap), comparison as the lexicographic order of unsigned bytes, searches
    as first and last positions, number parsing as the clamped value of the
    digits.  No theorem has a fuel hypothesis: the scans always get enough
    iterations. *)

From S2P Require Import Prelude CMem Libc.
Import Libc.

(** ** Copying *)

Section Copy.
Implicit Types m : mem.

Lemma memcpy_loop_run l : forall m d s,
  bytes_at m s l -> Forall is_byte l -> mapped m d (Z.of_nat (length l)) ->
  d <= s \/ s + Z.of_nat (length l) <= d ->
  memcpy_loop (length l) d s m = Ret (write_bytes d l m).
Proof.
  induction l as [|b l IH]; intros m d s Hs Hb Hd Ho; [done|].
  apply bytes_at_cons in Hs as [H1 H2]. apply Forall_cons in Hb as [Hb Hl].
  cbn [memcpy_loop length write_bytes]. rewrite (load_lookup _ _ _ H1).
  unfold mbind, outcome_bind.
  rewrite (store_mapped m d b) by (apply Hd; simpl; lia).
  rewrite u8_byte by (by destruct (is_byte b)).
  simpl in Hd, Ho.
  rewrite IH; [|destruct (decide (d = s)) as [->|]|done|apply mapped_insert;
    eapply mapped_sub; [exact Hd|lia|lia]|lia].
  - rewrite write_bytes_insert by lia. done.
  - rewrite insert_id by done. done.
  - apply bytes_at_insert; [done|lia].
Qed.

Lemma memmove_down_run l : forall m d s,
  bytes_at m s l -> Forall is_byte l -> mapped m d (Z.of_nat (length l)) -> s < d ->
  memmove_down (length l) (d + (Z.of_nat (length l) - 1))
    (s + (Z.of_nat (length l) - 1)) m = Ret (write_bytes d l m).
Proof.
  induction l as [|b l IH] using rev_ind; intros m d s Hs Hb Hd Ho; [done|].
  apply bytes_at_app in Hs as [H1 H2]. apply bytes_at_cons in H2 as [H2 _].
  apply Forall_app in Hb as [Hl Hb]. apply Forall_cons in Hb as [Hb _].
  assert (length (l ++ [b]) = S (length l)) as El by (rewrite length_app; simpl; lia).
  rewrite El in *.
  cbn [memmove_down].
  replace (s + (Z.of_nat (S (length l)) - 1)) with (s + Z.of_nat (length l)) by lia.
  replace (d + (Z.of_nat (S (length l)) - 1)) with (d + Z.of_nat (length l)) by lia.
  rewrite (load_lookup _ _ _ H2). unfold mbind, outcome_bind.
  rewrite (store_mapped m _ b) by (apply Hd; lia).
  rewrite u8_byte by (by destruct (is_byte b)).
  replace (d + Z.of_nat (length l) - 1) with (d + (Z.of_nat (length l) - 1)) by lia.
  replace (s + Z.of_nat (length l) - 1) with (s + (Z.of_nat (length l) - 1)) by lia.
  rewrite IH; [|apply bytes_at_insert; [done|lia]|done|apply mapped_insert;
    eapply mapped_sub; [exact Hd|lia|lia]|done].
  by rewrite write_bytes_app.
Qed.

(** Copying bytes onto themselves. *)
Lemma write_bytes_same m p l : bytes_at m p l -> write_bytes p l m = m.
Proof.
  intros H. apply map_eq. intros a. rewrite lookup_write_bytes. case_decide; [|done].
  destruct (lookup_lt_is_Some_2 l (Z.to_nat (a - p))) as [b Hb]; [lia|].
  rewrite Hb, <- (H _ _ Hb). f_equal. lia.
Qed.

Lemma memmove_run m d s l :
  bytes_at m s l -> Forall is_byte l -> mapped m d (Z.of_nat (length l)) ->
  memmove m d s (Z.of_nat (length l)) = Ret (d, write_bytes d l m).
Proof.
  intros Hs Hb Hd. unfold memmove. rewrite Nat2Z.id.
  destruct (Z.eqb_spec s d) as [->|Hne]; [by rewrite write_bytes_same|].
  destruct (Z.ltb_spec d s).
  - rewrite memcpy_loop_run by (done || lia). done.
  - rewrite memmove_down_run by (done || lia). done.
Qed.

Lemma memset_loop_run n : forall m d v,
  mapped m d (Z.of_nat n) ->
  memset_loop n d v m = Ret (write_bytes d (replicate n (u8 v)) m).
Proof.
  induction n as [|n IH]; intros m d v Hd; [done|].
  cbn [memset_loop replicate write_bytes]. unfold mbind, outcome_bind.
  rewrite store_mapped by (apply Hd; lia).
  rewrite IH by (apply mapped_insert; eapply mapped_sub; [exact Hd|lia|lia]).
  rewrite write_bytes_insert by lia. done.
Qed.

(** ** Strings *)

Lemma strlen_loop_run s : forall m p k,
  str_at m p s -> (length s < k)%nat ->
  strlen_loop k p m = Ret (p + Z.of_nat (length s)).
Proof.
  induction s as [|c s IH]; intros m p k Hs Hk; (destruct k as [|k]; [simpl in Hk; lia|]);
    cbn [strlen_loop].
  - apply str_at_nil in Hs. rewrite (load_lookup _ _ _ Hs). simpl. f_equal. lia.
  - apply str_at_cons in Hs as (H1 & H2 & H3). rewrite (load_lookup _ _ _ H1).
    simpl. destruct (Z.eqb_spec c 0); [done|].
    rewrite IH by (done || (simpl in Hk; lia)). f_equal. simpl. lia.
Qed.

Lemma strlen_run m p s : str_at m p s -> strlen m p = Ret (Z.of_nat (length s)).
Proof.
  intros Hs. unfold strlen, fuel. rewrite (strlen_loop_run s).
  - simpl. f_equal. lia.
  - done.
  - apply str_at_size in Hs. lia.
Qed.

(** The string at [from] fits at [to], which does not overlap it. *)
Definition can_copy m (to from : Z) (s : list Z) : Prop :=
  str_at m from s /\ Forall is_byte s /\ mapped m to (Z.of_nat (length s) + 1) /\
  (to + Z.of_nat (length s) < from \/ from + Z.of_nat (length s) < to).

Lemma str_at_insert m p s a v :
  str_at m p s -> a < p \/ p + Z.of_nat (length s) < a -> str_at (<[a := v]> m) p s.
Proof.
  intros [H1 H2] Ha. split; [|done]. apply bytes_at_insert; [done|].
  rewrite length_app. simpl. lia.
Qed.

Lemma strcpy_loop_run s : forall m to from k,
  can_copy m to from s -> (length s < k)%nat ->
  strcpy_loop k to from m = Ret (to + Z.of_nat (length s), write_bytes to (s ++ [0]) m).
Proof.
  induction s as [|c s IH]; intros m to from k (Hs & Hb & Hm & Hd) Hk;
    (destruct k as [|k]; [simpl in Hk; lia|]); cbn [strcpy_loop app write_bytes];
    unfold mbind, outcome_bind.
  - apply str_at_nil in Hs. rewrite (load_lookup _ _ _ Hs).
    rewrite store_mapped by (apply Hm; simpl; lia). simpl. f_equal. f_equal. lia.
  - apply str_at_cons in Hs as (H1 & H2 & H3). rewrite (load_lookup _ _ _ H1).
    apply Forall_cons in Hb as [Hb Hbs]. simpl in Hm, Hd, Hk.
    rewrite store_mapped by (apply Hm; lia).
    rewrite u8_byte by (by destruct (is_byte c)).
    destruct (Z.eqb_spec c 0); [done|].
    rewrite IH; [| |lia].
    + rewrite write_bytes_insert by lia. simpl. f_equal. f_equal. lia.
    + split_and!; [apply str_at_insert; [done|lia]|done| |lia].
      apply mapped_insert. eapply mapped_sub; [exact Hm|lia|lia].
Qed.

Lemma can_copy_fuel m to from s : can_copy m to from s -> (length s < fuel m)%nat.
Proof. intros [H _]. apply str_at_size in H. unfold fuel. lia. Qed.

Lemma strcpy_run m to from s :
  can_copy m to from s -> strcpy m to from = Ret (to, write_bytes to (s ++ [0]) m).
Proof.
  intros H. unfold strcpy. rewrite (strcpy_loop_run s) by (eauto using can_copy_fuel).
  done.
Qed.

Lemma strcat_run m s0 from a b :
  str_at m s0 a -> can_copy m (s0 + Z.of_nat (length a)) from b ->
  strcat m s0 from = Ret (s0, write_bytes (s0 + Z.of_nat (length a)) (b ++ [0]) m).
Proof.
  intros Ha Hc. unfold strcat. rewrite (strlen_loop_run a).
  - unfold mbind, outcome_bind.
    rewrite (strcpy_loop_run b) by eauto using can_copy_fuel. done.
  - done.
  - apply str_at_size in Ha. unfold fuel. lia.
Qed.

(** The concatenated string, when the first one keeps its bytes. *)
Lemma strcat_str m s0 from a b :
  str_at m s0 a -> can_copy m (s0 + Z.of_nat (length a)) from b ->
  str_at (write_bytes (s0 + Z.of_nat (length a)) (b ++ [0]) m) s0 (a ++ b).
Proof.
  intros [Ha1 Ha2] ([Hb1 Hb2] & _). split; [|by apply Forall_app].
  apply bytes_at_app in Ha1 as [Ha1 _]. rewrite <- app_assoc. apply bytes_at_app. split.
  - apply bytes_at_write_other; [done|lia].
  - apply bytes_at_write.
Qed.
End Copy.

(** ** Comparison *)

(** The lexicographic order of byte strings, a prefix first. *)
Fixpoint lex (l1 l2 : list Z) : comparison :=
  match l1, l2 with
  | [], [] => Eq
  | [], _ => Lt
  | _, [] => Gt
  | x :: l1', y :: l2' => match x ?= y with Eq => lex l1' l2' | c => c end
  end.

Lemma lex_eq l1 : forall l2, lex l1 l2 = Eq <-> l1 = l2.
Proof.
  induction l1 as [|x l1 IH]; intros [|y l2]; simpl; try done.
  destruct (Z.compare_spec x y) as [->| |]; [rewrite IH|..].
  - split; congruence.
  - split; [done|]. intros [= ? ?]. lia.
  - split; [done|]. intros [= ? ?]. lia.
Qed.

Section Compare.
Implicit Types m : mem.

(** The sign of a comparison result. *)
Definition signed (r : outcome Z) (c : comparison) : Prop :=
  exists v, r = Ret v /\ (v ?= 0) = c.

Lemma signed_diff x y c :
  x <> y -> signed (Ret (x - y)) (match x ?= y with Eq => c | r => r end).
Proof.
  intros Hne. exists (x - y). split; [done|].
  destruct (Z.compare_spec x y), (Z.compare_spec (x - y) 0); lia || done.
Qed.

Lemma memcmp_loop_run l1 : forall m p1 p2 l2,
  length l1 = length l2 -> bytes_at m p1 l1 -> bytes_at m p2 l2 ->
  signed (memcmp_loop (length l1) p1 p2 m) (lex l1 l2).
Proof.
  induction l1 as [|x l1 IH]; intros m p1 p2 [|y l2] Hl H1 H2; simpl in Hl; try lia.
  { by exists 0. }
  apply bytes_at_cons in H1 as [H1 H1'], H2 as [H2 H2'].
  cbn [memcmp_loop length lex]. rewrite (load_lookup _ _ _ H1), (load_lookup _ _ _ H2).
  unfold mbind, outcome_bind. destruct (Z.eqb_spec x y) as [->|Hne].
  - rewrite Z.compare_refl. apply IH; (lia || done).
  - by apply signed_diff.
Qed.

(** Reading the character at a position of a string, its NUL included. *)
Lemma str_head m p s : str_at m p s -> load m p = Ret (default 0 (head s)).
Proof.
  destruct s as [|c s]; intros H; apply load_lookup.
  - by apply str_at_nil in H.
  - by apply str_at_cons in H as [? _].
Qed.

Definition nonneg_str (s : list Z) : Prop := Forall (fun c => 0 < c) s.

Lemma strcmp_loop_run s1 : forall m a b s2 k,
  str_at m a s1 -> str_at m b s2 -> nonneg_str s1 -> nonneg_str s2 -> (length s1 < k)%nat ->
  signed (strcmp_loop k a b m) (lex s1 s2).
Proof.
  induction s1 as [|x s1 IH]; intros m a b s2 k H1 H2 N1 N2 Hk;
    (destruct k as [|k]; [simpl in Hk; lia|]); cbn [strcmp_loop];
    rewrite (str_head _ _ _ H1), (str_head _ _ _ H2); unfold mbind, outcome_bind; simpl.
  - destruct s2 as [|y s2]; simpl; [by exists 0|]. apply Forall_cons in N2 as [N2 _].
    exists (0 - y). split; [done|]. by apply Z.compare_lt_iff; lia.
  - apply Forall_cons in N1 as [Nx N1]. destruct (Z.eqb_spec x 0); [lia|].
    apply str_at_cons in H1 as (_ & _ & H1). destruct s2 as [|y s2]; simpl.
    + destruct (Z.eqb_spec x 0); [lia|]. exists (x - 0). split; [done|].
      by apply Z.compare_gt_iff; lia.
    + apply str_at_cons in H2 as (_ & _ & H2). apply Forall_cons in N2 as [Ny N2].
      destruct (Z.eqb_spec x y) as [->|Hne].
      * rewrite Z.compare_refl. apply IH; auto. simpl in Hk. lia.
      * by apply signed_diff.
Qed.

Lemma strncmp_loop_run n : forall m a b s1 s2,
  str_at m a s1 -> str_at m b s2 -> nonneg_str s1 -> nonneg_str s2 ->
  signed (strncmp_loop n a b m) (lex (take n s1) (take n s2)).
Proof.
  induction n as [|n IH]; intros m a b s1 s2 H1 H2 N1 N2; [by exists 0|].
  cbn [strncmp_loop]. rewrite (str_head _ _ _ H1), (str_head _ _ _ H2).
  unfold mbind, outcome_bind.
  destruct s1 as [|x s1], s2 as [|y s2]; simpl.
  - by exists 0.
  - apply Forall_cons in N2 as [N2 _]. destruct (Z.eqb_spec 0 y); [lia|]. simpl.
    exists (0 - y). split; [by destruct y|]. by apply Z.compare_lt_iff; lia.
  - apply Forall_cons in N1 as [N1 _]. destruct (Z.eqb_spec x 0); [lia|]. simpl.
    exists (x - 0). split; [done|]. by apply Z.compare_gt_iff; lia.
  - apply Forall_cons in N1 as [Nx N1], N2 as [Ny N2].
    apply str_at_cons in H1 as (_ & _ & H1), H2 as (_ & _ & H2).
    destruct (Z.eqb_spec x y) as [->|Hne]; simpl.
    + destruct (Z.eqb_spec y 0); [lia|]. rewrite Z.compare_refl. by apply IH.
    + by apply signed_diff.
Qed.

(** ** Searching *)

Lemma strchr_loop_run s : forall m p c k,
  str_at m p s -> (length s < k)%nat -> c <> 0 ->
  strchr_loop k p c m
  = Ret (match list_find (eq c) s with Some (i, _) => p + Z.of_nat i | None => 0 end).
Proof.
  induction s as [|x s IH]; intros m p c k Hs Hk Hc;
    (destruct k as [|k]; [simpl in Hk; lia|]); cbn [strchr_loop];
    rewrite (str_head _ _ _ Hs); unfold mbind, outcome_bind; simpl.
  - by destruct c.
  - apply str_at_cons in Hs as (_ & Hx & Hs). destruct (Z.eqb_spec x c) as [->|Hne].
    + rewrite decide_True by done. f_equal. lia.
    + rewrite decide_False by done. destruct (Z.eqb_spec x 0); [done|].
      rewrite IH by (done || (simpl in Hk; lia)).
      destruct (list_find (eq c) s) as [[i y]|]; [|done]. simpl. f_equal. lia.
Qed.

(** The last position of a character. *)
Fixpoint last_pos (c : Z) (s : list Z) : option nat :=
  match s with
  | [] => None
  | x :: s' => match last_pos c s' with
               | Some i => Some (S i)
               | None => if x =? c then Some O else None
               end
  end.

Lemma strrchr_loop_run s : forall m p c l k,
  str_at m p s -> (length s < k)%nat -> c <> 0 ->
  strrchr_loop k p c l m
  = Ret (match last_pos c s with Some i => p + Z.of_nat i | None => l end).
Proof.
  induction s as [|x s IH]; intros m p c l k Hs Hk Hc;
    (destruct k as [|k]; [simpl in Hk; lia|]); cbn [strrchr_loop];
    rewrite (str_head _ _ _ Hs); unfold mbind, outcome_bind; simpl.
  - by destruct c.
  - apply str_at_cons in Hs as (_ & Hx & Hs). destruct (Z.eqb_spec x 0); [done|].
    rewrite IH by (done || (simpl in Hk; lia)).
    destruct (last_pos c s) as [i|]; [f_equal; lia|].
    destruct (x =? c); [f_equal; lia|done].
Qed.

Lemma memchr_loop_run l : forall m p c,
  bytes_at m p l ->
  memchr_loop (length l) p c m
  = Ret (match list_find (eq c) l with Some (i, _) => p + Z.of_nat i | None => 0 end).
Proof.
  induction l as [|x l IH]; intros m p c Hl; [done|].
  apply bytes_at_cons in Hl as [H1 H2]. cbn [memchr_loop length].
  rewrite (load_lookup _ _ _ H1). unfold mbind, outcome_bind. simpl.
  destruct (Z.eqb_spec x c) as [->|Hne].
  - rewrite decide_True by done. f_equal. lia.
  - rewrite decide_False by done. rewrite IH by done.
    destruct (list_find (eq c) l) as [[i y]|]; [|done]. simpl. f_equal. lia.
Qed.
End Compare.

(** ** Numbers *)

Section Numbers.
Implicit Types m : mem.

(** The value of a list of digits. *)
Definition value_from (base v : Z) (ds : list Z) : Z :=
  foldl (fun v d => v * base + d) v ds.

Definition conv_step (base cutoff cutlim : Z) (st : Z * Z) (d : Z) : Z * Z :=
  let '(acc, any) := st in
  if (any <? 0) || (cutoff <? acc) || ((acc =? cutoff) && (cutlim <? d))
  then (acc, -1) else (u64 (u64 (acc * base) + d), 1).

(** [cs] are the characters of the digits [ds] in the base. *)
Definition digits_of (base : Z) (cs ds : list Z) : Prop :=
  Forall2 (fun c d => digit c = Some d /\ d < base) cs ds.

(** A character that ends the number. *)
Definition stops (base z : Z) : Prop :=
  match digit z with None => True | Some d => base <= d end.

Lemma conv_loop_run base cutoff cutlim z cs : forall m ds s acc any k,
  digits_of base cs ds -> stops base z -> bytes_at m (s - 1) (cs ++ [z]) ->
  (length cs < k)%nat ->
  conv_loop k base cutoff cutlim (default z (head cs)) s acc any m
  = Ret (foldl (conv_step base cutoff cutlim) (acc, any) ds, s + Z.of_nat (length cs)).
Proof.
  induction cs as [|c cs IH]; intros m ds s acc any k Hd Hz Hb Hk;
    (destruct k as [|k]; [simpl in Hk; lia|]); cbn [conv_loop].
  - inversion Hd; subst. unfold stops in Hz. simpl.
    destruct (digit z) as [d|]; [destruct (Z.leb_spec base d); [|lia]|];
      by rewrite Z.add_0_r.
  - inversion Hd as [|? d ? ds' [Hc Hlt] Hds]; subst.
    change (default z (head (c :: cs))) with c. rewrite Hc.
    destruct (Z.leb_spec base d); [lia|]. cbn [foldl conv_step].
    destruct (if (any <? 0) || _ || _ then _ else _) as [acc' any'] eqn:E.
    cbn [app] in Hb. apply bytes_at_cons in Hb as [_ Hb].
    replace (s - 1 + 1) with s in Hb by lia.
    assert (load m s = Ret (default z (head cs))) as ->.
    { apply load_lookup. destruct cs; simpl in *; by apply bytes_at_cons in Hb as [? _]. }
    unfold mbind, outcome_bind. rewrite (IH m ds'); [|done|done| |simpl in Hk; lia].
    + f_equal. f_equal. simpl. lia.
    + by replace (s + 1 - 1) with s by lia.
Qed.

Lemma value_from_ge base ds : forall v,
  1 <= base -> Forall (fun d => 0 <= d < base) ds -> 0 <= v -> v <= value_from base v ds.
Proof.
  induction ds as [|d ds IH]; intros v Hb Hds Hv; simpl; [lia|].
  apply Forall_cons in Hds as [Hd Hds].
  specialize (IH (v * base + d) Hb Hds ltac:(nia)). nia.
Qed.

(** What the accumulator and the flag hold, relative to the limit. *)
Lemma conv_fold base cutoff cutlim ds : forall acc any v,
  2 <= base -> 0 <= cutlim < base -> 0 <= cutoff -> cutoff * base + cutlim < 2 ^ 64 ->
  Forall (fun d => 0 <= d < base) ds -> 0 <= v ->
  (v <= cutoff * base + cutlim /\ acc = v /\ 0 <= any \/
   cutoff * base + cutlim < v /\ any = -1) ->
  let lim := cutoff * base + cutlim in
  let v' := value_from base v ds in
  let r := foldl (conv_step base cutoff cutlim) (acc, any) ds in
  v' <= lim /\ r.1 = v' /\ (r.2 = if decide (ds = []) then any else 1) /\ 0 <= r.2 \/
  lim < v' /\ r.2 = -1.
Proof.
  induction ds as [|d ds IH]; intros acc any v Hb Hl Hc Hlim Hds Hv Hst; simpl.
  { destruct Hst as [(? & -> & ?)|[? ->]]; [left|right]; auto. }
  apply Forall_cons in Hds as [Hd Hds].
  set (lim := cutoff * base + cutlim) in *.
  assert (0 <= v * base + d) by nia.
  assert (v * base + d <= value_from base (v * base + d) ds) by
    (apply value_from_ge; auto; lia).
  destruct Hst as [(H1 & -> & H2)|[H1 ->]].
  - destruct (Z.ltb_spec any 0); [lia|]. simpl.
    destruct ((cutoff <? v) || (v =? cutoff) && (cutlim <? d)) eqn:E.
    + assert (lim < v * base + d) as Hover.
      { apply orb_true_iff in E as [E|E]; to_prop; unfold lim; nia. }
      destruct (IH v (-1) (v * base + d)) as [(?&?&?&?)|?]; auto. lia.
    + apply orb_false_iff in E as [E1 E2]. to_prop.
      assert (v * base + d <= lim) as Hfit.
      { apply andb_false_iff in E2 as [E|E]; to_prop; unfold lim; nia. }
      unfold u64. rewrite (wrapU_small 64 (v * base)) by nia.
      rewrite (wrapU_small 64 (v * base + d)) by nia.
      destruct (IH (v * base + d) 1 (v * base + d)) as [(?&?&E&?)|?]; auto with lia.
      left. split_and!; auto. rewrite E. by case_decide.
  - destruct (IH acc (-1) (v * base + d)) as [(?&?&?&?)|?]; auto.
    + right. split; [|done]. unfold lim in *. nia.
    + unfold lim in *. nia.
Qed.

Lemma skip_space_run ws : forall m p c k,
  Forall (fun x => isspace x = true) ws -> isspace c = false ->
  bytes_at m p (ws ++ [c]) -> (length ws < k)%nat ->
  skip_space k p m = Ret (c, p + Z.of_nat (length ws) + 1).
Proof.
  induction ws as [|x ws IH]; intros m p c k Hw Hc Hb Hk;
    (destruct k as [|k]; [simpl in Hk; lia|]); cbn [skip_space app] in *;
    apply bytes_at_cons in Hb as [H1 H2]; rewrite (load_lookup _ _ _ H1);
    unfold mbind, outcome_bind.
  - rewrite Hc. simpl. f_equal. f_equal. lia.
  - apply Forall_cons in Hw as [Hx Hw]. rewrite Hx, (IH _ _ c) by
      (done || (simpl in Hk; lia)). f_equal. f_equal. simpl. lia.
Qed.

(** The optional sign of a number. *)
Definition sign_of (sgn : list Z) (neg : bool) : Prop :=
  sgn = [] /\ neg = false \/ sgn = [43] /\ neg = false \/ sgn = [45] /\ neg = true.

(** The text of a number: blanks, a sign, at least one digit, then a character
    that ends it. *)
Record number_text (m : mem) (p base : Z) (ws sgn cs : list Z) (z : Z) (neg : bool)
    (ds : list Z) : Prop := {
  nt_base : 2 <= base <= 36 /\ base <> 16;
  nt_blank : Forall (fun x => isspace x = true) ws;
  nt_sign : sign_of sgn neg;
  nt_digits : digits_of base cs ds;
  nt_some : ds <> [];
  nt_stop : stops base z;
  nt_bytes : bytes_at m p (ws ++ sgn ++ cs ++ [z]) }.

Definition text_len (ws sgn cs : list Z) : Z := Z.of_nat (length (ws ++ sgn ++ cs)).

Lemma digit_char c d :
  digit c = Some d -> 0 <= d /\ isspace c = false /\ c <> 45 /\ c <> 43.
Proof.
  unfold digit. intros H.
  assert (isspace c = true \/ c = 45 \/ c = 43 -> -128 <= c < 128) as Hr.
  { unfold isspace. intros [E|[->| ->]]; [|lia|lia]. apply orb_true_iff in E as [E|E];
      to_prop; lia. }
  assert (0 <= d) by (split_ifs_in H; to_prop; lia).
  split; [done|].
  assert (~ (isspace c = true \/ c = 45 \/ c = 43)) as Hn.
  { intros Hc. rewrite (wrapS_small 8) in H by (simpl; specialize (Hr Hc); lia).
    unfold isspace in Hc. destruct Hc as [E|[->| ->]]; [|done|done].
    apply orb_true_iff in E as [E|E]; to_prop.
    - subst. done.
    - split_ifs_in H; to_prop; lia. }
  split_and!; [|tauto|tauto]. destruct (isspace c); [tauto|done].
Qed.

Lemma prologue_run m p base ws sgn cs z neg ds :
  number_text m p base ws sgn cs z neg ds ->
  prologue m p base = Ret (neg, base, default z (head cs),
                           p + Z.of_nat (length (ws ++ sgn)) + 1).
Proof.
  intros [Hbase Hws Hsgn Hds Hne Hz Hb]. unfold prologue.
  assert (exists c cs', cs = c :: cs' /\ isspace c = false /\ c <> 45 /\ c <> 43)
    as (c & cs' & -> & Hc & H45 & H43).
  { inversion Hds as [|c d cs' ds' [Hd _] _]; subst; [done|].
    exists c, cs'. split; [done|]. by apply digit_char in Hd as (_ & ? & ? & ?). }
  pose proof (bytes_at_size _ _ _ Hb) as Hsz.
  rewrite !length_app in Hsz. rewrite length_app. simpl in Hsz |- *.
  assert ((base =? 0) = false /\ (base =? 16) = false) as [E0 E16].
  { rewrite !Z.eqb_neq. lia. }
  assert (forall c0 rest, sgn ++ (c :: cs') ++ [z] = c0 :: rest -> isspace c0 = false ->
    skip_space (fuel m) p m = Ret (c0, p + Z.of_nat (length ws) + 1)) as Hskip.
  { intros c0 rest E Hc0. apply (skip_space_run ws m p c0); auto; [|unfold fuel; lia].
    rewrite E in Hb. apply (bytes_at_app m p (ws ++ [c0]) rest).
    by rewrite <- app_assoc. }
  destruct Hsgn as [[-> ->]|[[-> ->]|[-> ->]]]; simpl in Hb, Hskip |- *.
  - erewrite Hskip by done. unfold mbind, outcome_bind.
    destruct (Z.eqb_spec c 45); [lia|]. destruct (Z.eqb_spec c 43); [lia|].
    rewrite E0, E16. simpl. rewrite E0. do 2 f_equal. lia.
  - erewrite Hskip by done. unfold mbind, outcome_bind. simpl.
    apply bytes_at_app in Hb as [_ Hb]. apply bytes_at_cons in Hb as [_ Hb].
    apply bytes_at_cons in Hb as [Hb _]. rewrite (load_lookup _ _ _ Hb).
    rewrite E0, E16. simpl. rewrite E0. do 2 f_equal. lia.
  - erewrite Hskip by done. unfold mbind, outcome_bind. simpl.
    apply bytes_at_app in Hb as [_ Hb]. apply bytes_at_cons in Hb as [_ Hb].
    apply bytes_at_cons in Hb as [Hb _]. rewrite (load_lookup _ _ _ Hb).
    rewrite E0, E16. simpl. rewrite E0. do 2 f_equal. lia.
Qed.

Lemma digits_range base cs ds :
  digits_of base cs ds -> Forall (fun d => 0 <= d < base) ds.
Proof.
  induction 1 as [|c d cs ds [Hd Hl] _ IH]; constructor; [|done].
  apply digit_char in Hd. lia.
Qed.

(** The conversion of a number's digits with the limit [lim]. *)
Lemma conv_run m p base ws sgn cs z neg ds lim :
  number_text m p base ws sgn cs z neg ds -> 0 <= lim < 2 ^ 64 ->
  let v := value_from base 0 ds in
  exists acc any,
    conv_loop (fuel m) base (lim / base) (lim mod base) (default z (head cs))
      (p + Z.of_nat (length (ws ++ sgn)) + 1) 0 0 m
    = Ret (acc, any, p + text_len ws sgn cs + 1) /\
    (v <= lim /\ acc = v /\ any = 1 \/ lim < v /\ any = -1).
Proof.
  intros [Hbase Hws Hsgn Hds Hne Hz Hb] Hlim v.
  pose proof (Z.div_mod lim base ltac:(lia)) as Hdm.
  pose proof (Z.mod_pos_bound lim base ltac:(lia)) as Hmod.
  pose proof (Z.div_pos lim base ltac:(lia) ltac:(lia)) as Hdiv.
  assert (lim / base * base + lim mod base = lim) as El by lia.
  rewrite app_assoc in Hb. pose proof (bytes_at_size _ _ _ Hb) as Hsz.
  apply bytes_at_app in Hb as [_ Hb]. rewrite !length_app in Hsz.
  pose proof (conv_loop_run base (lim / base) (lim mod base) z cs m ds
    (p + Z.of_nat (length (ws ++ sgn)) + 1) 0 0 (fuel m) Hds Hz) as Hrun.
  pose proof (conv_fold base (lim / base) (lim mod base) ds 0 0 0 ltac:(lia) Hmod Hdiv
    ltac:(lia) (digits_range _ _ _ Hds) ltac:(lia) ltac:(left; lia)) as Hf.
  cbv zeta in Hf. rewrite El in Hf. fold v in Hf.
  destruct (foldl _ _ ds) as [acc any] eqn:E. simpl in Hf.
  exists acc, any. split.
  - rewrite Hrun.
    + f_equal. f_equal. unfold text_len. rewrite app_assoc, (length_app (ws ++ sgn)). lia.
    + by replace (p + Z.of_nat (length (ws ++ sgn)) + 1 - 1)
        with (p + Z.of_nat (length (ws ++ sgn))) by lia.
    + unfold fuel. simpl in Hsz. lia.
  - rewrite decide_False in Hf by done. tauto.
Qed.

(** [strtol]'s value: the signed number clamped to the range of [long]. *)
Definition strtol_value (neg : bool) (v : Z) : Z :=
  if neg then Z.max LONG_MIN (- v) else Z.min LONG_MAX v.

Definition strtol_range (neg : bool) (v : Z) : bool :=
  if neg then v <=? 2 ^ 63 else v <=? LONG_MAX.

Lemma strtol_run m p base ws sgn cs z neg ds :
  number_text m p base ws sgn cs z neg ds ->
  let v := value_from base 0 ds in
  strtol m p base
  = Ret (mkConv (strtol_value neg v) (if strtol_range neg v then None else Some ERANGE)
           (p + text_len ws sgn cs)).
Proof.
  intros Ht v. unfold strtol. rewrite (prologue_run _ _ _ _ _ _ _ _ _ Ht).
  unfold mbind, outcome_bind. destruct (nt_base _ _ _ _ _ _ _ _ _ Ht) as [Hb _].
  destruct (Z.ltb_spec base 2), (Z.ltb_spec 36 base); try lia. simpl orb. cbv iota.
  set (lim := if neg then u64 (u64 (- (LONG_MIN + LONG_MAX)) + LONG_MAX) else LONG_MAX).
  assert (lim = if neg then 2 ^ 63 else LONG_MAX) as El by (by destruct neg).
  destruct (conv_run m p base ws sgn cs z neg ds lim Ht) as (acc & any & -> & Hc).
  { rewrite El. unfold LONG_MAX. destruct neg; lia. }
  assert (0 <= v).
  { apply (value_from_ge base ds 0); try lia.
    by eapply digits_range, (nt_digits _ _ _ _ _ _ _ _ _ Ht). }
  fold v in Hc. rewrite El in Hc. clear El lim. f_equal.
  replace (p + text_len ws sgn cs + 1 - 1) with (p + text_len ws sgn cs) by lia.
  unfold strtol_value, strtol_range, LONG_MAX, LONG_MIN in *.
  destruct Hc as [(Hle & -> & ->)|[Hgt ->]]; simpl (_ <? 0); cbv iota; simpl (_ =? 0).
  - destruct neg.
    + destruct (Z.leb_spec v (2 ^ 63)); [|lia]. f_equal. rewrite Z.max_r by lia.
      destruct (decide (v = 0)) as [->|]; [done|].
      assert (u64 (- v) = 2 ^ 64 - v) as ->.
      { unfold u64, wrapU. rewrite <- (Z.mod_add (- v) 1 (2 ^ 64)) by lia.
        rewrite Z.mod_small; lia. }
      unfold s64, wrapS. change (64 - 1) with 63.
      replace (2 ^ 64 - v + 2 ^ 63) with (2 ^ 63 - v + 1 * 2 ^ 64) by lia.
      rewrite Z.mod_add, Z.mod_small by lia. lia.
    + destruct (Z.leb_spec v (2 ^ 63 - 1)); [|lia]. f_equal.
      rewrite s64_small by lia. lia.
  - destruct neg.
    + destruct (Z.leb_spec v (2 ^ 63)); [lia|]. f_equal. lia.
    + destruct (Z.leb_spec v (2 ^ 63 - 1)); [lia|]. f_equal. lia.
Qed.
End Numbers.

(** ** Byte order and exit handlers *)

Lemma lor_shift a b k : 0 <= k -> 0 <= a < 2 ^ k -> Z.lor a (Z.shiftl b k) = a + b * 2 ^ k.
Proof.
  intros Hk Ha. rewrite <- Z.add_lor_land, Z.shiftl_mul_pow2 by done.
  assert (Z.land a (b * 2 ^ k) = 0) as ->; [|lia].
  rewrite <- Z.shiftl_mul_pow2 by done. apply Z.bits_inj'. intros n Hn.
  rewrite Z.land_spec, Z.bits_0, Z.shiftl_spec by done.
  destruct (decide (n < k)).
  - rewrite (Z.testbit_neg_r b) by lia. apply andb_false_r.
  - assert (2 ^ k <= 2 ^ n) by (apply Z.pow_le_mono_r; lia).
    assert (Z.testbit a n = false) as ->; [|done].
    apply Z.testbit_false; [done|]. by rewrite Z.div_small by lia.
Qed.

Lemma htons_bytes a b : 0 <= a < 256 -> 0 <= b < 256 -> htons (a + 256 * b) = b + 256 * a.
Proof.
  intros Ha Hb. unfold htons. rewrite Z.shiftr_div_pow2 by lia.
  assert ((a + 256 * b) / 2 ^ 8 = b) as ->.
  { change (2 ^ 8) with 256. rewrite Z.mul_comm, Z.div_add, Z.div_small; lia. }
  rewrite lor_shift by (simpl; lia). unfold u16, wrapU. change (2 ^ 8) with 256.
  change (2 ^ 16) with (256 * 256).
  replace (b + (a + 256 * b) * 256) with (b + 256 * a + b * (256 * 256)) by lia.
  rewrite Z.mod_add, Z.mod_small; lia.
Qed.

Lemma htonl_bytes a b c d :
  0 <= a < 256 -> 0 <= b < 256 -> 0 <= c < 256 -> 0 <= d < 256 ->
  htonl (le_val [a; b; c; d]) = le_val [d; c; b; a].
Proof.
  intros. unfold htonl. cbn [le_val].
  set (v := a + 256 * (b + 256 * (c + 256 * (d + 256 * 0)))).
  assert (u16 (Z.shiftr v 16) = c + 256 * d) as ->.
  { rewrite Z.shiftr_div_pow2 by lia. unfold u16, wrapU, v. change (2 ^ 16) with 65536.
    rewrite <- (Z.div_unique _ 65536 (c + 256 * d) (a + 256 * b)) by lia.
    apply Z.mod_small. lia. }
  assert (u16 v = a + 256 * b) as ->.
  { unfold u16, wrapU, v. change (2 ^ 16) with 65536. symmetry.
    apply (Z.mod_unique _ _ (c + 256 * d)); lia. }
  rewrite !htons_bytes, lor_shift by lia.
  unfold u32. rewrite wrapU_small; lia.
Qed.

Lemma run_at_exit_run t : forall k i,
  (i <= length t)%nat -> (i <= 128)%nat -> (i < k)%nat ->
  run_at_exit_loop k t (u32 (Z.of_nat i - 1)) = Ret (rev (take i t)).
Proof.
  intros k i. revert k. induction i as [|i IH]; intros k Hi H128 Hk;
    (destruct k as [|k]; [lia|]); cbn [run_at_exit_loop]; [done|].
  replace (Z.of_nat (S i) - 1) with (Z.of_nat i) by lia.
  assert (u32 (Z.of_nat i) = Z.of_nat i) as -> by (apply wrapU_small; lia).
  destruct (Z.ltb_spec (Z.of_nat i) MAX_ATEXIT); [|unfold MAX_ATEXIT in *; lia].
  rewrite Nat2Z.id. destruct (lookup_lt_is_Some_2 t i) as [e He]; [lia|].
  rewrite He. simpl. rewrite IH by lia. simpl. f_equal.
  by rewrite (take_S_r t i e He), rev_app_distr.
Qed.

(** ** Properties *)

(** A memory with the bytes [l] from address [p] on. *)
Definition sample_mem (p : Z) (l : list Z) : mem := write_bytes p l ∅.

Lemma sample_bytes_at p l : bytes_at (sample_mem p l) p l.
Proof. apply bytes_at_write. Qed.

Lemma sample_mapped p l : mapped (sample_mem p l) p (Z.of_nat (length l)).
Proof.
  intros a Ha. unfold sample_mem. rewrite lookup_write_bytes, decide_True by lia.
  apply lookup_lt_is_Some_2. lia.
Qed.

(** [memmove] leaves the destination holding exactly the bytes the source
    held before the call and changes nothing else, however the two regions
    overlap. *)
Theorem memmove_correct m dst src l :
  bytes_at m src l -> Forall is_byte l -> mapped m dst (Z.of_nat (length l)) ->
  memmove m dst src (Z.of_nat (length l)) = Ret (dst, write_bytes dst l m).
Proof. apply memmove_run. Qed.

Lemma memmove_correct_witness :
  memmove (sample_mem 100 [1; 2; 3; 4; 5]) 101 100 4
  = Ret (101, write_bytes 101 [1; 2; 3; 4] (sample_mem 100 [1; 2; 3; 4; 5])).
Proof.
  apply (memmove_correct (sample_mem 100 [1; 2; 3; 4; 5]) 101 100 [1; 2; 3; 4]).
  - apply (bytes_at_app _ 100 [1; 2; 3; 4] [5]), sample_bytes_at.
  - repeat constructor.
  - eapply mapped_sub; [apply (sample_mapped 100 [1; 2; 3; 4; 5])|simpl; lia|simpl; lia].
Defined.

(** [strcpy] and [stpcpy] write exactly the string and its NUL and return
    its start and its end, [strlen] is the length of the string, and [strcat]
    leaves the concatenation of the two strings. *)
Theorem string_copy_correct m to from s a :
  can_copy m to from s -> str_at m to a ->
  can_copy m (to + Z.of_nat (length a)) from s ->
  strcpy m to from = Ret (to, write_bytes to (s ++ [0]) m) /\
  stpcpy m to from = Ret (to + Z.of_nat (length s), write_bytes to (s ++ [0]) m) /\
  strlen m from = Ret (Z.of_nat (length s)) /\
  exists m', strcat m to from = Ret (to, m') /\ str_at m' to (a ++ s).
Proof.
  intros Hc Ha Hca. split_and!.
  - by apply strcpy_run.
  - unfold stpcpy. apply strcpy_loop_run; [done|]. by eapply can_copy_fuel.
  - apply strlen_run, Hc.
  - eexists. split; [by apply strcat_run|by eapply strcat_str].
Qed.

(** Two strings, at 10 and at 50, in a memory of 100 bytes. *)
Definition sample_strings : mem :=
  write_bytes 10 [104; 105; 0] (write_bytes 50 [97; 98; 99; 0]
    (sample_mem 0 (replicate 100 0))).

Lemma sample_str_10 : str_at sample_strings 10 [104; 105].
Proof. split; [apply bytes_at_write|repeat constructor; lia]. Qed.

Lemma sample_str_50 : str_at sample_strings 50 [97; 98; 99].
Proof.
  split; [|repeat constructor; lia].
  apply bytes_at_write_other; [apply bytes_at_write|simpl; lia].
Qed.

Lemma sample_strings_mapped p n : 0 <= p -> p + n <= 100 -> mapped sample_strings p n.
Proof.
  intros Hp Hn a Ha. unfold sample_strings, sample_mem. rewrite !lookup_write_bytes.
  repeat case_decide; try (apply lookup_lt_is_Some_2; simpl in *; lia).
  rewrite length_replicate in *. lia.
Qed.

Lemma string_copy_correct_witness :
  strcpy sample_strings 10 50 = Ret (10, write_bytes 10 [97; 98; 99; 0] sample_strings) /\
  strlen sample_strings 50 = Ret 3.
Proof.
  assert (forall to, 0 <= to <= 40 -> can_copy sample_strings to 50 [97; 98; 99]) as Hc.
  { intros to Hto. split_and!; [apply sample_str_50|repeat constructor| |simpl; lia].
    apply sample_strings_mapped; simpl; lia. }
  destruct (string_copy_correct sample_strings 10 50 [97; 98; 99] [104; 105])
    as (H1 & _ & H2 & _); [apply Hc; lia|apply sample_str_10|apply Hc; simpl; lia|].
  exact (conj H1 H2).
Defined.

(** [strcmp], [strncmp] and [memcmp] return a value whose sign is the
    lexicographic order of the unsigned bytes (of the first [n] for [strncmp]),
    and 0 exactly when the compared bytes are equal. *)
Theorem comparison_correct m a b s1 s2 n l1 l2 p1 p2 :
  str_at m a s1 -> str_at m b s2 -> nonneg_str s1 -> nonneg_str s2 ->
  bytes_at m p1 l1 -> bytes_at m p2 l2 -> length l1 = length l2 ->
  signed (strcmp m a b) (lex s1 s2) /\
  signed (strncmp m a b (Z.of_nat n)) (lex (take n s1) (take n s2)) /\
  signed (memcmp m p1 p2 (Z.of_nat (length l1))) (lex l1 l2) /\
  (strcmp m a b = Ret 0 <-> s1 = s2).
Proof.
  intros Ha Hb N1 N2 H1 H2 Hl.
  assert (signed (strcmp m a b) (lex s1 s2)) as Hc.
  { apply strcmp_loop_run; auto. apply str_at_size in Ha. unfold fuel. lia. }
  split_and!; [done|..].
  - unfold strncmp. destruct (Z.eqb_spec (Z.of_nat n) 0) as [E|].
    + assert (n = O) as -> by lia. by exists 0.
    + rewrite Nat2Z.id. by apply strncmp_loop_run.
  - unfold memcmp. destruct (Z.eqb_spec (Z.of_nat (length l1)) 0) as [E|].
    + destruct l1, l2; simpl in *; try lia. by exists 0.
    + rewrite Nat2Z.id. by apply memcmp_loop_run.
  - destruct Hc as (v & -> & Hv). rewrite <- lex_eq, <- Hv. rewrite Z.compare_eq_iff.
    split; congruence.
Qed.

Lemma comparison_correct_witness :
  signed (strcmp sample_strings 10 50) (lex [104; 105] [97; 98; 99]).
Proof.
  apply (comparison_correct sample_strings 10 50 [104; 105] [97; 98; 99] 2 [] [] 0 0);
    [apply sample_str_10|apply sample_str_50|repeat constructor; lia..
    |apply bytes_at_nil|apply bytes_at_nil|done].
Defined.

(** [strchr] returns the first occurrence of a character, [strrchr] the
    last, [memchr] the first among [n] bytes, and each a null pointer when
    there is none. *)
Theorem search_correct m p s q l ch :
  str_at m p s -> bytes_at m q l -> u8 ch <> 0 ->
  strchr m p ch = Ret (match list_find (eq (u8 ch)) s with
                       | Some (i, _) => p + Z.of_nat i | None => 0 end) /\
  strrchr m p ch = Ret (match last_pos (u8 ch) s with
                        | Some i => p + Z.of_nat i | None => 0 end) /\
  memchr m q ch (Z.of_nat (length l)) = Ret (match list_find (eq ch) l with
                       | Some (i, _) => q + Z.of_nat i | None => 0 end).
Proof.
  intros Hs Hl Hc. pose proof (str_at_size _ _ _ Hs).
  split_and!; [apply strchr_loop_run|apply strrchr_loop_run|]; auto; unfold fuel; try lia.
  unfold memchr. destruct (Z.eqb_spec (Z.of_nat (length l)) 0).
  - by destruct l.
  - rewrite Nat2Z.id. by apply memchr_loop_run.
Qed.

Lemma search_correct_witness : strchr sample_strings 50 98 = Ret 51.
Proof.
  apply (search_correct sample_strings 50 [97; 98; 99] 10 [104; 105; 0] 98);
    [apply sample_str_50|apply sample_str_10|by vm_compute].
Defined.

(** On blanks, an optional sign and digits in the base, [strtol] returns
    the signed value clamped to the range of [long], sets [ERANGE] exactly when
    the value is out of range, and ends right after the last digit. *)
Theorem strtol_correct m p base ws sgn cs z neg ds :
  number_text m p base ws sgn cs z neg ds ->
  let v := value_from base 0 ds in
  strtol m p base
  = Ret (mkConv (strtol_value neg v) (if strtol_range neg v then None else Some ERANGE)
           (p + text_len ws sgn cs)).
Proof. apply strtol_run. Qed.

Lemma strtol_correct_witness :
  strtol (sample_mem 0 [32; 45; 52; 50; 0]) 0 10 = Ret (mkConv (-42) None 4).
Proof.
  apply (strtol_correct (sample_mem 0 [32; 45; 52; 50; 0]) 0 10 [32] [45] [52; 50] 0 true
    [4; 2]).
  constructor; [lia|repeat constructor| |repeat constructor|done|done|apply sample_bytes_at].
  right. by right.
Defined.

(** [htonl] reverses the four bytes of its argument, so it is its own
    inverse. *)
Theorem htonl_reverses v :
  0 <= v < 2 ^ 32 ->
  htonl v = le_val (rev (le_bytes 4 v)) /\ ntohl (htonl v) = v.
Proof.
  intros Hv. assert (v = le_val (le_bytes 4 v)) as E.
  { rewrite le_val_bytes, Z.mod_small; [done|]. simpl; lia. }
  pose proof (fun x => Z.mod_pos_bound x 256 ltac:(lia)) as Hm.
  assert (htonl v = le_val (rev (le_bytes 4 v))) as H1.
  { rewrite E at 1. by apply htonl_bytes. }
  split; [done|]. rewrite H1. unfold ntohl. rewrite E at 2.
  by apply htonl_bytes.
Qed.

Lemma htonl_reverses_witness :
  htonl 0x01020304 = le_val (rev (le_bytes 4 0x01020304)) /\ ntohl (htonl 0x01020304) = 0x01020304.
Proof. apply (htonl_reverses 0x01020304). lia. Defined.

(** Registering a list of handlers, one call after the other. *)
Fixpoint register (t : AtExit) (hs : list (Z * Z)) : outcome AtExit :=
  match hs with
  | [] => Ret t
  | (fn, arg) :: hs' => '(_, t') ← __cxa_atexit t fn arg 0; register t' hs'
  end.

Lemma register_run hs : forall t,
  (length t + length hs <= 128)%nat -> register t hs = Ret (t ++ hs).
Proof.
  induction hs as [|[fn arg] hs IH]; intros t Hl; simpl in Hl.
  { cbn [register]. by rewrite app_nil_r. }
  cbn [register]. unfold __cxa_atexit, MAX_ATEXIT.
  destruct (Z.eqb_spec (Z.of_nat (length t)) 128); [lia|].
  unfold mbind, outcome_bind. rewrite IH by (rewrite length_app; simpl; lia).
  by rewrite <- app_assoc.
Qed.

(** Up to 128 handlers registered with [__cxa_atexit] run in the reverse
    order of their registration, each exactly once with its argument; one more
    registration is reported as an error instead of overrunning the table. *)
Theorem atexit_reverse_order hs :
  (length hs <= 128)%nat ->
  exists t, register [] hs = Ret t /\ RunAtExit t = Ret (rev hs) /\
    (length hs = 128%nat -> forall fn arg dso,
       __cxa_atexit t fn arg dso = Stop (KleeError "__cxa_atexit: no room in array!")).
Proof.
  intros Hl. exists hs. rewrite register_run by (simpl; lia). split; [done|].
  unfold RunAtExit. rewrite run_at_exit_run, firstn_all by lia. split; [done|].
  intros E fn arg dso. unfold __cxa_atexit. by rewrite E.
Qed.

Lemma atexit_reverse_order_witness :
  exists t, register [] [(1, 10); (2, 20); (3, 30)] = Ret t /\
    RunAtExit t = Ret [(3, 30); (2, 20); (1, 10)].
Proof.
  destruct (atexit_reverse_order [(1, 10); (2, 20); (3, 30)]) as (t&H1&H2&_); [simpl; lia|].
  exists t. exact (conj H1 H2).
Defined.
