(* ===== verification/NesCheckLib.v ===== *)
(** * The metadata table of the NesCheck instrumentation

    Models [src/ccured-src/.../neschecklib.c], the run-time library linked into
    instrumented programs: a growing array of pointers to entries that records
    the size of the object behind each pointer.  The table is a list of
    entries; [setMetadataTableEntry] changes an entry in place or appends one
    ([malloc] and [realloc] succeed).  The counters are C [long]s. *)

From S2P Require Import Prelude.

Module NesCheck.

Record metadata_table_entry := mkEntry { ptr : Z; msize : Z }.

Abbreviation table := (list metadata_table_entry).

(** The loop over the table; the index of the entry found. *)
Fixpoint findMetadataTableEntry (t : table) (p : Z) : option nat :=
  match t with
  | [] => None
  | e :: t' => if ptr e =? p then Some O else S <$> findMetadataTableEntry t' p
  end.

Definition setMetadataTableEntry (t : table) (p size addr : Z) : table :=
  match findMetadataTableEntry t p with
  | None => t ++ [mkEntry p size]
  | Some i => alter (fun e => mkEntry (ptr e) size) i t
  end.

Definition lookupMetadataTableEntry (t : table) (p : Z) : Z :=
  match findMetadataTableEntry t p with
  | None => 0
  | Some i => match t !! i with Some e => msize e | None => 0 end
  end.

(** ** Invariant and refinement

    The table implements a finite map from pointers to sizes: no pointer occurs
    twice, and the operations are the map's. *)

Definition wf (t : table) : Prop := NoDup (ptr <$> t).

Definition repr (t : table) : gmap Z Z := list_to_map ((fun e => (ptr e, msize e)) <$> t).

Lemma find_None t p : findMetadataTableEntry t p = None <-> p ∉ (ptr <$> t).
Proof.
  induction t as [|e t IH]; simpl; [split; [intros _; apply not_elem_of_nil|done]|].
  rewrite not_elem_of_cons, <- IH. destruct (Z.eqb_spec (ptr e) p) as [->|Hne].
  - split; [done|]. by intros [].
  - destruct (findMetadataTableEntry t p) as [j|]; simpl.
    + split; [done|]. intros [_ [=]].
    + split; [|done]. intros _. split; [congruence|done].
Qed.

Lemma find_Some t p i :
  findMetadataTableEntry t p = Some i -> exists e, t !! i = Some e /\ ptr e = p.
Proof.
  revert i. induction t as [|e t IH]; intros i H; simpl in H; [done|].
  destruct (Z.eqb_spec (ptr e) p) as [E|Hne]; simplify_eq; [by exists e|].
  destruct (findMetadataTableEntry t p) as [j|]; simplify_eq/=. by apply IH.
Qed.

Lemma fst_repr_list t : ((fun e => (ptr e, msize e)) <$> t).*1 = ptr <$> t.
Proof. by rewrite <- list_fmap_compose. Qed.

Lemma repr_lookup_None t p : findMetadataTableEntry t p = None -> repr t !! p = None.
Proof.
  rewrite find_None. intros H. apply not_elem_of_list_to_map_1. by rewrite fst_repr_list.
Qed.

Lemma repr_lookup_Some t i e : wf t -> t !! i = Some e -> repr t !! ptr e = Some (msize e).
Proof.
  intros Hw He. apply elem_of_list_to_map_1; [by rewrite fst_repr_list|].
  apply list_elem_of_fmap. exists e. split; [done|]. by eapply list_elem_of_lookup_2.
Qed.

Lemma lookup_refines t p :
  wf t -> lookupMetadataTableEntry t p = default 0 (repr t !! p).
Proof.
  intros Hw. unfold lookupMetadataTableEntry.
  destruct (findMetadataTableEntry t p) as [i|] eqn:E.
  - apply find_Some in E as (e & He & <-). by rewrite He, (repr_lookup_Some t i e).
  - by rewrite repr_lookup_None.
Qed.

Lemma set_ptrs t p size addr :
  ptr <$> setMetadataTableEntry t p size addr
  = match findMetadataTableEntry t p with
    | None => (ptr <$> t) ++ [p] | Some _ => ptr <$> t end.
Proof.
  unfold setMetadataTableEntry. destruct (findMetadataTableEntry t p) as [i|].
  - apply list_eq. intros j. rewrite !list_lookup_fmap.
    destruct (decide (i = j)) as [->|Hne].
    + rewrite list_lookup_alter_eq. by destruct (t !! j).
    + by rewrite list_lookup_alter_ne.
  - by rewrite fmap_app.
Qed.

Lemma set_wf t p size addr : wf t -> wf (setMetadataTableEntry t p size addr).
Proof.
  intros Hw. unfold wf. rewrite set_ptrs.
  destruct (findMetadataTableEntry t p) eqn:E; [done|].
  apply NoDup_app. split_and!; [done| |apply NoDup_singleton].
  intros x Hx. apply find_None in E. rewrite list_elem_of_singleton. congruence.
Qed.

Lemma set_refines t p size addr :
  wf t -> repr (setMetadataTableEntry t p size addr) = <[p := size]> (repr t).
Proof.
  intros Hw. unfold setMetadataTableEntry.
  destruct (findMetadataTableEntry t p) as [i|] eqn:E.
  - apply find_Some in E as (e & He & <-). unfold repr in *. clear addr.
    revert i He. induction t as [|x t IH]; intros [|i] He; simpl in He; simplify_eq.
    + simpl. by rewrite insert_insert_eq.
    + change (alter _ (S i) (x :: t)) with
        (x :: alter (fun e => mkEntry (ptr e) size) i t).
      inversion Hw as [|? ? Hx Hw']; subst. rewrite !fmap_cons, !list_to_map_cons.
      rewrite (IH Hw' i He).
      rewrite insert_insert_ne; [done|]. intros Heq. apply Hx. rewrite Heq.
      apply list_elem_of_fmap. exists e. split; [done|]. by eapply list_elem_of_lookup_2.
  - unfold repr. rewrite fmap_app. simpl.
    apply list_to_map_snoc. rewrite fst_repr_list. by apply find_None.
Qed.

(** A sequence of recordings. *)
Fixpoint record_all (t : table) (l : list (Z * Z)) : table :=
  match l with
  | [] => t
  | (p, n) :: l' => record_all (setMetadataTableEntry t p n 0) l'
  end.

Lemma record_all_refines l : forall t,
  wf t -> wf (record_all t l) /\
  repr (record_all t l) = foldl (fun m '(p, n) => <[p := n]> m) (repr t) l.
Proof.
  induction l as [|[p n] l IH]; intros t Hw; simpl; [done|].
  rewrite <- (set_refines t p n 0 Hw). apply IH. by apply set_wf.
Qed.

(** After any sequence of recordings the table answers, for every
    pointer, the size recorded last for it, and 0 for a pointer that was never
    recorded; it holds one entry per recorded pointer. *)
Theorem metadata_table_refines (l : list (Z * Z)) (p : Z) :
  let t := record_all [] l in
  wf t /\
  lookupMetadataTableEntry t p
  = default 0 ((foldl (fun m '(p, n) => <[p := n]> m) (∅ : gmap Z Z) l) !! p).
Proof.
  intros t. destruct (record_all_refines l []) as [H1 H2]; [apply NoDup_nil_2|].
  split; [done|]. rewrite lookup_refines by done. unfold t. by rewrite H2.
Qed.

End NesCheck.
