(* ===== verification/Replay.v ===== *)
(** * Replaying a test case natively

    Models [src/vital-src/runtime/Runtest/intrinsics.c], the library that gives
    the engine's intrinsics a meaning when a program is run on a generated
    test: [klee_make_symbolic] hands out the objects of the test in order.

    The state is the file's static variables.  The process environment, the
    generator [rand] and the test file reader [kTest_fromFile] are a parameter
    record [penv]; [KTest] puts the modelled reader in.  Calls that end the
    process with [exit(1)] are [SilentExit 1]. *)

From S2P Require Import Prelude.

Module Replay.

(** The objects of a test: name and bytes. *)
Record KTestObject := mkObj { o_name : list Z; o_bytes : list Z }.
Abbreviation KTest := (list KTestObject).

(** The process environment. *)
Record penv := mkPenv {
  klee_random : bool;                        (* KLEE_RANDOM is set *)
  errors_non_fatal : bool;                   (* KLEE_RUN_TEST_ERRORS_NON_FATAL *)
  ktest_file : option (list Z);              (* KTEST_FILE *)
  input_line : option (list Z);              (* the line fgets reads *)
  kTest_fromFile : list Z -> option KTest;
  rand : nat -> Z }.                         (* the generator's outputs *)

Record state := mkState {
  rand_init : Z; testData : option KTest; testPosition : Z; rand_pos : nat }.

Definition initial : state := mkState (-1) None 0 0.

Section Replay.
Context (env : penv).

Definition rand_byte (x : Z) : Z :=
  let x := u32 x in
  let x := Z.lxor x (Z.shiftr x 16) in
  let x := Z.lxor x (Z.shiftr x 8) in
  Z.land x 255.

(** Prints a message and ends the process unless errors are not fatal. *)
Definition report_internal_error : outcome unit :=
  if errors_non_fatal env then Ret tt else Stop (SilentExit 1).

(** The initialisation of [rand_init] on the first call. *)
Definition init_rand (st : state) : state :=
  if rand_init st =? -1
  then mkState (if klee_random env then 1 else 0) (testData st) (testPosition st) (rand_pos st)
  else st.

(** Random bytes. *)
Definition random_bytes (nbytes : Z) (name : list Z) (st : state)
    : outcome (list Z * state) :=
  if bool_decide (name = bytes "syscall_a0") then
    if negb (nbytes =? 8) then Stop AssertFail
    else Ret (le_bytes 8 (Z.rem (rand env (rand_pos st)) 69),
              mkState (rand_init st) (testData st) (testPosition st) (S (rand_pos st)))
  else
    let n := Z.to_nat nbytes in
    Ret ((fun i => rand_byte (rand env (rand_pos st + i))) <$> seq 0 n,
         mkState (rand_init st) (testData st) (testPosition st) (rand_pos st + n)).

(** Loading the test on first use. *)
Definition load_test (st : state) : outcome (KTest * state) :=
  match testData st with
  | Some t => Ret (t, st)
  | None =>
      name ← match ktest_file env with
             | Some n => Ret n
             | None =>
                 match input_line env with
                 | None => Stop (SilentExit 1)
                 | Some l => if bool_decide (l = []) then Stop (SilentExit 1)
                             else Ret (take (length l - 1) l)
                 end
             end;
      match kTest_fromFile env name with
      | None => Stop (SilentExit 1)
      | Some t => Ret (t, mkState (rand_init st) (Some t) (testPosition st) (rand_pos st))
      end
  end.

(** The loop body: the next object of the test for [name] and [nbytes]. *)
Definition next_object (t : KTest) (nbytes : Z) (name : list Z) (st : state)
    : outcome (list Z * state) :=
  if Z.of_nat (length t) <=? testPosition st then
    report_internal_error;;
    Ret (replicate (Z.to_nat nbytes) 0, st)
  else
    o ← of_option MemError (t !! Z.to_nat (testPosition st));
    (if bool_decide (name = o_name o) then Ret tt else report_internal_error);;
    let numBytes := Z.of_nat (length (o_bytes o)) in
    let copied := take (Z.to_nat (if nbytes <? numBytes then nbytes else numBytes)) (o_bytes o) in
    array ← (if negb (nbytes =? numBytes) then
               report_internal_error;;
               Ret (if numBytes <? nbytes
                    then copied ++ replicate (Z.to_nat (nbytes - numBytes)) 0 else copied)
             else Ret copied);
    Ret (array, mkState (rand_init st) (testData st) (u32 (testPosition st + 1)) (rand_pos st)).

(** The bytes stored into the caller's object. *)
Definition klee_make_symbolic (nbytes : Z) (name : option (list Z)) (st : state)
    : outcome (list Z * state) :=
  let name := default (bytes "unnamed") name in
  let st := init_rand st in
  if nz (rand_init st) then random_bytes nbytes name st
  else
    '(t, st) ← load_test st;
    next_object t nbytes name st.

Definition klee_choose (n : Z) (st : state) : outcome (Z * state) :=
  '(b, st) ← klee_make_symbolic 8 (Some (bytes "klee_choose")) st;
  let x := le_val b in
  (if n <=? x then report_internal_error else Ret tt);;
  Ret (x, st).

Definition klee_is_replay : Z := 1.

Definition klee_assume (x : Z) : outcome unit :=
  if x =? 0 then report_internal_error else Ret tt.

Definition klee_range (begin end_ : Z) (name : option (list Z)) (st : state)
    : outcome (Z * state) :=
  '(b, st) ← klee_make_symbolic 4 name st;
  let x := s32 (le_val b) in
  (if (x <? begin) || (end_ <=? x) then report_internal_error else Ret tt);;
  Ret (x, st).

Definition klee_silent_exit (x : Z) : outcome unit := Stop (SilentExit x).

(** ** Sequences of requests *)

Fixpoint requests (rs : list (Z * option (list Z))) (st : state)
    : outcome (list (list Z) * state) :=
  match rs with
  | [] => Ret ([], st)
  | (n, name) :: rs' =>
      '(b, st) ← klee_make_symbolic n name st;
      '(bs, st) ← requests rs' st;
      Ret (b :: bs, st)
  end.

(** The request an object answers exactly. *)
Definition request_of (o : KTestObject) : Z * option (list Z) :=
  (Z.of_nat (length (o_bytes o)), Some (o_name o)).

Definition loaded (t : KTest) (k : nat) : state := mkState 0 (Some t) (Z.of_nat k) 0.

Lemma next_object_match t k o :
  t !! k = Some o -> Z.of_nat (length t) < 2 ^ 32 ->
  next_object t (Z.of_nat (length (o_bytes o))) (o_name o) (loaded t k)
  = Ret (o_bytes o, loaded t (S k)).
Proof.
  intros Ho Hl. pose proof (lookup_lt_Some _ _ _ Ho). unfold next_object. simpl testPosition.
  destruct (Z.leb_spec (Z.of_nat (length t)) (Z.of_nat k)); [lia|].
  rewrite Nat2Z.id, Ho. simpl. rewrite bool_decide_eq_true_2 by done. simpl.
  rewrite Z.ltb_irrefl, Z.eqb_refl. simpl. rewrite Nat2Z.id, take_ge by lia.
  unfold loaded. do 3 f_equal. unfold u32. rewrite wrapU_small; lia.
Qed.

Lemma make_symbolic_loaded t k n name :
  klee_make_symbolic n (Some name) (loaded t k) = next_object t n name (loaded t k).
Proof. done. Qed.

Lemma requests_run t : forall k os,
  Z.of_nat (length t) < 2 ^ 32 -> drop k t = os -> (k <= length t)%nat ->
  requests (request_of <$> os) (loaded t k)
  = Ret (o_bytes <$> os, loaded t (length t)).
Proof.
  intros k os Hl. revert k. induction os as [|o os IH]; intros k Hd Hk.
  - assert (length (drop k t) = O) as E by (by rewrite Hd).
    rewrite length_drop in E. simpl. unfold loaded. do 3 f_equal. lia.
  - assert (t !! k = Some o) as Ho.
    { rewrite <- (Nat.add_0_r k), <- lookup_drop, Hd. done. }
    rewrite !fmap_cons. cbn [requests request_of].
    rewrite make_symbolic_loaded, next_object_match by done.
    unfold mbind, outcome_bind.
    rewrite (IH (S k)); [done| |pose proof (lookup_lt_Some _ _ _ Ho); lia].
    rewrite <- Nat.add_1_r, <- drop_drop, Hd. done.
Qed.

End Replay.

(** A program that asks for the objects of its test file in order, under
    their names and sizes, is given exactly their bytes, and the whole test is
    used up. *)
Theorem replay_returns_test env file t :
  klee_random env = false -> ktest_file env = Some file ->
  kTest_fromFile env file = Some t -> Z.of_nat (length t) < 2 ^ 32 ->
  t <> [] ->
  requests env (request_of <$> t) initial = Ret (o_bytes <$> t, loaded t (length t)).
Proof.
  intros Hr Hf Ht Hl Hne. destruct t as [|o t]; [done|].
  pose proof (requests_run env (o :: t) 0 (o :: t) Hl eq_refl ltac:(lia)) as E.
  rewrite <- E. simpl. unfold klee_make_symbolic, init_rand, load_test. simpl.
  rewrite Hr, Hf. simpl. by rewrite Ht.
Qed.

Definition sample_env : penv :=
  mkPenv false false (Some (bytes "test.ktest")) None
    (fun _ => Some [mkObj (bytes "x") [1; 2; 3; 4]; mkObj (bytes "buf") [5; 6]]) (fun _ => 0).

Lemma replay_returns_test_witness :
  requests sample_env [(4, Some (bytes "x")); (2, Some (bytes "buf"))] initial
  = Ret ([[1; 2; 3; 4]; [5; 6]],
         loaded [mkObj (bytes "x") [1; 2; 3; 4]; mkObj (bytes "buf") [5; 6]] 2).
Proof.
  apply (replay_returns_test sample_env (bytes "test.ktest")
    [mkObj (bytes "x") [1; 2; 3; 4]; mkObj (bytes "buf") [5; 6]]); (done || simpl; lia).
Defined.

(** With fatal errors, a request that does not match the test ends the
    process: a different name, a different size, or no object left; with
    non-fatal errors it still fills the object with exactly the requested number
    of bytes. *)
Theorem replay_mismatch env t k n name :
  0 <= n -> Z.of_nat (length t) < 2 ^ 32 ->
  (forall o, t !! k = Some o -> o_name o <> name \/ Z.of_nat (length (o_bytes o)) <> n) ->
  (errors_non_fatal env = false ->
   klee_make_symbolic env n (Some name) (loaded t k) = Stop (SilentExit 1)) /\
  forall b st, klee_make_symbolic env n (Some name) (loaded t k) = Ret (b, st) ->
    Z.of_nat (length b) = n.
Proof.
  intros Hn Hl Hm. rewrite make_symbolic_loaded. unfold next_object, report_internal_error.
  simpl testPosition. rewrite Nat2Z.id. split.
  - intros ->.
    destruct (Z.leb_spec (Z.of_nat (length t)) (Z.of_nat k)); [done|].
    destruct (lookup_lt_is_Some_2 t k) as [o Ho]; [lia|]. rewrite Ho. simpl.
    case_bool_decide as Hname; [|done]. destruct (Hm o Ho) as [?|Hs]; [congruence|].
    simpl. destruct (Z.eqb_spec n (Z.of_nat (length (o_bytes o)))); [congruence|done].
  - intros b st. destruct (Z.leb_spec (Z.of_nat (length t)) (Z.of_nat k)).
    { destruct (errors_non_fatal env); [|done]. intros [= <- _].
      rewrite length_replicate. lia. }
    destruct (lookup_lt_is_Some_2 t k) as [o Ho]; [lia|]. rewrite Ho. simpl.
    set (len := Z.of_nat (length (o_bytes o))).
    assert (Z.of_nat (length (take (Z.to_nat (if n <? len then n else len)) (o_bytes o)))
            = Z.min n len) as Ht.
    { rewrite length_take. destruct (Z.ltb_spec n len); unfold len in *; lia. }
    destruct (if bool_decide _ then _ else _) as [[]|]; [|done]. simpl.
    destruct (Z.eqb_spec n len); simpl; [intros [= <- _]; lia|].
    destruct (errors_non_fatal env); [|done]. simpl. intros [= <- _].
    destruct (Z.ltb_spec len n).
    + rewrite length_app, length_replicate, Nat2Z.inj_add, Ht. lia.
    + lia.
Qed.

Lemma replay_mismatch_witness :
  klee_make_symbolic sample_env 8 (Some (bytes "x"))
    (loaded [mkObj (bytes "x") [1; 2; 3; 4]] 0) = Stop (SilentExit 1).
Proof.
  apply (replay_mismatch sample_env [mkObj (bytes "x") [1; 2; 3; 4]] 0 8 (bytes "x"));
    [lia|simpl; lia| |done]. intros o [= <-]. right. simpl. lia.
Defined.

End Replay.
