(* ===== verification/KTest.v ===== *)
(** * Test files

    [lib/Basic/KTest.cpp] writes a generated test to a [.ktest] file and reads
    it back for replay.  A file being read is the list of its bytes that are
    left; a file being written is the bytes so far and the room left on the
    device.  A string is its buffer, terminated by the first zero byte or by
    its end. *)

From S2P Require Import Prelude Replay.

(** ** Data *)

Record KTestObject : Type := mkKTestObject {
  name : list Z;
  numBytes : Z;
  obytes : list Z
}.

Record KTest : Type := mkKTest {
  version : Z;
  numArgs : Z;
  args : list (list Z);
  symArgvs : Z;
  symArgvLen : Z;
  numObjects : Z;
  objects : list KTestObject
}.

Definition KTEST_VERSION : Z := 3.
Definition KTEST_MAGIC : list Z := bytes "KTEST".
(** ["BOUT\n"] *)
Definition BOUT_MAGIC : list Z := bytes "BOUT" ++ [10].

Definition kTest_getCurrentVersion : Z := KTEST_VERSION.

(** The string in a buffer. *)
Fixpoint c_string (l : list Z) : list Z :=
  match l with
  | [] => []
  | x :: l' => if x =? 0 then [] else x :: c_string l'
  end.

(** ** Writing *)

Record wfile : Type := mkWfile { written : list Z; room : Z }.

(** [fwrite(data, size, 1, f)] with [size] the length of [data] and [count]
    items of [size / count] bytes: the number of whole items written.  Nothing
    is written for items of size 0. *)
Definition fwrite (data : list Z) (count : Z) (f : wfile) : Z * wfile :=
  let total := Z.of_nat (length data) in
  let size := total / count in
  if size =? 0 then (0, f)
  else
    let n := Z.min total (room f) in
    (n / size, mkWfile (written f ++ take (Z.to_nat n) data) (room f - n)).

Definition write_uint32 (value : Z) (f : wfile) : bool * wfile :=
  let data := [u8 (Z.shiftr value 24); u8 (Z.shiftr value 16); u8 (Z.shiftr value 8); u8 value] in
  let '(n, f) := fwrite data 4 f in
  (n =? 4, f).

(** The functions return 1 or 0; a failure ends the caller. *)
Definition and_then (r : bool * wfile) (k : wfile -> bool * wfile) : bool * wfile :=
  let '(ok, f) := r in if ok then k f else (false, f).

Definition write_block (data : list Z) (f : wfile) : bool * wfile :=
  let '(n, f) := fwrite data 1 f in (n =? 1, f).

Definition write_string (value : list Z) (f : wfile) : bool * wfile :=
  let s := c_string value in
  and_then (write_uint32 (u32 (Z.of_nat (length s))) f) (write_block s).

(** The loops, over the first [n] entries; a missing entry is outside of the
    array. *)
Fixpoint write_args (n : nat) (l : list (list Z)) (f : wfile) : outcome (bool * wfile) :=
  match n with
  | O => Ret (true, f)
  | S n' =>
      match l with
      | [] => Stop MemError
      | a :: l' =>
          let '(ok, f) := write_string a f in
          if ok then write_args n' l' f else Ret (false, f)
      end
  end.

Fixpoint write_objects (n : nat) (l : list KTestObject) (f : wfile) : outcome (bool * wfile) :=
  match n with
  | O => Ret (true, f)
  | S n' =>
      match l with
      | [] => Stop MemError
      | o :: l' =>
          if Z.of_nat (length (obytes o)) <? numBytes o then Stop MemError
          else
            let '(ok, f) :=
              and_then (write_string (name o) f) (fun f =>
              and_then (write_uint32 (numBytes o) f)
                (write_block (take (Z.to_nat (numBytes o)) (obytes o)))) in
            if ok then write_objects n' l' f else Ret (false, f)
      end
  end.

(** [f] is the file opened for writing, [None] when it cannot be opened; the
    result is the value returned and the file's contents. *)
Definition kTest_toFile (bo : KTest) (f : option wfile) : outcome (bool * list Z) :=
  match f with
  | None => Ret (false, [])
  | Some f =>
      let '(ok, f) :=
        and_then (write_block KTEST_MAGIC f) (fun f =>
        and_then (write_uint32 KTEST_VERSION f) (write_uint32 (numArgs bo))) in
      if negb ok then Ret (false, written f)
      else
        '(ok, f) ← write_args (Z.to_nat (numArgs bo)) (args bo) f;
        if negb ok then Ret (false, written f)
        else
          let '(ok, f) :=
            and_then (write_uint32 (symArgvs bo) f) (fun f =>
            and_then (write_uint32 (symArgvLen bo) f) (write_uint32 (numObjects bo))) in
          if negb ok then Ret (false, written f)
          else
            '(ok, f) ← write_objects (Z.to_nat (numObjects bo)) (objects bo) f;
            Ret (ok, written f)
  end.

(** ** Reading

    [None] is the failure of a function; a [Stop] is an invalid access. *)

Definition reader (A : Type) : Type := list Z -> outcome (option (A * list Z)).

Definition rret {A} (a : A) : reader A := fun f => Ret (Some (a, f)).
Definition rfail {A} : reader A := fun _ => Ret None.
Definition rbind {A B} (m : reader A) (k : A -> reader B) : reader B := fun f =>
  match m f with
  | Ret (Some (a, f')) => k a f'
  | Ret None => Ret None
  | Stop e => Stop e
  end.

Declare Scope reader_scope.
Delimit Scope reader_scope with reader.
Notation "x <~ m ; k" := (rbind m (fun x => k))
  (at level 20, m at level 100, k at level 200, right associativity) : reader_scope.
Open Scope reader_scope.

(** [fread(buf, len, 1, f) != 1]: an item of size 0 is never read. *)
Definition fread (len : Z) : reader (list Z) := fun f =>
  if (len =? 0) || (Z.of_nat (length f) <? len) then Ret None
  else Ret (Some (take (Z.to_nat len) f, drop (Z.to_nat len) f)).

Definition read_uint32 : reader Z :=
  data <~ fread 4;
  match data with
  | [a; b; c; d] =>
      rret (u32 (Z.shiftl (Z.shiftl (Z.shiftl a 8 + b) 8 + c) 8 + d))
  | _ => rfail
  end.

Section Memory.
(** Whether an allocation of that many bytes succeeds. *)
Variable malloc : Z -> bool.

(** [malloc(len+1)] wraps for the largest length. *)
Definition read_string : reader (list Z) :=
  len <~ read_uint32;
  if negb (malloc (u32 (len + 1))) then rfail
  else
    fun f => if (u32 (len + 1) <=? len) && (0 <? Z.of_nat (length f)) then Stop MemError
             else fread len f.

Fixpoint read_args (n : nat) : reader (list (list Z)) :=
  match n with
  | O => rret []
  | S n' => a <~ read_string; l <~ read_args n'; rret (a :: l)
  end.

(** The allocation of the bytes is not checked. *)
Definition read_object : reader KTestObject :=
  nm <~ read_string;
  n <~ read_uint32;
  b <~ (fun f => if negb (malloc n) && (0 <? n) && (0 <? Z.of_nat (length f)) then Stop MemError
                 else fread n f);
  rret (mkKTestObject nm n b).

Fixpoint read_objects (n : nat) : reader (list KTestObject) :=
  match n with
  | O => rret []
  | S n' => o <~ read_object; l <~ read_objects n'; rret (o :: l)
  end.

Definition kTest_checkHeader : reader unit :=
  header <~ fread 5;
  if bool_decide (header = KTEST_MAGIC) || bool_decide (header = BOUT_MAGIC) then rret tt else rfail.

Definition kTest_isKTestFile (f : option (list Z)) : outcome bool :=
  match f with
  | None => Ret false
  | Some f =>
      match kTest_checkHeader f with
      | Ret (Some _) => Ret true
      | Ret None => Ret false
      | Stop e => Stop e
      end
  end.

(** The sizes of the structures are those of a 64-bit machine. *)
Definition read_test : reader KTest :=
  _ <~ kTest_checkHeader;
  if negb (malloc 40) then rfail else
  v <~ read_uint32;
  if kTest_getCurrentVersion <? v then rfail else
  na <~ read_uint32;
  if negb (malloc (na * 8)) then rfail else
  l <~ read_args (Z.to_nat na);
  sa <~ (if 2 <=? v then read_uint32 else rret 0);
  sl <~ (if 2 <=? v then read_uint32 else rret 0);
  no <~ read_uint32;
  if negb (malloc (no * 24)) then rfail else
  os <~ read_objects (Z.to_nat no);
  rret (mkKTest v na l sa sl no os).

Definition kTest_fromFile (f : option (list Z)) : outcome (option KTest) :=
  match f with
  | None => Ret None
  | Some f =>
      match read_test f with
      | Ret (Some (t, _)) => Ret (Some t)
      | Ret None => Ret None
      | Stop e => Stop e
      end
  end.

End Memory.

Definition kTest_numBytes (bo : KTest) : Z :=
  foldl (fun res o => u32 (res + numBytes o)) 0 (take (Z.to_nat (numObjects bo)) (objects bo)).

(** ** What is written *)

Definition enc32 (v : Z) : list Z := [u8 (Z.shiftr v 24); u8 (Z.shiftr v 16); u8 (Z.shiftr v 8); u8 v].
Definition enc_string (s : list Z) : list Z := enc32 (Z.of_nat (length s)) ++ s.
Definition enc_object (o : KTestObject) : list Z :=
  enc_string (name o) ++ enc32 (numBytes o) ++ obytes o.

Definition encode (t : KTest) : list Z :=
  KTEST_MAGIC ++ enc32 KTEST_VERSION ++ enc32 (numArgs t) ++ concat (map enc_string (args t)) ++
  enc32 (symArgvs t) ++ enc32 (symArgvLen t) ++ enc32 (numObjects t) ++
  concat (map enc_object (objects t)).

(** The strings and objects the format can hold: not empty, without zero
    bytes, with sizes below [2^32]. *)
Definition ok_string (s : list Z) : Prop :=
  s <> [] /\ Forall (fun x => x <> 0) s /\ Z.of_nat (length s) < 2 ^ 32 - 1.

Record ok_object (o : KTestObject) : Prop := {
  oo_name : ok_string (name o);
  oo_size : numBytes o = Z.of_nat (length (obytes o));
  oo_range : 0 < numBytes o < 2 ^ 32
}.

Record ok_test (t : KTest) : Prop := {
  ot_args : numArgs t = Z.of_nat (length (args t));
  ot_args_range : numArgs t < 2 ^ 32;
  ot_strings : Forall ok_string (args t);
  ot_sym : 0 <= symArgvs t < 2 ^ 32 /\ 0 <= symArgvLen t < 2 ^ 32;
  ot_objects : numObjects t = Z.of_nat (length (objects t));
  ot_objects_range : numObjects t < 2 ^ 32;
  ot_all : Forall ok_object (objects t)
}.

(** [w] appends [d] when there is room. *)
Definition writes (w : wfile -> bool * wfile) (d : list Z) : Prop :=
  forall f, Z.of_nat (length d) <= room f ->
    w f = (true, mkWfile (written f ++ d) (room f - Z.of_nat (length d))).

Lemma writes_then w1 d1 w2 d2 :
  writes w1 d1 -> writes w2 d2 -> writes (fun f => and_then (w1 f) w2) (d1 ++ d2).
Proof.
  intros H1 H2 f Hroom. rewrite length_app in *. rewrite H1 by lia. simpl. rewrite H2 by (simpl; lia).
  simpl. rewrite <- app_assoc. do 2 f_equal. lia.
Qed.

Lemma writes_block d : d <> [] -> writes (write_block d) d.
Proof.
  intros Hd f Hroom. unfold write_block, fwrite. rewrite Z.div_1_r.
  assert (0 < Z.of_nat (length d)) by (destruct d; [done|simpl; lia]).
  destruct (Z.eqb_spec (Z.of_nat (length d)) 0); [lia|].
  rewrite Z.min_l by done. rewrite Z.div_same by lia. by rewrite Nat2Z.id, firstn_all.
Qed.

Lemma writes_uint32 v : writes (write_uint32 v) (enc32 v).
Proof.
  intros f Hroom. simpl in Hroom. unfold write_uint32, fwrite, enc32. cbn [length].
  change (Z.of_nat 4) with 4 in *. change (4 / 4) with 1. rewrite Z.min_l by lia. done.
Qed.

Lemma c_string_id s : Forall (fun x => x <> 0) s -> c_string s = s.
Proof. induction 1 as [|x s Hx _ IH]; simpl; [done|]. destruct (Z.eqb_spec x 0); [done|]. by rewrite IH. Qed.

Lemma writes_string s : ok_string s -> writes (write_string s) (enc_string s).
Proof.
  intros (Hne & Hz & Hlen). unfold write_string, enc_string. rewrite c_string_id by done.
  unfold u32. rewrite wrapU_small by lia. by apply writes_then; [apply writes_uint32|apply writes_block].
Qed.

Lemma write_args_ok l : forall f, Forall ok_string l ->
  Z.of_nat (length (concat (map enc_string l))) <= room f ->
  write_args (length l) l f = Ret (true, mkWfile (written f ++ concat (map enc_string l))
    (room f - Z.of_nat (length (concat (map enc_string l))))).
Proof.
  induction l as [|s l IH]; intros f Hl Hroom; cbn [map concat write_args length] in *.
  - rewrite app_nil_r. simpl. rewrite Z.sub_0_r. by destruct f.
  - apply Forall_cons in Hl as [Hs Hl]. rewrite length_app in *. rewrite (writes_string s Hs) by lia.
    cbv beta iota. rewrite IH; [|done|cbn [room]; lia]. cbn [written room]. rewrite <- app_assoc. do 3 f_equal. lia.
Qed.

Lemma writes_object o : ok_object o ->
  writes (fun f => and_then (write_string (name o) f) (fun f =>
    and_then (write_uint32 (numBytes o) f) (write_block (take (Z.to_nat (numBytes o)) (obytes o)))))
    (enc_object o).
Proof.
  intros [Hn Hs Hr]. unfold enc_object. rewrite take_ge by lia.
  apply (writes_then _ _ (fun f => and_then (write_uint32 (numBytes o) f) _)); [by apply writes_string|].
  apply writes_then; [apply writes_uint32|]. apply writes_block. intros E. rewrite E in Hs. simpl in Hs. lia.
Qed.

Lemma write_objects_ok l : forall f, Forall ok_object l ->
  Z.of_nat (length (concat (map enc_object l))) <= room f ->
  write_objects (length l) l f = Ret (true, mkWfile (written f ++ concat (map enc_object l))
    (room f - Z.of_nat (length (concat (map enc_object l))))).
Proof.
  induction l as [|o l IH]; intros f Hl Hroom; cbn [map concat write_objects length] in *.
  - rewrite app_nil_r. simpl. rewrite Z.sub_0_r. by destruct f.
  - apply Forall_cons in Hl as [Ho Hl]. rewrite length_app in *.
    pose proof (oo_size _ Ho). destruct (Z.ltb_spec (Z.of_nat (length (obytes o))) (numBytes o)); [lia|].
    rewrite (writes_object o Ho) by lia.
    cbv beta iota. rewrite IH; [|done|cbn [room]; lia]. cbn [written room]. rewrite <- app_assoc. do 3 f_equal. lia.
Qed.

Lemma toFile_encodes t r :
  ok_test t -> Z.of_nat (length (encode t)) <= r ->
  kTest_toFile t (Some (mkWfile [] r)) = Ret (true, encode t).
Proof.
  intros [Ha _ Hs _ Ho _ Hall] Hroom. unfold encode in Hroom. rewrite !length_app in Hroom.
  unfold kTest_toFile.
  rewrite (writes_then (write_block KTEST_MAGIC) KTEST_MAGIC
    (fun f => and_then (write_uint32 KTEST_VERSION f) (write_uint32 (numArgs t)))
    (enc32 KTEST_VERSION ++ enc32 (numArgs t)));
    [|by apply writes_block|apply writes_then; apply writes_uint32|simpl in *; lia].
  cbn [negb]. rewrite Ha, Nat2Z.id. rewrite write_args_ok by (done || (simpl in *; lia)).
  cbn [mbind outcome_bind negb].
  rewrite (writes_then (write_uint32 (symArgvs t)) (enc32 (symArgvs t))
    (fun f => and_then (write_uint32 (symArgvLen t) f) (write_uint32 (numObjects t)))
    (enc32 (symArgvLen t) ++ enc32 (numObjects t)));
    [|apply writes_uint32|apply writes_then; apply writes_uint32|simpl in *; lia].
  cbn [negb]. rewrite Ho, Nat2Z.id. rewrite write_objects_ok by (done || (simpl in *; lia)).
  cbn [mbind outcome_bind written]. unfold encode. rewrite <- Ha, <- Ho. do 2 f_equal.
  rewrite <- !app_assoc. done.
Qed.

(** ** What is read *)

(** [m] consumes exactly [d] and returns [a]. *)
Definition reads {A} (m : reader A) (d : list Z) (a : A) : Prop :=
  forall rest, m (d ++ rest) = Ret (Some (a, rest)).

Lemma reads_bind {A B} (m : reader A) d a (k : A -> reader B) d' b :
  reads m d a -> reads (k a) d' b -> reads (rbind m k) (d ++ d') b.
Proof. intros Hm Hk rest. unfold rbind. rewrite <- app_assoc, Hm. apply Hk. Qed.

Lemma reads_bind_ret {A B} (m : reader A) d a (k : A -> reader B) b :
  reads m d a -> reads (k a) [] b -> reads (rbind m k) d b.
Proof. intros Hm Hk. rewrite <- (app_nil_r d). by eapply reads_bind. Qed.

Lemma reads_ret {A} (a : A) : reads (rret a) [] a.
Proof. by intros rest. Qed.

Lemma reads_fread d n : d <> [] -> n = Z.of_nat (length d) -> reads (fread n) d d.
Proof.
  intros Hd -> rest. unfold fread. rewrite length_app, Nat2Z.id.
  assert (0 < Z.of_nat (length d)) by (destruct d; [done|simpl; lia]).
  destruct (Z.eqb_spec (Z.of_nat (length d)) 0); [lia|].
  destruct (Z.ltb_spec (Z.of_nat (length d + length rest)) (Z.of_nat (length d))); [lia|].
  simpl. by rewrite take_app_length, drop_app_length.
Qed.

Lemma dec_enc32 v : 0 <= v < 2 ^ 32 ->
  u32 (Z.shiftl (Z.shiftl (Z.shiftl (u8 (Z.shiftr v 24)) 8 + u8 (Z.shiftr v 16)) 8 + u8 (Z.shiftr v 8)) 8 + u8 v) = v.
Proof.
  intros Hv. unfold u8, u32, wrapU. rewrite !Z.shiftl_mul_pow2, !Z.shiftr_div_pow2 by lia.
  change (2 ^ 8) with 256. change (2 ^ 16) with (256 * 256). change (2 ^ 24) with (256 * (256 * 256)).
  change (2 ^ 32) with 4294967296 in *. rewrite <- !Z.div_div by lia.
  assert (E : forall q, 0 <= q -> q = 256 * (q / 256) + q mod 256) by (intros; apply Z.div_mod; lia).
  pose proof (E v ltac:(lia)). pose proof (E (v / 256) ltac:(apply Z.div_pos; lia)).
  pose proof (E (v / 256 / 256) ltac:(repeat apply Z.div_pos; lia)).
  assert (0 <= v / 256 / 256 / 256 < 256).
  { rewrite !Z.div_div by lia. split; [apply Z.div_pos; lia|]. apply Z.div_lt_upper_bound; lia. }
  rewrite (Z.mod_small (v / 256 / 256 / 256) 256) by done. rewrite Z.mod_small; lia.
Qed.

Lemma reads_uint32 v : 0 <= v < 2 ^ 32 -> reads read_uint32 (enc32 v) v.
Proof.
  intros Hv rest. unfold read_uint32, rbind. rewrite (reads_fread (enc32 v) 4); [|done|done].
  cbv beta iota. unfold enc32, rret. by rewrite dec_enc32.
Qed.

Section Reading.
Variable malloc : Z -> bool.
Hypothesis Hmalloc : forall n, malloc n = true.

Lemma reads_string s : ok_string s -> reads (read_string malloc) (enc_string s) s.
Proof.
  intros (Hne & _ & Hlen). unfold read_string, enc_string.
  eapply reads_bind; [apply reads_uint32; lia|]. rewrite Hmalloc. cbn [negb]. intros rest.
  unfold u32. rewrite wrapU_small by lia.
  destruct (Z.leb_spec (Z.of_nat (length s) + 1) (Z.of_nat (length s))); [lia|]. cbn [andb].
  by apply reads_fread.
Qed.

Lemma reads_args l : Forall ok_string l ->
  reads (read_args malloc (length l)) (concat (map enc_string l)) l.
Proof.
  induction 1 as [|s l Hs _ IH]; cbn [length read_args map concat]; [apply reads_ret|].
  eapply reads_bind; [by apply reads_string|]. eapply reads_bind_ret; [exact IH|]. apply reads_ret.
Qed.

Lemma reads_object o : ok_object o -> reads (read_object malloc) (enc_object o) o.
Proof.
  intros [Hn Hs Hr]. unfold read_object, enc_object.
  eapply reads_bind; [by apply reads_string|]. eapply reads_bind; [apply reads_uint32; lia|].
  eapply reads_bind_ret.
  - intros rest. rewrite Hmalloc. cbn [negb andb]. apply reads_fread; [|done].
    intros E. rewrite E in Hs. simpl in Hs. lia.
  - destruct o. apply reads_ret.
Qed.

Lemma reads_objects l : Forall ok_object l ->
  reads (read_objects malloc (length l)) (concat (map enc_object l)) l.
Proof.
  induction 1 as [|o l Ho _ IH]; cbn [length read_objects map concat]; [apply reads_ret|].
  eapply reads_bind; [by apply reads_object|]. eapply reads_bind_ret; [exact IH|]. apply reads_ret.
Qed.

Lemma reads_header : reads kTest_checkHeader KTEST_MAGIC tt.
Proof.
  unfold kTest_checkHeader. eapply reads_bind_ret; [by apply reads_fread|].
  rewrite bool_decide_true by done. apply reads_ret.
Qed.

(** The test as it is read back: the version is the one written. *)
Definition as_written (t : KTest) : KTest :=
  mkKTest KTEST_VERSION (numArgs t) (args t) (symArgvs t) (symArgvLen t) (numObjects t) (objects t).

Lemma reads_test t : ok_test t -> reads (read_test malloc) (encode t) (as_written t).
Proof.
  intros [Ha Har Hs [Hsa Hsl] Ho Hor Hall]. unfold read_test, encode.
  eapply reads_bind; [apply reads_header|]. rewrite Hmalloc. cbn [negb].
  eapply reads_bind; [by apply reads_uint32|].
  change (kTest_getCurrentVersion <? KTEST_VERSION) with false. cbv iota.
  eapply reads_bind; [apply reads_uint32; lia|]. rewrite Hmalloc. cbn [negb].
  eapply reads_bind; [rewrite Ha, Nat2Z.id; by apply reads_args|].
  change (2 <=? KTEST_VERSION) with true. cbv iota.
  eapply reads_bind; [by apply reads_uint32|]. eapply reads_bind; [by apply reads_uint32|].
  eapply reads_bind; [apply reads_uint32; lia|]. rewrite Hmalloc. cbn [negb].
  eapply reads_bind_ret; [rewrite Ho, Nat2Z.id; by apply reads_objects|]. apply reads_ret.
Qed.

End Reading.

(** ** More bytes do not change what is read *)

Definition monotone {A} (m : reader A) : Prop :=
  forall f a rest more, m f = Ret (Some (a, rest)) -> m (f ++ more) = Ret (Some (a, rest ++ more)).

Lemma monotone_ret {A} (a : A) : monotone (rret a).
Proof. intros f b rest more. unfold rret. intros H. by simplify_eq. Qed.

Lemma monotone_fail {A} : monotone (@rfail A).
Proof. by intros f b rest more. Qed.

Lemma monotone_bind {A B} (m : reader A) (k : A -> reader B) :
  monotone m -> (forall a, monotone (k a)) -> monotone (rbind m k).
Proof.
  intros Hm Hk f b rest more. unfold rbind. destruct (m f) as [[[a f']|]|] eqn:E; try done.
  rewrite (Hm _ _ _ more E). apply Hk.
Qed.

Lemma monotone_fread n : 0 <= n -> monotone (fread n).
Proof.
  intros Hn f a rest more. unfold fread. rewrite length_app.
  destruct (Z.eqb_spec n 0); [done|]. cbn [orb].
  destruct (Z.ltb_spec (Z.of_nat (length f)) n); [done|]. intros E. simplify_eq.
  destruct (Z.ltb_spec (Z.of_nat (length f + length more)) n); [lia|].
  rewrite take_app_le, drop_app_le by lia. done.
Qed.

Create HintDb monotone discriminated.
#[local] Hint Resolve monotone_ret monotone_fail monotone_bind : monotone.

(** A test before a reader. *)
Lemma monotone_if {A} (b : bool) (m m' : reader A) : monotone m -> monotone m' -> monotone (if b then m else m').
Proof. by destruct b. Qed.
#[local] Hint Resolve monotone_if : monotone.

Lemma monotone_uint32 : monotone read_uint32.
Proof.
  apply monotone_bind; [by apply monotone_fread|]. intros data.
  repeat (destruct data as [|? data]; auto with monotone).
Qed.
#[local] Hint Resolve monotone_uint32 : monotone.

(** Reading a block whose buffer may be invalid. *)
Lemma monotone_block b n : 0 <= n ->
  monotone (fun f => if b && (0 <? Z.of_nat (length f)) then Stop MemError else fread n f).
Proof.
  intros Hn f a rest more. destruct b; cbn [andb]; [|by apply monotone_fread].
  destruct f as [|x f]; [|done]. cbn [length]. change (0 <? Z.of_nat 0) with false. cbv iota.
  unfold fread at 1. cbn [length]. change (Z.of_nat 0) with 0.
  destruct (Z.eqb_spec n 0); [done|]. cbn [orb]. destruct (Z.ltb_spec 0 n); [done|lia].
Qed.

Lemma uint32_range f v rest : read_uint32 f = Ret (Some (v, rest)) -> 0 <= v < 2 ^ 32.
Proof.
  unfold read_uint32, rbind. destruct (fread 4 f) as [[[d f']|]|]; try done.
  repeat (destruct d as [|? d]; try done). unfold rret. intros E. simplify_eq. apply u32_range.
Qed.

(** The continuation only matters at values that are read. *)
Lemma monotone_bind_uint32 {B} (k : Z -> reader B) :
  (forall v, 0 <= v < 2 ^ 32 -> monotone (k v)) -> monotone (rbind read_uint32 k).
Proof.
  intros Hk f b rest more. unfold rbind. destruct (read_uint32 f) as [[[v f']|]|] eqn:E; try done.
  rewrite (monotone_uint32 _ _ _ more E). apply Hk. by eapply uint32_range.
Qed.

Section Monotone.
Variable malloc : Z -> bool.

Lemma monotone_string : monotone (read_string malloc).
Proof.
  apply monotone_bind_uint32. intros len Hlen. apply monotone_if; [apply monotone_fail|].
  apply monotone_block. lia.
Qed.

Lemma monotone_args n : monotone (read_args malloc n).
Proof.
  induction n as [|n IH]; cbn [read_args]; auto with monotone.
  apply monotone_bind; [apply monotone_string|]. auto with monotone.
Qed.

Lemma monotone_object : monotone (read_object malloc).
Proof.
  apply monotone_bind; [apply monotone_string|]. intros nm. apply monotone_bind_uint32. intros n Hn.
  apply monotone_bind; [apply monotone_block; lia|]. auto with monotone.
Qed.

Lemma monotone_objects n : monotone (read_objects malloc n).
Proof.
  induction n as [|n IH]; cbn [read_objects]; auto with monotone.
  apply monotone_bind; [apply monotone_object|]. auto with monotone.
Qed.

Lemma monotone_header : monotone kTest_checkHeader.
Proof. apply monotone_bind; [by apply monotone_fread|]. auto with monotone. Qed.

Lemma monotone_test : monotone (read_test malloc).
Proof.
  unfold read_test.
  repeat first [apply monotone_uint32 | apply monotone_header | apply monotone_args
    | apply monotone_objects | apply monotone_ret | apply monotone_fail | apply monotone_if
    | apply monotone_bind; [|intros ?]].
Qed.

End Monotone.

(** A test written by [kTest_toFile] with room on the device is read back
    unchanged by [kTest_fromFile], and no proper prefix of the file, as a
    crash or a full device leaves it, is read as a test. *)
Theorem ktest_roundtrip (malloc : Z -> bool) (t : KTest) (r : Z) :
  (forall n, malloc n = true) -> ok_test t -> Z.of_nat (length (encode t)) <= r ->
  exists file, kTest_toFile t (Some (mkWfile [] r)) = Ret (true, file) /\
    kTest_fromFile malloc (Some file) = Ret (Some (as_written t)) /\
    forall p q, file = p ++ q -> q <> [] -> forall t', kTest_fromFile malloc (Some p) <> Ret (Some t').
Proof.
  intros Hm Ht Hr. exists (encode t). split; [by apply toFile_encodes|].
  pose proof (reads_test malloc Hm t Ht []) as Hread. rewrite app_nil_r in Hread. split.
  - unfold kTest_fromFile. by rewrite Hread.
  - intros p q Hpq Hq t' Hp. unfold kTest_fromFile in Hp.
    destruct (read_test malloc p) as [[[t0 rest]|]|] eqn:E; try done.
    pose proof (monotone_test malloc p t0 rest q E) as E'. rewrite <- Hpq, Hread in E'.
    simplify_eq. destruct rest; done.
Qed.

Definition sample_test : KTest :=
  mkKTest 3 1 [bytes "prog"] 0 0 1 [mkKTestObject (bytes "x") 4 [1; 2; 3; 4]].

Lemma ktest_roundtrip_witness :
  exists file, kTest_toFile sample_test (Some (mkWfile [] 1000)) = Ret (true, file) /\
    kTest_fromFile (fun _ => true) (Some file) = Ret (Some sample_test).
Proof.
  assert (Hok : ok_test sample_test).
  { split; simpl; try lia; repeat constructor; simpl; try lia; done. }
  destruct (ktest_roundtrip (fun _ => true) sample_test 1000 (fun _ => eq_refl) Hok ltac:(simpl; lia))
    as (file & Hw & Hr & _).
  exists file. split; [exact Hw|exact Hr].
Defined.

(** ** Replaying a test file

    The test reader of the native replay library, on a disk. *)

Definition replay_object (o : KTestObject) : Replay.KTestObject := Replay.mkObj (name o) (obytes o).

Definition open_test (malloc : Z -> bool) (disk : list Z -> option (list Z)) (path : list Z)
    : option (list Replay.KTestObject) :=
  match kTest_fromFile malloc (disk path) with
  | Ret (Some t) => Some (replay_object <$> objects t)
  | _ => None
  end.

Definition replaying (malloc : Z -> bool) (disk : list Z -> option (list Z)) (path : list Z) : Replay.penv :=
  Replay.mkPenv false false (Some path) None (open_test malloc disk) (fun _ => 0).

(** C40: end to end: a test the engine writes to a file is replayed natively from
    that file; a program that asks for the objects in order, under their names
    and sizes, is given exactly the bytes the engine recorded. *)
Theorem replay_written_test (malloc : Z -> bool) (t : KTest) (r : Z) (disk : list Z -> option (list Z))
    (path : list Z) :
  (forall n, malloc n = true) -> ok_test t -> objects t <> [] -> Z.of_nat (length (encode t)) <= r ->
  (forall file, kTest_toFile t (Some (mkWfile [] r)) = Ret (true, file) -> disk path = Some file) ->
  exists st, Replay.requests (replaying malloc disk path)
      ((fun o => (numBytes o, Some (name o))) <$> objects t) Replay.initial
    = Ret (obytes <$> objects t, st).
Proof.
  intros Hm Ht Hne Hr Hdisk. pose proof (toFile_encodes t r Ht Hr) as Hw.
  assert (Hopen : open_test malloc disk path = Some (replay_object <$> objects t)).
  { unfold open_test. rewrite (Hdisk _ Hw). unfold kTest_fromFile.
    pose proof (reads_test malloc Hm t Ht []) as Hread. rewrite app_nil_r in Hread. by rewrite Hread. }
  eexists. replace ((fun o => (numBytes o, Some (name o))) <$> objects t)
    with (Replay.request_of <$> (replay_object <$> objects t)).
  - rewrite (Replay.replay_returns_test (replaying malloc disk path) path (replay_object <$> objects t));
      [|done|done|exact Hopen| |].
    + rewrite <- list_fmap_compose. done.
    + rewrite length_fmap, <- (ot_objects _ Ht). apply Ht.
    + by destruct (objects t).
  - rewrite <- list_fmap_compose. apply list_fmap_ext. intros i o Ho. unfold Replay.request_of. simpl.
    assert (Hobj : ok_object o) by (by eapply Forall_lookup_1; [apply Ht|]).
    by rewrite (oo_size _ Hobj).
Qed.

Lemma replay_written_test_witness :
  exists st, Replay.requests
      (replaying (fun _ => true) (fun _ => Some (encode sample_test)) (bytes "t.ktest"))
      [(4, Some (bytes "x"))] Replay.initial = Ret ([[1; 2; 3; 4]], st).
Proof.
  assert (Hok : ok_test sample_test).
  { split; simpl; try lia; repeat constructor; simpl; try lia; done. }
  refine (replay_written_test (fun _ => true) sample_test 1000 (fun _ => Some (encode sample_test))
    (bytes "t.ktest") (fun _ => eq_refl) Hok _ _ _).
  - discriminate.
  - simpl. lia.
  - intros file Hf. rewrite (toFile_encodes sample_test 1000 Hok ltac:(simpl; lia)) in Hf. congruence.
Defined.

(** A block of size 0 counts as a failed write: a test with an empty argument or
    an object without bytes cannot be written, whatever room there is. *)
Theorem ktest_empty_argument (t : KTest) (r : Z) (l : list (list Z)) :
  args t = [] :: l -> 0 < numArgs t < 2 ^ 31 -> 100 <= r ->
  exists file, kTest_toFile t (Some (mkWfile [] r)) = Ret (false, file).
Proof.
  intros Ha Hn Hr. unfold kTest_toFile.
  rewrite (writes_then (write_block KTEST_MAGIC) KTEST_MAGIC
    (fun f => and_then (write_uint32 KTEST_VERSION f) (write_uint32 (numArgs t)))
    (enc32 KTEST_VERSION ++ enc32 (numArgs t)));
    [|by apply writes_block|apply writes_then; apply writes_uint32|simpl; lia].
  cbn [negb]. rewrite Ha. destruct (Z.to_nat (numArgs t)) as [|n] eqn:En; [lia|].
  cbn [write_args]. unfold write_string. cbn [c_string length].
  rewrite (writes_uint32 (u32 (Z.of_nat 0))) by (simpl; lia). unfold and_then, write_block, fwrite.
  simpl. eauto.
Qed.
