(* ===== verification/ExprData.v ===== *)
(** * Expressions of the symbolic engine: data, constants, hash and order

    The classes of [include/klee/Expr/Expr.h] as one inductive type, the
    operations on constants of [lib/Expr/Expr.cpp] (arbitrary-precision
    integers of a given width, as [Z] with the wrap-around written out), the
    hash functions and the structural order [Expr::compare], and what a
    well-formed expression is.  The constructors that simplify are in
    [ExprCreate], the meaning of an expression in [ExprSem]. *)

From S2P Require Import Prelude.

(** ** Constants

    A [ConstantExpr] holds an [APInt]: a value and its width in bits. *)

Record ConstantExpr : Type := mkConst { cvalue : Z; cwidth : Z }.

#[global] Instance ConstantExpr_eq_dec : EqDecision ConstantExpr.
Proof. solve_decision. Defined.

(** ** Kinds

    The kinds with two operands; comparisons are the kinds from [Eq] on. *)
Module Kind.

Inductive t : Type :=
  | Add | Sub | Mul | UDiv | SDiv | URem | SRem
  | And | Or | Xor | Shl | LShr | AShr
  | Eq | Ne | Ult | Ule | Ugt | Uge | Slt | Sle | Sgt | Sge.

(** Position in the enumeration [Expr::Kind]. *)
Definition num (k : t) : Z :=
  match k with
  | Add => 10 | Sub => 11 | Mul => 12 | UDiv => 13 | SDiv => 14
  | URem => 15 | SRem => 16 | And => 17 | Or => 18 | Xor => 19 | Shl => 20
  | LShr => 21 | AShr => 22 | Eq => 23 | Ne => 24 | Ult => 25 | Ule => 26
  | Ugt => 27 | Uge => 28 | Slt => 29 | Sle => 30 | Sgt => 31 | Sge => 32
  end.

(** [CmpExpr::classof]. *)
Definition is_cmp (k : t) : bool := (23 <=? num k) && (num k <=? 32).

Definition is_div (k : t) : bool :=
  match k with UDiv | SDiv | URem | SRem => true | _ => false end.

End Kind.

#[global] Instance Kind_eq_dec : EqDecision Kind.t.
Proof. solve_decision. Defined.

(** ** Arrays and expressions

    Arrays are compared by address; the record carries the address beside the
    fields, so that two arrays created with the same contents differ. *)

Record Array : Type := mkArray {
  aaddr : Z;
  aname : string;
  asize : Z;
  adomain : Z;
  arange : Z;
  aconstantValues : list Z
}.

#[global] Instance Array_eq_dec : EqDecision Array.
Proof. solve_decision. Defined.

Definition isSymbolicArray (a : Array) : bool :=
  match aconstantValues a with [] => true | _ => false end.

Definition isConstantArray (a : Array) : bool := negb (isSymbolicArray a).

(** An [UpdateList] is the root of a [Read] with the chain of its update
    nodes, the most recent first. *)
Inductive Expr : Type :=
  | Constant (c : ConstantExpr)
  | NotOptimized (src : Expr)
  | Read (root : Array) (head : UpdateNode) (index : Expr)
  | Select (cond trueExpr falseExpr : Expr)
  | Concat (left right : Expr)
  | Extract (expr : Expr) (offset width : Z)
  | ZExt (src : Expr) (width : Z)
  | SExt (src : Expr) (width : Z)
  | Not (expr : Expr)
  | Binary (k : Kind.t) (left right : Expr)
with UpdateNode : Type :=
  | NoUpdate
  | Update (index value : Expr) (next : UpdateNode).

Scheme Expr_mut := Induction for Expr Sort Prop
  with UpdateNode_mut := Induction for UpdateNode Sort Prop.
Combined Scheme Expr_UpdateNode_ind from Expr_mut, UpdateNode_mut.

(** Induction along the chain of updates only. *)
Lemma UpdateNode_chain_ind (P : UpdateNode -> Prop) :
  P NoUpdate -> (forall i v n, P n -> P (Update i v n)) -> forall u, P u.
Proof. intros H0 HS. fix IH 1. intros [|i v n]; [exact H0 | apply HS, IH]. Qed.

(** [operator==] of references is structural equality. *)
Fixpoint Expr_eq_dec (a b : Expr) : {a = b} + {a <> b}
with UpdateNode_eq_dec (a b : UpdateNode) : {a = b} + {a <> b}.
Proof.
  - decide equality; apply decide; apply _.
  - decide equality.
Defined.

#[global] Instance Expr_eqdec : EqDecision Expr := Expr_eq_dec.

Definition expr_eqb (a b : Expr) : bool := bool_decide (a = b).

Lemma expr_eqb_eq a b : expr_eqb a b = true <-> a = b.
Proof. apply bool_decide_eq_true. Qed.

(** [getWidth] of every class; the width of a [Concat] is stored at
    construction as an unsigned sum. *)
Fixpoint getWidth (e : Expr) : Z :=
  match e with
  | Constant c => cwidth c
  | NotOptimized s => getWidth s
  | Read a _ _ => arange a
  | Select _ t _ => getWidth t
  | Concat l r => u32 (getWidth l + getWidth r)
  | Extract _ _ w => w
  | ZExt _ w => w
  | SExt _ w => w
  | Not x => getWidth x
  | Binary k l _ => if Kind.is_cmp k then 1 else getWidth l
  end.

Definition getKind (e : Expr) : Z :=
  match e with
  | Constant _ => 0
  | NotOptimized _ => 1
  | Read _ _ _ => 3
  | Select _ _ _ => 4
  | Concat _ _ => 5
  | Extract _ _ _ => 6
  | ZExt _ _ => 7
  | SExt _ _ => 8
  | Not _ => 9
  | Binary k _ _ => Kind.num k
  end.

(** [getNumKids] and [getKid]. *)
Definition kids (e : Expr) : list Expr :=
  match e with
  | Constant _ => []
  | NotOptimized s => [s]
  | Read _ _ i => [i]
  | Select c t f => [c; t; f]
  | Concat l r => [l; r]
  | Extract x _ _ => [x]
  | ZExt s _ => [s]
  | SExt s _ => [s]
  | Not x => [x]
  | Binary _ l r => [l; r]
  end.

Definition isConstant (e : Expr) : bool :=
  match e with Constant _ => true | _ => false end.

(** [UpdateList::getSize]. *)
Fixpoint getSize (u : UpdateNode) : nat :=
  match u with NoUpdate => O | Update _ _ n => S (getSize n) end.

(** ** Operations on constants *)

(** The signed reading of a [w]-bit value. *)
Definition signed (w v : Z) : Z := if v <? 2 ^ (w - 1) then v else v - 2 ^ w.

(** [ConstantExpr::alloc(uint64_t, Width)]. *)
Definition ConstantExpr__alloc (v w : Z) : ConstantExpr := mkConst (v mod 2 ^ w) w.

(** [ConstantExpr::create], whose assertion rejects a value that does not fit
    in at most 64 bits. *)
Definition ConstantExpr__create (v w : Z) : outcome ConstantExpr :=
  if (w <=? 64) && negb (v =? v mod 2 ^ w) then Stop AssertFail
  else Ret (ConstantExpr__alloc v w).

Definition isZero (c : ConstantExpr) : bool := cvalue c =? 0.

(** [getLimitedValue() == 1]: larger values are limited to [2^64 - 1]. *)
Definition isOne (c : ConstantExpr) : bool := Z.min (cvalue c) (2 ^ 64 - 1) =? 1.

Definition isTrue (c : ConstantExpr) : bool := (cwidth c =? 1) && nz (cvalue c).

Definition isFalse (c : ConstantExpr) : bool := (cwidth c =? 1) && (cvalue c =? 0).

Definition isAllOnes (c : ConstantExpr) : bool := cvalue c =? 2 ^ cwidth c - 1.

Definition ConstantExpr__Concat (c d : ConstantExpr) : ConstantExpr :=
  let w := u32 (cwidth c + cwidth d) in
  mkConst (Z.lor (Z.shiftl (cvalue c) (cwidth d) mod 2 ^ w) (cvalue d)) w.

(** An arithmetic shift to the right, then [zextOrTrunc]. *)
Definition ConstantExpr__Extract (c : ConstantExpr) (off w : Z) : ConstantExpr :=
  mkConst (Z.shiftr (signed (cwidth c) (cvalue c)) off mod 2 ^ cwidth c mod 2 ^ w) w.

Definition ConstantExpr__ZExt (c : ConstantExpr) (w : Z) : ConstantExpr :=
  mkConst (cvalue c mod 2 ^ w) w.

Definition ConstantExpr__SExt (c : ConstantExpr) (w : Z) : ConstantExpr :=
  mkConst (signed (cwidth c) (cvalue c) mod 2 ^ w) w.

Definition ConstantExpr__Not (c : ConstantExpr) : ConstantExpr :=
  mkConst (bnot (cwidth c) (cvalue c)) (cwidth c).

Definition ConstantExpr__Neg (c : ConstantExpr) : ConstantExpr :=
  mkConst ((- cvalue c) mod 2 ^ cwidth c) (cwidth c).

(** The binary operations on [w]-bit values; division is the division of a
    non-zero divisor. *)
Definition bv_op (k : Kind.t) (w a b : Z) : Z :=
  match k with
  | Kind.Add => (a + b) mod 2 ^ w
  | Kind.Sub => (a - b) mod 2 ^ w
  | Kind.Mul => (a * b) mod 2 ^ w
  | Kind.UDiv => a / b
  | Kind.SDiv => Z.quot (signed w a) (signed w b) mod 2 ^ w
  | Kind.URem => a mod b
  | Kind.SRem => Z.rem (signed w a) (signed w b) mod 2 ^ w
  | Kind.And => Z.land a b
  | Kind.Or => Z.lor a b
  | Kind.Xor => Z.lxor a b
  | Kind.Shl => if w <=? b then 0 else Z.shiftl a b mod 2 ^ w
  | Kind.LShr => if w <=? b then 0 else Z.shiftr a b
  | Kind.AShr => Z.shiftr (signed w a) (Z.min b w) mod 2 ^ w
  | Kind.Eq => Z.b2z (a =? b)
  | Kind.Ne => Z.b2z (negb (a =? b))
  | Kind.Ult => Z.b2z (a <? b)
  | Kind.Ule => Z.b2z (a <=? b)
  | Kind.Ugt => Z.b2z (b <? a)
  | Kind.Uge => Z.b2z (b <=? a)
  | Kind.Slt => Z.b2z (signed w a <? signed w b)
  | Kind.Sle => Z.b2z (signed w a <=? signed w b)
  | Kind.Sgt => Z.b2z (signed w b <? signed w a)
  | Kind.Sge => Z.b2z (signed w b <=? signed w a)
  end.

(** The methods [Add] to [Sge] of [ConstantExpr]; a division by zero fails an
    assertion of [APInt]. *)
Definition ConstantExpr__op (k : Kind.t) (c d : ConstantExpr) : outcome ConstantExpr :=
  if Kind.is_div k && (cvalue d =? 0) then Stop AssertFail
  else Ret (mkConst (bv_op k (cwidth c) (cvalue c) (cvalue d))
                    (if Kind.is_cmp k then 1 else cwidth c)).

(** ** Well-formed expressions

    What the assertions and the static type of the engine enforce: widths are
    positive and fit in an unsigned integer, the value of a constant fits its
    width, operands have the widths their operator asks for, an extension
    widens, an array has a position for every index at most and one initial
    value of its range for every position or none at all. *)

Definition wf_width (w : Z) : Prop := 0 < w < 2 ^ 32.

Definition wf_const (c : ConstantExpr) : Prop :=
  wf_width (cwidth c) /\ 0 <= cvalue c < 2 ^ cwidth c.

Definition wf_array (a : Array) : Prop :=
  wf_width (arange a) /\ wf_width (adomain a) /\ 0 <= asize a < 2 ^ 32 /\ asize a <= 2 ^ adomain a /\
  (isSymbolicArray a = true \/ Z.of_nat (length (aconstantValues a)) = asize a) /\
  Forall (fun v => 0 <= v < 2 ^ arange a) (aconstantValues a).

Fixpoint wf (e : Expr) : Prop :=
  match e with
  | Constant c => wf_const c
  | NotOptimized s => wf s
  | Read a u i => wf_array a /\ wf_upd a u /\ wf i /\ getWidth i = adomain a
  | Select c t f =>
      wf c /\ wf t /\ wf f /\ getWidth c = 1 /\ getWidth t = getWidth f
  | Concat l r => wf l /\ wf r /\ getWidth l + getWidth r < 2 ^ 32
  | Extract x off w => wf x /\ 0 <= off /\ 0 < w /\ off + w <= getWidth x
  | ZExt s w => wf s /\ getWidth s < w < 2 ^ 32
  | SExt s w => wf s /\ getWidth s < w < 2 ^ 32
  | Not x => wf x
  | Binary k l r => wf l /\ wf r /\ getWidth l = getWidth r
  end
with wf_upd (a : Array) (u : UpdateNode) : Prop :=
  match u with
  | NoUpdate => True
  | Update i v n =>
      wf i /\ wf v /\ getWidth i = adomain a /\ getWidth v = arange a /\ wf_upd a n
  end.

Lemma wf_getWidth e : wf e -> wf_width (getWidth e).
Proof.
  induction e using Expr_mut with (P0 := fun _ => True);
    simpl; unfold wf_const, wf_width, wf_array in *;
    intros; decompose_hyps; auto; try lia.
  - assert (0 < getWidth e1 < 2 ^ 32) by auto.
    assert (0 < getWidth e2 < 2 ^ 32) by auto.
    unfold u32. rewrite wrapU_small; lia.
  - assert (0 < getWidth e < 2 ^ 32) by auto. lia.
  - assert (0 < getWidth e < 2 ^ 32) by auto. lia.
  - assert (0 < getWidth e < 2 ^ 32) by auto. lia.
  - destruct (Kind.is_cmp _); [lia|auto].
Qed.

Lemma getWidth_Concat l r :
  wf (Concat l r) -> getWidth (Concat l r) = getWidth l + getWidth r.
Proof.
  simpl. intros (Hl & Hr & Hs).
  pose proof (wf_getWidth l Hl). pose proof (wf_getWidth r Hr).
  unfold wf_width in *. apply wrapU_small. lia.
Qed.
