(* ===== verification/ExprCreate.v ===== *)
(** * The simplifying constructors of expressions

    One definition per [create] method and static helper of
    [lib/Expr/Expr.cpp], in the order in which they depend on each other; a
    method [C::create] is written [C__create], a static function keeps its
    name.  An assertion that fails is a [Stop].  Three groups are recursive:
    equalities with a constant (structural on the other operand), sums and
    differences, and extracts with concatenations; the last two call each
    other on results of themselves and are given fuel, which [ExprArith] and
    [ExprBits] show to be enough. *)

From S2P Require Import Prelude ExprData.

(** The option [--const-array-opt]. *)
Class ExprOptions : Type := { ConstArrayOpt : bool }.

Definition assertM (b : bool) : outcome unit := if b then Ret () else Stop AssertFail.

(** A folded constant as an expression. *)
Definition fold (k : Kind.t) (cl cr : ConstantExpr) : outcome Expr :=
  Constant <$> ConstantExpr__op k cl cr.

(** ** Macros that define the [create] methods *)

Definition BCREATE_R (k : Kind.t) (partialL : Expr -> ConstantExpr -> outcome Expr)
    (partialR : ConstantExpr -> Expr -> outcome Expr)
    (create : Expr -> Expr -> outcome Expr) (l r : Expr) : outcome Expr :=
  _ ← assertM (getWidth l =? getWidth r);
  match l with
  | Constant cl =>
      match r with
      | Constant cr => fold k cl cr
      | _ => partialR cl r
      end
  | _ =>
      match r with
      | Constant cr => partialL l cr
      | _ => create l r
      end
  end.

(** [BCREATE] and [CMPCREATE] have the same body. *)
Definition BCREATE (k : Kind.t) (create : Expr -> Expr -> outcome Expr)
    (l r : Expr) : outcome Expr :=
  _ ← assertM (getWidth l =? getWidth r);
  match l, r with
  | Constant cl, Constant cr => fold k cl cr
  | _, _ => create l r
  end.

(** ** Conjunction and disjunction *)

Definition AndExpr_createPartial (l : Expr) (cr : ConstantExpr) : outcome Expr :=
  if isAllOnes cr then Ret l
  else if isZero cr then Ret (Constant cr)
  else Ret (Binary Kind.And l (Constant cr)).

Definition AndExpr_createPartialR (cl : ConstantExpr) (r : Expr) : outcome Expr :=
  AndExpr_createPartial r cl.

Definition AndExpr_create (l r : Expr) : outcome Expr := Ret (Binary Kind.And l r).

Definition AndExpr__create : Expr -> Expr -> outcome Expr :=
  BCREATE_R Kind.And AndExpr_createPartial AndExpr_createPartialR AndExpr_create.

Definition OrExpr_createPartial (l : Expr) (cr : ConstantExpr) : outcome Expr :=
  if isAllOnes cr then Ret (Constant cr)
  else if isZero cr then Ret l
  else Ret (Binary Kind.Or l (Constant cr)).

Definition OrExpr_createPartialR (cl : ConstantExpr) (r : Expr) : outcome Expr :=
  OrExpr_createPartial r cl.

Definition OrExpr_create (l r : Expr) : outcome Expr := Ret (Binary Kind.Or l r).

Definition OrExpr__create : Expr -> Expr -> outcome Expr :=
  BCREATE_R Kind.Or OrExpr_createPartial OrExpr_createPartialR OrExpr_create.

Section Create.
Context `{ExprOptions}.

(** ** Equality *)

Definition EqExpr_create (l r : Expr) : outcome Expr :=
  if expr_eqb l r then Ret (Constant (ConstantExpr__alloc 1 1))
  else Ret (Binary Kind.Eq l r).

(** [EqExpr::create] when the right operand is a constant, the case the rules
    below need; [EqExpr__create_const_eq] relates it to the general method. *)
Definition EqExpr__create_const (partialR : ConstantExpr -> Expr -> outcome Expr)
    (l : Expr) (cr : ConstantExpr) : outcome Expr :=
  _ ← assertM (getWidth l =? cwidth cr);
  match l with
  | Constant cl => fold Kind.Eq cl cr
  | _ => partialR cr l
  end.

(** The loop of [TryConstArrayOpt] from position [i] on, [n] positions before
    the end; [eq] is the equality of the index with a constant. *)
Fixpoint TryConstArrayOpt_loop (eq : ConstantExpr -> outcome Expr) (cl : ConstantExpr)
    (rd : Expr) (a : Array) (iw : Z) (values : list Z) (i numMatches : Z) (res : Expr)
    : outcome Expr :=
  match values with
  | [] => Ret res
  | v :: values' =>
      if bool_decide (cl = mkConst v (arange a)) then
        if 100 <? numMatches + 1 then EqExpr_create (Constant cl) rd
        else
          mayBe ← eq (ConstantExpr__alloc i iw);
          res' ← OrExpr__create res mayBe;
          TryConstArrayOpt_loop eq cl rd a iw values' (i + 1) (numMatches + 1) res'
      else TryConstArrayOpt_loop eq cl rd a iw values' (i + 1) numMatches res
  end.

Definition TryConstArrayOpt_with (eq : ConstantExpr -> outcome Expr)
    (cl : ConstantExpr) (a : Array) (u : UpdateNode) (index : Expr) : outcome Expr :=
  let rd := Read a u index in
  if isSymbolicArray a || negb (getSize u =? 0)%nat then EqExpr_create (Constant cl) rd
  else TryConstArrayOpt_loop eq cl rd a (getWidth index) (aconstantValues a) 0 0
         (Constant (ConstantExpr__alloc 0 1)).

Fixpoint EqExpr_createPartialR (cl : ConstantExpr) (r : Expr) {struct r} : outcome Expr :=
  let width := cwidth cl in
  let other := EqExpr_create (Constant cl) r in
  if width =? 1 then
    if isTrue cl then Ret r
    else
      match r with
      | Binary Kind.Eq (Constant ce) x =>
          if (cwidth ce =? 1) && isFalse ce then Ret x else other
      | Binary Kind.Or x y =>
          a ← EqExpr__create_const EqExpr_createPartialR x (ConstantExpr__alloc 0 (getWidth x));
          b ← EqExpr__create_const EqExpr_createPartialR y (ConstantExpr__alloc 0 (getWidth y));
          AndExpr__create a b
      | _ => other
      end
  else
    match r with
    | SExt src _ =>
        let trunc := ConstantExpr__ZExt cl (getWidth src) in
        if bool_decide (cl = ConstantExpr__SExt trunc width)
        then EqExpr__create_const EqExpr_createPartialR src trunc
        else Ret (Constant (ConstantExpr__alloc 0 1))
    | ZExt src _ =>
        let trunc := ConstantExpr__ZExt cl (getWidth src) in
        if bool_decide (cl = ConstantExpr__ZExt trunc width)
        then EqExpr__create_const EqExpr_createPartialR src trunc
        else Ret (Constant (ConstantExpr__alloc 0 1))
    | Binary Kind.Add (Constant c1) b =>
        _ ← assertM (cwidth cl =? cwidth c1);
        c ← ConstantExpr__op Kind.Sub cl c1;
        EqExpr_createPartialR c b
    | Binary Kind.Sub (Constant c1) b =>
        _ ← assertM (cwidth c1 =? cwidth cl);
        c ← ConstantExpr__op Kind.Sub c1 cl;
        EqExpr_createPartialR c b
    | Read a u index =>
        if ConstArrayOpt then
          TryConstArrayOpt_with
            (EqExpr__create_const EqExpr_createPartialR index)
            cl a u index
        else other
    | _ => other
    end.

Definition EqExpr_createPartial (l : Expr) (cr : ConstantExpr) : outcome Expr :=
  EqExpr_createPartialR cr l.

Definition EqExpr__create : Expr -> Expr -> outcome Expr :=
  BCREATE_R Kind.Eq EqExpr_createPartial EqExpr_createPartialR EqExpr_create.

Lemma EqExpr__create_const_eq l c :
  EqExpr__create l (Constant c) = EqExpr__create_const EqExpr_createPartialR l c.
Proof. by destruct l. Qed.

Definition Expr__createIsZero (e : Expr) : outcome Expr :=
  EqExpr__create e (Constant (ConstantExpr__alloc 0 (getWidth e))).

Definition Expr__createImplies (hyp conc : Expr) : outcome Expr :=
  h ← Expr__createIsZero hyp; OrExpr__create h conc.

Definition NeExpr__create (l r : Expr) : outcome Expr :=
  e ← EqExpr__create l r;
  EqExpr__create (Constant (ConstantExpr__alloc 0 1)) e.

(** ** Exclusive or *)

Definition XorExpr_createPartialR (cl : ConstantExpr) (r : Expr) : outcome Expr :=
  if isZero cl then Ret r
  else if cwidth cl =? 1 then EqExpr_createPartial r (ConstantExpr__alloc 0 1)
  else Ret (Binary Kind.Xor (Constant cl) r).

Definition XorExpr_createPartial (l : Expr) (cr : ConstantExpr) : outcome Expr :=
  XorExpr_createPartialR cr l.

Definition XorExpr_create (l r : Expr) : outcome Expr := Ret (Binary Kind.Xor l r).

Definition XorExpr__create : Expr -> Expr -> outcome Expr :=
  BCREATE_R Kind.Xor XorExpr_createPartial XorExpr_createPartialR XorExpr_create.

(** ** Sums and differences

    [add] and [sub] stand for [AddExpr::create] and [SubExpr::create], which
    the rules call again. *)
Section AddSub.
Variables add sub : Expr -> Expr -> outcome Expr.

Definition AddExpr_createPartialR (cl : ConstantExpr) (r : Expr) : outcome Expr :=
  if cwidth cl =? 1 then XorExpr_createPartialR cl r
  else if isZero cl then Ret r
  else
    match r with
    | Binary Kind.Add (Constant b) c => s ← add (Constant cl) (Constant b); add s c
    | Binary Kind.Sub (Constant b) c => s ← add (Constant cl) (Constant b); sub s c
    | _ => Ret (Binary Kind.Add (Constant cl) r)
    end.

Definition AddExpr_createPartial (l : Expr) (cr : ConstantExpr) : outcome Expr :=
  AddExpr_createPartialR cr l.

Definition AddExpr_create (l r : Expr) : outcome Expr :=
  if getWidth l =? 1 then XorExpr_create l r
  else
    match l with
    | Binary Kind.Add (Constant k) a => s ← add a r; add (Constant k) s
    | Binary Kind.Sub (Constant k) a => s ← sub r a; add (Constant k) s
    | _ =>
        match r with
        | Binary Kind.Add (Constant k) b => s ← add l b; add (Constant k) s
        | Binary Kind.Sub (Constant k) b => s ← sub l b; add (Constant k) s
        | _ => Ret (Binary Kind.Add l r)
        end
    end.

Definition SubExpr_createPartialR (cl : ConstantExpr) (r : Expr) : outcome Expr :=
  if cwidth cl =? 1 then XorExpr_createPartialR cl r
  else
    match r with
    | Binary Kind.Add (Constant b) c => s ← sub (Constant cl) (Constant b); sub s c
    | Binary Kind.Sub (Constant b) c => s ← sub (Constant cl) (Constant b); add s c
    | _ => Ret (Binary Kind.Sub (Constant cl) r)
    end.

Definition SubExpr_createPartial (l : Expr) (cr : ConstantExpr) : outcome Expr :=
  c ← ConstantExpr__op Kind.Sub (ConstantExpr__alloc 0 (cwidth cr)) cr;
  AddExpr_createPartial l c.

Definition SubExpr_create (l r : Expr) : outcome Expr :=
  if getWidth l =? 1 then XorExpr_create l r
  else if expr_eqb l r then Ret (Constant (ConstantExpr__alloc 0 (getWidth l)))
  else
    match l with
    | Binary Kind.Add (Constant k) a => s ← sub a r; add (Constant k) s
    | Binary Kind.Sub (Constant k) a => s ← add a r; sub (Constant k) s
    | _ =>
        match r with
        | Binary Kind.Add (Constant k) b => s ← sub l b; sub s (Constant k)
        | Binary Kind.Sub (Constant k) b => s ← add l b; sub s (Constant k)
        | _ => Ret (Binary Kind.Sub l r)
        end
    end.

End AddSub.

Fixpoint AddExpr__create_fuel (fuel : nat) (l r : Expr) : outcome Expr :=
  match fuel with
  | O => Stop OutOfFuel
  | S n =>
      let add := AddExpr__create_fuel n in
      let sub := SubExpr__create_fuel n in
      BCREATE_R Kind.Add (AddExpr_createPartial add sub) (AddExpr_createPartialR add sub)
        (AddExpr_create add sub) l r
  end
with SubExpr__create_fuel (fuel : nat) (l r : Expr) : outcome Expr :=
  match fuel with
  | O => Stop OutOfFuel
  | S n =>
      let add := AddExpr__create_fuel n in
      let sub := SubExpr__create_fuel n in
      BCREATE_R Kind.Sub (SubExpr_createPartial add sub) (SubExpr_createPartialR add sub)
        (SubExpr_create add sub) l r
  end.

(** The nodes of a sum or difference whose left operand is a constant, the
    only ones the rules take apart. *)
Fixpoint addends (e : Expr) : nat :=
  match e with
  | Binary Kind.Add (Constant _) r | Binary Kind.Sub (Constant _) r => S (addends r)
  | _ => O
  end.

Definition add_fuel (l r : Expr) : nat := addends l + addends r + 4.

Definition AddExpr__create (l r : Expr) : outcome Expr :=
  AddExpr__create_fuel (add_fuel l r) l r.

Definition SubExpr__create (l r : Expr) : outcome Expr :=
  SubExpr__create_fuel (add_fuel l r) l r.

(** ** Products, quotients, shifts *)

Definition MulExpr_createPartialR (cl : ConstantExpr) (r : Expr) : outcome Expr :=
  if cwidth cl =? 1 then AndExpr_createPartialR cl r
  else if isOne cl then Ret r
  else if isZero cl then Ret (Constant cl)
  else Ret (Binary Kind.Mul (Constant cl) r).

Definition MulExpr_createPartial (l : Expr) (cr : ConstantExpr) : outcome Expr :=
  MulExpr_createPartialR cr l.

Definition MulExpr_create (l r : Expr) : outcome Expr :=
  if getWidth l =? 1 then Ret (Binary Kind.And l r) else Ret (Binary Kind.Mul l r).

Definition MulExpr__create : Expr -> Expr -> outcome Expr :=
  BCREATE_R Kind.Mul MulExpr_createPartial MulExpr_createPartialR MulExpr_create.

Definition UDivExpr_create (l r : Expr) : outcome Expr :=
  if getWidth l =? 1 then Ret l else Ret (Binary Kind.UDiv l r).

Definition SDivExpr_create (l r : Expr) : outcome Expr :=
  if getWidth l =? 1 then Ret l else Ret (Binary Kind.SDiv l r).

Definition URemExpr_create (l r : Expr) : outcome Expr :=
  if getWidth l =? 1 then Ret (Constant (ConstantExpr__alloc 0 1))
  else Ret (Binary Kind.URem l r).

Definition SRemExpr_create (l r : Expr) : outcome Expr :=
  if getWidth l =? 1 then Ret (Constant (ConstantExpr__alloc 0 1))
  else Ret (Binary Kind.SRem l r).

Definition ShlExpr_create (l r : Expr) : outcome Expr :=
  if getWidth l =? 1 then z ← Expr__createIsZero r; AndExpr__create l z
  else Ret (Binary Kind.Shl l r).

Definition LShrExpr_create (l r : Expr) : outcome Expr :=
  if getWidth l =? 1 then z ← Expr__createIsZero r; AndExpr__create l z
  else Ret (Binary Kind.LShr l r).

Definition AShrExpr_create (l r : Expr) : outcome Expr :=
  if getWidth l =? 1 then Ret l else Ret (Binary Kind.AShr l r).

(** ** Order comparisons *)

Definition UltExpr_create (l r : Expr) : outcome Expr :=
  if getWidth l =? 1 then z ← Expr__createIsZero l; AndExpr__create z r
  else Ret (Binary Kind.Ult l r).

Definition UleExpr_create (l r : Expr) : outcome Expr :=
  if getWidth l =? 1 then z ← Expr__createIsZero l; OrExpr__create z r
  else Ret (Binary Kind.Ule l r).

Definition SltExpr_create (l r : Expr) : outcome Expr :=
  if getWidth l =? 1 then z ← Expr__createIsZero r; AndExpr__create l z
  else Ret (Binary Kind.Slt l r).

Definition SleExpr_create (l r : Expr) : outcome Expr :=
  if getWidth l =? 1 then z ← Expr__createIsZero r; OrExpr__create l z
  else Ret (Binary Kind.Sle l r).

(** The [create] method of every binary kind. *)
Definition Binary__create (k : Kind.t) (l r : Expr) : outcome Expr :=
  match k with
  | Kind.Add => AddExpr__create l r
  | Kind.Sub => SubExpr__create l r
  | Kind.Mul => MulExpr__create l r
  | Kind.UDiv => BCREATE Kind.UDiv UDivExpr_create l r
  | Kind.SDiv => BCREATE Kind.SDiv SDivExpr_create l r
  | Kind.URem => BCREATE Kind.URem URemExpr_create l r
  | Kind.SRem => BCREATE Kind.SRem SRemExpr_create l r
  | Kind.And => AndExpr__create l r
  | Kind.Or => OrExpr__create l r
  | Kind.Xor => XorExpr__create l r
  | Kind.Shl => BCREATE Kind.Shl ShlExpr_create l r
  | Kind.LShr => BCREATE Kind.LShr LShrExpr_create l r
  | Kind.AShr => BCREATE Kind.AShr AShrExpr_create l r
  | Kind.Eq => EqExpr__create l r
  | Kind.Ne => NeExpr__create l r
  | Kind.Ult => BCREATE Kind.Ult UltExpr_create l r
  | Kind.Ule => BCREATE Kind.Ule UleExpr_create l r
  | Kind.Ugt => BCREATE Kind.Ult UltExpr_create r l
  | Kind.Uge => BCREATE Kind.Ule UleExpr_create r l
  | Kind.Slt => BCREATE Kind.Slt SltExpr_create l r
  | Kind.Sle => BCREATE Kind.Sle SleExpr_create l r
  | Kind.Sgt => BCREATE Kind.Slt SltExpr_create r l
  | Kind.Sge => BCREATE Kind.Sle SleExpr_create r l
  end.

(** ** Conditionals *)

Definition SelectExpr__create (c t f : Expr) : outcome Expr :=
  let kt := getWidth t in
  _ ← assertM (getWidth c =? 1);
  _ ← assertM (kt =? getWidth f);
  match c with
  | Constant ce => Ret (if isTrue ce then t else f)
  | _ =>
      if expr_eqb t f then Ret t
      else if kt =? 1 then
        match t, f with
        | Constant ce, _ =>
            if isTrue ce then OrExpr__create c f
            else z ← Expr__createIsZero c; AndExpr__create z f
        | _, Constant ce =>
            if isTrue ce then z ← Expr__createIsZero c; OrExpr__create z t
            else AndExpr__create c t
        | _, _ => Ret (Select c t f)
        end
      else Ret (Select c t f)
  end.

(** ** Extracts and concatenations *)

Fixpoint ExtractExpr__create_fuel (fuel : nat) (e : Expr) (off w : Z) : outcome Expr :=
  match fuel with
  | O => Stop OutOfFuel
  | S n =>
      let kw := getWidth e in
      _ ← assertM ((0 <? w) && (u32 (off + w) <=? kw));
      if w =? kw then Ret e
      else
        match e with
        | Constant ce => Ret (Constant (ConstantExpr__Extract ce off w))
        | Concat l r =>
            if getWidth r <=? off
            then ExtractExpr__create_fuel n l (u32 (off - getWidth r)) w
            else if u32 (off + w) <=? getWidth r then ExtractExpr__create_fuel n r off w
            else
              x ← ExtractExpr__create_fuel n l 0 (u32 (u32 (w - getWidth r) + off));
              y ← ExtractExpr__create_fuel n r off (u32 (getWidth r - off));
              ConcatExpr__create_fuel n x y
        | _ => Ret (Extract e off w)
        end
  end
with ConcatExpr__create_fuel (fuel : nat) (l r : Expr) : outcome Expr :=
  match fuel with
  | O => Stop OutOfFuel
  | S n =>
      let w := u32 (getWidth l + getWidth r) in
      match l, r with
      | Constant lc, Constant rc => Ret (Constant (ConstantExpr__Concat lc rc))
      | Extract le lo lw, Extract re ro rw =>
          if expr_eqb le re && (u32 (ro + rw) =? lo)
          then ExtractExpr__create_fuel n le ro w
          else Ret (Concat l r)
      | _, _ => Ret (Concat l r)
      end
  end.

(** The concatenations an extract has to descend through. *)
Fixpoint concats (e : Expr) : nat :=
  match e with
  | Concat l r => S (Nat.max (concats l) (concats r))
  | Extract x _ _ => concats x
  | _ => O
  end.

Definition ExtractExpr__create (e : Expr) (off w : Z) : outcome Expr :=
  ExtractExpr__create_fuel (2 * concats e + 1) e off w.

Definition ConcatExpr__create (l r : Expr) : outcome Expr :=
  ConcatExpr__create_fuel (2 * Nat.max (concats l) (concats r) + 2) l r.

(** The loop of [createN] over the kids before the last two, from the right;
    an empty array of kids fails the assertion. *)
Fixpoint ConcatExpr__createN (kids : list Expr) : outcome Expr :=
  match kids with
  | [] => Stop AssertFail
  | k :: kids' =>
      match kids' with
      | [] => Ret k
      | _ => r ← ConcatExpr__createN kids'; ConcatExpr__create k r
      end
  end.

Definition ConcatExpr__create4 (k1 k2 k3 k4 : Expr) : outcome Expr :=
  r ← ConcatExpr__create k3 k4;
  r ← ConcatExpr__create k2 r;
  ConcatExpr__create k1 r.

Definition ConcatExpr__create8 (k1 k2 k3 k4 k5 k6 k7 k8 : Expr) : outcome Expr :=
  r ← ConcatExpr__create4 k5 k6 k7 k8;
  r ← ConcatExpr__create k4 r;
  r ← ConcatExpr__create k3 r;
  r ← ConcatExpr__create k2 r;
  ConcatExpr__create k1 r.

(** ** Negation and casts *)

Definition NotOptimizedExpr__create (src : Expr) : outcome Expr := Ret (NotOptimized src).

Definition NotExpr__create (e : Expr) : outcome Expr :=
  match e with
  | Constant ce => Ret (Constant (ConstantExpr__Not ce))
  | _ => Ret (Not e)
  end.

Definition ZExtExpr__create (e : Expr) (w : Z) : outcome Expr :=
  let kBits := getWidth e in
  if w =? kBits then Ret e
  else if w <? kBits then ExtractExpr__create e 0 w
  else
    match e with
    | Constant ce => Ret (Constant (ConstantExpr__ZExt ce w))
    | _ => Ret (ZExt e w)
    end.

Definition SExtExpr__create (e : Expr) (w : Z) : outcome Expr :=
  let kBits := getWidth e in
  if w =? kBits then Ret e
  else if w <? kBits then ExtractExpr__create e 0 w
  else
    match e with
    | Constant ce => Ret (Constant (ConstantExpr__SExt ce w))
    | _ => Ret (SExt e w)
    end.

(** ** Reads *)

(** How the walk over the updates ends: at the value written to the index, at
    an update that may or may not write it, or behind the oldest update. *)
Inductive rollback : Type :=
  | Found (value : Expr)
  | Stopped (un : UpdateNode) (updateListHasSymbolicWrites : bool).

Fixpoint ReadExpr__create_loop (index : Expr) (un : UpdateNode) : outcome rollback :=
  match un with
  | NoUpdate => Ret (Stopped NoUpdate false)
  | Update ui uv next =>
      cond ← EqExpr__create index ui;
      match cond with
      | Constant ce => if isTrue ce then Ret (Found uv) else ReadExpr__create_loop index next
      | _ => Ret (Stopped un true)
      end
  end.

(** [CE->getZExtValue()] with the assertion on the width. *)
Definition getZExtValue (c : ConstantExpr) : outcome Z :=
  _ ← assertM (cwidth c <=? 64); Ret (cvalue c).

Definition ReadExpr__create (a : Array) (head : UpdateNode) (index : Expr) : outcome Expr :=
  end_ ← ReadExpr__create_loop index head;
  match end_ with
  | Found v => Ret v
  | Stopped un sym =>
      match index with
      | Constant ce =>
          concreteIndex ← getZExtValue ce;
          if concreteIndex <? asize a then
            if isConstantArray a && negb sym then
              match aconstantValues a !! Z.to_nat concreteIndex with
              | Some v => Ret (Constant (mkConst v (arange a)))
              | None => Stop MemError
              end
            else Ret (Read a un index)
          else Ret (Read a head index)
      | _ => Ret (Read a head index)
      end
  end.

(** [UpdateList::extend]. *)
Definition UpdateList__extend (a : Array) (head : UpdateNode) (index value : Expr)
    : outcome UpdateNode :=
  _ ← assertM (adomain a =? getWidth index);
  _ ← assertM (arange a =? getWidth value);
  Ret (Update index value head).

(** A little-endian read at offset 0. *)
Definition Expr__createTempRead (a : Array) (w : Z) : outcome Expr :=
  let rd i := ReadExpr__create a NoUpdate (Constant (ConstantExpr__alloc i 32)) in
  if w =? 1 then r ← rd 0; ZExtExpr__create r 1
  else if w =? 8 then rd 0
  else if w =? 16 then r1 ← rd 1; r0 ← rd 0; ConcatExpr__create r1 r0
  else if w =? 32 then
    r3 ← rd 3; r2 ← rd 2; r1 ← rd 1; r0 ← rd 0; ConcatExpr__create4 r3 r2 r1 r0
  else if w =? 64 then
    r7 ← rd 7; r6 ← rd 6; r5 ← rd 5; r4 ← rd 4;
    r3 ← rd 3; r2 ← rd 2; r1 ← rd 1; r0 ← rd 0;
    ConcatExpr__create8 r7 r6 r5 r4 r3 r2 r1 r0
  else Stop AssertFail.

(** ** Construction by kind *)

Inductive CreateArg : Type :=
  | ArgExpr (e : Expr)
  | ArgWidth (w : Z).

Definition Expr__createFromKind (k : Z) (args : list CreateArg) : outcome Expr :=
  match args with
  | [ArgExpr a] => if k =? 1 then NotOptimizedExpr__create a else Stop AssertFail
  | [ArgExpr a; ArgExpr b; ArgExpr c] =>
      if k =? 4 then SelectExpr__create a b c else Stop AssertFail
  | [ArgExpr a; ArgWidth w] =>
      if k =? 7 then ZExtExpr__create a w
      else if k =? 8 then SExtExpr__create a w else Stop AssertFail
  | [ArgExpr a; ArgExpr b] =>
      if k =? 5 then ConcatExpr__create a b
      else
        match find (fun bk => Kind.num bk =? k)
                [Kind.Add; Kind.Sub; Kind.Mul; Kind.UDiv; Kind.SDiv; Kind.URem; Kind.SRem;
                 Kind.And; Kind.Or; Kind.Xor; Kind.Shl; Kind.LShr; Kind.AShr; Kind.Eq;
                 Kind.Ne; Kind.Ult; Kind.Ule; Kind.Ugt; Kind.Uge; Kind.Slt; Kind.Sle;
                 Kind.Sgt; Kind.Sge] with
        | Some bk => Binary__create bk a b
        | None => Stop AssertFail
        end
  | _ => Stop AssertFail
  end.

(** [rebuild] of every class, with the new kids. *)
Definition rebuild (e : Expr) (ks : list Expr) : outcome Expr :=
  match e, ks with
  | NotOptimized _, [s] => NotOptimizedExpr__create s
  | Read a u _, [i] => ReadExpr__create a u i
  | Select _ _ _, [c; t; f] => SelectExpr__create c t f
  | Concat _ _, [l; r] => ConcatExpr__create l r
  | Extract _ off w, [x] => ExtractExpr__create x off w
  | ZExt _ w, [s] => ZExtExpr__create s w
  | SExt _ w, [s] => SExtExpr__create s w
  | Not _, [x] => NotExpr__create x
  | Binary k _ _, [l; r] => Binary__create k l r
  | _, _ => Stop AssertFail
  end.

End Create.
