(* ===== verification/ExprSem.v ===== *)
(** * The meaning of expressions

    An assignment gives every array its bytes; [eval] is the value of an
    expression under it.  What a division by zero yields is left open (the
    parameter [divz]): the theorems about the constructors hold for every
    choice.  The file also has the bit-vector lemmas and the predicate
    [creates] with which the constructors are specified. *)

From S2P Require Import Prelude ExprData ExprCreate.

(** ** Evaluation *)

Definition assignment : Type := Array -> Z -> Z.

Class DivByZero : Type := divz : Kind.t -> Z -> Z -> Z.

(** The initial value of an array at an index: the constant, or the
    assignment's value. *)
Definition array_value (rho : assignment) (a : Array) (i : Z) : Z :=
  if isConstantArray a && (i <? asize a)
  then nth (Z.to_nat i) (aconstantValues a) 0
  else rho a i mod 2 ^ arange a.

Section Eval.
Context `{DivByZero}.

Definition binop_value (k : Kind.t) (w a b : Z) : Z :=
  if Kind.is_div k && (b =? 0) then divz k w a mod 2 ^ w else bv_op k w a b.

Fixpoint eval (rho : assignment) (e : Expr) : Z :=
  match e with
  | Constant c => cvalue c
  | NotOptimized s => eval rho s
  | Read a u i => read_at rho a u (eval rho i)
  | Select c t f => if eval rho c =? 0 then eval rho f else eval rho t
  | Concat l r => eval rho l * 2 ^ getWidth r + eval rho r
  | Extract x off w => (eval rho x / 2 ^ off) mod 2 ^ w
  | ZExt s w => eval rho s
  | SExt s w => signed (getWidth s) (eval rho s) mod 2 ^ w
  | Not x => 2 ^ getWidth x - 1 - eval rho x
  | Binary k l r => binop_value k (getWidth l) (eval rho l) (eval rho r)
  end
with read_at (rho : assignment) (a : Array) (u : UpdateNode) (i : Z) : Z :=
  match u with
  | NoUpdate => array_value rho a i
  | Update ui uv n => if eval rho ui =? i then eval rho uv else read_at rho a n i
  end.

(** Reads of constant arrays stay inside the array: what the bounds check of
    the engine establishes before a read is built, and what the rule for
    constant arrays relies on. *)
Fixpoint in_bounds (rho : assignment) (e : Expr) : Prop :=
  match e with
  | Constant _ => True
  | NotOptimized s => in_bounds rho s
  | Read a u i =>
      in_bounds rho i /\ in_bounds_upd rho u /\
      (isConstantArray a = true -> eval rho i < asize a)
  | Select c t f => in_bounds rho c /\ in_bounds rho t /\ in_bounds rho f
  | Concat l r => in_bounds rho l /\ in_bounds rho r
  | Extract x _ _ => in_bounds rho x
  | ZExt s _ => in_bounds rho s
  | SExt s _ => in_bounds rho s
  | Not x => in_bounds rho x
  | Binary _ l r => in_bounds rho l /\ in_bounds rho r
  end
with in_bounds_upd (rho : assignment) (u : UpdateNode) : Prop :=
  match u with
  | NoUpdate => True
  | Update i v n => in_bounds rho i /\ in_bounds rho v /\ in_bounds_upd rho n
  end.

End Eval.

(** ** Bit-vector lemmas *)

Lemma pow2_pos w : 0 <= w -> 0 < 2 ^ w.
Proof. intros. apply Z.pow_pos_nonneg; lia. Qed.

#[export] Hint Resolve pow2_pos : vital.

Lemma mod_pow2_range x w : 0 <= w -> 0 <= x mod 2 ^ w < 2 ^ w.
Proof. intros. apply Z.mod_pos_bound. by apply pow2_pos. Qed.

Lemma testbit_above x w i : 0 <= x < 2 ^ w -> 0 <= w <= i -> Z.testbit x i = false.
Proof.
  intros Hx Hi. rewrite <- (Z.mod_small x (2 ^ w)) by done.
  apply Z.mod_pow2_bits_high. lia.
Qed.

Lemma bits_range x w :
  0 <= w -> (forall i, w <= i -> Z.testbit x i = false) -> 0 <= x < 2 ^ w.
Proof.
  intros Hw Hb. replace x with (x mod 2 ^ w); [by apply mod_pow2_range|].
  apply Z.bits_inj'. intros i Hi. destruct (Z.lt_ge_cases i w).
  - by apply Z.mod_pow2_bits_low.
  - by rewrite Z.mod_pow2_bits_high, Hb by lia.
Qed.

Ltac bits_range_tac :=
  apply bits_range; [lia|]; intros i ?;
  rewrite ?Z.land_spec, ?Z.lor_spec, ?Z.lxor_spec;
  erewrite !testbit_above by (eassumption || lia); reflexivity.

Lemma land_range a b w :
  0 <= w -> 0 <= a < 2 ^ w -> 0 <= b < 2 ^ w -> 0 <= Z.land a b < 2 ^ w.
Proof. intros. bits_range_tac. Qed.

Lemma lor_range a b w :
  0 <= w -> 0 <= a < 2 ^ w -> 0 <= b < 2 ^ w -> 0 <= Z.lor a b < 2 ^ w.
Proof. intros. bits_range_tac. Qed.

Lemma lxor_range a b w :
  0 <= w -> 0 <= a < 2 ^ w -> 0 <= b < 2 ^ w -> 0 <= Z.lxor a b < 2 ^ w.
Proof. intros. bits_range_tac. Qed.

Lemma pow2_split w : 0 < w -> 2 ^ w = 2 * 2 ^ (w - 1).
Proof. intros. rewrite <- Z.pow_succ_r by lia. f_equal. lia. Qed.

Lemma signed_range w v : 0 < w -> 0 <= v < 2 ^ w -> - 2 ^ (w - 1) <= signed w v < 2 ^ (w - 1).
Proof. intros. pose proof (pow2_split w). unfold signed. case_match; to_prop; lia. Qed.

Lemma signed_mod w v : 0 <= v < 2 ^ w -> signed w v mod 2 ^ w = v.
Proof.
  intros Hv. unfold signed. case_match.
  - by apply Z.mod_small.
  - rewrite <- (Z.mod_add _ 1) by lia. rewrite Z.mod_small; lia.
Qed.

Lemma signed_inj w a b :
  0 <= a < 2 ^ w -> 0 <= b < 2 ^ w -> signed w a = signed w b -> a = b.
Proof.
  intros Ha Hb Hs. rewrite <- (signed_mod w a), <- (signed_mod w b) by done. by rewrite Hs.
Qed.

Lemma signed_of_small w v : 0 < w -> - 2 ^ (w - 1) <= v < 2 ^ (w - 1) -> signed w (v mod 2 ^ w) = v.
Proof.
  intros Hw Hv. pose proof (pow2_split w Hw).
  unfold signed. destruct (Z.lt_ge_cases v 0).
  - replace (v mod 2 ^ w) with (v + 2 ^ w).
    + case_match; to_prop; lia.
    + rewrite <- (Z.mod_add _ 1) by lia. rewrite Z.mod_small; lia.
  - rewrite Z.mod_small by lia. case_match; to_prop; lia.
Qed.

Lemma lor_shiftl_add a b w :
  0 <= w -> 0 <= b < 2 ^ w -> Z.lor (Z.shiftl a w) b = a * 2 ^ w + b.
Proof.
  intros Hw Hb. rewrite <- Z.shiftl_mul_pow2 by lia.
  assert (Hl : Z.land (Z.shiftl a w) b = 0).
  { apply Z.bits_inj'. intros i Hi. rewrite Z.land_spec, Z.bits_0.
    destruct (Z.lt_ge_cases i w).
    - by rewrite Z.shiftl_spec_low.
    - rewrite (testbit_above b w) by lia. apply andb_false_r. }
  pose proof (Z.add_lor_land (Z.shiftl a w) b). lia.
Qed.

Lemma testbit_ones w i : 0 <= w -> 0 <= i -> Z.testbit (2 ^ w - 1) i = (i <? w).
Proof.
  intros. rewrite Z.sub_1_r, <- Z.ones_equiv.
  destruct (Z.ltb_spec i w); [apply Z.ones_spec_low | apply Z.ones_spec_high]; lia.
Qed.

Lemma bnot_sub w x : 0 <= w -> 0 <= x < 2 ^ w -> bnot w x = 2 ^ w - 1 - x.
Proof.
  intros Hw Hx. unfold bnot.
  assert (Hl : Z.land x (Z.lxor x (2 ^ w - 1)) = 0).
  { apply Z.bits_inj'. intros i Hi.
    rewrite Z.land_spec, Z.lxor_spec, testbit_ones, Z.bits_0 by lia.
    destruct (Z.ltb_spec i w).
    - by destruct (Z.testbit x i).
    - by rewrite (testbit_above x w) by lia. }
  apply Z.add_nocarry_lxor in Hl.
  rewrite <- Z.lxor_assoc, Z.lxor_nilpotent, Z.lxor_0_l in Hl. lia.
Qed.

(** The result of an operation fits its width. *)
Lemma bv_op_range k w a b :
  0 < w -> 0 <= a < 2 ^ w -> 0 <= b < 2 ^ w -> (Kind.is_div k = true -> b <> 0) ->
  0 <= bv_op k w a b < 2 ^ (if Kind.is_cmp k then 1 else w).
Proof.
  intros Hw Ha Hb Hd. assert (Hw' : 0 <= w) by lia.
  pose proof (pow2_pos w Hw').
  assert (Hbool : forall c, 0 <= Z.b2z c < 2 ^ 1) by (intros []; simpl; lia).
  destruct k; cbn -[Z.pow]; auto using mod_pow2_range, land_range, lor_range, lxor_range.
  - specialize (Hd eq_refl). split; [apply Z.div_pos; lia|].
    apply Z.le_lt_trans with a; [|lia]. apply Z.div_le_upper_bound; nia.
  - specialize (Hd eq_refl). pose proof (Z.mod_pos_bound a b). lia.
  - case_match; [lia|]. by apply mod_pow2_range.
  - case_match; [lia|]. to_prop. rewrite Z.shiftr_div_pow2 by lia.
    pose proof (pow2_pos b). split; [apply Z.div_pos; lia|].
    apply Z.le_lt_trans with a; [|lia]. apply Z.div_le_upper_bound; nia.
Qed.

(** ** Values fit their width *)

Lemma array_value_range rho a i :
  wf_array a -> 0 <= i -> 0 <= array_value rho a i < 2 ^ arange a.
Proof.
  intros (Hr & _ & Hsz & _ & Hlen & Hall) Hi. unfold array_value, isConstantArray in *.
  unfold wf_width in *.
  destruct (isSymbolicArray a) eqn:Es; simpl; [apply mod_pow2_range; lia|].
  case_match; [|apply mod_pow2_range; lia]. to_prop. destruct Hlen as [|Hlen]; [done|].
  rewrite List.Forall_forall in Hall. apply Hall. apply nth_In. lia.
Qed.

Lemma eval_range `{DivByZero} rho :
  (forall e, wf e -> 0 <= eval rho e < 2 ^ getWidth e) /\
  (forall u a i, wf_array a -> wf_upd a u -> 0 <= i -> 0 <= read_at rho a u i < 2 ^ arange a).
Proof.
  apply Expr_UpdateNode_ind; cbn -[Z.pow]; intros; decompose_hyps;
    repeat match goal with
    | Hw : wf ?e, IH : wf ?e -> _ |- _ => specialize (IH Hw); pose proof (wf_getWidth e Hw)
    | Hw : getWidth ?x = _ |- _ => rewrite Hw in *; clear Hw
    end; unfold wf_width, wf_const in *; decompose_hyps; auto.
  - (* Select *) case_match; lia.
  - (* Concat *)
    unfold u32. rewrite wrapU_small, Z.pow_add_r by lia.
    pose proof (pow2_pos (getWidth right)). nia.
  - (* Extract *) apply mod_pow2_range. lia.
  - (* ZExt *) pose proof (Z.pow_le_mono_r 2 (getWidth src) width). lia.
  - (* SExt *) apply mod_pow2_range. lia.
  - (* Not *) lia.
  - (* Binary *)
    unfold binop_value. destruct (Kind.is_div k && (eval rho right =? 0)) eqn:Ed.
    + destruct k; try done; cbn -[Z.pow]; apply mod_pow2_range; lia.
    + pose proof (bv_op_range k (getWidth right) (eval rho left) (eval rho right)) as Hop.
      destruct (Kind.is_cmp k); apply Hop; try lia;
        intros Hk; rewrite Hk in Ed; simpl in Ed; to_prop; lia.
  - (* NoUpdate *) by apply array_value_range.
  - (* Update *) case_match; [lia|auto].
Qed.

(** ** Specification of a constructor

    [denotes D w V e]: [e] is well-formed, has width [w], and under every
    assignment of [D] has the value [V] (and reads constant arrays within
    bounds, when the option that needs it is on).  [creates D w V o]: the call
    [o] returns such an expression. *)

Section Spec.
Context `{ExprOptions} `{DivByZero}.

Definition inb (rho : assignment) (e : Expr) : Prop :=
  ConstArrayOpt = true -> in_bounds rho e.

Record denotes (D : assignment -> Prop) (w : Z) (V : assignment -> Z) (e : Expr) : Prop := {
  den_wf : wf e;
  den_width : getWidth e = w;
  den_inb : forall rho, D rho -> inb rho e;
  den_eval : forall rho, D rho -> eval rho e = V rho
}.

Definition creates (D : assignment -> Prop) (w : Z) (V : assignment -> Z)
    (o : outcome Expr) : Prop :=
  exists e, o = Ret e /\ denotes D w V e.

(** The expression itself is its own meaning. *)
Lemma denotes_self (D : assignment -> Prop) e :
  wf e -> (forall rho, D rho -> inb rho e) ->
  denotes D (getWidth e) (fun rho => eval rho e) e.
Proof. by split. Qed.

Lemma denotes_pos D w V e : denotes D w V e -> 0 < w < 2 ^ 32.
Proof. intros [Hwf Hw _ _]. rewrite <- Hw. by apply wf_getWidth. Qed.

Lemma denotes_range D w V e rho : denotes D w V e -> D rho -> 0 <= V rho < 2 ^ w.
Proof.
  intros [Hwf Hw _ He] HD. rewrite <- (He rho HD), <- Hw. by apply eval_range.
Qed.

Lemma denotes_ext D w V V' e :
  denotes D w V e -> (forall rho, D rho -> V rho = V' rho) -> denotes D w V' e.
Proof. intros [] HV. split; auto. intros rho HD. rewrite <- HV; auto. Qed.

Lemma creates_ext D w V V' o :
  creates D w V o -> (forall rho, D rho -> V rho = V' rho) -> creates D w V' o.
Proof. intros (e & -> & He) HV. exists e. split; [done|]. by eapply denotes_ext. Qed.

Lemma creates_ret D w V e : denotes D w V e -> creates D w V (Ret e).
Proof. intros. by exists e. Qed.

Lemma creates_bind D w V w' V' o (f : Expr -> outcome Expr) :
  creates D w V o -> (forall e, denotes D w V e -> creates D w' V' (f e)) ->
  creates D w' V' (o ≫= f).
Proof. intros (e & -> & He) Hf. by apply Hf. Qed.

Lemma creates_assert D w V b (o : outcome Expr) :
  b = true -> creates D w V o -> creates D w V (_ ← assertM b; o).
Proof. by intros ->. Qed.

(** ** The plain constructors *)

Lemma denotes_const D c w :
  wf_const c -> cwidth c = w -> denotes D w (fun _ => cvalue c) (Constant c).
Proof. by split. Qed.

Lemma denotes_alloc D v w :
  0 < w < 2 ^ 32 -> denotes D w (fun _ => v mod 2 ^ w) (Constant (ConstantExpr__alloc v w)).
Proof.
  intros. apply (denotes_const D (ConstantExpr__alloc v w)); [|done].
  split; [done|]. apply mod_pow2_range. simpl. lia.
Qed.

Lemma denotes_bool D (b : bool) :
  denotes D 1 (fun _ => Z.b2z b) (Constant (ConstantExpr__alloc (Z.b2z b) 1)).
Proof.
  eapply denotes_ext; [by apply denotes_alloc|]. intros. by destruct b.
Qed.

Lemma denotes_binop D w Vl Vr k l r :
  denotes D w Vl l -> denotes D w Vr r ->
  denotes D (if Kind.is_cmp k then 1 else w)
    (fun rho => binop_value k w (Vl rho) (Vr rho)) (Binary k l r).
Proof.
  intros [? <- Hil Hel] [? Hw Hir Her]. split; simpl; auto.
  - intros rho HD Ho. split; [by apply Hil | by apply Hir].
  - intros rho HD. by rewrite Hel, Her.
Qed.

(** A binary operator other than a division. *)
Lemma denotes_bv D w Vl Vr k l r :
  denotes D w Vl l -> denotes D w Vr r -> Kind.is_div k = false ->
  denotes D (if Kind.is_cmp k then 1 else w)
    (fun rho => bv_op k w (Vl rho) (Vr rho)) (Binary k l r).
Proof.
  intros Hl Hr Hk. eapply denotes_ext; [by apply denotes_binop|].
  intros rho HD. unfold binop_value. by rewrite Hk.
Qed.

Lemma denotes_Const_inv D w V c :
  denotes D w V (Constant c) ->
  wf_const c /\ cwidth c = w /\ forall rho, D rho -> V rho = cvalue c.
Proof. intros [Hwf Hw _ He]. repeat split; auto; try apply Hwf. intros. by rewrite <- He. Qed.

Lemma denotes_Binary_inv D w V k l r :
  denotes D w V (Binary k l r) -> Kind.is_cmp k = false ->
  denotes D w (fun rho => eval rho l) l /\ denotes D w (fun rho => eval rho r) r /\
  forall rho, D rho -> V rho = binop_value k w (eval rho l) (eval rho r).
Proof.
  intros [(Hl & Hr & Hlr) Hw Hi He] Hk. simpl in Hw. rewrite Hk in Hw. split_and!.
  - split; auto. intros rho HD Ho. by apply (Hi rho HD Ho).
  - split; auto; [congruence|]. intros rho HD Ho. by apply (Hi rho HD Ho).
  - intros rho HD. rewrite <- (He rho HD). simpl. by rewrite Hw.
Qed.

Lemma denotes_Cmp_inv D w V k l r :
  denotes D w V (Binary k l r) -> Kind.is_cmp k = true ->
  w = 1 /\ denotes D (getWidth l) (fun rho => eval rho l) l /\
  denotes D (getWidth l) (fun rho => eval rho r) r /\
  forall rho, D rho -> V rho = binop_value k (getWidth l) (eval rho l) (eval rho r).
Proof.
  intros [(Hl & Hr & Hlr) Hw Hi He] Hk. simpl in Hw. rewrite Hk in Hw. split_and!.
  - done.
  - split; auto. intros rho HD Ho. by apply (Hi rho HD Ho).
  - split; auto. intros rho HD Ho. by apply (Hi rho HD Ho).
  - intros rho HD. by rewrite <- (He rho HD).
Qed.

(** Folding two constants. *)
Lemma creates_fold D w Vl Vr k cl cr :
  denotes D w Vl (Constant cl) -> denotes D w Vr (Constant cr) ->
  (Kind.is_div k = true -> cvalue cr <> 0) ->
  creates D (if Kind.is_cmp k then 1 else w)
    (fun rho => bv_op k w (Vl rho) (Vr rho)) (fold k cl cr).
Proof.
  intros Hl Hr Hd. apply denotes_Const_inv in Hl as ((Hwl & Hrl) & <- & Hvl).
  apply denotes_Const_inv in Hr as ((Hwr & Hrr) & Hw & Hvr).
  unfold fold, ConstantExpr__op.
  assert (Kind.is_div k && (cvalue cr =? 0) = false) as ->.
  { destruct (Kind.is_div k); simpl; [|done]. apply Z.eqb_neq. auto. }
  apply creates_ret. unfold wf_width in *.
  assert (Hwf : wf_const (mkConst (bv_op k (cwidth cl) (cvalue cl) (cvalue cr))
                           (if Kind.is_cmp k then 1 else cwidth cl))).
  { split; simpl.
    - unfold wf_width. destruct (Kind.is_cmp k); lia.
    - rewrite <- Hw in *. apply bv_op_range; auto; lia. }
  eapply denotes_ext; [by apply denotes_const|]. simpl.
  intros rho HD. by rewrite Hvl, Hvr.
Qed.

(** The shape of the [create] methods: constants are folded, the other cases
    are left to the helpers. *)
Lemma creates_BCREATE_R D w Vl Vr k pl pr cr l r :
  denotes D w Vl l -> denotes D w Vr r -> Kind.is_div k = false ->
  (forall c, r = Constant c ->
    creates D (if Kind.is_cmp k then 1 else w) (fun rho => bv_op k w (Vl rho) (Vr rho)) (pl l c)) ->
  (forall c, l = Constant c ->
    creates D (if Kind.is_cmp k then 1 else w) (fun rho => bv_op k w (Vl rho) (Vr rho)) (pr c r)) ->
  (isConstant l = false -> isConstant r = false ->
    creates D (if Kind.is_cmp k then 1 else w) (fun rho => bv_op k w (Vl rho) (Vr rho)) (cr l r)) ->
  creates D (if Kind.is_cmp k then 1 else w) (fun rho => bv_op k w (Vl rho) (Vr rho))
    (BCREATE_R k pl pr cr l r).
Proof.
  intros Hl Hr Hk HpL HpR Hcr. apply creates_assert.
  { rewrite (den_width _ _ _ _ Hl), (den_width _ _ _ _ Hr). apply Z.eqb_refl. }
  destruct (isConstant l) eqn:El, (isConstant r) eqn:Er.
  - destruct l, r; try done. apply creates_fold; auto. congruence.
  - destruct l; try done. destruct r; try done; by apply HpR.
  - destruct r; try done. destruct l; try done; by apply HpL.
  - destruct l; try done; destruct r; try done; by apply Hcr.
Qed.

Lemma creates_BCREATE D w Vl Vr k cr l r :
  denotes D w Vl l -> denotes D w Vr r ->
  (Kind.is_div k = true -> forall c, r = Constant c -> cvalue c <> 0) ->
  creates D (if Kind.is_cmp k then 1 else w) (fun rho => bv_op k w (Vl rho) (Vr rho)) (cr l r) ->
  creates D (if Kind.is_cmp k then 1 else w) (fun rho => bv_op k w (Vl rho) (Vr rho))
    (BCREATE k cr l r).
Proof.
  intros Hl Hr Hd Hcr. apply creates_assert.
  { rewrite (den_width _ _ _ _ Hl), (den_width _ _ _ _ Hr). apply Z.eqb_refl. }
  destruct l; try done. destruct r; try done. apply creates_fold; eauto.
Qed.

End Spec.

Create HintDb creates discriminated.

#[export] Hint Resolve creates_ret denotes_const denotes_bool denotes_binop denotes_bv : creates.

(** Values of width one. *)
Lemma bit_cases v : 0 <= v < 2 ^ 1 -> v = 0 \/ v = 1.
Proof. simpl. lia. Qed.
