(* ===== verification/ExprBool.v ===== *)
(** * Conjunction, disjunction, equality, exclusive or

    Every [create] method of these kinds returns an expression of the same
    value; the rules for an equality with a constant go through extensions,
    sums, negations and, when the option is on, reads of constant arrays. *)

From S2P Require Import Prelude ExprData ExprCreate ExprSem.

(** ** Absorbing and neutral constants *)

Lemma land_all_ones w a : 0 <= w -> 0 <= a < 2 ^ w -> Z.land a (2 ^ w - 1) = a.
Proof.
  intros. rewrite Z.sub_1_r, <- Z.ones_equiv, Z.land_ones by lia. by apply Z.mod_small.
Qed.

Lemma lor_all_ones w a : 0 <= w -> 0 <= a < 2 ^ w -> Z.lor a (2 ^ w - 1) = 2 ^ w - 1.
Proof.
  intros. apply Z.bits_inj'. intros i Hi. rewrite Z.lor_spec, testbit_ones by lia.
  destruct (Z.ltb_spec i w); [apply orb_true_r|]. by rewrite (testbit_above a w) by lia.
Qed.

(** The tests on constants. *)
Lemma isTrue_value c : cwidth c = 1 -> wf_const c -> cvalue c = Z.b2z (isTrue c).
Proof.
  intros Hw [_ Hr]. rewrite Hw in Hr. unfold isTrue, nz. rewrite Hw.
  destruct (bit_cases _ Hr) as [-> | ->]; done.
Qed.

Lemma sext_mod_inj w w' a b :
  0 < w <= w' -> 0 <= a < 2 ^ w -> 0 <= b < 2 ^ w ->
  signed w a mod 2 ^ w' = signed w b mod 2 ^ w' -> a = b.
Proof.
  intros Hw Ha Hb Heq. apply (signed_inj w); auto.
  assert (Hp : 2 ^ (w - 1) <= 2 ^ (w' - 1)) by (apply Z.pow_le_mono_r; lia).
  pose proof (signed_range w a). pose proof (signed_range w b).
  rewrite <- (signed_of_small w' (signed w a)), <- (signed_of_small w' (signed w b)) by lia.
  by rewrite Heq.
Qed.

Lemma mod_pow2_mod x w w' : 0 <= w <= w' -> (x mod 2 ^ w') mod 2 ^ w = x mod 2 ^ w.
Proof.
  intros. apply Z.mod_mod_divide. exists (2 ^ (w' - w)). rewrite <- Z.pow_add_r by lia. f_equal. lia.
Qed.

(** Moving a constant to the other side of an equation. *)
Lemma eq_add_const m c0 c1 b :
  0 < m -> 0 <= c0 < m -> 0 <= b < m -> (c0 =? (c1 + b) mod m) = ((c0 - c1) mod m =? b).
Proof.
  intros Hm Hc Hb. apply eq_true_iff_eq. rewrite !Z.eqb_eq. split; intros Heq.
  - rewrite Heq, Zminus_mod_idemp_l. replace (c1 + b - c1) with b by lia. by apply Z.mod_small.
  - rewrite <- Heq, Zplus_mod_idemp_r. replace (c1 + (c0 - c1)) with c0 by lia.
    by rewrite Z.mod_small.
Qed.

Lemma eq_sub_const m c0 c1 b :
  0 < m -> 0 <= c0 < m -> 0 <= b < m -> (c0 =? (c1 - b) mod m) = ((c1 - c0) mod m =? b).
Proof.
  intros Hm Hc Hb. apply eq_true_iff_eq. rewrite !Z.eqb_eq. split; intros Heq.
  - rewrite Heq, Zminus_mod_idemp_r. replace (c1 - (c1 - b)) with b by lia. by apply Z.mod_small.
  - rewrite <- Heq, Zminus_mod_idemp_r. replace (c1 - (c1 - c0)) with c0 by lia.
    by rewrite Z.mod_small.
Qed.

(** Decide a goal about one-bit values by cases. *)
Ltac bits_cases :=
  repeat match goal with
  | H : 0 <= ?v < 2 ^ 1 |- _ => destruct (bit_cases v H) as [-> | ->]; clear H
  end; try reflexivity.

Section Bool.
Context `{ExprOptions} `{DivByZero}.
Implicit Types (D : assignment -> Prop) (V : assignment -> Z).

(** ** Conjunction and disjunction *)

Lemma AndExpr_createPartial_creates D w Vl Vc l c :
  denotes D w Vl l -> denotes D w Vc (Constant c) ->
  creates D w (fun rho => Z.land (Vl rho) (Vc rho)) (AndExpr_createPartial l c).
Proof.
  intros Hl Hc. pose proof (denotes_Const_inv _ _ _ _ Hc) as (Hwf & Hw & Hv).
  pose proof (denotes_pos _ _ _ _ Hl). unfold AndExpr_createPartial, isAllOnes, isZero.
  repeat case_match; to_prop; apply creates_ret.
  - eapply denotes_ext; [done|]. intros rho HD. rewrite Hv by done.
    replace (cvalue c) with (2 ^ w - 1) by congruence.
    rewrite land_all_ones; [done|lia|by eapply denotes_range].
  - eapply denotes_ext; [done|]. intros rho HD. rewrite !Hv by done.
    replace (cvalue c) with 0 by done. by rewrite Z.land_0_r.
  - by apply (denotes_bv D w Vl Vc Kind.And).
Qed.

Lemma OrExpr_createPartial_creates D w Vl Vc l c :
  denotes D w Vl l -> denotes D w Vc (Constant c) ->
  creates D w (fun rho => Z.lor (Vl rho) (Vc rho)) (OrExpr_createPartial l c).
Proof.
  intros Hl Hc. pose proof (denotes_Const_inv _ _ _ _ Hc) as (Hwf & Hw & Hv).
  pose proof (denotes_pos _ _ _ _ Hl). unfold OrExpr_createPartial, isAllOnes, isZero.
  repeat case_match; to_prop; apply creates_ret.
  - eapply denotes_ext; [done|]. intros rho HD. rewrite !Hv by done.
    replace (cvalue c) with (2 ^ w - 1) by congruence.
    rewrite lor_all_ones; [done|lia|by eapply denotes_range].
  - eapply denotes_ext; [done|]. intros rho HD. rewrite !Hv by done.
    replace (cvalue c) with 0 by done. by rewrite Z.lor_0_r.
  - by apply (denotes_bv D w Vl Vc Kind.Or).
Qed.

Lemma AndExpr__create_creates D w Vl Vr l r :
  denotes D w Vl l -> denotes D w Vr r ->
  creates D w (fun rho => Z.land (Vl rho) (Vr rho)) (AndExpr__create l r).
Proof.
  intros Hl Hr. apply (creates_BCREATE_R D w Vl Vr Kind.And); auto; simpl.
  - intros c ->. by apply AndExpr_createPartial_creates.
  - intros c ->. eapply creates_ext; [by apply (AndExpr_createPartial_creates D w Vr Vl)|].
    intros. apply Z.land_comm.
  - intros. apply creates_ret. by apply (denotes_bv D w Vl Vr Kind.And).
Qed.

Lemma OrExpr__create_creates D w Vl Vr l r :
  denotes D w Vl l -> denotes D w Vr r ->
  creates D w (fun rho => Z.lor (Vl rho) (Vr rho)) (OrExpr__create l r).
Proof.
  intros Hl Hr. apply (creates_BCREATE_R D w Vl Vr Kind.Or); auto; simpl.
  - intros c ->. by apply OrExpr_createPartial_creates.
  - intros c ->. eapply creates_ext; [by apply (OrExpr_createPartial_creates D w Vr Vl)|].
    intros. apply Z.lor_comm.
  - intros. apply creates_ret. by apply (denotes_bv D w Vl Vr Kind.Or).
Qed.

(** ** Equality *)

Lemma EqExpr_create_creates D w Vl Vr l r :
  denotes D w Vl l -> denotes D w Vr r ->
  creates D 1 (fun rho => Z.b2z (Vl rho =? Vr rho)) (EqExpr_create l r).
Proof.
  intros Hl Hr. unfold EqExpr_create. destruct (expr_eqb l r) eqn:E; apply creates_ret.
  - apply expr_eqb_eq in E as ->. eapply denotes_ext; [apply (denotes_bool D true)|].
    intros rho HD. rewrite <- (den_eval _ _ _ _ Hl), <- (den_eval _ _ _ _ Hr) by done.
    by rewrite Z.eqb_refl.
  - by apply (denotes_bv D w Vl Vr Kind.Eq).
Qed.

(** What the helper for a constant operand has to do. *)
Definition eq_partial_ok (r : Expr) : Prop :=
  forall D w Vc Vr c, denotes D w Vc (Constant c) -> denotes D w Vr r ->
    creates D 1 (fun rho => Z.b2z (Vc rho =? Vr rho)) (EqExpr_createPartialR c r).

Lemma EqExpr__create_const_creates r D w Vc Vr c :
  eq_partial_ok r -> denotes D w Vc (Constant c) -> denotes D w Vr r ->
  creates D 1 (fun rho => Z.b2z (Vr rho =? Vc rho))
    (EqExpr__create_const EqExpr_createPartialR r c).
Proof.
  intros IH Hc Hr. apply creates_assert.
  { rewrite (den_width _ _ _ _ Hr). destruct (denotes_Const_inv _ _ _ _ Hc) as (_ & -> & _).
    apply Z.eqb_refl. }
  destruct (isConstant r) eqn:E.
  - destruct r; try done. by apply (creates_fold D w Vr Vc Kind.Eq).
  - eapply creates_ext; [|intros; by rewrite Z.eqb_sym].
    destruct r; try done; by eapply IH.
Qed.

(** The disjunction over the positions of a constant array. *)
Lemma TryConstArrayOpt_loop_creates D cl rd a index Vc Vr Vi all :
  eq_partial_ok index ->
  denotes D (arange a) Vc (Constant cl) -> denotes D (arange a) Vr rd ->
  denotes D (adomain a) Vi index ->
  Z.of_nat (length all) <= 2 ^ adomain a ->
  (forall rho, D rho -> Vr rho = nth (Z.to_nat (Vi rho)) all 0 /\ Vi rho < Z.of_nat (length all)) ->
  forall values i n res,
    values = drop i all ->
    denotes D 1 (fun rho => Z.b2z ((Vi rho <? Z.of_nat i) && (Vc rho =? Vr rho))) res ->
    creates D 1 (fun rho => Z.b2z (Vc rho =? Vr rho))
      (TryConstArrayOpt_loop (EqExpr__create_const EqExpr_createPartialR index)
         cl rd a (adomain a) values (Z.of_nat i) n res).
Proof.
  intros IH Hc Hrd Hi Hlen Hval.
  pose proof (denotes_Const_inv _ _ _ _ Hc) as (Hwf & Hw & Hv).
  pose proof (denotes_pos _ _ _ _ Hi) as Hpos.
  induction values as [|v values IHv]; intros i n res Hd Hres; simpl.
  - apply creates_ret. eapply denotes_ext; [done|]. intros rho HD. simpl.
    destruct (Hval rho HD) as [_ Hlt].
    assert (length all <= i)%nat by (by apply skipn_all_iff).
    rewrite (proj2 (Z.ltb_lt _ _)) by lia. done.
  - assert (Hlk : all !! i = Some v).
    { rewrite <- (take_drop i all), <- Hd. apply list_lookup_middle.
      rewrite length_take. assert (i < length all)%nat; [|lia].
      apply Nat.nle_gt. intros Hge. by rewrite drop_ge in Hd by done. }
    assert (Hi' : (i < length all)%nat) by (by eapply lookup_lt_Some).
    assert (Hd' : values = drop (S i) all).
    { replace (S i) with (i + 1)%nat by lia. by rewrite <- drop_drop, <- Hd. }
    assert (Hstep : forall rho, D rho -> Vi rho = Z.of_nat i -> Vr rho = v).
    { intros rho HD Heq. destruct (Hval rho HD) as [-> _]. rewrite Heq, Nat2Z.id.
      by apply nth_lookup_Some. }
    replace (Z.of_nat i + 1) with (Z.of_nat (S i)) by lia.
    destruct (bool_decide_reflect (cl = mkConst v (arange a))) as [Hcl|Hcl].
    + case_match; [by eapply EqExpr_create_creates|].
      eapply creates_bind.
      { eapply (EqExpr__create_const_creates index D (adomain a) (fun _ => Z.of_nat i)); eauto.
        eapply denotes_ext; [by apply denotes_alloc|]. intros.
        apply Z.mod_small. lia. }
      intros mayBe Hm. eapply creates_bind; [by apply (OrExpr__create_creates D 1)|].
      intros res' Hr'. eapply IHv; [done|]. eapply denotes_ext; [done|]. intros rho HD.
      specialize (Hstep rho HD). simpl.
      assert (Vc rho = v) as -> by (by rewrite Hv, Hcl).
      destruct (Z.eqb_spec (Vi rho) (Z.of_nat i)) as [Heq|Hne].
      * rewrite Hstep, Z.eqb_refl, Heq, (proj2 (Z.ltb_lt _ (Z.of_nat (S i)))) by lia.
        by destruct (Z.of_nat i <? _).
      * replace (Vi rho <? Z.of_nat (S i)) with (Vi rho <? Z.of_nat i);
          [by destruct (Vi rho <? _), (_ =? _)|].
        apply eq_true_iff_eq. rewrite !Z.ltb_lt. lia.
    + eapply IHv; [done|]. eapply denotes_ext; [done|]. intros rho HD. simpl.
      specialize (Hstep rho HD). f_equal.
      destruct (Z.eqb_spec (Vi rho) (Z.of_nat i)) as [Heq|Hne].
      * rewrite Hstep by done. rewrite (proj2 (Z.eqb_neq (Vc rho) v)); [by rewrite !andb_false_r|].
        rewrite Hv by done. intros Hcv. apply Hcl. destruct cl; simpl in *. congruence.
      * f_equal. apply eq_true_iff_eq. rewrite !Z.ltb_lt. lia.
Qed.

Lemma TryConstArrayOpt_creates D w cl a u index Vc Vr :
  ConstArrayOpt = true -> eq_partial_ok index ->
  denotes D w Vc (Constant cl) -> denotes D w Vr (Read a u index) ->
  creates D 1 (fun rho => Z.b2z (Vc rho =? Vr rho))
    (TryConstArrayOpt_with (EqExpr__create_const EqExpr_createPartialR index) cl a u index).
Proof.
  intros Hopt IH Hc Hrd. unfold TryConstArrayOpt_with.
  destruct (isSymbolicArray a || negb (getSize u =? 0)%nat) eqn:Es;
    [by eapply EqExpr_create_creates|].
  apply orb_false_iff in Es as [Hsym Hu]. destruct u; [|done].
  pose proof Hrd as [(Ha & _ & Hwi & Hdom) Hw Hib Hev]. simpl in Hw. subst w.
  destruct Ha as (Har & Had & Hsz & Hpos & [Hs|Hlen] & Hall); [congruence|].
  assert (Hca : isConstantArray a = true) by (unfold isConstantArray; by rewrite Hsym).
  assert (Hi : denotes D (adomain a) (fun rho => eval rho index) index).
  { split; auto. intros rho HD Ho. by apply (Hib rho HD Ho). }
  rewrite Hdom. apply (TryConstArrayOpt_loop_creates D cl (Read a NoUpdate index) a index Vc Vr
    (fun rho => eval rho index) (aconstantValues a)) with (i := O); auto.
  - lia.
  - intros rho HD. destruct (Hib rho HD Hopt) as (_ & _ & Hlt). specialize (Hlt Hca).
    split; [|lia]. rewrite <- Hev by done. simpl. unfold array_value.
    by rewrite Hca, (proj2 (Z.ltb_lt _ _)).
  - eapply denotes_ext; [apply (denotes_bool D false)|]. intros rho HD. simpl.
    pose proof (denotes_range _ _ _ _ rho Hi HD).
    by rewrite (proj2 (Z.ltb_ge _ _)) by lia.
Qed.

(** The rules for the operand of a one-bit equality. *)
Lemma EqExpr_createPartialR_bool D Vc Vr c r :
  (forall k x y, r = Binary k x y -> eq_partial_ok x /\ eq_partial_ok y) ->
  denotes D 1 Vc (Constant c) -> denotes D 1 Vr r ->
  creates D 1 (fun rho => Z.b2z (Vc rho =? Vr rho)) (EqExpr_createPartialR c r).
Proof.
  intros IH Hc Hr. pose proof (denotes_Const_inv _ _ _ _ Hc) as (Hwf & Hw & Hv).
  pose proof (isTrue_value c Hw Hwf) as Ht.
  assert (Hother : creates D 1 (fun rho => Z.b2z (Vc rho =? Vr rho)) (EqExpr_create (Constant c) r))
    by (by eapply EqExpr_create_creates).
  destruct (isTrue c) eqn:Et.
  { assert (EqExpr_createPartialR c r = Ret r) as -> by (destruct r; simpl; by rewrite Hw, Et).
    apply creates_ret. eapply denotes_ext; [done|]. intros rho HD.
    pose proof (denotes_range _ _ _ _ rho Hr HD). rewrite Hv, Ht by done. bits_cases. }
  assert (HVc : forall rho, D rho -> Vc rho = 0) by (intros; by rewrite Hv, Ht).
  destruct r; simpl; rewrite Hw, Et; try exact Hother. cbn [Z.eqb Pos.eqb].
  destruct k; try exact Hother.
  - (* Or *)
    destruct (IH _ _ _ eq_refl) as [IHl IHr].
    destruct (denotes_Binary_inv _ _ _ _ _ _ Hr eq_refl) as (Hl & Hr' & HV).
    rewrite (den_width _ _ _ _ Hl), (den_width _ _ _ _ Hr').
    eapply creates_bind.
    { by eapply (EqExpr__create_const_creates r1), Hl; [|apply (denotes_bool D false)]. }
    intros a Ha. eapply creates_bind.
    { by eapply (EqExpr__create_const_creates r2), Hr'; [|apply (denotes_bool D false)]. }
    intros b Hb. eapply creates_ext; [by apply (AndExpr__create_creates D 1)|].
    intros rho HD. simpl. rewrite HVc, HV by done.
    pose proof (denotes_range _ _ _ _ rho Hl HD). pose proof (denotes_range _ _ _ _ rho Hr' HD).
    unfold binop_value; simpl. by bits_cases.
  - (* Eq *)
    destruct r1; try exact Hother. case_match; [|exact Hother]. to_prop.
    destruct (denotes_Cmp_inv _ _ _ _ _ _ Hr eq_refl) as (_ & Hl & Hr' & HV).
    simpl in *. apply creates_ret. rewrite H1 in *. eapply denotes_ext; [exact Hr'|].
    intros rho HD. pose proof (denotes_range _ _ _ _ rho Hr' HD). simpl.
    rewrite HVc, HV by done. unfold isFalse in *. to_prop. unfold binop_value; simpl.
    replace (cvalue c0) with 0 by done. by bits_cases.
Qed.

(** The rules for wider operands. *)
Lemma EqExpr_createPartialR_ext D w Vc Vr c src w' (sign : bool) :
  w <> 1 -> eq_partial_ok src -> denotes D w Vc (Constant c) ->
  denotes D w Vr (if sign then SExt src w' else ZExt src w') ->
  creates D 1 (fun rho => Z.b2z (Vc rho =? Vr rho))
    (EqExpr_createPartialR c (if sign then SExt src w' else ZExt src w')).
Proof.
  intros Hw1 IH Hc Hr. pose proof (denotes_Const_inv _ _ _ _ Hc) as (Hwf & Hw & Hv).
  assert (Hs : wf src /\ getWidth src < w < 2 ^ 32 /\ w' = w).
  { destruct Hr as [Hwfr Hwr _ _]. destruct sign; simpl in *; subst; tauto. }
  destruct Hs as (Hws & Hlt & ->). pose proof (wf_getWidth src Hws) as Hsp. unfold wf_width in Hsp.
  assert (Hsrc : denotes D (getWidth src) (fun rho => eval rho src) src).
  { split; auto. intros rho HD Ho. pose proof (den_inb _ _ _ _ Hr rho HD Ho) as Hi.
    by destruct sign. }
  set (t := ConstantExpr__ZExt c (getWidth src)).
  assert (Ht : denotes D (getWidth src) (fun _ => cvalue t) (Constant t)).
  { apply denotes_const; [|done]. split; [done|]. apply mod_pow2_range. simpl. lia. }
  assert (Htr : 0 <= cvalue t < 2 ^ getWidth src) by (apply mod_pow2_range; lia).
  assert (HV : forall rho, D rho -> Vr rho =
    if sign then signed (getWidth src) (eval rho src) mod 2 ^ w else eval rho src).
  { intros rho HD. rewrite <- (den_eval _ _ _ _ Hr rho HD). by destruct sign. }
  set (back := if sign then ConstantExpr__SExt t w else ConstantExpr__ZExt t w).
  assert (Hgo : EqExpr_createPartialR c (if sign then SExt src w else ZExt src w) =
    if bool_decide (c = back) then EqExpr__create_const EqExpr_createPartialR src t
    else Ret (Constant (ConstantExpr__alloc 0 1))).
  { unfold back, t. destruct sign; simpl; rewrite Hw; by rewrite (proj2 (Z.eqb_neq _ _) Hw1). }
  assert (Hbv : cvalue back = if sign then signed (getWidth src) (cvalue t) mod 2 ^ w else cvalue t).
  { unfold back. destruct sign; simpl; [done|]. apply Z.mod_small.
    change (cvalue c mod 2 ^ getWidth src) with (cvalue t). clearbody t.
    pose proof (Z.pow_le_mono_r 2 (getWidth src) w). lia. }
  assert (Htd : cvalue t = cvalue c mod 2 ^ getWidth src) by done.
  assert (Hbw : cwidth back = w) by (unfold back; by destruct sign).
  rewrite Hgo. clearbody back. clearbody t.
  destruct (bool_decide_reflect (c = back)) as [Hb|Hb].
  - eapply creates_ext; [by eapply EqExpr__create_const_creates|]. intros rho HD. simpl. f_equal.
    pose proof (denotes_range _ _ _ _ rho Hsrc HD) as Hrs. simpl in Hrs.
    rewrite Hv, HV, Hb, Hbv by done. apply eq_true_iff_eq. rewrite !Z.eqb_eq.
    destruct sign; [|by split]. split; [congruence|]. intros Heq.
    symmetry. apply (sext_mod_inj (getWidth src) w); auto; lia.
  - apply creates_ret. eapply denotes_ext; [apply (denotes_bool D false)|]. intros rho HD. simpl.
    pose proof (denotes_range _ _ _ _ rho Hsrc HD) as Hrs. simpl in Hrs.
    rewrite (proj2 (Z.eqb_neq _ _)); [done|]. rewrite Hv, HV by done. intros Heq. apply Hb.
    assert (Htv : cvalue t = eval rho src).
    { rewrite Htd, Heq. destruct sign; [|by apply Z.mod_small].
      rewrite mod_pow2_mod by lia. by apply signed_mod. }
    rewrite Htv in Hbv. destruct c as [cv cw], back as [bv bw]. simpl in *. congruence.
Qed.

Lemma EqExpr_createPartialR_creates r : eq_partial_ok r.
Proof.
  induction r using Expr_mut with (P0 := fun _ => True); try done;
    intros D w Vc Vr c' Hc Hr;
    pose proof (denotes_Const_inv _ _ _ _ Hc) as (Hwf & Hw & Hv);
    assert (Hother : forall r, denotes D w Vr r ->
      creates D 1 (fun rho => Z.b2z (Vc rho =? Vr rho)) (EqExpr_create (Constant c') r))
      by (intros; by eapply EqExpr_create_creates);
    (destruct (decide (w = 1)) as [->|Hw1];
      [apply EqExpr_createPartialR_bool; auto; by intros; simplify_eq|]);
    try (apply (EqExpr_createPartialR_ext D w Vc Vr c' r width false); done);
    try (apply (EqExpr_createPartialR_ext D w Vc Vr c' r width true); done);
    simpl; rewrite Hw, (proj2 (Z.eqb_neq _ _) Hw1); auto.
  - (* Read *)
    case_match; [|auto]. by eapply TryConstArrayOpt_creates.
  - (* Binary *)
    destruct k; auto; destruct r1 as [c1| | | | | | | | |]; auto;
      destruct (denotes_Binary_inv _ _ _ _ _ _ Hr eq_refl) as (Hl & Hr2 & HV);
      pose proof (denotes_Const_inv _ _ _ _ Hl) as (Hwf1 & Hw1' & _);
      (apply creates_assert; [apply Z.eqb_eq; congruence|]); cbn [mbind outcome_bind];
      pose proof (denotes_pos _ _ _ _ Hr) as Hpos;
      (eapply creates_ext; [eapply (IHr2 D w);
        [apply (denotes_const D (mkConst _ _)); [|done]; split; simpl;
          [unfold wf_width; lia | apply mod_pow2_range; lia] | done] |]);
      intros rho HD; simpl; rewrite Hv, HV, ?Hw, ?Hw1' by done; unfold binop_value; simpl; f_equal;
      symmetry.
    + apply eq_add_const; [apply pow2_pos; lia| |by apply (denotes_range _ _ _ _ rho Hr2)].
      rewrite <- Hw. apply Hwf.
    + apply eq_sub_const; [apply pow2_pos; lia| |by apply (denotes_range _ _ _ _ rho Hr2)].
      rewrite <- Hw. apply Hwf.
Qed.

Lemma EqExpr__create_creates D w Vl Vr l r :
  denotes D w Vl l -> denotes D w Vr r ->
  creates D 1 (fun rho => Z.b2z (Vl rho =? Vr rho)) (EqExpr__create l r).
Proof.
  intros Hl Hr. apply (creates_BCREATE_R D w Vl Vr Kind.Eq); auto; simpl.
  - intros c ->. eapply creates_ext; [by eapply (EqExpr_createPartialR_creates l D w Vr Vl)|].
    intros. by rewrite Z.eqb_sym.
  - intros c ->. by eapply (EqExpr_createPartialR_creates r D w Vl Vr).
  - intros. by eapply EqExpr_create_creates.
Qed.

Lemma Expr__createIsZero_creates D w V e :
  denotes D w V e ->
  creates D 1 (fun rho => Z.b2z (V rho =? 0)) (Expr__createIsZero e).
Proof.
  intros He. unfold Expr__createIsZero. rewrite (den_width _ _ _ _ He).
  apply (EqExpr__create_creates D w V (fun _ => 0)); [done|].
  eapply denotes_ext; [apply denotes_alloc; by eapply denotes_pos|].
  intros. by rewrite Zmod_0_l.
Qed.

Lemma Expr__createImplies_creates D Vh Vc h c :
  denotes D 1 Vh h -> denotes D 1 Vc c ->
  creates D 1 (fun rho => if Vh rho =? 0 then 1 else Vc rho) (Expr__createImplies h c).
Proof.
  intros Hh Hc. eapply creates_bind; [by eapply Expr__createIsZero_creates|].
  intros z Hz. eapply creates_ext; [by apply (OrExpr__create_creates D 1)|].
  intros rho HD. simpl. pose proof (denotes_range _ _ _ _ rho Hh HD).
  pose proof (denotes_range _ _ _ _ rho Hc HD). by bits_cases.
Qed.

Lemma NeExpr__create_creates D w Vl Vr l r :
  denotes D w Vl l -> denotes D w Vr r ->
  creates D 1 (fun rho => Z.b2z (negb (Vl rho =? Vr rho))) (NeExpr__create l r).
Proof.
  intros Hl Hr. eapply creates_bind; [by eapply EqExpr__create_creates|].
  intros e He. eapply creates_ext; [eapply (EqExpr__create_creates D 1); [|done]|].
  - apply (denotes_bool D false).
  - intros rho HD. simpl. by destruct (Vl rho =? Vr rho).
Qed.

(** ** Exclusive or *)

Lemma XorExpr_createPartialR_creates D w Vc Vr c r :
  denotes D w Vc (Constant c) -> denotes D w Vr r ->
  creates D w (fun rho => Z.lxor (Vc rho) (Vr rho)) (XorExpr_createPartialR c r).
Proof.
  intros Hc Hr. pose proof (denotes_Const_inv _ _ _ _ Hc) as (Hwf & Hw & Hv).
  unfold XorExpr_createPartialR, isZero. repeat case_match; to_prop.
  - apply creates_ret. eapply denotes_ext; [done|]. intros rho HD.
    rewrite Hv by done. replace (cvalue c) with 0 by done. by rewrite Z.lxor_0_l.
  - assert (w = 1) as -> by congruence.
    eapply creates_ext; [eapply (EqExpr_createPartialR_creates r D 1); [|done]|].
    + apply (denotes_bool D false).
    + intros rho HD. simpl. pose proof (denotes_range _ _ _ _ rho Hr HD).
      pose proof (denotes_range _ _ _ _ rho Hc HD) as Hcr. rewrite Hv in * by done.
      destruct (bit_cases _ Hcr) as [?| ->]; [done|]. by bits_cases.
  - apply creates_ret. by apply (denotes_bv D w Vc Vr Kind.Xor).
Qed.

Lemma XorExpr__create_creates D w Vl Vr l r :
  denotes D w Vl l -> denotes D w Vr r ->
  creates D w (fun rho => Z.lxor (Vl rho) (Vr rho)) (XorExpr__create l r).
Proof.
  intros Hl Hr. apply (creates_BCREATE_R D w Vl Vr Kind.Xor); auto; simpl.
  - intros c ->. eapply creates_ext; [by apply (XorExpr_createPartialR_creates D w Vr Vl)|].
    intros. apply Z.lxor_comm.
  - intros c ->. by apply XorExpr_createPartialR_creates.
  - intros. apply creates_ret. by apply (denotes_bv D w Vl Vr Kind.Xor).
Qed.

End Bool.
