(* ===== verification/ExprArith.v ===== *)
(** * Sums, differences and the remaining binary kinds

    [AddExpr::create] and [SubExpr::create] move constants to the front by
    calling themselves and each other on smaller sums and then on the results
    of these calls.  A sum or difference with a constant at its front has one
    [addends] less behind it, which bounds the recursion; the fuel of
    [ExprCreate.add_fuel] is enough, and every call returns an expression of
    the same value.  The file ends with the method of every binary kind. *)

From S2P Require Import Prelude ExprData ExprCreate ExprSem ExprBool.

(** Sums and differences modulo a power of two. *)
Ltac mod_arith :=
  rewrite ?Zplus_mod_idemp_l, ?Zplus_mod_idemp_r, ?Zminus_mod_idemp_l, ?Zminus_mod_idemp_r;
  try (f_equal; lia).

Section Arith.
Context `{ExprOptions} `{DivByZero}.
Implicit Types (D : assignment -> Prop) (V : assignment -> Z).

(** [creates] with a bound on the constants left at the front. *)
Definition creates_le D w V (n : nat) (o : outcome Expr) : Prop :=
  exists e, o = Ret e /\ denotes D w V e /\ (addends e <= n)%nat.

Lemma creates_le_creates D w V n o : creates_le D w V n o -> creates D w V o.
Proof. intros (e & He & Hd & _). by exists e. Qed.

Lemma creates_le_ret D w V n e :
  denotes D w V e -> (addends e <= n)%nat -> creates_le D w V n (Ret e).
Proof. intros. by exists e. Qed.

Lemma creates_le_ext D w V V' n n' o :
  creates_le D w V n o -> (forall rho, D rho -> V rho = V' rho) -> (n <= n')%nat ->
  creates_le D w V' n' o.
Proof.
  intros (e & He & Hd & Hn) HV Hle. exists e. split_and!; [done| |lia]. by eapply denotes_ext.
Qed.

Lemma creates_le_bind D w V n w' V' n' o (f : Expr -> outcome Expr) :
  creates_le D w V n o ->
  (forall e, denotes D w V e -> (addends e <= n)%nat -> creates_le D w' V' n' (f e)) ->
  creates_le D w' V' n' (o ≫= f).
Proof. intros (e & -> & Hd & Hn) Hf. by apply Hf. Qed.

Definition VAdd w Va Vb : assignment -> Z := fun rho => (Va rho + Vb rho) mod 2 ^ w.
Definition VSub w Va Vb : assignment -> Z := fun rho => (Va rho - Vb rho) mod 2 ^ w.

(** A folded sum or difference of constants. *)
Lemma create_consts D w Va Vb a b n (sub : bool) :
  denotes D w Va (Constant a) -> denotes D w Vb (Constant b) ->
  exists c,
    (if sub then SubExpr__create_fuel (S n) else AddExpr__create_fuel (S n))
      (Constant a) (Constant b) = Ret (Constant c) /\
    denotes D w (if sub then VSub w Va Vb else VAdd w Va Vb) (Constant c).
Proof.
  intros Ha Hb.
  assert (Hw : (cwidth a =? cwidth b) = true).
  { apply denotes_Const_inv in Ha as (_ & -> & _). apply denotes_Const_inv in Hb as (_ & -> & _).
    apply Z.eqb_refl. }
  destruct sub; simpl; unfold BCREATE_R; simpl; rewrite Hw; cbn [assertM mbind outcome_bind].
  - pose proof (creates_fold D w Va Vb Kind.Sub a b Ha Hb ltac:(done)) as (e & He & Hd).
    unfold fold, ConstantExpr__op in *. simpl in He. injection He as <-. eauto.
  - pose proof (creates_fold D w Va Vb Kind.Add a b Ha Hb ltac:(done)) as (e & He & Hd).
    unfold fold, ConstantExpr__op in *. simpl in He. injection He as <-. eauto.
Qed.

(** The front of a sum or difference, as the rules see it. *)
Variant front : Expr -> Prop :=
  | FrontAdd k a : front (Binary Kind.Add (Constant k) a)
  | FrontSub k a : front (Binary Kind.Sub (Constant k) a)
  | FrontNone e : addends e = O ->
      (forall (A : Type) (x : ConstantExpr -> Expr -> A) y z,
        match e with
        | Binary Kind.Add (Constant k) a => x k a
        | Binary Kind.Sub (Constant k) a => y k a
        | _ => z
        end = z) -> front e.

Lemma front_cases e : front e.
Proof.
  destruct e as [| | | | | | | | |k l r]; try by apply FrontNone.
  destruct k; try by apply FrontNone; destruct l; constructor; auto.
  all: destruct l; constructor; done.
Qed.

(** What a call with a constant operand does, given fuel [n]. *)
Definition partial_ok (n : nat) : Prop :=
  forall D w Vc Vr c r, w <> 1 -> denotes D w Vc (Constant c) -> denotes D w Vr r ->
    (addends r + 2 <= n)%nat ->
    creates_le D w (VAdd w Vc Vr) (addends r + 1) (AddExpr__create_fuel n (Constant c) r) /\
    creates_le D w (VSub w Vc Vr) (addends r + 1) (SubExpr__create_fuel n (Constant c) r).

Section Step.
Variable n : nat.
Hypothesis IH : partial_ok n.

Let add := AddExpr__create_fuel n.
Let sub := SubExpr__create_fuel n.

Lemma AddExpr_createPartialR_le D w Vc Vr c r :
  w <> 1 -> denotes D w Vc (Constant c) -> denotes D w Vr r -> (addends r + 1 <= n)%nat ->
  creates_le D w (VAdd w Vc Vr) (addends r + 1) (AddExpr_createPartialR add sub c r).
Proof.
  intros Hw1 Hc Hr Hn. pose proof (denotes_Const_inv _ _ _ _ Hc) as (Hwf & Hw & Hv).
  unfold AddExpr_createPartialR, isZero. rewrite Hw, (proj2 (Z.eqb_neq _ _) Hw1).
  case_match; to_prop.
  { apply creates_le_ret; [|lia]. eapply denotes_ext; [done|]. intros rho HD.
    unfold VAdd. rewrite Hv by done. replace (cvalue c) with 0 by done. rewrite Z.add_0_l.
    symmetry. apply Z.mod_small. by eapply denotes_range. }
  destruct n as [|n']; [lia|].
  destruct (front_cases r) as [b a|b a|r Hz Hm].
  - destruct (denotes_Binary_inv _ _ _ _ _ _ Hr eq_refl) as (Hl & Ha & HV). simpl in Hn.
    destruct (create_consts D w _ _ c b n' false Hc Hl) as (s & Hs & Hds).
    unfold add. rewrite Hs. cbn [mbind outcome_bind].
    eapply creates_le_ext; [by eapply (IH D w _ _ s a Hw1 Hds Ha); lia| |simpl; lia].
    intros rho HD. unfold VAdd. rewrite HV by done. unfold binop_value; simpl. mod_arith.
  - destruct (denotes_Binary_inv _ _ _ _ _ _ Hr eq_refl) as (Hl & Ha & HV). simpl in Hn.
    destruct (create_consts D w _ _ c b n' false Hc Hl) as (s & Hs & Hds).
    unfold add, sub. rewrite Hs. cbn [mbind outcome_bind].
    eapply creates_le_ext; [by eapply (IH D w _ _ s a Hw1 Hds Ha); lia| |simpl; lia].
    intros rho HD. unfold VAdd, VSub. rewrite HV by done. unfold binop_value; simpl. mod_arith.
  - rewrite Hm. apply creates_le_ret; [|simpl; lia].
    by apply (denotes_bv D w Vc Vr Kind.Add).
Qed.

Lemma SubExpr_createPartialR_le D w Vc Vr c r :
  w <> 1 -> denotes D w Vc (Constant c) -> denotes D w Vr r -> (addends r + 1 <= n)%nat ->
  creates_le D w (VSub w Vc Vr) (addends r + 1) (SubExpr_createPartialR add sub c r).
Proof.
  intros Hw1 Hc Hr Hn. pose proof (denotes_Const_inv _ _ _ _ Hc) as (Hwf & Hw & Hv).
  unfold SubExpr_createPartialR. rewrite Hw, (proj2 (Z.eqb_neq _ _) Hw1).
  destruct n as [|n']; [lia|].
  destruct (front_cases r) as [b a|b a|r Hz Hm].
  - destruct (denotes_Binary_inv _ _ _ _ _ _ Hr eq_refl) as (Hl & Ha & HV). simpl in Hn.
    destruct (create_consts D w _ _ c b n' true Hc Hl) as (s & Hs & Hds).
    unfold sub. rewrite Hs. cbn [mbind outcome_bind].
    eapply creates_le_ext; [by eapply (IH D w _ _ s a Hw1 Hds Ha); lia| |simpl; lia].
    intros rho HD. unfold VAdd, VSub. rewrite HV by done. unfold binop_value; simpl. mod_arith.
  - destruct (denotes_Binary_inv _ _ _ _ _ _ Hr eq_refl) as (Hl & Ha & HV). simpl in Hn.
    destruct (create_consts D w _ _ c b n' true Hc Hl) as (s & Hs & Hds).
    unfold add, sub. rewrite Hs. cbn [mbind outcome_bind].
    eapply creates_le_ext; [by eapply (IH D w _ _ s a Hw1 Hds Ha); lia| |simpl; lia].
    intros rho HD. unfold VAdd, VSub. rewrite HV by done. unfold binop_value; simpl. mod_arith.
  - rewrite Hm. apply creates_le_ret; [|simpl; lia].
    by apply (denotes_bv D w Vc Vr Kind.Sub).
Qed.

Lemma SubExpr_createPartial_le D w Vl Vc l c :
  w <> 1 -> denotes D w Vl l -> denotes D w Vc (Constant c) -> (addends l + 1 <= n)%nat ->
  creates_le D w (VSub w Vl Vc) (addends l + 1) (SubExpr_createPartial add sub l c).
Proof.
  intros Hw1 Hl Hc Hn. pose proof (denotes_Const_inv _ _ _ _ Hc) as (Hwf & Hw & Hv).
  pose proof (denotes_pos _ _ _ _ Hl). unfold SubExpr_createPartial.
  cbn [ConstantExpr__op Kind.is_div andb mbind outcome_bind].
  eapply creates_le_ext; [eapply (AddExpr_createPartialR_le D w (fun _ => _) Vl); auto| |lia].
  - apply (denotes_const D (mkConst _ _)); [|done]. split; simpl.
    + rewrite Hw. by unfold wf_width.
    + apply mod_pow2_range. lia.
  - intros rho HD. unfold VAdd, VSub. rewrite Hv by done. simpl. rewrite Hw, Zmod_0_l. mod_arith.
Qed.

End Step.

Lemma create_fuel_partial n : partial_ok n.
Proof.
  induction n as [|n IH]; intros D w Vc Vr c r Hw1 Hc Hr Hn; [lia|].
  destruct (isConstant r) eqn:Er.
  - destruct r as [c'| | | | | | | | |]; try done.
    destruct (create_consts D w _ _ c c' n false Hc Hr) as (s & Hs & Hds).
    destruct (create_consts D w _ _ c c' n true Hc Hr) as (s' & Hs' & Hds').
    split; [exists (Constant s) | exists (Constant s')]; split_and!; auto; simpl; lia.
  - assert (Hw : (cwidth c =? getWidth r) = true).
    { rewrite (den_width _ _ _ _ Hr). apply denotes_Const_inv in Hc as (_ & -> & _).
      apply Z.eqb_refl. }
    pose proof (AddExpr_createPartialR_le n IH D w Vc Vr c r Hw1 Hc Hr) as Ha.
    pose proof (SubExpr_createPartialR_le n IH D w Vc Vr c r Hw1 Hc Hr) as Hs.
    simpl. unfold BCREATE_R. cbn [getWidth]. rewrite Hw. cbn [assertM mbind outcome_bind].
    destruct r; try done; (split; [apply Ha; lia | apply Hs; lia]).
Qed.

(** A call with a constant on the right. *)
Lemma create_fuel_right n D w Vl Vc l c :
  w <> 1 -> denotes D w Vl l -> denotes D w Vc (Constant c) -> (addends l + 2 <= n)%nat ->
  creates_le D w (VAdd w Vl Vc) (addends l + 1) (AddExpr__create_fuel n l (Constant c)) /\
  creates_le D w (VSub w Vl Vc) (addends l + 1) (SubExpr__create_fuel n l (Constant c)).
Proof.
  intros Hw1 Hl Hc Hn. destruct n as [|n]; [lia|].
  destruct (isConstant l) eqn:El.
  - destruct l as [c'| | | | | | | | |]; try done.
    destruct (create_consts D w _ _ c' c n false Hl Hc) as (s & Hs & Hds).
    destruct (create_consts D w _ _ c' c n true Hl Hc) as (s' & Hs' & Hds').
    split; [exists (Constant s) | exists (Constant s')]; split_and!; auto; simpl; lia.
  - assert (Hw : (getWidth l =? cwidth c) = true).
    { rewrite (den_width _ _ _ _ Hl). apply denotes_Const_inv in Hc as (_ & -> & _).
      apply Z.eqb_refl. }
    pose proof (AddExpr_createPartialR_le n (create_fuel_partial n) D w Vc Vl c l Hw1 Hc Hl) as Ha.
    pose proof (SubExpr_createPartial_le n (create_fuel_partial n) D w Vl Vc l c Hw1 Hl Hc) as Hs.
    simpl. unfold BCREATE_R. cbn [getWidth]. rewrite Hw. cbn [assertM mbind outcome_bind].
    assert (Ha' : creates_le D w (VAdd w Vl Vc) (addends l + 1)
      (AddExpr_createPartial (AddExpr__create_fuel n) (SubExpr__create_fuel n) l c)).
    { eapply creates_le_ext; [apply Ha; lia| |lia]. intros rho HD. unfold VAdd.
      by rewrite Z.add_comm. }
    destruct l; try done; (split; [exact Ha' | apply Hs; lia]).
Qed.

(** The general case, for an operand that is a sum or difference with a
    constant in front. *)
Definition create_ok (n : nat) : Prop :=
  forall D w Vl Vr l r, w <> 1 -> denotes D w Vl l -> denotes D w Vr r ->
    (addends l + addends r + 4 <= n)%nat ->
    creates_le D w (VAdd w Vl Vr) (addends l + addends r + 1) (AddExpr__create_fuel n l r) /\
    creates_le D w (VSub w Vl Vr) (addends l + addends r + 1) (SubExpr__create_fuel n l r).

(** Close a case of the next two lemmas: the inner call by [IH], the outer one
    by the lemma for a constant operand. *)
Ltac sum_case IH Hw1 HV :=
  eapply creates_le_bind;
    [eapply IH; [exact Hw1|eassumption|eassumption|simpl in *; lia]|];
  let s := fresh "s" in let Hs := fresh "Hs" in let Hn := fresh "Hn" in
  intros s Hs Hn; simpl in *;
  (eapply creates_le_ext;
    [first [ eapply (create_fuel_partial _ _ _ _ _ _ _ Hw1); [eassumption|exact Hs|lia]
           | eapply (create_fuel_right _ _ _ _ _ _ _ Hw1); [exact Hs|eassumption|lia] ]| |lia]);
  let rho := fresh "rho" in let HD := fresh "HD" in
  intros rho HD; unfold VAdd, VSub;
  rewrite (HV rho HD);
  unfold binop_value; simpl; mod_arith.

Section GeneralStep.
Variable n : nat.
Hypothesis IH : create_ok n.

Let add := AddExpr__create_fuel n.
Let sub := SubExpr__create_fuel n.

Lemma AddExpr_create_le D w Vl Vr l r :
  w <> 1 -> denotes D w Vl l -> denotes D w Vr r -> (addends l + addends r + 3 <= n)%nat ->
  creates_le D w (VAdd w Vl Vr) (addends l + addends r + 1) (AddExpr_create add sub l r).
Proof.
  intros Hw1 Hl Hr Hn. unfold AddExpr_create.
  rewrite (den_width _ _ _ _ Hl), (proj2 (Z.eqb_neq _ _) Hw1).
  destruct (front_cases l) as [k a|k a|l Hzl Hml].
  - destruct (denotes_Binary_inv _ _ _ _ _ _ Hl eq_refl) as (Hk & Ha & HV). sum_case IH Hw1 HV.
  - destruct (denotes_Binary_inv _ _ _ _ _ _ Hl eq_refl) as (Hk & Ha & HV). sum_case IH Hw1 HV.
  - rewrite Hml. destruct (front_cases r) as [k b|k b|r Hzr Hmr].
    + destruct (denotes_Binary_inv _ _ _ _ _ _ Hr eq_refl) as (Hk & Hb & HV). sum_case IH Hw1 HV.
    + destruct (denotes_Binary_inv _ _ _ _ _ _ Hr eq_refl) as (Hk & Hb & HV). sum_case IH Hw1 HV.
    + rewrite Hmr. apply creates_le_ret; [by apply (denotes_bv D w Vl Vr Kind.Add)|].
      simpl. by destruct l; simpl in *; lia.
Qed.

Lemma SubExpr_create_le D w Vl Vr l r :
  w <> 1 -> denotes D w Vl l -> denotes D w Vr r -> (addends l + addends r + 3 <= n)%nat ->
  creates_le D w (VSub w Vl Vr) (addends l + addends r + 1) (SubExpr_create add sub l r).
Proof.
  intros Hw1 Hl Hr Hn. unfold SubExpr_create.
  rewrite (den_width _ _ _ _ Hl), (proj2 (Z.eqb_neq _ _) Hw1).
  destruct (expr_eqb l r) eqn:Elr.
  { apply expr_eqb_eq in Elr as ->. apply creates_le_ret; [|simpl; lia].
    eapply denotes_ext; [apply denotes_alloc; by eapply denotes_pos|]. intros rho HD. unfold VSub.
    rewrite <- (den_eval _ _ _ _ Hl), <- (den_eval _ _ _ _ Hr) by done. by rewrite Z.sub_diag. }
  destruct (front_cases l) as [k a|k a|l Hzl Hml].
  - destruct (denotes_Binary_inv _ _ _ _ _ _ Hl eq_refl) as (Hk & Ha & HV). sum_case IH Hw1 HV.
  - destruct (denotes_Binary_inv _ _ _ _ _ _ Hl eq_refl) as (Hk & Ha & HV). sum_case IH Hw1 HV.
  - rewrite Hml. destruct (front_cases r) as [k b|k b|r Hzr Hmr].
    + destruct (denotes_Binary_inv _ _ _ _ _ _ Hr eq_refl) as (Hk & Hb & HV). sum_case IH Hw1 HV.
    + destruct (denotes_Binary_inv _ _ _ _ _ _ Hr eq_refl) as (Hk & Hb & HV). sum_case IH Hw1 HV.
    + rewrite Hmr. apply creates_le_ret; [by apply (denotes_bv D w Vl Vr Kind.Sub)|].
      simpl. by destruct l; simpl in *; lia.
Qed.

End GeneralStep.

Lemma create_fuel_ok n : create_ok n.
Proof.
  induction n as [|n IH]; intros D w Vl Vr l r Hw1 Hl Hr Hn; [lia|].
  destruct (isConstant l) eqn:El.
  { destruct l as [c| | | | | | | | |]; try done. simpl in Hn.
    destruct (create_fuel_partial (S n) D w Vl Vr c r Hw1 Hl Hr ltac:(lia)) as [Ha Hs].
    split; eapply creates_le_ext; eauto; simpl; lia. }
  destruct (isConstant r) eqn:Er.
  { destruct r as [c| | | | | | | | |]; try done. simpl in Hn.
    destruct (create_fuel_right (S n) D w Vl Vr l c Hw1 Hl Hr ltac:(lia)) as [Ha Hs].
    split; eapply creates_le_ext; eauto; simpl; lia. }
  assert (Hw : (getWidth l =? getWidth r) = true).
  { rewrite (den_width _ _ _ _ Hl), (den_width _ _ _ _ Hr). apply Z.eqb_refl. }
  pose proof (AddExpr_create_le n IH D w Vl Vr l r Hw1 Hl Hr ltac:(lia)) as Ha.
  pose proof (SubExpr_create_le n IH D w Vl Vr l r Hw1 Hl Hr ltac:(lia)) as Hs.
  simpl. unfold BCREATE_R. rewrite Hw. cbn [assertM mbind outcome_bind].
  destruct l; try done; destruct r; done.
Qed.

(** One-bit sums and differences are exclusive ors. *)
Lemma add_one_bit a b : 0 <= a < 2 ^ 1 -> 0 <= b < 2 ^ 1 -> Z.lxor a b = (a + b) mod 2 ^ 1.
Proof. intros. bits_cases. Qed.

Lemma sub_one_bit a b : 0 <= a < 2 ^ 1 -> 0 <= b < 2 ^ 1 -> Z.lxor a b = (a - b) mod 2 ^ 1.
Proof. intros. bits_cases. Qed.

Lemma create_fuel_bool n D Vl Vr l r :
  denotes D 1 Vl l -> denotes D 1 Vr r ->
  creates D 1 (VAdd 1 Vl Vr) (AddExpr__create_fuel (S n) l r) /\
  creates D 1 (VSub 1 Vl Vr) (SubExpr__create_fuel (S n) l r).
Proof.
  intros Hl Hr.
  assert (Hx : forall V V' e c, denotes D 1 V e -> denotes D 1 V' (Constant c) ->
    creates D 1 (fun rho => Z.lxor (V' rho) (V rho)) (XorExpr_createPartialR c e))
    by (intros; by apply XorExpr_createPartialR_creates).
  assert (Hrl : forall rho, D rho -> 0 <= Vl rho < 2 ^ 1) by (intros; by eapply denotes_range).
  assert (Hrr : forall rho, D rho -> 0 <= Vr rho < 2 ^ 1) by (intros; by eapply denotes_range).
  split; simpl.
  - apply (creates_BCREATE_R D 1 Vl Vr Kind.Add); auto; simpl.
    + intros c ->. pose proof (denotes_Const_inv _ _ _ _ Hr) as (_ & Hw & _).
      unfold AddExpr_createPartial, AddExpr_createPartialR. rewrite Hw. simpl.
      eapply creates_ext; [by eapply (Hx Vl Vr)|]. intros rho HD.
      cbv beta. rewrite Z.lxor_comm. by apply add_one_bit; auto.
    + intros c ->. pose proof (denotes_Const_inv _ _ _ _ Hl) as (_ & Hw & _).
      unfold AddExpr_createPartialR. rewrite Hw. simpl.
      eapply creates_ext; [by eapply (Hx Vr Vl)|]. intros. by apply add_one_bit; auto.
    + intros _ _. unfold AddExpr_create. rewrite (den_width _ _ _ _ Hl). simpl.
      eapply creates_ext; [apply creates_ret; by apply (denotes_bv D 1 Vl Vr Kind.Xor)|].
      intros. by apply add_one_bit; auto.
  - apply (creates_BCREATE_R D 1 Vl Vr Kind.Sub); auto; simpl.
    + intros c ->. pose proof (denotes_Const_inv _ _ _ _ Hr) as (Hwf & Hw & Hv).
      unfold SubExpr_createPartial. cbn [ConstantExpr__op Kind.is_div andb mbind outcome_bind].
      unfold AddExpr_createPartial, AddExpr_createPartialR. simpl. rewrite Hw. simpl.
      eapply creates_ext.
      { eapply (Hx Vl (fun _ => (0 - cvalue c) mod 2 ^ 1)); [done|].
        apply (denotes_const D (mkConst _ 1)); [|done]. split; [done|]. simpl.
        apply (mod_pow2_range _ 1). lia. }
      intros rho HD. specialize (Hrr rho HD). rewrite Hv in * by done. specialize (Hrl rho HD).
      simpl. by bits_cases.
    + intros c ->. pose proof (denotes_Const_inv _ _ _ _ Hl) as (_ & Hw & _).
      unfold SubExpr_createPartialR. rewrite Hw. simpl.
      eapply creates_ext; [by eapply (Hx Vr Vl)|]. intros. by apply sub_one_bit; auto.
    + intros _ _. unfold SubExpr_create. rewrite (den_width _ _ _ _ Hl). simpl.
      eapply creates_ext; [apply creates_ret; by apply (denotes_bv D 1 Vl Vr Kind.Xor)|].
      intros. by apply sub_one_bit; auto.
Qed.

Lemma AddSubExpr__create_creates D w Vl Vr l r :
  denotes D w Vl l -> denotes D w Vr r ->
  creates D w (VAdd w Vl Vr) (AddExpr__create l r) /\
  creates D w (VSub w Vl Vr) (SubExpr__create l r).
Proof.
  intros Hl Hr. unfold AddExpr__create, SubExpr__create, add_fuel.
  destruct (decide (w = 1)) as [->|Hw].
  - rewrite Nat.add_succ_r. by apply create_fuel_bool.
  - destruct (create_fuel_ok _ D w Vl Vr l r Hw Hl Hr (le_n _)) as [Ha Hs].
    split; by eapply creates_le_creates.
Qed.

(** ** The other binary kinds *)

Lemma MulExpr_createPartialR_creates D w Vc Vr c r :
  denotes D w Vc (Constant c) -> denotes D w Vr r ->
  creates D w (fun rho => (Vc rho * Vr rho) mod 2 ^ w) (MulExpr_createPartialR c r).
Proof.
  intros Hc Hr. pose proof (denotes_Const_inv _ _ _ _ Hc) as (Hwf & Hw & Hv).
  assert (Hrr : forall rho, D rho -> 0 <= Vr rho < 2 ^ w) by (intros; by eapply denotes_range).
  unfold MulExpr_createPartialR, isOne, isZero. repeat case_match; to_prop.
  - assert (w = 1) as -> by congruence.
    eapply creates_ext; [by eapply (AndExpr_createPartial_creates D 1 Vr Vc)|].
    intros rho HD. pose proof (denotes_range _ _ _ _ rho Hc HD). specialize (Hrr rho HD).
    by bits_cases.
  - apply creates_ret. eapply denotes_ext; [done|]. intros rho HD. rewrite Hv by done.
    assert (cvalue c = 1) as -> by lia. rewrite Z.mul_1_l. symmetry. apply Z.mod_small. auto.
  - apply creates_ret. eapply denotes_ext; [done|]. intros rho HD. rewrite Hv by done.
    by replace (cvalue c) with 0 by done.
  - apply creates_ret. by apply (denotes_bv D w Vc Vr Kind.Mul).
Qed.

Lemma MulExpr__create_creates D w Vl Vr l r :
  denotes D w Vl l -> denotes D w Vr r ->
  creates D w (fun rho => (Vl rho * Vr rho) mod 2 ^ w) (MulExpr__create l r).
Proof.
  intros Hl Hr. apply (creates_BCREATE_R D w Vl Vr Kind.Mul); auto; simpl.
  - intros c ->. eapply creates_ext; [by apply (MulExpr_createPartialR_creates D w Vr Vl)|].
    intros. by rewrite Z.mul_comm.
  - intros c ->. by apply MulExpr_createPartialR_creates.
  - intros _ _. unfold MulExpr_create. rewrite (den_width _ _ _ _ Hl). case_match; to_prop.
    + subst w. apply creates_ret.
      eapply denotes_ext; [by apply (denotes_bv D 1 Vl Vr Kind.And)|]. intros rho HD.
      pose proof (denotes_range _ _ _ _ rho Hl HD). pose proof (denotes_range _ _ _ _ rho Hr HD).
      by bits_cases.
    + apply creates_ret. by apply (denotes_bv D w Vl Vr Kind.Mul).
Qed.

(** Division and remainder, for divisors that are not zero. *)
Lemma Div_create_creates D w Vl Vr k l r (create : Expr -> Expr -> outcome Expr) :
  denotes D w Vl l -> denotes D w Vr r -> Kind.is_div k = true ->
  (forall rho, D rho -> Vr rho <> 0) ->
  create l r = (if getWidth l =? 1
                then Ret (match k with
                          | Kind.UDiv | Kind.SDiv => l
                          | _ => Constant (ConstantExpr__alloc 0 1) end)
                else Ret (Binary k l r)) ->
  creates D w (fun rho => bv_op k w (Vl rho) (Vr rho)) (create l r).
Proof.
  intros Hl Hr Hk Hnz ->. rewrite (den_width _ _ _ _ Hl). case_match; to_prop.
  - subst w. apply creates_ret.
    assert (Hv : forall rho, D rho -> bv_op k 1 (Vl rho) (Vr rho) =
      match k with Kind.UDiv | Kind.SDiv => Vl rho | _ => 0 end).
    { intros rho HD. pose proof (denotes_range _ _ _ _ rho Hl HD) as Hrl.
      pose proof (denotes_range _ _ _ _ rho Hr HD) as Hrr.
      destruct (bit_cases _ Hrr) as [?| ->]; [by destruct (Hnz rho HD)|].
      destruct (bit_cases _ Hrl) as [-> | ->]; by destruct k. }
    destruct k; try done; (eapply denotes_ext; [first [exact Hl|apply (denotes_bool D false)]|]);
      intros; by rewrite Hv.
  - apply creates_ret.
    assert (Hc : Kind.is_cmp k = false) by (by destruct k).
    pose proof (denotes_binop D w Vl Vr k l r Hl Hr) as Hb. rewrite Hc in Hb.
    eapply denotes_ext; [exact Hb|]. intros rho HD. unfold binop_value.
    by rewrite (proj2 (Z.eqb_neq _ _) (Hnz rho HD)), andb_false_r.
Qed.

(** Shifts and order comparisons have a rule for one bit and are otherwise
    kept. *)
Lemma one_bit_rule D w Vl Vr k l r (o : outcome Expr) :
  denotes D w Vl l -> denotes D w Vr r -> Kind.is_div k = false ->
  (w = 1 -> creates D 1 (fun rho => bv_op k 1 (Vl rho) (Vr rho)) o) ->
  creates D (if Kind.is_cmp k then 1 else w) (fun rho => bv_op k w (Vl rho) (Vr rho))
    (if getWidth l =? 1 then o else Ret (Binary k l r)).
Proof.
  intros Hl Hr Hk Ho. rewrite (den_width _ _ _ _ Hl). destruct (w =? 1) eqn:Ew; to_prop.
  - subst w. destruct (Kind.is_cmp k); auto.
  - apply creates_ret. by apply denotes_bv.
Qed.

(** The combination of a negated operand with the other one. *)
Lemma isZero_and_creates D Va Vb a b :
  denotes D 1 Va a -> denotes D 1 Vb b ->
  creates D 1 (fun rho => Z.land (Z.b2z (Va rho =? 0)) (Vb rho))
    (z ← Expr__createIsZero a; AndExpr__create z b).
Proof.
  intros Ha Hb. eapply creates_bind; [by eapply Expr__createIsZero_creates|]. intros z Hz.
  by apply (AndExpr__create_creates D 1).
Qed.

Lemma and_isZero_creates D Va Vb a b :
  denotes D 1 Va a -> denotes D 1 Vb b ->
  creates D 1 (fun rho => Z.land (Va rho) (Z.b2z (Vb rho =? 0)))
    (z ← Expr__createIsZero b; AndExpr__create a z).
Proof.
  intros Ha Hb. eapply creates_bind; [by eapply Expr__createIsZero_creates|]. intros z Hz.
  by apply (AndExpr__create_creates D 1).
Qed.

Lemma isZero_or_creates D Va Vb a b :
  denotes D 1 Va a -> denotes D 1 Vb b ->
  creates D 1 (fun rho => Z.lor (Z.b2z (Va rho =? 0)) (Vb rho))
    (z ← Expr__createIsZero a; OrExpr__create z b).
Proof.
  intros Ha Hb. eapply creates_bind; [by eapply Expr__createIsZero_creates|]. intros z Hz.
  by apply (OrExpr__create_creates D 1).
Qed.

Lemma or_isZero_creates D Va Vb a b :
  denotes D 1 Va a -> denotes D 1 Vb b ->
  creates D 1 (fun rho => Z.lor (Va rho) (Z.b2z (Vb rho =? 0)))
    (z ← Expr__createIsZero b; OrExpr__create a z).
Proof.
  intros Ha Hb. eapply creates_bind; [by eapply Expr__createIsZero_creates|]. intros z Hz.
  by apply (OrExpr__create_creates D 1).
Qed.

(** A kind that only has a rule for one bit. *)
Ltac one_bit_kind k :=
  match goal with
  | Hl : denotes ?D ?w ?Vl ?l, Hr : denotes ?D ?w ?Vr ?r |- creates _ _ _ (BCREATE _ _ ?l ?r) =>
      apply (creates_BCREATE D w Vl Vr k); try done;
      apply (one_bit_rule D w Vl Vr k); auto; intros ->
  end;
  (eapply creates_ext;
    [first [ by apply isZero_and_creates | by apply and_isZero_creates
           | by apply isZero_or_creates | by apply or_isZero_creates
           | by apply creates_ret; eassumption ]|]);
  let rho := fresh in let HD := fresh in intros rho HD;
  repeat match goal with Hd : denotes _ 1 ?V _ |- _ =>
    pose proof (denotes_range _ _ _ _ rho Hd HD); clear Hd end; by bits_cases.

Lemma order_create_creates D w Vl Vr l r :
  denotes D w Vl l -> denotes D w Vr r ->
  creates D 1 (fun rho => Z.b2z (Vl rho <? Vr rho)) (BCREATE Kind.Ult UltExpr_create l r) /\
  creates D 1 (fun rho => Z.b2z (Vl rho <=? Vr rho)) (BCREATE Kind.Ule UleExpr_create l r) /\
  creates D 1 (fun rho => Z.b2z (signed w (Vl rho) <? signed w (Vr rho)))
    (BCREATE Kind.Slt SltExpr_create l r) /\
  creates D 1 (fun rho => Z.b2z (signed w (Vl rho) <=? signed w (Vr rho)))
    (BCREATE Kind.Sle SleExpr_create l r).
Proof.
  intros Hl Hr. split_and!.
  - one_bit_kind Kind.Ult.
  - one_bit_kind Kind.Ule.
  - one_bit_kind Kind.Slt.
  - one_bit_kind Kind.Sle.
Qed.

(** The [create] method of every binary kind returns an expression with the
    width and the value of the operator applied to its operands. *)
Lemma Binary__create_creates D w Vl Vr k l r :
  denotes D w Vl l -> denotes D w Vr r ->
  (Kind.is_div k = true ->
    (forall rho, D rho -> Vr rho <> 0) /\ forall c, r = Constant c -> cvalue c <> 0) ->
  creates D (if Kind.is_cmp k then 1 else w) (fun rho => bv_op k w (Vl rho) (Vr rho))
    (Binary__create k l r).
Proof.
  intros Hl Hr Hd. destruct k; cbn [Binary__create].
  - by apply AddSubExpr__create_creates.
  - by apply AddSubExpr__create_creates.
  - by apply MulExpr__create_creates.
  - destruct (Hd eq_refl) as [Hnz Hc]. apply (creates_BCREATE D w Vl Vr Kind.UDiv); [done..|].
    apply Div_create_creates; done.
  - destruct (Hd eq_refl) as [Hnz Hc]. apply (creates_BCREATE D w Vl Vr Kind.SDiv); [done..|].
    apply Div_create_creates; done.
  - destruct (Hd eq_refl) as [Hnz Hc]. apply (creates_BCREATE D w Vl Vr Kind.URem); [done..|].
    apply Div_create_creates; done.
  - destruct (Hd eq_refl) as [Hnz Hc]. apply (creates_BCREATE D w Vl Vr Kind.SRem); [done..|].
    apply Div_create_creates; done.
  - by apply AndExpr__create_creates.
  - by apply OrExpr__create_creates.
  - by apply XorExpr__create_creates.
  - one_bit_kind Kind.Shl.
  - one_bit_kind Kind.LShr.
  - one_bit_kind Kind.AShr.
  - by eapply EqExpr__create_creates.
  - by eapply NeExpr__create_creates.
  - by apply (order_create_creates D w Vl Vr l r).
  - by apply (order_create_creates D w Vl Vr l r).
  - by apply (order_create_creates D w Vr Vl r l).
  - by apply (order_create_creates D w Vr Vl r l).
  - by apply (order_create_creates D w Vl Vr l r).
  - by apply (order_create_creates D w Vl Vr l r).
  - by apply (order_create_creates D w Vr Vl r l).
  - by apply (order_create_creates D w Vr Vl r l).
Qed.

End Arith.
