(* ===== verification/ExprBits.v ===== *)
(** * Extracts, concatenations, casts, conditionals and reads

    [ExtractExpr::create] splits an extract over a concatenation and
    [ConcatExpr::create] merges contiguous extracts back, each calling the
    other.  The number of nested concatenations bounds the recursion. *)

From S2P Require Import Prelude ExprData ExprCreate ExprSem ExprBool ExprArith.

(** ** Slices of bit vectors *)

Definition slice (v off w : Z) : Z := (v / 2 ^ off) mod 2 ^ w.

Lemma slice_full v w : 0 <= v < 2 ^ w -> slice v 0 w = v.
Proof. intros. unfold slice. rewrite Z.div_1_r. by apply Z.mod_small. Qed.

(** The slice of a concatenation above, below and across the seam. *)
Lemma slice_concat_high l r wr off w :
  0 <= wr <= off -> 0 <= r < 2 ^ wr -> slice (l * 2 ^ wr + r) off w = slice l (off - wr) w.
Proof.
  intros Ho Hr. unfold slice. f_equal.
  replace off with (wr + (off - wr)) at 1 by lia. rewrite Z.pow_add_r by lia.
  rewrite <- Z.div_div; [|apply Z.pow_nonzero; lia|apply pow2_pos; lia].
  f_equal. rewrite Z.div_add_l by (apply Z.pow_nonzero; lia). rewrite (Z.div_small r) by done. lia.
Qed.

Lemma div_concat l r wr off :
  0 <= off <= wr -> (l * 2 ^ wr + r) / 2 ^ off = l * 2 ^ (wr - off) + r / 2 ^ off.
Proof.
  intros. replace wr with ((wr - off) + off) at 1 by lia.
  rewrite Z.pow_add_r, Z.mul_assoc, Z.div_add_l by (try apply Z.pow_nonzero; lia). done.
Qed.

Lemma slice_concat_low l r wr off w :
  0 <= off -> 0 <= w -> off + w <= wr -> slice (l * 2 ^ wr + r) off w = slice r off w.
Proof.
  intros. unfold slice. rewrite div_concat by lia.
  replace (wr - off) with ((wr - off - w) + w) by lia.
  rewrite Z.pow_add_r, Z.mul_assoc by lia.
  rewrite Z.add_comm, Z.mod_add by (apply Z.pow_nonzero; lia). done.
Qed.

Lemma mod_concat x m w : 0 <= m <= w ->
  x mod 2 ^ w = ((x / 2 ^ m) mod 2 ^ (w - m)) * 2 ^ m + x mod 2 ^ m.
Proof.
  intros. replace w with (m + (w - m)) at 1 by lia. rewrite Z.pow_add_r by lia.
  rewrite Z.rem_mul_r by (try apply Z.pow_nonzero; try apply pow2_pos; lia). lia.
Qed.

Lemma slice_concat_seam l r wr off w :
  0 <= off < wr -> wr < off + w -> 0 <= r < 2 ^ wr ->
  slice (l * 2 ^ wr + r) off w =
  slice l 0 (w - (wr - off)) * 2 ^ (wr - off) + slice r off (wr - off).
Proof.
  intros Ho Hw Hr. unfold slice. rewrite Z.div_1_r, div_concat by lia.
  assert (Hb : 0 <= r / 2 ^ off < 2 ^ (wr - off)).
  { pose proof (pow2_pos off). split; [apply Z.div_pos; lia|].
    apply Z.div_lt_upper_bound; [lia|]. rewrite <- Z.pow_add_r by lia.
    replace (off + (wr - off)) with wr by lia. lia. }
  rewrite (mod_concat _ (wr - off) w) by lia.
  rewrite Z.div_add_l by (apply Z.pow_nonzero; lia). rewrite Z.div_small, Z.add_0_r by done.
  f_equal. rewrite Z.add_comm, Z.mod_add by (apply Z.pow_nonzero; lia). done.
Qed.

(** Contiguous slices of one value merge. *)
Lemma slice_merge v ro rw lw :
  0 <= ro -> 0 <= rw -> 0 <= lw ->
  slice v (ro + rw) lw * 2 ^ rw + slice v ro rw = slice v ro (lw + rw).
Proof.
  intros. unfold slice. rewrite (mod_concat _ rw (lw + rw)) by lia.
  replace (lw + rw - rw) with lw by lia. f_equal. f_equal. f_equal.
  rewrite Z.pow_add_r by lia. rewrite Z.div_div; [done| |]; auto using pow2_pos.
  apply Z.pow_nonzero; lia.
Qed.

(** Folding an extract shifts arithmetically; the bits kept are the same. *)
Lemma extract_fold v kw off w :
  0 <= off -> 0 <= w -> off + w <= kw ->
  Z.shiftr (signed kw v) off mod 2 ^ kw mod 2 ^ w = slice v off w.
Proof.
  intros. rewrite mod_pow2_mod, Z.shiftr_div_pow2 by lia. unfold slice, signed.
  case_match; [done|].
  replace (v - 2 ^ kw) with ((-1) * 2 ^ kw + v) by lia.
  apply (slice_concat_low (-1) v kw off w); lia.
Qed.

Section Bits.
Context `{ExprOptions} `{DivByZero}.
Implicit Types (D : assignment -> Prop) (V : assignment -> Z).

(** ** The plain constructors *)

Lemma denotes_Extract D kw V e off w :
  denotes D kw V e -> 0 <= off -> 0 < w -> off + w <= kw ->
  denotes D w (fun rho => slice (V rho) off w) (Extract e off w).
Proof.
  intros [Hwf Hw Hi He] Ho Hw0 Hle. split; simpl; auto.
  - by rewrite Hw.
  - intros rho HD. unfold slice. by rewrite He.
Qed.

Lemma denotes_Concat D wl wr Vl Vr l r :
  denotes D wl Vl l -> denotes D wr Vr r -> wl + wr < 2 ^ 32 ->
  denotes D (wl + wr) (fun rho => Vl rho * 2 ^ wr + Vr rho) (Concat l r).
Proof.
  intros Hl Hr Hlt. pose proof (denotes_pos _ _ _ _ Hl). pose proof (denotes_pos _ _ _ _ Hr).
  destruct Hl as [? <- Hil Hel], Hr as [? <- Hir Her]. split; simpl; auto.
  - apply wrapU_small. lia.
  - intros rho HD Ho. split; [by apply Hil | by apply Hir].
  - intros rho HD. by rewrite Hel, Her.
Qed.

Lemma denotes_Concat_inv D w V l r :
  denotes D w V (Concat l r) ->
  w = getWidth l + getWidth r /\
  denotes D (getWidth l) (fun rho => eval rho l) l /\
  denotes D (getWidth r) (fun rho => eval rho r) r /\
  forall rho, D rho -> V rho = eval rho l * 2 ^ getWidth r + eval rho r.
Proof.
  intros [Hwf Hw Hi He]. rewrite getWidth_Concat in Hw by done. destruct Hwf as (Hl & Hr & Hlt).
  split_and!; auto.
  - split; auto. intros rho HD Ho. by apply (Hi rho HD Ho).
  - split; auto. intros rho HD Ho. by apply (Hi rho HD Ho).
  - intros rho HD. by rewrite <- (He rho HD).
Qed.

Lemma denotes_Extract_inv D w V e off w' :
  denotes D w V (Extract e off w') ->
  w = w' /\ 0 <= off /\ 0 < w /\ off + w <= getWidth e /\
  denotes D (getWidth e) (fun rho => eval rho e) e /\
  forall rho, D rho -> V rho = slice (eval rho e) off w.
Proof.
  intros [(Hwf & Ho & Hp & Hle) Hw Hi He]. simpl in Hw. subst w'. split_and!; auto.
  - by split.
  - intros rho HD. by rewrite <- (He rho HD).
Qed.

(** ** Extract and concatenation *)

(** [creates] with a bound on the nesting of concatenations. *)
Definition creates_nest D w V (n : nat) (o : outcome Expr) : Prop :=
  exists e, o = Ret e /\ denotes D w V e /\ (concats e <= n)%nat.

Lemma creates_nest_ret D w V n e :
  denotes D w V e -> (concats e <= n)%nat -> creates_nest D w V n (Ret e).
Proof. intros. by exists e. Qed.

Lemma creates_nest_ext D w V V' n n' o :
  creates_nest D w V n o -> (forall rho, D rho -> V rho = V' rho) -> (n <= n')%nat ->
  creates_nest D w V' n' o.
Proof.
  intros (e & He & Hd & Hn) HV Hle. exists e. split_and!; [done| |lia]. by eapply denotes_ext.
Qed.

Definition extract_ok (n : nat) : Prop :=
  forall D kw V e off w, denotes D kw V e -> 0 <= off -> 0 < w -> off + w <= kw ->
    (2 * concats e + 1 <= n)%nat ->
    creates_nest D w (fun rho => slice (V rho) off w) (concats e)
      (ExtractExpr__create_fuel n e off w).

Definition concat_ok (n : nat) : Prop :=
  forall D wl wr Vl Vr l r, denotes D wl Vl l -> denotes D wr Vr r -> wl + wr < 2 ^ 32 ->
    (2 * Nat.max (concats l) (concats r) + 2 <= n)%nat ->
    creates_nest D (wl + wr) (fun rho => Vl rho * 2 ^ wr + Vr rho)
      (S (Nat.max (concats l) (concats r))) (ConcatExpr__create_fuel n l r).

Lemma concat_step n : extract_ok n -> concat_ok (S n).
Proof.
  intros IH D wl wr Vl Vr l r Hl Hr Hlt Hn.
  pose proof (denotes_pos _ _ _ _ Hl) as Hpl. pose proof (denotes_pos _ _ _ _ Hr) as Hpr.
  assert (Hw : u32 (getWidth l + getWidth r) = wl + wr).
  { rewrite (den_width _ _ _ _ Hl), (den_width _ _ _ _ Hr). apply wrapU_small. lia. }
  assert (Hplain : creates_nest D (wl + wr) (fun rho => Vl rho * 2 ^ wr + Vr rho)
    (S (Nat.max (concats l) (concats r))) (Ret (Concat l r))).
  { apply creates_nest_ret; [by apply denotes_Concat|done]. }
  cbn [ConcatExpr__create_fuel]. rewrite Hw. destruct l; try exact Hplain; destruct r; try exact Hplain.
  - (* constants *)
    destruct (denotes_Const_inv _ _ _ _ Hl) as ((_ & Hcl) & Hwl & Hvl).
    destruct (denotes_Const_inv _ _ _ _ Hr) as ((_ & Hcr) & Hwr & Hvr).
    subst wl wr. unfold ConstantExpr__Concat. simpl in Hw. rewrite Hw.
    assert (Hlc : 0 <= cvalue c * 2 ^ cwidth c0 + cvalue c0 < 2 ^ (cwidth c + cwidth c0)).
    { rewrite Z.pow_add_r by lia. nia. }
    assert (Hv : Z.lor (Z.shiftl (cvalue c) (cwidth c0) mod 2 ^ (cwidth c + cwidth c0)) (cvalue c0)
                 = cvalue c * 2 ^ cwidth c0 + cvalue c0).
    { rewrite Z.mod_small; [apply lor_shiftl_add; lia|].
      rewrite Z.shiftl_mul_pow2 by lia. nia. }
    apply creates_nest_ret; [|simpl; lia].
    eapply denotes_ext; [apply denotes_const; [|done]|].
    + split; [simpl; unfold wf_width; lia|]. simpl. by rewrite Hv.
    + intros rho HD. simpl. by rewrite Hv, Hvl, Hvr.
  - (* extracts *)
    case_match eqn:Em; [|exact Hplain]. apply andb_true_iff in Em as [Heq Hoff].
    apply expr_eqb_eq in Heq as ->. to_prop.
    destruct (denotes_Extract_inv _ _ _ _ _ _ Hl) as (<- & Hol & _ & Hll & He & HVl).
    destruct (denotes_Extract_inv _ _ _ _ _ _ Hr) as (<- & Hor & _ & Hlr & _ & HVr).
    pose proof (denotes_pos _ _ _ _ He) as Hpe.
    unfold u32 in Hoff. rewrite wrapU_small in Hoff by lia. subst offset.
    eapply creates_nest_ext; [apply (IH _ _ _ _ offset0 (wl + wr) He); try lia|..].
    + simpl in Hn. lia.
    + intros rho HD. simpl. rewrite HVl, HVr by done. symmetry. apply slice_merge; lia.
    + simpl. lia.
Qed.

Lemma extract_step n : extract_ok n -> concat_ok n -> extract_ok (S n).
Proof.
  intros IHe IHc D kw V e off w He Ho Hw Hle Hn.
  pose proof (denotes_pos _ _ _ _ He) as Hp.
  cbn [ExtractExpr__create_fuel]. rewrite (den_width _ _ _ _ He).
  assert (Hu : u32 (off + w) = off + w) by (apply wrapU_small; lia).
  rewrite Hu, (proj2 (Z.ltb_lt 0 w) Hw), (proj2 (Z.leb_le (off + w) kw) Hle).
  cbn [andb assertM mbind outcome_bind].
  destruct (Z.eqb_spec w kw) as [->|Hne].
  { assert (off = 0) as -> by lia. apply creates_nest_ret; [|lia].
    eapply denotes_ext; [done|]. intros rho HD. symmetry. apply slice_full.
    by eapply denotes_range. }
  assert (Hplain : creates_nest D w (fun rho => slice (V rho) off w) (concats e)
    (Ret (Extract e off w))).
  { apply creates_nest_ret; [by eapply denotes_Extract|done]. }
  destruct e; try exact Hplain.
  - destruct (denotes_Const_inv _ _ _ _ He) as (_ & Hwc & Hv).
    apply creates_nest_ret; [|simpl; lia].
    assert (Hfold := extract_fold (cvalue c) kw off w Ho ltac:(lia) Hle).
    unfold ConstantExpr__Extract. rewrite Hwc, Hfold.
    eapply denotes_ext; [apply (denotes_const D (mkConst _ w)); [|done]|].
    + split; [simpl; unfold wf_width; lia|]. apply mod_pow2_range. simpl. lia.
    + intros rho HD. by rewrite Hv.
  - destruct (denotes_Concat_inv _ _ _ _ _ He) as (-> & Hl & Hr & HV). simpl in Hn.
    pose proof (denotes_pos _ _ _ _ Hl) as Hpl. pose proof (denotes_pos _ _ _ _ Hr) as Hpr.
    assert (Hrr : forall rho, D rho -> 0 <= eval rho e2 < 2 ^ getWidth e2)
      by (intros rho HD; by apply (denotes_range _ _ _ _ rho Hr)).
    destruct (Z.leb_spec (getWidth e2) off).
    { assert (u32 (off - getWidth e2) = off - getWidth e2) as -> by (apply wrapU_small; lia).
      eapply creates_nest_ext; [apply (IHe _ _ _ _ (off - getWidth e2) w Hl); lia| |simpl; lia].
      intros rho HD. simpl. rewrite HV by done. symmetry. apply slice_concat_high; auto; lia. }
    destruct (Z.leb_spec (off + w) (getWidth e2)).
    { eapply creates_nest_ext; [apply (IHe _ _ _ _ off w Hr); lia| |simpl; lia].
      intros rho HD. simpl. rewrite HV by done. symmetry. apply slice_concat_low; lia. }
    assert (u32 (getWidth e2 - off) = getWidth e2 - off) as -> by (apply wrapU_small; lia).
    assert (u32 (u32 (w - getWidth e2) + off) = w - (getWidth e2 - off)) as ->.
    { unfold u32, wrapU. rewrite Zplus_mod_idemp_l. rewrite Z.mod_small by lia. lia. }
    destruct (IHe _ _ _ _ 0 (w - (getWidth e2 - off)) Hl) as (x & -> & Hx & Hnx); try lia.
    destruct (IHe _ _ _ _ off (getWidth e2 - off) Hr) as (y & -> & Hy & Hny); try lia.
    cbn [mbind outcome_bind].
    destruct (IHc _ _ _ _ _ _ _ Hx Hy) as (z & -> & Hz & Hnz); try lia.
    exists z. split_and!; [done| |simpl; lia].
    replace (w - (getWidth e2 - off) + (getWidth e2 - off)) with w in Hz by lia.
    eapply denotes_ext; [exact Hz|]. intros rho HD. simpl. rewrite HV by done.
    symmetry. apply slice_concat_seam; auto; lia.
Qed.

Lemma extract_concat_ok n : extract_ok n /\ concat_ok n.
Proof.
  induction n as [|n [IHe IHc]].
  - split; repeat intro; lia.
  - split; [by apply extract_step | by apply concat_step].
Qed.

Lemma ExtractExpr__create_creates D kw V e off w :
  denotes D kw V e -> 0 <= off -> 0 < w -> off + w <= kw ->
  creates D w (fun rho => slice (V rho) off w) (ExtractExpr__create e off w).
Proof.
  intros He Ho Hw Hle.
  destruct (proj1 (extract_concat_ok _) _ _ _ _ off w He Ho Hw Hle (le_n _)) as (x & Hx & Hd & _).
  by exists x.
Qed.

Lemma ConcatExpr__create_creates D wl wr Vl Vr l r :
  denotes D wl Vl l -> denotes D wr Vr r -> wl + wr < 2 ^ 32 ->
  creates D (wl + wr) (fun rho => Vl rho * 2 ^ wr + Vr rho) (ConcatExpr__create l r).
Proof.
  intros Hl Hr Hlt.
  destruct (proj2 (extract_concat_ok _) _ _ _ _ _ _ _ Hl Hr Hlt (le_n _)) as (x & Hx & Hd & _).
  by exists x.
Qed.

(** ** Negation and casts *)

Lemma NotExpr__create_creates D w V e :
  denotes D w V e -> creates D w (fun rho => 2 ^ w - 1 - V rho) (NotExpr__create e).
Proof.
  intros He. pose proof (denotes_pos _ _ _ _ He) as Hp.
  assert (Hplain : creates D w (fun rho => 2 ^ w - 1 - V rho) (Ret (Not e))).
  { apply creates_ret. pose proof He as [? <- ? Hev]. split; auto.
    intros rho HD. simpl. by rewrite Hev. }
  destruct e; try exact Hplain. destruct (denotes_Const_inv _ _ _ _ He) as ((Hwc & Hr) & <- & Hv).
  unfold NotExpr__create, ConstantExpr__Not. rewrite bnot_sub by lia. apply creates_ret.
  eapply denotes_ext; [apply (denotes_const D (mkConst _ _)); [|done]|].
  - split; [done|]. simpl. lia.
  - intros rho HD. by rewrite Hv.
Qed.

Lemma denotes_ext_plain D kw V e w (sign : bool) :
  denotes D kw V e -> kw < w < 2 ^ 32 ->
  denotes D w (fun rho => if sign then signed kw (V rho) mod 2 ^ w else V rho)
    (if sign then SExt e w else ZExt e w).
Proof.
  intros [? Hw ? Hev] Hlt. destruct sign; split; simpl; auto.
  - by rewrite Hw.
  - intros rho HD. by rewrite Hw, Hev.
  - by rewrite Hw.
Qed.

(** The meaning of a cast to any width: truncation or extension. *)
Definition cast_value (sign : bool) (kw w v : Z) : Z :=
  if w <=? kw then v mod 2 ^ w else if sign then signed kw v mod 2 ^ w else v.

Lemma cast_create_creates D kw V e w (sign : bool) :
  denotes D kw V e -> 0 < w < 2 ^ 32 ->
  creates D w (fun rho => cast_value sign kw w (V rho))
    (if sign then SExtExpr__create e w else ZExtExpr__create e w).
Proof.
  intros He Hw. pose proof (denotes_pos _ _ _ _ He) as Hp.
  assert (Hr : forall rho, D rho -> 0 <= V rho < 2 ^ kw) by (intros; by eapply denotes_range).
  assert (Hgo : creates D w (fun rho => cast_value sign kw w (V rho))
    (if w =? getWidth e then Ret e
     else if w <? getWidth e then ExtractExpr__create e 0 w
     else match e with
          | Constant ce => Ret (Constant (if sign then ConstantExpr__SExt ce w else ConstantExpr__ZExt ce w))
          | _ => Ret (if sign then SExt e w else ZExt e w)
          end)); [|by destruct sign].
  rewrite (den_width _ _ _ _ He).
  destruct (Z.eqb_spec w kw) as [->|Hne].
  { apply creates_ret. eapply denotes_ext; [done|]. intros rho HD. unfold cast_value.
    rewrite Z.leb_refl. symmetry. apply Z.mod_small. auto. }
  destruct (Z.ltb_spec w kw).
  { eapply creates_ext; [by apply (ExtractExpr__create_creates D kw V); try lia|].
    intros rho HD. unfold cast_value, slice. rewrite (proj2 (Z.leb_le _ _)) by lia.
    by rewrite Z.div_1_r. }
  assert (Hc : forall v, cast_value sign kw w v = if sign then signed kw v mod 2 ^ w else v).
  { intros v. unfold cast_value. by rewrite (proj2 (Z.leb_gt _ _)) by lia. }
  assert (Hplain : creates D w (fun rho => cast_value sign kw w (V rho))
    (Ret (if sign then SExt e w else ZExt e w))).
  { apply creates_ret. eapply denotes_ext; [apply (denotes_ext_plain D kw V); [done|lia]|].
    intros rho HD. by rewrite Hc. }
  destruct e; try exact Hplain. destruct (denotes_Const_inv _ _ _ _ He) as ((Hwc & Hcr) & <- & Hv).
  apply creates_ret. pose proof (Z.pow_le_mono_r 2 (cwidth c) w).
  destruct sign; unfold ConstantExpr__SExt, ConstantExpr__ZExt;
    (eapply denotes_ext; [apply (denotes_const D (mkConst _ _)); [|done];
       split; [done|]; apply mod_pow2_range; simpl; lia|]);
    intros rho HD; rewrite Hc, Hv by done; simpl; [done|]. apply Z.mod_small. lia.
Qed.

(** ** Conditionals *)

Lemma denotes_Select D w Vc Vt Vf c t f :
  denotes D 1 Vc c -> denotes D w Vt t -> denotes D w Vf f ->
  denotes D w (fun rho => if Vc rho =? 0 then Vf rho else Vt rho) (Select c t f).
Proof.
  intros [? Hw1 Hic Hec] [? Hw2 Hit Het] [? Hw3 Hif Hef]. split; simpl; auto.
  - split_and!; auto; congruence.
  - intros rho HD Ho. split_and!; [by apply Hic | by apply Hit | by apply Hif].
  - intros rho HD. by rewrite Hec, Het, Hef.
Qed.

Lemma SelectExpr__create_creates D w Vc Vt Vf c t f :
  denotes D 1 Vc c -> denotes D w Vt t -> denotes D w Vf f ->
  creates D w (fun rho => if Vc rho =? 0 then Vf rho else Vt rho) (SelectExpr__create c t f).
Proof.
  intros Hc Ht Hf. unfold SelectExpr__create.
  rewrite (den_width _ _ _ _ Hc), (den_width _ _ _ _ Ht), (den_width _ _ _ _ Hf), Z.eqb_refl.
  cbn [Z.eqb Pos.eqb assertM mbind outcome_bind].
  set (o := if expr_eqb t f then _ else _).
  assert (Ho : creates D w (fun rho => if Vc rho =? 0 then Vf rho else Vt rho) o).
  { unfold o. clear o. destruct (expr_eqb t f) eqn:Etf.
    { apply expr_eqb_eq in Etf as ->. apply creates_ret. eapply denotes_ext; [exact Ht|].
      intros rho HD. rewrite <- (den_eval _ _ _ _ Ht), <- (den_eval _ _ _ _ Hf) by done.
      by destruct (_ =? 0). }
    assert (Hplain : creates D w (fun rho => if Vc rho =? 0 then Vf rho else Vt rho)
      (Ret (Select c t f))) by (apply creates_ret; by apply denotes_Select).
    destruct (Z.eqb_spec w 1) as [->|]; [|exact Hplain].
    assert (Hb : forall rho, D rho ->
      0 <= Vc rho < 2 ^ 1 /\ 0 <= Vt rho < 2 ^ 1 /\ 0 <= Vf rho < 2 ^ 1)
      by (intros; split_and!; by eapply denotes_range).
    destruct (isConstant t) eqn:Et.
    - destruct t as [ct| | | | | | | | |]; try done.
      destruct (denotes_Const_inv _ _ _ _ Ht) as (Hwf & Hw & Hv).
      pose proof (isTrue_value ct Hw Hwf) as Hval. destruct (isTrue ct).
      + eapply creates_ext; [by apply (OrExpr__create_creates D 1)|].
        intros rho HD. destruct (Hb rho HD) as (? & ? & ?). rewrite Hv, Hval by done.
        by bits_cases.
      + eapply creates_ext; [by apply isZero_and_creates|].
        intros rho HD. destruct (Hb rho HD) as (? & ? & ?). rewrite Hv, Hval by done.
        by bits_cases.
    - destruct (isConstant f) eqn:Ef; [|by destruct t, f].
      destruct f as [cf| | | | | | | | |]; try done.
      destruct (denotes_Const_inv _ _ _ _ Hf) as (Hwf & Hw & Hv).
      pose proof (isTrue_value cf Hw Hwf) as Hval. destruct (isTrue cf) eqn:Ecf.
      + assert (Hgo : creates D 1 (fun rho => if Vc rho =? 0 then Vf rho else Vt rho)
          (z ← Expr__createIsZero c; OrExpr__create z t)).
        { eapply creates_ext; [by apply isZero_or_creates|].
          intros rho HD. destruct (Hb rho HD) as (? & ? & ?). rewrite Hv, Hval by done.
          by bits_cases. }
        destruct t; try done; by rewrite Ecf.
      + assert (Hgo : creates D 1 (fun rho => if Vc rho =? 0 then Vf rho else Vt rho)
          (AndExpr__create c t)).
        { eapply creates_ext; [by apply (AndExpr__create_creates D 1)|].
          intros rho HD. destruct (Hb rho HD) as (? & ? & ?). rewrite Hv, Hval by done.
          by bits_cases. }
        destruct t; try done; by rewrite Ecf. }
  destruct c; try exact Ho. destruct (denotes_Const_inv _ _ _ _ Hc) as (Hwf & Hw & Hv).
  pose proof (isTrue_value c Hw Hwf) as Hval. apply creates_ret.
  destruct (isTrue c); (eapply denotes_ext; [eassumption|]); intros rho HD; by rewrite Hv, Hval.
Qed.

(** ** Reads *)

(** An update list is usable on [D]. *)
Definition inb_upd (D : assignment -> Prop) (u : UpdateNode) : Prop :=
  forall rho, D rho -> ConstArrayOpt = true -> in_bounds_upd rho u.

Lemma denotes_Read D a u Vi i :
  wf_array a -> wf_upd a u -> denotes D (adomain a) Vi i -> inb_upd D u ->
  (ConstArrayOpt = true -> isConstantArray a = true -> forall rho, D rho -> Vi rho < asize a) ->
  denotes D (arange a) (fun rho => read_at rho a u (Vi rho)) (Read a u i).
Proof.
  intros Ha Hu [Hwi Hw Hii Hei] Hinb Hlt. split; simpl; auto.
  - intros rho HD Ho. split_and!; [by apply Hii|by apply Hinb|].
    intros Hca. rewrite Hei by done. auto.
  - intros rho HD. by rewrite Hei.
Qed.

(** What the walk over the updates knows when it stops. *)
Definition rollback_ok D a u Vi (b : rollback) : Prop :=
  match b with
  | Found v => denotes D (arange a) (fun rho => read_at rho a u (Vi rho)) v
  | Stopped un sym =>
      wf_upd a un /\ inb_upd D un /\ (sym = false -> un = NoUpdate) /\
      forall rho, D rho -> read_at rho a u (Vi rho) = read_at rho a un (Vi rho)
  end.

Lemma ReadExpr__create_loop_ok D a Vi index u :
  wf_array a -> denotes D (adomain a) Vi index -> wf_upd a u -> inb_upd D u ->
  exists b, ReadExpr__create_loop index u = Ret b /\ rollback_ok D a u Vi b.
Proof.
  intros Ha Hi. induction u as [|ui uv n IHn] using UpdateNode_chain_ind; intros Hu Hinb.
  { exists (Stopped NoUpdate false). split; [done|]. by split_and!. }
  destruct Hu as (Hwi & Hwv & Hdi & Hrv & Hwn).
  assert (Hui : denotes D (adomain a) (fun rho => eval rho ui) ui).
  { split; auto. intros rho HD Ho. by apply (Hinb rho HD Ho). }
  destruct (EqExpr__create_creates D _ _ _ _ _ Hi Hui) as (cond & Hcond & Hd).
  simpl. rewrite Hcond. cbn [mbind outcome_bind].
  assert (Hstop : exists b, Ret (Stopped (Update ui uv n) true) = Ret b /\
    rollback_ok D a (Update ui uv n) Vi b).
  { eexists. split; [done|]. by split_and!. }
  destruct cond as [ce| | | | | | | | |]; try exact Hstop.
  destruct (denotes_Const_inv _ _ _ _ Hd) as (Hwf & Hw & Hv).
  pose proof (isTrue_value ce Hw Hwf) as Hval. destruct (isTrue ce).
  - eexists. split; [done|]. split; auto.
    + intros rho HD Ho. by apply (Hinb rho HD Ho).
    + intros rho HD. specialize (Hv rho HD). rewrite Hval in Hv. simpl in *.
      destruct (Z.eqb_spec (Vi rho) (eval rho ui)) as [->|]; [|done]. by rewrite Z.eqb_refl.
  - assert (Hinb' : inb_upd D n) by (intros rho HD Ho; by apply (Hinb rho HD Ho)).
    destruct (IHn Hwn Hinb') as (b & Hb & Hok). exists b. split; [done|].
    assert (Hne : forall rho, D rho -> read_at rho a (Update ui uv n) (Vi rho) = read_at rho a n (Vi rho)).
    { intros rho HD. specialize (Hv rho HD). rewrite Hval in Hv. simpl in *.
      rewrite Z.eqb_sym. by destruct (_ =? _). }
    destruct b as [v|un sym]; cbn [rollback_ok] in *.
    + eapply denotes_ext; [exact Hok|]. intros rho HD. symmetry. by apply Hne.
    + destruct Hok as (? & ? & ? & Hr). split_and!; auto. intros rho HD. rewrite Hne by done. by apply Hr.
Qed.

Lemma ReadExpr__create_creates D a u Vi index :
  wf_array a -> adomain a <= 64 -> denotes D (adomain a) Vi index -> wf_upd a u -> inb_upd D u ->
  (ConstArrayOpt = true -> isConstantArray a = true -> forall rho, D rho -> Vi rho < asize a) ->
  creates D (arange a) (fun rho => read_at rho a u (Vi rho)) (ReadExpr__create a u index).
Proof.
  intros Ha Hdom Hi Hu Hinb Hlt. unfold ReadExpr__create.
  destruct (ReadExpr__create_loop_ok D a Vi index u Ha Hi Hu Hinb) as (b & -> & Hok).
  cbn [mbind outcome_bind]. destruct b as [v|un sym]; [by apply creates_ret|].
  destruct Hok as (Hwu & Hiu & Hsym & Hr).
  assert (Hfull : creates D (arange a) (fun rho => read_at rho a u (Vi rho)) (Ret (Read a u index))).
  { apply creates_ret. by apply denotes_Read. }
  assert (Hshort : denotes D (arange a) (fun rho => read_at rho a u (Vi rho)) (Read a un index)).
  { eapply denotes_ext; [by apply (denotes_Read D a un Vi)|]. intros rho HD. by rewrite Hr. }
  destruct index; try exact Hfull. destruct (denotes_Const_inv _ _ _ _ Hi) as (Hwf & Hw & Hv).
  unfold getZExtValue. rewrite Hw, (proj2 (Z.leb_le _ _) Hdom). cbn [assertM mbind outcome_bind].
  destruct (Z.ltb_spec (cvalue c) (asize a)) as [Hin|]; [|exact Hfull].
  destruct (isConstantArray a && negb sym) eqn:Eca; [|by apply creates_ret].
  apply andb_true_iff in Eca as [Hca Hns]. apply negb_true_iff in Hns. rewrite Hsym in Hr by done.
  destruct Ha as (Har & _ & Hsz & _ & Hlen & Hall).
  assert (Hlen' : Z.of_nat (length (aconstantValues a)) = asize a).
  { destruct Hlen as [Hs|]; [|done]. unfold isConstantArray in Hca. by rewrite Hs in Hca. }
  destruct Hwf as [_ Hcr].
  destruct (lookup_lt_is_Some_2 (aconstantValues a) (Z.to_nat (cvalue c))) as [v Hv']; [lia|].
  rewrite Hv'. apply creates_ret.
  eapply denotes_ext; [apply (denotes_const D (mkConst v (arange a))); [|done]|].
  - split; [done|]. rewrite Forall_lookup in Hall. by eapply Hall.
  - intros rho HD. rewrite Hr, Hv by done. simpl. unfold array_value.
    rewrite Hca, (proj2 (Z.ltb_lt _ _) Hin). simpl. symmetry. by apply nth_lookup_Some.
Qed.

(** ** Chains of concatenations *)

(** The width and the value of kids put side by side, given those of each kid,
    the first one in the highest bits. *)
Fixpoint side_by_side (ks : list (Z * Z)) : Z * Z :=
  match ks with
  | [] => (0, 0)
  | (w, v) :: ks' => let '(w', v') := side_by_side ks' in (w + w', v * 2 ^ w' + v')
  end.

Definition values (kids : list (Z * (assignment -> Z))) (rho : assignment) : list (Z * Z) :=
  map (fun k => (fst k, snd k rho)) kids.

Definition total_width (kids : list (Z * (assignment -> Z))) : Z :=
  foldr (fun k acc => fst k + acc) 0 kids.

Lemma side_by_side_width kids rho : fst (side_by_side (values kids rho)) = total_width kids.
Proof.
  induction kids as [|[w V] kids IH]; [done|]. simpl. rewrite <- IH.
  by destruct (side_by_side _).
Qed.

Lemma ConcatExpr__createN_creates D es kids :
  Forall2 (fun e k => denotes D (fst k) (snd k) e) es kids -> es <> [] ->
  total_width kids < 2 ^ 32 ->
  creates D (total_width kids) (fun rho => snd (side_by_side (values kids rho)))
    (ConcatExpr__createN es).
Proof.
  induction 1 as [|e [w V] es kids He Hes IH]; intros Hne Hlt; [done|]. clear Hne. simpl in *.
  pose proof (denotes_pos _ _ _ _ He) as Hp.
  destruct Hes as [|e' k' es kids He' Hes].
  - apply creates_ret. simpl. rewrite Z.add_0_r. eapply denotes_ext; [exact He|].
    intros rho HD. simpl. lia.
  - eapply creates_bind; [apply IH; [done|lia]|].
    intros r Hr. eapply creates_ext; [by apply (ConcatExpr__create_creates D w _ V)|].
    intros rho HD. cbn [values map fst snd]. rewrite <- (side_by_side_width (k' :: kids) rho).
    simpl. by destruct (side_by_side _).
Qed.

Lemma ConcatExpr__create4_creates D V1 V2 V3 V4 k1 k2 k3 k4 :
  denotes D 8 V1 k1 -> denotes D 8 V2 k2 -> denotes D 8 V3 k3 -> denotes D 8 V4 k4 ->
  creates D 32 (fun rho => V1 rho * 2 ^ 24 + V2 rho * 2 ^ 16 + V3 rho * 2 ^ 8 + V4 rho)
    (ConcatExpr__create4 k1 k2 k3 k4).
Proof.
  intros H1 H2 H3 H4. unfold ConcatExpr__create4.
  eapply creates_bind; [by apply (ConcatExpr__create_creates D 8 8)|]. intros r Hr.
  eapply creates_bind; [by apply (ConcatExpr__create_creates D 8 16 V2 _ k2 r H2 Hr)|]. intros s Hs.
  eapply creates_ext; [by apply (ConcatExpr__create_creates D 8 24 V1 _ k1 s H1 Hs)|].
  intros. cbv beta. lia.
Qed.

Lemma ConcatExpr__create8_creates D V1 V2 V3 V4 V5 V6 V7 V8 k1 k2 k3 k4 k5 k6 k7 k8 :
  denotes D 8 V1 k1 -> denotes D 8 V2 k2 -> denotes D 8 V3 k3 -> denotes D 8 V4 k4 ->
  denotes D 8 V5 k5 -> denotes D 8 V6 k6 -> denotes D 8 V7 k7 -> denotes D 8 V8 k8 ->
  creates D 64 (fun rho => V1 rho * 2 ^ 56 + V2 rho * 2 ^ 48 + V3 rho * 2 ^ 40 + V4 rho * 2 ^ 32 +
                           (V5 rho * 2 ^ 24 + V6 rho * 2 ^ 16 + V7 rho * 2 ^ 8 + V8 rho))
    (ConcatExpr__create8 k1 k2 k3 k4 k5 k6 k7 k8).
Proof.
  intros H1 H2 H3 H4 H5 H6 H7 H8. unfold ConcatExpr__create8.
  eapply creates_bind; [by apply ConcatExpr__create4_creates|]. intros r Hr.
  eapply creates_bind; [by apply (ConcatExpr__create_creates D 8 32 V4 _ k4 r H4 Hr)|]. intros s Hs.
  eapply creates_bind; [by apply (ConcatExpr__create_creates D 8 40 V3 _ k3 s H3 Hs)|]. intros t Ht.
  eapply creates_bind; [by apply (ConcatExpr__create_creates D 8 48 V2 _ k2 t H2 Ht)|]. intros u Hu.
  eapply creates_ext; [by apply (ConcatExpr__create_creates D 8 56 V1 _ k1 u H1 Hu)|].
  intros. cbv beta. lia.
Qed.

(** ** A little-endian read of a whole value *)

Section TempRead.
Variables (a : Array) (D : assignment -> Prop).
Hypothesis Ha : wf_array a.
Hypothesis Hdom : adomain a = 32.
Hypothesis Hran : arange a = 8.

Definition byte_at (i : Z) (rho : assignment) : Z := array_value rho a i.

Lemma read_byte_creates i :
  0 <= i < 2 ^ 32 -> (isConstantArray a = true -> i < asize a) ->
  creates D 8 (byte_at i)
    (ReadExpr__create a NoUpdate (Constant (ConstantExpr__alloc i 32))).
Proof.
  intros Hi Hlt. rewrite <- Hran.
  eapply creates_ext; [eapply (ReadExpr__create_creates D a NoUpdate (fun _ => i mod 2 ^ 32));
    try done|].
  - lia.
  - rewrite Hdom. by apply denotes_alloc.
  - intros _ Hc rho HD. rewrite Z.mod_small by done. auto.
  - intros rho HD. unfold byte_at. simpl. by rewrite Z.mod_small.
Qed.

(** The bytes a read of width [w] is made of, the lowest first. *)
Definition bytes_of (n : nat) (rho : assignment) : list Z :=
  map (fun i => byte_at (Z.of_nat i) rho) (seq 0 n).

Ltac read_bytes Hin :=
  repeat (eapply creates_bind;
    [by apply read_byte_creates; [lia | intros Hc; specialize (Hin Hc); lia]|];
    let r := fresh "r" in let Hr := fresh "Hr" in intros r Hr).

Ltac read_value :=
  unfold bytes_of; cbv [seq map le_val Z.of_nat Pos.of_succ_nat Pos.succ];
  lia.

Lemma Expr__createTempRead_creates n :
  (n = 1 \/ n = 2 \/ n = 4 \/ n = 8)%nat ->
  (isConstantArray a = true -> Z.of_nat n <= asize a) ->
  creates D (8 * Z.of_nat n) (fun rho => le_val (bytes_of n rho))
    (Expr__createTempRead a (8 * Z.of_nat n)).
Proof.
  intros Hn Hin. destruct Hn as [->|[->|[->| ->]]]; unfold Expr__createTempRead; simpl Z.mul;
    cbn [Z.eqb Pos.eqb].
  - eapply creates_ext; [apply read_byte_creates; [lia|intros Hc; specialize (Hin Hc); lia]|].
    intros rho HD. read_value.
  - read_bytes Hin.
    eapply creates_ext; [by apply (ConcatExpr__create_creates D 8 8)|].
    intros rho HD. read_value.
  - read_bytes Hin. eapply creates_ext; [by apply ConcatExpr__create4_creates|].
    intros rho HD. read_value.
  - read_bytes Hin. eapply creates_ext; [by apply ConcatExpr__create8_creates|].
    intros rho HD. read_value.
Qed.

End TempRead.

End Bits.
