(* ===== verification/ExprSpec.v ===== *)
(** * What the constructors of expressions promise

    [rebuild] gives an expression new operands through the simplifying
    constructors; it covers every class of expressions.  The theorems state
    that the result is well-formed with the width of the expression it stands
    for, that it has the same value under every assignment, that the recursion
    of the constructors ends, and what happens to operands of different widths. *)

From S2P Require Import Prelude ExprData ExprCreate ExprSem ExprBool ExprArith ExprBits.

(** The expression with its operands replaced, without simplification. *)
Definition with_kids (e : Expr) (ks : list Expr) : Expr :=
  match e, ks with
  | NotOptimized _, [s] => NotOptimized s
  | Read a u _, [i] => Read a u i
  | Select _ _ _, [c; t; f] => Select c t f
  | Concat _ _, [l; r] => Concat l r
  | Extract _ off w, [x] => Extract x off w
  | ZExt _ w, [s] => ZExt s w
  | SExt _ w, [s] => SExt s w
  | Not _, [x] => Not x
  | Binary k _ _, [l; r] => Binary k l r
  | _, _ => e
  end.

(** New operands of the widths of the old ones. *)
Definition same_widths (e : Expr) (ks : list Expr) : Prop :=
  Forall2 (fun k k' => wf k' /\ getWidth k' = getWidth k) (kids e) ks.

(** The parts of an expression the constructors reject: a constant has no
    operands, the index of a read has at most 64 bits, and a division whose
    divisor is the constant zero fails an assertion when it is folded. *)
Definition buildable (e : Expr) : Prop :=
  match e with
  | Constant _ => False
  | Read a _ _ => adomain a <= 64
  | Binary k _ (Constant c) => Kind.is_div k = true -> cvalue c <> 0
  | _ => True
  end.

Section Rebuild.
Context `{ExprOptions} `{DivByZero}.

(** Under which assignments the divisor is not zero. *)
Definition divisor_ok (rho : assignment) (e : Expr) : Prop :=
  match e with
  | Binary k _ r => Kind.is_div k = true -> eval rho r <> 0
  | _ => True
  end.

Lemma with_kids_wf e ks :
  wf e -> same_widths e ks -> wf (with_kids e ks) /\ getWidth (with_kids e ks) = getWidth e.
Proof.
  intros Hwf Hks. unfold same_widths in Hks.
  destruct e; simpl in *; repeat match goal with
    | Hf : Forall2 _ (_ :: _) _ |- _ => inversion Hf; subst; clear Hf
    | Hf : Forall2 _ [] _ |- _ => inversion Hf; subst; clear Hf
    end; decompose_hyps; simpl; split_and?; try congruence; auto; try lia.
  by destruct (Kind.is_cmp k).
Qed.

(** The operands mean themselves. *)
Lemma kid_denotes D e k :
  wf e -> k ∈ kids e -> (forall rho, D rho -> inb rho e) ->
  denotes D (getWidth k) (fun rho => eval rho k) k.
Proof.
  intros Hwf Hk Hi. apply denotes_self.
  - destruct e; simpl in *; rewrite ?elem_of_cons, ?elem_of_nil in Hk; naive_solver.
  - intros rho HD Ho. specialize (Hi rho HD Ho).
    destruct e; simpl in *; rewrite ?elem_of_cons, ?elem_of_nil in Hk; naive_solver.
Qed.

Lemma rebuild_self_creates D e :
  wf e -> buildable e -> (forall rho, D rho -> inb rho e /\ divisor_ok rho e) ->
  creates D (getWidth e) (fun rho => eval rho e) (rebuild e (kids e)).
Proof.
  intros Hwf Hb HD.
  assert (Hi : forall rho, D rho -> inb rho e) by (intros; by apply HD).
  pose proof (fun k Hk => kid_denotes D e k Hwf Hk Hi) as Hk.
  destruct e as [|s|root head index|e1 e2 e3|e1 e2|e off width|e width|e width|e|k e1 e2];
    simpl in Hk; cbn [rebuild kids].
  - done.
  - apply creates_ret. by apply denotes_self.
  - destruct Hwf as (Ha & Hu & Hwi & Hd).
    specialize (Hk index ltac:(set_solver)). rewrite Hd in Hk.
    apply (ReadExpr__create_creates D root head (fun rho => eval rho index)); auto.
    + intros rho HDr Ho. by apply (Hi rho HDr Ho).
    + intros Ho Hc rho HDr. by apply (Hi rho HDr Ho).
  - destruct Hwf as (_ & _ & _ & Hw1 & Hw2).
    pose proof (Hk e1 ltac:(set_solver)) as Hc. rewrite Hw1 in Hc.
    pose proof (Hk e3 ltac:(set_solver)) as Hf. rewrite <- Hw2 in Hf.
    apply (SelectExpr__create_creates D (getWidth e2) (fun rho => eval rho e1)
             (fun rho => eval rho e2) (fun rho => eval rho e3)); auto.
    apply Hk. set_solver.
  - rewrite getWidth_Concat by done. destruct Hwf as (_ & _ & Hlt).
    apply (ConcatExpr__create_creates D (getWidth e1) (getWidth e2)
             (fun rho => eval rho e1) (fun rho => eval rho e2)); auto; apply Hk; set_solver.
  - destruct Hwf as (_ & Ho & Hw & Hle). simpl.
    apply (ExtractExpr__create_creates D (getWidth e) (fun rho => eval rho e)); auto.
    apply Hk. set_solver.
  - destruct Hwf as (Hs & Hw). pose proof (wf_getWidth e Hs) as Hp. unfold wf_width in Hp.
    eapply creates_ext;
      [apply (cast_create_creates D (getWidth e) _ e width false (Hk e ltac:(set_solver))); lia|].
    intros rho HDr. unfold cast_value. by rewrite (proj2 (Z.leb_gt _ _)) by lia.
  - destruct Hwf as (Hs & Hw). pose proof (wf_getWidth e Hs) as Hp. unfold wf_width in Hp.
    eapply creates_ext;
      [apply (cast_create_creates D (getWidth e) _ e width true (Hk e ltac:(set_solver))); lia|].
    intros rho HDr. unfold cast_value. by rewrite (proj2 (Z.leb_gt _ _)) by lia.
  - apply (NotExpr__create_creates D (getWidth e) (fun rho => eval rho e)). apply Hk. set_solver.
  - destruct Hwf as (_ & _ & Hw).
    pose proof (Hk e2 ltac:(set_solver)) as Hr. rewrite <- Hw in Hr.
    eapply creates_ext; [eapply (Binary__create_creates D (getWidth e1) _ _ k e1 e2);
      [apply Hk; set_solver | exact Hr |]|].
    + intros Hd. split; [intros rho HDr; by apply HD|]. intros c ->. by apply Hb.
    + intros rho HDr. destruct (HD rho HDr) as [_ Hdiv]. simpl in *. unfold binop_value.
      destruct (Kind.is_div k); simpl; [|done].
      by rewrite (proj2 (Z.eqb_neq _ _) (Hdiv eq_refl)).
Qed.

Lemma rebuild_with_kids e ks :
  same_widths e ks -> rebuild e ks = rebuild (with_kids e ks) (kids (with_kids e ks)).
Proof.
  intros Hks. unfold same_widths in Hks.
  destruct e; simpl in *; repeat match goal with
    | Hf : Forall2 _ (_ :: _) _ |- _ => inversion Hf; subst; clear Hf
    | Hf : Forall2 _ [] _ |- _ => inversion Hf; subst; clear Hf
    end; done.
Qed.

Lemma rebuild_creates D e ks :
  wf e -> same_widths e ks -> buildable (with_kids e ks) ->
  (forall rho, D rho -> inb rho (with_kids e ks) /\ divisor_ok rho (with_kids e ks)) ->
  creates D (getWidth e) (fun rho => eval rho (with_kids e ks)) (rebuild e ks).
Proof.
  intros Hwf Hks Hb HD. destruct (with_kids_wf e ks Hwf Hks) as [Hwf' Hw].
  rewrite rebuild_with_kids, <- Hw by done. by apply rebuild_self_creates.
Qed.

(** C2: the simplifying constructors preserve the meaning and the width of
    expressions.  For every class of expressions that has operands and every
    choice of well-formed new operands of the widths of the old ones, [rebuild]
    returns, without a failed assertion, an expression of the same width.  Its
    value is that of the operator on the new operands under every assignment
    that satisfies two conditions: the divisor of a division is not zero, and,
    when the option on constant arrays is on, the reads of constant arrays are
    inside them.  Excluded are the reads whose index has more than 64 bits and
    the divisions by the constant zero, whose folding fails an assertion. *)
Theorem rebuild_equivalent e ks :
  wf e -> same_widths e ks -> buildable (with_kids e ks) ->
  exists e', rebuild e ks = Ret e' /\ getWidth e' = getWidth e /\
    forall rho, inb rho (with_kids e ks) -> divisor_ok rho (with_kids e ks) ->
      eval rho e' = eval rho (with_kids e ks).
Proof.
  intros Hwf Hks Hb.
  destruct (rebuild_creates (fun rho => inb rho (with_kids e ks) /\ divisor_ok rho (with_kids e ks))
              e ks Hwf Hks Hb (fun _ HD => HD)) as (e' & He' & Hd).
  exists e'. split; [done|]. split; [apply Hd|]. intros. by apply Hd.
Qed.

(** C26: every class of expressions keeps its type under [rebuild]: with
    well-formed operands of the widths of the old ones the call returns, and
    the simplified expression is well-formed and has the width of the
    expression it replaces. *)
Theorem rebuild_typed e ks :
  wf e -> same_widths e ks -> buildable (with_kids e ks) ->
  exists e', rebuild e ks = Ret e' /\ wf e' /\ getWidth e' = getWidth e.
Proof.
  intros Hwf Hks Hb.
  destruct (rebuild_creates (fun rho => inb rho (with_kids e ks) /\ divisor_ok rho (with_kids e ks))
              e ks Hwf Hks Hb (fun _ HD => HD)) as (e' & He' & Hd).
  exists e'. split; [done|]. split; apply Hd.
Qed.

Lemma BCREATE_R_mismatch k pl pr cr l r :
  getWidth l <> getWidth r -> BCREATE_R k pl pr cr l r = Stop AssertFail.
Proof. intros Hne%Z.eqb_neq. unfold BCREATE_R. by rewrite Hne. Qed.

Lemma BCREATE_mismatch k cr l r :
  getWidth l <> getWidth r -> BCREATE k cr l r = Stop AssertFail.
Proof. intros Hne%Z.eqb_neq. unfold BCREATE. by rewrite Hne. Qed.

(** Operands of different widths are rejected by every binary kind. *)
Theorem binary_width_mismatch k l r :
  getWidth l <> getWidth r -> Binary__create k l r = Stop AssertFail.
Proof.
  intros Hne. pose proof (not_eq_sym Hne) as Hne'.
  destruct k; cbn [Binary__create];
    try (by apply BCREATE_R_mismatch); try (by apply BCREATE_mismatch);
    unfold AddExpr__create, SubExpr__create, NeExpr__create, EqExpr__create, add_fuel;
    rewrite ?Nat.add_succ_r; try (by apply BCREATE_R_mismatch).
  by rewrite BCREATE_R_mismatch.
Qed.

(** ** Fuel

    More fuel never changes a result: the calls are monotone in it. *)

Create HintDb fuel discriminated.

Definition le_out {A} (o o' : outcome A) : Prop := o = Stop OutOfFuel \/ o = o'.

Lemma le_out_refl {A} (o : outcome A) : le_out o o.
Proof. by right. Qed.

Lemma le_out_bind {A B} (o o' : outcome A) (f g : A -> outcome B) :
  le_out o o' -> (forall a, le_out (f a) (g a)) -> le_out (o ≫= f) (o' ≫= g).
Proof.
  intros [-> | ->] Hf; [by left|]. destruct o' as [a|]; [apply Hf | apply le_out_refl].
Qed.

Lemma le_out_ret {A} (o o' : outcome A) a : le_out o o' -> o = Ret a -> o' = Ret a.
Proof. intros [-> | ->]; [done|auto]. Qed.

Hint Resolve le_out_refl le_out_bind : fuel.

Lemma BCREATE_R_mono k pl pl' pr pr' cr cr' l r :
  (forall l c, le_out (pl l c) (pl' l c)) -> (forall c r, le_out (pr c r) (pr' c r)) ->
  (forall l r, le_out (cr l r) (cr' l r)) ->
  le_out (BCREATE_R k pl pr cr l r) (BCREATE_R k pl' pr' cr' l r).
Proof.
  intros Hl Hr Hc. apply le_out_bind; [apply le_out_refl|]. intros _.
  destruct l, r; auto using le_out_refl.
Qed.

Section Mono.
Variables add add' sub sub' : Expr -> Expr -> outcome Expr.
Hypothesis Hadd : forall l r, le_out (add l r) (add' l r).
Hypothesis Hsub : forall l r, le_out (sub l r) (sub' l r).

Hint Resolve Hadd Hsub : fuel.

Ltac mono := repeat (case_match; auto with fuel); auto with fuel.

Lemma AddExpr_createPartialR_mono c r :
  le_out (AddExpr_createPartialR add sub c r) (AddExpr_createPartialR add' sub' c r).
Proof. unfold AddExpr_createPartialR. mono. Qed.

Lemma SubExpr_createPartialR_mono c r :
  le_out (SubExpr_createPartialR add sub c r) (SubExpr_createPartialR add' sub' c r).
Proof. unfold SubExpr_createPartialR. mono. Qed.

Lemma AddExpr_create_mono l r :
  le_out (AddExpr_create add sub l r) (AddExpr_create add' sub' l r).
Proof. unfold AddExpr_create. mono. Qed.

Lemma SubExpr_create_mono l r :
  le_out (SubExpr_create add sub l r) (SubExpr_create add' sub' l r).
Proof. unfold SubExpr_create. mono. Qed.

End Mono.

Lemma addsub_fuel_mono n l r :
  le_out (AddExpr__create_fuel n l r) (AddExpr__create_fuel (S n) l r) /\
  le_out (SubExpr__create_fuel n l r) (SubExpr__create_fuel (S n) l r).
Proof.
  revert l r. induction n as [|n IH]; intros l r; [split; by left|].
  assert (Ha : forall l r, le_out (AddExpr__create_fuel n l r) (AddExpr__create_fuel (S n) l r))
    by (intros; apply IH).
  assert (Hs : forall l r, le_out (SubExpr__create_fuel n l r) (SubExpr__create_fuel (S n) l r))
    by (intros; apply IH).
  split; apply BCREATE_R_mono; intros.
  - by apply AddExpr_createPartialR_mono.
  - by apply AddExpr_createPartialR_mono.
  - by apply AddExpr_create_mono.
  - apply le_out_bind; [apply le_out_refl|]. intros. by apply AddExpr_createPartialR_mono.
  - by apply SubExpr_createPartialR_mono.
  - by apply SubExpr_create_mono.
Qed.

Lemma bits_fuel_mono n :
  (forall e off w, le_out (ExtractExpr__create_fuel n e off w) (ExtractExpr__create_fuel (S n) e off w)) /\
  (forall l r, le_out (ConcatExpr__create_fuel n l r) (ConcatExpr__create_fuel (S n) l r)).
Proof.
  induction n as [|n [IHe IHc]]; [split; by left|]. split.
  - intros e off w. remember (S n) as m eqn:Em. rewrite Em at 1.
    cbn [ExtractExpr__create_fuel]. apply le_out_bind; [apply le_out_refl|]. intros _.
    repeat (case_match; auto with fuel).
  - intros l r. remember (S n) as m eqn:Em. rewrite Em at 1.
    cbn [ConcatExpr__create_fuel]. repeat (case_match; auto with fuel).
Qed.

(** A result reached with some fuel is the result with any larger amount. *)
Lemma fuel_stable (f : nat -> outcome Expr) n m e :
  (forall n, le_out (f n) (f (S n))) -> f n = Ret e -> (n <= m)%nat -> f m = Ret e.
Proof. intros Hm Hn. induction 1 as [|m _ IH]; [done|]. by eapply le_out_ret. Qed.

(** C25: the mutually recursive constructors terminate: on well-formed operands
    sums, differences, extracts and concatenations each have one result, which
    every sufficient amount of fuel returns, and the fuel the constructors
    use, linear in the constants or concatenations at the front of the
    operands, is sufficient. *)
Theorem create_terminates l r off w :
  wf l -> wf r -> getWidth l = getWidth r -> getWidth l + getWidth r < 2 ^ 32 ->
  0 <= off -> 0 < w -> off + w <= getWidth l ->
  exists s d x c,
    (forall n, (add_fuel l r <= n)%nat -> AddExpr__create_fuel n l r = Ret s) /\
    (forall n, (add_fuel l r <= n)%nat -> SubExpr__create_fuel n l r = Ret d) /\
    (forall n, (2 * concats l + 1 <= n)%nat -> ExtractExpr__create_fuel n l off w = Ret x) /\
    (forall n, (2 * Nat.max (concats l) (concats r) + 2 <= n)%nat ->
       ConcatExpr__create_fuel n l r = Ret c).
Proof.
  intros Hl Hr Hw Hlt Ho Hw0 Hle.
  pose (D := fun rho => inb rho l /\ inb rho r).
  assert (Dl : denotes D (getWidth l) (fun rho => eval rho l) l)
    by (apply denotes_self; [done|]; by intros rho []).
  assert (Dr : denotes D (getWidth r) (fun rho => eval rho r) r)
    by (apply denotes_self; [done|]; by intros rho []).
  assert (Dr' : denotes D (getWidth l) (fun rho => eval rho r) r) by (by rewrite Hw).
  destruct (AddSubExpr__create_creates _ _ _ _ _ _ Dl Dr') as [(s & Hs & _) (d & Hd & _)].
  destruct (ExtractExpr__create_creates _ _ _ _ _ _ Dl Ho Hw0 Hle) as (x & Hx & _).
  destruct (ConcatExpr__create_creates _ _ _ _ _ _ _ Dl Dr Hlt) as (c & Hc & _).
  exists s, d, x, c. split_and!; intros n Hn.
  - by apply (fuel_stable (fun n => AddExpr__create_fuel n l r) (add_fuel l r));
      [intros; apply addsub_fuel_mono| |].
  - by apply (fuel_stable (fun n => SubExpr__create_fuel n l r) (add_fuel l r));
      [intros; apply addsub_fuel_mono| |].
  - by apply (fuel_stable (fun n => ExtractExpr__create_fuel n l off w) (2 * concats l + 1));
      [intros; apply bits_fuel_mono| |].
  - by apply (fuel_stable (fun n => ConcatExpr__create_fuel n l r)
      (2 * Nat.max (concats l) (concats r) + 2)); [intros; apply bits_fuel_mono| |].
Qed.

End Rebuild.

(** ** Instances *)

(** A symbolic array of four bytes, a byte of it, and [(3 + a[0]) - a[1]]. *)
Definition ex_array : Array := mkArray 4096 "arr" 4 32 8 [].

Definition ex_byte (i : Z) : Expr := Read ex_array NoUpdate (Constant (mkConst i 32)).

Definition ex_sum : Expr :=
  Binary Kind.Sub (Binary Kind.Add (Constant (mkConst 3 8)) (ex_byte 0)) (ex_byte 1).

Definition ex_options : ExprOptions := {| ConstArrayOpt := true |}.

Definition ex_divz : DivByZero := fun _ _ _ => 0.

Lemma ex_sum_wf : wf ex_sum.
Proof. cbn. unfold wf_array, wf_const, wf_width. cbn. repeat split; auto; lia. Qed.

Lemma ex_sum_same : same_widths ex_sum (kids ex_sum).
Proof.
  pose proof ex_sum_wf as (Hl & Hr & _).
  apply Forall2_cons. split; [done|]. apply Forall2_cons. split; [done|]. constructor.
Qed.

Lemma rebuild_equivalent_witness :
  exists e', @rebuild ex_options ex_sum (kids ex_sum) = Ret e' /\ getWidth e' = getWidth ex_sum /\
    forall rho, @inb ex_options ex_divz rho ex_sum ->
      @divisor_ok ex_divz rho ex_sum ->
      @eval ex_divz rho e' = @eval ex_divz rho ex_sum.
Proof.
  exact (@rebuild_equivalent ex_options ex_divz ex_sum (kids ex_sum) ex_sum_wf ex_sum_same I).
Defined.

Lemma rebuild_typed_witness :
  exists e', @rebuild ex_options ex_sum (kids ex_sum) = Ret e' /\ wf e' /\
    getWidth e' = getWidth ex_sum.
Proof.
  exact (@rebuild_typed ex_options ex_divz ex_sum (kids ex_sum) ex_sum_wf ex_sum_same I).
Defined.

(** The constant is moved to the front: [3 + (a[0] - a[1])]. *)
Example ex_sum_rebuilt :
  @rebuild ex_options ex_sum (kids ex_sum) =
  Ret (Binary Kind.Add (Constant (mkConst 3 8))
         (Binary Kind.Sub (ex_byte 0) (ex_byte 1))).
Proof. vm_compute. reflexivity. Qed.

Lemma binary_width_mismatch_witness :
  @Binary__create ex_options Kind.Ult (ex_byte 0) (Constant (mkConst 0 32)) = Stop AssertFail.
Proof.
  apply (@binary_width_mismatch ex_options Kind.Ult (ex_byte 0) (Constant (mkConst 0 32))).
  discriminate.
Defined.

Lemma create_terminates_witness :
  exists s d x c,
    (forall n, (add_fuel ex_sum ex_sum <= n)%nat ->
      @AddExpr__create_fuel ex_options n ex_sum ex_sum = Ret s) /\
    (forall n, (add_fuel ex_sum ex_sum <= n)%nat ->
      @SubExpr__create_fuel ex_options n ex_sum ex_sum = Ret d) /\
    (forall n, (2 * concats ex_sum + 1 <= n)%nat -> ExtractExpr__create_fuel n ex_sum 2 4 = Ret x) /\
    (forall n, (2 * Nat.max (concats ex_sum) (concats ex_sum) + 2 <= n)%nat ->
       ConcatExpr__create_fuel n ex_sum ex_sum = Ret c).
Proof.
  refine (@create_terminates ex_options ex_divz ex_sum ex_sum 2 4 ex_sum_wf ex_sum_wf eq_refl _ _ _ _);
    [exact eq_refl | discriminate | exact eq_refl | discriminate].
Defined.
