(* ===== verification/ExprOrder.v ===== *)
(** * Hash values and the structural order of expressions

    [computeHash] of every class and [Expr::compare], which orders expressions
    by kind, hash, contents and operands.  The order is shown total by an
    injective serialisation: comparing two expressions is comparing their
    serialisations lexicographically.  The set of pairs already found equal,
    which [compare] keeps while it runs, and the shortcuts on identical
    addresses only save work and are not modelled. *)

From S2P Require Import Prelude ExprData.

(** ** Lexicographic comparison *)

(** Continue with the second comparison when the first finds no difference. *)
Definition lex (c d : comparison) : comparison := match c with Eq => d | _ => c end.

Fixpoint lcmp (x y : list Z) : comparison :=
  match x, y with
  | [], [] => Eq
  | [], _ :: _ => Lt
  | _ :: _, [] => Gt
  | a :: x', b :: y' => lex (a ?= b) (lcmp x' y')
  end.

Lemma lex_assoc a b c : lex (lex a b) c = lex a (lex b c).
Proof. by destruct a. Qed.

Lemma lcmp_refl x : lcmp x x = Eq.
Proof. induction x as [|a x IH]; [done|]. simpl. by rewrite Z.compare_refl. Qed.

Lemma lcmp_antisym x y : lcmp y x = CompOpp (lcmp x y).
Proof.
  revert y. induction x as [|a x IH]; intros [|b y]; try done. simpl.
  rewrite (Z.compare_antisym a b), IH. by destruct (a ?= b).
Qed.

Lemma lcmp_trans x y z : lcmp x y = Lt -> lcmp y z = Lt -> lcmp x z = Lt.
Proof.
  revert y z. induction x as [|a x IH]; intros [|b y] [|c z]; try done. simpl.
  destruct (Z.compare_spec a b), (Z.compare_spec b c), (Z.compare_spec a c);
    simpl; try done; try lia. eauto.
Qed.

(** ** Hash values *)

Definition MAGIC_HASH_CONSTANT : Z := 39.

Section Order.

(** [llvm::hash_value], used for constants of more than 64 bits. *)
Variable hash_value : ConstantExpr -> Z.

(** A [char] is signed. *)
Fixpoint name_hash (s : string) (res : Z) : Z :=
  match s with
  | EmptyString => res
  | String c s' =>
      name_hash s' (u32 (res * MAGIC_HASH_CONSTANT + s8 (Z.of_N (Ascii.N_of_ascii c))))
  end.

Definition ConstantExpr__computeHash (c : ConstantExpr) : Z :=
  let w39 := u32 (cwidth c * MAGIC_HASH_CONSTANT) in
  if cwidth c <=? 64 then u32 (Z.lxor (Z.min (cvalue c) (2 ^ 64 - 1)) w39)
  else u32 (Z.lxor (hash_value c) w39).

(** One round of [Expr::computeHash]. *)
Definition hash_kid (res h : Z) : Z :=
  Z.lxor (u32 (Z.shiftl res 1)) (u32 (h * MAGIC_HASH_CONSTANT)).

Fixpoint hash (e : Expr) : Z :=
  match e with
  | Constant c => ConstantExpr__computeHash c
  | NotOptimized s => hash_kid (u32 (1 * MAGIC_HASH_CONSTANT)) (hash s)
  | Read a u i =>
      let uh := name_hash (aname a) 0 in
      Z.lxor (u32 (hash i * MAGIC_HASH_CONSTANT))
        (match u with NoUpdate => uh | Update _ _ _ => Z.lxor uh (hash_upd u) end)
  | Select c t f =>
      hash_kid (hash_kid (hash_kid (u32 (4 * MAGIC_HASH_CONSTANT)) (hash c)) (hash t)) (hash f)
  | Concat l r => hash_kid (hash_kid (u32 (5 * MAGIC_HASH_CONSTANT)) (hash l)) (hash r)
  | Extract x off w =>
      Z.lxor (Z.lxor (u32 (off * MAGIC_HASH_CONSTANT)) (u32 (w * MAGIC_HASH_CONSTANT)))
        (u32 (hash x * MAGIC_HASH_CONSTANT))
  | ZExt s w | SExt s w =>
      Z.lxor (u32 (w * MAGIC_HASH_CONSTANT)) (u32 (hash s * MAGIC_HASH_CONSTANT))
  | Not x => u32 (hash x * MAGIC_HASH_CONSTANT * 9)
  | Binary k l r =>
      hash_kid (hash_kid (u32 (Kind.num k * MAGIC_HASH_CONSTANT)) (hash l)) (hash r)
  end
with hash_upd (u : UpdateNode) : Z :=
  match u with
  | NoUpdate => 0
  | Update i v n =>
      match n with
      | NoUpdate => Z.lxor (hash i) (hash v)
      | Update _ _ _ => Z.lxor (Z.lxor (hash i) (hash v)) (hash_upd n)
      end
  end.

(** ** The order *)

(** Names first, then addresses. *)
Definition root_compare (a b : Array) : comparison :=
  lex (String.compare (aname a) (aname b)) (aaddr a ?= aaddr b).

Fixpoint compare (a b : Expr) {struct a} : comparison :=
  lex (getKind a ?= getKind b)
    (lex (hash a ?= hash b)
       (match a, b with
        | Constant c, Constant d => lex (cwidth c ?= cwidth d) (cvalue c ?= cvalue d)
        | NotOptimized s, NotOptimized s' => compare s s'
        | Read ra u i, Read rb v j =>
            lex (root_compare ra rb)
              (lex (Z.of_nat (getSize u) ?= Z.of_nat (getSize v))
                 (lex (compare_upd u v) (compare i j)))
        | Select c t f, Select c' t' f' => lex (compare c c') (lex (compare t t') (compare f f'))
        | Concat l r, Concat l' r' =>
            lex (getWidth a ?= getWidth b) (lex (compare l l') (compare r r'))
        | Extract x off w, Extract x' off' w' =>
            lex (off ?= off') (lex (w ?= w') (compare x x'))
        | ZExt s w, ZExt s' w' => lex (w ?= w') (compare s s')
        | SExt s w, SExt s' w' => lex (w ?= w') (compare s s')
        | Not x, Not x' => compare x x'
        | Binary _ l r, Binary _ l' r' => lex (compare l l') (compare r r')
        | _, _ => Eq
        end))
with compare_upd (u v : UpdateNode) {struct u} : comparison :=
  match u, v with
  | Update i x n, Update j y m => lex (compare i j) (lex (compare x y) (compare_upd n m))
  | _, _ => Eq
  end.

(** ** Serialisation *)

Fixpoint name_key (s : string) : list Z :=
  match s with
  | EmptyString => [0]
  | String c s' => Z.of_N (Ascii.N_of_ascii c) + 1 :: name_key s'
  end.

Fixpoint key (e : Expr) : list Z :=
  getKind e :: hash e ::
  match e with
  | Constant c => [cwidth c; cvalue c]
  | NotOptimized s => key s
  | Read a u i => name_key (aname a) ++ aaddr a :: Z.of_nat (getSize u) :: key_upd u ++ key i
  | Select c t f => key c ++ key t ++ key f
  | Concat l r => getWidth e :: key l ++ key r
  | Extract x off w => off :: w :: key x
  | ZExt s w | SExt s w => w :: key s
  | Not x => key x
  | Binary _ l r => key l ++ key r
  end
with key_upd (u : UpdateNode) : list Z :=
  match u with
  | NoUpdate => []
  | Update i v n => key i ++ key v ++ key_upd n
  end.

Lemma name_key_compare s t x y :
  lcmp (name_key s ++ x) (name_key t ++ y) = lex (String.compare s t) (lcmp x y).
Proof.
  revert t. induction s as [|c s IH]; intros [|d t]; cbn [name_key app lcmp String.compare].
  - done.
  - by rewrite (proj2 (Z.compare_lt_iff _ _)) by lia.
  - by rewrite (proj2 (Z.compare_gt_iff _ _)) by lia.
  - rewrite IH, !(Z.add_comm _ 1), Z.add_compare_mono_l, N2Z.inj_compare. unfold Ascii.compare.
    by destruct (_ ?= _)%N.
Qed.

(** Binary kinds have distinct numbers, different from the other classes. *)
Lemma Kind_num_inj k k' : Kind.num k = Kind.num k' -> k = k'.
Proof. destruct k, k'; done. Qed.

Lemma Kind_num_range k : 10 <= Kind.num k <= 32.
Proof. destruct k; simpl; lia. Qed.

Lemma key_compare_kinds a b x y :
  getKind a <> getKind b -> lcmp (key a ++ x) (key b ++ y) = lex (compare a b) (lcmp x y).
Proof.
  intros Hk. assert (Hc : (getKind a ?= getKind b) <> Eq) by (by rewrite Z.compare_eq_iff).
  assert (Hl : lcmp (key a ++ x) (key b ++ y) = (getKind a ?= getKind b)).
  { destruct a, b; cbn [key app lcmp]; destruct (_ ?= _); done. }
  assert (Hr : compare a b = (getKind a ?= getKind b)).
  { destruct a; cbn [compare]; destruct (_ ?= _); done. }
  rewrite Hl, Hr. by destruct (_ ?= _).
Qed.

(** Comparing two expressions is comparing their serialisations. *)
Lemma key_compare :
  (forall a b x y, lcmp (key a ++ x) (key b ++ y) = lex (compare a b) (lcmp x y)) /\
  (forall u v x y, getSize u = getSize v ->
    lcmp (key_upd u ++ x) (key_upd v ++ y) = lex (compare_upd u v) (lcmp x y)).
Proof.
  apply Expr_UpdateNode_ind.
  11: { intros [|j w m]; [done|discriminate]. }
  11: { intros i IHi v IHv n IHn [|j w m] x y Hs; [discriminate|]. injection Hs as Hs. simpl.
        rewrite <- !app_assoc, IHi, IHv, IHn by done. by rewrite !lex_assoc. }
  all: intros; match goal with |- lcmp (key ?a ++ _) (key ?b ++ _) = _ =>
      destruct (Z.eq_dec (getKind a) (getKind b)) as [Hk|Hk]; [|by apply key_compare_kinds];
      destruct b; simpl in Hk; try (exfalso; lia);
      try (match goal with k : Kind.t |- _ => exfalso; pose proof (Kind_num_range k); lia end)
    end; cbn [key app compare lcmp getKind]; rewrite ?lex_assoc; apply (f_equal (lex _)), (f_equal (lex _)).
  3: { rewrite <- !app_assoc, name_key_compare. unfold root_compare. rewrite lex_assoc.
       cbn [app lcmp]. do 2 apply (f_equal (lex _)).
       destruct (Z.compare_spec (Z.of_nat (getSize head)) (Z.of_nat (getSize head0))) as [Hs| |];
         simpl; try done.
       rewrite <- !app_assoc, H, H0 by lia. done. }
  all: rewrite <- ?app_assoc;
    repeat match goal with IH : forall b x y, lcmp _ _ = _ |- _ => rewrite IH; clear IH end;
    done.
Qed.

Lemma compare_key a b : compare a b = lcmp (key a) (key b).
Proof.
  pose proof (proj1 key_compare a b [] []) as Hk. rewrite !app_nil_r in Hk. rewrite Hk.
  by destruct (compare a b).
Qed.

(** ** Equality

    Every array is the one its address refers to. *)
Section Heap.
Variable heap : Z -> Array.

Fixpoint in_heap (e : Expr) : Prop :=
  match e with
  | Constant _ => True
  | NotOptimized s => in_heap s
  | Read a u i => heap (aaddr a) = a /\ in_heap_upd u /\ in_heap i
  | Select c t f => in_heap c /\ in_heap t /\ in_heap f
  | Concat l r => in_heap l /\ in_heap r
  | Extract x _ _ => in_heap x
  | ZExt s _ => in_heap s
  | SExt s _ => in_heap s
  | Not x => in_heap x
  | Binary _ l r => in_heap l /\ in_heap r
  end
with in_heap_upd (u : UpdateNode) : Prop :=
  match u with
  | NoUpdate => True
  | Update i v n => in_heap i /\ in_heap v /\ in_heap_upd n
  end.

Lemma lex_Eq c d : lex c d = Eq <-> c = Eq /\ d = Eq.
Proof. destruct c; simpl; naive_solver. Qed.

Lemma compare_Eq :
  (forall a b, in_heap a -> in_heap b -> compare a b = Eq -> a = b) /\
  (forall u v, in_heap_upd u -> in_heap_upd v -> getSize u = getSize v ->
    compare_upd u v = Eq -> u = v).
Proof.
  apply Expr_UpdateNode_ind.
  11: { by intros [|]. }
  11: { intros i IHi v IHv n IHn [|j w m] Hu Hv Hs; [done|].
        destruct Hu as (?&?&?), Hv as (?&?&?). injection Hs as Hs. simpl.
        rewrite !lex_Eq. intros (?&?&?). f_equal; auto. }
  all: intros; match goal with Hc : compare ?a ?b = Eq |- _ =>
      cbn [compare] in Hc; rewrite ?lex_Eq in Hc; destruct Hc as (Hk & _ & Hc);
      apply Z.compare_eq_iff in Hk;
      destruct b; simpl in Hk, Hc; try (exfalso; lia);
      try (match goal with k : Kind.t |- _ => exfalso; pose proof (Kind_num_range k); lia end)
    end; simpl in *; rewrite ?lex_Eq, ?Z.compare_eq_iff in *; decompose_hyps;
    try (f_equal; by auto).
  - destruct c, c0. simpl in *. congruence.
  - unfold root_compare in *. rewrite lex_Eq, Z.compare_eq_iff in *. decompose_hyps.
    f_equal; [congruence| |by auto]. match goal with IH : forall v, in_heap_upd _ -> _ |- _ => apply IH end; auto. lia.
  - f_equal; auto. by apply Kind_num_inj.
Qed.

End Heap.

End Order.

(** C28: [Expr::compare] is a total order whose equality is structural
    equality, whatever the hash of wide constants is: it returns 0 exactly on
    equal expressions (arrays being equal when their addresses are), it is
    antisymmetric, and it is transitive. *)
Theorem compare_total_order hash_value heap a b c :
  in_heap heap a -> in_heap heap b ->
  (compare hash_value a b = Eq <-> a = b) /\
  compare hash_value b a = CompOpp (compare hash_value a b) /\
  (compare hash_value a b = Lt -> compare hash_value b c = Lt -> compare hash_value a c = Lt).
Proof.
  intros Ha Hb. rewrite !(compare_key hash_value). split_and!.
  - split; [|intros ->; apply lcmp_refl]. rewrite <- compare_key.
    by apply (proj1 (compare_Eq hash_value heap)).
  - apply lcmp_antisym.
  - apply lcmp_trans.
Qed.

(** An array of one byte read at two indices. *)
Definition ex_heap (p : Z) : Array := mkArray p "a" 1 32 8 [].

Definition ex_read (i : Z) : Expr := Read (ex_heap 8) NoUpdate (Constant (mkConst i 32)).

Lemma compare_total_order_witness :
  (compare cvalue (ex_read 0) (ex_read 1) = Eq <-> ex_read 0 = ex_read 1) /\
  compare cvalue (ex_read 1) (ex_read 0) = CompOpp (compare cvalue (ex_read 0) (ex_read 1)) /\
  (compare cvalue (ex_read 0) (ex_read 1) = Lt -> compare cvalue (ex_read 1) (ex_read 0) = Lt ->
   compare cvalue (ex_read 0) (ex_read 0) = Lt).
Proof.
  exact (compare_total_order cvalue ex_heap (ex_read 0) (ex_read 1) (ex_read 0)
    (conj eq_refl (conj I I)) (conj eq_refl (conj I I))).
Defined.
