(* ===== verification/ExprHeap.v ===== *)
(** * The arrays of an expression

    Expressions are built over the arrays of a heap, an array being found at
    its address.  The simplifying constructors introduce no array of their
    own and build no division that they would have simplified: what they
    return is [built] over the same heap as their arguments.  The file also
    makes the expressions a countable type, so that they can be the keys of
    finite maps and sets. *)

From S2P Require Import Prelude ExprData ExprCreate ExprOrder.

(** ** Expressions as keys *)

#[global] Instance UpdateNode_eqdec : EqDecision UpdateNode := UpdateNode_eq_dec.

#[global] Instance ConstantExpr_countable : Countable ConstantExpr.
Proof.
  apply (inj_countable' (fun c => (cvalue c, cwidth c)) (fun p => mkConst p.1 p.2)).
  by intros [].
Defined.

#[global] Instance Array_countable : Countable Array.
Proof.
  apply (inj_countable'
    (fun a => (aaddr a, aname a, asize a, adomain a, arange a, aconstantValues a))
    (fun p => let '(ad, n, s, d, r, vs) := p in mkArray ad n s d r vs)).
  by intros [].
Defined.

#[global] Instance Kind_countable : Countable Kind.t.
Proof.
  apply (inj_countable Kind.num (fun z => find (fun k => Kind.num k =? z)
    [Kind.Add; Kind.Sub; Kind.Mul; Kind.UDiv; Kind.SDiv; Kind.URem; Kind.SRem;
     Kind.And; Kind.Or; Kind.Xor; Kind.Shl; Kind.LShr; Kind.AShr; Kind.Eq;
     Kind.Ne; Kind.Ult; Kind.Ule; Kind.Ugt; Kind.Uge; Kind.Slt; Kind.Sle;
     Kind.Sgt; Kind.Sge])).
  by intros [].
Defined.

Definition leaf : Type := (Z + ConstantExpr + Array + Kind.t)%type.

(** An expression as a generic tree, the class of a node by its number. *)
Fixpoint to_tree (e : Expr) : gen_tree leaf :=
  let num z := GenLeaf (inl (inl (inl z))) in
  match e with
  | Constant c => GenLeaf (inl (inl (inr c)))
  | NotOptimized s => GenNode 1 [to_tree s]
  | Read a u i => GenNode 2 [GenLeaf (inl (inr a)); upd_to_tree u; to_tree i]
  | Select c t f => GenNode 3 [to_tree c; to_tree t; to_tree f]
  | Concat l r => GenNode 4 [to_tree l; to_tree r]
  | Extract x off w => GenNode 5 [to_tree x; num off; num w]
  | ZExt s w => GenNode 6 [to_tree s; num w]
  | SExt s w => GenNode 7 [to_tree s; num w]
  | Not x => GenNode 8 [to_tree x]
  | Binary k l r => GenNode 9 [GenLeaf (inr k); to_tree l; to_tree r]
  end
with upd_to_tree (u : UpdateNode) : gen_tree leaf :=
  match u with
  | NoUpdate => GenNode 10 []
  | Update i v n => GenNode 11 [to_tree i; to_tree v; upd_to_tree n]
  end.

Fixpoint of_tree (t : gen_tree leaf) : Expr :=
  match t with
  | GenLeaf (inl (inl (inr c))) => Constant c
  | GenNode 1 [s] => NotOptimized (of_tree s)
  | GenNode 2 [GenLeaf (inl (inr a)); u; i] => Read a (upd_of_tree u) (of_tree i)
  | GenNode 3 [c; t; f] => Select (of_tree c) (of_tree t) (of_tree f)
  | GenNode 4 [l; r] => Concat (of_tree l) (of_tree r)
  | GenNode 5 [x; GenLeaf (inl (inl (inl off))); GenLeaf (inl (inl (inl w)))] =>
      Extract (of_tree x) off w
  | GenNode 6 [s; GenLeaf (inl (inl (inl w)))] => ZExt (of_tree s) w
  | GenNode 7 [s; GenLeaf (inl (inl (inl w)))] => SExt (of_tree s) w
  | GenNode 8 [x] => Not (of_tree x)
  | GenNode 9 [GenLeaf (inr k); l; r] => Binary k (of_tree l) (of_tree r)
  | _ => Constant (mkConst 0 0)
  end
with upd_of_tree (t : gen_tree leaf) : UpdateNode :=
  match t with
  | GenNode 11 [i; v; n] => Update (of_tree i) (of_tree v) (upd_of_tree n)
  | _ => NoUpdate
  end.

Lemma of_to_tree :
  (forall e, of_tree (to_tree e) = e) /\ (forall u, upd_of_tree (upd_to_tree u) = u).
Proof. apply Expr_UpdateNode_ind; simpl; intros; congruence. Qed.

#[global] Instance Expr_countable : Countable Expr.
Proof. apply (inj_countable' to_tree of_tree), of_to_tree. Defined.

(** ** Expressions as the constructors build them *)

(** Every array is at its address, and no division is one that the
    constructors fold: of one bit, or by the constant 0. *)
Fixpoint built (heap : Z -> Array) (e : Expr) : Prop :=
  match e with
  | Constant _ => True
  | NotOptimized s => built heap s
  | Read a u i => heap (aaddr a) = a /\ built_upd heap u /\ built heap i
  | Select c t f => built heap c /\ built heap t /\ built heap f
  | Concat l r => built heap l /\ built heap r
  | Extract x _ _ => built heap x
  | ZExt s _ => built heap s
  | SExt s _ => built heap s
  | Not x => built heap x
  | Binary k l r =>
      (Kind.is_div k = true -> getWidth l <> 1 /\ forall c, r = Constant c -> cvalue c <> 0) /\
      built heap l /\ built heap r
  end
with built_upd (heap : Z -> Array) (u : UpdateNode) : Prop :=
  match u with
  | NoUpdate => True
  | Update i v n => built heap i /\ built heap v /\ built_upd heap n
  end.

Lemma built_in_heap heap :
  (forall e, built heap e -> in_heap heap e) /\ (forall u, built_upd heap u -> in_heap_upd heap u).
Proof. apply Expr_UpdateNode_ind; simpl; naive_solver. Qed.

(** Every expression a call returns satisfies [Q]. *)
Definition returns {A} (Q : A -> Prop) (o : outcome A) : Prop := forall a, o = Ret a -> Q a.

Lemma returns_value {A} (Q : A -> Prop) a : Q a -> returns Q (Ret a).
Proof. by intros ? ? [= ->]. Qed.

Lemma returns_then {A B} (P : A -> Prop) (Q : B -> Prop) (o : outcome A) f :
  returns P o -> (forall a, P a -> returns Q (f a)) -> returns Q (o ≫= f).
Proof. intros Ho Hf b (a & Ha & Hb)%outcome_bind_ret. by eapply Hf; [apply Ho|]. Qed.

(** A step whose value does not matter: an assertion, an operation on
    constants. *)
Lemma returns_seq {A B} (Q : B -> Prop) (o : outcome A) f :
  (forall a, returns Q (f a)) -> returns Q (o ≫= f).
Proof. intros Hf. by apply (returns_then (fun _ => True)). Qed.

Section Closed.
Context `{ExprOptions}.
Variable heap : Z -> Array.

Abbreviation closed := (built heap).
Abbreviation closes := (returns (built heap)).

Lemma returns_fold k cl cr : closes (fold k cl cr).
Proof. intros e. unfold fold, ConstantExpr__op. case_match; intros; by simplify_eq/=. Qed.

Lemma BCREATE_R_closed k pl pr cr l r :
  closed l -> closed r -> (forall c, closes (pl l c)) -> (forall c, closes (pr c r)) ->
  closes (cr l r) -> closes (BCREATE_R k pl pr cr l r).
Proof.
  intros Hl Hr Hpl Hpr Hcr. unfold BCREATE_R. apply returns_seq. intros _.
  destruct l, r; auto using returns_fold.
Qed.

Lemma BCREATE_closed k cr l r :
  closes (cr l r) -> closes (BCREATE k cr l r).
Proof.
  intros Hcr. unfold BCREATE. apply returns_seq. intros _.
  destruct l, r; auto using returns_fold.
Qed.

Ltac closed_step :=
  match goal with
  | |- closes (Ret _) => apply returns_value; first [assumption | simpl in *; intuition discriminate]
  | |- closes (Stop _) => by intros ?
  | |- closes (fold _ _ _) => apply returns_fold
  | |- closes (assertM _ ≫= _) => apply returns_seq; intros _
  | |- closes (ConstantExpr__op _ _ _ ≫= _) => apply returns_seq; intros ?
  | |- closes (if ?b then _ else _) => destruct b
  | |- closes (BCREATE_R _ _ _ _ _ _) => apply BCREATE_R_closed; [done|done|intros ?|intros ?|]
  | |- closes (BCREATE _ _ _ _) => apply BCREATE_closed
  end.

Lemma AndExpr__create_closed l r : closed l -> closed r -> closes (AndExpr__create l r).
Proof.
  intros. unfold AndExpr__create.
  closed_step; unfold AndExpr_createPartialR, AndExpr_createPartial, AndExpr_create; repeat closed_step.
Qed.

Lemma OrExpr__create_closed l r : closed l -> closed r -> closes (OrExpr__create l r).
Proof.
  intros. unfold OrExpr__create.
  closed_step; unfold OrExpr_createPartialR, OrExpr_createPartial, OrExpr_create; repeat closed_step.
Qed.

Lemma EqExpr_create_closed l r : closed l -> closed r -> closes (EqExpr_create l r).
Proof. intros. unfold EqExpr_create. repeat closed_step. Qed.

Lemma EqExpr__create_const_closed pr l c :
  (forall c, closes (pr c l)) -> closes (EqExpr__create_const pr l c).
Proof. intros. unfold EqExpr__create_const. closed_step. destruct l; auto using returns_fold. Qed.

Lemma TryConstArrayOpt_loop_closed eq cl rd a iw vs i n res :
  (forall c, closes (eq c)) -> closed rd -> closed res ->
  closes (TryConstArrayOpt_loop eq cl rd a iw vs i n res).
Proof.
  intros Heq Hrd. revert i n res. induction vs as [|v vs IH]; intros i n res Hres; simpl; [by closed_step|].
  closed_step; [|by auto]. closed_step; [by apply EqExpr_create_closed|].
  eapply returns_then; [apply Heq|]. intros m Hm.
  eapply returns_then; [by apply OrExpr__create_closed|]. auto.
Qed.

Lemma EqExpr_createPartialR_closed r : forall c, closed r -> closes (EqExpr_createPartialR c r).
Proof.
  assert (Ho : forall c r, closed r -> closes (EqExpr_create (Constant c) r))
    by (intros; by apply EqExpr_create_closed).
  revert r. apply (Expr_mut (fun r => forall c, closed r -> closes (EqExpr_createPartialR c r))
                     (fun _ => True)); try done.
  all: intros; match goal with |- closes (EqExpr_createPartialR ?cc _) =>
      cbn [EqExpr_createPartialR]; destruct (cwidth cc =? 1); [closed_step; [by closed_step|]|] end;
    try (by apply Ho).
  - (* Read *)
    closed_step; [|by apply Ho].
    match goal with Hr : closed (Read _ _ _) |- _ => pose proof Hr as (_ & _ & Hi) end.
    unfold TryConstArrayOpt_with. closed_step; [by apply Ho|].
    apply TryConstArrayOpt_loop_closed; auto.
    intros. apply EqExpr__create_const_closed. auto.
  - (* ZExt *)
    closed_step; [|by closed_step]. apply EqExpr__create_const_closed. auto.
  - (* SExt *)
    closed_step; [|by closed_step]. apply EqExpr__create_const_closed. auto.
  - (* Binary, one bit *)
    pose proof H2 as (_ & Hl & Hr). destruct k; try (apply Ho; done).
    + eapply returns_then; [apply EqExpr__create_const_closed; auto|]. intros a Ha.
      eapply returns_then; [apply EqExpr__create_const_closed; auto|]. intros b Hb.
      by apply AndExpr__create_closed.
    + destruct left; try (apply Ho; done). closed_step; [by closed_step|]. by apply Ho.
  - (* Binary *)
    pose proof H2 as (_ & Hl & Hr). destruct k; try (apply Ho; done);
      destruct left; try (apply Ho; done); repeat closed_step; auto.
Qed.

Lemma EqExpr__create_closed l r : closed l -> closed r -> closes (EqExpr__create l r).
Proof.
  intros. unfold EqExpr__create. closed_step.
  - by apply EqExpr_createPartialR_closed.
  - by apply EqExpr_createPartialR_closed.
  - by apply EqExpr_create_closed.
Qed.

Lemma Expr__createIsZero_closed e : closed e -> closes (Expr__createIsZero e).
Proof. intros. by apply EqExpr__create_closed. Qed.

Lemma NeExpr__create_closed l r : closed l -> closed r -> closes (NeExpr__create l r).
Proof.
  intros. eapply returns_then; [by apply EqExpr__create_closed|]. intros.
  by apply EqExpr__create_closed.
Qed.

Lemma XorExpr_createPartialR_closed c r : closed r -> closes (XorExpr_createPartialR c r).
Proof.
  intros. unfold XorExpr_createPartialR. repeat closed_step. by apply EqExpr_createPartialR_closed.
Qed.

(** The case analysis that sums and differences make on an operand. *)
Lemma addsub_operand (Q : outcome Expr -> Prop) e fa fs d :
  (forall k a, e = Binary Kind.Add (Constant k) a -> Q (fa k a)) ->
  (forall k a, e = Binary Kind.Sub (Constant k) a -> Q (fs k a)) -> Q d ->
  Q (match e with
     | Binary Kind.Add (Constant k) a => fa k a
     | Binary Kind.Sub (Constant k) a => fs k a
     | _ => d
     end).
Proof.
  intros Ha Hs Hd. destruct e as [| | | | | | | | |k x y]; auto. destruct k; auto; destruct x; auto.
Qed.

Ltac addsub_calls IHa IHs :=
  intros; subst; simpl in *;
  eapply returns_then; [(apply IHa || apply IHs); simpl in *; tauto|]; intros;
  (apply IHa || apply IHs); simpl in *; tauto.

(** Sums and differences call each other: both at once, by the fuel. *)
Lemma addsub_closed n :
  (forall l r, closed l -> closed r -> closes (AddExpr__create_fuel n l r)) /\
  (forall l r, closed l -> closed r -> closes (SubExpr__create_fuel n l r)).
Proof.
  induction n as [|n [IHa IHs]]; [by split; intros; intros ?|].
  assert (Hadd : forall c r, closed r -> closes (AddExpr_createPartialR
    (AddExpr__create_fuel n) (SubExpr__create_fuel n) c r)).
  { intros c r Hr. unfold AddExpr_createPartialR.
    closed_step; [by apply XorExpr_createPartialR_closed|]. closed_step; [by closed_step|].
    repeat (case_match; try (by closed_step)); subst; destruct Hr as (_ & _ & Hr);
      (eapply returns_then; [apply IHa; done|]); auto. }
  split; intros l r Hl Hr; cbn [AddExpr__create_fuel SubExpr__create_fuel];
    (apply BCREATE_R_closed; [done|done|intros c|intros c|]).
  - by apply Hadd.
  - by apply Hadd.
  - unfold AddExpr_create, XorExpr_create. closed_step; [by closed_step|].
    apply addsub_operand; [addsub_calls IHa IHs..|].
    apply addsub_operand; [addsub_calls IHa IHs..|by closed_step].
  - unfold SubExpr_createPartial. closed_step. by apply Hadd.
  - unfold SubExpr_createPartialR. closed_step; [by apply XorExpr_createPartialR_closed|].
    repeat (case_match; try (by closed_step)); subst; destruct Hr as (_ & _ & Hr);
      (eapply returns_then; [apply IHs; done|]); auto.
  - unfold SubExpr_create, XorExpr_create. closed_step; [by closed_step|]. closed_step; [by closed_step|].
    apply addsub_operand; [addsub_calls IHa IHs..|].
    apply addsub_operand; [addsub_calls IHa IHs..|by closed_step].
Qed.

Ltac one_bit_closed :=
  closed_step; [|by closed_step];
  eapply returns_then; [by apply Expr__createIsZero_closed|]; intros;
  first [by apply AndExpr__create_closed | by apply OrExpr__create_closed].

Lemma Binary__create_closed k l r :
  Kind.is_div k = false -> closed l -> closed r -> closes (Binary__create k l r).
Proof.
  intros Hk Hl Hr. destruct k; try done; cbn [Binary__create]; try closed_step.
  all: unfold ShlExpr_create, LShrExpr_create, AShrExpr_create, UltExpr_create, UleExpr_create, SltExpr_create, SleExpr_create;
    try (by repeat closed_step); try one_bit_closed.
  - by apply addsub_closed.
  - by apply addsub_closed.
  - unfold MulExpr__create. closed_step.
    all: unfold MulExpr_createPartial, MulExpr_createPartialR, MulExpr_create, AndExpr_createPartialR,
      AndExpr_createPartial; repeat closed_step.
  - by apply AndExpr__create_closed.
  - by apply OrExpr__create_closed.
  - unfold XorExpr__create, XorExpr_create. closed_step; [by apply XorExpr_createPartialR_closed..|by closed_step].
  - by apply EqExpr__create_closed.
  - by apply NeExpr__create_closed.
Qed.

Lemma ReadExpr__create_closed a u i :
  heap (aaddr a) = a -> built_upd heap u -> closed i -> closes (ReadExpr__create a u i).
Proof.
  intros Ha Hu Hi. unfold ReadExpr__create.
  apply (returns_then (fun r => match r with Found v => closed v | Stopped un _ => built_upd heap un end)).
  - revert Hu. induction u as [|ui uv n IHn] using UpdateNode_chain_ind; intros Hu; simpl.
    + by apply returns_value.
    + destruct Hu as (? & ? & ?). apply returns_seq. intros cond.
      destruct cond; try (by apply returns_value). case_match; [by apply returns_value|]. auto.
  - intros [v|un sym] Hv; [by apply returns_value|].
    destruct i; try (by repeat closed_step). apply returns_seq. intros z.
    closed_step; [|by closed_step]. closed_step; [|by closed_step]. by case_match; closed_step.
Qed.

End Closed.
