(* ===== verification/ExprRebuild.v ===== *)
(** * Rebuilding an expression from operands with the same values

    A visitor replaces the operands of a node by others that have the same
    values, and rebuilds the node.  For expressions as the constructors build
    them the result has the value of the node, divisions by 0 included, as
    long as no divisor becomes the constant 0. *)

From S2P Require Import Prelude ExprData ExprCreate ExprSem ExprBool ExprArith ExprBits ExprSpec ExprOrder ExprHeap.

Section Rebuild.
Context `{ExprOptions} `{DivByZero}.
Variable D : assignment -> Prop.

Abbreviation value_of e o := (creates D (getWidth e) (fun rho => eval rho e) o).

(** The operand [k'] stands for [k]. *)
Definition stands_for (k k' : Expr) : Prop := denotes D (getWidth k) (fun rho => eval rho k) k'.

Lemma stands_for_refl e : wf e -> (forall rho, D rho -> inb rho e) -> stands_for e e.
Proof using Type. intros. by apply denotes_self. Qed.

Lemma stands_for_trans e e1 e2 : stands_for e e1 -> stands_for e1 e2 -> stands_for e e2.
Proof using Type.
  intros [_ Hw _ Hv] [Hwf' Hw' Hi' Hv']. split; auto; [congruence|]. intros rho HD. by rewrite Hv', Hv.
Qed.

Lemma kids_same_widths e ks : Forall2 stands_for (kids e) ks -> same_widths e ks.
Proof using Type. intros Hk. eapply Forall2_impl; [exact Hk|]. by intros k k' [? ? _ _]. Qed.

Lemma with_kids_value e ks :
  Forall2 stands_for (kids e) ks -> forall rho, D rho -> inb rho e ->
  eval rho (with_kids e ks) = eval rho e /\ inb rho (with_kids e ks).
Proof using Type.
  intros Hk rho HD Hi.
  assert (Hfact : forall k k', stands_for k k' -> eval rho k' = eval rho k /\ getWidth k' = getWidth k /\ inb rho k')
    by (intros k k' []; auto).
  destruct e; simpl in Hk; repeat match goal with
    | Hf : Forall2 _ (_ :: _) _ |- _ => inversion Hf; subst; clear Hf
    | Hf : Forall2 _ [] _ |- _ => inversion Hf; subst; clear Hf
    end;
    repeat match goal with Hd : stands_for _ _ |- _ => apply Hfact in Hd as (?&?&?) end;
    (split; [|intros Ho; specialize (Hi Ho)]); cbn [with_kids eval in_bounds] in *;
    repeat match goal with Hj : inb _ _, Ho : ConstArrayOpt = true |- _ => specialize (Hj Ho) end;
    repeat match goal with
    | E : eval _ _ = _ |- _ => rewrite E; clear E
    | E : getWidth _ = getWidth _ |- _ => rewrite E; clear E
    end; simpl in *; tauto.
Qed.

(** A node that is no division. *)
Lemma rebuild_plain_creates e ks :
  wf e -> (forall rho, D rho -> inb rho e) -> buildable (with_kids e ks) ->
  match e with Binary k _ _ => Kind.is_div k = false | _ => True end ->
  Forall2 stands_for (kids e) ks -> value_of e (rebuild e ks).
Proof using Type.
  intros Hwf Hi Hb Hdiv Hk. pose proof (with_kids_value e ks Hk) as Hv.
  eapply creates_ext; [apply rebuild_creates; auto|].
  - by apply kids_same_widths.
  - intros rho HD. split; [by apply Hv; auto|]. destruct e; simpl in *;
      repeat match goal with |- context [match ?l with _ => _ end] => destruct l; simpl; try done end;
      rewrite ?Hdiv; done.
  - intros rho HD. by apply Hv; auto.
Qed.

(** A division whose divisor is not the constant 0 stays a division unless it
    is folded. *)
Lemma division_creates k l r l' r' :
  Kind.is_div k = true -> getWidth l <> 1 -> getWidth l = getWidth r ->
  stands_for l l' -> stands_for r r' -> (forall c, r' = Constant c -> cvalue c <> 0) ->
  value_of (Binary k l r) (Binary__create k l' r').
Proof using Type.
  unfold stands_for. intros Hk Hw1 Hw Hl Hr Hnz. rewrite <- Hw in Hr.
  assert (Hplain : value_of (Binary k l r) (Ret (Binary k l' r'))).
  { apply creates_ret. eapply denotes_ext; [eapply denotes_binop; [exact Hl|exact Hr]|]. done. }
  assert (Hb : forall create, create l' r' = Ret (Binary k l' r') ->
    value_of (Binary k l r) (BCREATE k create l' r')).
  { intros create Hc. unfold BCREATE.
    rewrite (den_width _ _ _ _ Hl), (den_width _ _ _ _ Hr), Z.eqb_refl. cbn [assertM mbind outcome_bind].
    destruct l' as [cl| | | | | | | | |]; try (by rewrite Hc).
    destruct r' as [cr| | | | | | | | |]; try (by rewrite Hc).
    eapply creates_ext; [eapply creates_fold; [exact Hl|exact Hr|]|].
    - intros _. by apply Hnz.
    - intros rho HD. simpl. unfold binop_value.
      apply denotes_Const_inv in Hr as (_ & _ & Hv). specialize (Hv _ HD). rewrite Hv.
      rewrite (proj2 (Z.eqb_neq _ _) (Hnz _ eq_refl)). by rewrite andb_false_r. }
  pose proof (proj2 (Z.eqb_neq _ _) Hw1) as Hne. rewrite <- (den_width _ _ _ _ Hl) in Hne.
  destruct k; try done; cbn [Binary__create]; apply Hb;
    unfold UDivExpr_create, SDivExpr_create, URemExpr_create, SRemExpr_create; by rewrite Hne.
Qed.

(** No divisor became the constant 0. *)
Definition divisor_kept (e : Expr) (ks : list Expr) : Prop :=
  match e, ks with
  | Binary k _ _, [_; r'] => Kind.is_div k = true -> forall c, r' = Constant c -> cvalue c <> 0
  | _, _ => True
  end.

Lemma rebuild_built_creates heap e ks :
  (forall p, adomain (heap p) <= 64) -> wf e -> built heap e -> isConstant e = false ->
  (forall rho, D rho -> inb rho e) -> Forall2 stands_for (kids e) ks -> divisor_kept e ks ->
  value_of e (rebuild e ks).
Proof using Type.
  intros Hheap Hwf Hb Hc Hi Hk Hd.
  destruct e; try done; simpl in Hk;
    repeat match goal with
    | Hf : Forall2 _ (_ :: _) _ |- _ => inversion Hf; subst; clear Hf
    | Hf : Forall2 _ [] _ |- _ => inversion Hf; subst; clear Hf
    end;
    try (apply rebuild_plain_creates; try done; simpl; repeat (apply Forall2_cons_2; [assumption|]); by apply Forall2_nil_2).
  - apply rebuild_plain_creates; try done; [|simpl; repeat (apply Forall2_cons_2; [assumption|]); by apply Forall2_nil_2].
    destruct Hb as [Hh _]. simpl. rewrite <- Hh. apply Hheap.
  - destruct (Kind.is_div k) eqn:Ek.
    + destruct Hb as (Hb & _ & _). destruct Hwf as (_ & _ & Hw). destruct (Hb Ek) as [Hw1 _].
      apply division_creates; auto.
    + apply rebuild_plain_creates; try done; [|simpl; repeat (apply Forall2_cons_2; [assumption|]); by apply Forall2_nil_2].
      cbn [with_kids buildable]. case_match; try done. congruence.
Qed.

End Rebuild.
