(* ===== verification/ExprNodes.v ===== *)
(** * The weight and the nodes of what the constructors build

    The simplifying constructors copy no operand: the result has at most as
    many reads and opaque nodes as the operands.  They also build no read, no
    division and no opaque node but the one asked for, so that a condition on
    those nodes goes over from the operands to the result.  This is what a
    visitor needs that visits again what it has rebuilt.

    The option [--const-array-opt], which copies the index of a read, is off
    here, as it is by default. *)

From S2P Require Import Prelude ExprData ExprCreate ExprOrder ExprHeap ExprSpec.

(** ** Weight *)

(** The reads and the opaque nodes, counted with repetition; an operator over
    constants, which the constructors would fold, counts too, so that only
    constants weigh nothing. *)
Fixpoint weight (e : Expr) : nat :=
  match e with
  | Constant _ => O
  | NotOptimized s => S (weight s)
  | Read _ u i => S (weight_upd u + weight i)
  | Select c t f => Nat.max 1 (weight c + weight t + weight f)
  | Concat l r => Nat.max 1 (weight l + weight r)
  | Extract x _ _ => Nat.max 1 (weight x)
  | ZExt s _ => Nat.max 1 (weight s)
  | SExt s _ => Nat.max 1 (weight s)
  | Not x => Nat.max 1 (weight x)
  | Binary _ l r => Nat.max 1 (weight l + weight r)
  end
with weight_upd (u : UpdateNode) : nat :=
  match u with
  | NoUpdate => O
  | Update i v n => weight i + weight v + weight_upd n
  end.

Lemma weight_constant e : weight e = O <-> isConstant e = true.
Proof. destruct e; simpl; split; intros; try done; lia. Qed.

Lemma weight_symbolic e : isConstant e = false -> (1 <= weight e)%nat.
Proof. intros Hc. pose proof (weight_constant e). destruct (weight e); [|lia]. intuition congruence. Qed.

(** ** Conditions on nodes *)

Section Nodes.
Variables (okread : Array -> Expr -> Prop) (okdiv : Expr -> Expr -> Prop) (okopaque : Expr -> Prop).

Fixpoint holds (e : Expr) : Prop :=
  match e with
  | Constant _ => True
  | NotOptimized s => okopaque s /\ holds s
  | Read a u i => okread a i /\ holds_upd u /\ holds i
  | Select c t f => holds c /\ holds t /\ holds f
  | Concat l r => holds l /\ holds r
  | Extract x _ _ => holds x
  | ZExt s _ => holds s
  | SExt s _ => holds s
  | Not x => holds x
  | Binary k l r => (Kind.is_div k = true -> okdiv l r) /\ holds l /\ holds r
  end
with holds_upd (u : UpdateNode) : Prop :=
  match u with
  | NoUpdate => True
  | Update i v n => holds i /\ holds v /\ holds_upd n
  end.

Definition node_ok (e : Expr) : Prop :=
  match e with
  | NotOptimized s => okopaque s
  | Read a _ i => okread a i
  | Binary k l r => Kind.is_div k = true -> okdiv l r
  | _ => True
  end.

(** At most [n], with the condition. *)
Definition fits (n : nat) (e : Expr) : Prop := (weight e <= n)%nat /\ holds e.

Abbreviation fit n := (returns (fits n)).

Context `{ExprOptions}.
Hypothesis Hopt : ConstArrayOpt = false.

Lemma fit_weaken n m o : (n <= m)%nat -> fit n o -> fit m o.
Proof using Type. intros Hle Ho e He. destruct (Ho e He). split; [lia|done]. Qed.

Lemma fit_constant n c : fit n (Ret (Constant c)).
Proof using Type. apply returns_value. split; [simpl; lia|done]. Qed.

Lemma fit_fold n k cl cr : fit n (fold k cl cr).
Proof using Type. intros e. unfold fold, ConstantExpr__op. case_match; intros; simplify_eq/=; split; simpl; try done; lia. Qed.

Lemma fit_ret n e : holds e -> (weight e <= n)%nat -> fit n (Ret e).
Proof using Type. intros. by apply returns_value. Qed.

Lemma fit_binary n k l r :
  Kind.is_div k = false -> holds l -> holds r -> (weight l + weight r <= n)%nat -> (1 <= n)%nat ->
  fit n (Ret (Binary k l r)).
Proof using Type. intros Hk Hl Hr Hle H1. apply fit_ret; simpl; [|lia]. rewrite Hk. by split_and!. Qed.

(** One operand is not a constant. *)
Lemma BCREATE_R_fit k pl pr cr l r :
  (forall c, isConstant l = false -> fit (weight l) (pl l c)) ->
  (forall c, isConstant r = false -> fit (weight r) (pr c r)) ->
  (isConstant l = false -> isConstant r = false -> fit (weight l + weight r) (cr l r)) ->
  fit (weight l + weight r) (BCREATE_R k pl pr cr l r).
Proof using Type.
  intros Hl Hr Hc. unfold BCREATE_R. apply returns_seq. intros _.
  destruct l; destruct r; cbn [weight Nat.add] in *; try apply fit_fold; rewrite ?Nat.add_0_r; auto.
Qed.

Lemma BCREATE_fit k cr l r :
  (isConstant l = false \/ isConstant r = false -> fit (weight l + weight r) (cr l r)) ->
  fit (weight l + weight r) (BCREATE k cr l r).
Proof using Type.
  intros Hc. unfold BCREATE. apply returns_seq. intros _.
  destruct l; [destruct r; [apply fit_fold|..]|..]; apply Hc; auto.
Qed.

Ltac fit_step :=
  match goal with
  | |- fit _ (Stop _) => by intros ?
  | |- fit _ (Ret (Constant _)) => apply fit_constant
  | |- fit _ (fold _ _ _) => apply fit_fold
  | |- fit _ (assertM _ ≫= _) => apply returns_seq; intros _
  | |- fit _ (ConstantExpr__op _ _ _ ≫= _) => apply returns_seq; intros ?
  | |- fit _ (if ?b then _ else _) => destruct b
  | |- fit _ (Ret (Binary _ _ _)) => apply fit_binary; [done|done|done|simpl; lia|simpl; lia]
  | |- fit _ (Ret _) => apply fit_ret; [done|simpl; lia]
  end.

Lemma AndExpr__create_fit l r : holds l -> holds r -> fit (weight l + weight r) (AndExpr__create l r).
Proof using Type.
  intros Hl Hr. apply BCREATE_R_fit; [intros c Hs|intros c Hs|intros Hs Hs']; apply weight_symbolic in Hs;
    unfold AndExpr_createPartialR, AndExpr_createPartial, AndExpr_create; repeat fit_step.
Qed.

Lemma OrExpr__create_fit l r : holds l -> holds r -> fit (weight l + weight r) (OrExpr__create l r).
Proof using Type.
  intros Hl Hr. apply BCREATE_R_fit; [intros c Hs|intros c Hs|intros Hs Hs']; apply weight_symbolic in Hs;
    unfold OrExpr_createPartialR, OrExpr_createPartial, OrExpr_create; repeat fit_step.
Qed.

(** ** Equality *)

Lemma EqExpr_create_fit c r : holds r -> fit (Nat.max 1 (weight r)) (EqExpr_create (Constant c) r).
Proof using Type. intros Hr. unfold EqExpr_create. repeat fit_step. Qed.

Lemma EqExpr__create_const_fit pr l c :
  (forall c, fit (Nat.max 1 (weight l)) (pr c l)) -> fit (weight l) (EqExpr__create_const pr l c).
Proof using Type.
  intros Hpr. unfold EqExpr__create_const. fit_step. destruct (isConstant l) eqn:E.
  - destruct l; try done. apply fit_fold.
  - pose proof (weight_symbolic l E). rewrite Nat.max_r in Hpr by lia. destruct l; auto; done.
Qed.

Lemma EqExpr_createPartialR_fit r :
  forall c, holds r -> fit (Nat.max 1 (weight r)) (EqExpr_createPartialR c r).
Proof using Hopt.
  pose proof EqExpr_create_fit as Ho.
  revert r. apply (Expr_mut (fun r => forall c, holds r -> fit (Nat.max 1 (weight r)) (EqExpr_createPartialR c r))
                     (fun _ => True)); try done.
  all: intros; match goal with |- fit _ (EqExpr_createPartialR ?cc _) =>
      cbn [EqExpr_createPartialR]; destruct (cwidth cc =? 1); [fit_step; [by fit_step|]|] end;
    try (by apply Ho).
  - (* Read *) rewrite Hopt. by apply Ho.
  - (* ZExt *)
    fit_step; [|by fit_step]. eapply fit_weaken; [|apply EqExpr__create_const_fit; auto]. simpl. lia.
  - (* SExt *)
    fit_step; [|by fit_step]. eapply fit_weaken; [|apply EqExpr__create_const_fit; auto]. simpl. lia.
  - (* Binary, one bit *)
    match goal with Hb : holds (Binary _ _ _) |- _ => pose proof Hb as (_ & Hl & Hr) end.
    destruct k; try (apply Ho; done).
    + eapply returns_then; [apply EqExpr__create_const_fit; auto|]. intros a [Wa Ha].
      eapply returns_then; [apply EqExpr__create_const_fit; auto|]. intros b [Wb Hb].
      eapply fit_weaken; [|by apply AndExpr__create_fit]. simpl. lia.
    + destruct left; try (apply Ho; done). fit_step; [by fit_step|]. by apply Ho.
  - (* Binary *)
    match goal with Hb : holds (Binary _ _ _) |- _ => pose proof Hb as (_ & Hl & Hr) end.
    destruct k; try (apply Ho; done);
      destruct left; try (apply Ho; done); repeat fit_step;
      (eapply fit_weaken; [|by auto]); simpl; lia.
Qed.

Lemma EqExpr_createPartialR_fit' c r :
  holds r -> isConstant r = false -> fit (weight r) (EqExpr_createPartialR c r).
Proof using Hopt.
  intros Hr Hs. pose proof (weight_symbolic r Hs). eapply fit_weaken; [|by apply EqExpr_createPartialR_fit]. lia.
Qed.

Lemma EqExpr__create_fit l r : holds l -> holds r -> fit (weight l + weight r) (EqExpr__create l r).
Proof using Hopt.
  intros Hl Hr. apply BCREATE_R_fit; [intros c Hs|intros c Hs|intros Hs Hs'].
  - by apply EqExpr_createPartialR_fit'.
  - by apply EqExpr_createPartialR_fit'.
  - apply weight_symbolic in Hs. unfold EqExpr_create. repeat fit_step.
Qed.

Lemma Expr__createIsZero_fit e : holds e -> fit (weight e) (Expr__createIsZero e).
Proof using Hopt.
  intros He. eapply fit_weaken; [|by apply EqExpr__create_fit]. simpl. lia.
Qed.

Lemma NeExpr__create_fit l r : holds l -> holds r -> fit (weight l + weight r) (NeExpr__create l r).
Proof using Hopt.
  intros Hl Hr. eapply returns_then; [by apply EqExpr__create_fit|]. intros e [We He].
  eapply fit_weaken; [|by apply EqExpr__create_fit]. simpl. lia.
Qed.

(** ** Sums and differences *)

Lemma XorExpr_createPartialR_fit c r :
  holds r -> fit (Nat.max 1 (weight r)) (XorExpr_createPartialR c r).
Proof using Hopt.
  intros Hr. unfold XorExpr_createPartialR. repeat fit_step. by apply EqExpr_createPartialR_fit.
Qed.

Ltac addsub_fits IHa IHs :=
  intros; subst; simpl in *; decompose_hyps;
  eapply returns_then; [(apply IHa || apply IHs); simpl; tauto|];
  intros ? [? ?];
  (eapply fit_weaken; [|(apply IHa || apply IHs); simpl; tauto]); simpl in *; lia.

Lemma addsub_fit n :
  (forall l r, holds l -> holds r -> fit (weight l + weight r) (AddExpr__create_fuel n l r)) /\
  (forall l r, holds l -> holds r -> fit (weight l + weight r) (SubExpr__create_fuel n l r)).
Proof using Hopt.
  induction n as [|n [IHa IHs]]; [by split; intros; intros ?|].
  assert (Hadd : forall c r, holds r -> fit (Nat.max 1 (weight r)) (AddExpr_createPartialR
    (AddExpr__create_fuel n) (SubExpr__create_fuel n) c r)).
  { intros c r Hr. unfold AddExpr_createPartialR.
    fit_step; [by apply XorExpr_createPartialR_fit|]. fit_step; [by fit_step|].
    apply addsub_operand; [addsub_fits IHa IHs..|by fit_step]. }
  assert (Hadd' : forall c r, holds r -> isConstant r = false -> fit (weight r) (AddExpr_createPartialR
    (AddExpr__create_fuel n) (SubExpr__create_fuel n) c r)).
  { intros c r Hr Hs. pose proof (weight_symbolic r Hs). eapply fit_weaken; [|by apply Hadd]. lia. }
  split; intros l r Hl Hr; cbn [AddExpr__create_fuel SubExpr__create_fuel];
    (apply BCREATE_R_fit; [intros c Hs|intros c Hs|intros Hs Hs']).
  - by apply Hadd'.
  - by apply Hadd'.
  - apply weight_symbolic in Hs. unfold AddExpr_create, XorExpr_create. fit_step; [by fit_step|].
    apply addsub_operand; [addsub_fits IHa IHs..|].
    apply addsub_operand; [addsub_fits IHa IHs..|by fit_step].
  - unfold SubExpr_createPartial. fit_step. by apply Hadd'.
  - apply weight_symbolic in Hs. unfold SubExpr_createPartialR.
    fit_step; [eapply fit_weaken; [|by apply XorExpr_createPartialR_fit]; lia|].
    apply addsub_operand; [addsub_fits IHa IHs..|by fit_step].
  - apply weight_symbolic in Hs. unfold SubExpr_create, XorExpr_create. fit_step; [by fit_step|]. fit_step; [by fit_step|].
    apply addsub_operand; [addsub_fits IHa IHs..|].
    apply addsub_operand; [addsub_fits IHa IHs..|by fit_step].
Qed.

(** ** The other binary kinds *)

Ltac one_bit_fit l r :=
  intros Hs; assert (1 <= weight l + weight r)%nat by (destruct Hs as [Hs|Hs]; apply weight_symbolic in Hs; lia);
  fit_step; [|by fit_step];
  eapply returns_then; [by apply Expr__createIsZero_fit|]; intros ? [? ?];
  (eapply fit_weaken; [|first [by apply AndExpr__create_fit | by apply OrExpr__create_fit]]; lia).

Ltac plain_fit l r :=
  intros Hs; assert (1 <= weight l + weight r)%nat by (destruct Hs as [Hs|Hs]; apply weight_symbolic in Hs; lia);
  repeat fit_step.

Lemma Ult_fit l r : holds l -> holds r -> fit (weight l + weight r) (BCREATE Kind.Ult UltExpr_create l r).
Proof using Hopt. intros. apply BCREATE_fit. unfold UltExpr_create. one_bit_fit l r. Qed.

Lemma Ule_fit l r : holds l -> holds r -> fit (weight l + weight r) (BCREATE Kind.Ule UleExpr_create l r).
Proof using Hopt. intros. apply BCREATE_fit. unfold UleExpr_create. one_bit_fit l r. Qed.

Lemma Slt_fit l r : holds l -> holds r -> fit (weight l + weight r) (BCREATE Kind.Slt SltExpr_create l r).
Proof using Hopt. intros. apply BCREATE_fit. unfold SltExpr_create. one_bit_fit l r. Qed.

Lemma Sle_fit l r : holds l -> holds r -> fit (weight l + weight r) (BCREATE Kind.Sle SleExpr_create l r).
Proof using Hopt. intros. apply BCREATE_fit. unfold SleExpr_create. one_bit_fit l r. Qed.

Lemma MulExpr__create_fit l r : holds l -> holds r -> fit (weight l + weight r) (MulExpr__create l r).
Proof using Type.
  intros Hl Hr. apply BCREATE_R_fit; [intros c Hs|intros c Hs|intros Hs Hs']; apply weight_symbolic in Hs;
    unfold MulExpr_createPartial, MulExpr_createPartialR, MulExpr_create, AndExpr_createPartialR,
      AndExpr_createPartial; repeat fit_step.
Qed.

Lemma XorExpr__create_fit l r : holds l -> holds r -> fit (weight l + weight r) (XorExpr__create l r).
Proof using Hopt.
  intros Hl Hr. apply BCREATE_R_fit; [intros c Hs|intros c Hs|intros Hs Hs']; apply weight_symbolic in Hs.
  - eapply fit_weaken; [|by apply XorExpr_createPartialR_fit]. lia.
  - eapply fit_weaken; [|by apply XorExpr_createPartialR_fit]. lia.
  - unfold XorExpr_create. by fit_step.
Qed.

Lemma division_fit k l r cr :
  Kind.is_div k = true -> okdiv l r -> holds l -> holds r ->
  cr = Ret l \/ (exists c, cr = Ret (Constant c)) \/ cr = Ret (Binary k l r) ->
  isConstant l = false \/ isConstant r = false -> fit (weight l + weight r) cr.
Proof using Type.
  intros Hk Hd Hl Hr Hcr Hs.
  assert (H1 : (1 <= weight l + weight r)%nat) by (destruct Hs as [Hs|Hs]; apply weight_symbolic in Hs; lia).
  destruct Hcr as [->|[[c ->]| ->]].
  - apply fit_ret; [done|lia].
  - apply fit_constant.
  - apply fit_ret; [by split_and!|simpl; lia].
Qed.

Lemma Binary__create_fit k l r :
  (Kind.is_div k = true -> okdiv l r) -> holds l -> holds r ->
  fit (weight l + weight r) (Binary__create k l r).
Proof using Hopt.
  intros Hd Hl Hr.
  assert (Hdiv : forall c, Kind.is_div k = true -> (c = Ret l \/ (exists z, c = Ret (Constant z)) \/ c = Ret (Binary k l r)) ->
    isConstant l = false \/ isConstant r = false -> fit (weight l + weight r) c)
    by (intros c Hk Hc; apply (division_fit k); auto).
  destruct k; cbn [Binary__create];
    try (apply BCREATE_fit; apply Hdiv; [done|]; unfold UDivExpr_create, SDivExpr_create, URemExpr_create, SRemExpr_create;
         destruct (_ =? 1); eauto; fail).
  - by apply addsub_fit.
  - by apply addsub_fit.
  - by apply MulExpr__create_fit.
  - by apply AndExpr__create_fit.
  - by apply OrExpr__create_fit.
  - by apply XorExpr__create_fit.
  - apply BCREATE_fit. unfold ShlExpr_create. one_bit_fit l r.
  - apply BCREATE_fit. unfold LShrExpr_create. one_bit_fit l r.
  - apply BCREATE_fit. unfold AShrExpr_create. plain_fit l r.
  - by apply EqExpr__create_fit.
  - by apply NeExpr__create_fit.
  - by apply Ult_fit.
  - by apply Ule_fit.
  - rewrite Nat.add_comm. by apply Ult_fit.
  - rewrite Nat.add_comm. by apply Ule_fit.
  - by apply Slt_fit.
  - by apply Sle_fit.
  - rewrite Nat.add_comm. by apply Slt_fit.
  - rewrite Nat.add_comm. by apply Sle_fit.
Qed.

(** ** Conditionals, extracts, concatenations, casts *)

Lemma SelectExpr__create_fit c t f :
  holds c -> holds t -> holds f -> fit (weight c + weight t + weight f) (SelectExpr__create c t f).
Proof using Hopt.
  intros Hc Ht Hf. unfold SelectExpr__create. do 2 fit_step.
  destruct (isConstant c) eqn:Ec.
  { destruct c; try done. destruct (isTrue c); fit_step. }
  apply weight_symbolic in Ec as Wc.
  assert (Hsel : fit (weight c + weight t + weight f) (Ret (Select c t f)))
    by (apply fit_ret; [by split_and!|simpl; lia]).
  assert (Hgo : fit (weight c + weight t + weight f)
    (if expr_eqb t f then Ret t
     else if getWidth t =? 1 then
       match t, f with
       | Constant ce, _ => if isTrue ce then OrExpr__create c f else z ← Expr__createIsZero c; AndExpr__create z f
       | _, Constant ce => if isTrue ce then z ← Expr__createIsZero c; OrExpr__create z t else AndExpr__create c t
       | _, _ => Ret (Select c t f)
       end
     else Ret (Select c t f))); [|by destruct c].
  assert (Hand : forall x, holds x -> fit (weight c + weight x) (z ← Expr__createIsZero c; AndExpr__create z x)).
  { intros x Hx. eapply returns_then; [by apply Expr__createIsZero_fit|]. intros z [Wz Hz].
    eapply fit_weaken; [|by apply AndExpr__create_fit]. lia. }
  assert (Hor : forall x, holds x -> fit (weight c + weight x) (z ← Expr__createIsZero c; OrExpr__create z x)).
  { intros x Hx. eapply returns_then; [by apply Expr__createIsZero_fit|]. intros z [Wz Hz].
    eapply fit_weaken; [|by apply OrExpr__create_fit]. lia. }
  destruct (expr_eqb t f); [fit_step|]. destruct (getWidth t =? 1); [|exact Hsel].
  destruct (isConstant t) eqn:Et.
  - destruct t; try done. simpl. rewrite Nat.add_0_r. destruct (isTrue c0); [by apply OrExpr__create_fit|by apply Hand].
  - destruct (isConstant f) eqn:Ef.
    + destruct f; try done. simpl. rewrite Nat.add_0_r.
      destruct t; try done; (destruct (isTrue c0); [by apply Hor|by apply AndExpr__create_fit]).
    + destruct t; try done; destruct f; done.
Qed.

Lemma bits_fit n :
  (forall e off w, holds e -> fit (weight e) (ExtractExpr__create_fuel n e off w)) /\
  (forall l r, holds l -> holds r -> fit (weight l + weight r) (ConcatExpr__create_fuel n l r)).
Proof using Type.
  induction n as [|n [IHe IHc]]; [by split; intros; intros ?|]. split.
  - intros e off w He. cbn [ExtractExpr__create_fuel]. fit_step. fit_step; [by fit_step|].
    assert (Hplain : isConstant e = false -> fit (weight e) (Ret (Extract e off w))).
    { intros Hs. apply weight_symbolic in Hs. apply fit_ret; [done|simpl; lia]. }
    destruct e as [| | | |l r| | | | |]; auto; [fit_step|]. destruct He as [Hl Hr].
    fit_step; [eapply fit_weaken; [|by apply IHe]; simpl; lia|].
    fit_step; [eapply fit_weaken; [|by apply IHe]; simpl; lia|].
    eapply returns_then; [by apply IHe|]. intros x [Wx Hx].
    eapply returns_then; [by apply IHe|]. intros y [Wy Hy].
    eapply fit_weaken; [|by apply IHc]. simpl. lia.
  - intros l r Hl Hr. cbn [ConcatExpr__create_fuel].
    assert (Hplain : isConstant l = false \/ isConstant r = false -> fit (weight l + weight r) (Ret (Concat l r))).
    { intros Hs. assert (1 <= weight l + weight r)%nat by (destruct Hs as [Hs|Hs]; apply weight_symbolic in Hs; lia).
      apply fit_ret; [by split|simpl; lia]. }
    destruct l; try (apply Hplain; by left).
    + destruct r; try (apply Hplain; by right). fit_step.
    + destruct r; try (apply Hplain; by left). fit_step; [|apply Hplain; by left].
      eapply fit_weaken; [|by apply IHe]. simpl. lia.
Qed.

Lemma ReadExpr__create_fit a u i :
  okread a i -> holds_upd u -> holds i -> fit (S (weight_upd u + weight i)) (ReadExpr__create a u i).
Proof using Type.
  intros Ha Hu Hi. unfold ReadExpr__create.
  apply (returns_then (fun r => match r with
    | Found v => holds v /\ (weight v <= weight_upd u)%nat
    | Stopped un _ => holds_upd un /\ (weight_upd un <= weight_upd u)%nat end)).
  - clear Ha. revert Hu. induction u as [|ui uv n IHn] using UpdateNode_chain_ind; intros Hu; simpl.
    + by apply returns_value.
    + destruct Hu as (H1 & H2 & H3). apply returns_seq. intros cond.
      assert (Hstop : returns (fun r => match r with
        | Found v => holds v /\ (weight v <= weight ui + weight uv + weight_upd n)%nat
        | Stopped un _ => holds_upd un /\ (weight_upd un <= weight ui + weight uv + weight_upd n)%nat end)
        (Ret (Stopped (Update ui uv n) true))) by (apply returns_value; by split_and!).
      destruct cond; try exact Hstop. case_match; [apply returns_value; split; [done|lia]|].
      intros r Hr. specialize (IHn H3 r Hr). destruct r; destruct IHn; split; auto; lia.
  - intros [v|un sym] [Hv Wv]; [apply fit_ret; [done|lia]|].
    assert (Hread : forall u', holds_upd u' -> (weight_upd u' <= weight_upd u)%nat ->
      fit (S (weight_upd u + weight i)) (Ret (Read a u' i))).
    { intros u' Hu' Wu'. apply fit_ret; [by split_and!|simpl; lia]. }
    destruct i; try (by apply Hread). apply returns_seq. intros z.
    fit_step; [|by apply Hread]. fit_step; [|by apply Hread]. case_match; [apply fit_constant|by intros ?].
Qed.

(** ** Rebuilding *)

(** What the operands weigh, with the read or the opaque node itself. *)
Definition kids_weight (e : Expr) (ks : list Expr) : nat :=
  foldr (fun k n => weight k + n)%nat
    (match e with NotOptimized _ => 1%nat | Read _ u _ => S (weight_upd u) | _ => O end) ks.

Definition node_updates_ok (e : Expr) : Prop :=
  match e with Read _ u _ => holds_upd u | _ => True end.

Lemma rebuild_fit e ks :
  Forall holds ks -> node_ok (with_kids e ks) -> node_updates_ok e -> (length ks = length (kids e)) ->
  fit (kids_weight e ks) (rebuild e ks).
Proof using Hopt.
  intros Hks Hn Hu Hlen. unfold kids_weight.
  assert (Hcast : forall s w (sign : bool), holds s ->
    fit (weight s) (if sign then SExtExpr__create s w else ZExtExpr__create s w)).
  { intros s w sign Hs.
    assert (Hp : forall e', (e' = ZExt s w \/ e' = SExt s w) -> isConstant s = false -> fit (weight s) (Ret e')).
    { intros e' He Hc. apply weight_symbolic in Hc. destruct He as [-> | ->]; apply fit_ret; try done; simpl; lia. }
    destruct sign; unfold SExtExpr__create, ZExtExpr__create; (fit_step; [by fit_step|]);
      (fit_step; [by apply bits_fit|]); destruct s; try fit_step; apply Hp; auto. }
  destruct e; destruct ks as [|k1 [|k2 [|k3 [|k4 ks]]]]; try done; cbn [rebuild foldr];
    repeat match goal with Hf : Forall holds (_ :: _) |- _ => apply Forall_cons in Hf as [? Hf] end.
  - apply fit_ret; [by split|simpl; lia].
  - eapply fit_weaken; [|by apply ReadExpr__create_fit]. lia.
  - eapply fit_weaken; [|by apply SelectExpr__create_fit]. lia.
  - eapply fit_weaken; [|by apply bits_fit]. lia.
  - eapply fit_weaken; [|by apply bits_fit]. lia.
  - eapply fit_weaken; [|by apply (Hcast k1 width false)]. lia.
  - eapply fit_weaken; [|by apply (Hcast k1 width true)]. lia.
  - unfold NotExpr__create. destruct (isConstant k1) eqn:Ec; [destruct k1; try done; apply fit_constant|].
    apply weight_symbolic in Ec as W. assert (Hgo : fit (weight k1 + 0) (Ret (Not k1))) by (apply fit_ret; [done|simpl; lia]).
    by destruct k1.
  - eapply fit_weaken; [|by apply Binary__create_fit]. lia.
Qed.

End Nodes.
