(* ===== verification/ExprVisitor.v ===== *)
(** * Visitors

    [lib/Expr/ExprVisitor.cpp]: a visitor walks over an expression, rebuilds
    the nodes whose operands changed, and may visit the rebuilt node again.
    The results are cached.  A visitor is a record of the methods a class
    overrides; for visitors that only replace expressions by constants of the
    same value, the visit ends and the result has the value of the expression. *)

From S2P Require Import Prelude ExprData ExprCreate ExprSem ExprBool ExprArith ExprBits ExprSpec ExprOrder ExprHeap ExprRebuild ExprNodes.

Inductive Action : Type :=
  | SkipChildren
  | DoChildren
  | ChangeTo (argument : Expr).

(** The virtual methods; [visitKind] is the one for the kind of the
    expression. *)
Record ExprVisitor : Type := mkVisitor {
  visitExpr : Expr -> Action;
  visitKind : Expr -> Action;
  visitExprPost : Expr -> Action;
  recursive : bool
}.

(** The methods of the base class. *)
Definition ExprVisitor__visitExpr (e : Expr) : Action := DoChildren.
Definition ExprVisitor__visitKind (e : Expr) : Action := DoChildren.
Definition ExprVisitor__visitExprPost (e : Expr) : Action := SkipChildren.

Abbreviation visited_ty := (gmap Expr Expr).

Section Visit.
Context `{ExprOptions}.
(** The option [--use-visitor-hash]. *)
Variable UseVisitorHash : bool.
Variable V : ExprVisitor.

Abbreviation visit_result := (outcome (Expr * visited_ty)).

(** The loop over the operands. *)
Fixpoint visit_kids (visit : visited_ty -> Expr -> visit_result) (visited : visited_ty)
    (ks : list Expr) : outcome (list Expr * visited_ty) :=
  match ks with
  | [] => Ret ([], visited)
  | k :: ks =>
      r ← visit visited k;
      rest ← visit_kids visit r.2 ks;
      Ret (r.1 :: rest.1, rest.2)
  end.

(** The operands are visited, and the expression is rebuilt when one of them
    changed. *)
Definition visit_children (visit : visited_ty -> Expr -> visit_result) (visited : visited_ty)
    (e : Expr) : visit_result :=
  r ← visit_kids visit visited (kids e);
  if bool_decide (r.1 = kids e) then Ret (e, r.2)
  else
    e' ← rebuild e r.1;
    if recursive V then visit r.2 e' else Ret (e', r.2).

Definition visitActual (visit : visited_ty -> Expr -> visit_result) (visited : visited_ty)
    (e : Expr) : visit_result :=
  if isConstant e then Ret (e, visited)
  else
    match visitExpr V e with
    | SkipChildren => Ret (e, visited)
    | ChangeTo a => Ret (a, visited)
    | DoChildren =>
        match visitKind V e with
        | SkipChildren => Ret (e, visited)
        | ChangeTo a => Ret (a, visited)
        | DoChildren =>
            r ← visit_children visit visited e;
            Ret (if isConstant r.1 then r.1
                 else match visitExprPost V r.1 with ChangeTo a => a | _ => r.1 end, r.2)
        end
    end.

(** [visited.insert] keeps an entry that is there. *)
Definition visited_insert (e res : Expr) (visited : visited_ty) : visited_ty :=
  match visited !! e with Some _ => visited | None => <[e := res]> visited end.

Fixpoint ExprVisitor__visit (fuel : nat) (visited : visited_ty) (e : Expr) : visit_result :=
  match fuel with
  | O => Stop OutOfFuel
  | S n =>
      let visit := ExprVisitor__visit n in
      if negb UseVisitorHash || isConstant e then visitActual visit visited e
      else
        match visited !! e with
        | Some res => Ret (res, visited)
        | None =>
            r ← visitActual visit visited e;
            Ret (r.1, visited_insert e r.1 r.2)
        end
  end.

(** ** More fuel *)

Lemma visit_kids_mono (v v' : visited_ty -> Expr -> visit_result) ks :
  (forall m e, le_out (v m e) (v' m e)) -> forall m, le_out (visit_kids v m ks) (visit_kids v' m ks).
Proof.
  intros Hv. induction ks as [|k ks IH]; intros m; simpl; [apply le_out_refl|].
  apply le_out_bind; [apply Hv|]. intros r. apply le_out_bind; [apply IH|]. intros. apply le_out_refl.
Qed.

Lemma visit_children_mono (v v' : visited_ty -> Expr -> visit_result) m e :
  (forall m e, le_out (v m e) (v' m e)) -> le_out (visit_children v m e) (visit_children v' m e).
Proof.
  intros Hv. apply le_out_bind; [by apply visit_kids_mono|]. intros r. case_bool_decide; [apply le_out_refl|].
  apply le_out_bind; [apply le_out_refl|]. intros e'. destruct (recursive V); [apply Hv|apply le_out_refl].
Qed.

Lemma visitActual_mono (v v' : visited_ty -> Expr -> visit_result) m e :
  (forall m e, le_out (v m e) (v' m e)) -> le_out (visitActual v m e) (visitActual v' m e).
Proof.
  intros Hv. unfold visitActual. destruct (isConstant e); [apply le_out_refl|].
  destruct (visitExpr V e); try apply le_out_refl. destruct (visitKind V e); try apply le_out_refl.
  apply le_out_bind; [by apply visit_children_mono|]. intros. apply le_out_refl.
Qed.

Lemma visit_mono n m e : le_out (ExprVisitor__visit n m e) (ExprVisitor__visit (S n) m e).
Proof.
  revert m e. induction n as [|n IH]; intros m e; [by left|].
  remember (S n) as n' eqn:En. rewrite En at 1. cbn [ExprVisitor__visit].
  destruct (negb UseVisitorHash || isConstant e); [apply visitActual_mono; intros; subst n'; apply IH|].
  destruct (m !! e); [apply le_out_refl|]. apply le_out_bind; [apply visitActual_mono; intros; subst n'; apply IH|].
  intros. apply le_out_refl.
Qed.

Lemma visit_more n n' m e r :
  ExprVisitor__visit n m e = Ret r -> (n <= n')%nat -> ExprVisitor__visit n' m e = Ret r.
Proof. intros Hr. induction 1 as [|n' _ IH]; [done|]. by eapply le_out_ret; [apply visit_mono|]. Qed.

Lemma visit_kids_more n n' m ks r :
  visit_kids (ExprVisitor__visit n) m ks = Ret r -> (n <= n')%nat ->
  visit_kids (ExprVisitor__visit n') m ks = Ret r.
Proof.
  intros Hr. induction 1 as [|n' _ IH]; [done|]. by eapply le_out_ret; [apply visit_kids_mono, visit_mono|].
Qed.

End Visit.

(** ** Visitors that replace expressions by constants *)

Section Sound.
Context `{ExprOptions} `{DivByZero}.
Hypothesis Hopt : ConstArrayOpt = false.
Variable heap : Z -> Array.
Hypothesis Hheap : forall p, adomain (heap p) <= 64.

(** The visitor is right on [D].  The divisors are not 0 on [M], which is not
    empty; when [strict] is set the reads are inside their arrays on [M] too,
    and there are no opaque nodes. *)
Variables (D M : assignment -> Prop) (strict : bool).
Hypothesis HMD : forall rho, M rho -> D rho.
Hypothesis HM : exists rho, M rho.

Definition read_ok (a : Array) (i : Expr) : Prop :=
  heap (aaddr a) = a /\ (strict = true -> forall rho, M rho -> eval rho i < asize a).
Definition div_ok (l r : Expr) : Prop := getWidth l <> 1 /\ forall rho, M rho -> eval rho r <> 0.
Definition opaque_ok (s : Expr) : Prop := strict = false.

Abbreviation nodes_ok := (holds read_ok div_ok opaque_ok).
Abbreviation nodes_upd_ok := (holds_upd read_ok div_ok opaque_ok).

Definition visit_ok (e : Expr) : Prop := wf e /\ nodes_ok e.

Lemma inb_off rho e : inb rho e.
Proof using Hopt. intros Ho. congruence. Qed.

Lemma nodes_built : (forall e, nodes_ok e -> built heap e) /\ (forall u, nodes_upd_ok u -> built_upd heap u).
Proof using HM.
  destruct HM as [rho0 HM0]. apply Expr_UpdateNode_ind; cbn [holds holds_upd built built_upd]; try tauto.
  - intros a u IHu i IHi ([Ha _] & Hu & Hi). split_and!; auto.
  - intros k l IHl r IHr (Hd & Hl & Hr). split_and!; auto. intros Hk. destruct (Hd Hk) as [Hw Hn].
    split; [done|]. intros c ->. by apply (Hn rho0).
Qed.

Lemma kids_ok e : visit_ok e -> Forall visit_ok (kids e).
Proof using Type.
  intros [Hwf Hn]. unfold visit_ok. destruct e; simpl in *; repeat (apply Forall_cons; split); try apply Forall_nil; tauto.
Qed.

(** What a visit may return for an expression. *)
Record simplified (e e' : Expr) : Prop := {
  sim_value : stands_for D e e';
  sim_ok : visit_ok e';
  sim_weight : e' = e \/ (weight e' < weight e)%nat
}.

Lemma simplified_refl e : visit_ok e -> simplified e e.
Proof using Hopt. intros He. split; auto. apply stands_for_refl; [apply He|]. intros. apply inb_off. Qed.

Lemma simplified_trans e e1 e2 : simplified e e1 -> simplified e1 e2 -> simplified e e2.
Proof using Type.
  intros [V1 O1 W1] [V2 O2 W2]. split; auto; [by eapply stands_for_trans|].
  destruct W1 as [->|], W2 as [->|]; auto; right; lia.
Qed.

Lemma simplified_constant e a :
  isConstant e = false -> isConstant a = true -> stands_for D e a -> simplified e a.
Proof using Type.
  intros He Ha Hv. split; auto.
  - split; [apply Hv|]. by destruct a.
  - right. apply weight_symbolic in He. apply weight_constant in Ha. lia.
Qed.

(** The weight of the operands. *)
Lemma kids_weight_le e : (kids_weight e (kids e) <= weight e)%nat.
Proof using Type. destruct e; unfold kids_weight; simpl; lia. Qed.

Lemma kids_weight_lt e ks ks' :
  Forall2 (fun k k' => k' = k \/ (weight k' < weight k)%nat) ks ks' -> ks' <> ks ->
  (kids_weight e ks' < kids_weight e ks)%nat.
Proof using Type.
  unfold kids_weight. set (b := match e with NotOptimized _ => _ | _ => _ end). clearbody b.
  assert (Hle : forall ks ks', Forall2 (fun k k' => k' = k \/ (weight k' < weight k)%nat) ks ks' ->
    (foldr (fun k n => weight k + n) b ks' <= foldr (fun k n => weight k + n) b ks)%nat).
  { induction 1 as [|k k' l l' Hk _ IH]; simpl; [lia|]. destruct Hk as [->|]; lia. }
  induction 1 as [|k k' l l' Hk Hl IH]; intros Hne; simpl; [done|]. pose proof (Hle _ _ Hl).
  destruct Hk as [->|]; [|lia]. apply Nat.add_lt_mono_l, IH. congruence.
Qed.

Lemma rebuild_simplified e ks :
  visit_ok e -> isConstant e = false -> Forall2 simplified (kids e) ks -> ks <> kids e ->
  exists e', rebuild e ks = Ret e' /\ simplified e e' /\ (weight e' < weight e)%nat.
Proof using HM HMD Hheap Hopt.
  intros [Hwf Hn] Hc Hks Hne. destruct HM as [rho0 HM0].
  assert (Hst : Forall2 (stands_for D) (kids e) ks)
    by (eapply Forall2_impl; [exact Hks|]; by intros ? ? []).
  assert (Hval : forall k k' rho, simplified k k' -> M rho -> eval rho k' = eval rho k)
    by (intros k k' rho [[_ _ _ Hv] _ _] HMr; auto).
  assert (Hdk : divisor_kept e ks).
  { destruct e; try done. simpl in Hks.
    inversion Hks as [|? l' ? ? _ Hks2]; subst. inversion Hks2 as [|? r' ? ? Hr Hks3]; subst. inversion Hks3; subst.
    intros Hk c ->. destruct Hn as (Hd & _ & _). destruct (Hd Hk) as [_ Hnz].
    specialize (Hnz rho0 HM0). by rewrite <- (Hval _ _ rho0 Hr HM0) in Hnz. }
  destruct (rebuild_built_creates D heap e ks) as (e' & E & Hd); auto.
  { by apply nodes_built. }
  { intros. apply inb_off. }
  exists e'. split; [done|].
  assert (Hnode : node_ok read_ok div_ok opaque_ok (with_kids e ks)).
  { destruct e as [|s|a u i|c t f|l r|x o w|s w|s w|x|k l r]; simpl in Hks; repeat match goal with
      | Hf : Forall2 _ (_ :: _) _ |- _ => inversion Hf; subst; clear Hf
      | Hf : Forall2 _ [] _ |- _ => inversion Hf; subst; clear Hf
      end; simpl in *; auto.
    - by destruct Hn.
    - destruct Hn as ([Ha Hs] & _ & _). split; [done|]. intros St rho HMr.
      match goal with Hy : simplified _ ?y |- _ => rewrite (Hval _ y rho Hy HMr) end. auto.
    - intros Hk. destruct Hn as (Hdv & _ & _). destruct (Hdv Hk) as [Hw Hnz]. split.
      + match goal with Hy : simplified l _ |- _ => by rewrite (den_width _ _ _ _ (sim_value _ _ Hy)) end.
      + intros rho HMr. match goal with Hy : simplified r _ |- _ => rewrite (Hval _ _ rho Hy HMr) end. auto. }
  assert (Hholds : Forall nodes_ok ks).
  { eapply Forall2_Forall_r; [exact Hks|]. apply Forall_forall. intros x _ y Hy. apply Hy. }
  destruct (rebuild_fit read_ok div_ok opaque_ok Hopt e ks Hholds Hnode) with (a := e') as [Hw Hh]; auto.
  { destruct e; simpl in *; tauto. }
  { symmetry. by eapply Forall2_length. }
  assert (Hlt : (weight e' < weight e)%nat).
  { pose proof (kids_weight_le e). pose proof (kids_weight_lt e (kids e) ks) as Hlt.
    assert (kids_weight e ks < kids_weight e (kids e))%nat; [|lia]. apply Hlt; [|done].
    eapply Forall2_impl; [exact Hks|]. by intros ? ? []. }
  split; [|done]. split; [done|split; [apply Hd|done]|by right].
Qed.

(** *** The visit *)

Variables (UseVisitorHash : bool) (V : ExprVisitor).

(** The visitor replaces by constants of the same value. *)
Definition replaces_constants : Prop := forall e a,
  visit_ok e -> isConstant e = false ->
  visitExpr V e = ChangeTo a \/ visitKind V e = ChangeTo a \/ visitExprPost V e = ChangeTo a ->
  isConstant a = true /\ stands_for D e a.

Hypothesis HV : replaces_constants.

Definition visited_ok (m : visited_ty) : Prop := forall e r, m !! e = Some r -> simplified e r.

Abbreviation visit := (ExprVisitor__visit UseVisitorHash V).

(** What is promised of a call: it may only run out of fuel. *)
Definition visits (e : Expr) (o : outcome (Expr * visited_ty)) : Prop :=
  match o with
  | Ret r => simplified e r.1 /\ visited_ok r.2
  | Stop err => err = OutOfFuel
  end.

Lemma visit_kids_ok (v : visited_ty -> Expr -> outcome (Expr * visited_ty)) ks :
  (forall m e, visited_ok m -> visit_ok e -> visits e (v m e)) ->
  forall m, visited_ok m -> Forall visit_ok ks ->
  match visit_kids v m ks with
  | Ret r => Forall2 simplified ks r.1 /\ visited_ok r.2
  | Stop err => err = OutOfFuel
  end.
Proof using Type.
  intros Hv. induction ks as [|k ks IH]; intros m Hm Hks; cbn [visit_kids].
  { split; [constructor|done]. }
  apply Forall_cons in Hks as [Hk Hks]. specialize (Hv m k Hm Hk). destruct (v m k) as [[k' m1]|err]; [|done].
  destruct Hv as [Hk' Hm1]. cbn [mbind outcome_bind snd fst]. specialize (IH m1 Hm1 Hks).
  destruct (visit_kids v m1 ks) as [[ks' m2]|err]; [|done]. destruct IH as [Hks' Hm2].
  cbn [mbind outcome_bind snd fst]. split; [by constructor|done].
Qed.

Lemma visit_children_ok (v : visited_ty -> Expr -> outcome (Expr * visited_ty)) m e :
  (forall m e, visited_ok m -> visit_ok e -> visits e (v m e)) ->
  visited_ok m -> visit_ok e -> isConstant e = false -> visits e (visit_children V v m e).
Proof using HM HMD Hheap Hopt.
  intros Hv Hm He Hc. unfold visit_children.
  pose proof (visit_kids_ok v (kids e) Hv m Hm (kids_ok e He)) as Hk.
  destruct (visit_kids v m (kids e)) as [[ks m1]|err]; [|done]. cbn [fst snd] in Hk. destruct Hk as [Hks Hm1].
  cbn [mbind outcome_bind fst snd]. case_bool_decide as Eq; [split; [by apply simplified_refl|done]|].
  destruct (rebuild_simplified e ks He Hc Hks Eq) as (e' & -> & Hs & _). cbn [mbind outcome_bind].
  destruct (recursive V); [|done]. specialize (Hv m1 e' Hm1 (sim_ok _ _ Hs)).
  destruct (v m1 e') as [[e2 m2]|err]; [|done]. destruct Hv as [Hs2 Hm2]. split; [|done].
  by eapply simplified_trans.
Qed.

Lemma visit_post_ok e :
  visit_ok e ->
  simplified e (if isConstant e then e else match visitExprPost V e with ChangeTo a => a | _ => e end).
Proof using HV Hopt.
  intros He. destruct (isConstant e) eqn:Ec; [by apply simplified_refl|].
  destruct (visitExprPost V e) as [| |a] eqn:Ep; try by apply simplified_refl.
  destruct (HV e a He Ec) as [Ha Hs]; [auto|]. by apply simplified_constant.
Qed.

Lemma visitActual_ok (v : visited_ty -> Expr -> outcome (Expr * visited_ty)) m e :
  (forall m e, visited_ok m -> visit_ok e -> visits e (v m e)) ->
  visited_ok m -> visit_ok e -> visits e (visitActual V v m e).
Proof using HM HMD HV Hheap Hopt.
  intros Hv Hm He. unfold visitActual. destruct (isConstant e) eqn:Ec; [split; [by apply simplified_refl|done]|].
  assert (Hchange : forall a, visitExpr V e = ChangeTo a \/ visitKind V e = ChangeTo a -> visits e (Ret (a, m))).
  { intros a Ha. destruct (HV e a He Ec) as [Hca Hs]; [tauto|]. split; [by apply simplified_constant|done]. }
  destruct (visitExpr V e) as [| |a] eqn:E1; [split; [by apply simplified_refl|done]| |by apply Hchange; left].
  destruct (visitKind V e) as [| |a] eqn:E2; [split; [by apply simplified_refl|done]| |by apply Hchange; right].
  pose proof (visit_children_ok v m e Hv Hm He Ec) as Hc.
  destruct (visit_children V v m e) as [[e1 m1]|err]; [|done]. destruct Hc as [Hs Hm1].
  cbn [mbind outcome_bind fst snd] in *. split; [|done]. cbn [fst].
  eapply simplified_trans; [exact Hs|]. apply visit_post_ok, Hs.
Qed.

Lemma visited_insert_ok e r m : visited_ok m -> simplified e r -> visited_ok (visited_insert e r m).
Proof using Type.
  intros Hm Hs. unfold visited_insert. destruct (m !! e) eqn:E; [done|]. intros x y Hx.
  destruct (decide (x = e)) as [->|Hne].
  - rewrite lookup_insert_eq in Hx. by simplify_eq.
  - rewrite lookup_insert_ne in Hx by done. by apply Hm.
Qed.

(** Whatever the fuel, a visit that returns is right. *)
Lemma visit_sound n : forall m e, visited_ok m -> visit_ok e -> visits e (visit n m e).
Proof using HM HMD HV Hheap Hopt.
  induction n as [|n IH]; intros m e Hm He; cbn [ExprVisitor__visit]; [done|].
  pose proof (visitActual_ok _ m e IH Hm He) as Ha.
  destruct (negb UseVisitorHash || isConstant e); [done|].
  destruct (m !! e) as [r|] eqn:El; [split; [by apply Hm|done]|].
  destruct (visitActual V (visit n) m e) as [[e1 m1]|err]; [|done]. destruct Ha as [Hs Hm1].
  cbn [mbind outcome_bind fst snd]. split; [done|]. by apply visited_insert_ok.
Qed.

(** *** Termination *)

Definition returns_with (m : visited_ty) (e : Expr) : Prop := exists n r, visit n m e = Ret r.

Lemma visit_kids_ends ks :
  Forall (fun k => forall m, visited_ok m -> returns_with m k) ks -> Forall visit_ok ks ->
  forall m, visited_ok m -> exists n r, visit_kids (visit n) m ks = Ret r.
Proof using HM HMD HV Hheap Hopt.
  induction ks as [|k ks IH]; intros Hks Hok m Hm; [by exists O, ([], m)|].
  apply Forall_cons in Hks as [Hk Hks]. apply Forall_cons in Hok as [Hok1 Hok].
  destruct (Hk m Hm) as (n1 & [k' m1] & E1). pose proof (visit_sound n1 m k Hm Hok1) as Hs. rewrite E1 in Hs.
  destruct Hs as [_ Hm1]. cbn [snd] in Hm1. destruct (IH Hks Hok m1 Hm1) as (n2 & r2 & E2).
  exists (Nat.max n1 n2). eexists. cbn [visit_kids].
  rewrite (visit_more _ _ n1 (Nat.max n1 n2) m k _ E1) by lia. cbn [mbind outcome_bind fst snd].
  by rewrite (visit_kids_more _ _ n2 (Nat.max n1 n2) m1 ks _ E2) by lia.
Qed.

(** The size of an expression without its updates. *)
Fixpoint height (e : Expr) : nat :=
  match e with
  | Constant _ => O
  | NotOptimized s => S (height s)
  | Read _ _ i => S (height i)
  | Select c t f => S (height c + height t + height f)
  | Concat l r => S (height l + height r)
  | Extract x _ _ => S (height x)
  | ZExt s _ => S (height s)
  | SExt s _ => S (height s)
  | Not x => S (height x)
  | Binary _ l r => S (height l + height r)
  end.

Lemma kids_height e : Forall (fun k => height k < height e /\ weight k <= weight e)%nat (kids e).
Proof using Type. destruct e; simpl; repeat (apply Forall_cons; split); try apply Forall_nil; simpl; lia. Qed.

(** The operands end, and so does what weighs less. *)
Lemma visit_children_ends m e :
  visit_ok e -> isConstant e = false -> visited_ok m ->
  Forall (fun k => forall m, visited_ok m -> returns_with m k) (kids e) ->
  (forall e', (weight e' < weight e)%nat -> visit_ok e' -> forall m, visited_ok m -> returns_with m e') ->
  exists n r, visit_children V (visit n) m e = Ret r.
Proof using HM HMD HV Hheap Hopt.
  intros He Hc Hm Hkids Hless.
  destruct (visit_kids_ends (kids e) Hkids (kids_ok e He) m Hm) as (n1 & [ks m1] & E1).
  pose proof (visit_kids_ok (visit n1) (kids e) (visit_sound n1) m Hm (kids_ok e He)) as Hk.
  rewrite E1 in Hk. destruct Hk as [Hks Hm1]. cbn [fst snd] in *. unfold visit_children.
  destruct (decide (ks = kids e)) as [Eq|Hne].
  { exists n1. eexists. rewrite E1. cbn [mbind outcome_bind fst snd]. by rewrite bool_decide_true by done. }
  destruct (rebuild_simplified e ks He Hc Hks Hne) as (e' & Er & Hs & Hlt).
  destruct (recursive V) eqn:Erec.
  - destruct (Hless e' Hlt (sim_ok _ _ Hs) m1 Hm1) as (n2 & r2 & E2).
    exists (Nat.max n1 n2), r2. rewrite (visit_kids_more _ _ n1 (Nat.max n1 n2) m _ _ E1) by lia.
    cbn [mbind outcome_bind fst snd]. rewrite bool_decide_false by done. rewrite Er. cbn [mbind outcome_bind].
    by rewrite (visit_more _ _ n2 (Nat.max n1 n2) m1 e' _ E2) by lia.
  - exists n1. eexists. rewrite E1. cbn [mbind outcome_bind fst snd]. rewrite bool_decide_false by done.
    by rewrite Er.
Qed.

(** The weight decreases when a rebuilt node is visited again, the height when
    an operand is. *)
Lemma visit_ends e : visit_ok e -> forall m, visited_ok m -> returns_with m e.
Proof using HM HMD HV Hheap Hopt.
  remember (weight e) as w eqn:Ew. revert e Ew. induction (lt_wf w) as [w _ IHw]. intros e Ew.
  remember (height e) as h eqn:Eh. revert e Ew Eh. induction (lt_wf h) as [h _ IHh]. intros e Ew Eh He m Hm.
  assert (Hkids : Forall (fun k => forall m, visited_ok m -> returns_with m k) (kids e)).
  { pose proof (kids_ok e He) as Hok. pose proof (kids_height e) as Hh. rewrite Forall_forall in *.
    intros k Hk m' Hm'. destruct (Hh k Hk) as [Hlt Hle]. specialize (Hok k Hk).
    destruct (decide (weight k = w)) as [Ek|].
    - by apply (IHh (height k)); auto; lia.
    - by apply (IHw (weight k)); auto; lia. }
  assert (Hact : exists n r, visitActual V (visit n) m e = Ret r).
  { unfold visitActual. destruct (isConstant e) eqn:Ec; [by exists O; eexists|].
    destruct (visitExpr V e); [by exists O; eexists| |by exists O; eexists].
    destruct (visitKind V e); [by exists O; eexists| |by exists O; eexists].
    destruct (visit_children_ends m e He Ec Hm Hkids) as (n & r & E); [|exists n; eexists; by rewrite E].
    intros e' Hlt He' m' Hm'. apply (IHw (weight e')); auto; lia. }
  destruct Hact as (n & r & E). exists (S n). cbn [ExprVisitor__visit].
  destruct (negb UseVisitorHash || isConstant e); [by exists r|].
  destruct (m !! e); [by eexists|]. rewrite E. by eexists.
Qed.

End Sound.
