(* ===== verification/Constraints.v ===== *)
(** * The path condition

    [lib/Expr/Constraints.cpp]: the constraints of a state, simplified as they
    are added.  A new constraint is simplified by the equalities that are
    known, conjunctions are split, and an equality with a constant rewrites
    the constraints that are there, each of which may be split or rewrite
    others in turn.  The theorems: simplification keeps the value under the
    constraints, and adding a constraint ends in a set of constraints with the
    solutions of the old ones and the new one. *)

From S2P Require Import Prelude ExprData ExprCreate ExprSem ExprBool ExprArith ExprBits ExprSpec ExprOrder ExprHeap ExprRebuild ExprNodes ExprVisitor.

(** ** Visitors *)

Definition ExprReplaceVisitor (src dst : Expr) : ExprVisitor := {|
  visitExpr e := if expr_eqb e src then ChangeTo dst else DoChildren;
  visitKind := ExprVisitor__visitKind;
  visitExprPost e := if expr_eqb e src then ChangeTo dst else DoChildren;
  recursive := false
|}.

Definition ExprReplaceVisitor2 (replacements : gmap Expr Expr) : ExprVisitor := {|
  visitExpr := ExprVisitor__visitExpr;
  visitKind := ExprVisitor__visitKind;
  visitExprPost e := match replacements !! e with Some v => ChangeTo v | None => DoChildren end;
  recursive := true
|}.

Section Manager.
Context `{ExprOptions}.
(** The options [--use-visitor-hash] and [--rewrite-equalities]. *)
Variables (UseVisitorHash RewriteEqualities : bool).

(** What a constraint says: its right operand has the value of a constant, or
    it is true.  [std::map::insert] keeps an entry that is there. *)
Definition add_equality (equalities : gmap Expr Expr) (constraint : Expr) : gmap Expr Expr :=
  match constraint with
  | Binary Kind.Eq (Constant c) r => visited_insert r (Constant c) equalities
  | _ => visited_insert constraint (Constant (ConstantExpr__alloc 1 1)) equalities
  end.

Definition equalities_of (constraints : list Expr) : gmap Expr Expr :=
  fold_left add_equality constraints ∅.

Definition simplifyExpr (fuel : nat) (constraints : list Expr) (e : Expr) : outcome Expr :=
  if isConstant e then Ret e
  else
    r ← ExprVisitor__visit UseVisitorHash (ExprReplaceVisitor2 (equalities_of constraints)) fuel ∅ e;
    Ret r.1.

(** The loop over the old constraints; [add] is [addConstraintInternal]. *)
Fixpoint rewrite_loop (add : list Expr -> Expr -> outcome (list Expr)) (fuel : nat)
    (visitor : ExprVisitor) (visited : visited_ty) (constraints : list Expr) (changed : bool)
    (old : list Expr) : outcome (list Expr * bool) :=
  match old with
  | [] => Ret (constraints, changed)
  | ce :: old =>
      r ← ExprVisitor__visit UseVisitorHash visitor fuel visited ce;
      if expr_eqb r.1 ce
      then rewrite_loop add fuel visitor r.2 (constraints ++ [ce]) changed old
      else
        constraints' ← add constraints r.1;
        rewrite_loop add fuel visitor r.2 constraints' true old
  end.

Definition rewriteConstraints (add : list Expr -> Expr -> outcome (list Expr)) (fuel : nat)
    (visitor : ExprVisitor) (constraints : list Expr) : outcome (list Expr * bool) :=
  rewrite_loop add fuel visitor ∅ [] false constraints.

Fixpoint addConstraintInternal (fuel : nat) (constraints : list Expr) (e : Expr)
    : outcome (list Expr) :=
  match fuel with
  | O => Stop OutOfFuel
  | S n =>
      match e with
      | Constant c => _ ← assertM (isTrue c); Ret constraints
      | Binary Kind.And l r =>
          constraints' ← addConstraintInternal n constraints l;
          addConstraintInternal n constraints' r
      | Binary Kind.Eq l r =>
          constraints' ←
            (if RewriteEqualities && isConstant l then
               p ← rewriteConstraints (addConstraintInternal n) n (ExprReplaceVisitor r l) constraints;
               Ret p.1
             else Ret constraints);
          Ret (constraints' ++ [e])
      | _ => Ret (constraints ++ [e])
      end
  end.

Definition addConstraint (fuel : nat) (constraints : list Expr) (e : Expr) : outcome (list Expr) :=
  simplified ← simplifyExpr fuel constraints e;
  addConstraintInternal fuel constraints simplified.

(** ** More fuel *)

Lemma rewrite_loop_mono add add' n visitor old :
  (forall cs e, le_out (add cs e) (add' cs e)) -> forall visited cs b,
  le_out (rewrite_loop add n visitor visited cs b old) (rewrite_loop add' (S n) visitor visited cs b old).
Proof.
  intros Hadd. induction old as [|ce old IH]; intros visited cs b; [apply le_out_refl|].
  cbn [rewrite_loop]. apply le_out_bind; [apply visit_mono|]. intros r. destruct (expr_eqb r.1 ce); [apply IH|].
  apply le_out_bind; [apply Hadd|]. intros. apply IH.
Qed.

Lemma addConstraintInternal_mono n cs e :
  le_out (addConstraintInternal n cs e) (addConstraintInternal (S n) cs e).
Proof.
  revert cs e. induction n as [|n IH]; intros cs e; [by left|].
  remember (S n) as n' eqn:En. rewrite En at 1. cbn [addConstraintInternal].
  assert (Hadd : forall cs e, le_out (addConstraintInternal n cs e) (addConstraintInternal n' cs e)) by (intros; subst n'; apply IH).
  destruct e as [c| | | | | | | | |k l r]; try apply le_out_refl.
  destruct k; try apply le_out_refl.
  - apply le_out_bind; [apply Hadd|]. intros. apply Hadd.
  - apply le_out_bind; [|intros; apply le_out_refl]. destruct (RewriteEqualities && isConstant l); [|apply le_out_refl].
    apply le_out_bind; [|intros; apply le_out_refl]. unfold rewriteConstraints. subst n'. by apply rewrite_loop_mono.
Qed.

Lemma addConstraintInternal_more n m cs e r :
  addConstraintInternal n cs e = Ret r -> (n <= m)%nat -> addConstraintInternal m cs e = Ret r.
Proof. intros Hr. induction 1 as [|m _ IH]; [done|]. by eapply le_out_ret; [apply addConstraintInternal_mono|]. Qed.

Lemma rewrite_loop_more n m visitor old visited cs b r :
  rewrite_loop (addConstraintInternal n) n visitor visited cs b old = Ret r -> (n <= m)%nat ->
  rewrite_loop (addConstraintInternal m) m visitor visited cs b old = Ret r.
Proof.
  intros Hr. induction 1 as [|m _ IH]; [done|].
  eapply le_out_ret; [apply rewrite_loop_mono; intros; apply addConstraintInternal_mono|done].
Qed.

Lemma simplifyExpr_more n m cs e r :
  simplifyExpr n cs e = Ret r -> (n <= m)%nat -> simplifyExpr m cs e = Ret r.
Proof.
  unfold simplifyExpr. destruct (isConstant e); [done|]. intros Hr Hle.
  destruct (ExprVisitor__visit _ _ n ∅ e) as [r'|] eqn:E; [|done]. by rewrite (visit_more _ _ n m ∅ e r').
Qed.

End Manager.

(** ** What constraints mean *)

Section Sound.
Context `{ExprOptions} `{DivByZero}.
Hypothesis Hopt : ConstArrayOpt = false.
Variable heap : Z -> Array.
Hypothesis Hheap : forall p, adomain (heap p) <= 64.
Variables (UseVisitorHash RewriteEqualities : bool).

Definition holds_all (rho : assignment) (cs : list Expr) : Prop := Forall (fun c => eval rho c = 1) cs.

(** [M] are solutions under which no division of the constraints is by 0. *)
Variables (M : assignment -> Prop) (strict : bool).
Hypothesis HM : exists rho, M rho.

Abbreviation vok := (visit_ok heap M strict).

Definition condition_ok (c : Expr) : Prop := vok c /\ getWidth c = 1.
Definition conditions_ok (cs : list Expr) : Prop := Forall condition_ok cs.

(** What simplification asks of the constraints. *)
Definition booleans (cs : list Expr) : Prop := Forall (fun c => wf c /\ getWidth c = 1) cs.

Lemma conditions_booleans cs : conditions_ok cs -> booleans cs.
Proof using Type. intros Hcs. eapply Forall_impl; [exact Hcs|]. by intros c [[? _] ?]. Qed.

Lemma eval_condition rho c : wf c -> getWidth c = 1 -> eval rho c = 0 \/ eval rho c = 1.
Proof using Type. intros Hwf Hw. pose proof (proj1 (eval_range rho) c Hwf) as Hr. rewrite Hw in Hr. lia. Qed.

Lemma eval_Eq rho l r : wf (Binary Kind.Eq l r) -> eval rho (Binary Kind.Eq l r) = 1 <-> eval rho l = eval rho r.
Proof using Type.
  intros _. simpl. unfold binop_value. simpl. destruct (Z.eqb_spec (eval rho l) (eval rho r)); simpl; split; intros; done || lia.
Qed.

Lemma eval_And rho l r :
  wf (Binary Kind.And l r) -> getWidth l = 1 ->
  eval rho (Binary Kind.And l r) = 1 <-> eval rho l = 1 /\ eval rho r = 1.
Proof using Type.
  intros (Hl & Hr & Hw) H1. destruct (eval_condition rho l Hl H1) as [El|El], (eval_condition rho r Hr) as [Er|Er];
    try congruence; cbn [eval]; rewrite El, Er; cbn; split; intros; try lia; done.
Qed.

(** *** Simplification by what is known *)

Definition entries_ok (D : assignment -> Prop) (m : gmap Expr Expr) : Prop :=
  forall k v, m !! k = Some v -> isConstant v = true /\ stands_for D k v.

Lemma entries_insert D m k v :
  entries_ok D m -> isConstant v = true -> stands_for D k v -> entries_ok D (visited_insert k v m).
Proof using Type.
  intros Hm Hc Hv x y Hx. unfold visited_insert in Hx. destruct (m !! k) eqn:E; [by apply Hm|].
  destruct (decide (x = k)) as [->|].
  - rewrite lookup_insert_eq in Hx. by simplify_eq.
  - rewrite lookup_insert_ne in Hx by done. by apply Hm.
Qed.

Lemma stands_for_constant (D : assignment -> Prop) e c :
  wf_const c -> cwidth c = getWidth e -> (forall rho, D rho -> eval rho e = cvalue c) -> stands_for D e (Constant c).
Proof using Type. intros Hc Hw Hv. split; auto; [done|]. intros rho HD. symmetry. by apply Hv. Qed.

Lemma add_equality_ok (D : assignment -> Prop) m c :
  entries_ok D m -> wf c -> getWidth c = 1 -> (forall rho, D rho -> eval rho c = 1) ->
  entries_ok D (add_equality m c).
Proof using Type.
  intros Hm Hwf Hw Htrue.
  assert (Hplain : entries_ok D (visited_insert c (Constant (ConstantExpr__alloc 1 1)) m)).
  { apply entries_insert; [done|done|]. by apply stands_for_constant. }
  unfold add_equality. destruct c as [| | | | | | | | |k l r]; try exact Hplain.
  destruct k; try exact Hplain. destruct l as [cl| | | | | | | | |]; try exact Hplain.
  apply entries_insert; [done|done|]. pose proof Hwf as (Hl & Hr & Hlr). apply stands_for_constant; [done|done|].
  intros rho HD. symmetry. apply (eval_Eq rho (Constant cl) r Hwf). auto.
Qed.

Lemma equalities_of_ok cs :
  booleans cs -> entries_ok (fun rho => holds_all rho cs) (equalities_of cs).
Proof using Type.
  intros Hcs. unfold equalities_of.
  assert (Hgen : forall D l m, entries_ok D m -> booleans l -> (forall rho, D rho -> holds_all rho l) ->
    entries_ok D (fold_left add_equality l m)).
  { intros D l. induction l as [|c l IH]; intros m Hm Hl HD; [done|]. apply Forall_cons in Hl as [[Hwf Hw] Hl].
    apply IH; [|done|intros rho Hr; by destruct (proj1 (Forall_cons _ _ _) (HD rho Hr))].
    apply add_equality_ok; auto. intros rho Hr. by destruct (proj1 (Forall_cons _ _ _) (HD rho Hr)). }
  apply Hgen; auto. intros k v. by rewrite lookup_empty.
Qed.

Lemma empty_visited_ok D m' : visited_ok heap D M m' ∅.
Proof using Type. intros e r. by rewrite lookup_empty. Qed.

Lemma ReplaceVisitor2_ok (D : assignment -> Prop) m :
  entries_ok D m -> replaces_constants heap D M strict (ExprReplaceVisitor2 m).
Proof using Type.
  intros Hm e a _ _ [E|[E|E]]; simpl in E; try done. destruct (m !! e) eqn:El; [|done]. simplify_eq.
  by apply Hm.
Qed.

(** Simplification ends, and keeps the value under the constraints. *)
Lemma simplifyExpr_ok cs e :
  booleans cs -> vok e -> (forall rho, M rho -> holds_all rho cs) ->
  exists n e', (forall m, (n <= m)%nat -> simplifyExpr UseVisitorHash m cs e = Ret e') /\
    simplified heap (fun rho => holds_all rho cs) M strict e e'.
Proof using HM Hheap Hopt.
  intros Hcs He HMcs. set (D := fun rho => holds_all rho cs).
  destruct (isConstant e) eqn:Ec.
  { exists O, e. split; [intros m _; unfold simplifyExpr; by rewrite Ec|]. by apply simplified_refl. }
  pose proof (ReplaceVisitor2_ok D _ (equalities_of_ok cs Hcs)) as HV.
  destruct (visit_ends Hopt heap Hheap D M strict HMcs HM UseVisitorHash _ HV e He ∅ (empty_visited_ok D strict)) as (n & r & E).
  pose proof (visit_sound Hopt heap Hheap D M strict HMcs HM UseVisitorHash _ HV n ∅ e (empty_visited_ok D strict) He) as Hs.
  rewrite E in Hs. destruct Hs as [Hs _]. exists n, r.1. split; [|done]. intros m Hm.
  apply (simplifyExpr_more UseVisitorHash n m); [|done]. unfold simplifyExpr. by rewrite Ec, E.
Qed.

(** *** Adding a constraint *)

Definition total_weight (cs : list Expr) : nat := sum_list_with weight cs.

Lemma total_weight_app cs cs' : total_weight (cs ++ cs') = (total_weight cs + total_weight cs')%nat.
Proof using Type. apply sum_list_with_app. Qed.

Lemma holds_all_app rho cs cs' : holds_all rho (cs ++ cs') <-> holds_all rho cs /\ holds_all rho cs'.
Proof using Type. apply Forall_app. Qed.

Lemma holds_all_one rho c : holds_all rho [c] <-> eval rho c = 1.
Proof using Type. unfold holds_all. by rewrite Forall_singleton. Qed.

(** The new set has the solutions of the old one and the new constraint, on
    [D]; it weighs no more than they do. *)
Record added (D : assignment -> Prop) (cs : list Expr) (e : Expr) (cs' : list Expr) : Prop := {
  ad_ok : conditions_ok cs';
  ad_sols : forall rho, D rho -> holds_all rho cs' <-> holds_all rho cs /\ eval rho e = 1;
  ad_weight : (total_weight cs' <= total_weight cs + weight e)%nat
}.

(** What the promise is made for. *)
Record addable (cs : list Expr) (e : Expr) : Prop := {
  pre_cs : conditions_ok cs;
  pre_e : condition_ok e;
  pre_sols : forall rho, M rho -> holds_all rho cs /\ eval rho e = 1
}.

Definition adds (D : assignment -> Prop) (cs : list Expr) (e : Expr) (o : outcome (list Expr)) : Prop :=
  match o with Ret cs' => added D cs e cs' | Stop err => err = OutOfFuel end.

Lemma push_back_added D cs e : conditions_ok cs -> condition_ok e -> added D cs e (cs ++ [e]).
Proof using Type.
  intros Hcs He. split.
  - apply Forall_app. split; [done|]. by apply Forall_singleton.
  - intros rho _. by rewrite holds_all_app, holds_all_one.
  - rewrite total_weight_app. simpl. lia.
Qed.

Lemma ReplaceVisitor_ok c src :
  wf_const c -> cwidth c = getWidth src ->
  replaces_constants heap (fun rho => eval rho src = cvalue c) M strict (ExprReplaceVisitor src (Constant c)).
Proof using Type.
  intros Hc Hw e a _ _ [E|[E|E]]; simpl in E; try done; destruct (expr_eqb e src) eqn:Eq; try done;
    apply expr_eqb_eq in Eq; simplify_eq; (split; [done|]); by apply stands_for_constant.
Qed.

(** The loop that rewrites the constraints [old], when [prefix] is done. *)
Section Rewrite.
Variables (D : assignment -> Prop) (V : ExprVisitor) (old : list Expr).
Hypothesis HMD : forall rho, M rho -> D rho.
Hypothesis HV : replaces_constants heap D M strict V.
Hypothesis Hold : conditions_ok old.
Hypothesis HMold : forall rho, M rho -> holds_all rho old.

Record loop_inv (prefix cs : list Expr) : Prop := {
  li_ok : conditions_ok cs;
  li_sols : forall rho, D rho -> holds_all rho cs <-> holds_all rho prefix;
  li_weight : (total_weight cs <= total_weight prefix)%nat
}.

Lemma loop_inv_next prefix cs cs2 ce :
  loop_inv prefix cs -> conditions_ok cs2 ->
  (forall rho, D rho -> holds_all rho cs2 <-> holds_all rho cs /\ eval rho ce = 1) ->
  (total_weight cs2 <= total_weight cs + weight ce)%nat -> loop_inv (prefix ++ [ce]) cs2.
Proof using Type.
  intros [L1 L2 L3] Hcs2 Hs2 Hw2. split; auto.
  - intros rho HD. rewrite Hs2, holds_all_app, holds_all_one by done. by rewrite L2.
  - rewrite total_weight_app. simpl. lia.
Qed.

Lemma rewrite_step prefix rest ce ce' cs :
  old = prefix ++ ce :: rest -> loop_inv prefix cs -> simplified heap D M strict ce ce' ->
  if expr_eqb ce' ce then loop_inv (prefix ++ [ce]) (cs ++ [ce])
  else addable cs ce' /\ (total_weight cs + weight ce' < total_weight old)%nat /\
       forall cs2, added (fun _ => True) cs ce' cs2 -> loop_inv (prefix ++ [ce]) cs2.
Proof using HMD HMold Hold.
  intros Eold Hinv Hs. pose proof Hinv as [L1 L2 L3].
  assert (Hce : condition_ok ce).
  { rewrite Eold in Hold. apply Forall_app in Hold as [_ Hc]. by apply Forall_cons in Hc as [? _]. }
  destruct (expr_eqb ce' ce) eqn:Eq.
  - apply expr_eqb_eq in Eq as ->. destruct (push_back_added D cs ce L1 Hce). by apply (loop_inv_next prefix cs).
  - destruct (sim_weight _ _ _ _ _ _ Hs) as [->|Hlt]; [by rewrite (proj2 (expr_eqb_eq ce ce) eq_refl) in Eq|].
    pose proof (sim_value _ _ _ _ _ _ Hs) as [_ Hw' _ Hv']. split_and!.
    + split; [done|split; [apply Hs|by rewrite Hw', (proj2 Hce)]|]. intros rho HMr. pose proof (HMold rho HMr) as Hm.
      rewrite Eold, holds_all_app in Hm. destruct Hm as [Hm1 Hm2]. apply Forall_cons in Hm2 as [Hm2 _].
      split; [by apply L2; auto|]. rewrite Hv' by auto. done.
    + rewrite Eold, total_weight_app. unfold total_weight at 2 3. simpl. fold (total_weight prefix). lia.
    + intros cs2 [A1 A2 A3]. apply (loop_inv_next prefix cs); [done|done| |lia].
      intros rho HD. rewrite A2 by done. by rewrite Hv' by done.
Qed.

Lemma rewrite_loop_ok add n rest :
  (forall cs e, addable cs e -> (total_weight cs + weight e < total_weight old)%nat ->
     adds (fun _ => True) cs e (add cs e)) ->
  forall visited cs b prefix, old = prefix ++ rest -> visited_ok heap D M strict visited -> loop_inv prefix cs ->
    match rewrite_loop UseVisitorHash add n V visited cs b rest with
    | Ret r => loop_inv old r.1
    | Stop err => err = OutOfFuel
    end.
Proof using HM HMD HMold HV Hheap Hold Hopt.
  intros Hadd. induction rest as [|ce rest IH]; intros visited cs b prefix Eold Hvis Hinv; cbn [rewrite_loop].
  { rewrite app_nil_r in Eold. by subst prefix. }
  assert (Hce : vok ce).
  { rewrite Eold in Hold. apply Forall_app in Hold as [_ Hc]. by apply Forall_cons in Hc as [[? _] _]. }
  assert (Eold' : old = (prefix ++ [ce]) ++ rest) by (by rewrite <- app_assoc).
  pose proof (visit_sound Hopt heap Hheap D M strict HMD HM UseVisitorHash V HV n visited ce Hvis Hce) as Hv.
  destruct (ExprVisitor__visit UseVisitorHash V n visited ce) as [[ce' visited']|err]; [|done].
  destruct Hv as [Hs Hvis']. cbn [mbind outcome_bind fst snd] in *.
  pose proof (rewrite_step prefix rest ce ce' cs Eold Hinv Hs) as Hstep.
  destruct (expr_eqb ce' ce); [by apply (IH visited' _ b (prefix ++ [ce]))|].
  destruct Hstep as (Hpre & Hlt & Hnext). specialize (Hadd cs ce' Hpre Hlt).
  destruct (add cs ce') as [cs2|err]; [|done]. by apply (IH visited' cs2 true (prefix ++ [ce])); auto.
Qed.

Lemma rewrite_loop_ends rest :
  (forall n cs e, addable cs e -> adds (fun _ => True) cs e (addConstraintInternal UseVisitorHash RewriteEqualities n cs e)) ->
  (forall cs e, addable cs e -> (total_weight cs + weight e < total_weight old)%nat ->
     exists n r, addConstraintInternal UseVisitorHash RewriteEqualities n cs e = Ret r) ->
  forall visited cs b prefix, old = prefix ++ rest -> visited_ok heap D M strict visited -> loop_inv prefix cs ->
    exists n r, rewrite_loop UseVisitorHash (addConstraintInternal UseVisitorHash RewriteEqualities n) n V visited cs b rest = Ret r.
Proof using HM HMD HMold HV Hheap Hold Hopt.
  intros Hsound Hadd. induction rest as [|ce rest IH]; intros visited cs b prefix Eold Hvis Hinv; cbn [rewrite_loop].
  { exists O. by eexists. }
  assert (Hce : vok ce).
  { rewrite Eold in Hold. apply Forall_app in Hold as [_ Hc]. by apply Forall_cons in Hc as [[? _] _]. }
  assert (Eold' : old = (prefix ++ [ce]) ++ rest) by (by rewrite <- app_assoc).
  destruct (visit_ends Hopt heap Hheap D M strict HMD HM UseVisitorHash V HV ce Hce visited Hvis) as (n1 & [ce' visited'] & E1).
  pose proof (visit_sound Hopt heap Hheap D M strict HMD HM UseVisitorHash V HV n1 visited ce Hvis Hce) as Hv.
  rewrite E1 in Hv. destruct Hv as [Hs Hvis']. cbn [fst snd] in *.
  pose proof (rewrite_step prefix rest ce ce' cs Eold Hinv Hs) as Hstep.
  destruct (expr_eqb ce' ce) eqn:Eq.
  - destruct (IH visited' _ b (prefix ++ [ce]) Eold' Hvis' Hstep) as (n2 & r & E2).
    exists (Nat.max n1 n2), r. rewrite (visit_more _ _ n1 (Nat.max n1 n2) _ _ _ E1) by lia.
    cbn [mbind outcome_bind fst snd]. rewrite Eq. by apply (rewrite_loop_more _ _ n2); [|lia].
  - destruct Hstep as (Hpre & Hlt & Hnext). destruct (Hadd cs ce' Hpre Hlt) as (n2 & cs2 & E2).
    pose proof (Hsound n2 cs ce' Hpre) as Ha. rewrite E2 in Ha.
    destruct (IH visited' cs2 true (prefix ++ [ce]) Eold' Hvis' (Hnext cs2 Ha)) as (n3 & r & E3).
    set (n := Nat.max n1 (Nat.max n2 n3)). exists n, r. rewrite (visit_more _ _ n1 n _ _ _ E1) by lia.
    cbn [mbind outcome_bind fst snd]. rewrite Eq, (addConstraintInternal_more _ _ n2 n _ _ _ E2) by lia.
    cbn [mbind outcome_bind]. by apply (rewrite_loop_more _ _ n3); [|lia].
Qed.

End Rewrite.

Abbreviation add := (addConstraintInternal UseVisitorHash RewriteEqualities).

(** The parts of a conjunction. *)
Lemma addable_and cs l r :
  addable cs (Binary Kind.And l r) ->
  addable cs l /\ forall cs', added (fun _ => True) cs l cs' -> addable cs' r.
Proof using Type.
  intros [P1 [[Hwf Hn] Hw] P3]. pose proof Hwf as (Hl & Hr & Hlr). pose proof Hn as (_ & Hnl & Hnr).
  simpl in Hw. assert (Hsol : forall rho, M rho -> holds_all rho cs /\ eval rho l = 1 /\ eval rho r = 1).
  { intros rho HMr. destruct (P3 rho HMr) as [Hc He]. by rewrite eval_And in He by done. }
  split.
  - split; [done|by split|]. intros rho HMr. by destruct (Hsol rho HMr) as (? & ? & ?).
  - intros cs' [A1 A2 A3]. split; [done|split; [by split|congruence]|]. intros rho HMr.
    destruct (Hsol rho HMr) as (? & ? & ?). split; [|done]. by apply A2.
Qed.

Lemma added_and cs l r cs1 cs2 :
  condition_ok (Binary Kind.And l r) -> added (fun _ => True) cs l cs1 -> added (fun _ => True) cs1 r cs2 ->
  added (fun _ => True) cs (Binary Kind.And l r) cs2.
Proof using Type.
  intros [[Hwf _] Hw] [A1 A2 A3] [B1 B2 B3]. split; auto; [|simpl; lia].
  intros rho _. rewrite B2, A2, eval_And by done. tauto.
Qed.

(** An equality with a constant: the facts the loop needs. *)
Lemma equality_loop cs c r :
  addable cs (Binary Kind.Eq (Constant c) r) ->
  let D := fun rho => eval rho r = cvalue c in
  (forall rho, M rho -> D rho) /\ replaces_constants heap D M strict (ExprReplaceVisitor r (Constant c)) /\
  (forall rho, M rho -> holds_all rho cs) /\ loop_inv D [] [] /\
  forall cs', loop_inv D cs cs' -> added (fun _ => True) cs (Binary Kind.Eq (Constant c) r) (cs' ++ [Binary Kind.Eq (Constant c) r]).
Proof using Type.
  intros [P1 [[Hwf Hn] Hw] P3] D. pose proof Hwf as (Hl & Hr & Hlr). split_and!.
  - intros rho HMr. destruct (P3 rho HMr) as [_ He]. by rewrite eval_Eq in He by done.
  - by apply ReplaceVisitor_ok.
  - intros rho HMr. by apply P3.
  - split; [constructor|done|done].
  - intros cs' [L1 L2 L3]. split.
    + apply Forall_app. split; [done|]. by apply Forall_singleton.
    + intros rho _. rewrite holds_all_app, holds_all_one. split; intros [Hx Hy]; (split; [|done]);
        (apply L2; [|done]); by rewrite eval_Eq in Hy by done.
    + rewrite total_weight_app. unfold total_weight at 2. simpl. lia.
Qed.

Lemma addConstraintInternal_sound n : forall cs e, addable cs e -> adds (fun _ => True) cs e (add n cs e).
Proof using HM Hheap Hopt.
  induction n as [|n IH]; intros cs e Hpre; cbn [addConstraintInternal]; [done|].
  pose proof (push_back_added (fun _ => True) cs e (pre_cs _ _ Hpre) (pre_e _ _ Hpre)) as Hpush.
  destruct e as [c| | | | | | | | |k l r]; try exact Hpush.
  - destruct HM as [rho0 HM0]. destruct Hpre as [P1 [[Hwf _] Hw] P3]. destruct (P3 rho0 HM0) as [_ Hc]. simpl in Hc.
    rewrite (isTrue_value c Hw Hwf) in Hc. destruct (isTrue c) eqn:Et; [|done]. cbn [assertM mbind outcome_bind].
    split; [done| |simpl; lia]. intros rho _. cbn [eval]. rewrite (isTrue_value c Hw Hwf), Et. simpl. split; [by split|tauto].
  - destruct k; try exact Hpush.
    + destruct (addable_and cs l r Hpre) as [Hl Hr]. pose proof (IH cs l Hl) as A.
      destruct (add n cs l) as [cs1|err]; [|done]. cbn [mbind outcome_bind]. pose proof (IH cs1 r (Hr cs1 A)) as B.
      destruct (add n cs1 r) as [cs2|err]; [|done]. eapply added_and; [apply Hpre|exact A|exact B].
    + destruct (RewriteEqualities && isConstant l) eqn:Ec; [|exact Hpush].
      apply andb_true_iff in Ec as [_ Ec]. destruct l as [c| | | | | | | | |]; try done.
      destruct (equality_loop cs c r Hpre) as (HMD & HV & HMcs & Hnil & Hend). unfold rewriteConstraints.
      pose proof (rewrite_loop_ok _ _ cs HMD HV (pre_cs _ _ Hpre) HMcs (add n) n cs (fun cs e Ha _ => IH cs e Ha)
        ∅ [] false [] eq_refl (empty_visited_ok _ _) Hnil) as Hloop.
      destruct (rewrite_loop _ _ _ _ _ _ _ _) as [r'|err]; [|done]. cbn [mbind outcome_bind]. by apply Hend.
Qed.

(** The recursion ends: a rewritten constraint weighs less, and the parts of a
    conjunction are smaller. *)
Lemma addConstraintInternal_ends cs e : addable cs e -> exists n r, add n cs e = Ret r.
Proof using HM Hheap Hopt.
  remember (total_weight cs + weight e)%nat as w eqn:Ew. revert cs e Ew.
  induction (lt_wf w) as [w _ IHw]. intros cs e. remember (height e) as h eqn:Eh. revert cs e Eh.
  induction (lt_wf h) as [h _ IHh]. intros cs e Eh Ew Hpre.
  assert (Hsmall : forall cs e', addable cs e' -> (total_weight cs + weight e' <= w)%nat -> (height e' < h)%nat ->
    exists n r, add n cs e' = Ret r).
  { intros cs' e' Hp Hle Hlt. destruct (decide (total_weight cs' + weight e' = w)%nat) as [Eq|].
    - by apply (IHh (height e') Hlt cs' e').
    - by apply (IHw (total_weight cs' + weight e')%nat ltac:(lia) cs' e'). }
  assert (Hstep : exists n r, add (S n) cs e = Ret r); [|destruct Hstep as (n & r & E); by exists (S n), r].
  cbn [addConstraintInternal].
  destruct e as [c| | | | | | | | |k l r]; try (by exists O; eexists).
  - pose proof (addConstraintInternal_sound 1 cs _ Hpre) as Hs. cbn [addConstraintInternal] in Hs. exists O.
    destruct (isTrue c); [by eexists|done].
  - destruct k; try (by exists O; eexists).
    + destruct (addable_and cs l r Hpre) as [Hl Hr].
      destruct (Hsmall cs l Hl) as (n1 & cs1 & E1); [simpl in Ew; lia|simpl in Eh; lia|].
      pose proof (addConstraintInternal_sound n1 cs l Hl) as A. rewrite E1 in A.
      destruct (Hsmall cs1 r (Hr cs1 A)) as (n2 & cs2 & E2);
        [pose proof (ad_weight _ _ _ _ A); simpl in Ew; lia|simpl in Eh; lia|].
      exists (Nat.max n1 n2), cs2. rewrite (addConstraintInternal_more _ _ n1 (Nat.max n1 n2) _ _ _ E1) by lia.
      cbn [mbind outcome_bind]. by rewrite (addConstraintInternal_more _ _ n2 (Nat.max n1 n2) _ _ _ E2) by lia.
    + destruct (RewriteEqualities && isConstant l) eqn:Ec; [|by exists O; eexists].
      apply andb_true_iff in Ec as [_ Ec]. destruct l as [c| | | | | | | | |]; try done.
      destruct (equality_loop cs c r Hpre) as (HMD & HV & HMcs & Hnil & Hend). unfold rewriteConstraints.
      destruct (rewrite_loop_ends _ _ cs HMD HV (pre_cs _ _ Hpre) HMcs cs addConstraintInternal_sound) with
        (visited := ∅ : visited_ty) (cs := @nil Expr) (b := false) (prefix := @nil Expr) as (n & r' & E); auto.
      * intros cs' e' Hp Hlt. apply (IHw (total_weight cs' + weight e')%nat); auto. simpl in Ew. lia.
      * apply empty_visited_ok.
      * exists n. eexists. by rewrite E.
Qed.

Lemma addConstraint_added cs e :
  addable cs e ->
  exists n cs', (forall m, (n <= m)%nat -> addConstraint UseVisitorHash RewriteEqualities m cs e = Ret cs') /\
    conditions_ok cs' /\ forall rho, holds_all rho cs' <-> holds_all rho cs /\ eval rho e = 1.
Proof using HM Hheap Hopt.
  intros [P1 [He Hw] P3].
  destruct (simplifyExpr_ok cs e (conditions_booleans cs P1) He) as (n1 & s & E1 & [Hsv Hsok _]); [intros rho HMr; by apply P3|].
  destruct Hsv as [_ Hsw _ Hsv].
  assert (Hpre : addable cs s).
  { split; [done|split; [done|congruence]|]. intros rho HMr. destruct (P3 rho HMr) as [Hc H1']. split; [done|].
    by rewrite Hsv. }
  destruct (addConstraintInternal_ends cs s Hpre) as (n2 & cs' & E2).
  pose proof (addConstraintInternal_sound n2 cs s Hpre) as A. rewrite E2 in A. destruct A as [A1 A2 _].
  exists (Nat.max n1 n2), cs'. split_and!; auto.
  - intros m Hm. unfold addConstraint. rewrite E1 by lia. cbn [mbind outcome_bind].
    by apply (addConstraintInternal_more _ _ n2); [|lia].
  - intros rho. rewrite A2 by done. split; intros [Hc Hv]; (split; [done|]); [by rewrite <- Hsv|by rewrite Hsv].
Qed.

(** C11: simplifying an expression by the constraints of a path ends, and under
    every assignment that satisfies the constraints the result has the value
    of the expression; it has the same width and reads no more. *)
Theorem simplifyExpr_equivalent cs e :
  booleans cs -> vok e -> (forall rho, M rho -> holds_all rho cs) ->
  exists n e', (forall m, (n <= m)%nat -> simplifyExpr UseVisitorHash m cs e = Ret e') /\
    wf e' /\ getWidth e' = getWidth e /\ (weight e' <= weight e)%nat /\
    forall rho, holds_all rho cs -> eval rho e' = eval rho e.
Proof using HM Hheap Hopt.
  intros Hcs He HMcs. destruct (simplifyExpr_ok cs e Hcs He HMcs) as (n & e' & E & [[V1 V2 _ V4] _ W]).
  exists n, e'. split_and!; auto. destruct W as [->|]; lia.
Qed.

(** C9: adding a constraint to a path condition ends, the assertion that the
    constraint is not false included, in well-formed constraints that have
    exactly the solutions of the old constraints and the new one: no path is
    lost and none is invented by splitting, simplifying and rewriting. *)
Theorem addConstraint_equivalent cs e :
  conditions_ok cs -> condition_ok e -> (forall rho, M rho -> holds_all rho cs /\ eval rho e = 1) ->
  exists n cs', (forall m, (n <= m)%nat -> addConstraint UseVisitorHash RewriteEqualities m cs e = Ret cs') /\
    conditions_ok cs' /\ forall rho, holds_all rho cs' <-> holds_all rho cs /\ eval rho e = 1.
Proof using HM Hheap Hopt. intros Hcs He HMs. by apply addConstraint_added. Qed.

End Sound.

(** ** An example *)

Module ConstraintsExample.

(** The option is off. *)
Instance options : ExprOptions := {| ConstArrayOpt := false |}.
Instance divz : DivByZero := ex_divz.

Lemma option_off : @ConstArrayOpt options = false.
Proof. done. Qed.

Definition heap (p : Z) : Array := if p =? 4096 then ex_array else mkArray p "" 0 32 8 [].

Lemma heap_domain p : adomain (heap p) <= 64.
Proof. unfold heap. destruct (p =? 4096); simpl; lia. Qed.

(** [a[0] + a[1] < 9], and then [a[1] = 5]. *)
Definition sum : Expr := Binary Kind.Add (ex_byte 0) (ex_byte 1).
Definition small : Expr := Binary Kind.Ult sum (Constant (mkConst 9 8)).
Definition five : Expr := Binary Kind.Eq (Constant (mkConst 5 8)) (ex_byte 1).

(** The old constraint is rewritten, the constant in front. *)
Example add_five :
  addConstraint true true 20 [small] five =
  Ret [Binary Kind.Ult (Binary Kind.Add (Constant (mkConst 5 8)) (ex_byte 0)) (Constant (mkConst 9 8)); five].
Proof. by vm_compute. Qed.

Definition solution (rho : assignment) : Prop := rho = (fun _ i => if i =? 0 then 2 else 5).

Lemma solution_exists : exists rho, solution rho.
Proof. by eexists. Qed.

Lemma small_ok : condition_ok heap solution false small.
Proof. split; [|done]. split; cbn; unfold wf_array, wf_const, wf_width, read_ok; cbn; repeat split; auto; try lia; done. Qed.

Lemma five_ok : condition_ok heap solution false five.
Proof. split; [|done]. split; cbn; unfold wf_array, wf_const, wf_width, read_ok; cbn; repeat split; auto; try lia; done. Qed.

Lemma simplifyExpr_equivalent_witness :
  exists n e', (forall m, (n <= m)%nat -> simplifyExpr true m [five] small = Ret e') /\
    wf e' /\ getWidth e' = 1 /\ (weight e' <= 2)%nat /\
    forall rho, holds_all rho [five] -> eval rho e' = eval rho small.
Proof.
  apply (simplifyExpr_equivalent option_off heap heap_domain true solution false solution_exists [five] small).
  - eapply conditions_booleans, Forall_singleton, five_ok.
  - apply small_ok.
  - intros rho ->. by apply holds_all_one.
Defined.

Lemma addConstraint_equivalent_witness :
  exists n cs', (forall m, (n <= m)%nat -> addConstraint true true m [small] five = Ret cs') /\
    conditions_ok heap solution false cs' /\ forall rho, holds_all rho cs' <-> holds_all rho [small] /\ eval rho five = 1.
Proof.
  apply (addConstraint_equivalent option_off heap heap_domain true true solution false solution_exists [small] five).
  - apply Forall_singleton, small_ok.
  - apply five_ok.
  - intros rho ->. split; [by apply holds_all_one|by vm_compute].
Defined.

End ConstraintsExample.
