(* ===== verification/ExprEval.v ===== *)
(** * Evaluation of an expression under an assignment

    [ExprVisitor::visitActual] with the actions of [ExprEvaluator], and the
    assignments of [include/klee/Expr/Assignment.h].  The visitor walks over
    the expression and rebuilds it through the simplifying constructors; the
    main lemma is that, for an assignment without free values, it arrives at
    the constant that the expression means.  The cache of visited expressions
    only saves work and is not modelled. *)

From S2P Require Import Prelude ExprData ExprCreate ExprSem ExprBool ExprArith ExprBits ExprSpec.

(** ** Assignments *)

(** The bytes bound to an array, by the array's address. *)
Record Assignment : Type := mkAssignment {
  allowFreeValues : bool;
  bindings : gmap Z (list Z)
}.

Section Visit.
Context `{ExprOptions}.
Variable asg : Assignment.

(** [Assignment::evaluate(array, index)]. *)
Definition Assignment__evaluate_at (a : Array) (index : Z) : outcome Expr :=
  let free :=
    if allowFreeValues asg
    then ReadExpr__create a NoUpdate (Constant (ConstantExpr__alloc index (adomain a)))
    else Ret (Constant (ConstantExpr__alloc 0 (arange a))) in
  match bindings asg !! aaddr a with
  | Some bytes =>
      match bytes !! Z.to_nat index with
      | Some b => Ret (Constant (ConstantExpr__alloc b (arange a)))
      | None => free
      end
  | None => free
  end.

(** The end of [evalRead]: the constants of the array, or [getInitialValue]. *)
Definition initialValue (a : Array) (index : Z) : outcome Expr :=
  if isConstantArray a && (index <? asize a)
  then v ← of_option MemError (aconstantValues a !! Z.to_nat index);
       Ret (Constant (mkConst v (arange a)))
  else Assignment__evaluate_at a index.

(** The end of the [DoChildren] branch: rebuild when an operand changed, then
    [visitExprPost]. *)
Definition finish (e : Expr) (ks : list Expr) : outcome Expr :=
  e' ← (if bool_decide (ks = kids e) then Ret e else rebuild e ks);
  match e' with
  | NotOptimized s => Ret s
  | _ => Ret e'
  end.

(** [protectedDivOperation] on the visited operands. *)
Definition protectedDivOperation (e l r l' r' : Expr) : outcome Expr :=
  let r'' := match r' with Constant c => if isZero c then r else r' | _ => r' end in
  if bool_decide (l' = l /\ r'' = r) then Ret e else rebuild e [l'; r''].

Fixpoint visit (e : Expr) : outcome Expr :=
  match e with
  | Constant _ => Ret e
  | Read a u i =>
      v ← visit i;
      match v with
      | Constant c => idx ← getZExtValue c; evalRead a u (u32 idx)
      | _ => finish e [v]
      end
  | NotOptimized s =>
      if isConstant s then rebuild e [s] else s' ← visit s; finish e [s']
  | Select c t f =>
      if isConstant c && isConstant t && isConstant f then rebuild e [c; t; f]
      else c' ← visit c; t' ← visit t; f' ← visit f; finish e [c'; t'; f']
  | Concat l r =>
      if isConstant l && isConstant r then rebuild e [l; r]
      else l' ← visit l; r' ← visit r; finish e [l'; r']
  | Extract x _ _ =>
      if isConstant x then rebuild e [x] else x' ← visit x; finish e [x']
  | ZExt s _ =>
      if isConstant s then rebuild e [s] else s' ← visit s; finish e [s']
  | SExt s _ =>
      if isConstant s then rebuild e [s] else s' ← visit s; finish e [s']
  | Not x =>
      if isConstant x then rebuild e [x] else x' ← visit x; finish e [x']
  | Binary k l r =>
      if isConstant l && isConstant r then rebuild e [l; r]
      else
        l' ← visit l; r' ← visit r;
        if Kind.is_div k then protectedDivOperation e l r l' r' else finish e [l'; r']
  end
with evalRead (a : Array) (u : UpdateNode) (index : Z) : outcome Expr :=
  match u with
  | NoUpdate => initialValue a index
  | Update ui uv n =>
      ui' ← visit ui;
      match ui' with
      | Constant c => v ← getZExtValue c; if v =? index then visit uv else evalRead a n index
      | _ => ReadExpr__create a u (Constant (ConstantExpr__alloc index (adomain a)))
      end
  end.

(** [Assignment::satisfies]. *)
Fixpoint satisfies (constraints : list Expr) : outcome bool :=
  match constraints with
  | [] => Ret true
  | e :: es =>
      v ← visit e;
      _ ← assertM (getWidth v =? 1);
      match v with
      | Constant c => if isTrue c then satisfies es else Ret false
      | _ => Ret false
      end
  end.

End Visit.

(** ** Evaluation reaches the meaning *)

(** The bytes of an assignment without free values: 0 where none are bound. *)
Definition env (asg : Assignment) : assignment := fun a i =>
  match bindings asg !! aaddr a with
  | Some bytes => default 0 (bytes !! Z.to_nat i)
  | None => 0
  end.

Section Meaning.
Context `{ExprOptions} `{DivByZero}.
Variable asg : Assignment.

(** The constant an expression evaluates to. *)
Definition const_of (e : Expr) : Expr := Constant (mkConst (eval (env asg) e) (getWidth e)).

(** The initial value at a position is determined: free values are not
    allowed (a position without a byte is 0 then), or the position has one. *)
Definition determined (a : Array) (i : Z) : Prop :=
  allowFreeValues asg = false \/ (isConstantArray a = true /\ i < asize a) \/
  exists bytes, bindings asg !! aaddr a = Some bytes /\ i < Z.of_nat (length bytes).

(** What the evaluator asks of an expression: indices of at most 32 bits that
    name determined positions, no division by zero, and no [NotOptimized]
    around a constant, which the visitor does not fold. *)
Fixpoint evaluable (e : Expr) : Prop :=
  match e with
  | Constant _ => True
  | NotOptimized s => evaluable s /\ isConstant s = false
  | Read a u i =>
      adomain a <= 32 /\ evaluable_upd u /\ evaluable i /\ determined a (eval (env asg) i)
  | Select c t f => evaluable c /\ evaluable t /\ evaluable f
  | Concat l r => evaluable l /\ evaluable r
  | Extract x _ _ => evaluable x
  | ZExt s _ => evaluable s
  | SExt s _ => evaluable s
  | Not x => evaluable x
  | Binary k l r =>
      evaluable l /\ evaluable r /\ (Kind.is_div k = true -> eval (env asg) r <> 0)
  end
with evaluable_upd (u : UpdateNode) : Prop :=
  match u with
  | NoUpdate => True
  | Update i v n => evaluable i /\ evaluable v /\ evaluable_upd n
  end.

(** Folding: a constructor applied to constants returns a constant. *)
Lemma Binary_consts_constant k cl cr e :
  Binary__create k (Constant cl) (Constant cr) = Ret e -> isConstant e = true.
Proof.
  assert (Hf : forall k cl cr e, fold k cl cr = Ret e -> isConstant e = true).
  { intros k' cl' cr' e'. unfold fold, ConstantExpr__op. case_match; intros; by simplify_eq/=. }
  assert (HR : forall k pl pr c cl cr e,
    BCREATE_R k pl pr c (Constant cl) (Constant cr) = Ret e -> isConstant e = true).
  { intros k' pl pr c cl' cr' e'. unfold BCREATE_R, assertM. case_match; [|done]. apply Hf. }
  assert (HB : forall k c cl cr e,
    BCREATE k c (Constant cl) (Constant cr) = Ret e -> isConstant e = true).
  { intros k' c cl' cr' e'. unfold BCREATE, assertM. case_match; [|done]. apply Hf. }
  destruct k; cbn [Binary__create]; try apply HR; try apply HB;
    unfold AddExpr__create, SubExpr__create, add_fuel; rewrite ?Nat.add_succ_r; try apply HR.
  unfold NeExpr__create. rewrite outcome_bind_ret. intros (a & Ha & He).
  apply HR in Ha. destruct a; try done. by eapply HR.
Qed.

Lemma rebuild_consts_constant e ks e' :
  Forall (fun k => isConstant k = true) ks ->
  match e with NotOptimized _ | Read _ _ _ => False | _ => True end ->
  rebuild e ks = Ret e' -> isConstant e' = true.
Proof.
  intros Hks He. destruct e; try done; cbn [rebuild];
    repeat (match goal with |- context [match ?l with _ => _ end] => destruct l; try done end);
    repeat match goal with Hf : Forall _ (_ :: _) |- _ => inversion Hf; subst; clear Hf end;
    repeat match goal with Hc : isConstant ?x = true |- _ => destruct x; try done; clear Hc end.
  - unfold SelectExpr__create, assertM. repeat (case_match; try done); simpl; intros; by simplify_eq.
  - intros. by simplify_eq/=.
  - unfold ExtractExpr__create. cbn. unfold assertM.
    repeat (case_match; try done); simpl; intros; by simplify_eq.
  - unfold ZExtExpr__create, ExtractExpr__create. cbn. unfold assertM.
    repeat (case_match; try done); simpl; intros; by simplify_eq.
  - unfold SExtExpr__create, ExtractExpr__create. cbn. unfold assertM.
    repeat (case_match; try done); simpl; intros; by simplify_eq.
  - intros. by simplify_eq/=.
  - apply Binary_consts_constant.
Qed.

(** Rebuilding with the values of the operands gives the value. *)
Lemma rebuild_consts e :
  wf e -> evaluable e ->
  match e with NotOptimized _ | Read _ _ _ | Constant _ => False | _ => True end ->
  rebuild e (map const_of (kids e)) = Ret (const_of e).
Proof.
  intros Hwf Hev He.
  assert (Hsame : same_widths e (map const_of (kids e))).
  { unfold same_widths. apply Forall2_fmap_r, Forall_Forall2_diag, Forall_forall. intros k Hk.
    assert (Hwk : wf k).
    { destruct e; simpl in *; rewrite ?elem_of_cons, ?elem_of_nil in Hk; naive_solver. }
    split; [|done]. split; [by apply wf_getWidth | by apply eval_range]. }
  assert (Hval : eval (env asg) (with_kids e (map const_of (kids e))) = eval (env asg) e).
  { by destruct e. }
  destruct (rebuild_creates (fun r => r = env asg) e (map const_of (kids e)) Hwf Hsame)
    as (e' & He' & Hd).
  { destruct e; simpl in *; try done. naive_solver. }
  { intros r ->. split; [intros _; by destruct e|]. destruct e; simpl in *; naive_solver. }
  rewrite He'. apply rebuild_consts_constant in He'; [|by apply Forall_map, Forall_true|by destruct e].
  destruct e' as [c| | | | | | | | |]; try done.
  destruct (denotes_Const_inv _ _ _ _ Hd) as (_ & Hw & Hv).
  specialize (Hv _ eq_refl). rewrite Hval in Hv. destruct c as [cv cw]. simpl in *.
  unfold const_of. congruence.
Qed.

Lemma initialValue_const a i :
  wf_array a -> 0 <= i -> determined a i ->
  initialValue asg a i = Ret (Constant (mkConst (array_value (env asg) a i) (arange a))).
Proof.
  intros (_ & _ & Hsz & _ & Hlen & _) Hi Hdet. unfold initialValue, array_value.
  destruct (isConstantArray a && (i <? asize a)) eqn:Ec.
  - apply andb_true_iff in Ec as [Hc Hlt]. to_prop.
    assert (Hl : Z.of_nat (length (aconstantValues a)) = asize a).
    { destruct Hlen as [Hs|]; [|done]. unfold isConstantArray in Hc. by rewrite Hs in Hc. }
    destruct (lookup_lt_is_Some_2 (aconstantValues a) (Z.to_nat i)) as [v Hv]; [lia|].
    rewrite Hv. simpl. by rewrite (nth_lookup_Some _ _ _ _ Hv).
  - unfold Assignment__evaluate_at, env, ConstantExpr__alloc.
    destruct Hdet as [->|[[Hc Hlt]|(bytes & -> & Hlt)]].
    + destruct (bindings asg !! aaddr a) as [bytes|]; [|by rewrite Zmod_0_l].
      destruct (bytes !! Z.to_nat i); [done|]. by rewrite Zmod_0_l.
    + apply Z.ltb_lt in Hlt. by rewrite Hc, Hlt in Ec.
    + destruct (lookup_lt_is_Some_2 bytes (Z.to_nat i)) as [v ->]; [lia|]. done.
Qed.

(** The end of the visit of a node whose operands evaluate to constants. *)
Lemma finish_const e :
  wf e -> evaluable e -> forallb isConstant (kids e) = false ->
  match e with NotOptimized _ | Read _ _ _ | Constant _ => False | _ => True end ->
  finish e (map const_of (kids e)) = Ret (const_of e).
Proof.
  intros Hwf Hev Hc He. unfold finish.
  assert (Hne : map const_of (kids e) <> kids e).
  { intros Heq. rewrite <- Heq in Hc.
    assert (Ht : forallb isConstant (map const_of (kids e)) = true); [|congruence].
    apply forallb_forall. by intros x (k & <- & _)%in_map_iff. }
  rewrite bool_decide_eq_false_2 by done. by rewrite rebuild_consts.
Qed.

(** When every operand is a constant already, [visitExpr] rebuilds at once. *)
Lemma rebuild_consts_self e :
  wf e -> evaluable e -> forallb isConstant (kids e) = true ->
  match e with NotOptimized _ | Read _ _ _ | Constant _ => False | _ => True end ->
  rebuild e (kids e) = Ret (const_of e).
Proof.
  intros Hwf Hev Hc He. rewrite <- rebuild_consts by done. f_equal.
  assert (Hk : forall k, k ∈ kids e -> const_of k = k).
  { intros k Hk. rewrite forallb_forall in Hc. specialize (Hc k (proj1 (list_elem_of_In _ _) Hk)).
    destruct k as [[]| | | | | | | | |]; done. }
  clear -Hk. induction (kids e) as [|k ks IH]; [done|]. simpl.
  rewrite Hk by set_solver. f_equal. apply IH. set_solver.
Qed.

Lemma protectedDiv_const k l r :
  let e := Binary k l r in
  wf e -> evaluable e -> Kind.is_div k = true -> isConstant l && isConstant r = false ->
  protectedDivOperation e l r (const_of l) (const_of r) = Ret (const_of e).
Proof.
  intros e Hwf Hev Hk Hc. unfold protectedDivOperation, const_of at 1 2. unfold isZero. simpl.
  rewrite (proj2 (Z.eqb_neq _ _)) by (by apply Hev).
  rewrite bool_decide_eq_false_2.
  - by apply (rebuild_consts e).
  - intros [Hl Hr]. unfold e in *. by rewrite <- Hl, <- Hr in Hc.
Qed.

Lemma visit_const :
  (forall e, wf e -> evaluable e -> visit asg e = Ret (const_of e)) /\
  (forall u a i, wf_array a -> adomain a <= 32 -> wf_upd a u -> evaluable_upd u ->
     0 <= i < 2 ^ 32 -> determined a i ->
     evalRead asg a u i = Ret (Constant (mkConst (read_at (env asg) a u i) (arange a)))).
Proof.
  assert (Hidx : forall a e, wf e -> getWidth e = adomain a -> adomain a <= 32 ->
    getZExtValue (mkConst (eval (env asg) e) (getWidth e)) = Ret (eval (env asg) e) /\
    0 <= eval (env asg) e < 2 ^ 32).
  { intros a e Hwf Hw Hd. unfold getZExtValue. simpl.
    pose proof (proj1 (eval_range (env asg)) e Hwf) as Hr. pose proof (wf_getWidth e Hwf) as Hp.
    unfold wf_width in Hp.
    rewrite (proj2 (Z.leb_le _ _)) by lia. split; [done|].
    pose proof (Z.pow_le_mono_r 2 (getWidth e) 32). lia. }
  apply Expr_UpdateNode_ind.
  - (* Constant *) intros [v w] _ _. done.
  - (* NotOptimized *)
    intros s IH Hwf [Hev Hs]. cbn [visit]. rewrite Hs, IH by done. cbn [mbind outcome_bind].
    unfold finish. rewrite bool_decide_eq_false_2; [done|]. intros Heq. injection Heq as Heq.
    by destruct s.
  - (* Read *)
    intros a u IHu i IHi (Ha & Hu & Hwi & Hd) (Hdom & Hevu & Hevi & Hdet). cbn [visit].
    rewrite IHi by done. cbn [mbind outcome_bind const_of].
    destruct (Hidx a i Hwi Hd Hdom) as [Hz Hr]. unfold const_of. rewrite Hz. cbn [mbind outcome_bind].
    unfold u32. rewrite wrapU_small by done. by rewrite IHu.
  - (* Select *)
    intros c IHc t IHt f IHf Hwf Hev. pose proof Hwf as (Hc & Ht & Hf & _).
    pose proof Hev as (Ec & Et & Ef). cbn [visit].
    destruct (isConstant c && isConstant t && isConstant f) eqn:E.
    + apply (rebuild_consts_self (Select c t f)); auto. simpl. by rewrite andb_true_r, andb_assoc.
    + rewrite IHc, IHt, IHf by done. cbn [mbind outcome_bind].
      apply (finish_const (Select c t f)); auto. simpl. by rewrite andb_true_r, andb_assoc.
  - (* Concat *)
    intros l IHl r IHr Hwf Hev. pose proof Hwf as (Hl & Hr & _). pose proof Hev as (El & Er).
    cbn [visit]. destruct (isConstant l && isConstant r) eqn:E.
    + apply (rebuild_consts_self (Concat l r)); auto. simpl. by rewrite andb_true_r.
    + rewrite IHl, IHr by done. cbn [mbind outcome_bind].
      apply (finish_const (Concat l r)); auto. simpl. by rewrite andb_true_r.
  - (* Extract *)
    intros x IHx off w Hwf Hev. cbn [visit]. destruct (isConstant x) eqn:E.
    + apply (rebuild_consts_self (Extract x off w)); auto. simpl. by rewrite E.
    + rewrite IHx by (auto; apply Hwf). cbn [mbind outcome_bind].
      apply (finish_const (Extract x off w)); auto. simpl. by rewrite E.
  - (* ZExt *)
    intros s IHs w Hwf Hev. cbn [visit]. destruct (isConstant s) eqn:E.
    + apply (rebuild_consts_self (ZExt s w)); auto. simpl. by rewrite E.
    + rewrite IHs by (auto; apply Hwf). cbn [mbind outcome_bind].
      apply (finish_const (ZExt s w)); auto. simpl. by rewrite E.
  - (* SExt *)
    intros s IHs w Hwf Hev. cbn [visit]. destruct (isConstant s) eqn:E.
    + apply (rebuild_consts_self (SExt s w)); auto. simpl. by rewrite E.
    + rewrite IHs by (auto; apply Hwf). cbn [mbind outcome_bind].
      apply (finish_const (SExt s w)); auto. simpl. by rewrite E.
  - (* Not *)
    intros x IHx Hwf Hev. cbn [visit]. destruct (isConstant x) eqn:E.
    + apply (rebuild_consts_self (Not x)); auto. simpl. by rewrite E.
    + rewrite IHx by auto. cbn [mbind outcome_bind].
      apply (finish_const (Not x)); auto. simpl. by rewrite E.
  - (* Binary *)
    intros k l IHl r IHr Hwf Hev. pose proof Hwf as (Hl & Hr & _). pose proof Hev as (El & Er & _).
    cbn [visit]. destruct (isConstant l && isConstant r) eqn:E.
    + apply (rebuild_consts_self (Binary k l r)); auto. simpl. by rewrite andb_true_r.
    + rewrite IHl, IHr by done. cbn [mbind outcome_bind]. destruct (Kind.is_div k) eqn:Ek.
      * by apply protectedDiv_const.
      * apply (finish_const (Binary k l r)); auto. simpl. by rewrite andb_true_r.
  - (* NoUpdate *) intros a i Ha _ _ _ Hi Hdet. apply initialValue_const; [done|lia|done].
  - (* Update *)
    intros ui IHi uv IHv n IHn a i Ha Hdom (Hwi & Hwv & Hdi & Hrv & Hwn) (Ei & Ev & En) Hi Hdet.
    change (evalRead asg a (Update ui uv n) i) with
      (ui' ← visit asg ui;
       match ui' with
       | Constant c => v ← getZExtValue c; if v =? i then visit asg uv else evalRead asg a n i
       | _ => ReadExpr__create a (Update ui uv n) (Constant (ConstantExpr__alloc i (adomain a)))
       end).
    rewrite IHi by done. unfold const_of at 1. cbn [mbind outcome_bind].
    destruct (Hidx a ui Hwi Hdi Hdom) as [-> _]. cbn [mbind outcome_bind read_at].
    destruct (eval (env asg) ui =? i); [|by apply IHn].
    rewrite IHv by done. unfold const_of. by rewrite Hrv.
Qed.

End Meaning.

Lemma satisfies_const `{ExprOptions} `{DivByZero} asg cs :
  Forall (fun e => wf e /\ getWidth e = 1 /\ evaluable asg e) cs ->
  satisfies asg cs = Ret (forallb (fun e => eval (env asg) e =? 1) cs).
Proof.
  induction 1 as [|e cs (Hwf & Hw & Hev) _ IH]; [done|].
  cbn [satisfies forallb]. rewrite (proj1 (visit_const asg) e Hwf Hev).
  unfold const_of. cbn [mbind outcome_bind getWidth cwidth]. rewrite Hw.
  cbn [Z.eqb Pos.eqb assertM mbind outcome_bind]. rewrite IH. unfold isTrue, nz. cbn [cwidth cvalue].
  pose proof (proj1 (eval_range (env asg)) e Hwf) as Hr. rewrite Hw in Hr.
  by destruct (bit_cases _ Hr) as [-> | ->].
Qed.

(** A [NotOptimized] around a constant is not folded: [visitExpr] rebuilds
    the node, whose only operand is a constant, before [visitExprPost] is
    reached. *)
Lemma satisfies_notoptimized `{ExprOptions} asg c :
  cwidth c = 1 -> satisfies asg [NotOptimized (Constant c)] = Ret false.
Proof. intros Hw. simpl. by rewrite Hw. Qed.

(** C17: evaluation under an assignment is exact on the expressions it can
    evaluate.  The visitor turns a well-formed expression into the constant
    that the expression means, through updates and nested reads, and
    [satisfies] decides whether every constraint of a set is true, when for
    the expression and the constraints: every position read has a byte in the
    assignment or in a constant array, or free values are not allowed (it is 0
    then); the arrays have indices of at most 32 bits; no divisor is zero; and
    no [NotOptimized] node is put around a constant.  The last condition is
    needed: such a node is returned as it is, not as its constant, and a
    constraint of this form that is true is reported as not satisfied. *)
Theorem evaluate_exact `{ExprOptions} `{DivByZero} asg e cs :
  wf e -> evaluable asg e ->
  Forall (fun c => wf c /\ getWidth c = 1 /\ evaluable asg c) cs ->
  visit asg e = Ret (Constant (mkConst (eval (env asg) e) (getWidth e))) /\
  satisfies asg cs = Ret (forallb (fun c => eval (env asg) c =? 1) cs) /\
  forall c, visit asg (NotOptimized (Constant c)) = Ret (NotOptimized (Constant c)) /\
    (cwidth c = 1 -> satisfies asg [NotOptimized (Constant c)] = Ret false).
Proof.
  intros Hwf Hev Hcs. split_and!.
  - by apply visit_const.
  - by apply satisfies_const.
  - intros c. split; [done|apply satisfies_notoptimized].
Qed.

(** [a[x := 7][2] == 7], where the index [x] is the first byte of [a], under
    an assignment that binds it to 2. *)
Definition ex_update : Expr :=
  Binary Kind.Eq (Constant (mkConst 7 8))
    (Read ex_array (Update (ZExt (ex_byte 0) 32) (Constant (mkConst 7 8)) NoUpdate)
       (Constant (mkConst 2 32))).

Definition ex_assignment : Assignment := mkAssignment false {[ 4096 := [2; 9] ]}.

Lemma ex_update_wf : wf ex_update.
Proof. cbn. unfold wf_array, wf_const, wf_width. cbn. repeat split; auto; lia. Qed.

Lemma ex_update_evaluable : @evaluable ex_divz ex_assignment ex_update.
Proof. cbn. unfold determined. repeat split; auto; lia || discriminate. Qed.

Lemma evaluate_exact_witness :
  @visit ex_options ex_assignment ex_update =
    Ret (Constant (mkConst (@eval ex_divz (env ex_assignment) ex_update) (getWidth ex_update))) /\
  @satisfies ex_options ex_assignment [ex_update] =
    Ret (forallb (fun c => @eval ex_divz (env ex_assignment) c =? 1) [ex_update]) /\
  forall c, @visit ex_options ex_assignment (NotOptimized (Constant c)) = Ret (NotOptimized (Constant c)) /\
    (cwidth c = 1 -> @satisfies ex_options ex_assignment [NotOptimized (Constant c)] = Ret false).
Proof.
  exact (@evaluate_exact ex_options ex_divz ex_assignment ex_update [ex_update]
    ex_update_wf ex_update_evaluable
    (Forall_cons_2 _ _ _ (conj ex_update_wf (conj eq_refl ex_update_evaluable)) (Forall_nil_2 _))).
Defined.

Example ex_update_value :
  @satisfies ex_options ex_assignment [ex_update] = Ret true.
Proof. vm_compute. reflexivity. Qed.
