(* ===== verification/ExprEvalSound.v ===== *)
(** * Evaluation is sound without side conditions

    [ExprEval] shows that the evaluation of an expression that can be
    evaluated reaches its value.  A solver also evaluates constraints under
    assignments that were found for others, where a divisor may be 0: the
    visitor then leaves the division as it is.  Here: for every expression
    that the constructors build, the visitor returns, and what it returns has
    the value of the expression; a constant it returns is that value. *)

From S2P Require Import Prelude ExprData ExprCreate ExprSem ExprBool ExprArith ExprBits ExprSpec ExprOrder ExprHeap ExprRebuild ExprEval.

Section Sound.
Context `{ExprOptions} `{DivByZero}.
Variables (heap : Z -> Array) (asg : Assignment).
Hypothesis Hshape : forall p, adomain (heap p) <= 32.
Hypothesis Hfree : allowFreeValues asg = false.

(** The one assignment of interest. *)
Abbreviation D := (fun rho => rho = env asg).
Abbreviation value_of e o := (creates D (getWidth e) (fun rho => eval rho e) o).
Abbreviation kid_ok := (stands_for D).

Lemma denotes_NotOptimized D' w V s : denotes D' w V (NotOptimized s) -> denotes D' w V s.
Proof using Type. by intros [? ? ? ?]. Qed.

(** The end of the visit of a node, once its operands are visited. *)
Lemma finish_creates e ks :
  wf e -> inb (env asg) e -> buildable (with_kids e ks) ->
  match e with Binary k _ _ => Kind.is_div k = false | _ => True end ->
  Forall2 kid_ok (kids e) ks -> value_of e (finish e ks).
Proof using Type.
  intros Hwf Hi Hb Hdiv Hk.
  assert (Hreb : value_of e (if bool_decide (ks = kids e) then Ret e else rebuild e ks)).
  { case_bool_decide as Hc.
    - apply creates_ret, denotes_self; [done|]. by intros ? ->.
    - apply rebuild_plain_creates; auto. by intros ? ->. }
  unfold finish. destruct Hreb as (e' & -> & Hd). cbn [mbind outcome_bind].
  destruct e'; apply creates_ret; auto. by apply denotes_NotOptimized.
Qed.

Lemma protectedDiv_creates k l r l' r' :
  let e := Binary k l r in
  wf e -> built heap e -> inb (env asg) e -> Kind.is_div k = true ->
  kid_ok l l' -> kid_ok r r' -> value_of e (protectedDivOperation e l r l' r').
Proof using Type.
  intros e (Hwl & Hwr & Hw) (Hb & _ & _) Hi Hk Hl Hr. destruct (Hb Hk) as [Hw1 Hnz].
  unfold protectedDivOperation.
  set (r'' := match r' with Constant c => if isZero c then r else r' | _ => r' end).
  assert (Hr'' : kid_ok r r'' /\ forall c, r'' = Constant c -> cvalue c <> 0).
  { unfold r''. destruct r'; try (by split). destruct (isZero c) eqn:Hz.
    - split; [|done]. apply denotes_self; [done|]. intros rho -> Ho. apply Hi in Ho. simpl in Ho. tauto.
    - split; [done|]. intros ? [= <-]. by apply Z.eqb_neq in Hz. }
  case_bool_decide.
  - apply creates_ret, denotes_self; [by split_and!|]. by intros ? ->.
  - destruct Hr'' as [Hr'' Hnz'']. by apply division_creates.
Qed.

Ltac finish_node e := apply (finish_creates e); try assumption; try exact I;
  try (cbn [kids]; repeat (apply Forall2_cons_2; [assumption|]); apply Forall2_nil_2).

(** Both parts of the visitor at once. *)
Lemma visit_creates :
  (forall e, wf e -> built heap e -> inb (env asg) e -> value_of e (visit asg e)) /\
  (forall u a i, wf_array a -> adomain a <= 32 -> wf_upd a u -> built_upd heap u ->
     (ConstArrayOpt = true -> in_bounds_upd (env asg) u) -> 0 <= i < 2 ^ adomain a ->
     (ConstArrayOpt = true -> isConstantArray a = true -> i < asize a) ->
     creates D (arange a) (fun rho => read_at rho a u i) (evalRead asg a u i)).
Proof using Hfree Hshape.
  assert (Hself : forall e, wf e -> inb (env asg) e -> buildable e ->
    match e with Binary k _ _ => Kind.is_div k = false | _ => True end ->
    value_of e (rebuild e (kids e))).
  { intros e Hwf Hi Hb Hdiv. apply rebuild_self_creates; auto. intros rho ->. split; [done|].
    destruct e; simpl; auto. congruence. }
  apply Expr_UpdateNode_ind.
  - (* Constant *) intros c Hwf _ _. apply creates_ret. by apply denotes_self.
  - (* NotOptimized *)
    intros s IH Hwf Hb Hi. cbn [visit]. destruct (isConstant s).
    + by apply (Hself (NotOptimized s)).
    + destruct (IH Hwf Hb Hi) as (s' & -> & Hs). cbn [mbind outcome_bind].
      finish_node (NotOptimized s).
  - (* Read *)
    intros a u IHu i IHi (Ha & Hu & Hwi & Hd) (Hh & Hbu & Hbi) Hi.
    assert (Hdom : adomain a <= 32) by (rewrite <- Hh; apply Hshape).
    cbn [visit]. destruct (IHi Hwi Hbi) as (i' & -> & Hi').
    { intros Ho. apply (Hi Ho). }
    cbn [mbind outcome_bind].
    destruct (isConstant i') eqn:Ec.
    + destruct i' as [c| | | | | | | | |]; try done.
      pose proof (denotes_Const_inv _ _ _ _ Hi') as (Hwc & Hcw & Hv). specialize (Hv _ eq_refl).
      unfold getZExtValue. rewrite Hcw, Hd, (proj2 (Z.leb_le _ _)) by lia.
      cbn [assertM mbind outcome_bind]. unfold u32. destruct Hwc as [Hcw' Hr].
      rewrite Hcw, Hd in Hr. pose proof (Z.pow_le_mono_r 2 (adomain a) 32 ltac:(lia) Hdom).
      rewrite wrapU_small by lia. eapply creates_ext; [apply IHu; auto|].
      * intros Ho. apply (Hi Ho).
      * intros Ho Hc. rewrite <- Hv. by apply (Hi Ho).
      * intros rho ->. simpl. by rewrite Hv.
    + assert (Hfin : value_of (Read a u i) (finish (Read a u i) [i'])).
      { finish_node (Read a u i); [by split_and!|simpl; lia]. }
      by destruct i'.
  - (* Select *)
    intros c IHc t IHt f IHf Hwf (Hbc & Hbt & Hbf) Hi. pose proof Hwf as (Hwc & Hwt & Hwf' & _). cbn [visit].
    destruct (isConstant c && isConstant t && isConstant f); [by apply (Hself (Select c t f))|].
    destruct (IHc Hwc Hbc) as (c' & -> & Hc'); [intros Ho; apply (Hi Ho)|].
    destruct (IHt Hwt Hbt) as (t' & -> & Ht'); [intros Ho; apply (Hi Ho)|].
    destruct (IHf Hwf' Hbf) as (f' & -> & Hf'); [intros Ho; apply (Hi Ho)|].
    cbn [mbind outcome_bind]. finish_node (Select c t f).
  - (* Concat *)
    intros l IHl r IHr Hwf (Hbl & Hbr) Hi. pose proof Hwf as (Hwl & Hwr & _). cbn [visit].
    destruct (isConstant l && isConstant r); [by apply (Hself (Concat l r))|].
    destruct (IHl Hwl Hbl) as (l' & -> & Hl'); [intros Ho; apply (Hi Ho)|].
    destruct (IHr Hwr Hbr) as (r' & -> & Hr'); [intros Ho; apply (Hi Ho)|].
    cbn [mbind outcome_bind]. finish_node (Concat l r).
  - (* Extract *)
    intros x IHx off w Hwf Hb Hi. cbn [visit]. destruct (isConstant x); [by apply (Hself (Extract x off w))|].
    destruct (IHx (proj1 Hwf) Hb Hi) as (x' & -> & Hx'). cbn [mbind outcome_bind].
    finish_node (Extract x off w).
  - (* ZExt *)
    intros x IHx w Hwf Hb Hi. cbn [visit]. destruct (isConstant x); [by apply (Hself (ZExt x w))|].
    destruct (IHx (proj1 Hwf) Hb Hi) as (x' & -> & Hx'). cbn [mbind outcome_bind].
    finish_node (ZExt x w).
  - (* SExt *)
    intros x IHx w Hwf Hb Hi. cbn [visit]. destruct (isConstant x); [by apply (Hself (SExt x w))|].
    destruct (IHx (proj1 Hwf) Hb Hi) as (x' & -> & Hx'). cbn [mbind outcome_bind].
    finish_node (SExt x w).
  - (* Not *)
    intros x IHx Hwf Hb Hi. cbn [visit]. destruct (isConstant x); [by apply (Hself (Not x))|].
    destruct (IHx Hwf Hb Hi) as (x' & -> & Hx'). cbn [mbind outcome_bind].
    finish_node (Not x).
  - (* Binary *)
    intros k l IHl r IHr Hwf Hb Hi. pose proof Hwf as (Hwl & Hwr & Hw).
    pose proof Hb as (Hdiv & Hbl & Hbr). cbn [visit].
    destruct (IHl Hwl Hbl) as (l' & El & Hl'); [intros Ho; apply (Hi Ho)|].
    destruct (IHr Hwr Hbr) as (r' & Er & Hr'); [intros Ho; apply (Hi Ho)|].
    destruct (Kind.is_div k) eqn:Ek.
    + destruct (isConstant l && isConstant r) eqn:Ec.
      * destruct (Hdiv eq_refl) as [Hw1 Hnz].
        apply (division_creates _ k l r l r); auto; apply denotes_self; auto;
          intros ? -> Ho; apply (Hi Ho).
      * rewrite El, Er. cbn [mbind outcome_bind]. by apply protectedDiv_creates.
    + assert (Hbuild : forall l r, buildable (Binary k l r)).
      { intros ? []; simpl; auto. congruence. }
      destruct (isConstant l && isConstant r) eqn:Ec; [by apply (Hself (Binary k l r))|].
      rewrite El, Er. cbn [mbind outcome_bind].
      finish_node (Binary k l r). apply Hbuild.
  - (* NoUpdate *)
    intros a i Ha Hdom _ _ _ Hr _. cbn [evalRead].
    rewrite (initialValue_const asg) by (auto; try lia; by left).
    apply creates_ret. pose proof (array_value_range (env asg) a i Ha ltac:(lia)) as Hrange.
    eapply denotes_ext; [apply (denotes_const _ (mkConst (array_value (env asg) a i) (arange a)) (arange a)); [|done]|].
    + split; [apply Ha|done].
    + intros rho ->. done.
  - (* Update *)
    intros ui IHi uv IHv n IHn a i Ha Hdom (Hwi & Hwv & Hdi & Hrv & Hwn) (Hbi & Hbv & Hbn) Hinb Hr Hlt.
    change (evalRead asg a (Update ui uv n) i) with
      (ui' ← visit asg ui;
       match ui' with
       | Constant c => v ← getZExtValue c; if v =? i then visit asg uv else evalRead asg a n i
       | _ => ReadExpr__create a (Update ui uv n) (Constant (ConstantExpr__alloc i (adomain a)))
       end).
    destruct (IHi Hwi Hbi) as (ui' & -> & Hui); [intros Ho; apply (Hinb Ho)|].
    cbn [mbind outcome_bind].
    destruct (isConstant ui') eqn:Ec.
    + destruct ui' as [c| | | | | | | | |]; try done.
      pose proof (denotes_Const_inv _ _ _ _ Hui) as (_ & Hcw & Hv). specialize (Hv _ eq_refl).
      unfold getZExtValue. rewrite Hcw, Hdi, (proj2 (Z.leb_le _ _)) by lia.
      cbn [assertM mbind outcome_bind]. rewrite <- Hv. cbn beta.
      destruct (eval (env asg) ui =? i) eqn:Ei.
      * rewrite <- Hrv. eapply creates_ext; [apply IHv; auto; intros Ho; apply (Hinb Ho)|].
        intros rho ->. cbn [read_at]. by rewrite Ei.
      * eapply creates_ext; [apply IHn; auto; intros Ho; apply (Hinb Ho)|].
        intros rho ->. cbn [read_at]. by rewrite Ei.
    + assert (Hc : creates D (arange a) (fun rho => read_at rho a (Update ui uv n) i)
        (ReadExpr__create a (Update ui uv n) (Constant (ConstantExpr__alloc i (adomain a))))).
      { pose proof (proj1 (proj2 Ha)) as Hda.
        eapply creates_ext; [eapply (ReadExpr__create_creates D a (Update ui uv n) (fun _ => i))|].
        - exact Ha.
        - lia.
        - eapply denotes_ext; [by apply denotes_alloc|]. intros. by apply Z.mod_small.
        - by split_and!.
        - intros rho -> Ho. by apply Hinb.
        - intros Ho Hcon rho _. auto.
        - done. }
      by destruct ui'.
Qed.

(** The constant the visitor returns, when it does. *)
Lemma visit_constant e c :
  wf e -> built heap e -> inb (env asg) e -> visit asg e = Ret (Constant c) ->
  c = mkConst (eval (env asg) e) (getWidth e).
Proof using Hfree Hshape.
  intros Hwf Hb Hi E. destruct (proj1 visit_creates e Hwf Hb Hi) as (e' & E' & Hd).
  rewrite E' in E. injection E as ->. apply denotes_Const_inv in Hd as (_ & Hw & Hv).
  specialize (Hv _ eq_refl). destruct c; simpl in *. congruence.
Qed.

(** [satisfies] returns, and what it accepts is satisfied. *)
Lemma satisfies_sound cs :
  Forall (fun e => wf e /\ built heap e /\ inb (env asg) e /\ getWidth e = 1) cs ->
  exists b, satisfies asg cs = Ret b /\
    (b = true -> Forall (fun e => eval (env asg) e = 1) cs).
Proof using Hfree Hshape.
  induction 1 as [|e cs (Hwf & Hb & Hi & Hw) _ (b & IH & Hall)]; [by exists true|].
  cbn [satisfies]. destruct (proj1 visit_creates e Hwf Hb Hi) as (v & E & Hd). rewrite E.
  cbn [mbind outcome_bind]. rewrite (den_width _ _ _ _ Hd), Hw.
  cbn [Z.eqb Pos.eqb assertM mbind outcome_bind].
  destruct v as [c| | | | | | | | |]; try (by exists false).
  pose proof (visit_constant e c Hwf Hb Hi E) as ->. unfold isTrue, nz. cbn [cwidth cvalue].
  destruct (Z.eqb_spec (eval (env asg) e) 0) as [Hz|Hz]; rewrite Hw; cbn [Z.eqb Pos.eqb andb negb].
  - by exists false.
  - exists b. split; [done|]. intros Ht. constructor; [|auto].
    pose proof (proj1 (eval_range (env asg)) e Hwf) as Hr. rewrite Hw in Hr. lia.
Qed.

End Sound.
