(* ===== verification/ExprReads.v ===== *)
(** * The reads of an expression

    [findReads] and [findSymbolicObjects] of [lib/Expr/ExprUtil.cpp]: the
    worklist that collects the reads of an expression returns exactly the
    reads of its tree, and the value of an expression depends on no other
    positions of arrays than those it reads. *)

From S2P Require Import Prelude ExprData ExprCreate ExprSem ExprOrder ExprHeap.

(** ** The collection of reads *)

(** The indices and values of a chain of updates, in the order of the walk. *)
Fixpoint upd_exprs (u : UpdateNode) : list Expr :=
  match u with NoUpdate => [] | Update i v n => i :: v :: upd_exprs n end.

(** [if (!isa<ConstantExpr>(k) && visited.insert(k).second) stack.push_back(k)];
    the top of the stack is the head of the list. *)
Definition push (st : gset Expr * list Expr) (k : Expr) : gset Expr * list Expr :=
  let '(visited, stack) := st in
  if isConstant k then st
  else if bool_decide (k ∈ visited) then st
  else ({[k]} ∪ visited, k :: stack).

Definition push_all (ks : list Expr) (st : gset Expr * list Expr) : gset Expr * list Expr :=
  foldl push st ks.

Fixpoint findReads_loop (fuel : nat) (visitUpdates : bool) (stack : list Expr)
    (visited : gset Expr) (updates : list UpdateNode) (results : list Expr) : outcome (list Expr) :=
  match fuel with
  | O => Stop OutOfFuel
  | S n =>
      match stack with
      | [] => Ret results
      | top :: stack =>
          match top with
          | Read _ u i =>
              let results := results ++ [top] in
              let st := push (visited, stack) i in
              if visitUpdates && negb (bool_decide (u ∈ updates)) then
                let '(visited, stack) := push_all (upd_exprs u) st in
                findReads_loop n visitUpdates stack visited (u :: updates) results
              else findReads_loop n visitUpdates st.2 st.1 updates results
          | _ =>
              let '(visited, stack) := push_all (kids top) (visited, stack) in
              findReads_loop n visitUpdates stack visited updates results
          end
      end
  end.

(** The nodes of an expression, updates included: a bound on the number of
    expressions the walk visits. *)
Fixpoint esize (e : Expr) : nat :=
  match e with
  | Constant _ => 1
  | NotOptimized s => S (esize s)
  | Read _ u i => S (esize_upd u + esize i)
  | Select c t f => S (esize c + esize t + esize f)
  | Concat l r => S (esize l + esize r)
  | Extract x _ _ => S (esize x)
  | ZExt s _ => S (esize s)
  | SExt s _ => S (esize s)
  | Not x => S (esize x)
  | Binary _ l r => S (esize l + esize r)
  end
with esize_upd (u : UpdateNode) : nat :=
  match u with NoUpdate => 0 | Update i v n => esize i + esize v + esize_upd n end.

Definition findReads (e : Expr) (visitUpdates : bool) : outcome (list Expr) :=
  let '(visited, stack) := push (∅, []) e in
  findReads_loop (S (esize e)) visitUpdates stack visited [] [].

(** ** The tree of an expression *)

(** All nodes, and those that are reads. *)
Fixpoint nodes (e : Expr) : list Expr :=
  e :: match e with
       | Constant _ => []
       | NotOptimized s => nodes s
       | Read _ u i => nodes i ++ nodes_upd u
       | Select c t f => nodes c ++ nodes t ++ nodes f
       | Concat l r => nodes l ++ nodes r
       | Extract x _ _ => nodes x
       | ZExt s _ => nodes s
       | SExt s _ => nodes s
       | Not x => nodes x
       | Binary _ l r => nodes l ++ nodes r
       end
with nodes_upd (u : UpdateNode) : list Expr :=
  match u with NoUpdate => [] | Update i v n => nodes i ++ nodes v ++ nodes_upd n end.

Definition is_read (e : Expr) : bool := match e with Read _ _ _ => true | _ => false end.

(** The nodes directly below. *)
Definition below_node (e : Expr) : list Expr :=
  match e with Read _ u i => i :: upd_exprs u | _ => kids e end.

Lemma length_nodes :
  (forall e, length (nodes e) = esize e) /\ (forall u, length (nodes_upd u) = esize_upd u).
Proof. apply Expr_UpdateNode_ind; simpl; intros; rewrite ?length_app; lia. Qed.

Lemma nodes_self e : e ∈ nodes e.
Proof. destruct e; simpl; left. Qed.

Lemma nodes_upd_elem u x : x ∈ nodes_upd u <-> exists k, k ∈ upd_exprs u /\ x ∈ nodes k.
Proof.
  induction u as [|i v n IH] using UpdateNode_chain_ind; simpl; [set_solver|].
  rewrite !elem_of_app, IH. set_solver.
Qed.

Lemma nodes_elem e x : x ∈ nodes e <-> x = e \/ exists k, k ∈ below_node e /\ x ∈ nodes k.
Proof.
  destruct e; simpl; rewrite elem_of_cons, ?elem_of_app, ?nodes_upd_elem; set_solver.
Qed.

Lemma upd_exprs_size u k : k ∈ upd_exprs u -> (esize k <= esize_upd u)%nat.
Proof.
  induction u as [|i v n IH] using UpdateNode_chain_ind; simpl; [set_solver|].
  rewrite !elem_of_cons. intros [->|[->|Hk]]; [lia..|]. specialize (IH Hk). lia.
Qed.

Lemma below_node_size e k : k ∈ below_node e -> (esize k < esize e)%nat.
Proof.
  destruct e; simpl; rewrite ?elem_of_cons, ?elem_of_nil; intros; destruct_or?; subst; try lia; try done.
  match goal with Hk : _ ∈ upd_exprs _ |- _ => apply upd_exprs_size in Hk; lia end.
Qed.

(** Induction along the nodes below, updates included. *)
Lemma below_node_ind (P : Expr -> Prop) :
  (forall e, (forall k, k ∈ below_node e -> P k) -> P e) -> forall e, P e.
Proof.
  intros HP e. remember (esize e) as n eqn:En. revert e En.
  induction (lt_wf n) as [n _ IH]. intros e ->. apply HP. intros k Hk.
  eapply IH; [|reflexivity]. by apply below_node_size.
Qed.

Lemma nodes_trans e x y : x ∈ nodes e -> y ∈ below_node x -> y ∈ nodes e.
Proof.
  revert x y. induction e as [e IH] using below_node_ind. intros x y Hx Hy. rewrite nodes_elem in Hx. destruct Hx as [->|(k & Hk & Hx)]; rewrite nodes_elem; right.
  - exists y. split; [done|apply nodes_self].
  - exists k. split; [done|]. by eapply IH.
Qed.

Lemma nodes_nested e x y : x ∈ nodes e -> y ∈ nodes x -> y ∈ nodes e.
Proof.
  intros Hx. induction x as [x IH] using below_node_ind. rewrite (nodes_elem x).
  intros [->|(k & Hk & Hy)]; [done|]. eapply IH; eauto. by eapply nodes_trans.
Qed.

(** What holds of a whole expression holds of its nodes. *)
Lemma built_below heap e k : built heap e -> k ∈ below_node e -> built heap k.
Proof.
  assert (Hu : forall u, built_upd heap u -> k ∈ upd_exprs u -> built heap k).
  { induction u as [|i v n IH] using UpdateNode_chain_ind; simpl; [set_solver|].
    rewrite !elem_of_cons. naive_solver. }
  destruct e; simpl; rewrite ?elem_of_cons, ?elem_of_nil; naive_solver.
Qed.

Lemma built_nodes heap e : built heap e -> forall x, x ∈ nodes e -> built heap x.
Proof.
  induction e as [e IH] using below_node_ind. intros Hb x Hx. rewrite nodes_elem in Hx.
  destruct Hx as [->|(k & Hk & Hx)]; [done|]. eapply IH; eauto. by eapply built_below.
Qed.

Lemma wf_below e k : wf e -> k ∈ below_node e -> wf k.
Proof.
  assert (Hu : forall a u, wf_upd a u -> k ∈ upd_exprs u -> wf k).
  { intros a. induction u as [|i v n IH] using UpdateNode_chain_ind; simpl; [set_solver|].
    rewrite !elem_of_cons. naive_solver. }
  destruct e; simpl; rewrite ?elem_of_cons, ?elem_of_nil; naive_solver.
Qed.

Lemma wf_nodes e : wf e -> forall x, x ∈ nodes e -> wf x.
Proof.
  induction e as [e IH] using below_node_ind. intros Hb x Hx. rewrite nodes_elem in Hx.
  destruct Hx as [->|(k & Hk & Hx)]; [done|]. eapply IH; eauto. by eapply wf_below.
Qed.

(** A set that holds the root and is closed downwards, constants aside, holds
    every node that is not a constant. *)
Lemma nodes_closed (W : gset Expr) e :
  (isConstant e = false -> e ∈ W) ->
  (forall x y, x ∈ W -> y ∈ below_node x -> isConstant y = false -> y ∈ W) ->
  forall x, x ∈ nodes e -> isConstant x = false -> x ∈ W.
Proof.
  intros He Hcl. induction e as [e IH] using below_node_ind.
  intros x Hx Hc. rewrite nodes_elem in Hx. destruct Hx as [->|(k & Hk & Hx)]; [by apply He|].
  eapply (IH k); eauto. intros Hkc.
  assert (Hec : isConstant e = false) by (destruct e; [set_solver|done..]).
  by eapply Hcl; [apply He| |].
Qed.

(** ** The worklist visits the tree *)

Lemma push_spec visited stack k visited' stack' :
  push (visited, stack) k = (visited', stack') ->
  (visited' = visited /\ stack' = stack /\ (isConstant k = false -> k ∈ visited)) \/
  (isConstant k = false /\ (k ∉ visited) /\ visited' = ({[k]} ∪ visited) /\ stack' = (k :: stack)).
Proof.
  unfold push. destruct (isConstant k); [intros [= <- <-]; left; done|].
  case_bool_decide; intros [= <- <-]; [left|right]; done.
Qed.

(** What pushing does: the new elements of the stack are new in the set, and
    all of [ks] is in it. *)
Lemma push_all_spec ks : forall visited stack visited' stack',
  push_all ks (visited, stack) = (visited', stack') ->
  exists new, stack' = new ++ stack /\ NoDup new /\ visited' = list_to_set new ∪ visited /\
    (forall x, x ∈ new -> x ∈ ks /\ isConstant x = false /\ x ∉ visited) /\
    (forall k, k ∈ ks -> isConstant k = false -> k ∈ visited').
Proof.
  induction ks as [|k ks IH]; intros visited stack visited' stack' E.
  - injection E as <- <-. exists []. split_and!; auto using NoDup_nil_2; set_solver.
  - unfold push_all in E. cbn [foldl] in E.
    destruct (push (visited, stack) k) as [v1 s1] eqn:Ep.
    destruct (IH v1 s1 visited' stack' E) as (new & -> & Hnd & -> & Hnew & Hall).
    destruct (push_spec _ _ _ _ _ Ep) as [(-> & -> & Hk)|(Hk & Hnk & -> & ->)].
    + exists new. split_and!; auto; [set_solver|].
      intros k' [->|Hin]%elem_of_cons Hc; [|by apply Hall]. specialize (Hk Hc). set_solver.
    + exists (new ++ [k]). split_and!.
      * by rewrite <- app_assoc.
      * apply NoDup_app. split; [done|]. split; [|by apply NoDup_singleton].
        intros x Hx Hxk. apply Hnew in Hx as (_ & _ & Hx). set_solver.
      * rewrite list_to_set_app_L. simpl. set_solver.
      * intros x Hx. rewrite elem_of_app in Hx. destruct Hx as [Hx|Hx].
        -- apply Hnew in Hx. set_solver.
        -- set_solver.
      * intros k' [->|Hin]%elem_of_cons Hc; [set_solver|by apply Hall].
Qed.

Section Walk.
Variable e : Expr.

Record walk_inv (stack : list Expr) (visited : gset Expr) (updates : list UpdateNode)
    (results : list Expr) : Prop := {
  walk_nodes : forall x, x ∈ visited -> x ∈ nodes e /\ isConstant x = false;
  walk_stack : forall x, x ∈ stack -> x ∈ visited;
  walk_root : isConstant e = false -> e ∈ visited;
  walk_done : forall x, x ∈ visited -> x ∉ stack ->
    (forall y, y ∈ below_node x -> isConstant y = false -> y ∈ visited) /\
    (is_read x = true -> x ∈ results);
  walk_updates : forall u, u ∈ updates ->
    forall k, k ∈ upd_exprs u -> isConstant k = false -> k ∈ visited;
  walk_results : forall x, x ∈ results -> x ∈ nodes e /\ is_read x = true
}.

(** The work that is left: the stack and the nodes not seen yet. *)
Definition work (stack : list Expr) (visited : gset Expr) : nat :=
  length stack + size (list_to_set (nodes e) ∖ visited).

(** One turn: [top] is popped, what is below it is pushed, and [top] is a
    result when it is a read. *)
Lemma walk_step top stack visited updates results ks visited' stack' updates' :
  walk_inv (top :: stack) visited updates results ->
  push_all ks (visited, stack) = (visited', stack') ->
  (forall k, k ∈ ks -> k ∈ below_node top) ->
  (forall k, k ∈ below_node top -> isConstant k = false -> k ∈ visited') ->
  (forall u, u ∈ updates' -> u ∈ updates \/ forall k, k ∈ upd_exprs u -> isConstant k = false -> k ∈ visited') ->
  walk_inv stack' visited' updates' (results ++ if is_read top then [top] else []) /\
  (work stack' visited' < work (top :: stack) visited)%nat.
Proof.
  intros [Hn Hs Hr Hd Hu Hres] Hp Hks Hbelow Hupd.
  destruct (push_all_spec _ _ _ _ _ Hp) as (new & -> & Hnd & -> & Hnew & _).
  assert (Htop : top ∈ visited) by (apply Hs; left).
  assert (Hnewn : forall x, x ∈ new -> x ∈ nodes e /\ isConstant x = false /\ x ∉ visited).
  { intros x Hx. destruct (Hnew x Hx) as (Hk & Hc & Hv). split_and!; auto.
    eapply nodes_trans; [by apply Hn|]. by apply Hks. }
  split; [split|].
  - intros x. rewrite elem_of_union, elem_of_list_to_set. intros [Hx|Hx]; [|by apply Hn].
    apply Hnewn in Hx. tauto.
  - intros x. rewrite elem_of_app, elem_of_union, elem_of_list_to_set.
    intros [Hx|Hx]; [by left|]. right. apply Hs. by right.
  - intros He. apply elem_of_union. right. auto.
  - intros x. rewrite elem_of_union, elem_of_list_to_set, elem_of_app. intros [Hx|Hx] Hnot; [tauto|].
    destruct (decide (x = top)) as [->|Hne].
    + split; [done|]. intros Hrd. rewrite Hrd. set_solver.
    + destruct (Hd x Hx) as [Hb Hrd].
      { rewrite elem_of_cons. intros [|]; tauto. }
      split; [|set_solver]. intros y Hy Hc. apply elem_of_union. right. auto.
  - intros u Hin k Hk Hc. destruct (Hupd u Hin) as [Hold|Hfresh]; [|by apply Hfresh].
    apply elem_of_union. right. by eapply Hu.
  - intros x. rewrite elem_of_app. intros [Hx|Hx]; [by apply Hres|].
    destruct (is_read top) eqn:Er; [|set_solver]. apply list_elem_of_singleton in Hx as ->.
    split; [by apply Hn|done].
  - unfold work. rewrite length_app. cbn [length].
    assert (Hsub : list_to_set new ⊆@{gset Expr} list_to_set (nodes e) ∖ visited).
    { intros x. rewrite elem_of_list_to_set, elem_of_difference, elem_of_list_to_set.
      intros Hx. apply Hnewn in Hx. tauto. }
    replace (list_to_set (nodes e) ∖ (list_to_set new ∪ visited))
      with ((list_to_set (nodes e) ∖ visited) ∖ list_to_set new : gset Expr) by set_solver.
    rewrite size_difference by done. rewrite size_list_to_set by done.
    apply subseteq_size in Hsub. rewrite size_list_to_set in Hsub by done. lia.
Qed.

Lemma findReads_loop_ok fuel : forall stack visited updates results,
  walk_inv stack visited updates results -> (work stack visited < fuel)%nat ->
  exists rs, findReads_loop fuel true stack visited updates results = Ret rs /\
    forall x, x ∈ rs <-> x ∈ nodes e /\ is_read x = true.
Proof.
  induction fuel as [|n IH]; intros stack visited updates results Hinv Hw; [lia|].
  destruct stack as [|top stack]; cbn [findReads_loop].
  { exists results. split; [done|]. intros x. split; [apply Hinv|]. intros [Hx Hrd].
    assert (Hc : isConstant x = false) by (by destruct x).
    assert (Hv : x ∈ visited).
    { eapply (nodes_closed visited e); eauto; [apply Hinv|].
      intros y z Hy Hz. apply (walk_done _ _ _ _ Hinv y Hy); [apply not_elem_of_nil|done]. }
    apply (walk_done _ _ _ _ Hinv x Hv); [apply not_elem_of_nil|done]. }
  assert (Hother : is_read top = false -> forall visited' stack',
    push_all (kids top) (visited, stack) = (visited', stack') ->
    exists rs, findReads_loop n true stack' visited' updates results = Ret rs /\
    forall x, x ∈ rs <-> x ∈ nodes e /\ is_read x = true).
  { intros Hnr visited' stack' Hp.
    assert (Hb : below_node top = kids top) by (by destruct top).
    destruct (push_all_spec _ _ _ _ _ Hp) as (_ & _ & _ & _ & _ & Hall).
    destruct (walk_step _ _ _ _ _ _ _ _ updates Hinv Hp) as [Hinv' Hw'].
    - by rewrite Hb.
    - by rewrite Hb.
    - by left.
    - rewrite Hnr, app_nil_r in Hinv'. apply IH; [done|lia]. }
  destruct top as [| |a u i| | | | | | |]; try (destruct (push_all _ _) eqn:Hp; by eapply Hother).
  clear Hother. cbn [andb].
  destruct (push (visited, stack) i) as [v1 s1] eqn:Hp1.
  assert (Hi : forall visited' stack', push_all (upd_exprs u) (v1, s1) = (visited', stack') ->
    push_all (i :: upd_exprs u) (visited, stack) = (visited', stack')).
  { intros visited' stack' Hp2. unfold push_all. cbn [foldl]. by rewrite Hp1. }
  destruct (bool_decide (u ∈ updates)) eqn:Hin; cbn [negb].
  - apply bool_decide_eq_true in Hin. cbn [fst snd].
    assert (Hp : push_all [i] (visited, stack) = (v1, s1)) by done.
    destruct (push_all_spec _ _ _ _ _ Hp) as (new & Hs1 & _ & Hv1 & _ & Hall).
    destruct (walk_step _ _ _ _ _ _ _ _ updates Hinv Hp) as [Hinv' Hw'].
    + intros k ->%list_elem_of_singleton. simpl. left.
    + simpl. intros k [->|Hk]%elem_of_cons Hc; [by apply Hall; [left|]|].
      rewrite Hv1. apply elem_of_union. right. by eapply (walk_updates _ _ _ _ Hinv).
    + by left.
    + apply IH; [done|lia].
  - destruct (push_all (upd_exprs u) (v1, s1)) as [visited' stack'] eqn:Hp2.
    specialize (Hi _ _ eq_refl).
    destruct (push_all_spec _ _ _ _ _ Hi) as (_ & _ & _ & _ & _ & Hall).
    destruct (walk_step _ _ _ _ _ _ _ _ (u :: updates) Hinv Hi) as [Hinv' Hw'].
    + done.
    + done.
    + intros u' [->|Hu']%elem_of_cons; [|by left]. right. intros k Hk Hc. apply Hall; [by right|done].
    + apply IH; [done|lia].
Qed.

End Walk.

Lemma size_list_to_set_le (l : list Expr) : (size (list_to_set l : gset Expr) <= length l)%nat.
Proof.
  induction l as [|x l IH]; [done|]. cbn [list_to_set length].
  rewrite size_union_alt, size_singleton.
  assert (size ((list_to_set l : gset Expr) ∖ {[x]}) <= size (list_to_set l : gset Expr))%nat; [|lia].
  apply subseteq_size. set_solver.
Qed.

(** The walk ends and collects exactly the reads of the tree. *)
Lemma findReads_ok e :
  exists rs, findReads e true = Ret rs /\ forall x, x ∈ rs <-> x ∈ nodes e /\ is_read x = true.
Proof.
  unfold findReads. destruct (push (∅, []) e) as [visited stack] eqn:Hp.
  pose proof (size_list_to_set_le (nodes e)) as Hsz. rewrite (proj1 length_nodes) in Hsz.
  assert (Hself : e ∈ nodes e) by apply nodes_self.
  destruct (push_spec _ _ _ _ _ Hp) as [(-> & -> & Hk)|(Hk & _ & -> & ->)].
  - apply findReads_loop_ok.
    + split; set_solver.
    + unfold work. replace (list_to_set (nodes e) ∖ ∅) with (list_to_set (nodes e) : gset Expr) by set_solver.
      simpl. lia.
  - apply findReads_loop_ok.
    + split; set_solver.
    + unfold work. assert (Hin : {[e]} ⊆@{gset Expr} list_to_set (nodes e)) by set_solver.
      replace (list_to_set (nodes e) ∖ ({[e]} ∪ ∅)) with (list_to_set (nodes e) ∖ {[e]} : gset Expr) by set_solver.
      rewrite size_difference, size_singleton by done. simpl.
      apply subseteq_size in Hin. rewrite size_singleton in Hin. lia.
Qed.

(** ** Symbolic objects

    The visitor [SymbolicObjectFinder]: the updates of a read first, then its
    array, then its index. *)

Definition add_object (a : Array) (objects : list Array) : list Array :=
  if isSymbolicArray a && negb (bool_decide (a ∈ objects)) then objects ++ [a] else objects.

Fixpoint find_objects (e : Expr) (objects : list Array) : list Array :=
  match e with
  | Constant _ => objects
  | NotOptimized s => find_objects s objects
  | Read a u i => find_objects i (add_object a (find_objects_upd u objects))
  | Select c t f => find_objects f (find_objects t (find_objects c objects))
  | Concat l r => find_objects r (find_objects l objects)
  | Extract x _ _ => find_objects x objects
  | ZExt s _ => find_objects s objects
  | SExt s _ => find_objects s objects
  | Not x => find_objects x objects
  | Binary _ l r => find_objects r (find_objects l objects)
  end
with find_objects_upd (u : UpdateNode) (objects : list Array) : list Array :=
  match u with
  | NoUpdate => objects
  | Update i v n => find_objects_upd n (find_objects v (find_objects i objects))
  end.

Definition findSymbolicObjects (es : list Expr) : list Array :=
  foldl (fun objects e => find_objects e objects) [] es.

(** The array of some read of the tree. *)
Definition reads_array (a : Array) (e : Expr) : Prop := exists u i, Read a u i ∈ nodes e.

Lemma add_object_elem a x objects :
  x ∈ add_object a objects <-> x ∈ objects \/ (x = a /\ isSymbolicArray a = true).
Proof.
  unfold add_object. destruct (isSymbolicArray a); simpl; [|naive_solver].
  case_bool_decide; simpl; set_solver.
Qed.

Lemma find_objects_elem :
  (forall e objects x, x ∈ find_objects e objects <->
    x ∈ objects \/ (isSymbolicArray x = true /\ reads_array x e)) /\
  (forall u objects x, x ∈ find_objects_upd u objects <->
    x ∈ objects \/ (isSymbolicArray x = true /\ exists v i, Read x v i ∈ nodes_upd u)).
Proof.
  unfold reads_array. apply Expr_UpdateNode_ind; cbn [find_objects find_objects_upd nodes nodes_upd]; intros;
    repeat match goal with IH : forall objects x, x ∈ _ <-> _ |- _ => rewrite IH; clear IH end;
    rewrite ?add_object_elem;
    repeat match goal with IH : forall objects x, x ∈ _ <-> _ |- _ => rewrite IH; clear IH end;
    repeat setoid_rewrite elem_of_cons; repeat setoid_rewrite elem_of_app;
    repeat setoid_rewrite elem_of_nil; try naive_solver.
Qed.

Lemma findSymbolicObjects_elem es a :
  a ∈ findSymbolicObjects es <-> isSymbolicArray a = true /\ exists e, e ∈ es /\ reads_array a e.
Proof.
  assert (Hgen : forall objects, a ∈ foldl (fun objects e => find_objects e objects) objects es <->
    a ∈ objects \/ (isSymbolicArray a = true /\ exists e, e ∈ es /\ reads_array a e)).
  { induction es as [|e es IH]; intros objects; simpl; [set_solver|].
    rewrite IH, (proj1 find_objects_elem). set_solver. }
  unfold findSymbolicObjects. rewrite Hgen. set_solver.
Qed.

(** ** The value depends on what is read *)

(** The positions a read may look at: the one its constant index names, or
    all; a constant array without updates is not looked at. *)
Definition cell_covered (W : Array -> Z -> Prop) (r : Expr) : Prop :=
  match r with
  | Read a u i =>
      (isConstantArray a = true /\ u = NoUpdate) \/
      match i with Constant c => W a (cvalue c) | _ => forall j, W a j end
  | _ => True
  end.

Definition covers (W : Array -> Z -> Prop) (e : Expr) : Prop :=
  forall r, r ∈ nodes e -> cell_covered W r.

Lemma covers_below W e k : covers W e -> k ∈ below_node e -> covers W k.
Proof. intros Hc Hk r Hr. apply Hc. rewrite nodes_elem. right. by exists k. Qed.

Section Frame.
Context `{DivByZero}.
Variables (heap : Z -> Array) (W : Array -> Z -> Prop) (rho rho' : assignment).
Hypothesis Hagree : forall a i, heap (aaddr a) = a -> isConstantArray a = false -> 0 <= i ->
  W a i -> rho a i = rho' a i.
Hypothesis Hbeyond : forall a i, heap (aaddr a) = a -> isConstantArray a = true ->
  asize a <= i -> rho a i = rho' a i.

Lemma array_value_frame a i (u : UpdateNode) index :
  heap (aaddr a) = a -> 0 <= i -> cell_covered W (Read a u index) ->
  (forall c, index = Constant c -> i = cvalue c) ->
  array_value rho a i = array_value rho' a i.
Proof using Hagree Hbeyond.
  intros Ha Hpos Hc Hi. unfold array_value.
  destruct (isConstantArray a && (i <? asize a)) eqn:E; [done|].
  assert (Hr : rho a i = rho' a i); [|by rewrite Hr].
  destruct (isConstantArray a) eqn:Hconst.
  - simpl in E. apply Z.ltb_ge in E. by apply Hbeyond.
  - destruct Hc as [[Hcc _]|Hc]; [congruence|]. apply Hagree; [done..|].
    destruct index; try apply Hc. by rewrite (Hi _ eq_refl).
Qed.

Lemma eval_frame :
  (forall e, wf e -> in_heap heap e -> covers W e -> eval rho e = eval rho' e) /\
  (forall u a b i, wf_upd b u -> in_heap_upd heap u -> (forall k, k ∈ upd_exprs u -> covers W k) ->
    array_value rho a i = array_value rho' a i -> read_at rho a u i = read_at rho' a u i).
Proof using Hagree Hbeyond.
  apply Expr_UpdateNode_ind; cbn [eval read_at in_heap in_heap_upd wf wf_upd]; intros; decompose_hyps;
    repeat match goal with
    | IH : wf ?k -> in_heap heap ?k -> covers W ?k -> eval _ _ = _,
        Hw : wf ?k, Hh : in_heap heap ?k |- _ =>
        specialize (IH Hw Hh); rewrite IH by (eapply covers_below; [eassumption|set_solver]); clear IH
    end; auto.
  - (* Read *)
    match goal with IH : forall a b i, wf_upd _ _ -> _ |- _ => apply (IH _ root) end; [done|done| |].
    + intros k Hk. eapply covers_below; [eassumption|]. simpl. by right.
    + eapply (array_value_frame root _ head index); [done| | |].
      * by apply eval_range.
      * by match goal with Hc : covers _ _ |- _ => apply Hc, nodes_self end.
      * by intros c ->.
  - (* Update *)
    match goal with Hcov : forall k, k ∈ upd_exprs _ -> _ |- _ => simpl in Hcov end.
    repeat match goal with
    | IH : wf ?k -> in_heap heap ?k -> covers W ?k -> eval _ _ = _,
        Hw : wf ?k, Hh : in_heap heap ?k |- _ =>
        specialize (IH Hw Hh); rewrite IH by set_solver; clear IH
    end.
    case_match; [done|]. match goal with IH : forall a b i, _ |- _ => eapply IH end; eauto. set_solver.
Qed.

End Frame.

(** ** What the searches find *)

(** C23: [findReads] ends, whatever sharing there is between operands and
    update lists, and finds exactly the reads inside an expression, those in
    the indices and values of updates included; [findSymbolicObjects] finds
    exactly the symbolic arrays that the expressions read. *)
Theorem findReads_exact (e : Expr) (es : list Expr) :
  (exists rs, findReads e true = Ret rs /\
     forall r, r ∈ rs <-> r ∈ nodes e /\ is_read r = true) /\
  (forall a, a ∈ findSymbolicObjects es <->
     isSymbolicArray a = true /\ exists x, x ∈ es /\ reads_array a x).
Proof. split; [apply findReads_ok|]. intros a. apply findSymbolicObjects_elem. Qed.
