(* ===== verification/Solver.v ===== *)
(** * Queries and solvers

    The interface [SolverImpl] of [include/klee/Solver/SolverImpl.h] as a
    class of operations, what an implementation promises as a second class,
    and the front end of [lib/Solver/Solver.cpp] proved against the promise.
    The implementations are in [SolverStaged], [SolverCaching],
    [SolverCexCaching] and [SolverIndependent]; each keeps a state (its cache
    and that of the solver below it) which every call hands on. *)

From S2P Require Import Prelude ExprData ExprCreate ExprSem ExprBool ExprArith ExprBits ExprSpec ExprOrder ExprHeap ExprEval ExprReads.

(** ** Queries *)

Record Query : Type := mkQuery { constraints : list Expr; expr : Expr }.

#[global] Instance Query_eq_dec : EqDecision Query.
Proof. solve_decision. Defined.

Definition withExpr (q : Query) (e : Expr) : Query := mkQuery (constraints q) e.

Definition withFalse (q : Query) : Query := withExpr q (Constant (ConstantExpr__alloc 0 1)).

Definition negateExpr `{ExprOptions} (q : Query) : outcome Query :=
  withExpr q <$> Expr__createIsZero (expr q).

Module Validity.
Inductive t : Type := True | False | Unknown.
End Validity.

#[global] Instance Validity_eq_dec : EqDecision Validity.t.
Proof. solve_decision. Defined.

(** ** Calls of a solver

    A call reads and changes the solver's state and either stops the program,
    reports failure ([return false], the value [None]), or succeeds. *)

Definition SM (S A : Type) : Type := S -> outcome (option A * S).

#[global] Instance SM_ret S : MRet (SM S) := fun A a s => Ret (Some a, s).

#[global] Instance SM_bind S : MBind (SM S) := fun A B f m s =>
  match m s with
  | Ret (Some a, s') => f a s'
  | Ret (None, s') => Ret (None, s')
  | Stop e => Stop e
  end.

Definition fails {S A} : SM S A := fun s => Ret (None, s).

(** A step that does not use the solver. *)
Definition lift {S A} (o : outcome A) : SM S A := fun s =>
  match o with Ret a => Ret (Some a, s) | Stop e => Stop e end.

(** [m] on the inner state of an outer one. *)
Definition zoom {S T A} (get : T -> S) (put : S -> T -> T) (m : SM S A) : SM T A := fun t =>
  match m (get t) with
  | Ret (r, s) => Ret (r, put s t)
  | Stop e => Stop e
  end.

Definition getS {S A} (f : S -> A) : SM S A := fun s => Ret (Some (f s), s).

(** A step that looks at the state and may stop. *)
Definition askS {S A} (f : S -> outcome A) : SM S A := fun s => lift (f s) s.

Definition putS {S} (f : S -> S) : SM S unit := fun s => Ret (Some (), f s).

(** The virtual methods of [SolverImpl].  [computeInitialValues] returns no
    values when it finds that there is no solution ([hasSolution = false]). *)
Class Solver (S : Type) : Type := {
  computeTruth : Query -> SM S bool;
  computeValidity : Query -> SM S Validity.t;
  computeValue : Query -> SM S Expr;
  computeInitialValues : Query -> list Array -> SM S (option (list (list Z)))
}.

(** The default method of the base class. *)
Definition SolverImpl__computeValidity `{ExprOptions} {S} (truth : Query -> SM S bool)
    (q : Query) : SM S Validity.t :=
  isTrue ← truth q;
  if isTrue : bool then mret Validity.True
  else
    q' ← lift (negateExpr q);
    isFalse ← truth q';
    mret (if isFalse : bool then Validity.False else Validity.Unknown).

(** ** The front end *)
Section FrontEnd.
Context `{ExprOptions} {S : Type} `{Solver S}.

Definition Solver__evaluate (q : Query) : SM S Validity.t :=
  _ ← lift (assertM (getWidth (expr q) =? 1));
  match expr q with
  | Constant CE => mret (if isTrue CE then Validity.True else Validity.False)
  | _ => computeValidity q
  end.

Definition Solver__mustBeTrue (q : Query) : SM S bool :=
  _ ← lift (assertM (getWidth (expr q) =? 1));
  match expr q with
  | Constant CE => mret (if isTrue CE then true else false)
  | _ => computeTruth q
  end.

Definition Solver__mustBeFalse (q : Query) : SM S bool :=
  q' ← lift (negateExpr q); Solver__mustBeTrue q'.

Definition Solver__mayBeTrue (q : Query) : SM S bool :=
  res ← Solver__mustBeFalse q; mret (negb res).

Definition Solver__mayBeFalse (q : Query) : SM S bool :=
  res ← Solver__mustBeTrue q; mret (negb res).

(** [cast<ConstantExpr>] asserts that the value is a constant. *)
Definition Solver__getValue (q : Query) : SM S ConstantExpr :=
  match expr q with
  | Constant CE => mret CE
  | _ =>
      tmp ← computeValue q;
      match tmp with
      | Constant c => mret c
      | _ => lift (Stop AssertFail)
      end
  end.

Definition Solver__getInitialValues (q : Query) (objects : list Array)
    : SM S (list (list Z)) :=
  r ← computeInitialValues q objects;
  match r with
  | None => fails
  | Some values => mret values
  end.

(** [bits64::maxValueOfNBits]. *)
Definition bits64__maxValueOfNBits (n : Z) : outcome Z :=
  _ ← assertM (n <=? 64);
  Ret (if n =? 0 then 0 else Z.shiftr (2 ^ 64 - 1) (64 - n)).

(** [assert(success && "FIXME: Unhandled solver failure")]. *)
Definition assertSuccess {A} (m : SM S A) : SM S A := fun s =>
  match m s with
  | Ret (None, _) => Stop AssertFail
  | r => r
  end.

(** The loop that the three searches of [getRange] have in common: [lo] moves
    above the middle unless [test] holds there. *)
Fixpoint search (fuel : nat) (test : Z -> SM S bool) (lo hi : Z) : SM S Z :=
  match fuel with
  | O => lift (Stop OutOfFuel)
  | Datatypes.S n =>
      if lo <? hi then
        let mid := u64 (lo + (hi - lo) / 2) in
        res ← assertSuccess (test mid);
        if res : bool then search n test lo mid else search n test (u64 (mid + 1)) hi
      else mret lo
  end.

(** The interval of 64-bit integers halves at every turn. *)
Definition search_fuel : nat := 66.

(** [ConstantExpr::create] as an expression. *)
Definition constant (v w : Z) : outcome Expr := Constant <$> ConstantExpr__create v w.

(** The [mid] low bits hold the value: the rest is shifted away. *)
Definition useful_bits_test (q : Query) (mid : Z) : SM S bool :=
  let width := getWidth (expr q) in
  e ← lift (m ← constant mid width;
            s ← Binary__create Kind.LShr (expr q) m;
            z ← constant 0 width;
            EqExpr__create s z);
  Solver__mustBeTrue (withExpr q e).

Definition min_test (q : Query) (mid : Z) : SM S bool :=
  e ← lift (m ← constant mid (getWidth (expr q)); Binary__create Kind.Ule (expr q) m);
  Solver__mayBeTrue (withExpr q e).

Definition max_test (q : Query) (mid : Z) : SM S bool :=
  e ← lift (m ← constant mid (getWidth (expr q)); Binary__create Kind.Ule (expr q) m);
  Solver__mustBeTrue (withExpr q e).

Definition zero_test (q : Query) : SM S bool :=
  e ← lift (z ← constant 0 (getWidth (expr q)); EqExpr__create (expr q) z);
  Solver__mayBeTrue (withExpr q e).

Definition Solver__getRange (q : Query) : SM S (Expr * Expr) :=
  let e := expr q in
  let width := getWidth e in
  minmax ←
    (if width =? 1 then
       result ← assertSuccess (Solver__evaluate q);
       mret (match result with
             | Validity.True => (1, 1)
             | Validity.False => (0, 0)
             | Validity.Unknown => (0, 1)
             end)
     else
       match e with
       | Constant CE => v ← lift (getZExtValue CE); mret (v, v)
       | _ =>
           bits ← search search_fuel (useful_bits_test q) 0 width;
           res ← assertSuccess (zero_test q);
           top ← lift (bits64__maxValueOfNBits bits);
           min ← (if res : bool then mret 0 else search search_fuel (min_test q) 0 top);
           max ← search search_fuel (max_test q) min top;
           mret (min, max)
       end);
  let '(min, max) := minmax in
  lo ← lift (constant min width);
  hi ← lift (constant max width);
  mret (lo, hi).

End FrontEnd.

(** ** What queries mean

    The arrays of a program are the ones in its heap; which of their positions
    a solver may choose is [free], the others (all those beyond the end of the
    array) hold 0.  An assignment of the domain gives a byte to every free
    position. *)

Class Universe : Type := {
  heap : Z -> Array;
  free : Array -> Z -> bool;
  heap_shape : forall p, adomain (heap p) = 32 /\ arange (heap p) = 8 /\ 0 <= asize (heap p);
  free_range : forall a i, free a i = true -> 0 <= i < asize a
}.

Definition known `{Universe} (a : Array) : Prop := heap (aaddr a) = a.

(** The assignments a query is about: a byte at every position, and 0 at those
    that are not free, among them the positions beyond the end of an array. *)
Definition in_domain `{Universe} (rho : assignment) : Prop :=
  forall a i, known a -> 0 <= i -> 0 <= rho a i < 256 /\ (free a i = false -> rho a i = 0).

Section Meaning.
Context `{ExprOptions} `{DivByZero} `{Universe}.

(** An expression a query may hold. *)
Record good (e : Expr) : Prop := {
  good_wf : wf e;
  good_built : built heap e;
  good_inb : forall rho, in_domain rho -> inb rho e
}.

Definition good_constraints (cs : list Expr) : Prop :=
  Forall (fun c => good c /\ getWidth c = 1) cs.

Definition good_query (q : Query) : Prop := good_constraints (constraints q) /\ good (expr q).

Definition bool_query (q : Query) : Prop := good_query q /\ getWidth (expr q) = 1.

(** Under the assignment no read leaves its array, no divisor is 0, and no
    [NotOptimized] hides a constant: the evaluation of the expression reaches
    a constant. *)
Fixpoint tame (rho : assignment) (e : Expr) : Prop :=
  match e with
  | Constant _ => True
  | NotOptimized s => tame rho s /\ isConstant s = false
  | Read a u i => tame_upd rho u /\ tame rho i /\ eval rho i < asize a
  | Select c t f => tame rho c /\ tame rho t /\ tame rho f
  | Concat l r => tame rho l /\ tame rho r
  | Extract x _ _ => tame rho x
  | ZExt s _ => tame rho s
  | SExt s _ => tame rho s
  | Not x => tame rho x
  | Binary k l r => tame rho l /\ tame rho r /\ (Kind.is_div k = true -> eval rho r <> 0)
  end
with tame_upd (rho : assignment) (u : UpdateNode) : Prop :=
  match u with
  | NoUpdate => True
  | Update i v n => tame rho i /\ tame rho v /\ tame_upd rho n
  end.

Definition models (rho : assignment) (q : Query) : Prop :=
  in_domain rho /\ Forall (fun c => eval rho c = 1) (constraints q).

Definition feasible (q : Query) : Prop := exists rho, models rho q.

(** The engine checks bounds and divisors before it builds an expression: under
    the path condition the expression can be evaluated. *)
Definition computable (q : Query) (e : Expr) : Prop := forall rho, models rho q -> tame rho e.

(** [forall X. constraints(X) -> query(X)]. *)
Definition valid (q : Query) : Prop := forall rho, models rho q -> eval rho (expr q) = 1.

Definition contradicted (q : Query) : Prop := forall rho, models rho q -> eval rho (expr q) = 0.

Definition attains (q : Query) (v : Z) : Prop :=
  exists rho, models rho q /\ eval rho (expr q) = v.

(** The promised results. *)
Definition truth_ok (q : Query) (isValid : bool) : Prop := isValid = true <-> valid q.

Definition validity_ok (q : Query) (result : Validity.t) : Prop :=
  match result with
  | Validity.True => valid q
  | Validity.False => contradicted q
  | Validity.Unknown => ~ valid q /\ ~ contradicted q
  end.

Definition value_ok (q : Query) (result : Expr) : Prop :=
  exists v, result = Constant (mkConst v (getWidth (expr q))) /\ attains q v.

(** The bytes of an object under an assignment. *)
Definition bytes_of (rho : assignment) (a : Array) (bytes : list Z) : Prop :=
  Z.of_nat (length bytes) = asize a /\
  forall i b, bytes !! i = Some b -> b = rho a (Z.of_nat i).

Definition initial_ok (q : Query) (objects : list Array) (r : option (list (list Z))) : Prop :=
  match r with
  | None => valid q
  | Some values =>
      exists rho, models rho q /\ eval rho (expr q) = 0 /\ Forall2 (bytes_of rho) objects values
  end.

(** The expression is not the constant true. *)
Definition not_true (e : Expr) : Prop := forall c, e = Constant c -> cvalue c = 0.

End Meaning.

(** A call from a state of [I] returns, to a state of [I], with a result of
    [Q]; it reports failure only if [F]. *)
Definition sat {S A} (I : S -> Prop) (F : Prop) (m : SM S A) (Q : A -> Prop) : Prop :=
  forall s, I s -> exists r s', m s = Ret (r, s') /\ I s' /\
    match r with Some a => Q a | None => F end.

(** The contract of an implementation.  Truth, validity and value are asked of
    feasible constraints only (the path condition of a state that was
    reached); [initial_pre] is what an implementation asks beyond that of a
    query for initial values. *)
Class SolverSpec `{ExprOptions} `{DivByZero} `{Universe} (S : Type) `{Solver S} : Type := {
  solver_inv : S -> Prop;
  solver_fails : Prop;
  computeTruth_ok : forall q, bool_query q -> feasible q ->
    sat solver_inv solver_fails (computeTruth q) (truth_ok q);
  computeValidity_ok : forall q, bool_query q -> computable q (expr q) -> feasible q ->
    sat solver_inv solver_fails (computeValidity q) (validity_ok q);
  computeValue_ok : forall q, good_query q -> computable q (expr q) -> feasible q ->
    sat solver_inv solver_fails (computeValue q) (value_ok q);
  initial_pre : Query -> list Array -> Prop;
  computeInitialValues_ok : forall q objects, bool_query q -> not_true (expr q) ->
    Forall known objects -> initial_pre q objects ->
    sat solver_inv solver_fails (computeInitialValues q objects) (initial_ok q objects)
}.

(** ** Rules for calls *)

Section Sat.
Context {S : Type} (I : S -> Prop) (F : Prop).

Lemma sat_ret {A} (Q : A -> Prop) a : Q a -> sat I F (mret a) Q.
Proof. intros HQ s Hs. by exists (Some a), s. Qed.

Lemma sat_fails {A} (Q : A -> Prop) : F -> sat I F fails Q.
Proof. intros HF s Hs. by exists None, s. Qed.

Lemma sat_lift {A} (Q : A -> Prop) o : (exists a, o = Ret a /\ Q a) -> sat I F (lift o) Q.
Proof. intros (a & -> & HQ) s Hs. by exists (Some a), s. Qed.

Lemma sat_assert b : b = true -> sat I F (lift (assertM b)) (fun _ => True).
Proof. intros ->. apply sat_lift. by eexists. Qed.

Lemma sat_bind {A B} (P : A -> Prop) (Q : B -> Prop) m f :
  sat I F m P -> (forall a, P a -> sat I F (f a) Q) -> sat I F (m ≫= f) Q.
Proof.
  intros Hm Hf s Hs. destruct (Hm s Hs) as ([a|] & s' & E & Hs' & Ha).
  - destruct (Hf a Ha s' Hs') as (r & s2 & E2 & H2). exists r, s2.
    unfold mbind, SM_bind. by rewrite E.
  - exists None, s'. unfold mbind, SM_bind. by rewrite E.
Qed.

Lemma sat_conseq {A} (P Q : A -> Prop) m : sat I F m P -> (forall a, P a -> Q a) -> sat I F m Q.
Proof.
  intros Hm Himp s Hs. destruct (Hm s Hs) as (r & s' & E & Hs' & Hr).
  exists r, s'. split_and!; auto. destruct r; auto.
Qed.

Lemma sat_get {A} (Q : A -> Prop) f : (forall s, I s -> Q (f s)) -> sat I F (getS f) Q.
Proof. intros HQ s Hs. exists (Some (f s)), s. auto. Qed.

Lemma sat_ask {A} (Q : A -> Prop) f :
  (forall s, I s -> exists a, f s = Ret a /\ Q a) -> sat I F (askS f) Q.
Proof. intros HQ s Hs. destruct (HQ s Hs) as (a & E & Ha). unfold askS. rewrite E. by exists (Some a), s. Qed.

Lemma sat_put f : (forall s, I s -> I (f s)) -> sat I F (putS f) (fun _ => True).
Proof. intros HI s Hs. exists (Some ()), (f s). auto. Qed.

End Sat.

(** A call on the inner state, when the invariant of the outer state is the
    inner one's and something about the rest. *)
Lemma sat_zoom {S T A} (get : T -> S) (put : S -> T -> T) (I : S -> Prop) (J : T -> Prop)
    (F : Prop) (m : SM S A) (Q : A -> Prop) :
  (forall t, J t -> I (get t)) -> (forall s t, J t -> I s -> J (put s t)) ->
  sat I F m Q -> sat J F (zoom get put m) Q.
Proof.
  intros Hget Hput Hm t Ht. destruct (Hm (get t) (Hget t Ht)) as (r & s & E & Hs & Hr).
  exists r, (put s t). unfold zoom. rewrite E. auto.
Qed.

(** ** Facts on queries *)

Section Facts.
Context `{ExprOptions} `{DivByZero} `{Universe}.

Lemma heap_shape_domain p : adomain (heap p) <= 32.
Proof. pose proof (heap_shape p). lia. Qed.

Lemma good_denotes e : good e -> denotes in_domain (getWidth e) (fun rho => eval rho e) e.
Proof. intros []. by apply denotes_self. Qed.

(** What a constructor creates from expressions over the heap is good. *)
Lemma creates_good w V o :
  creates in_domain w V o -> returns (built heap) o ->
  exists e, o = Ret e /\ good e /\ getWidth e = w /\
    forall rho, in_domain rho -> eval rho e = V rho.
Proof. intros (e & -> & []) Hc. exists e. split_and!; auto. split; auto. Qed.

Lemma good_constant v w :
  0 < w < 2 ^ 32 -> 0 <= v < 2 ^ w -> good (Constant (mkConst v w)).
Proof. intros. by split. Qed.

Lemma eval_bool rho e : good e -> getWidth e = 1 -> eval rho e = 0 \/ eval rho e = 1.
Proof.
  intros [Hwf _ _] Hw. pose proof (proj1 (eval_range rho) e Hwf) as Hr. rewrite Hw in Hr. lia.
Qed.

Lemma IsZero_good e :
  good e -> exists e', Expr__createIsZero e = Ret e' /\ good e' /\ getWidth e' = 1 /\
    forall rho, in_domain rho -> eval rho e' = Z.b2z (eval rho e =? 0).
Proof.
  intros He. apply (creates_good 1 (fun rho => Z.b2z (eval rho e =? 0))).
  - by eapply Expr__createIsZero_creates, good_denotes.
  - apply Expr__createIsZero_closed, He.
Qed.

(** Tameness node by node. *)
Definition tame_node (rho : assignment) (x : Expr) : Prop :=
  match x with
  | NotOptimized s => isConstant s = false
  | Read a _ i => eval rho i < asize a
  | Binary k _ r => Kind.is_div k = true -> eval rho r <> 0
  | _ => True
  end.

Lemma tame_upd_elem rho u : tame_upd rho u <-> forall k, k ∈ upd_exprs u -> tame rho k.
Proof.
  induction u as [|i v n IH] using UpdateNode_chain_ind; simpl; [set_solver|].
  rewrite IH. setoid_rewrite elem_of_cons. setoid_rewrite elem_of_cons. naive_solver.
Qed.

Lemma tame_below rho e : tame rho e <-> tame_node rho e /\ forall k, k ∈ below_node e -> tame rho k.
Proof.
  destruct e; simpl; rewrite ?tame_upd_elem; repeat setoid_rewrite elem_of_cons;
    repeat setoid_rewrite elem_of_nil; naive_solver.
Qed.

Lemma tame_nodes rho e : tame rho e <-> forall x, x ∈ nodes e -> tame_node rho x.
Proof.
  induction e as [e IH] using below_node_ind. rewrite tame_below. setoid_rewrite nodes_elem.
  split.
  - intros [He Hk] x [->|(k & Hin & Hx)]; [done|]. apply (IH k Hin); auto.
  - intros Hall. split; [by apply Hall; left|]. intros k Hin. apply (IH k Hin). intros x Hx.
    apply Hall. right. eauto.
Qed.

Lemma evaluable_nodes asg e :
  built heap e ->
  (forall x, x ∈ nodes e -> tame_node (env asg) x /\
    match x with Read a _ i => determined asg a (eval (env asg) i) | _ => True end) ->
  evaluable asg e.
Proof.
  assert (Hupd : forall u, (forall k, k ∈ upd_exprs u -> evaluable asg k) -> evaluable_upd asg u).
  { induction u as [|i v n IH] using UpdateNode_chain_ind; simpl; [done|]. intros Hk.
    split; [apply Hk; left|]. split; [apply Hk; right; left|]. apply IH. intros k Hin. apply Hk. by do 2 right. }
  induction e as [e IH] using below_node_ind. intros Hb Hall.
  destruct (Hall e (nodes_self e)) as [Ht Hd].
  assert (Hk : forall k, k ∈ below_node e -> evaluable asg k).
  { intros k Hin. apply IH; [done|by eapply built_below|]. intros x Hx. apply Hall, nodes_elem. eauto. }
  clear IH Hall. destruct e; simpl in *; split_and?; auto; try (apply Hk; set_solver).
  - destruct Hb as [Hh _]. rewrite <- Hh. apply heap_shape_domain.
  - apply Hupd. intros k Hin. apply Hk. by right.
Qed.

(** Under a tame assignment whose positions are determined the visitor reaches
    a constant. *)
Lemma tame_evaluable asg e :
  wf e -> built heap e -> tame (env asg) e ->
  (forall a u i j, Read a u i ∈ nodes e -> 0 <= j < asize a -> determined asg a j) ->
  evaluable asg e.
Proof.
  intros Hwf Hb Ht Hdet. apply evaluable_nodes; [done|]. rewrite tame_nodes in Ht.
  intros x Hx. split; [by apply Ht|]. pose proof (Ht x Hx) as Hn.
  destruct x; try done. eapply Hdet; [exact Hx|]. split; [|done].
  apply (wf_nodes e Hwf) in Hx as (_ & _ & Hi & _). by apply eval_range.
Qed.

Lemma models_constraints rho q q' :
  constraints q' = constraints q -> models rho q -> models rho q'.
Proof. unfold models. by intros ->. Qed.

Lemma feasible_constraints q q' : constraints q' = constraints q -> feasible q -> feasible q'.
Proof. intros Hc [rho Hm]. exists rho. by eapply models_constraints. Qed.

(** Two queries with the same constraints and opposite expressions. *)
Record opposite (q q' : Query) : Prop := {
  opp_query : bool_query q';
  opp_constraints : constraints q' = constraints q;
  opp_eval : forall rho, in_domain rho -> eval rho (expr q') = Z.b2z (eval rho (expr q) =? 0)
}.

Lemma negateExpr_opposite q :
  bool_query q -> exists q', negateExpr q = Ret q' /\ opposite q q'.
Proof.
  intros [[Hcs He] Hw]. destruct (IsZero_good _ He) as (e' & E & Hg & Hw' & Hv).
  exists (withExpr q e'). unfold negateExpr. rewrite E. split; [done|].
  split; simpl; auto. split; [|done]. by split.
Qed.

Lemma opposite_valid q q' : bool_query q -> opposite q q' -> valid q' <-> contradicted q.
Proof.
  intros [[Hcs He] Hw] [_ Hc Hv]. unfold valid, contradicted. split; intros Hq rho Hm.
  - specialize (Hq rho (models_constraints rho q q' Hc Hm)).
    rewrite Hv in Hq by apply Hm. by destruct (Z.eqb_spec (eval rho (expr q)) 0).
  - pose proof (models_constraints rho q' q (eq_sym Hc) Hm) as Hm'.
    rewrite Hv by apply Hm. by rewrite Hq.
Qed.

Lemma opposite_contradicted q q' : bool_query q -> opposite q q' -> contradicted q' <-> valid q.
Proof.
  intros [[Hcs He] Hw] [_ Hc Hv]. unfold valid, contradicted. split; intros Hq rho Hm.
  - specialize (Hq rho (models_constraints rho q q' Hc Hm)).
    rewrite Hv in Hq by apply Hm. by destruct (eval_bool rho _ He Hw) as [E|E]; rewrite E in *.
  - pose proof (models_constraints rho q' q (eq_sym Hc) Hm) as Hm'.
    rewrite Hv by apply Hm. by rewrite Hq.
Qed.

Lemma opposite_feasible q q' : opposite q q' -> feasible q -> feasible q'.
Proof. intros [_ Hc _]. by apply feasible_constraints. Qed.

(** Under feasible constraints a formula is not both. *)
Lemma valid_not_contradicted q : feasible q -> valid q -> ~ contradicted q.
Proof. intros [rho Hm] Hv Hc. specialize (Hv rho Hm). specialize (Hc rho Hm). lia. Qed.

Lemma bool_query_withExpr q e :
  good_query q -> good e -> getWidth e = 1 -> bool_query (withExpr q e).
Proof. by intros [Hcs _] He Hw. Qed.

(** A constant expression is decided by its value. *)
Lemma constant_valid q c :
  expr q = Constant c -> bool_query q -> feasible q ->
  if isTrue c then valid q else contradicted q.
Proof.
  intros E [[_ [Hwf _ _]] Hw] _. rewrite E in *. simpl in Hw.
  pose proof (isTrue_value c Hw Hwf) as Hv.
  destruct (isTrue c); intros rho Hm; rewrite E; done.
Qed.

End Facts.

(** ** The front end keeps the contract *)

Section FrontEndSpec.
Context `{ExprOptions} `{DivByZero} `{Universe} {S : Type} `{!Solver S} `{!SolverSpec S}.

Abbreviation meets := (sat (S:=S) solver_inv solver_fails).

(** The default [computeValidity] is as good as [computeTruth]. *)
Lemma SolverImpl__computeValidity_ok (I : S -> Prop) F truth q :
  (forall q, bool_query q -> feasible q -> sat I F (truth q) (truth_ok q)) ->
  bool_query q -> feasible q ->
  sat I F (SolverImpl__computeValidity truth q) (validity_ok q).
Proof.
  intros Ht Hq Hf. eapply sat_bind; [by apply Ht|]. intros [] Hb; simpl.
  - apply sat_ret. by apply Hb.
  - destruct (negateExpr_opposite q Hq) as (q' & E & Ho).
    eapply sat_bind; [apply sat_lift; exists q'; split; [exact E|exact Ho]|]. intros q2 Hq2.
    eapply sat_bind; [apply Ht; [apply Hq2|by apply (opposite_feasible q)]|]. intros b Hb2.
    apply sat_ret. unfold truth_ok in *. rewrite (opposite_valid q q2 Hq Hq2) in Hb2.
    destruct b; simpl; [by apply Hb2|]. split; intros Hv; [by apply Hb in Hv|by apply Hb2 in Hv].
Qed.

Lemma Solver__evaluate_ok q :
  bool_query q -> computable q (expr q) -> feasible q -> meets (Solver__evaluate q) (validity_ok q).
Proof.
  intros Hq Hcomp Hf. eapply sat_bind; [apply sat_assert; apply Z.eqb_eq, Hq|]. intros _ _.
  destruct (expr q) eqn:E; try (apply computeValidity_ok; auto; by rewrite E).
  apply sat_ret. pose proof (constant_valid q c E Hq Hf). by destruct (isTrue c).
Qed.

Lemma Solver__mustBeTrue_ok q :
  bool_query q -> feasible q -> meets (Solver__mustBeTrue q) (truth_ok q).
Proof.
  intros Hq Hf. eapply sat_bind; [apply sat_assert; apply Z.eqb_eq, Hq|]. intros _ _.
  destruct (expr q) eqn:E; try (by apply computeTruth_ok).
  apply sat_ret. pose proof (constant_valid q c E Hq Hf) as Hv. unfold truth_ok.
  destruct (isTrue c); [done|]. split; [done|]. intros Hv'. by apply valid_not_contradicted in Hv'.
Qed.

Lemma Solver__mustBeFalse_ok q :
  bool_query q -> feasible q ->
  meets (Solver__mustBeFalse q) (fun b => b = true <-> contradicted q).
Proof.
  intros Hq Hf. destruct (negateExpr_opposite q Hq) as (q' & E & Ho).
  eapply sat_bind; [apply sat_lift; exists q'; split; [exact E|exact Ho]|]. intros q2 Hq2.
  eapply sat_conseq; [apply Solver__mustBeTrue_ok; [apply Hq2|by apply (opposite_feasible q)]|].
  intros b Hb. by rewrite <- (opposite_valid q q2).
Qed.

Lemma Solver__mayBeTrue_ok q :
  bool_query q -> feasible q ->
  meets (Solver__mayBeTrue q)
    (fun b => (b = true -> ~ contradicted q) /\ (b = false -> contradicted q)).
Proof.
  intros Hq Hf. eapply sat_bind; [by apply Solver__mustBeFalse_ok|]. intros b Hb.
  apply sat_ret. rewrite <- Hb. by destruct b.
Qed.

Lemma Solver__mayBeFalse_ok q :
  bool_query q -> feasible q ->
  meets (Solver__mayBeFalse q) (fun b => (b = true -> ~ valid q) /\ (b = false -> valid q)).
Proof.
  intros Hq Hf. eapply sat_bind; [by apply Solver__mustBeTrue_ok|]. intros b Hb.
  apply sat_ret. unfold truth_ok in Hb. rewrite <- Hb. by destruct b.
Qed.

Lemma Solver__getValue_ok q :
  good_query q -> computable q (expr q) -> feasible q ->
  meets (Solver__getValue q) (fun c => cwidth c = getWidth (expr q) /\ attains q (cvalue c)).
Proof.
  intros Hq Hcomp Hf. unfold Solver__getValue.
  assert (Hv : meets (tmp ← computeValue q;
    match tmp with Constant c => mret c | _ => lift (Stop AssertFail) end)
    (fun c => cwidth c = getWidth (expr q) /\ attains q (cvalue c))).
  { eapply sat_bind; [by apply computeValue_ok|]. intros r (v & -> & Ha). by apply sat_ret. }
  destruct (expr q) eqn:E; auto. apply sat_ret. split; [done|].
  destruct Hf as [rho Hm]. exists rho. split; [done|]. by rewrite E.
Qed.

Lemma Solver__getInitialValues_ok q objects :
  bool_query q -> not_true (expr q) -> Forall known objects -> initial_pre q objects ->
  sat solver_inv (solver_fails \/ valid q) (Solver__getInitialValues q objects)
    (fun values => initial_ok q objects (Some values)).
Proof.
  intros Hq Hn Ho Hpre. apply (sat_bind _ _ (initial_ok q objects)).
  - intros s Hs. destruct (computeInitialValues_ok q objects Hq Hn Ho Hpre s Hs) as (r & s' & E & Hs' & Hr).
    exists r, s'. split_and!; auto. destruct r; auto.
  - intros [values|] Hr; [by apply sat_ret|]. apply sat_fails. by right.
Qed.

End FrontEndSpec.
