(* ===== verification/SolverRange.v ===== *)
(** * The range of an expression

    [Solver::getRange] of [lib/Solver/Solver.cpp]: three binary searches over
    64-bit integers that ask the solver at every turn.  For a solver that
    keeps its contract and answers, the searches end and return the tightest
    range. *)

From S2P Require Import Prelude ExprData ExprCreate ExprSem ExprBool ExprArith ExprBits ExprSpec ExprOrder ExprHeap ExprEval Solver.

Section Search.
Context {S : Type} (I : S -> Prop) (F : Prop).

Lemma assertSuccess_ok {A} (m : SM S A) Q : ~ F -> sat I F m Q -> sat I F (assertSuccess m) Q.
Proof.
  intros HF Hm s Hs. destruct (Hm s Hs) as ([a|] & s' & E & Hs' & Hr); [|done].
  exists (Some a), s'. unfold assertSuccess. by rewrite E.
Qed.

(** The result of a search is the first position where the test does not say
    [N]: there it says [P], or it is the end of the interval. *)
Lemma search_ok (P N : Z -> Prop) (test : Z -> SM S bool) fuel : forall lo hi,
  ~ F -> 0 <= lo <= hi -> hi < 2 ^ 64 -> hi - lo < 2 ^ Z.of_nat fuel ->
  (forall m, lo <= m < hi -> sat I F (test m) (fun b => if b : bool then P m else N m)) ->
  (forall m m', m' <= m -> N m -> N m') -> P hi -> (forall m, m < lo -> N m) ->
  sat I F (search (Datatypes.S fuel) test lo hi)
    (fun r => lo <= r <= hi /\ P r /\ forall m, m < r -> N m).
Proof.
  induction fuel as [|n IH]; intros lo hi HF Hlo Hhi Hlen Ht Hdown HP HN; cbn [search].
  - rewrite (proj2 (Z.ltb_ge lo hi)) by (simpl in Hlen; lia). apply sat_ret.
    replace lo with hi in * by (simpl in Hlen; lia). split_and!; auto; lia.
  - rewrite Nat2Z.inj_succ, Z.pow_succ_r in Hlen by lia.
    destruct (Z.ltb_spec lo hi) as [Hlt|Hge].
    + assert (Hmid : 0 <= (hi - lo) / 2 < hi - lo).
      { split; [apply Z.div_pos; lia|]. apply Z.div_lt; lia. }
      pose proof (Z.div_mod (hi - lo) 2 ltac:(lia)) as Hdm.
      pose proof (Z.mod_pos_bound (hi - lo) 2 ltac:(lia)) as Hmb.
      assert (Hm64 : u64 (lo + (hi - lo) / 2) = lo + (hi - lo) / 2) by (apply wrapU_small; lia).
      assert (Hs64 : u64 (lo + (hi - lo) / 2 + 1) = lo + (hi - lo) / 2 + 1) by (apply wrapU_small; lia).
      rewrite Hm64, Hs64.
      eapply sat_bind; [apply assertSuccess_ok; [done|apply Ht; lia]|].
      intros [] Hb; simpl.
      * eapply sat_conseq; [apply (IH lo (lo + (hi - lo) / 2)); auto; try lia|].
        -- intros m Hm. apply Ht. lia.
        -- intros r (? & ? & ?). split_and!; auto; lia.
      * eapply sat_conseq; [apply (IH (lo + (hi - lo) / 2 + 1) hi); auto; try lia|].
        -- intros m Hm. apply Ht. lia.
        -- intros m Hm. eapply Hdown; [|exact Hb]. lia.
        -- intros r (? & ? & ?). split_and!; auto; lia.
    + apply sat_ret. replace lo with hi in * by lia. split_and!; auto; lia.
Qed.

End Search.

Section Range.
Context `{ExprOptions} `{DivByZero} `{Universe} {S : Type} `{!Solver S} `{!SolverSpec S}.
Variable q : Query.
Hypothesis Hq : good_query q.
Hypothesis Hf : feasible q.
Hypothesis Hw : 2 <= getWidth (expr q) <= 64.
Hypothesis Hans : ~ solver_fails.

Local Abbreviation w := (getWidth (expr q)).
Local Abbreviation value rho := (eval rho (expr q)).

Lemma value_range rho : 0 <= value rho < 2 ^ w.
Proof using Hq. apply eval_range, Hq. Qed.

Lemma constant_ok v :
  0 <= v < 2 ^ w -> constant v w = Ret (Constant (mkConst v w)).
Proof using Type.
  intros Hv. unfold constant, ConstantExpr__create, ConstantExpr__alloc.
  rewrite Z.mod_small by done. by rewrite Z.eqb_refl, andb_false_r.
Qed.

(** The comparison of the expression with a constant. *)
Lemma compare_good k v :
  0 <= v < 2 ^ w -> Kind.is_div k = false ->
  exists e, Binary__create k (expr q) (Constant (mkConst v w)) = Ret e /\ good e /\
    getWidth e = (if Kind.is_cmp k then 1 else w) /\
    forall rho, in_domain rho -> eval rho e = bv_op k w (value rho) v.
Proof using Hq Hw.
  intros Hv Hk.
  assert (Hc : good (Constant (mkConst v w))) by (apply good_constant; lia).
  apply creates_good.
  - eapply (Binary__create_creates in_domain w (fun rho => value rho) (fun _ => v)).
    + apply good_denotes, Hq.
    + apply (denotes_const _ (mkConst v w)); [apply Hc|done].
    + intros Hd. congruence.
  - apply Binary__create_closed; [done|apply Hq|done].
Qed.

(** A question about the expression, answered through [mustBeTrue] and
    [mayBeTrue]. *)
Lemma ask_ok (o : outcome Expr) (ask : Query -> SM S bool) (V : Z -> bool) (P N : Prop) :
  (exists e, o = Ret e /\ good e /\ getWidth e = 1 /\
    forall rho, in_domain rho -> eval rho e = Z.b2z (V (value rho))) ->
  (forall q', bool_query q' -> feasible q' -> constraints q' = constraints q ->
    (forall rho, in_domain rho -> eval rho (expr q') = Z.b2z (V (value rho))) ->
    sat solver_inv solver_fails (ask q') (fun b => if b : bool then P else N)) ->
  sat solver_inv solver_fails (e ← lift o; ask (withExpr q e)) (fun b => if b : bool then P else N).
Proof using Hf Hq.
  intros (e & -> & Hg & Hb & Hv) Hask.
  eapply (sat_bind _ _ (fun e' => e' = e)); [apply sat_lift; by exists e|]. intros ? ->.
  apply Hask; [by apply bool_query_withExpr| |done|done].
  by apply (feasible_constraints q).
Qed.

Lemma must_ask q' (V : Z -> bool) :
  bool_query q' -> feasible q' -> constraints q' = constraints q ->
  (forall rho, in_domain rho -> eval rho (expr q') = Z.b2z (V (value rho))) ->
  sat solver_inv solver_fails (Solver__mustBeTrue q') (fun b =>
    if b : bool then forall rho, models rho q -> V (value rho) = true
    else ~ forall rho, models rho q -> V (value rho) = true).
Proof using Type.
  intros Hb Hfq Hc Hv. eapply sat_conseq; [by apply Solver__mustBeTrue_ok|].
  intros b Hval. unfold truth_ok in Hval.
  assert (Hiff : valid q' <-> forall rho, models rho q -> V (value rho) = true).
  { split; intros Hall rho Hm.
    - specialize (Hall rho (models_constraints rho q q' Hc Hm)). rewrite Hv in Hall by apply Hm.
      by destruct (V (value rho)).
    - rewrite Hv by apply Hm. rewrite Hall; [done|]. by apply (models_constraints rho q' q). }
  rewrite Hiff in Hval. destruct b; [by apply Hval|]. intros Hall. by apply Hval in Hall.
Qed.

Lemma may_ask q' (V : Z -> bool) :
  bool_query q' -> feasible q' -> constraints q' = constraints q ->
  (forall rho, in_domain rho -> eval rho (expr q') = Z.b2z (V (value rho))) ->
  sat solver_inv solver_fails (Solver__mayBeTrue q') (fun b =>
    if b : bool then ~ forall rho, models rho q -> V (value rho) = false
    else forall rho, models rho q -> V (value rho) = false).
Proof using Type.
  intros Hb Hfq Hc Hv. eapply sat_conseq; [by apply Solver__mayBeTrue_ok|].
  intros b [Hval1 Hval2].
  assert (Hiff : contradicted q' <-> forall rho, models rho q -> V (value rho) = false).
  { split; intros Hall rho Hm.
    - specialize (Hall rho (models_constraints rho q q' Hc Hm)). rewrite Hv in Hall by apply Hm.
      by destruct (V (value rho)).
    - rewrite Hv by apply Hm. rewrite Hall; [done|]. by apply (models_constraints rho q' q). }
  destruct b; rewrite <- Hiff; auto.
Qed.

Lemma width_fits m : 0 <= m <= 64 -> m < w -> 0 <= m < 2 ^ w.
Proof using Hw. intros. pose proof (Z.pow_gt_lin_r 2 w). lia. Qed.

(** The value fits in [m] bits. *)
Lemma useful_bits_ok m :
  0 <= m < w ->
  sat solver_inv solver_fails (useful_bits_test q m) (fun b =>
    if b : bool then forall rho, models rho q -> value rho < 2 ^ m
    else ~ forall rho, models rho q -> value rho < 2 ^ m).
Proof using Hf Hq Hw.
  intros Hm. unfold useful_bits_test.
  pose proof (width_fits m ltac:(lia) ltac:(lia)) as Hmw.
  assert (Hiff : forall rho, value rho < 2 ^ m <-> (Z.shiftr (value rho) m =? 0) = true).
  { intros rho. pose proof (value_range rho). rewrite Z.eqb_eq, Z.shiftr_div_pow2 by lia.
    pose proof (pow2_pos m ltac:(lia)). split; intros Hv; [apply Z.div_small; lia|].
    apply Z.div_small_iff in Hv; lia. }
  assert (Hgoal : sat solver_inv solver_fails (useful_bits_test q m) (fun b =>
    if b : bool then forall rho, models rho q -> (Z.shiftr (value rho) m =? 0) = true
    else ~ forall rho, models rho q -> (Z.shiftr (value rho) m =? 0) = true)).
  { unfold useful_bits_test. apply (ask_ok _ _ (fun v => Z.shiftr v m =? 0)).
    - rewrite (constant_ok m Hmw). cbn [mbind outcome_bind].
      destruct (compare_good Kind.LShr m Hmw eq_refl) as (s & -> & Hs & Hsw & Hsv).
      cbn [mbind outcome_bind]. change (Kind.is_cmp Kind.LShr) with false in Hsw. simpl in Hsw.
      pose proof (pow2_pos w ltac:(lia)).
      rewrite constant_ok by lia. cbn [mbind outcome_bind].
      apply creates_good.
      + eapply creates_ext.
        * eapply (EqExpr__create_creates in_domain w (fun rho => eval rho s) (fun _ => 0)).
          -- rewrite <- Hsw. by apply good_denotes.
          -- by apply (denotes_const _ (mkConst 0 w)); [apply good_constant; lia|].
        * intros rho HD. cbn beta. rewrite (Hsv rho HD). cbn [bv_op]. by rewrite (proj2 (Z.leb_gt w m)) by lia.
      + by apply EqExpr__create_closed; [apply Hs|].
    - intros. by apply (must_ask q' (fun v => Z.shiftr v m =? 0)). }
  eapply sat_conseq; [exact Hgoal|]. intros [] Hb.
  - intros rho Hm'. apply Hiff; auto.
  - intros Hall. apply Hb. intros rho Hm'. apply Hiff; auto.
Qed.

Lemma ule_good m :
  0 <= m < 2 ^ w ->
  exists e, (c ← constant m w; Binary__create Kind.Ule (expr q) c) = Ret e /\ good e /\
    getWidth e = 1 /\ forall rho, in_domain rho -> eval rho e = Z.b2z (value rho <=? m).
Proof using Hq Hw.
  intros Hm. rewrite constant_ok by done. cbn [mbind outcome_bind].
  by apply (compare_good Kind.Ule m).
Qed.

Lemma min_test_ok m :
  0 <= m < 2 ^ w ->
  sat solver_inv solver_fails (min_test q m) (fun b =>
    if b : bool then ~ forall rho, models rho q -> m < value rho
    else forall rho, models rho q -> m < value rho).
Proof using Hf Hq Hw.
  intros Hm. eapply sat_conseq.
  - unfold min_test. apply (ask_ok _ _ (fun v => v <=? m)); [by apply ule_good|].
    intros. by apply (may_ask q' (fun v => v <=? m)).
  - assert (Hiff : (forall rho, models rho q -> m < value rho) <->
      forall rho, models rho q -> (value rho <=? m) = false).
    { split; intros Hall rho Hr; [apply Z.leb_gt|apply Z.leb_gt]; auto. }
    intros [] Hb; by rewrite Hiff.
Qed.

Lemma max_test_ok m :
  0 <= m < 2 ^ w ->
  sat solver_inv solver_fails (max_test q m) (fun b =>
    if b : bool then forall rho, models rho q -> value rho <= m
    else ~ forall rho, models rho q -> value rho <= m).
Proof using Hf Hq Hw.
  intros Hm. eapply sat_conseq.
  - unfold max_test. apply (ask_ok _ _ (fun v => v <=? m)); [by apply ule_good|].
    intros. by apply (must_ask q' (fun v => v <=? m)).
  - assert (Hiff : (forall rho, models rho q -> value rho <= m) <->
      forall rho, models rho q -> (value rho <=? m) = true).
    { split; intros Hall rho Hr; [apply Z.leb_le|apply Z.leb_le]; auto. }
    intros [] Hb; by rewrite Hiff.
Qed.

Lemma zero_test_ok :
  sat solver_inv solver_fails (zero_test q) (fun b =>
    if b : bool then ~ forall rho, models rho q -> 0 < value rho
    else forall rho, models rho q -> 0 < value rho).
Proof using Hf Hq Hw.
  pose proof (pow2_pos w ltac:(lia)) as Hp. eapply sat_conseq.
  - unfold zero_test. apply (ask_ok _ _ (fun v => v =? 0)).
    + rewrite constant_ok by lia. cbn [mbind outcome_bind].
      by apply (compare_good Kind.Eq 0 ltac:(lia)).
    + intros. by apply (may_ask q' (fun v => v =? 0)).
  - assert (Hiff : (forall rho, models rho q -> 0 < value rho) <->
      forall rho, models rho q -> (value rho =? 0) = false).
    { split; intros Hall rho Hr; pose proof (value_range rho); specialize (Hall rho Hr); [|];
        rewrite ?Z.eqb_neq in *; lia. }
    intros [] Hb; by rewrite Hiff.
Qed.

Lemma maxValueOfNBits_ok n : 0 <= n <= 64 -> bits64__maxValueOfNBits n = Ret (2 ^ n - 1).
Proof using Type.
  intros Hn. unfold bits64__maxValueOfNBits. rewrite (proj2 (Z.leb_le _ _)) by lia.
  cbn [assertM mbind outcome_bind]. destruct (Z.eqb_spec n 0) as [->|Hne]; [done|].
  f_equal. rewrite Z.shiftr_div_pow2 by lia.
  replace 64 with (n + (64 - n)) at 1 by lia. rewrite Z.pow_add_r by lia.
  pose proof (pow2_pos (64 - n) ltac:(lia)). pose proof (pow2_pos n ltac:(lia)).
  replace (2 ^ n * 2 ^ (64 - n) - 1) with ((2 ^ n - 1) * 2 ^ (64 - n) + (2 ^ (64 - n) - 1)) by nia.
  rewrite Z.div_add_l by lia. rewrite Z.div_small; lia.
Qed.

(** The search for the number of useful bits. *)
Lemma bits_search_ok :
  sat solver_inv solver_fails (search search_fuel (useful_bits_test q) 0 w)
    (fun bits => 0 <= bits <= w /\ forall rho, models rho q -> value rho < 2 ^ bits).
Proof using Hans Hf Hq Hw.
  eapply sat_conseq; [apply (search_ok _ _ (fun m => forall rho, models rho q -> value rho < 2 ^ m)
    (fun _ => True) _ 65); auto; try lia|].
  - intros m Hm. eapply sat_conseq; [by apply useful_bits_ok|]. by intros [].
  - intros rho _. apply value_range.
  - intros bits (? & ? & _). auto.
Qed.

(** The search for the least value below a bound that some value attains. *)
Lemma min_search_ok top :
  0 <= top < 2 ^ w -> (forall rho, models rho q -> value rho <= top) ->
  sat solver_inv solver_fails (search search_fuel (min_test q) 0 top) (fun min =>
    0 <= min <= top /\ (forall rho, models rho q -> min <= value rho) /\
    ~ forall rho, models rho q -> min < value rho).
Proof using Hans Hf Hq Hw.
  intros Htop Hle. pose proof (Z.pow_le_mono_r 2 w 64 ltac:(lia) ltac:(lia)) as H64.
  eapply sat_conseq; [apply (search_ok _ _ (fun m => ~ forall rho, models rho q -> m < value rho)
    (fun m => forall rho, models rho q -> m < value rho) _ 65); auto; try lia|].
  - intros m Hm. apply min_test_ok. lia.
  - intros m m' Hmm HN rho Hr. specialize (HN rho Hr). lia.
  - intros Hall. destruct Hf as [rho Hr]. specialize (Hall rho Hr). specialize (Hle rho Hr). lia.
  - intros m Hm rho Hr. pose proof (value_range rho). lia.
  - intros min (Hmin & HP & HN). split_and!; auto; try lia.
    intros rho Hr. specialize (HN (min - 1) ltac:(lia) rho Hr). lia.
Qed.

Lemma max_search_ok min top :
  0 <= min <= top -> top < 2 ^ w -> (forall rho, models rho q -> min <= value rho <= top) ->
  sat solver_inv solver_fails (search search_fuel (max_test q) min top) (fun max =>
    min <= max <= top /\ (forall rho, models rho q -> value rho <= max) /\
    forall m, m < max -> ~ forall rho, models rho q -> value rho <= m).
Proof using Hans Hf Hq Hw.
  intros Hmin Htop Hle. pose proof (Z.pow_le_mono_r 2 w 64 ltac:(lia) ltac:(lia)) as H64.
  apply (search_ok _ _ (fun m => forall rho, models rho q -> value rho <= m)
    (fun m => ~ forall rho, models rho q -> value rho <= m) _ 65); auto; try lia.
  - intros m Hm. apply max_test_ok. lia.
  - intros m m' Hmm HN Hall. apply HN. intros rho Hr. specialize (Hall rho Hr). lia.
  - intros rho Hr. apply Hle. done.
  - intros m Hm Hall. destruct Hf as [rho Hr]. specialize (Hall rho Hr). specialize (Hle rho Hr). lia.
Qed.

End Range.

(** The tightest range: it holds every value, and both ends are attained
    ([mayBeTrue(min == e)] and [mayBeTrue(max == e)]). *)
Definition tight_range `{DivByZero} `{Universe} (q : Query) (min max : Z) : Prop :=
  (forall rho, models rho q -> min <= eval rho (expr q) <= max) /\
  (~ forall rho, models rho q -> eval rho (expr q) <> min) /\
  (~ forall rho, models rho q -> eval rho (expr q) <> max).

Section GetRange.
Context `{ExprOptions} `{DivByZero} `{Universe} {S : Type} `{!Solver S} `{!SolverSpec S}.

Definition range_result (q : Query) (r : Expr * Expr) : Prop :=
  exists min max, 0 <= min < 2 ^ getWidth (expr q) /\ 0 <= max < 2 ^ getWidth (expr q) /\
    tight_range q min max /\
    r = (Constant (mkConst min (getWidth (expr q))), Constant (mkConst max (getWidth (expr q)))).

Lemma tight_range_point q v :
  feasible q -> (forall rho, models rho q -> eval rho (expr q) = v) -> tight_range q v v.
Proof.
  intros [rho Hr] Hv. split_and!.
  - intros rho' Hr'. rewrite Hv by done. lia.
  - intros Hall. by apply (Hall rho Hr), Hv.
  - intros Hall. by apply (Hall rho Hr), Hv.
Qed.

(** The numbers [getRange] finds for a boolean. *)
Lemma range_bool q :
  bool_query q -> computable q (expr q) -> feasible q -> ~ solver_fails ->
  sat solver_inv solver_fails
    (result ← assertSuccess (Solver__evaluate q);
     mret (match result with
           | Validity.True => (1, 1) | Validity.False => (0, 0) | Validity.Unknown => (0, 1)
           end))
    (fun r => 0 <= r.1 < 2 /\ 0 <= r.2 < 2 /\ tight_range q r.1 r.2).
Proof.
  intros Hq Hc Hf Hans. eapply sat_bind; [apply assertSuccess_ok; [done|by apply Solver__evaluate_ok]|].
  intros v Hv. apply sat_ret. destruct v; simpl in *; split_and!; try lia.
  - by apply tight_range_point.
  - by apply tight_range_point.
  - assert (Hb : forall rho, eval rho (expr q) = 0 \/ eval rho (expr q) = 1).
    { intros rho. apply eval_bool; apply Hq. }
    destruct Hv as [Hnv Hnc]. split_and!.
    + intros rho Hr. specialize (Hb rho). lia.
    + intros Hall. apply Hnv. intros rho Hr. specialize (Hall rho Hr). specialize (Hb rho). lia.
    + intros Hall. apply Hnc. intros rho Hr. specialize (Hall rho Hr). specialize (Hb rho). lia.
Qed.

(** The numbers found by the three searches. *)
Lemma range_search q :
  good_query q -> feasible q -> 2 <= getWidth (expr q) <= 64 -> ~ solver_fails ->
  sat solver_inv solver_fails
    (bits ← search search_fuel (useful_bits_test q) 0 (getWidth (expr q));
     res ← assertSuccess (zero_test q);
     top ← lift (bits64__maxValueOfNBits bits);
     min ← (if res : bool then mret 0 else search search_fuel (min_test q) 0 top);
     max ← search search_fuel (max_test q) min top;
     mret (min, max))
    (fun r => 0 <= r.1 < 2 ^ getWidth (expr q) /\ 0 <= r.2 < 2 ^ getWidth (expr q) /\
      tight_range q r.1 r.2).
Proof.
  intros Hq Hf Hw Hans.
  eapply sat_bind; [by apply bits_search_ok|]. intros bits [Hbits Hlt].
  pose proof (Z.pow_le_mono_r 2 bits (getWidth (expr q)) ltac:(lia) ltac:(lia)) as Hpow.
  pose proof (pow2_pos bits ltac:(lia)) as Hpos.
  eapply sat_bind; [apply assertSuccess_ok; [done|by apply zero_test_ok]|]. intros res Hres.
  eapply (sat_bind _ _ (fun top => top = 2 ^ bits - 1)).
  { apply sat_lift. eexists. by rewrite maxValueOfNBits_ok by lia. }
  intros top ->.
  assert (Htop : forall rho, models rho q -> eval rho (expr q) <= 2 ^ bits - 1).
  { intros rho Hr. specialize (Hlt rho Hr). lia. }
  eapply (sat_bind _ _ (fun min => 0 <= min <= 2 ^ bits - 1 /\
    (forall rho, models rho q -> min <= eval rho (expr q)) /\
    ~ forall rho, models rho q -> min < eval rho (expr q))).
  { destruct res; [|apply min_search_ok; auto; lia].
    apply sat_ret. split_and!; auto; try lia.
    intros rho _. apply (value_range q Hq). }
  intros min (Hmin & Hge & Hatt).
  eapply sat_bind; [apply max_search_ok; auto; try lia; intros; split; auto|].
  intros max (Hmax & Hle & Hleast). apply sat_ret. simpl. split_and!; try lia.
  split_and!.
  - intros rho Hr. split; auto.
  - intros Hall. apply Hatt. intros rho Hr. specialize (Hall rho Hr). specialize (Hge rho Hr). lia.
  - intros Hall. apply (Hleast (max - 1) ltac:(lia)). intros rho Hr.
    specialize (Hall rho Hr). specialize (Hle rho Hr). lia.
Qed.

Lemma sat_match_constant {A} (I : S -> Prop) F (e : Expr) (m : ConstantExpr -> SM S A) m' Q :
  (forall c, e = Constant c -> sat I F (m c) Q) -> sat I F m' Q ->
  sat I F (match e with Constant c => m c | _ => m' end) Q.
Proof. intros Hm Hm'. destruct e; auto. Qed.

Lemma Solver__getRange_ok q :
  good_query q -> computable q (expr q) -> feasible q -> getWidth (expr q) <= 64 ->
  ~ solver_fails ->
  sat solver_inv solver_fails (Solver__getRange q) (range_result q).
Proof.
  intros Hq Hc Hf Hw Hans. pose proof (wf_getWidth _ (good_wf _ (proj2 Hq))) as Hpos.
  unfold wf_width in Hpos. unfold Solver__getRange.
  eapply (sat_bind _ _ (fun r => 0 <= r.1 < 2 ^ getWidth (expr q) /\
    0 <= r.2 < 2 ^ getWidth (expr q) /\ tight_range q r.1 r.2)).
  - destruct (Z.eqb_spec (getWidth (expr q)) 1) as [E|Hne].
    + rewrite E. apply range_bool; auto. by split.
    + apply sat_match_constant; [|apply range_search; auto; lia].
      intros c Ee. unfold getZExtValue. rewrite Ee in Hw.
      eapply (sat_bind _ _ (fun v => v = cvalue c)).
      { apply sat_lift. exists (cvalue c). by rewrite (proj2 (Z.leb_le _ _)). }
      intros v ->. apply sat_ret. destruct Hq as [_ [Hwf _ _]]. rewrite Ee in *.
      destruct Hwf as [_ Hr]. simpl. split_and!; try apply Hr.
      apply tight_range_point; [done|]. intros. by rewrite Ee.
  - intros [min max] (Hmin & Hmax & Ht). simpl in *.
    eapply (sat_bind _ _ (fun e => e = Constant (mkConst min (getWidth (expr q))))).
    { apply sat_lift. eexists. split; [by apply constant_ok|done]. }
    intros ? ->.
    eapply (sat_bind _ _ (fun e => e = Constant (mkConst max (getWidth (expr q))))).
    { apply sat_lift. eexists. split; [by apply constant_ok|done]. }
    intros ? ->. apply sat_ret. by exists min, max.
Qed.

End GetRange.

(** C18: [getRange] finds the exact bounds of an expression of at most 64 bits
    under the path condition: every value lies between them and both are
    attained, the binary searches end within their bound of 66 turns and
    never overflow, for every solver that keeps its contract and answers. *)
Theorem getRange_tight `{ExprOptions} `{DivByZero} `{Universe} {S} `{!Solver S} `{!SolverSpec S} q s :
  good_query q -> computable q (expr q) -> feasible q -> getWidth (expr q) <= 64 ->
  ~ solver_fails -> solver_inv s ->
  exists r s', Solver__getRange q s = Ret (Some r, s') /\ solver_inv s' /\ range_result q r.
Proof.
  intros Hq Hc Hf Hw Hans Hs.
  destruct (Solver__getRange_ok q Hq Hc Hf Hw Hans s Hs) as ([r|] & s' & E & Hs' & Hr); [|done].
  by exists r, s'.
Qed.
