(* ===== verification/SolverStaged.v ===== *)
(** * Incomplete and staged solvers

    [lib/Solver/IncompleteSolver.cpp]: a solver that may not know the answer,
    the partial validities it reports, and the solver that asks it first and
    falls back on a complete one.  [lib/Solver/DummySolver.cpp], which always
    fails, is the smallest implementation of the contract. *)

From S2P Require Import Prelude ExprData ExprCreate ExprSem ExprOrder ExprHeap ExprEval Solver.

(** ** Partial validities *)

Module PartialValidity.
Inductive t : Type :=
  | MustBeTrue | MustBeFalse | MayBeTrue | MayBeFalse | TrueOrFalse | None.
End PartialValidity.

#[global] Instance PartialValidity_eq_dec : EqDecision PartialValidity.t.
Proof. solve_decision. Defined.

(** The assertion against an invalid value is not reached from the values of
    the enumeration but for [None]. *)
Definition negatePartialValidity (pv : PartialValidity.t) : outcome PartialValidity.t :=
  match pv with
  | PartialValidity.None => Stop AssertFail
  | PartialValidity.MustBeTrue => Ret PartialValidity.MustBeFalse
  | PartialValidity.MustBeFalse => Ret PartialValidity.MustBeTrue
  | PartialValidity.MayBeTrue => Ret PartialValidity.MayBeFalse
  | PartialValidity.MayBeFalse => Ret PartialValidity.MayBeTrue
  | PartialValidity.TrueOrFalse => Ret PartialValidity.TrueOrFalse
  end.

(** ** Operations *)

Class IncompleteSolver (S : Type) : Type := {
  partialTruth : Query -> SM S PartialValidity.t;
  partialValidity : Query -> SM S PartialValidity.t;
  partialValue : Query -> SM S Expr;
  partialInitialValues : Query -> list Array -> SM S (option (list (list Z)))
}.

(** The default method of the base class. *)
Definition IncompleteSolver__computeValidity `{ExprOptions} {S}
    (truth : Query -> SM S PartialValidity.t) (q : Query) : SM S PartialValidity.t :=
  trueResult ← truth q;
  if bool_decide (trueResult = PartialValidity.MustBeTrue) then mret PartialValidity.MustBeTrue
  else
    q' ← lift (negateExpr q);
    falseResult ← truth q';
    mret (
      if bool_decide (falseResult = PartialValidity.MustBeTrue) then PartialValidity.MustBeFalse
      else
        let trueCorrect := bool_decide (trueResult <> PartialValidity.None) in
        let falseCorrect := bool_decide (falseResult <> PartialValidity.None) in
        if trueCorrect && falseCorrect then PartialValidity.TrueOrFalse
        else if trueCorrect then PartialValidity.MayBeFalse
        else if falseCorrect then PartialValidity.MayBeTrue
        else PartialValidity.None).

(** The methods of [StagedSolverImpl]; its state is that of the two solvers. *)
Section Staged.
Context `{ExprOptions} {P S : Type} `{IncompleteSolver P} `{Solver S}.

Definition primary {A} : SM P A -> SM (P * S) A := zoom fst (fun p t => (p, t.2)).
Definition secondary {A} : SM S A -> SM (P * S) A := zoom snd (fun s t => (t.1, s)).

Definition StagedSolverImpl__computeTruth (q : Query) : SM (P * S) bool :=
  trueResult ← primary (partialTruth q);
  if bool_decide (trueResult <> PartialValidity.None)
  then mret (bool_decide (trueResult = PartialValidity.MustBeTrue))
  else secondary (computeTruth q).

Definition StagedSolverImpl__computeValidity (q : Query) : SM (P * S) Validity.t :=
  pv ← primary (partialValidity q);
  match pv with
  | PartialValidity.MustBeTrue => mret Validity.True
  | PartialValidity.MustBeFalse => mret Validity.False
  | PartialValidity.TrueOrFalse => mret Validity.Unknown
  | PartialValidity.MayBeTrue =>
      tmp ← secondary (computeTruth q);
      mret (if tmp : bool then Validity.True else Validity.Unknown)
  | PartialValidity.MayBeFalse =>
      q' ← lift (negateExpr q);
      tmp ← secondary (computeTruth q');
      mret (if tmp : bool then Validity.False else Validity.Unknown)
  | PartialValidity.None => secondary (computeValidity q)
  end.

(** A call that hands over to the second solver when the first fails. *)
Definition orElse {A} (m : SM P A) (m' : SM S A) : SM (P * S) A := fun t =>
  match primary m t with
  | Ret (None, t') => secondary m' t'
  | r => r
  end.

Definition StagedSolverImpl__computeValue (q : Query) : SM (P * S) Expr :=
  orElse (partialValue q) (computeValue q).

Definition StagedSolverImpl__computeInitialValues (q : Query) (objects : list Array)
    : SM (P * S) (option (list (list Z))) :=
  orElse (partialInitialValues q objects) (computeInitialValues q objects).

#[export] Instance StagedSolverImpl : Solver (P * S) := {
  computeTruth := StagedSolverImpl__computeTruth;
  computeValidity := StagedSolverImpl__computeValidity;
  computeValue := StagedSolverImpl__computeValue;
  computeInitialValues := StagedSolverImpl__computeInitialValues
}.

End Staged.

(** [DummySolverImpl]: every method reports failure. *)
Definition DummySolverImpl : Type := unit.

#[export] Instance DummySolver : Solver DummySolverImpl := {
  computeTruth _ := fails;
  computeValidity _ := fails;
  computeValue _ := fails;
  computeInitialValues _ _ := fails
}.

(** ** Contracts *)

Section Spec.
Context `{ExprOptions} `{DivByZero} `{Universe}.

(** What a partial validity states. *)
Definition pv_ok (q : Query) (pv : PartialValidity.t) : Prop :=
  match pv with
  | PartialValidity.MustBeTrue => valid q
  | PartialValidity.MustBeFalse => contradicted q
  | PartialValidity.MayBeTrue => ~ contradicted q
  | PartialValidity.MayBeFalse => ~ valid q
  | PartialValidity.TrueOrFalse => ~ valid q /\ ~ contradicted q
  | PartialValidity.None => True
  end.

(** The answer to a truth query: proved, refuted or unknown. *)
Definition pv_truth_ok (q : Query) (pv : PartialValidity.t) : Prop :=
  match pv with
  | PartialValidity.MustBeTrue => valid q
  | PartialValidity.None => True
  | _ => ~ valid q
  end.

Class IncompleteSpec (P : Type) `{IncompleteSolver P} : Type := {
  partial_inv : P -> Prop;
  partialTruth_ok : forall q, bool_query q -> feasible q ->
    sat partial_inv False (partialTruth q) (pv_truth_ok q);
  partialValidity_ok : forall q, bool_query q -> feasible q ->
    sat partial_inv False (partialValidity q) (pv_ok q);
  partialValue_ok : forall q, good_query q -> feasible q ->
    sat partial_inv True (partialValue q) (value_ok q);
  partialInitialValues_ok : forall q objects, bool_query q -> not_true (expr q) ->
    Forall known objects ->
    sat partial_inv True (partialInitialValues q objects) (initial_ok q objects)
}.

(** Negation exchanges the two sides. *)
Lemma negatePartialValidity_ok q q' pv :
  bool_query q -> opposite q q' -> pv <> PartialValidity.None -> pv_ok q pv ->
  exists pv', negatePartialValidity pv = Ret pv' /\ pv' <> PartialValidity.None /\ pv_ok q' pv'.
Proof.
  intros Hq Ho Hne Hpv. pose proof (opposite_valid q q' Hq Ho) as Hv.
  pose proof (opposite_contradicted q q' Hq Ho) as Hc.
  destruct pv; simpl in *; try done; eexists; repeat split; simpl; done || tauto.
Qed.

(** The base class turns truths into a partial validity. *)
Lemma IncompleteSolver__computeValidity_ok {P} (I : P -> Prop) truth q :
  (forall q, bool_query q -> feasible q -> sat I False (truth q) (pv_truth_ok q)) ->
  bool_query q -> feasible q ->
  sat I False (IncompleteSolver__computeValidity truth q) (pv_ok q).
Proof.
  intros Ht Hq Hf. eapply sat_bind; [by apply Ht|]. intros pv Hpv.
  case_bool_decide as Hm; [subst; by apply sat_ret|].
  destruct (negateExpr_opposite q Hq) as (q' & E & Ho).
  eapply (sat_bind _ _ (fun x => x = q')); [apply sat_lift; by exists q'|]. intros ? ->.
  eapply sat_bind; [apply Ht; [apply Ho|by apply (opposite_feasible q)]|]. intros pv' Hpv'.
  apply sat_ret. pose proof (opposite_valid q q' Hq Ho) as Hv.
  destruct pv; try done; destruct pv'; simpl in *; try done; tauto.
Qed.

#[export, refine] Instance DummySolver_spec : SolverSpec DummySolverImpl := {
  solver_inv _ := True;
  solver_fails := True;
  initial_pre _ _ := True
}.
Proof. all: intros; by apply sat_fails. Defined.

Section StagedSpec.
Context {P S : Type} `{!IncompleteSolver P} `{!Solver S} `{!IncompleteSpec P} `{!SolverSpec S}.

Definition staged_inv (t : P * S) : Prop := partial_inv t.1 /\ solver_inv t.2.

Lemma primary_ok {A} (m : SM P A) F Q :
  sat partial_inv F m Q -> sat staged_inv F (primary m) Q.
Proof. apply sat_zoom; unfold staged_inv; simpl; tauto. Qed.

Lemma secondary_ok {A} (m : SM S A) F Q :
  sat solver_inv F m Q -> sat staged_inv F (secondary m) Q.
Proof. apply sat_zoom; unfold staged_inv; simpl; tauto. Qed.

(** A call that cannot fail may be followed by one that can. *)
Lemma sat_weaken {T A} (I : T -> Prop) (F F' : Prop) (m : SM T A) Q :
  (F -> F') -> sat I F m Q -> sat I F' m Q.
Proof.
  intros HF Hm s Hs. destruct (Hm s Hs) as (r & s' & E & Hs' & Hr). exists r, s'.
  split_and!; auto. destruct r; auto.
Qed.

Lemma orElse_ok {A} (m : SM P A) (m' : SM S A) Q :
  sat partial_inv True m Q -> sat solver_inv solver_fails m' Q ->
  sat staged_inv solver_fails (orElse m m') Q.
Proof.
  intros Hm Hm' t Ht. unfold orElse.
  destruct (primary_ok m True Q Hm t Ht) as ([a|] & t' & -> & Ht' & Hr); [by exists (Some a), t'|].
  by apply (secondary_ok m').
Qed.

#[export, refine] Instance StagedSolver_spec : SolverSpec (P * S) := {
  solver_inv := staged_inv;
  solver_fails := solver_fails (S:=S);
  initial_pre := initial_pre (S:=S)
}.
Proof.
  - intros q Hq Hf. eapply sat_bind.
    { eapply sat_weaken; [|by apply primary_ok, partialTruth_ok]. done. }
    intros pv Hpv. case_bool_decide as Hn.
    + apply sat_ret. unfold truth_ok. rewrite bool_decide_eq_true.
      destruct pv; simpl in *; try done; split; done.
    + by apply secondary_ok, computeTruth_ok.
  - intros q Hq Hcomp Hf. eapply sat_bind.
    { eapply sat_weaken; [|by apply primary_ok, partialValidity_ok]. done. }
    intros pv Hpv. destruct pv; simpl in Hpv; try (by apply sat_ret).
    + eapply sat_bind; [by apply secondary_ok, computeTruth_ok|]. intros b Hb. apply sat_ret.
      unfold truth_ok in Hb. destruct b; simpl; [by apply Hb|]. split; [|done].
      intros Hv. by apply Hb in Hv.
    + destruct (negateExpr_opposite q Hq) as (q' & E & Ho).
      eapply (sat_bind _ _ (fun x => x = q')); [apply sat_lift; by exists q'|]. intros ? ->.
      eapply sat_bind.
      { apply secondary_ok, computeTruth_ok; [apply Ho|by apply (opposite_feasible q)]. }
      intros b Hb. apply sat_ret. unfold truth_ok in Hb.
      rewrite (opposite_valid q q' Hq Ho) in Hb.
      destruct b; simpl; [by apply Hb|]. split; [done|]. intros Hv. by apply Hb in Hv.
    + by apply secondary_ok, computeValidity_ok.
  - intros q Hq Hcomp Hf. by apply orElse_ok; [apply partialValue_ok|apply computeValue_ok].
  - intros q objects Hq Hn Ho Hpre.
    by apply orElse_ok; [apply partialInitialValues_ok|apply computeInitialValues_ok].
Defined.

End StagedSpec.
End Spec.
