(* ===== verification/SolverCaching.v ===== *)
(** * The caching solver

    [lib/Solver/CachingSolver.cpp]: a table from queries to partial
    validities in front of another solver.  A query and its negation share an
    entry, under the smaller of the two expressions.  The statistics counters
    are left out. *)

From S2P Require Import Prelude ExprData ExprCreate ExprSem ExprOrder ExprHeap ExprEval Solver SolverStaged.

(** The hash of a constant's value, an LLVM function. *)
Class HashValue : Type := hash_value : ConstantExpr -> Z.

(** The table and the solver behind it.  The key is a [CacheEntry]: the
    constraints and the canonical expression. *)
Record CachingSolver (S : Type) : Type := mkCaching {
  cache : gmap (list Expr * Expr) PartialValidity.t;
  solver : S
}.
Arguments mkCaching {_} _ _.
Arguments cache {_} _.
Arguments solver {_} _.

Section Caching.
Context `{ExprOptions} `{HashValue} {S : Type} `{Solver S}.

Definition below {A} : SM S A -> SM (CachingSolver S) A :=
  zoom solver (fun s t => mkCaching (cache t) s).

(** The canonical expression and whether it is the negated one. *)
Definition canonicalizeQuery (originalQuery : Expr) : outcome (Expr * bool) :=
  negatedQuery ← Expr__createIsZero originalQuery;
  match compare hash_value originalQuery negatedQuery with
  | Lt => Ret (originalQuery, false)
  | _ => Ret (negatedQuery, true)
  end.

Definition cacheLookup (q : Query) : SM (CachingSolver S) (option PartialValidity.t) :=
  c ← lift (canonicalizeQuery (expr q));
  let '(canonicalQuery, negationUsed) := c in
  entry ← getS (fun t => cache t !! (constraints q, canonicalQuery));
  match entry with
  | Some pv =>
      result ← lift (if negationUsed : bool then negatePartialValidity pv else Ret pv);
      mret (Some result)
  | None => mret None
  end.

(** [unordered_map::insert] keeps an entry that is already there. *)
Definition cacheInsert (q : Query) (result : PartialValidity.t) : SM (CachingSolver S) unit :=
  c ← lift (canonicalizeQuery (expr q));
  let '(canonicalQuery, negationUsed) := c in
  cachedResult ← lift (if negationUsed : bool then negatePartialValidity result else Ret result);
  putS (fun t =>
    match cache t !! (constraints q, canonicalQuery) with
    | Some _ => t
    | None => mkCaching (<[(constraints q, canonicalQuery) := cachedResult]> (cache t)) (solver t)
    end).

Definition CachingSolver__computeValidity (q : Query) : SM (CachingSolver S) Validity.t :=
  cached ← cacheLookup q;
  match cached with
  | Some PartialValidity.MustBeTrue => mret Validity.True
  | Some PartialValidity.MustBeFalse => mret Validity.False
  | Some PartialValidity.TrueOrFalse => mret Validity.Unknown
  | Some PartialValidity.MayBeTrue =>
      tmp ← below (computeTruth q);
      if tmp : bool then
        _ ← cacheInsert q PartialValidity.MustBeTrue; mret Validity.True
      else
        _ ← cacheInsert q PartialValidity.TrueOrFalse; mret Validity.Unknown
  | Some PartialValidity.MayBeFalse =>
      q' ← lift (negateExpr q);
      tmp ← below (computeTruth q');
      if tmp : bool then
        _ ← cacheInsert q PartialValidity.MustBeFalse; mret Validity.False
      else
        _ ← cacheInsert q PartialValidity.TrueOrFalse; mret Validity.Unknown
  | Some PartialValidity.None => lift (Stop AssertFail)
  | None =>
      result ← below (computeValidity q);
      _ ← cacheInsert q (match result with
                         | Validity.True => PartialValidity.MustBeTrue
                         | Validity.False => PartialValidity.MustBeFalse
                         | Validity.Unknown => PartialValidity.TrueOrFalse
                         end);
      mret result
  end.

Definition CachingSolver__computeTruth (q : Query) : SM (CachingSolver S) bool :=
  cached ← cacheLookup q;
  let miss :=
    isValid ← below (computeTruth q);
    cachedResult ←
      lift (if isValid : bool then Ret PartialValidity.MustBeTrue
            else match cached with
                 | Some pv =>
                     _ ← assertM (bool_decide (pv = PartialValidity.MayBeTrue));
                     Ret PartialValidity.TrueOrFalse
                 | None => Ret PartialValidity.MayBeFalse
                 end);
    _ ← cacheInsert q cachedResult;
    mret isValid in
  match cached with
  | Some pv =>
      if bool_decide (pv <> PartialValidity.MayBeTrue)
      then mret (bool_decide (pv = PartialValidity.MustBeTrue))
      else miss
  | None => miss
  end.

Definition CachingSolver__computeValue (q : Query) : SM (CachingSolver S) Expr :=
  below (computeValue q).

Definition CachingSolver__computeInitialValues (q : Query) (objects : list Array)
    : SM (CachingSolver S) (option (list (list Z))) :=
  below (computeInitialValues q objects).

#[export] Instance CachingSolver_solver : Solver (CachingSolver S) := {
  computeTruth := CachingSolver__computeTruth;
  computeValidity := CachingSolver__computeValidity;
  computeValue := CachingSolver__computeValue;
  computeInitialValues := CachingSolver__computeInitialValues
}.

End Caching.

(** ** The contract *)

Section Spec.
Context `{ExprOptions} `{DivByZero} `{Universe} `{HashValue}.
Context {S : Type} `{!Solver S} `{!SolverSpec S}.

(** Every entry of the table states a fact. *)
Definition cache_sound (c : gmap (list Expr * Expr) PartialValidity.t) : Prop :=
  map_Forall (fun k pv => pv <> PartialValidity.None /\ pv_ok (mkQuery k.1 k.2) pv) c.

Definition caching_inv (t : CachingSolver S) : Prop :=
  cache_sound (cache t) /\ solver_inv (solver t).

Lemma below_ok {A} (m : SM S A) F Q :
  sat solver_inv F m Q -> sat caching_inv F (below m) Q.
Proof. apply sat_zoom; unfold caching_inv; simpl; tauto. Qed.

(** The canonical form of a query: itself, or an opposite of it. *)
Definition canonical (q : Query) (c : Expr * bool) : Prop :=
  if c.2 then opposite q (mkQuery (constraints q) c.1) else c.1 = expr q.

Lemma canonicalizeQuery_ok q :
  bool_query q -> exists c, canonicalizeQuery (expr q) = Ret c /\ canonical q c.
Proof.
  intros Hq. destruct (negateExpr_opposite q Hq) as (q' & E & Ho). unfold negateExpr in E.
  unfold canonicalizeQuery. destruct (Expr__createIsZero (expr q)) as [e|]; [|done].
  simplify_eq/=. case_match; by eexists.
Qed.

(** A fact about a query is one about its canonical form, and back. *)
Lemma canonical_pv q c pv :
  bool_query q -> canonical q c -> pv <> PartialValidity.None ->
  exists pv', (if c.2 : bool then negatePartialValidity pv else Ret pv) = Ret pv' /\
    pv' <> PartialValidity.None /\
    (pv_ok q pv -> pv_ok (mkQuery (constraints q) c.1) pv') /\
    (pv_ok (mkQuery (constraints q) c.1) pv -> pv_ok q pv').
Proof.
  intros Hq Hc Hne. destruct c as [e []]; unfold canonical in Hc; cbn [fst snd] in *.
  - pose proof (opposite_valid _ _ Hq Hc). pose proof (opposite_contradicted _ _ Hq Hc).
    destruct pv; try done; eexists; (split; [reflexivity|]); (split; [done|]); simpl; tauto.
  - subst e. exists pv. destruct q. by split_and!.
Qed.

Lemma cacheLookup_ok q F :
  bool_query q ->
  sat caching_inv F (cacheLookup q) (fun r =>
    match r with Some pv => pv <> PartialValidity.None /\ pv_ok q pv | None => True end).
Proof.
  intros Hq. destruct (canonicalizeQuery_ok q Hq) as (c & E & Hc).
  eapply (sat_bind _ _ (fun x => x = c)); [apply sat_lift; by exists c|]. intros ? ->.
  destruct c as [e neg].
  eapply (sat_bind _ _ (fun entry => match entry with
    Some pv => pv <> PartialValidity.None /\ pv_ok (mkQuery (constraints q) e) pv | None => True end)).
  { apply sat_get. intros t [Ht _]. destruct (cache t !! _) eqn:El; [|done]. by apply Ht in El. }
  intros [pv|] Hpv; [|by apply sat_ret]. destruct Hpv as [Hne Hpv].
  destruct (canonical_pv q (e, neg) pv Hq Hc Hne) as (pv' & E' & Hne' & _ & Hback). simpl in *.
  eapply (sat_bind _ _ (fun x => x = pv')); [apply sat_lift; by exists pv'|]. intros ? ->.
  apply sat_ret. auto.
Qed.

Lemma cacheInsert_ok q pv F :
  bool_query q -> pv <> PartialValidity.None -> pv_ok q pv ->
  sat caching_inv F (cacheInsert q pv) (fun _ => True).
Proof.
  intros Hq Hne Hpv. destruct (canonicalizeQuery_ok q Hq) as (c & E & Hc).
  eapply (sat_bind _ _ (fun x => x = c)); [apply sat_lift; by exists c|]. intros ? ->.
  destruct c as [e neg].
  destruct (canonical_pv q (e, neg) pv Hq Hc Hne) as (pv' & E' & Hne' & Hto & _). simpl in *.
  eapply (sat_bind _ _ (fun x => x = pv')); [apply sat_lift; by exists pv'|]. intros ? ->.
  apply sat_put. intros t [Ht Hs]. destruct (cache t !! _); [by split|]. split; [|done]. simpl.
  apply map_Forall_insert_2; auto.
Qed.

(** Insert, then return. *)
Lemma insert_ret_ok {A} q pv F (a : A) (Q : A -> Prop) :
  bool_query q -> pv <> PartialValidity.None -> pv_ok q pv -> Q a ->
  sat caching_inv F (_ ← cacheInsert q pv; mret a) Q.
Proof. intros. eapply sat_bind; [by apply cacheInsert_ok|]. intros. by apply sat_ret. Qed.

Lemma Caching_computeTruth_ok q :
  bool_query q -> feasible q ->
  sat caching_inv solver_fails (CachingSolver__computeTruth q) (truth_ok q).
Proof.
  intros Hq Hf. eapply sat_bind; [by apply cacheLookup_ok|]. intros cached Hc.
  assert (Hmiss : (forall pv, cached = Some pv -> pv = PartialValidity.MayBeTrue) ->
    sat caching_inv solver_fails
      (isValid ← below (computeTruth q);
       cachedResult ←
         lift (if isValid : bool then Ret PartialValidity.MustBeTrue
               else match cached with
                    | Some pv =>
                        _ ← assertM (bool_decide (pv = PartialValidity.MayBeTrue));
                        Ret PartialValidity.TrueOrFalse
                    | None => Ret PartialValidity.MayBeFalse
                    end);
       _ ← cacheInsert q cachedResult;
       mret isValid) (truth_ok q)).
  { intros Hpv. eapply sat_bind; [by apply below_ok, computeTruth_ok|]. intros b Hb.
    eapply (sat_bind _ _ (fun pv => pv <> PartialValidity.None /\ pv_ok q pv)).
    - apply sat_lift. unfold truth_ok in Hb. destruct b.
      + eexists. split; [done|]. split; [done|]. by apply Hb.
      + assert (Hnv : ~ valid q) by (intros Hv; by apply Hb in Hv).
        destruct cached as [pv|].
        * specialize (Hpv pv eq_refl). subst pv. eexists. split; [done|]. split; [done|]. split; [done|]. apply Hc.
        * by eexists.
    - intros pv [Hne Hok]. by apply insert_ret_ok. }
  destruct cached as [pv|]; [|by apply Hmiss]. destruct Hc as [Hne Hok].
  destruct (decide (pv = PartialValidity.MayBeTrue)) as [->|Hd].
  - apply Hmiss. by intros pv' [= <-].
  - cbn zeta. rewrite (bool_decide_eq_true_2 (pv <> _)) by done.
    apply sat_ret. unfold truth_ok. rewrite bool_decide_eq_true.
    destruct pv; simpl in *; try done; (split; [done|]); intros Hv; exfalso; try tauto.
    by apply valid_not_contradicted in Hv.
Qed.

(** The refinement of a one-sided entry by a truth query for the other side. *)
Lemma refine_ok q q' (side : Validity.t) pv :
  bool_query q -> bool_query q' -> feasible q' -> pv <> PartialValidity.None ->
  (valid q' -> pv_ok q pv /\ validity_ok q side) ->
  (~ valid q' -> ~ valid q /\ ~ contradicted q) ->
  sat caching_inv solver_fails
    (tmp ← below (computeTruth q');
     if tmp : bool then _ ← cacheInsert q pv; mret side
     else _ ← cacheInsert q PartialValidity.TrueOrFalse; mret Validity.Unknown)
    (validity_ok q).
Proof.
  intros Hq Hq' Hf Hne Hyes Hno. eapply sat_bind; [by apply below_ok, computeTruth_ok|].
  intros b Hb. unfold truth_ok in Hb. destruct b.
  - apply insert_ret_ok; auto; apply Hyes, Hb; done.
  - assert (Hnv : ~ valid q') by (intros Hv; by apply Hb in Hv).
    apply insert_ret_ok; auto; by apply Hno.
Qed.

Lemma Caching_computeValidity_ok q :
  bool_query q -> computable q (expr q) -> feasible q ->
  sat caching_inv solver_fails (CachingSolver__computeValidity q) (validity_ok q).
Proof.
  intros Hq Hcomp Hf. eapply sat_bind; [by apply cacheLookup_ok|]. intros cached Hc.
  destruct cached as [pv|].
  - destruct Hc as [Hne Hok]. destruct pv; simpl in Hok; try (by apply sat_ret); try done.
    + by apply refine_ok.
    + destruct (negateExpr_opposite q Hq) as (q' & E & Ho).
      eapply (sat_bind _ _ (fun x => x = q')); [apply sat_lift; by exists q'|]. intros ? ->.
      pose proof (opposite_valid q q' Hq Ho) as Hv.
      apply refine_ok; auto; try apply Ho; try (by apply (opposite_feasible q));
        rewrite Hv; auto.
  - eapply sat_bind; [by apply below_ok, computeValidity_ok|]. intros v Hv.
    by apply insert_ret_ok; try (destruct v).
Qed.

#[export, refine] Instance CachingSolver_spec : SolverSpec (CachingSolver S) := {
  solver_inv := caching_inv;
  solver_fails := solver_fails (S:=S);
  initial_pre := initial_pre (S:=S)
}.
Proof.
  - apply Caching_computeTruth_ok.
  - apply Caching_computeValidity_ok.
  - intros. by apply below_ok, computeValue_ok.
  - intros. by apply below_ok, computeInitialValues_ok.
Defined.

End Spec.
