(* ===== verification/SolverCexCaching.v ===== *)
(** * The counterexample cache

    [lib/Solver/CexCachingSolver.cpp]: a map from sets of constraints to a
    satisfying assignment, or to none for an unsatisfiable set.  A query is
    looked up as the set of its constraints and its negated expression; a
    satisfiable superset and an unsatisfiable subset answer too, and stored
    assignments are tried.  The sets are kept in the [MapOfSets].  Timers and
    statistics counters are left out. *)

From stdpp Require Import sorting.
From S2P Require Import Prelude MapOfSets ExprData ExprCreate ExprSem ExprBool ExprArith ExprBits ExprSpec ExprOrder ExprHeap ExprEval ExprEvalSound ExprReads Solver SolverStaged SolverCaching.

Class CexOptions : Type := {
  DebugCexCacheCheckBinding : bool;
  CexCacheTryAll : bool;
  CexCacheSuperSet : bool;
  CexCacheExperimental : bool
}.

(** ** The order of a set of expressions *)

(** [operator<] of references.  Different expressions compare as equal only
    when they hold different arrays at one address, which no program has; the
    order between such is arbitrary. *)
Definition expr_lt `{HashValue} (a b : Expr) : bool :=
  match compare hash_value a b with
  | Lt => true
  | Gt => false
  | Eq => Pos.ltb (encode a) (encode b)
  end.

Lemma lcmp_Eq x y : lcmp x y = Eq <-> x = y.
Proof.
  split; [|intros ->; apply lcmp_refl].
  revert y. induction x as [|a x IH]; intros [|b y]; simpl; try done.
  destruct (Z.compare_spec a b); simpl; try done. subst. intros. f_equal. auto.
Qed.

#[export] Instance expr_lt_total `{HashValue} : StrictTotal expr_lt.
Proof.
  split; unfold expr_lt.
  - intros x. rewrite compare_key, lcmp_refl. apply Pos.ltb_irrefl.
  - intros x y z. rewrite !(compare_key hash_value).
    set (a := key hash_value x). set (b := key hash_value y). set (c := key hash_value z).
    destruct (lcmp a b) eqn:E1; try done; destruct (lcmp b c) eqn:E2; try done; intros H1 H2.
    + apply lcmp_Eq in E1 as ->. rewrite E2. apply Pos.ltb_lt in H1, H2. apply Pos.ltb_lt. lia.
    + apply lcmp_Eq in E1 as ->. by rewrite E2.
    + apply lcmp_Eq in E2 as <-. by rewrite E1.
    + by rewrite (lcmp_trans a b c).
  - intros x y. rewrite !(compare_key hash_value), (lcmp_antisym (key hash_value x)).
    destruct (lcmp (key hash_value x) (key hash_value y)); simpl; auto.
    rewrite !Pos.ltb_lt. destruct (Pos.lt_total (encode x) (encode y)) as [|[Heq|]]; auto.
    right. left. by apply (inj encode).
Qed.

(** ** Assignments *)

Abbreviation bindings_ty := (gmap Z (list Z)).

(** [Assignment(objects, values)]: [map::insert] keeps the first binding of an
    array. *)
Fixpoint insert_bindings (objects : list Array) (values : list (list Z)) (b : bindings_ty)
    : bindings_ty :=
  match objects, values with
  | os :: objects, arr :: values =>
      insert_bindings objects values
        (match b !! aaddr os with Some _ => b | None => <[aaddr os := arr]> b end)
  | _, _ => b
  end.

Definition Assignment__new (objects : list Array) (values : list (list Z)) (free : bool)
    : Assignment :=
  mkAssignment free (insert_bindings objects values ∅).

(** [a->bindings < b->bindings]: the pairs in the order of the addresses,
    lexicographically. *)
Definition addr_le (x y : Z * list Z) : Prop := x.1 <= y.1.

#[export] Instance addr_le_dec x y : Decision (addr_le x y).
Proof. unfold addr_le. apply _. Defined.

Definition sorted_bindings (b : bindings_ty) : list (Z * list Z) :=
  merge_sort addr_le (map_to_list b).

Fixpoint bindings_compare (x y : list (Z * list Z)) : comparison :=
  match x, y with
  | [], [] => Eq
  | [], _ => Lt
  | _, [] => Gt
  | (a, v) :: x, (b, w) :: y => lex (a ?= b) (lex (lcmp v w) (bindings_compare x y))
  end.

Definition AssignmentLessThan (a b : Assignment) : bool :=
  match bindings_compare (sorted_bindings (bindings a)) (sorted_bindings (bindings b)) with
  | Lt => true | _ => false
  end.

(** [assignmentsTable.insert(binding)] with [*res.first]: the table and the
    assignment in it that the insertion found or added. *)
Fixpoint table_insert (x : Assignment) (table : list Assignment) : list Assignment * Assignment :=
  match table with
  | [] => ([x], x)
  | y :: table' =>
      if AssignmentLessThan x y then (x :: table, x)
      else if AssignmentLessThan y x
      then let '(t, r) := table_insert x table' in (y :: t, r)
      else (table, y)
  end.

(** ** The solver *)

Abbreviation cex_map := (@UBTree.Node Expr (option Assignment)).

Record CexCachingSolver (S : Type) : Type := mkCex {
  cex_cache : cex_map;
  assignmentsTable : list Assignment;
  cex_solver : S
}.
Arguments mkCex {_} _ _ _.
Arguments cex_cache {_} _.
Arguments assignmentsTable {_} _.
Arguments cex_solver {_} _.

Definition NullAssignment (a : option Assignment) : bool :=
  match a with None => true | Some _ => false end.

Definition NonNullAssignment (a : option Assignment) : bool := negb (NullAssignment a).

Section Cex.
Context `{ExprOptions} `{HashValue} `{CexOptions} {S : Type} `{Solver S}.

(** [a->satisfies(key.begin(), key.end())] as a test.  On the keys and
    assignments of the cache the evaluation returns, by [satisfies_sound], so
    that the value for one that stops is never used. *)
Definition satisfiesb (key : list Expr) (a : Assignment) : bool :=
  match satisfies a key with Ret b => b | Stop _ => false end.

Definition NullOrSatisfyingAssignment (key : list Expr) (a : option Assignment) : bool :=
  match a with None => true | Some a => satisfiesb key a end.

Definition cex_below {A} : SM S A -> SM (CexCachingSolver S) A :=
  zoom cex_solver (fun s t => mkCex (cex_cache t) (assignmentsTable t) s).

(** The result is the cached one ([Some None] for an unsatisfiable query) or
    none. *)
Definition searchForAssignment (key : list Expr) (t : CexCachingSolver S)
    : outcome (option (option Assignment)) :=
  let cache := cex_cache t in
  let fuel := Datatypes.S (length key + UBTree.nodes cache) in
  match UBTree.lookup expr_lt key cache with
  | Some r => Ret (Some r)
  | None =>
      let superset :=
        if CexCacheSuperSet then UBTree.findSuperset expr_lt NonNullAssignment cache key else None in
      if CexCacheTryAll then
        lookup ← match superset with
                 | Some r => Ret (Some r)
                 | None => UBTree.findSubset expr_lt NullAssignment fuel cache key
                 end;
        match lookup with
        | Some r => Ret (Some r)
        | None => Ret (Some <$> find (satisfiesb key) (assignmentsTable t))
        end
      else
        match superset with
        | Some r => Ret (Some r)
        | None => UBTree.findSubset expr_lt (NullOrSatisfyingAssignment key) fuel cache key
        end
  end.

(** [std::set<ref<Expr>>(begin, end)]. *)
Definition KeyType_of (es : list Expr) : list Expr :=
  foldl (fun key e => UBTree.set_insert expr_lt e key) [] es.

(** The key, and the cached result if there is one. *)
Definition lookupAssignment (q : Query)
    : SM (CexCachingSolver S) (list Expr * option (option Assignment)) :=
  let key := KeyType_of (constraints q) in
  neg ← lift (Expr__createIsZero (expr q));
  let search key :=
    r ← askS (searchForAssignment key); mret (key, r) in
  match neg with
  | Constant CE => if isFalse CE then mret (key, Some None) else search key
  | _ => search (UBTree.set_insert expr_lt neg key)
  end.

Definition getAssignment (q : Query) : SM (CexCachingSolver S) (option Assignment) :=
  found ← lookupAssignment q;
  let '(key, result) := found in
  match result with
  | Some r => mret r
  | None =>
      let objects := findSymbolicObjects key in
      r ← cex_below (computeInitialValues q objects);
      binding ←
        match r with
        | Some values =>
            let a := Assignment__new objects values false in
            binding ← getS (fun t => (table_insert a (assignmentsTable t)).2);
            _ ← putS (fun t => mkCex (cex_cache t) (table_insert a (assignmentsTable t)).1 (cex_solver t));
            _ ← (if DebugCexCacheCheckBinding then
                   ok ← lift (satisfies binding key);
                   if ok : bool then mret ()
                   else lift (Stop (KleeError "Generated assignment doesn't match query"))
                 else mret ());
            mret (Some binding)
        | None => mret None
        end;
      _ ← putS (fun t => mkCex (UBTree.insert expr_lt None key binding (cex_cache t))
                          (assignmentsTable t) (cex_solver t));
      mret binding
  end.

(** [assert(a)], then [a->evaluate(e)] with the assertion that the result is a
    constant. *)
Definition evaluate_constant (a : option Assignment) (e : Expr) : outcome ConstantExpr :=
  match a with
  | None => Stop AssertFail
  | Some a =>
      v ← visit a e;
      match v with Constant c => Ret c | _ => Stop AssertFail end
  end.

Definition CexCachingSolver__computeValidity (q : Query) : SM (CexCachingSolver S) Validity.t :=
  a ← getAssignment (withFalse q);
  c ← lift (evaluate_constant a (expr q));
  if isTrue c then
    a ← getAssignment q;
    mret (match a with None => Validity.True | Some _ => Validity.Unknown end)
  else
    q' ← lift (negateExpr q);
    a ← getAssignment q';
    mret (match a with None => Validity.False | Some _ => Validity.Unknown end).

(** With the experimental option a query that is known to be false is
    reported as a failure. *)
Definition CexCachingSolver__computeTruth (q : Query) : SM (CexCachingSolver S) bool :=
  known_false ←
    (if CexCacheExperimental then
       q' ← lift (negateExpr q);
       found ← lookupAssignment q';
       mret (match found.2 with Some None => true | _ => false end)
     else mret false);
  if known_false : bool then fails
  else
    a ← getAssignment q;
    mret (match a with None => true | Some _ => false end).

Definition CexCachingSolver__computeValue (q : Query) : SM (CexCachingSolver S) Expr :=
  a ← getAssignment (withFalse q);
  c ← lift (evaluate_constant a (expr q));
  mret (Constant c).

Definition CexCachingSolver__computeInitialValues (q : Query) (objects : list Array)
    : SM (CexCachingSolver S) (option (list (list Z))) :=
  a ← getAssignment q;
  mret (match a with
        | None => None
        | Some a =>
            Some (map (fun os => match bindings a !! aaddr os with
                                 | Some bytes => bytes
                                 | None => replicate (Z.to_nat (asize os)) 0
                                 end) objects)
        end).

#[export] Instance CexCachingSolver_solver : Solver (CexCachingSolver S) := {
  computeTruth := CexCachingSolver__computeTruth;
  computeValidity := CexCachingSolver__computeValidity;
  computeValue := CexCachingSolver__computeValue;
  computeInitialValues := CexCachingSolver__computeInitialValues
}.

End Cex.

(** ** The contract *)

Section Spec.
Context `{ExprOptions} `{DivByZero} `{Universe} `{HashValue} `{CexOptions}.

(** An assignment of the table: complete, of the domain, and with as many
    bytes for an array as the array has. *)
Record asg_ok (a : Assignment) : Prop := {
  asg_complete : allowFreeValues a = false;
  asg_domain : in_domain (env a);
  asg_sizes : forall o bytes, known o -> bindings a !! aaddr o = Some bytes ->
    Z.of_nat (length bytes) = asize o
}.

Definition satisfied (rho : assignment) (key : list Expr) : Prop :=
  Forall (fun c => eval rho c = 1) key.

(** What an entry of the map states about its set. *)
Definition entry_ok (key : list Expr) (v : option Assignment) : Prop :=
  match v with
  | None => forall rho, in_domain rho -> ~ satisfied rho key
  | Some a => asg_ok a /\ satisfied (env a) key
  end.

Lemma satisfied_subset rho s s' : s ⊆ s' -> satisfied rho s' -> satisfied rho s.
Proof. unfold satisfied. rewrite !Forall_forall. intros Hsub Hs c Hc. apply Hs. by apply Hsub. Qed.

Lemma satisfiesb_sound key a :
  good_constraints key -> asg_ok a -> satisfiesb key a = true -> satisfied (env a) key.
Proof.
  intros Hkey Ha. unfold satisfiesb.
  destruct (satisfies_sound heap a) with (cs := key) as (b & -> & Hb).
  - intros p. pose proof (heap_shape p). lia.
  - apply Ha.
  - eapply Forall_impl; [exact Hkey|]. intros e [[Hwf Hbuilt Hinb] Hw]. split_and!; auto.
    apply Hinb, Ha.
  - done.
Qed.

Lemma KeyType_of_elem es e : e ∈ KeyType_of es <-> e ∈ es.
Proof.
  unfold KeyType_of.
  assert (Hg : forall s, e ∈ foldl (fun key e => UBTree.set_insert expr_lt e key) s es <-> e ∈ s \/ e ∈ es).
  { induction es as [|x es IH]; intros s; simpl; [set_solver|]. rewrite IH, (UBTree.set_insert_elem expr_lt). set_solver. }
  rewrite Hg. set_solver.
Qed.

Lemma KeyType_of_sorted es : StronglySorted (UBTree.key_lt expr_lt) (KeyType_of es).
Proof.
  unfold KeyType_of. assert (Hs : StronglySorted (UBTree.key_lt expr_lt) []) by constructor.
  revert Hs. generalize (@nil Expr). induction es as [|x es IH]; intros s Hs; simpl; [done|].
  apply IH. by apply (UBTree.set_insert_sorted expr_lt).
Qed.

Section Search.
Context {S : Type} (I : S -> Prop).

(** The invariant of the two tables. *)
Record cex_inv (t : CexCachingSolver S) : Prop := {
  cex_wf : UBTree.wf expr_lt None (cex_cache t);
  cex_entries : forall key v, UBTree.stored (cex_cache t) key v -> entry_ok key v;
  cex_table : Forall asg_ok (assignmentsTable t);
  cex_inner : I (cex_solver t)
}.

(** The entry of a subset or of a superset that a search accepts. *)
Lemma subset_entry t key p v :
  cex_inv t -> good_constraints key ->
  (forall a, p (Some a) = true -> satisfiesb key a = true) ->
  UBTree.answers p (UBTree.sub_node (cex_cache t) key) (Some v) -> entry_ok key v.
Proof.
  intros Ht Hkey Hp [(s & Hst & Hsub) Hpv]. apply (cex_entries t Ht) in Hst.
  destruct v as [a|]; simpl in *.
  - split; [apply Hst|]. apply satisfiesb_sound; [done|apply Hst|auto].
  - intros rho HD Hs. apply (Hst rho HD). by eapply satisfied_subset.
Qed.

Lemma superset_entry t key v :
  cex_inv t -> UBTree.answers NonNullAssignment (UBTree.sup_node (cex_cache t) key) (Some v) ->
  entry_ok key v.
Proof.
  intros Ht [(s & Hst & Hsub) Hpv]. apply (cex_entries t Ht) in Hst.
  destruct v as [a|]; [|done]. split; [apply Hst|]. eapply satisfied_subset; [exact Hsub|]. apply Hst.
Qed.

Lemma searchForAssignment_ok key t :
  cex_inv t -> StronglySorted (UBTree.key_lt expr_lt) key -> good_constraints key ->
  exists r, searchForAssignment key t = Ret r /\
    match r with Some v => entry_ok key v | None => True end.
Proof.
  intros Ht Hs Hkey. pose proof (cex_wf t Ht) as Hwf. unfold searchForAssignment.
  destruct (UBTree.lookup expr_lt key (cex_cache t)) as [r|] eqn:El.
  { exists (Some r). split; [done|]. apply (cex_entries t Ht). by apply (UBTree.lookup_stored expr_lt None). }
  set (sup := if CexCacheSuperSet then _ else None).
  assert (Hsup : forall v, sup = Some v -> entry_ok key v).
  { unfold sup. destruct CexCacheSuperSet; [|done]. intros v Ev.
    pose proof (UBTree.findSuperset_spec expr_lt NonNullAssignment (cex_cache t) key None Hwf Hs) as Ha.
    rewrite Ev in Ha. by eapply superset_entry. }
  assert (Hsub : forall p, (forall a, p (Some a) = true -> satisfiesb key a = true) ->
    exists r, UBTree.findSubset expr_lt p (Datatypes.S (length key + UBTree.nodes (cex_cache t)))
      (cex_cache t) key = Ret r /\ forall v, r = Some v -> entry_ok key v).
  { intros p Hp. destruct (UBTree.findSubset_stored expr_lt None (cex_cache t) key p
      (Datatypes.S (length key + UBTree.nodes (cex_cache t))) Hwf Hs ltac:(lia)) as (r & E & Ha).
    exists r. split; [done|]. intros v ->. by eapply subset_entry. }
  destruct CexCacheTryAll.
  - assert (Hl : exists r, match sup with Some r => Ret (Some r) | None =>
      UBTree.findSubset expr_lt NullAssignment (Datatypes.S (length key + UBTree.nodes (cex_cache t)))
        (cex_cache t) key end = Ret r /\ forall v, r = Some v -> entry_ok key v).
    { destruct sup as [v|] eqn:Es; [|by apply Hsub]. eexists. split; [done|]. intros ? [= <-]. auto. }
    destruct Hl as (r & -> & Hr). cbn [mbind outcome_bind].
    destruct r as [v|]; [by exists (Some v); auto|]. eexists. split; [done|].
    destruct (find (satisfiesb key) (assignmentsTable t)) as [a|] eqn:Ef; [|done].
    apply find_some in Ef as [Hin Hsat]. apply list_elem_of_In in Hin.
    pose proof (cex_table t Ht) as Htab. rewrite Forall_forall in Htab.
    split; [by apply Htab|]. apply satisfiesb_sound; auto.
  - destruct sup as [v|] eqn:Es; [by exists (Some v); auto|].
    destruct (Hsub (NullOrSatisfyingAssignment key)) as (r & -> & Hr); [done|].
    exists r. split; [done|]. destruct r; auto.
Qed.

End Search.

(** ** The memo table *)

Lemma bindings_compare_antisym x y : bindings_compare y x = CompOpp (bindings_compare x y).
Proof.
  revert y. induction x as [|[a v] x IH]; intros [|[b w] y]; simpl; try done.
  rewrite (Z.compare_antisym a b), (lcmp_antisym v w), IH.
  by destruct (a ?= b), (lcmp v w), (bindings_compare x y).
Qed.

Lemma bindings_compare_Eq x y : bindings_compare x y = Eq -> x = y.
Proof.
  revert y. induction x as [|[a v] x IH]; intros [|[b w] y]; simpl; try done.
  rewrite !lex_Eq, Z.compare_eq_iff, lcmp_Eq. intros (-> & -> & Hxy). f_equal. auto.
Qed.

Lemma AssignmentLessThan_Eq a b :
  AssignmentLessThan a b = false -> AssignmentLessThan b a = false -> bindings a = bindings b.
Proof.
  unfold AssignmentLessThan. rewrite (bindings_compare_antisym (sorted_bindings (bindings a))).
  intros Hab Hba.
  assert (E : bindings_compare (sorted_bindings (bindings a)) (sorted_bindings (bindings b)) = Eq).
  { by destruct (bindings_compare _ _). }
  apply bindings_compare_Eq in E. apply map_to_list_inj.
  rewrite <- (merge_sort_Permutation addr_le (map_to_list (bindings a))).
  rewrite <- (merge_sort_Permutation addr_le (map_to_list (bindings b))).
  unfold sorted_bindings in E. by rewrite E.
Qed.

(** The assignment the table hands back is the one that was given. *)
Lemma table_insert_ok x table :
  asg_ok x -> Forall asg_ok table ->
  Forall asg_ok (table_insert x table).1 /\ (table_insert x table).2 = x.
Proof.
  intros Hx. induction 1 as [|y table Hy Ht IH]; simpl.
  { split; [|done]. by constructor. }
  destruct (AssignmentLessThan x y) eqn:E1; [split; [|done]; by apply Forall_cons_2; [|apply Forall_cons_2]|].
  destruct (AssignmentLessThan y x) eqn:E2.
  - destruct (table_insert x table) as [t r]. simpl in *. destruct IH as [IH ->]. split; [|done]. by constructor.
  - simpl. split; [by constructor|]. pose proof (AssignmentLessThan_Eq x y E1 E2) as Eb.
    destruct x as [fx bx], y as [fy by']. destruct Hx as [Hfx _ _], Hy as [Hfy _ _]. simpl in *. congruence.
Qed.

(** ** An assignment from the values of objects *)

Lemma insert_bindings_lookup rho objects values : forall b a,
  Forall known objects -> known a -> Forall2 (bytes_of rho) objects values ->
  match b !! aaddr a with
  | Some x => insert_bindings objects values b !! aaddr a = Some x
  | None => (a ∈ objects /\ exists bytes, insert_bindings objects values b !! aaddr a = Some bytes /\
               bytes_of rho a bytes) \/
            ((a ∉ objects) /\ insert_bindings objects values b !! aaddr a = None)
  end.
Proof.
  intros b a Hk Ha Hv. revert b. induction Hv as [|o bytes objects values Hb Hv IH]; intros b; simpl.
  { destruct (b !! aaddr a); [done|]. right. split; [set_solver|done]. }
  apply Forall_cons in Hk as [Ho Hk].
  specialize (IH Hk (match b !! aaddr o with Some _ => b | None => <[aaddr o := bytes]> b end)).
  destruct (decide (o = a)) as [->|Hne].
  - destruct (b !! aaddr a) as [x|] eqn:E; [by rewrite E in IH|].
    rewrite lookup_insert_eq in IH. left. split; [set_solver|]. by exists bytes.
  - assert (Haddr : aaddr o <> aaddr a).
    { intros Heq. apply Hne. unfold known in *. congruence. }
    destruct (b !! aaddr o) as [y|] eqn:Eo.
    + destruct (b !! aaddr a); [done|]. set_solver.
    + rewrite lookup_insert_ne in IH by done. destruct (b !! aaddr a); [done|]. set_solver.
Qed.

Section New.
Variables (rho : assignment) (objects : list Array) (values : list (list Z)).
Hypothesis Hrho : in_domain rho.
Hypothesis Hobj : Forall known objects.
Hypothesis Hval : Forall2 (bytes_of rho) objects values.

Lemma env_new a i :
  known a -> 0 <= i ->
  env (Assignment__new objects values false) a i = if bool_decide (a ∈ objects) then rho a i else 0.
Proof using Hobj Hrho Hval.
  intros Ha Hi. unfold env, Assignment__new. cbn [bindings].
  pose proof (insert_bindings_lookup rho objects values ∅ a Hobj Ha Hval) as Hl.
  rewrite lookup_empty in Hl. destruct Hl as [(Hin & bytes & -> & Hlen & Hb)|[Hnin ->]].
  - rewrite bool_decide_eq_true_2 by done. destruct (bytes !! Z.to_nat i) as [b|] eqn:Eb; simpl.
    + apply Hb in Eb as ->. f_equal. lia.
    + apply lookup_ge_None in Eb. symmetry. apply Hrho; [done..|].
      destruct (free a i) eqn:Ef; [|done]. apply free_range in Ef. lia.
  - by rewrite bool_decide_eq_false_2.
Qed.

Lemma asg_ok_new : asg_ok (Assignment__new objects values false).
Proof using Hobj Hrho Hval.
  split; [done| |].
  - intros a i Ha Hi. rewrite env_new by done. case_bool_decide; [by apply Hrho|]. split; [lia|done].
  - intros o bytes Ho E. unfold Assignment__new in E. cbn [bindings] in E.
    pose proof (insert_bindings_lookup rho objects values ∅ o Hobj Ho Hval) as Hl.
    rewrite lookup_empty, E in Hl. destruct Hl as [(_ & b & [= <-] & Hb)|[_ ?]]; [apply Hb|done].
Qed.

(** An expression whose symbolic arrays are among the objects has the same
    value under the new assignment. *)
Lemma eval_new e :
  good e -> (forall a, isSymbolicArray a = true -> reads_array a e -> a ∈ objects) ->
  eval (env (Assignment__new objects values false)) e = eval rho e.
Proof using Hobj Hrho Hval.
  intros [Hwf Hb _] Ho.
  apply (eval_frame heap (fun a _ => isConstantArray a = true \/ a ∈ objects)); auto.
  - intros a i Ha Hc Hi [Hc'|Hin]; [congruence|]. rewrite env_new by done. by rewrite bool_decide_eq_true_2.
  - intros a i Ha Hc Hi. pose proof (heap_shape (aaddr a)) as (_ & _ & Hsz).
    rewrite Ha in Hsz. rewrite env_new by (done || lia).
    assert (Hz : rho a i = 0); [|by case_bool_decide].
    apply Hrho; [done|lia|]. destruct (free a i) eqn:Ef; [|done]. apply free_range in Ef. lia.
  - by apply built_in_heap.
  - intros r Hr. destruct r as [| |a u i| | | | | | |]; try done.
    assert (Hcov : isConstantArray a = true \/ a ∈ objects).
    { destruct (isSymbolicArray a) eqn:Es; [right|left; unfold isConstantArray; by rewrite Es].
      apply Ho; [done|]. by exists u, i. }
    right. by destruct i.
Qed.

End New.

(** ** The solver keeps the contract *)

Section Contract.
Context {S : Type} `{!Solver S} `{!SolverSpec S}.
(** The solver below takes every query for initial values. *)
Hypothesis Hpre : forall q objects, initial_pre (S:=S) q objects.
(** The debugging option that re-evaluates new assignments is off. *)
Hypothesis Hdebug : DebugCexCacheCheckBinding = false.

Abbreviation inv := (cex_inv (solver_inv (S:=S))).
Abbreviation meets := (sat (S:=CexCachingSolver S) inv (solver_fails (S:=S))).

Lemma cex_below_ok {A} (m : SM S A) F Q :
  sat solver_inv F m Q -> sat inv F (cex_below m) Q.
Proof using Type. apply sat_zoom; [by intros t []|]. intros s t [] Hs. by split. Qed.

(** A counterexample of the query, or that there is none. *)
Definition cex_result (q : Query) (r : option Assignment) : Prop :=
  match r with
  | None => valid q
  | Some a => asg_ok a /\ models (env a) q /\ eval (env a) (expr q) = 0
  end.

(** The key of a query: satisfying it is to be a counterexample. *)
Record key_ok (q : Query) (key : list Expr) : Prop := {
  key_sorted : StronglySorted (UBTree.key_lt expr_lt) key;
  key_good : good_constraints key;
  key_meaning : forall rho, in_domain rho ->
    satisfied rho key <-> models rho q /\ eval rho (expr q) = 0
}.

Lemma entry_result q key v : bool_query q -> key_ok q key -> entry_ok key v -> cex_result q v.
Proof using Type.
  intros Hq [_ _ Hk] Hv. destruct v as [a|]; simpl in *.
  - destruct Hv as [Ha Hs]. split; [done|]. apply Hk; [apply Ha|done].
  - intros rho Hm. destruct Hq as [[_ Hg] Hw].
    destruct (eval_bool rho _ Hg Hw) as [E|E]; [|done]. exfalso.
    apply (Hv rho (proj1 Hm)). apply Hk; [apply Hm|]. done.
Qed.

Lemma key_constraints q :
  good_query q -> (forall rho, in_domain rho -> eval rho (expr q) = 0) ->
  key_ok q (KeyType_of (constraints q)).
Proof using Type.
  intros [Hcs _] Hz. split.
  - apply KeyType_of_sorted.
  - unfold good_constraints in *. rewrite Forall_forall in *. intros c Hc.
    apply Hcs. by apply KeyType_of_elem.
  - intros rho HD. unfold satisfied, models. rewrite !Forall_forall.
    setoid_rewrite KeyType_of_elem. naive_solver.
Qed.

Lemma key_negated q neg :
  bool_query q -> good neg -> getWidth neg = 1 ->
  (forall rho, in_domain rho -> eval rho neg = Z.b2z (eval rho (expr q) =? 0)) ->
  key_ok q (UBTree.set_insert expr_lt neg (KeyType_of (constraints q))).
Proof using Type.
  intros [[Hcs Hg] Hw] Hn Hnw Hv. split.
  - apply (UBTree.set_insert_sorted expr_lt), KeyType_of_sorted.
  - unfold good_constraints in *. rewrite Forall_forall in *.
    intros c [->|Hc]%(UBTree.set_insert_elem expr_lt); [done|]. apply Hcs. by apply KeyType_of_elem.
  - intros rho HD. unfold satisfied, models. rewrite !Forall_forall.
    setoid_rewrite (UBTree.set_insert_elem expr_lt). setoid_rewrite KeyType_of_elem.
    pose proof (Hv rho HD) as Hev. destruct (Z.eqb_spec (eval rho (expr q)) 0); simpl in Hev; split.
    + intros Hall. split_and!; auto.
    + intros [[_ Hall] _] c [->|Hc]; auto.
    + intros Hall. specialize (Hall neg (or_introl eq_refl)). lia.
    + tauto.
Qed.

Lemma lookupAssignment_ok q F :
  bool_query q ->
  sat inv F (lookupAssignment q) (fun kr =>
    match kr.2 with
    | Some v => cex_result q v
    | None => key_ok q kr.1 /\ not_true (expr q)
    end).
Proof using Type.
  intros Hq. destruct (IsZero_good (expr q)) as (neg & E & Hn & Hnw & Hv); [apply Hq|].
  eapply (sat_bind _ _ (fun x => x = neg)); [apply sat_lift; by exists neg|]. intros ? ->.
  assert (Hnt : (forall c, neg = Constant c -> isFalse c = false) -> not_true (expr q)).
  { intros Hnf c Ec. destruct (Z.eq_dec (cvalue c) 0) as [|Hne]; [done|]. exfalso.
    rewrite Ec in E. unfold Expr__createIsZero, EqExpr__create, BCREATE_R in E.
    cbn [getWidth cwidth ConstantExpr__alloc] in E. rewrite Z.eqb_refl in E.
    cbn [assertM mbind outcome_bind fold ConstantExpr__op Kind.is_div andb] in E.
    injection E as <-. specialize (Hnf _ eq_refl). unfold isFalse in Hnf. simpl in Hnf.
    rewrite Zmod_0_l, (proj2 (Z.eqb_neq _ _) Hne) in Hnf. done. }
  assert (Hsearch : forall key, key_ok q key -> not_true (expr q) ->
    sat inv F (r ← askS (searchForAssignment key); mret (key, r)) (fun kr =>
    match kr.2 with
    | Some v => cex_result q v
    | None => key_ok q kr.1 /\ not_true (expr q)
    end)).
  { intros key Hk Hnot. eapply sat_bind.
    - apply sat_ask. intros t Ht. by apply (searchForAssignment_ok _ key t Ht); [apply Hk|apply Hk].
    - intros r Hr. apply sat_ret. simpl. destruct r as [v|]; [|done]. by eapply entry_result. }
  destruct neg as [CE| | | | | | | | |]; try (apply Hsearch; [by apply key_negated|by apply Hnt]).
  simpl in Hnw. destruct Hn as [Hwf _ _]. destruct (isFalse CE) eqn:Ef.
  - apply sat_ret. simpl. intros rho Hm. specialize (Hv rho (proj1 Hm)).
    unfold isFalse in Ef. to_prop. destruct Hq as [[_ Hg] Hw].
    destruct (eval_bool rho _ Hg Hw) as [E'|E']; [|done]. rewrite E' in Hv. simpl in Hv. lia.
  - apply Hsearch; [|by apply Hnt; intros c [= <-]]. apply key_constraints; [apply Hq|].
    intros rho HD. specialize (Hv rho HD). unfold isFalse in Ef. rewrite Hnw in Ef. simpl in Ef.
    destruct Hq as [[_ Hg] Hw].
    destruct (eval_bool rho _ Hg Hw) as [E'|E']; [done|]. rewrite E' in Hv. simpl in Hv. to_prop. lia.
Qed.

(** The objects of a key are the symbolic arrays its constraints read. *)
Lemma key_objects key :
  good_constraints key -> Forall known (findSymbolicObjects key).
Proof using Type.
  intros Hk. apply Forall_forall. intros a Ha. apply findSymbolicObjects_elem in Ha as (_ & e & He & u & i & Hr).
  unfold good_constraints in Hk. rewrite Forall_forall in Hk. destruct (Hk e He) as [[_ Hb _] _].
  by apply (built_nodes heap e Hb) in Hr as (? & _).
Qed.

(** Storing a binding for a key. *)
Lemma store_ok key binding F :
  StronglySorted (UBTree.key_lt expr_lt) key -> entry_ok key binding ->
  sat inv F
    (_ ← putS (fun t => mkCex (UBTree.insert expr_lt None key binding (cex_cache t))
                          (assignmentsTable t) (cex_solver t)); mret binding)
    (fun r => r = binding).
Proof using Type.
  intros Hs He. eapply sat_bind; [|intros; by apply sat_ret].
  apply sat_put. intros t [Hwf Hent Htab Hin].
  assert (Hwf' : UBTree.wf expr_lt None (UBTree.insert expr_lt None key binding (cex_cache t))).
  { by apply (UBTree.wf_insert expr_lt None). }
  split; cbn [cex_cache assignmentsTable cex_solver]; auto.
  - intros key' v Hst.
    apply (UBTree.lookup_stored expr_lt None _ _ _ Hwf') in Hst.
    rewrite (UBTree.lookup_insert_raw expr_lt None key binding None (cex_cache t) key' Hwf) in Hst.
    case_bool_decide; [by simplify_eq|]. apply Hent. by apply (UBTree.lookup_stored expr_lt None).
Qed.

(** A new assignment from the solver below. *)
Lemma binding_ok q key r F :
  bool_query q -> key_ok q key -> initial_ok q (findSymbolicObjects key) r ->
  sat inv F
    (match r with
     | Some values =>
         let a := Assignment__new (findSymbolicObjects key) values false in
         binding ← getS (fun t => (table_insert a (assignmentsTable t)).2);
         _ ← putS (fun t => mkCex (cex_cache t) (table_insert a (assignmentsTable t)).1 (cex_solver t));
         _ ← (if DebugCexCacheCheckBinding then
                ok ← lift (satisfies binding key);
                if ok : bool then mret ()
                else lift (Stop (KleeError "Generated assignment doesn't match query"))
              else mret ());
         mret (Some binding)
     | None => mret None
     end) (entry_ok key).
Proof using Hdebug.
  intros Hq Hk Hr. destruct r as [values|].
  - destruct Hr as (rho & Hm & Hz & Hv). pose proof (key_objects key (key_good _ _ Hk)) as Ho.
    set (a := Assignment__new (findSymbolicObjects key) values false).
    assert (Ha : asg_ok a) by (eapply asg_ok_new; [apply Hm|done|done]).
    assert (Hsat : satisfied (env a) key).
    { assert (Hs : satisfied rho key) by (apply Hk; [apply Hm|done]).
      pose proof (key_good _ _ Hk) as Hg. unfold satisfied, good_constraints in *.
      rewrite Forall_forall in *. intros c Hc. unfold a.
      rewrite (eval_new rho) by (try apply Hm; try apply Hg; auto;
        intros o Hsym Hrd; apply findSymbolicObjects_elem; eauto). auto. }
    cbv zeta. eapply (sat_bind _ _ (fun b => b = a)).
    { apply sat_get. intros t Ht. by apply table_insert_ok, Ht. }
    intros ? ->. eapply sat_bind.
    { apply sat_put. intros t [Hwf Hent Htab Hin]. split; auto. by apply table_insert_ok. }
    intros _ _. rewrite Hdebug. eapply sat_bind; [by apply (sat_ret _ _ (fun _ => True))|].
    intros _ _. by apply sat_ret.
  - apply sat_ret. simpl. intros rho HD Hs. apply Hk in Hs as [Hm Hz]; [|done].
    specialize (Hr rho Hm). lia.
Qed.

Lemma getAssignment_ok q : bool_query q -> meets (getAssignment q) (cex_result q).
Proof using Hdebug Hpre.
  intros Hq. eapply sat_bind; [by apply lookupAssignment_ok|]. intros [key [v|]] Hk; simpl in Hk.
  { by apply sat_ret. }
  destruct Hk as [Hk Hn]. pose proof (key_objects key (key_good _ _ Hk)) as Ho.
  eapply sat_bind; [by apply cex_below_ok, computeInitialValues_ok|]. intros r Hr.
  eapply sat_bind; [by apply (binding_ok q)|]. intros binding Hb.
  eapply sat_conseq; [apply store_ok; [apply Hk|done]|]. intros ? ->.
  by apply (entry_result q key).
Qed.

(** The assignment of feasible constraints, and the value of the expression
    under it. *)
Lemma evaluate_constant_ok q a :
  good_query q -> computable q (expr q) -> feasible q -> cex_result (withFalse q) a ->
  exists rho, models rho q /\
    evaluate_constant a (expr q) = Ret (mkConst (eval rho (expr q)) (getWidth (expr q))).
Proof using Type.
  intros [Hcs Hg] Hcomp [rho Hf] Ha. destruct a as [a|].
  - destruct Ha as (Hok & Hm & _). exists (env a). split; [done|]. simpl.
    rewrite (proj1 (visit_const a)); [done|apply Hg|].
    apply tame_evaluable; [apply Hg|apply Hg|by apply Hcomp|]. intros. left. apply Hok.
  - exfalso. specialize (Ha rho Hf). done.
Qed.

Lemma withFalse_bool q : good_query q -> bool_query (withFalse q).
Proof using Type.
  intros Hq. apply bool_query_withExpr; [done| |done]. by apply (good_constant 0 1).
Qed.

Lemma Cex_computeValidity_ok q :
  bool_query q -> computable q (expr q) -> feasible q ->
  meets (CexCachingSolver__computeValidity q) (validity_ok q).
Proof using Hdebug Hpre.
  intros Hq Hcomp Hf. eapply sat_bind; [apply getAssignment_ok, withFalse_bool, Hq|]. intros a Ha.
  destruct (evaluate_constant_ok q a (proj1 Hq) Hcomp Hf Ha) as (rho & Hm & E).
  eapply (sat_bind _ _ (fun c => c = mkConst (eval rho (expr q)) (getWidth (expr q)))).
  { apply sat_lift. by eexists. }
  intros ? ->. unfold isTrue, nz. cbn [cwidth cvalue]. pose proof Hq as [[_ Hg] Hw]. rewrite Hw.
  destruct (Z.eqb_spec (eval rho (expr q)) 0) as [Hz|Hz]; cbn [Z.eqb Pos.eqb andb negb].
  - destruct (negateExpr_opposite q Hq) as (q' & E' & Ho).
    eapply (sat_bind _ _ (fun x => x = q')); [apply sat_lift; by exists q'|]. intros ? ->.
    eapply sat_bind; [apply getAssignment_ok, Ho|]. intros b Hb. apply sat_ret.
    destruct b as [b|]; simpl in *; [|by apply (opposite_valid q q' Hq Ho)].
    destruct Hb as (_ & Hmb & Hzb). rewrite (opp_eval _ _ Ho) in Hzb by apply Hmb. split.
    + intros Hv. specialize (Hv rho Hm). lia.
    + intros Hc. pose proof (models_constraints (env b) q' q (eq_sym (opp_constraints _ _ Ho)) Hmb) as Hm'.
      specialize (Hc _ Hm'). by rewrite Hc in Hzb.
  - eapply sat_bind; [by apply getAssignment_ok|]. intros b Hb. apply sat_ret.
    destruct b as [b|]; simpl in *; [|done]. destruct Hb as (_ & Hmb & Hzb). split.
    + intros Hv. specialize (Hv _ Hmb). lia.
    + intros Hc. specialize (Hc rho Hm). lia.
Qed.

Lemma Cex_computeTruth_ok q :
  bool_query q ->
  sat inv (solver_fails (S:=S) \/ CexCacheExperimental = true)
    (CexCachingSolver__computeTruth q) (truth_ok q).
Proof using Hdebug Hpre.
  intros Hq. eapply (sat_bind _ _ (fun b => b = true -> CexCacheExperimental = true)).
  - destruct CexCacheExperimental; [|by apply sat_ret].
    destruct (negateExpr_opposite q Hq) as (q' & E' & Ho).
    eapply (sat_bind _ _ (fun x => x = q')); [apply sat_lift; by exists q'|]. intros ? ->.
    eapply sat_bind; [apply lookupAssignment_ok, Ho|]. intros. by apply sat_ret.
  - intros [] Hb; [apply sat_fails; right; auto|].
    eapply sat_bind; [eapply sat_weaken; [|by apply getAssignment_ok]; tauto|].
    intros a Ha. apply sat_ret. unfold truth_ok. destruct a as [a|]; [|done].
    split; [done|]. intros Hv. destruct Ha as (_ & Hm & Hz). specialize (Hv _ Hm). lia.
Qed.

(** The bytes of an object under a stored assignment. *)
Lemma asg_bytes a os :
  asg_ok a -> known os ->
  bytes_of (env a) os (match bindings a !! aaddr os with
                       | Some bytes => bytes
                       | None => replicate (Z.to_nat (asize os)) 0
                       end).
Proof using Type.
  intros Ha Ho. unfold bytes_of, env.
  destruct (bindings a !! aaddr os) as [bytes|] eqn:E.
  - split; [by apply (asg_sizes a Ha os)|]. intros i b Hb. rewrite Nat2Z.id, Hb. done.
  - rewrite length_replicate. pose proof (heap_shape (aaddr os)) as (_ & _ & Hsz). rewrite Ho in Hsz.
    split; [lia|]. intros i b Hb. by apply lookup_replicate in Hb as [-> _].
Qed.

#[export, refine] Instance CexCachingSolver_spec : SolverSpec (CexCachingSolver S) := {
  solver_inv := inv;
  solver_fails := solver_fails (S:=S) \/ CexCacheExperimental = true;
  initial_pre _ _ := True
}.
Proof using Hdebug Hpre.
  - intros q Hq _. by apply Cex_computeTruth_ok.
  - intros q Hq Hcomp Hf. eapply sat_weaken; [|by apply Cex_computeValidity_ok]. tauto.
  - intros q Hq Hcomp Hf. eapply sat_weaken; [by left|].
    eapply sat_bind; [apply getAssignment_ok, withFalse_bool, Hq|]. intros a Ha.
    destruct (evaluate_constant_ok q a Hq Hcomp Hf Ha) as (rho & Hm & E).
    eapply (sat_bind _ _ (fun c => c = mkConst (eval rho (expr q)) (getWidth (expr q)))).
    { apply sat_lift. by eexists. }
    intros ? ->. apply sat_ret. eexists. split; [done|]. by exists rho.
  - intros q objects Hq _ Ho _. eapply sat_weaken; [by left|].
    eapply sat_bind; [by apply getAssignment_ok|]. intros a Ha. apply sat_ret.
    destruct a as [a|]; [|done]. destruct Ha as (Hok & Hm & Hz). exists (env a). split_and!; auto.
    clear -Hok Ho. induction Ho as [|o objects Ho _ IH]; simpl; [constructor|].
    constructor; [|done]. by apply asg_bytes.
Defined.

End Contract.
End Spec.
