(* ===== verification/SolverIndependent.v ===== *)
(** * Independent constraints

    [lib/Solver/IndependentSolver.cpp]: the sets of array positions that
    expressions read, the constraints a query depends on (those that are
    connected to it by shared positions), and the partition of all constraints
    into independent factors, whose solutions are put together. *)

From stdpp Require Import sorting.
From S2P Require Import Prelude ExprData ExprCreate ExprSem ExprBool ExprSpec ExprOrder ExprHeap ExprEval ExprReads Solver SolverStaged SolverCexCaching.

(** ** Sets of positions *)

(** [DenseSet::add] of a set: whether an element was new. *)
Definition DenseSet__add (s b : gset Z) : gset Z * bool :=
  foldl (fun acc x =>
    let '(s, modified) := acc in
    if modified || negb (bool_decide (x ∈ s)) then ({[x]} ∪ s, true) else acc)
    (s, false) (elements b).

Definition DenseSet__intersects (s b : gset Z) : bool :=
  existsb (fun x => bool_decide (x ∈ b)) (elements s).

Record IndependentElementSet : Type := mkIES {
  ies_elements : gmap Array (gset Z);
  ies_wholeObjects : gset Array;
  ies_exprs : list Expr
}.

(** One read of the loop of the constructor. *)
Definition add_read (ies : IndependentElementSet) (re : Expr) : outcome IndependentElementSet :=
  match re with
  | Read array u index =>
      if isConstantArray array && bool_decide (u = NoUpdate) then Ret ies
      else if bool_decide (array ∈ ies_wholeObjects ies) then Ret ies
      else
        match index with
        | Constant CE =>
            _ ← assertM (cwidth CE <=? 32);
            let dis := default ∅ (ies_elements ies !! array) in
            Ret (mkIES (<[array := {[u32 (cvalue CE)]} ∪ dis]> (ies_elements ies))
                       (ies_wholeObjects ies) (ies_exprs ies))
        | _ =>
            Ret (mkIES (delete array (ies_elements ies))
                       ({[array]} ∪ ies_wholeObjects ies) (ies_exprs ies))
        end
  | _ => Ret ies
  end.

Fixpoint add_reads (ies : IndependentElementSet) (reads : list Expr) : outcome IndependentElementSet :=
  match reads with
  | [] => Ret ies
  | re :: reads => ies' ← add_read ies re; add_reads ies' reads
  end.

(** The constructor from an expression. *)
Definition IndependentElementSet__new (e : Expr) : outcome IndependentElementSet :=
  reads ← findReads e true;
  add_reads (mkIES ∅ ∅ [e]) reads.

Definition ies_intersects (a b : IndependentElementSet) : bool :=
  existsb (fun array =>
    bool_decide (array ∈ ies_wholeObjects b) ||
    bool_decide (is_Some (ies_elements b !! array))) (elements (ies_wholeObjects a)) ||
  existsb (fun kv =>
    let '(array, dis) := kv in
    bool_decide (array ∈ ies_wholeObjects b) ||
    match ies_elements b !! array with
    | Some dis2 => DenseSet__intersects dis dis2
    | None => false
    end) (map_to_list (ies_elements a)).

(** The two loops of [add]. *)
Definition add_whole (acc : IndependentElementSet * bool) (array : Array)
    : IndependentElementSet * bool :=
  let '(s, modified) := acc in
  match ies_elements s !! array with
  | Some _ =>
      (mkIES (delete array (ies_elements s)) ({[array]} ∪ ies_wholeObjects s) (ies_exprs s), true)
  | None =>
      if bool_decide (array ∈ ies_wholeObjects s) then acc
      else (mkIES (ies_elements s) ({[array]} ∪ ies_wholeObjects s) (ies_exprs s), true)
  end.

Definition add_elements (acc : IndependentElementSet * bool) (kv : Array * gset Z)
    : IndependentElementSet * bool :=
  let '(s, modified) := acc in
  let '(array, dis) := kv in
  if bool_decide (array ∈ ies_wholeObjects s) then acc
  else
    match ies_elements s !! array with
    | None => (mkIES (<[array := dis]> (ies_elements s)) (ies_wholeObjects s) (ies_exprs s), true)
    | Some dis2 =>
        let '(dis', changed) := DenseSet__add dis2 dis in
        (mkIES (<[array := dis']> (ies_elements s)) (ies_wholeObjects s) (ies_exprs s),
         modified || changed)
    end.

(** The set and whether it was changed by the addition. *)
Definition ies_add (a b : IndependentElementSet) : IndependentElementSet * bool :=
  let a := mkIES (ies_elements a) (ies_wholeObjects a) (ies_exprs a ++ ies_exprs b) in
  let acc := foldl add_whole (a, false) (elements (ies_wholeObjects b)) in
  foldl add_elements acc (map_to_list (ies_elements b)).

(** ** The constraints a query depends on *)

Abbreviation work_item := (Expr * IndependentElementSet)%type.

Fixpoint make_worklist (cs : list Expr) : outcome (list work_item) :=
  match cs with
  | [] => Ret []
  | c :: cs =>
      ies ← IndependentElementSet__new c;
      rest ← make_worklist cs;
      Ret ((c, ies) :: rest)
  end.

(** One pass over the worklist: the closure, the constraints found, the
    worklist of the next pass, and whether the closure stayed as it was. *)
Fixpoint closure_pass (worklist : list work_item) (closure : IndependentElementSet)
    : IndependentElementSet * list Expr * list work_item * bool :=
  match worklist with
  | [] => (closure, [], [], true)
  | it :: worklist =>
      if ies_intersects it.2 closure then
        let '(closure', modified) := ies_add closure it.2 in
        let '(c, result, newWorklist, done) := closure_pass worklist closure' in
        (c, it.1 :: result, newWorklist, negb modified && done)
      else
        let '(c, result, newWorklist, done) := closure_pass worklist closure in
        (c, result, it :: newWorklist, done)
  end.

Fixpoint closure_loop (fuel : nat) (worklist : list work_item) (closure : IndependentElementSet)
    (result : list Expr) : outcome (IndependentElementSet * list Expr) :=
  match fuel with
  | O => Stop OutOfFuel
  | S n =>
      let '(closure', found, newWorklist, done) := closure_pass worklist closure in
      if done : bool then Ret (closure', result ++ found)
      else closure_loop n newWorklist closure' (result ++ found)
  end.

(** Every pass but the last takes a constraint off the worklist. *)
Definition getIndependentConstraints (q : Query) : outcome (IndependentElementSet * list Expr) :=
  eltsClosure ← IndependentElementSet__new (expr q);
  worklist ← make_worklist (constraints q);
  closure_loop (S (length worklist)) worklist eltsClosure [].

(** ** All factors *)

Fixpoint make_factors (es : list Expr) : outcome (list IndependentElementSet) :=
  match es with
  | [] => Ret []
  | e :: es => ies ← IndependentElementSet__new e; rest ← make_factors es; Ret (ies :: rest)
  end.

(** The inner loop: [current] absorbs the factors it intersects. *)
Fixpoint absorb (current : IndependentElementSet) (factors : list IndependentElementSet)
    : IndependentElementSet * list IndependentElementSet * bool :=
  match factors with
  | [] => (current, [], true)
  | compare :: factors =>
      if ies_intersects current compare then
        let '(current', modified) := ies_add current compare in
        let '(c, keep, doneLoop) := absorb current' factors in
        (c, keep, negb modified && doneLoop)
      else
        let '(c, keep, doneLoop) := absorb current factors in
        (c, compare :: keep, doneLoop)
  end.

(** One turn of the outer loop; the queue gets shorter at every step. *)
Fixpoint factor_pass (fuel : nat) (factors : list IndependentElementSet)
    : outcome (list IndependentElementSet * bool) :=
  match fuel with
  | O => Stop OutOfFuel
  | S n =>
      match factors with
      | [] => Ret ([], true)
      | current :: factors =>
          let '(c, keep, doneLoop) := absorb current factors in
          rest ← factor_pass n keep;
          Ret (c :: rest.1, doneLoop && rest.2)
      end
  end.

Fixpoint factor_loop (fuel : nat) (factors : list IndependentElementSet)
    : outcome (list IndependentElementSet) :=
  match fuel with
  | O => Stop OutOfFuel
  | S n =>
      r ← factor_pass (S (length factors)) factors;
      let '(done, doneLoop) := r in
      if doneLoop : bool then Ret done else factor_loop n done
  end.

Section Independent.
Context `{ExprOptions}.

Definition getAllIndependentConstraintsSets (q : Query) : outcome (list IndependentElementSet) :=
  first ← match expr q with
          | Constant CE => _ ← assertM (isFalse CE); Ret []
          | _ => neg ← Expr__createIsZero (expr q); ies ← IndependentElementSet__new neg; Ret [ies]
          end;
  rest ← make_factors (constraints q);
  factor_loop (S (length (first ++ rest))) (first ++ rest).

(** The arrays of a factor, in the order of their addresses. *)
Definition array_le (a b : Array) : Prop := aaddr a <= aaddr b.

#[export] Instance array_le_dec a b : Decision (array_le a b).
Proof. unfold array_le. apply _. Defined.

Definition calculateArrayReferences (ie : IndependentElementSet) : list Array :=
  merge_sort array_le
    (elements (dom (ies_elements ie) ∪ ies_wholeObjects ie : gset Array)).

(** ** The solver *)

Section Methods.
Context {S : Type} `{Solver S}.

Definition IndependentSolver__computeValidity (q : Query) : SM S Validity.t :=
  r ← lift (getIndependentConstraints q);
  computeValidity (mkQuery r.2 (expr q)).

Definition IndependentSolver__computeTruth (q : Query) : SM S bool :=
  r ← lift (getIndependentConstraints q);
  computeTruth (mkQuery r.2 (expr q)).

Definition IndependentSolver__computeValue (q : Query) : SM S Expr :=
  r ← lift (getIndependentConstraints q);
  computeValue (mkQuery r.2 (expr q)).

(** [retMap]: the bytes found so far, by the address of the array. *)

(** [( *tempPtr)[index] = tempValues[i][index]] for the positions of a set. *)
Fixpoint copy_positions (indices : list Z) (src dst : list Z) : outcome (list Z) :=
  match indices with
  | [] => Ret dst
  | index :: indices =>
      b ← of_option MemError (src !! Z.to_nat index);
      _ ← of_option MemError (dst !! Z.to_nat index);
      copy_positions indices src (<[Z.to_nat index := b]> dst)
  end.

Fixpoint merge_values (ie : IndependentElementSet) (arrays : list Array)
    (tempValues : list (list Z)) (retMap : bindings_ty) : outcome bindings_ty :=
  match arrays, tempValues with
  | array :: arrays, values :: tempValues =>
      retMap' ←
        match retMap !! aaddr array with
        | Some tempPtr =>
            _ ← assertM (length tempPtr =? length values)%nat;
            dst ← copy_positions (elements (default ∅ (ies_elements ie !! array))) values tempPtr;
            Ret (<[aaddr array := dst]> retMap)
        | None => Ret (<[aaddr array := values]> retMap)
        end;
      merge_values ie arrays tempValues retMap'
  | [], [] => Ret retMap
  | _, _ => Stop AssertFail
  end.

(** The loop over the factors: the merged bytes, or [None] when a factor has
    no solution. *)
Fixpoint solve_factors (factors : list IndependentElementSet) (retMap : bindings_ty)
    : SM S (option bindings_ty) :=
  match factors with
  | [] => mret (Some retMap)
  | it :: factors =>
      let arraysInFactor := calculateArrayReferences it in
      _ ← lift (assertM (1 <=? length (ies_exprs it))%nat);
      if (length arraysInFactor =? 0)%nat then solve_factors factors retMap
      else
        r ← computeInitialValues (mkQuery (ies_exprs it) (Constant (ConstantExpr__alloc 0 1)))
              arraysInFactor;
        match r with
        | None => mret None
        | Some tempValues =>
            retMap' ← lift (merge_values it arraysInFactor tempValues retMap);
            solve_factors factors retMap'
        end
  end.

(** [bindings.insert(retMap.begin(), retMap.end())] keeps what is bound. *)
Definition add_bindings (a : Assignment) (retMap : bindings_ty) : Assignment :=
  mkAssignment (allowFreeValues a) (bindings a ∪ retMap).

Fixpoint check_constraints (assign : Assignment) (cs : list Expr) : outcome bool :=
  match cs with
  | [] => Ret true
  | constraint :: cs =>
      ret ← visit assign constraint;
      match ret with
      | Constant c => if isFalse c then Ret false else check_constraints assign cs
      | _ => Stop AssertFail
      end
  end.

Definition assertCreatedPointEvaluatesToTrue (q : Query) (objects : list Array)
    (values : list (list Z)) (retMap : bindings_ty) : outcome bool :=
  let assign := add_bindings (Assignment__new objects values true) retMap in
  b ← check_constraints assign (constraints q);
  if b : bool then
    neg ← Expr__createIsZero (expr q);
    v ← visit assign neg;
    match v with
    | Constant c => Ret (isTrue c)
    | _ => Stop AssertFail
    end
  else Ret false.

Definition IndependentSolver__computeInitialValues (q : Query) (objects : list Array)
    : SM S (option (list (list Z))) :=
  factors ← lift (getAllIndependentConstraintsSets q);
  r ← solve_factors factors ∅;
  match r with
  | None => mret None
  | Some retMap =>
      let values := map (fun arr => match retMap !! aaddr arr with
                                    | Some bytes => bytes
                                    | None => replicate (Z.to_nat (asize arr)) 0
                                    end) objects in
      _ ← lift (ok ← assertCreatedPointEvaluatesToTrue q objects values retMap; assertM ok);
      mret (Some values)
  end.

End Methods.

(** The solver has no state of its own. *)
Record IndependentSolver (S : Type) : Type := mkIndependent { independent_solver : S }.
Arguments mkIndependent {_} _.
Arguments independent_solver {_} _.

Definition independent_below {S A} : SM S A -> SM (IndependentSolver S) A :=
  zoom independent_solver (fun s _ => mkIndependent s).

#[export] Instance IndependentSolver_solver {S} `{Solver S} : Solver (IndependentSolver S) := {
  computeTruth q := independent_below (IndependentSolver__computeTruth q);
  computeValidity q := independent_below (IndependentSolver__computeValidity q);
  computeValue q := independent_below (IndependentSolver__computeValue q);
  computeInitialValues q objects := independent_below (IndependentSolver__computeInitialValues q objects)
}.

End Independent.

Arguments mkIndependent {_} _.
Arguments independent_solver {_} _.
