(* ===== verification/SolverIndependentSpec.v ===== *)
(** * Independence of constraints: correctness

    The position sets of [SolverIndependent] cover what expressions read; the
    closure and the factors end, and leave apart only what shares no position.
    Two assignments can then be put together, so the truth, the validity and
    the values of a query under the constraints it depends on are those under
    all of them, and the solutions of the factors make one of the query. *)

From stdpp Require Import sorting.
From S2P Require Import Prelude ExprData ExprCreate ExprSem ExprBool ExprArith ExprBits ExprSpec ExprOrder ExprHeap ExprEval ExprReads Solver SolverStaged SolverCexCaching SolverIndependent.

(** ** Sets *)

Lemma DenseSet__add_ok s b :
  (DenseSet__add s b).1 = s ∪ b /\ ((DenseSet__add s b).2 = false -> b ⊆ s).
Proof.
  unfold DenseSet__add.
  assert (Hg : forall (l : list Z) (s : gset Z) (m : bool),
    let r := foldl (fun acc x => let '(s, modified) := acc in
      if modified || negb (bool_decide (x ∈ s)) then ({[x]} ∪ s, true) else acc) (s, m) l in
    r.1 = s ∪ list_to_set l /\ (r.2 = false -> m = false /\ forall x, x ∈ l -> x ∈ s)).
  { induction l as [|x l IH]; intros s' m; simpl; [split; [set_solver|]; intros ->; set_solver|].
    destruct m; simpl.
    - destruct (IH ({[x]} ∪ s') true) as [-> Hf]. split; [set_solver|]. intros Hr. by destruct (Hf Hr).
    - case_bool_decide as Hx; simpl.
      + destruct (IH s' false) as [-> Hf]. split; [set_solver|]. intros Hr. destruct (Hf Hr). set_solver.
      + destruct (IH ({[x]} ∪ s') true) as [-> Hf]. split; [set_solver|]. intros Hr. by destruct (Hf Hr). }
  destruct (Hg (elements b) s false) as [-> Hf]. split.
  - by rewrite list_to_set_elements_L.
  - intros Hr. destruct (Hf Hr) as [_ Hin]. intros x Hx. apply Hin. by apply elem_of_elements.
Qed.

Lemma DenseSet__intersects_false s b x :
  DenseSet__intersects s b = false -> x ∈ s -> x ∈ b -> False.
Proof.
  unfold DenseSet__intersects. intros Hf Hs Hb.
  assert (Ht : existsb (fun x => bool_decide (x ∈ b)) (elements s) = true); [|congruence].
  apply existsb_exists. exists x. split; [by apply list_elem_of_In, elem_of_elements|].
  by apply bool_decide_eq_true.
Qed.

(** The positions a set stands for, and its arrays. *)
Definition in_ies (s : IndependentElementSet) (a : Array) (i : Z) : Prop :=
  a ∈ ies_wholeObjects s \/ exists d, ies_elements s !! a = Some d /\ i ∈ d.

#[export] Instance in_ies_dec s a i : Decision (in_ies s a i).
Proof.
  unfold in_ies. destruct (ies_elements s !! a) as [d|].
  - destruct (decide (a ∈ ies_wholeObjects s \/ i ∈ d)) as [Hd|Hd]; [left|right]; naive_solver.
  - destruct (decide (a ∈ ies_wholeObjects s)) as [Hd|Hd]; [left|right]; naive_solver.
Defined.

Definition ies_array (s : IndependentElementSet) (a : Array) : Prop :=
  a ∈ ies_wholeObjects s \/ is_Some (ies_elements s !! a).

(** The same positions, whatever the expressions. *)
Definition same_cells (s t : IndependentElementSet) : Prop :=
  ies_elements s = ies_elements t /\ ies_wholeObjects s = ies_wholeObjects t.

Lemma same_cells_in s t a i : same_cells s t -> in_ies s a i <-> in_ies t a i.
Proof. intros [He Hw]. unfold in_ies. by rewrite He, Hw. Qed.

Lemma in_ies_array s a i : in_ies s a i -> ies_array s a.
Proof. intros [|(d & Hd & _)]; [by left|]. right. by exists d. Qed.

Lemma ies_intersects_same s s' t t' :
  same_cells s s' -> same_cells t t' -> ies_intersects s t = ies_intersects s' t'.
Proof. intros [He Hw] [He' Hw']. unfold ies_intersects. by rewrite He, Hw, He', Hw'. Qed.

(** Sets that do not intersect share no position, and an array that one has
    as a whole is not in the other. *)
Lemma ies_intersects_false s t :
  ies_intersects s t = false ->
  (forall a i, in_ies s a i -> in_ies t a i -> False) /\
  (forall a, a ∈ ies_wholeObjects s -> ies_array t a -> False) /\
  (forall a, a ∈ ies_wholeObjects t -> ies_array s a -> False).
Proof.
  unfold ies_intersects. rewrite orb_false_iff. intros [H1 H2].
  assert (Hw : forall a, a ∈ ies_wholeObjects s -> ies_array t a -> False).
  { intros a Ha Ht.
    match type of H1 with ?x = false => assert (Hx : x = true); [|congruence] end.
    apply existsb_exists. exists a. split; [by apply list_elem_of_In, elem_of_elements|].
    apply orb_true_iff. rewrite !bool_decide_eq_true. exact Ht. }
  assert (He : forall a d, ies_elements s !! a = Some d ->
    (a ∉ ies_wholeObjects t) /\ forall d2, ies_elements t !! a = Some d2 -> DenseSet__intersects d d2 = false).
  { intros a d Ha. apply not_true_iff_false in H2. rewrite existsb_exists in H2.
    assert (Hin : In (a, d) (map_to_list (ies_elements s))).
    { apply list_elem_of_In. by apply elem_of_map_to_list. }
    split.
    - intros Hwt. apply H2. exists (a, d). split; [done|]. apply orb_true_iff. left.
      by apply bool_decide_eq_true.
    - intros d2 Hd2. destruct (DenseSet__intersects d d2) eqn:E; [|done]. exfalso. apply H2.
      exists (a, d). split; [done|]. rewrite Hd2, E. apply orb_true_r. }
  split_and!; [|done|].
  - intros a i [Ha|(d & Ha & Hi)] Ht; [by eapply Hw; [|by eapply in_ies_array]|].
    destruct (He a d Ha) as [Hnw Hd]. destruct Ht as [Ht|(d2 & Ha2 & Hi2)]; [done|].
    by eapply DenseSet__intersects_false; [by apply Hd| |].
  - intros a Ha [Hs|[d Hd]]; [by eapply Hw; [|left]|]. by destruct (He a d Hd).
Qed.

(** ** The set of an expression *)

(** Growing: positions are kept, and arrays come from a given source. *)
Definition grows (P : Array -> Prop) (s t : IndependentElementSet) : Prop :=
  (forall a i, in_ies s a i -> in_ies t a i) /\
  (forall a, ies_array t a -> ies_array s a \/ P a) /\
  (forall a, ies_array s a -> ies_array t a).

Lemma grows_refl P s : grows P s s.
Proof. split_and!; auto. Qed.

Lemma grows_trans P s t r : grows P s t -> grows P t r -> grows P s r.
Proof. intros (A1 & A2 & A3) (B1 & B2 & B3). split_and!; auto. intros a Ha. destruct (B2 a Ha); auto. Qed.

(** A position is added to the elements of an array. *)
Lemma grows_insert P s a d :
  P a -> (forall d', ies_elements s !! a = Some d' -> d' ⊆ d) ->
  grows P s (mkIES (<[a := d]> (ies_elements s)) (ies_wholeObjects s) (ies_exprs s)).
Proof.
  intros HP Hd. split_and!.
  - intros b i [Hb|(d' & Hb & Hi)]; [by left|]. right. simpl.
    destruct (decide (a = b)) as [->|Hne].
    + exists d. rewrite lookup_insert_eq. split; [done|]. by apply (Hd d').
    + exists d'. by rewrite lookup_insert_ne.
  - intros b [Hb|Hb]; simpl in *; [by left; left|].
    destruct (decide (a = b)) as [->|Hne]; [by right|]. rewrite lookup_insert_ne in Hb by done.
    left. by right.
  - intros b [Hb|Hb]; [by left|]. right. simpl. apply lookup_insert_is_Some'. by right.
Qed.

(** An array becomes a whole object. *)
Lemma grows_whole P s a :
  P a -> grows P s (mkIES (delete a (ies_elements s)) ({[a]} ∪ ies_wholeObjects s) (ies_exprs s)) /\
         grows P s (mkIES (ies_elements s) ({[a]} ∪ ies_wholeObjects s) (ies_exprs s)).
Proof.
  intros HP. unfold grows, in_ies, ies_array. simpl. split; split_and!; intros b.
  - intros i [Hb|(d & Hb & Hi)]; [left; set_solver|]. destruct (decide (a = b)) as [->|]; [left; set_solver|].
    right. exists d. by rewrite lookup_delete_ne.
  - intros [Hb|Hb]; [set_solver|]. apply lookup_delete_is_Some in Hb as [_ Hb]. left. by right.
  - intros [Hb|Hb]; [left; set_solver|]. destruct (decide (a = b)) as [->|]; [left; set_solver|].
    right. by rewrite lookup_delete_ne.
  - intros i [Hb|Hb]; [left; set_solver|]. by right.
  - intros [Hb|Hb]; [set_solver|]. left. by right.
  - intros [Hb|Hb]; [left; set_solver|]. by right.
Qed.

Section Reads.
Context `{Universe}.

(** The array of a read that the constructor looks at. *)
Definition tracked_read (a : Array) (r : Expr) : Prop :=
  exists u i, r = Read a u i /\ ~ (isConstantArray a = true /\ u = NoUpdate).

(** The positions of a set are within their arrays. *)
Definition in_range (s : IndependentElementSet) : Prop :=
  forall a d i, ies_elements s !! a = Some d -> i ∈ d -> 0 <= i < asize a.

(** A read with a constant index stays inside its array. *)
Definition ranged_read (r : Expr) : Prop :=
  match r with Read a _ (Constant c) => cvalue c < asize a | _ => True end.

(** What adding a read to a set gives. *)
Record read_added (r : Expr) (s t : IndependentElementSet) : Prop := {
  ra_exprs : ies_exprs t = ies_exprs s;
  ra_range : in_range s -> ranged_read r -> in_range t;
  ra_grows : grows (fun a => tracked_read a r) s t;
  ra_covered : cell_covered (in_ies t) r;
  ra_tracked : forall a, tracked_read a r -> ies_array t a
}.

(** A read that needs no new position. *)
Lemma read_added_same s r :
  cell_covered (in_ies s) r -> (forall a, tracked_read a r -> ies_array s a) -> read_added r s s.
Proof. intros. split; auto using grows_refl. Qed.

Lemma tracked_read_only a b u i : tracked_read b (Read a u i) -> b = a.
Proof. by intros (? & ? & [= -> -> ->] & _). Qed.

Lemma add_read_ok s r :
  wf r -> built heap r -> exists t, add_read s r = Ret t /\ read_added r s t.
Proof.
  intros Hwf Hb. unfold add_read.
  destruct r as [| |a u i| | | | | | |];
    try (exists s; split; [done|]; apply read_added_same; [done|]; by intros ? (? & ? & ? & _)).
  destruct (isConstantArray a && bool_decide (u = NoUpdate)) eqn:Ec.
  { exists s. apply andb_true_iff in Ec as [Hc Hu]. apply bool_decide_eq_true in Hu.
    split; [done|]. apply read_added_same; [by left|]. intros ? (? & ? & [= -> -> ->] & Hn). tauto. }
  assert (HP : tracked_read a (Read a u i)).
  { exists u, i. split; [done|]. intros [Hc Hu]. by rewrite Hc, bool_decide_eq_true_2 in Ec. }
  destruct (bool_decide (a ∈ ies_wholeObjects s)) eqn:Hw.
  { apply bool_decide_eq_true in Hw. exists s. split; [done|]. apply read_added_same.
    - right. destruct i; intros; by left.
    - intros b ->%tracked_read_only. by left. }
  assert (Hwhole : exists t, Ret (mkIES (delete a (ies_elements s)) ({[a]} ∪ ies_wholeObjects s)
    (ies_exprs s)) = Ret t /\ read_added (Read a u i) s t).
  { eexists. split; [done|]. split; simpl; auto.
    - intros Hin _ b d j Hd. simpl in Hd. apply lookup_delete_Some in Hd as [_ Hd]. by apply Hin.
    - by apply (proj1 (grows_whole (fun b => tracked_read b (Read a u i)) s a HP)).
    - right. destruct i; intros; left; simpl; set_solver.
    - intros b ->%tracked_read_only. left. simpl. set_solver. }
  destruct Hwf as (_ & _ & Hwi & Hd). destruct Hb as (Hh & _ & _).
  destruct i as [c| | | | | | | | |]; try exact Hwhole. clear Hwhole.
  assert (Hdom : adomain a = 32) by (rewrite <- Hh; apply heap_shape).
  simpl in Hd. rewrite Hd, Hdom. cbn [Z.leb Z.compare Pos.compare Pos.compare_cont assertM mbind outcome_bind].
  destruct Hwi as [_ [Hc0 Hc1]]. rewrite Hd, Hdom in Hc1. unfold u32. rewrite wrapU_small by done.
  set (dis := default ∅ (ies_elements s !! a)).
  eexists. split; [done|]. split; simpl; auto.
  - intros Hin Hrange b d j Hl Hj. simpl in Hl.
    apply lookup_insert_Some in Hl as [[<- <-]|[_ Hl]]; [|by eapply Hin].
    apply elem_of_union in Hj as [->%elem_of_singleton|Hj]; [done|].
    unfold dis in Hj. destruct (ies_elements s !! a) eqn:El; [|set_solver]. by eapply Hin.
  - apply (grows_insert (fun b => tracked_read b _) s a); [done|]. intros d' Hd'. unfold dis.
    rewrite Hd'. simpl. set_solver.
  - right. right. exists ({[cvalue c]} ∪ dis). simpl. rewrite lookup_insert_eq. split; [done|]. set_solver.
  - intros b ->%tracked_read_only. right. simpl. by rewrite lookup_insert_eq.
Qed.

Lemma cell_covered_mono (W W' : Array -> Z -> Prop) r :
  (forall a i, W a i -> W' a i) -> cell_covered W r -> cell_covered W' r.
Proof. intros HW. destruct r as [| |a u i| | | | | | |]; simpl; auto. intros [|Hc]; [by left|]. right. destruct i; auto. Qed.

Lemma grows_mono (P Q : Array -> Prop) s t : (forall a, P a -> Q a) -> grows P s t -> grows Q s t.
Proof. intros HPQ (A1 & A2 & A3). split_and!; auto. intros a Ha. destruct (A2 a Ha); auto. Qed.

Lemma add_reads_ok rs : forall s,
  Forall (fun r => wf r /\ built heap r) rs ->
  exists t, add_reads s rs = Ret t /\ ies_exprs t = ies_exprs s /\
    (in_range s -> Forall ranged_read rs -> in_range t) /\
    grows (fun a => exists r, r ∈ rs /\ tracked_read a r) s t /\
    (forall r, r ∈ rs -> cell_covered (in_ies t) r /\ forall a, tracked_read a r -> ies_array t a).
Proof.
  induction rs as [|r rs IH]; intros s Hrs; simpl.
  { exists s. split_and!; auto using grows_refl. set_solver. }
  apply Forall_cons in Hrs as [[Hwf Hb] Hrs].
  destruct (add_read_ok s r Hwf Hb) as (s1 & -> & [E1 Hr1 Hg1 Hc1 Ht1]). cbn [mbind outcome_bind].
  destruct (IH s1 Hrs) as (t & -> & E2 & Hr2 & Hg2 & Hall). exists t. split; [done|].
  pose proof Hg2 as (Hin2 & _ & Harr2). split_and!.
  - congruence.
  - intros Hin [Hr Hrest]%Forall_cons. auto.
  - eapply grows_trans; (eapply grows_mono; [|done]); simpl; set_solver.
  - intros x [->|Hx]%elem_of_cons; [|by apply Hall]. split; [|auto].
    eapply cell_covered_mono; [|done]. auto.
Qed.

(** The set of an expression covers it. *)
Definition tracked (e : Expr) (a : Array) : Prop := exists r, r ∈ nodes e /\ tracked_read a r.
Definition ranged (e : Expr) : Prop := Forall ranged_read (nodes e).

Record ies_of (es : list Expr) (s : IndependentElementSet) : Prop := {
  io_exprs : ies_exprs s = es;
  io_covers : forall e, e ∈ es -> covers (in_ies s) e;
  io_arrays : forall a, ies_array s a -> exists e, e ∈ es /\ tracked e a;
  io_tracked : forall e a, e ∈ es -> tracked e a -> ies_array s a;
  io_range : Forall ranged es -> in_range s
}.

Lemma IndependentElementSet__new_ok e :
  wf e -> built heap e -> exists s, IndependentElementSet__new e = Ret s /\ ies_of [e] s.
Proof.
  intros Hwf Hb. destruct (findReads_ok e) as (rs & E & Hrs). unfold IndependentElementSet__new.
  rewrite E. cbn [mbind outcome_bind].
  destruct (add_reads_ok rs (mkIES ∅ ∅ [e])) as (s & -> & Hex & Hrange & (_ & Harr & _) & Hall).
  { apply Forall_forall. intros r [Hr _]%Hrs. split; [by apply (wf_nodes e)|by apply (built_nodes heap e)]. }
  exists s. split; [done|]. split.
  - done.
  - intros e' ->%list_elem_of_singleton r Hr. destruct (is_read r) eqn:Er; [|by destruct r].
    by apply Hall, Hrs.
  - intros a Ha. exists e. split; [set_solver|]. destruct (Harr a Ha) as [[?|[? ?]]|(r & Hr & Ht)].
    + set_solver.
    + simpl in *. by rewrite lookup_empty in *.
    + exists r. split; [by apply Hrs|done].
  - intros e' a ->%list_elem_of_singleton (r & Hr & Ht). apply (Hall r); [|done]. apply Hrs.
    split; [done|]. by destruct Ht as (? & ? & -> & _).
  - intros [Hr _]%Forall_cons. apply Hrange.
    + intros a d i Hl. simpl in Hl. by rewrite lookup_empty in Hl.
    + apply Forall_forall. intros r Hin. unfold ranged in Hr. rewrite Forall_forall in Hr.
      by apply Hr, Hrs.
Qed.

(** ** The union of two sets *)

(** What the steps of [add] do, [R] being that the positions added are inside
    their arrays. *)
Record added (P : Array -> Prop) (R : Prop) (acc acc' : IndependentElementSet * bool) : Prop := {
  ad_grows : grows P acc.1 acc'.1;
  ad_exprs : ies_exprs acc'.1 = ies_exprs acc.1;
  ad_whole : ies_wholeObjects acc.1 ⊆ ies_wholeObjects acc'.1;
  ad_same : acc'.2 = false -> acc.2 = false /\ same_cells acc'.1 acc.1;
  ad_range : R -> in_range acc.1 -> in_range acc'.1
}.

Lemma added_refl P R acc : added P R acc acc.
Proof. split; auto using grows_refl. intros. by split. Qed.

Lemma added_trans P R a b c : added P R a b -> added P R b c -> added P R a c.
Proof.
  intros [G1 E1 W1 S1 R1] [G2 E2 W2 S2 R2]. split; eauto using grows_trans.
  - congruence.
  - etrans; eauto.
  - intros Hc. destruct (S2 Hc) as [Hb [? ?]]. destruct (S1 Hb) as [Ha [? ?]].
    split; [done|]. split; congruence.
Qed.

(** A property of every element of a fold. *)
Lemma foldl_added {A} (f : IndependentElementSet * bool -> A -> IndependentElementSet * bool)
    P (R : Prop) (Q : A -> IndependentElementSet -> Prop) l : forall acc,
  (forall acc x, x ∈ l -> added P R acc (f acc x) /\ Q x (f acc x).1) ->
  (forall x s t, Q x s -> grows P s t -> ies_wholeObjects s ⊆ ies_wholeObjects t -> Q x t) ->
  added P R acc (foldl f acc l) /\ forall x, x ∈ l -> Q x (foldl f acc l).1.
Proof.
  induction l as [|x l IH]; intros acc Hf Hmono; simpl; [split; [apply added_refl|set_solver]|].
  destruct (Hf acc x ltac:(left)) as [Ha Hq].
  destruct (IH (f acc x)) as [Hr Hall]; [intros; apply Hf; by right|done|].
  split; [by eapply added_trans|]. intros y [->|Hy]%elem_of_cons; [|auto].
  eapply Hmono; [done|apply Hr|apply Hr].
Qed.

Lemma add_whole_ok P R acc a :
  P a -> added P R acc (add_whole acc a) /\ a ∈ ies_wholeObjects (add_whole acc a).1.
Proof.
  intros HP. destruct acc as [s m]. unfold add_whole.
  destruct (grows_whole P s a HP) as [G1 G2].
  destruct (ies_elements s !! a) eqn:E; [|case_bool_decide; [by split; [apply added_refl|]|]].
  - split; [|simpl; set_solver]. split; simpl; auto; [set_solver|done|].
    intros _ Hin b d j Hd. simpl in Hd. apply lookup_delete_Some in Hd as [_ Hd]. by apply Hin.
  - split; [|simpl; set_solver]. split; simpl; auto; [set_solver|done].
Qed.

Lemma add_elements_ok P (R : Prop) acc a d :
  P a -> (R -> forall i, i ∈ d -> 0 <= i < asize a) ->
  added P R acc (add_elements acc (a, d)) /\
  ies_array (add_elements acc (a, d)).1 a /\
  forall i, i ∈ d -> in_ies (add_elements acc (a, d)).1 a i.
Proof.
  intros HP HR. destruct acc as [s m]. unfold add_elements.
  case_bool_decide as Hw; [split_and!; [apply added_refl|by left|by left]|].
  destruct (ies_elements s !! a) as [d2|] eqn:E.
  - destruct (DenseSet__add_ok d2 d) as [Ed Hch].
    destruct (DenseSet__add d2 d) as [d' ch]. simpl in *. subst d'. split_and!.
    + split; simpl; auto.
      * apply (grows_insert P s a); [done|]. intros d' Hd'. simplify_eq. set_solver.
      * intros [-> Hc]%orb_false_iff. split; [done|]. split; simpl; [|done].
        replace (d2 ∪ d) with d2 by (specialize (Hch Hc); set_solver). by apply insert_id.
      * intros Hr Hin b d' j Hl Hj. simpl in Hl.
        apply lookup_insert_Some in Hl as [[<- <-]|[_ Hl]]; [|by eapply Hin].
        apply elem_of_union in Hj as [Hj|Hj]; [by eapply Hin|by apply HR].
    + right. simpl. by rewrite lookup_insert_eq.
    + intros i Hi. right. exists (d2 ∪ d). simpl. rewrite lookup_insert_eq. split; [done|]. set_solver.
  - split_and!.
    + split; simpl; auto; [|done|].
      * apply (grows_insert P s a); [done|]. intros d' Hd'. congruence.
      * intros Hr Hin b d' j Hl Hj. simpl in Hl.
        apply lookup_insert_Some in Hl as [[<- <-]|[_ Hl]]; [by apply HR|by eapply Hin].
    + right. simpl. by rewrite lookup_insert_eq.
    + intros i Hi. right. exists d. simpl. by rewrite lookup_insert_eq.
Qed.

Lemma covers_mono (W W' : Array -> Z -> Prop) e :
  (forall a i, W a i -> W' a i) -> covers W e -> covers W' e.
Proof. intros HW Hc r Hr. eapply cell_covered_mono; [done|]. by apply Hc. Qed.

Lemma ies_add_ok s t es es' :
  ies_of es s -> ies_of es' t ->
  let r := ies_add s t in
  ies_of (es ++ es') r.1 /\ (r.2 = false -> same_cells r.1 s) /\
  (forall a i, in_ies s a i -> in_ies r.1 a i) /\ (forall a i, in_ies t a i -> in_ies r.1 a i).
Proof.
  intros Hs Ht. unfold ies_add.
  set (s0 := mkIES (ies_elements s) (ies_wholeObjects s) (ies_exprs s ++ ies_exprs t)).
  destruct (foldl_added add_whole (ies_array t) (in_range t)
    (fun a s => a ∈ ies_wholeObjects s) (elements (ies_wholeObjects t)) (s0, false)) as [A1 W1].
  { intros acc a Ha. apply add_whole_ok. left. by apply elem_of_elements. }
  { intros a x y Hx _ Hsub. by apply Hsub. }
  set (acc1 := foldl add_whole (s0, false) _) in *.
  destruct (foldl_added add_elements (ies_array t) (in_range t)
    (fun kv s => ies_array s kv.1 /\ forall i, i ∈ kv.2 -> in_ies s kv.1 i) (map_to_list (ies_elements t)) acc1) as [A2 E2].
  { intros acc [a d] Hkv. apply elem_of_map_to_list in Hkv. apply add_elements_ok; [by right; exists d|].
    intros Hr i Hi. by apply (Hr a d). }
  { intros [a d] x y [Hx1 Hx2] (Hin & _ & Harr) _. split; auto. }
  set (acc2 := foldl add_elements acc1 _) in *.
  destruct (added_trans _ _ _ _ _ A1 A2) as [(Gin & Garr & Garr') Ex Wh Sm Rg]. simpl in *.
  assert (Hst : forall a i, in_ies t a i -> in_ies acc2.1 a i).
  { intros a i [Ha|(d & Ha & Hi)].
    - left. apply A2. apply W1. by apply elem_of_elements.
    - apply (E2 (a, d)); [by apply elem_of_map_to_list|done]. }
  assert (Hst' : forall a, ies_array t a -> ies_array acc2.1 a).
  { intros a [Ha|[d Hd]].
    - left. apply A2. apply W1. by apply elem_of_elements.
    - apply (E2 (a, d)). by apply elem_of_map_to_list. }
  split_and!; [|intros Hm; by apply Sm| |done].
  - split.
    + rewrite Ex. simpl. by rewrite (io_exprs _ _ Hs), (io_exprs _ _ Ht).
    + intros e [He|He]%elem_of_app.
      * eapply covers_mono; [|by apply (io_covers _ _ Hs)]. intros a i Hai. by apply Gin.
      * eapply covers_mono; [|by apply (io_covers _ _ Ht)]. done.
    + intros a Ha. destruct (Garr a Ha) as [Hsa|Hta].
      * destruct (io_arrays _ _ Hs a Hsa) as (e & He & Htr). exists e. set_solver.
      * destruct (io_arrays _ _ Ht a Hta) as (e & He & Htr). exists e. set_solver.
    + intros e a [He|He]%elem_of_app Htr.
      * apply Garr'. by apply (io_tracked _ _ Hs e).
      * apply Hst'. by apply (io_tracked _ _ Ht e).
    + intros [Hr1 Hr2]%Forall_app. apply Rg; [by apply (io_range _ _ Ht)|].
      by apply (io_range _ _ Hs).
  - intros a i Hai. by apply Gin.
Qed.

(** ** The closure of a query *)

Definition item_ok (it : work_item) : Prop := ies_of [it.1] it.2.

Lemma make_worklist_ok cs :
  Forall (fun c => wf c /\ built heap c) cs ->
  exists wl, make_worklist cs = Ret wl /\ map fst wl = cs /\ Forall item_ok wl.
Proof.
  induction 1 as [|c cs [Hwf Hb] _ (wl & E & Hm & Hok)]; simpl; [by exists []|].
  destruct (IndependentElementSet__new_ok c Hwf Hb) as (s & -> & Hs). cbn [mbind outcome_bind].
  rewrite E. cbn [mbind outcome_bind]. exists ((c, s) :: wl). split; [done|].
  split; [simpl; congruence|]. by constructor.
Qed.

(** What is left on the worklist when the closure is [c]. *)
Record pass_ok (worklist : list work_item) (es : list Expr) (closure : IndependentElementSet)
    (c : IndependentElementSet) (found : list Expr) (rest : list work_item) (done : bool) : Prop := {
  po_ies : ies_of (es ++ found) c;
  po_perm : found ++ map fst rest ≡ₚ map fst worklist;
  po_items : Forall item_ok rest;
  po_done : done = true ->
    same_cells c closure /\ Forall (fun it => ies_intersects it.2 c = false) rest;
  po_shrinks : done = false -> (length rest < length worklist)%nat;
  po_length : (length rest <= length worklist)%nat
}.

Lemma closure_pass_ok worklist : forall closure es,
  Forall item_ok worklist -> ies_of es closure ->
  let '(c, found, rest, done) := closure_pass worklist closure in
  pass_ok worklist es closure c found rest done.
Proof.
  induction worklist as [|it wl IH]; intros closure es Hwl Hc; simpl.
  { split; simpl; auto; try done. by rewrite app_nil_r. }
  apply Forall_cons in Hwl as [Hit Hwl].
  destruct (ies_intersects it.2 closure) eqn:Ei.
  - destruct (ies_add_ok closure it.2 es [it.1] Hc Hit) as (Hadd & Hsame & _ & _).
    destruct (ies_add closure it.2) as [closure' m]. simpl in *.
    specialize (IH closure' (es ++ [it.1]) Hwl Hadd).
    destruct (closure_pass wl closure') as [[[c found] rest] done].
    destruct IH as [H1 H2 H3 H4 H5 H6]. split; simpl.
    + by rewrite <- app_assoc in H1.
    + by rewrite H2.
    + done.
    + intros [Hm Hd]%andb_true_iff. apply negb_true_iff in Hm. destruct (H4 Hd) as [[S1 S2] Hni].
      destruct (Hsame Hm) as [S3 S4]. split; [split; congruence|done].
    + lia.
    + lia.
  - specialize (IH closure es Hwl Hc). destruct (closure_pass wl closure) as [[[c found] rest] done].
    destruct IH as [H1 H2 H3 H4 H5 H6]. split; simpl.
    + done.
    + rewrite <- H2. symmetry. apply Permutation_middle.
    + by constructor.
    + intros Hd. destruct (H4 Hd) as [Hs Hni]. split; [done|]. constructor; [|done].
      rewrite (ies_intersects_same _ it.2 _ closure); [done|by split|done].
    + intros Hd. specialize (H5 Hd). lia.
    + lia.
Qed.

Lemma closure_loop_ok fuel : forall worklist closure es result,
  Forall item_ok worklist -> ies_of es closure -> (length worklist < fuel)%nat ->
  exists c found rest, closure_loop fuel worklist closure result = Ret (c, result ++ found) /\
    ies_of (es ++ found) c /\ found ++ map fst rest ≡ₚ map fst worklist /\
    Forall item_ok rest /\ Forall (fun it => ies_intersects it.2 c = false) rest.
Proof.
  induction fuel as [|n IH]; intros worklist closure es result Hwl Hc Hf; [lia|]. cbn [closure_loop].
  pose proof (closure_pass_ok worklist closure es Hwl Hc) as Hp.
  destruct (closure_pass worklist closure) as [[[c found] rest] done].
  destruct Hp as [H1 H2 H3 H4 H5 H6]. destruct done.
  - exists c, found, rest. split_and!; auto. by apply H4.
  - specialize (H5 eq_refl).
    destruct (IH rest c (es ++ found) (result ++ found) H3 H1 ltac:(lia))
      as (c' & found' & rest' & E & A1 & A2 & A3 & A4).
    exists c', (found ++ found'), rest'. rewrite E. split_and!; auto.
    + by rewrite app_assoc.
    + by rewrite app_assoc.
    + rewrite <- H2, <- A2. by rewrite app_assoc.
Qed.

End Reads.

(** ** Two assignments put together *)

Section Merge.
Context `{ExprOptions} `{DivByZero} `{Universe}.

(** One assignment on the positions of a set, another elsewhere. *)
Definition mix (c : IndependentElementSet) (rho rho' : assignment) : assignment :=
  fun a i => if decide (in_ies c a i) then rho a i else rho' a i.

Lemma mix_domain c rho rho' : in_domain rho -> in_domain rho' -> in_domain (mix c rho rho').
Proof. intros Hr Hr' a i Ha Hi. unfold mix. case_decide; auto. Qed.

Lemma domain_beyond rho a i : in_domain rho -> known a -> asize a <= i -> rho a i = 0.
Proof.
  intros Hr Ha Hi. pose proof (heap_shape (aaddr a)) as (_ & _ & Hsz). rewrite Ha in Hsz.
  apply Hr; [done|lia|]. destruct (free a i) eqn:Ef; [|done]. apply free_range in Ef. lia.
Qed.

(** Assignments of the domain that agree on the positions of an expression. *)
Lemma eval_agree W rho rho' e :
  good e -> covers W e -> in_domain rho -> in_domain rho' ->
  (forall a i, known a -> 0 <= i -> W a i -> rho a i = rho' a i) -> eval rho e = eval rho' e.
Proof.
  intros [Hwf Hb _] Hc Hr Hr' Hag. apply (eval_frame heap W); auto.
  - intros a i Ha Hca Hi. by rewrite !domain_beyond.
  - by apply built_in_heap.
Qed.

Lemma tame_agree W rho rho' e :
  good e -> covers W e -> in_domain rho -> in_domain rho' ->
  (forall a i, known a -> 0 <= i -> W a i -> rho a i = rho' a i) -> tame rho e -> tame rho' e.
Proof.
  intros [Hwf Hb _] Hc Hr Hr' Hag. rewrite !tame_nodes. intros Ht x Hx. specialize (Ht x Hx).
  assert (He : forall k, k ∈ below_node x -> eval rho' k = eval rho k).
  { intros k Hk. pose proof (nodes_trans e x k Hx Hk) as Hin. apply (eval_frame heap W); auto.
    - intros a i Ha Hca Hi HW. symmetry. auto.
    - intros a i Ha Hca Hi. by rewrite !domain_beyond.
    - by apply (wf_nodes e).
    - by apply built_in_heap, (built_nodes heap e).
    - intros r Hrk. apply Hc. clear -Hin Hrk. by eapply nodes_nested. }
  destruct x; simpl in *; auto; rewrite He by set_solver; auto.
Qed.

Lemma mix_left c rho rho' e :
  good e -> covers (in_ies c) e -> in_domain rho -> in_domain rho' ->
  eval (mix c rho rho') e = eval rho e.
Proof.
  intros Hg Hc Hr Hr'. apply (eval_agree (in_ies c)); auto using mix_domain.
  intros a i _ _ Hin. unfold mix. by rewrite decide_True.
Qed.

Lemma mix_right c rho rho' e :
  good e -> covers (fun a i => ~ in_ies c a i) e -> in_domain rho -> in_domain rho' ->
  eval (mix c rho rho') e = eval rho' e.
Proof.
  intros Hg Hc Hr Hr'. apply (eval_agree (fun a i => ~ in_ies c a i)); auto using mix_domain.
  intros a i _ _ Hin. unfold mix. by rewrite decide_False.
Qed.

End Merge.

(** ** The required constraints decide the query *)

Section Required.
Context `{ExprOptions} `{DivByZero} `{Universe}.

Definition required (q : Query) (req : list Expr) : Query := mkQuery req (expr q).

Lemma getIndependentConstraints_ok q :
  good_query q ->
  exists c req, getIndependentConstraints q = Ret (c, req) /\ covers (in_ies c) (expr q) /\
    (forall k, k ∈ req -> k ∈ constraints q /\ covers (in_ies c) k) /\
    (forall k, k ∈ constraints q -> k ∈ req \/ covers (fun a i => ~ in_ies c a i) k).
Proof.
  intros [Hcs [Hwf Hb _]]. unfold getIndependentConstraints.
  destruct (IndependentElementSet__new_ok _ Hwf Hb) as (s & -> & Hs). cbn [mbind outcome_bind].
  destruct (make_worklist_ok (constraints q)) as (wl & -> & Hm & Hok).
  { eapply Forall_impl; [exact Hcs|]. by intros c [[]]. }
  cbn [mbind outcome_bind].
  destruct (closure_loop_ok (S (length wl)) wl s [expr q] [] Hok Hs ltac:(lia))
    as (c & found & rest & -> & Hc & Hperm & Hrest & Hni).
  exists c, found. rewrite Hm in Hperm. split_and!; [done| | |].
  - apply (io_covers _ _ Hc). left.
  - intros k Hk. split; [rewrite <- Hperm; set_solver|]. apply (io_covers _ _ Hc). set_solver.
  - intros k Hk. rewrite <- Hperm in Hk. apply elem_of_app in Hk as [Hk|Hk]; [by left|]. right.
    apply list_elem_of_fmap in Hk as (it & -> & Hit). rewrite Forall_forall in Hrest, Hni.
    destruct (ies_intersects_false _ _ (Hni it Hit)) as [Hdis _].
    eapply covers_mono; [|apply (io_covers _ _ (Hrest it Hit)); left].
    intros a i Hin Hin'. eauto.
Qed.

(** Every assignment of the required constraints has a partner that satisfies
    all of them and gives the expression the same value. *)
Definition decides (q : Query) (req : list Expr) : Prop :=
  (forall k, k ∈ req -> k ∈ constraints q) /\
  (forall rho, models rho (required q req) -> feasible q ->
    exists rho', models rho' q /\ eval rho' (expr q) = eval rho (expr q) /\
      (tame rho' (expr q) -> tame rho (expr q))).

Lemma required_decides q :
  good_query q -> exists c req, getIndependentConstraints q = Ret (c, req) /\ decides q req.
Proof.
  intros Hq. destruct (getIndependentConstraints_ok q Hq) as (c & req & E & He & Hreq & Hrest).
  exists c, req. split; [done|]. split; [by apply Hreq|]. intros rho [HD Hm] [rho0 [HD0 Hm0]].
  exists (mix c rho rho0). destruct Hq as [Hcs Hg].
  rewrite Forall_forall in Hm, Hm0. unfold good_constraints in Hcs. rewrite Forall_forall in Hcs.
  split_and!.
  - split; [by apply mix_domain|]. apply Forall_forall. intros k Hk.
    destruct (Hcs k Hk) as [Hgk _]. destruct (Hrest k Hk) as [Hkr|Hkc].
    + rewrite mix_left; auto. by apply Hreq.
    + rewrite mix_right; auto.
  - by apply mix_left.
  - apply (tame_agree (in_ies c)); auto using mix_domain.
    intros a i _ _ Hin. unfold mix. by rewrite decide_True.
Qed.

Lemma required_models q req rho : decides q req -> models rho q -> models rho (required q req).
Proof.
  intros [Hsub _] [HD Hm]. split; [done|]. simpl. rewrite Forall_forall in *. auto.
Qed.

Lemma required_good q req :
  decides q req -> good_query q -> good_query (required q req).
Proof.
  intros [Hsub _] [Hcs Hg]. split; [|done]. simpl. unfold good_constraints in *.
  rewrite Forall_forall in *. auto.
Qed.

Lemma required_feasible q req : decides q req -> feasible q -> feasible (required q req).
Proof. intros Hd [rho Hm]. exists rho. by apply required_models. Qed.

Lemma required_valid q req : decides q req -> feasible q -> valid (required q req) <-> valid q.
Proof.
  intros Hd Hf. split; intros Hv rho Hm.
  - apply (Hv rho). by apply required_models.
  - destruct (proj2 Hd rho Hm Hf) as (rho' & Hm' & Heq & _).
    change (expr (required q req)) with (expr q). rewrite <- Heq. by apply Hv.
Qed.

Lemma required_contradicted q req :
  decides q req -> feasible q -> contradicted (required q req) <-> contradicted q.
Proof.
  intros Hd Hf. split; intros Hv rho Hm.
  - apply (Hv rho). by apply required_models.
  - destruct (proj2 Hd rho Hm Hf) as (rho' & Hm' & Heq & _).
    change (expr (required q req)) with (expr q). rewrite <- Heq. by apply Hv.
Qed.

Lemma required_computable q req :
  decides q req -> feasible q -> computable q (expr q) -> computable (required q req) (expr q).
Proof.
  intros Hd Hf Hc rho Hm. destruct (proj2 Hd rho Hm Hf) as (rho' & Hm' & _ & Ht). auto.
Qed.

Section Methods.
Context {S : Type} `{!Solver S} `{!SolverSpec S}.

Lemma Independent_computeTruth_ok q :
  bool_query q -> feasible q ->
  sat solver_inv solver_fails (IndependentSolver__computeTruth q) (truth_ok q).
Proof.
  intros [Hq Hw] Hf. destruct (required_decides q Hq) as (c & req & E & Hd).
  eapply (sat_bind _ _ (fun r => r = (c, req))); [apply sat_lift; by eexists|]. intros ? ->. simpl.
  eapply sat_conseq; [apply computeTruth_ok|].
  - split; [by apply required_good|done].
  - by apply required_feasible.
  - intros b Hb. unfold truth_ok in *. by rewrite <- (required_valid q req).
Qed.

Lemma Independent_computeValidity_ok q :
  bool_query q -> computable q (expr q) -> feasible q ->
  sat solver_inv solver_fails (IndependentSolver__computeValidity q) (validity_ok q).
Proof.
  intros [Hq Hw] Hc Hf. destruct (required_decides q Hq) as (c & req & E & Hd).
  eapply (sat_bind _ _ (fun r => r = (c, req))); [apply sat_lift; by eexists|]. intros ? ->. simpl.
  eapply sat_conseq; [apply computeValidity_ok|].
  - split; [by apply required_good|done].
  - by apply (required_computable q req).
  - by apply required_feasible.
  - pose proof (required_valid q req Hd Hf) as Hv. pose proof (required_contradicted q req Hd Hf) as Hcn.
    unfold required in *. intros []; simpl; rewrite ?Hv, ?Hcn; done.
Qed.

Lemma Independent_computeValue_ok q :
  good_query q -> computable q (expr q) -> feasible q ->
  sat solver_inv solver_fails (IndependentSolver__computeValue q) (value_ok q).
Proof.
  intros Hq Hc Hf. destruct (required_decides q Hq) as (c & req & E & Hd).
  eapply (sat_bind _ _ (fun r => r = (c, req))); [apply sat_lift; by eexists|]. intros ? ->. simpl.
  eapply sat_conseq; [apply computeValue_ok|].
  - by apply required_good.
  - by apply (required_computable q req).
  - by apply required_feasible.
  - intros e (v & -> & rho & Hm & Hv). simpl in *. exists v. split; [done|].
    destruct (proj2 Hd rho Hm Hf) as (rho' & Hm' & Heq & _). exists rho'. split; [done|]. congruence.
Qed.

End Methods.
End Required.

(** C19: the constraints that are connected to a query by the positions they
    read decide it: the search for them ends, and under them the query is
    valid, contradicted or has a value just when it is, or has, under all the
    constraints. *)
Theorem independent_decides `{ExprOptions} `{DivByZero} `{Universe} q :
  good_query q -> feasible q ->
  exists c req, getIndependentConstraints q = Ret (c, req) /\ req ⊆ constraints q /\
    (valid (mkQuery req (expr q)) <-> valid q) /\
    (contradicted (mkQuery req (expr q)) <-> contradicted q) /\
    (forall v, attains (mkQuery req (expr q)) v <-> attains q v).
Proof.
  intros Hq Hf. destruct (required_decides q Hq) as (c & req & E & Hd). exists c, req.
  split_and!; [done|exact (proj1 Hd)|by apply (required_valid q req)|by apply (required_contradicted q req)|].
  intros v. split; intros (rho & Hm & Hv).
  - destruct (proj2 Hd rho Hm Hf) as (rho' & Hm' & Heq & _). exists rho'. split; [done|]. by rewrite Heq.
  - exists rho. split; [|done]. by apply (required_models q req).
Qed.
