(* ===== verification/SolverIndependentValues.v ===== *)
(** * Independent factors: initial values

    [getAllIndependentConstraintsSets] ends with a partition of the
    constraints (and the negated query) into factors that share no position;
    the solutions of the factors, merged position by position, solve the whole
    query.  With this the independence solver keeps the contract of a
    solver. *)

From stdpp Require Import sorting.
From S2P Require Import Prelude ExprData ExprCreate ExprSem ExprBool ExprArith ExprBits ExprSpec ExprOrder ExprHeap ExprEval ExprReads Solver SolverStaged SolverCexCaching SolverIndependent SolverIndependentSpec.

(** ** The factors *)

Section Factors.
Context `{Universe}.

Record factor_ok (f : IndependentElementSet) : Prop := {
  fo_ies : ies_of (ies_exprs f) f;
  fo_exprs : ies_exprs f <> []
}.

Abbreviation all_exprs fs := (concat (map ies_exprs fs)).
Abbreviation apart := (fun f g => ies_intersects f g = false).

(** What [absorb] leaves. *)
Record absorbed (cur : IndependentElementSet) (fs : list IndependentElementSet)
    (c : IndependentElementSet) (keep : list IndependentElementSet) (done : bool) : Prop := {
  ab_ok : factor_ok c;
  ab_keep : keep ⊆ fs;
  ab_exprs : ies_exprs c ++ all_exprs keep ≡ₚ ies_exprs cur ++ all_exprs fs;
  ab_length : (length keep <= length fs)%nat;
  ab_shrinks : done = false -> (length keep < length fs)%nat;
  ab_done : done = true -> same_cells c cur /\ Forall (apart c) keep
}.

Lemma factor_add f g : factor_ok f -> factor_ok g ->
  factor_ok (ies_add f g).1 /\ ies_exprs (ies_add f g).1 = ies_exprs f ++ ies_exprs g /\
  ((ies_add f g).2 = false -> same_cells (ies_add f g).1 f).
Proof.
  intros [Hf Hne] [Hg _]. destruct (ies_add_ok f g _ _ Hf Hg) as (Hadd & Hsame & _ & _).
  pose proof (io_exprs _ _ Hadd) as E. split_and!; [|done..]. split; rewrite E; [done|].
  intros Hnil. by apply app_nil in Hnil as [? _].
Qed.

Lemma absorb_ok fs : forall cur, factor_ok cur -> Forall factor_ok fs ->
  let '(c, keep, done) := absorb cur fs in absorbed cur fs c keep done.
Proof.
  induction fs as [|g fs IH]; intros cur Hcur Hfs; simpl.
  { split; simpl; auto; try done. }
  apply Forall_cons in Hfs as [Hg Hfs]. destruct (ies_intersects cur g) eqn:Ei.
  - destruct (factor_add cur g Hcur Hg) as (Hadd & Ee & Hsame).
    destruct (ies_add cur g) as [cur' m]. simpl in *. specialize (IH cur' Hadd Hfs).
    destruct (absorb cur' fs) as [[c keep] done]. destruct IH as [H1 H2 H3 H4 H5 H6].
    split; simpl; [done|set_solver| |lia|lia|].
    + by rewrite H3, Ee, app_assoc.
    + intros [Hm Hd]%andb_true_iff. apply negb_true_iff in Hm. destruct (H6 Hd) as [[S1 S2] Hap].
      destruct (Hsame Hm) as [S3 S4]. split; [split; congruence|done].
  - specialize (IH cur Hcur Hfs). destruct (absorb cur fs) as [[c keep] done].
    destruct IH as [H1 H2 H3 H4 H5 H6]. split; simpl; [done|set_solver| |lia| |].
    + rewrite (Permutation_app_swap_app (ies_exprs c)), H3. apply Permutation_app_swap_app.
    + intros Hd. specialize (H5 Hd). lia.
    + intros Hd. destruct (H6 Hd) as [Hs Hap]. split; [done|]. constructor; [|done].
      by rewrite (ies_intersects_same c cur g g).
Qed.

(** What a turn of the outer loop leaves. *)
Record passed (fs result : list IndependentElementSet) (done : bool) : Prop := {
  pa_ok : Forall factor_ok result;
  pa_exprs : all_exprs result ≡ₚ all_exprs fs;
  pa_length : (length result <= length fs)%nat;
  pa_shrinks : done = false -> (length result < length fs)%nat;
  pa_done : done = true ->
    Forall (fun f => exists g, g ∈ fs /\ same_cells f g) result /\ ForallOrdPairs apart result
}.

Lemma factor_pass_ok fuel : forall fs,
  (length fs < fuel)%nat -> Forall factor_ok fs ->
  exists result done, factor_pass fuel fs = Ret (result, done) /\ passed fs result done.
Proof.
  induction fuel as [|n IH]; intros fs Hn Hfs; [lia|]. destruct fs as [|cur fs]; simpl.
  { exists [], true. split; [done|]. split; simpl; auto; try done. intros _. split; constructor. }
  apply Forall_cons in Hfs as [Hcur Hfs]. pose proof (absorb_ok fs cur Hcur Hfs) as Ha.
  destruct (absorb cur fs) as [[c keep] d]. destruct Ha as [H1 H2 H3 H4 H5 H6]. simpl in Hn.
  assert (Hkeep : Forall factor_ok keep) by (rewrite Forall_forall in *; auto).
  destruct (IH keep ltac:(lia) Hkeep) as (rest & d' & -> & [P1 P2 P3 P4 P5]).
  cbn [mbind outcome_bind fst snd]. exists (c :: rest), (d && d'). split; [done|]. split; simpl.
  - by constructor.
  - by rewrite P2.
  - lia.
  - intros [Hd|Hd]%andb_false_iff; [specialize (H5 Hd)|specialize (P4 Hd)]; lia.
  - intros [Hd Hd']%andb_true_iff. destruct (H6 Hd) as [Hs Hap]. destruct (P5 Hd') as [Hsub Hord].
    rewrite Forall_forall in Hap. split; (constructor; [|]).
    + exists cur. split; [left|done].
    + eapply Forall_impl; [exact Hsub|]. intros f (g & Hg & Hfg). exists g. split; [|done]. right. auto.
    + eapply Forall_impl; [exact Hsub|]. intros f (g & Hg & Hfg). simpl.
      rewrite (ies_intersects_same c c f g); [auto|by split|done].
    + done.
Qed.

Lemma factor_loop_ok fuel : forall fs,
  (length fs < fuel)%nat -> Forall factor_ok fs ->
  exists result, factor_loop fuel fs = Ret result /\ Forall factor_ok result /\
    all_exprs result ≡ₚ all_exprs fs /\ ForallOrdPairs apart result.
Proof.
  induction fuel as [|n IH]; intros fs Hn Hfs; [lia|]. cbn [factor_loop].
  destruct (factor_pass_ok (S (length fs)) fs ltac:(lia) Hfs) as (result & d & -> & [P1 P2 P3 P4 P5]).
  cbn [mbind outcome_bind]. destruct d.
  - exists result. split_and!; auto. by apply P5.
  - destruct (IH result ltac:(specialize (P4 eq_refl); lia) P1) as (r & -> & Hr & He & Hap).
    exists r. split_and!; auto. by rewrite He.
Qed.

Lemma make_factors_ok es :
  Forall (fun e => wf e /\ built heap e) es ->
  exists fs, make_factors es = Ret fs /\ Forall factor_ok fs /\ all_exprs fs = es.
Proof.
  induction 1 as [|e es [Hwf Hb] _ (fs & E & Hfs & Hes)]; simpl; [by exists []|].
  destruct (IndependentElementSet__new_ok e Hwf Hb) as (s & -> & Hs). cbn [mbind outcome_bind].
  rewrite E. cbn [mbind outcome_bind]. exists (s :: fs). split; [done|].
  pose proof (io_exprs _ _ Hs) as Ee. split; [|simpl; by rewrite Ee, Hes].
  constructor; [|done]. split; by rewrite Ee.
Qed.

End Factors.

(** ** Merging the values of a factor *)

Lemma copy_positions_ok src indices : forall dst,
  length src = length dst ->
  Forall (fun i => 0 <= i < Z.of_nat (length dst)) indices ->
  exists dst', copy_positions indices src dst = Ret dst' /\ length dst' = length dst /\
    forall j : nat, dst' !! j = if bool_decide (Z.of_nat j ∈ indices) then src !! j else dst !! j.
Proof.
  induction indices as [|i indices IH]; intros dst Hl Hi; simpl; [by exists dst|].
  apply Forall_cons in Hi as [Hi Hr].
  destruct (lookup_lt_is_Some_2 src (Z.to_nat i) ltac:(lia)) as [b Hb]. rewrite Hb.
  destruct (lookup_lt_is_Some_2 dst (Z.to_nat i) ltac:(lia)) as [b' Hb']. rewrite Hb'.
  cbn [of_option mbind outcome_bind].
  destruct (IH (<[Z.to_nat i:=b]> dst)) as (dst' & -> & Hl' & Hd); rewrite ?length_insert; auto.
  exists dst'. split; [done|]. rewrite length_insert in Hl'. split; [done|]. intros j. rewrite Hd.
  destruct (decide (Z.of_nat j = i)) as [<-|Hne].
  - rewrite Nat2Z.id in *. rewrite list_lookup_insert_eq by lia.
    rewrite (bool_decide_eq_true_2 (_ ∈ _ :: _)) by left. rewrite Hb. by case_bool_decide.
  - rewrite list_lookup_insert_ne by lia.
    rewrite (bool_decide_ext (Z.of_nat j ∈ i :: indices) (Z.of_nat j ∈ indices)); [done|].
    rewrite elem_of_cons. naive_solver.
Qed.

Section Merged.
Context `{ExprOptions} `{DivByZero} `{Universe}.

(** The bytes of the map have the sizes of their arrays. *)
Definition sized (m : bindings_ty) : Prop :=
  forall o bytes, known o -> m !! aaddr o = Some bytes -> Z.of_nat (length bytes) = asize o.

Abbreviation env_of m := (env (mkAssignment true m)).

(** The value at a position of an array of the factor after the merge. *)
Definition merged (f : IndependentElementSet) (m : bindings_ty) (rho : assignment) : assignment :=
  fun a i => if decide (is_Some (m !! aaddr a) /\ ~ i ∈ default ∅ (ies_elements f !! a))
             then env_of m a i else rho a i.

Lemma known_size a : known a -> 0 <= asize a.
Proof. intros Ha. pose proof (heap_shape (aaddr a)) as (_ & _ & Hsz). by rewrite Ha in Hsz. Qed.

Lemma env_bytes_of rho m a bytes :
  in_domain rho -> known a -> m !! aaddr a = Some bytes -> bytes_of rho a bytes ->
  forall i, 0 <= i -> env_of m a i = rho a i.
Proof.
  intros Hr Ha E [Hlen Hb] i Hi. unfold env. simpl. rewrite E.
  destruct (bytes !! Z.to_nat i) as [b|] eqn:Eb; simpl.
  - apply Hb in Eb as ->. f_equal. lia.
  - apply lookup_ge_None in Eb. symmetry. apply domain_beyond; [done..|lia].
Qed.

(** One array of the factor. *)
Lemma merge_value_ok f rho m a values :
  in_domain rho -> sized m -> in_range f -> known a -> bytes_of rho a values ->
  exists bytes, (match m !! aaddr a with
      | Some tempPtr =>
          _ ← assertM (length tempPtr =? length values)%nat;
          dst ← copy_positions (elements (default ∅ (ies_elements f !! a))) values tempPtr;
          Ret (<[aaddr a := dst]> m)
      | None => Ret (<[aaddr a := values]> m)
      end) = Ret (<[aaddr a := bytes]> m) /\
    Z.of_nat (length bytes) = asize a /\
    forall i, 0 <= i -> env_of (<[aaddr a := bytes]> m) a i = merged f m rho a i.
Proof.
  intros Hr Hm Hf Ha Hv. unfold merged. destruct (m !! aaddr a) as [tmp|] eqn:E.
  - pose proof (Hm a tmp Ha E) as Hlt. destruct Hv as [Hlv Hv].
    rewrite (proj2 (Nat.eqb_eq _ _)) by lia. cbn [assertM mbind outcome_bind].
    set (d := default ∅ (ies_elements f !! a)).
    destruct (copy_positions_ok values (elements d) tmp) as (dst & -> & Hl & Hd); [lia| |].
    { apply Forall_forall. intros i Hi. apply elem_of_elements in Hi. unfold d in Hi.
      destruct (ies_elements f !! a) as [d'|] eqn:Ed; [|set_solver]. rewrite Hlt. by eapply Hf. }
    exists dst. split; [done|]. split; [lia|]. intros i Hi. unfold env at 1. cbn [bindings].
    rewrite lookup_insert_eq, Hd. rewrite Z2Nat.id by lia.
    destruct (decide (i ∈ d)) as [Hin|Hin].
    + rewrite bool_decide_eq_true_2 by (by apply elem_of_elements). rewrite decide_False by tauto.
      destruct (values !! Z.to_nat i) as [b|] eqn:Eb; simpl.
      * apply Hv in Eb as ->. f_equal. lia.
      * apply lookup_ge_None in Eb. symmetry. apply domain_beyond; [done..|lia].
    + rewrite bool_decide_eq_false_2 by (by rewrite elem_of_elements).
      rewrite decide_True by (split; [by eexists|done]). unfold env. simpl. by rewrite E.
  - exists values. split; [done|]. split; [apply Hv|]. intros i Hi.
    rewrite decide_False by (intros [[? ?] _]; done).
    apply (env_bytes_of rho _ a values); auto. apply lookup_insert_eq.
Qed.

(** What the map has after the merge of the arrays of a list. *)
Record merge_ok (f : IndependentElementSet) (arrays : list Array) (rho : assignment)
    (m m' : bindings_ty) : Prop := {
  mo_sized : sized m';
  mo_others : forall a, known a -> (a ∉ arrays) -> m' !! aaddr a = m !! aaddr a;
  mo_bound : forall a, a ∈ arrays -> is_Some (m' !! aaddr a);
  mo_value : forall a i, a ∈ arrays -> 0 <= i -> env_of m' a i = merged f m rho a i
}.

Lemma known_inj a b : known a -> known b -> aaddr a = aaddr b -> a = b.
Proof. unfold known. congruence. Qed.

Lemma env_lookup m m' a i : m' !! aaddr a = m !! aaddr a -> env_of m' a i = env_of m a i.
Proof. unfold env. simpl. by intros ->. Qed.

Lemma merge_values_ok f rho arrays values : forall m,
  in_domain rho -> in_range f -> sized m -> Forall known arrays -> NoDup arrays ->
  Forall2 (bytes_of rho) arrays values ->
  exists m', merge_values f arrays values m = Ret m' /\ merge_ok f arrays rho m m'.
Proof.
  intros m Hr Hf Hm Hk Hnd Hv. revert m Hm.
  induction Hv as [|a bs arrays values Hb Hv IH]; intros m Hm; cbn [merge_values].
  { exists m. split; [done|]. split; auto; set_solver. }
  apply Forall_cons in Hk as [Ha Hk]. apply NoDup_cons in Hnd as [Hnin Hnd].
  destruct (merge_value_ok f rho m a bs) as (bytes & -> & Hlen & Hval); auto.
  cbn [mbind outcome_bind]. set (m1 := <[aaddr a := bytes]> m) in *.
  assert (Hm1 : sized m1).
  { intros o b Ho E. unfold m1 in E. apply lookup_insert_Some in E as [[Heq <-]|[_ E]]; [|by apply Hm].
    apply known_inj in Heq as <-; auto. }
  assert (Hoth : forall b, known b -> b <> a -> m1 !! aaddr b = m !! aaddr b).
  { intros b Hb' Hne. apply lookup_insert_ne. intros Heq. by apply Hne, known_inj. }
  destruct (IH Hk Hnd m1 Hm1) as (m' & E & [S1 S2 S3 S4]). exists m'. split; [done|].
  rewrite Forall_forall in Hk. split; [done| | |].
  - intros b Hkb Hb'. rewrite S2 by set_solver. apply Hoth; set_solver.
  - intros b [->|Hb']%elem_of_cons; [|auto]. rewrite S2 by done. unfold m1. by rewrite lookup_insert_eq.
  - intros b i [->|Hb']%elem_of_cons Hi.
    + rewrite (env_lookup m1) by auto. by apply Hval.
    + assert (Hne : b <> a) by (intros ->; done). rewrite S4 by done. unfold merged.
      rewrite (Hoth b) by auto. case_decide; [|done]. apply env_lookup; auto.
Qed.

(** ** The loop over the factors *)

(** The array of a set is an array of the heap. *)
Lemma tracked_known e a : good e -> tracked e a -> known a.
Proof.
  intros [_ Hb _] (r & Hr & u & i & -> & _). apply (built_nodes heap e Hb) in Hr.
  by destruct Hr as [Hr _].
Qed.

Lemma calculateArrayReferences_elem f a : a ∈ calculateArrayReferences f <-> ies_array f a.
Proof.
  unfold calculateArrayReferences, ies_array. rewrite merge_sort_Permutation, elem_of_elements.
  rewrite elem_of_union, elem_of_dom. tauto.
Qed.

Lemma calculateArrayReferences_NoDup f : NoDup (calculateArrayReferences f).
Proof. unfold calculateArrayReferences. rewrite merge_sort_Permutation. apply NoDup_elements. Qed.

(** A factor that can be solved: its expressions are of the right kind and
    stay in their arrays. *)
Record solvable (f : IndependentElementSet) : Prop := {
  so_ok : factor_ok f;
  so_exprs : good_constraints (ies_exprs f);
  so_range : Forall ranged (ies_exprs f);
  so_closed : forall e rho, e ∈ ies_exprs f -> (forall a, ~ tracked e a) -> in_domain rho -> eval rho e = 1
}.

Definition holds (rho : assignment) (f : IndependentElementSet) : Prop :=
  Forall (fun e => eval rho e = 1) (ies_exprs f).

(** The map after some factors. *)
Record partial (ready : list IndependentElementSet) (m : bindings_ty) : Prop := {
  pt_sized : sized m;
  pt_domain : in_domain (env_of m);
  pt_holds : Forall (holds (env_of m)) ready;
  pt_bound : forall f a, f ∈ ready -> ies_array f a -> is_Some (m !! aaddr a);
  pt_only : forall a, known a -> is_Some (m !! aaddr a) -> exists f, f ∈ ready /\ ies_array f a
}.

Lemma partial_nil : partial [] ∅.
Proof.
  split; try set_solver.
  - intros o bytes _ E. by rewrite lookup_empty in E.
  - intros a i Ha Hi. unfold env. cbn [bindings]. rewrite lookup_empty. split; [lia|done].
  - intros a Ha [? E]. by rewrite lookup_empty in E.
Qed.

Lemma factor_arrays_known f a : solvable f -> ies_array f a -> known a.
Proof.
  intros [[Ho _] Hg _ _] Ha. destruct (io_arrays _ _ Ho a Ha) as (e & He & Ht).
  unfold good_constraints in Hg. rewrite Forall_forall in Hg. by eapply tracked_known; [apply Hg|].
Qed.

(** The expressions of a factor keep their values when its positions do. *)
Lemma holds_agree f rho rho' :
  solvable f -> in_domain rho -> in_domain rho' ->
  (forall a i, known a -> 0 <= i -> in_ies f a i -> rho a i = rho' a i) ->
  holds rho f -> holds rho' f.
Proof.
  intros [[Ho _] Hg _ _] Hr Hr' Hag Hh. unfold holds, good_constraints in *. rewrite Forall_forall in *.
  intros e He. rewrite <- (Hh e He). symmetry. apply (eval_agree (in_ies f)); auto; [by apply Hg|].
  by apply (io_covers _ _ Ho).
Qed.

(** A factor that is apart from the ones before it. *)
Lemma partial_merge ready f rho m m' :
  Forall solvable ready -> solvable f -> Forall (fun g => ies_intersects g f = false) ready ->
  partial ready m -> in_domain rho -> holds rho f ->
  merge_ok f (calculateArrayReferences f) rho m m' -> partial (f :: ready) m'.
Proof.
  intros Hready Hf Hap [P1 P2 P3 P4 P5] Hr Hh [M1 M2 M3 M4].
  rewrite Forall_forall in Hready, Hap.
  assert (Hdom : in_domain (env_of m')).
  { intros a i Ha Hi. destruct (decide (a ∈ calculateArrayReferences f)) as [Hin|Hin].
    - rewrite M4 by done. unfold merged. case_decide; [by apply P2|by apply Hr].
    - rewrite (env_lookup m) by auto. by apply P2. }
  split; auto.
  - apply Forall_cons. split.
    + apply (holds_agree f rho); auto. intros a i Ha Hi Hin.
      rewrite M4 by (try done; by eapply calculateArrayReferences_elem, in_ies_array). unfold merged.
      rewrite decide_False; [done|]. intros [Hb Hni]. destruct Hin as [Hw|(d & Hd & Hid)].
      * destruct (P5 a Ha Hb) as (g & Hg & Hga).
        destruct (ies_intersects_false g f (Hap g Hg)) as (_ & _ & Hx). by apply (Hx a).
      * by rewrite Hd in Hni.
    + apply Forall_forall. intros g Hg. rewrite Forall_forall in P3.
      apply (holds_agree g (env_of m)); auto. intros a i Ha Hi Hin.
      destruct (ies_intersects_false g f (Hap g Hg)) as (Hdis & _).
      destruct (decide (a ∈ calculateArrayReferences f)) as [Hc|Hc]; [|symmetry; apply env_lookup; auto].
      rewrite M4 by done. unfold merged. rewrite decide_True; [done|]. split.
      * eapply P4; [done|]. by eapply in_ies_array.
      * intros Hx. apply (Hdis a i Hin). destruct (ies_elements f !! a) as [d|] eqn:Ed; [|set_solver].
        right. by exists d.
  - intros g a [->|Hg]%elem_of_cons Hga; [by apply M3, calculateArrayReferences_elem|].
    destruct (decide (a ∈ calculateArrayReferences f)) as [Hc|Hc]; [by apply M3|].
    rewrite M2; [by eapply P4| |done]. eapply factor_arrays_known; [|done]. auto.
  - intros a Ha Hb. destruct (decide (a ∈ calculateArrayReferences f)) as [Hc|Hc].
    + exists f. split; [left|]. by apply calculateArrayReferences_elem.
    + rewrite M2 in Hb by done. destruct (P5 a Ha Hb) as (g & Hg & Hga). exists g. split; [by right|done].
Qed.

(** A factor without arrays. *)
Lemma partial_skip ready f m :
  solvable f -> partial ready m -> calculateArrayReferences f = [] -> partial (f :: ready) m.
Proof.
  intros [[Ho Hne] Hg Hran Hcl] [P1 P2 P3 P4 P5] Hnil.
  assert (Hno : forall a, ~ ies_array f a).
  { intros a Ha. apply calculateArrayReferences_elem in Ha. rewrite Hnil in Ha. set_solver. }
  split; auto.
  - constructor; [|done]. apply Forall_forall. intros e He. apply Hcl; auto. intros a Ha.
    apply (Hno a). by eapply io_tracked.
  - intros g a [->|Hg']%elem_of_cons Ha; [by destruct (Hno a)|eauto].
  - intros a Ha Hb. destruct (P5 a Ha Hb) as (g & ? & ?). exists g. split; [by right|done].
Qed.

End Merged.

(** ** The initial values of a query *)

Section Asked.
Context `{ExprOptions} `{DivByZero} `{Universe}.

Abbreviation apart := (fun f g => ies_intersects f g = false).

(** What is asserted together: the constraints, and that the expression is 0. *)
Definition asked (q : Query) (e : Expr) : Prop :=
  e ∈ constraints q \/ Expr__createIsZero (expr q) = Ret e.

(** What the solver asks of a query: constant indices inside their arrays, no
    constraint without symbolic bytes that is false, and constraints that can
    be evaluated where they hold. *)
Record initial_ready (q : Query) : Prop := {
  ir_ranged : forall e, asked q e -> ranged e;
  ir_closed : forall e rho, asked q e -> (forall a, ~ tracked e a) -> in_domain rho -> eval rho e = 1;
  ir_tame : forall e rho, asked q e -> models rho q -> eval rho (expr q) = 0 -> tame rho e
}.

Definition refutes (rho : assignment) (q : Query) : Prop := models rho q /\ eval rho (expr q) = 0.

Lemma asked_good q e : bool_query q -> asked q e -> good e /\ getWidth e = 1.
Proof.
  intros [[Hcs Hg] Hw] [He|He].
  - unfold good_constraints in Hcs. rewrite Forall_forall in Hcs. by apply Hcs.
  - destruct (IsZero_good _ Hg) as (e' & E & Hg' & Hw' & _). rewrite E in He. by injection He as <-.
Qed.

Lemma asked_refutes q rho e : bool_query q -> refutes rho q -> asked q e -> eval rho e = 1.
Proof.
  intros [[Hcs Hg] Hw] [[Hdom Hm] Hz] [He|He].
  - rewrite Forall_forall in Hm. by apply Hm.
  - destruct (IsZero_good _ Hg) as (e' & E & _ & _ & Hv). rewrite E in He. injection He as <-.
    rewrite Hv by done. by rewrite Hz.
Qed.

(** The factor of the negated expression, if it has one. *)
Record first_ok (q : Query) (first : list IndependentElementSet) : Prop := {
  fi_ok : Forall factor_ok first;
  fi_asked : forall e, e ∈ concat (map ies_exprs first) -> asked q e;
  fi_tracked : forall e a, Expr__createIsZero (expr q) = Ret e -> tracked e a ->
    e ∈ concat (map ies_exprs first);
  fi_zero : forall rho, in_domain rho ->
    (forall e, e ∈ concat (map ies_exprs first) -> eval rho e = 1) -> eval rho (expr q) = 0
}.

Lemma IsZero_constant c : exists c', Expr__createIsZero (Constant c) = Ret (Constant c').
Proof.
  unfold Expr__createIsZero. rewrite EqExpr__create_const_eq. unfold EqExpr__create_const. cbn [getWidth].
  rewrite Z.eqb_refl. cbn [assertM mbind outcome_bind fold]. by eexists.
Qed.

Lemma first_factor_ok q :
  bool_query q -> not_true (expr q) ->
  exists first, match expr q with
      | Constant CE => _ ← assertM (isFalse CE); Ret []
      | _ => neg ← Expr__createIsZero (expr q); ies ← IndependentElementSet__new neg; Ret [ies]
      end = Ret first /\ first_ok q first.
Proof.
  intros [[Hcs Hg] Hw] Hnt.
  assert (Hn : exists first,
    (neg ← Expr__createIsZero (expr q); ies ← IndependentElementSet__new neg; Ret [ies]) = Ret first /\
    first_ok q first).
  { destruct (IsZero_good _ Hg) as (neg & E & Hgn & Hwn & Hvn).
    destruct (IndependentElementSet__new_ok neg) as (s & Es & Hs); [apply Hgn..|].
    pose proof (io_exprs _ _ Hs) as Ee. exists [s]. rewrite E. cbn [mbind outcome_bind]. rewrite Es.
    split; [done|]. split; simpl; rewrite ?Ee.
    - constructor; [|constructor]. split; by rewrite Ee.
    - intros e ->%list_elem_of_singleton. by right.
    - intros e a He _. rewrite E in He. injection He as <-. left.
    - intros rho Hd Hall. specialize (Hall neg ltac:(left)). rewrite Hvn in Hall by done.
      by destruct (Z.eqb_spec (eval rho (expr q)) 0). }
  destruct (expr q) as [c| | | | | | | | |] eqn:Eq; try exact Hn.
  pose proof (Hnt c eq_refl) as Hc. exists []. unfold isFalse. simpl in Hw. rewrite Hc, Hw.
  split; [done|]. split; [constructor|set_solver| |].
  - intros e a He (r & Hr & u & i & -> & _). destruct (IsZero_constant c) as [c' Ez]. rewrite Eq, Ez in He. injection He as <-.
    simpl in Hr. set_solver.
  - intros rho _ _. by rewrite Eq.
Qed.

Lemma elem_of_exprs fs e : e ∈ concat (map ies_exprs fs) <-> exists f, f ∈ fs /\ e ∈ ies_exprs f.
Proof.
  rewrite list_elem_of_In, in_concat. setoid_rewrite in_map_iff. setoid_rewrite list_elem_of_In.
  naive_solver.
Qed.

Lemma getAllIndependentConstraintsSets_ok q :
  bool_query q -> not_true (expr q) -> initial_ready q ->
  exists fs, getAllIndependentConstraintsSets q = Ret fs /\ Forall solvable fs /\
    ForallOrdPairs apart fs /\
    (forall e a, asked q e -> tracked e a -> exists f, f ∈ fs /\ ies_array f a) /\
    (forall rho, in_domain rho -> Forall (holds rho) fs <-> refutes rho q).
Proof.
  intros Hq Hnt [Hr Hcl _]. destruct (first_factor_ok q Hq Hnt) as (first & E1 & [Hf1 Hask Hhas Hz]).
  destruct (make_factors_ok (constraints q)) as (rest & E2 & Hf2 & Hes2).
  { destruct Hq as [[Hcs _] _]. eapply Forall_impl; [exact Hcs|]. by intros c [[]]. }
  unfold getAllIndependentConstraintsSets. rewrite E1. cbn [mbind outcome_bind]. rewrite E2.
  cbn [mbind outcome_bind].
  destruct (factor_loop_ok (S (length (first ++ rest))) (first ++ rest)) as (fs & E & Hfs & He' & Hap);
    [lia|by apply Forall_app|].
  rewrite map_app, concat_app, Hes2 in He'.
  assert (Hasked : forall f e, f ∈ fs -> e ∈ ies_exprs f -> asked q e).
  { intros f e Hf Hfe. assert (Hx : e ∈ concat (map ies_exprs fs)) by (apply elem_of_exprs; eauto).
    rewrite He' in Hx. apply elem_of_app in Hx as [Hx|Hx]; [auto|by left]. }
  exists fs. rewrite Forall_forall in Hfs. split_and!; auto.
  - apply Forall_forall. intros f Hf. split; [auto| | |eauto]; apply Forall_forall; [|eauto].
    intros e Hfe. apply (asked_good q); eauto.
  - intros e a He Ht. assert (Hx : e ∈ concat (map ies_exprs first) ++ constraints q).
    { apply elem_of_app. destruct He as [He|He]; [by right|left; eauto]. }
    rewrite <- He', elem_of_exprs in Hx. destruct Hx as (f & Hf & Hfe). exists f. split; [done|].
    by apply (io_tracked _ _ (fo_ies _ (Hfs f Hf)) e).
  - intros rho Hd. unfold holds, refutes, models. split.
    + intros Hall. rewrite Forall_forall in Hall.
      assert (Hev : forall e, e ∈ concat (map ies_exprs first) ++ constraints q -> eval rho e = 1).
      { intros e Hx. rewrite <- He' in Hx. apply elem_of_exprs in Hx as (f & Hf & Hfe).
        specialize (Hall f Hf). rewrite Forall_forall in Hall. auto. }
      setoid_rewrite elem_of_app in Hev. split; [split; [done|apply Forall_forall; auto]|auto].
    + intros Hm. apply Forall_forall. intros f Hf. apply Forall_forall. intros e Hfe.
      apply (asked_refutes q); eauto.
Qed.

End Asked.

(** The point that is checked at the end is the solution that was found. *)
Section Point.
Context `{ExprOptions} `{DivByZero} `{Universe}.
Abbreviation env_of m := (env (mkAssignment true m)).
Variables (q : Query) (objects : list Array) (m : bindings_ty) (all : list IndependentElementSet).
Hypothesis Hq : bool_query q.
Hypothesis Hready : initial_ready q.
Hypothesis Hobj : Forall known objects.
Hypothesis Hm : partial all m.
Hypothesis Href : refutes (env_of m) q.
Hypothesis Hall : forall e a, asked q e -> tracked e a -> exists f, f ∈ all /\ ies_array f a.

Definition initial_values : list (list Z) :=
  map (fun arr => match m !! aaddr arr with
                  | Some bytes => bytes
                  | None => replicate (Z.to_nat (asize arr)) 0
                  end) objects.

Abbreviation point := (add_bindings (Assignment__new objects initial_values true) m).

Lemma initial_bytes : Forall2 (bytes_of (env_of m)) objects initial_values.
Proof using Hm Hobj.
  unfold initial_values. clear -Hm Hobj. induction Hobj as [|o os Ho Hos IH]; simpl; [constructor|].
  constructor; [|by apply IH]. unfold bytes_of, env. cbn [bindings].
  destruct (m !! aaddr o) as [bytes|] eqn:E.
  - split; [by apply (pt_sized _ _ Hm)|]. intros i b Hb. by rewrite Nat2Z.id, Hb.
  - rewrite length_replicate. pose proof (known_size o Ho). split; [lia|].
    intros i b Hb. by apply lookup_replicate in Hb as [-> _].
Qed.

Lemma point_lookup a :
  known a -> (exists bytes, bindings point !! aaddr a = Some bytes /\ bytes_of (env_of m) a bytes) \/
             (bindings point !! aaddr a = None /\ m !! aaddr a = None).
Proof using Hm Hobj.
  intros Ha. unfold add_bindings. cbn [bindings].
  pose proof (insert_bindings_lookup (env_of m) objects initial_values ∅ a Hobj Ha initial_bytes) as Hl.
  rewrite lookup_empty in Hl. unfold Assignment__new. cbn [bindings].
  destruct Hl as [(_ & bytes & E & Hb)|[_ E]].
  - left. exists bytes. split; [|done]. by rewrite lookup_union_Some_raw, E; left.
  - destruct (m !! aaddr a) as [bytes|] eqn:Em.
    + left. exists bytes. split; [by rewrite lookup_union_Some_raw; right|]. split; [by apply (pt_sized _ _ Hm)|].
      intros i b Hb. unfold env. cbn [bindings]. rewrite Em, Nat2Z.id. by rewrite Hb.
    + right. split; [|done]. by rewrite lookup_union_None.
Qed.

Lemma point_env a i : known a -> 0 <= i -> env point a i = env_of m a i.
Proof using Hm Hobj.
  intros Ha Hi. destruct (point_lookup a Ha) as [(bytes & E & Hb)|[E Em]].
  - rewrite <- (env_bytes_of (env_of m) (bindings point) a bytes (pt_domain _ _ Hm) Ha E Hb i Hi). done.
  - unfold env. cbn [bindings] in *. by rewrite E, Em.
Qed.

Lemma point_domain : in_domain (env point).
Proof using Hm Hobj. intros a i Ha Hi. rewrite point_env by done. by apply Hm. Qed.

Lemma point_visit e : asked q e -> visit point e = Ret (Constant (mkConst 1 1)).
Proof using Hall Hm Hobj Hq Hready Href.
  intros He. destruct (asked_good q e Hq He) as [Hg Hw]. pose proof Hg as [Hwf Hb _].
  assert (Hcov : covers (fun _ _ => True) e).
  { intros r _. destruct r as [| |a u i| | | | | | |]; try done. right. by destruct i. }
  assert (Hev : eval (env point) e = 1).
  { rewrite <- (asked_refutes q (env_of m) e Hq Href He).
    apply (eval_agree (fun _ _ => True)); auto using point_domain; [apply Hm|]. auto using point_env. }
  replace (mkConst 1 1) with (mkConst (eval (env point) e) (getWidth e)) by congruence.
  apply visit_const; [done|].
  apply tame_evaluable; auto.
  - assert (Hte : tame (env_of m) e) by (by apply (ir_tame q Hready); [|apply Href..]).
    revert Hte. apply (tame_agree (fun _ _ => True)); auto using point_domain; [apply Hm|].
    intros. symmetry. auto using point_env.
  - intros a u i j Hr Hj. destruct (isConstantArray a) eqn:Ec; [right; left; split; [done|lia]|].
    right. right. assert (Ht : tracked e a).
    { exists (Read a u i). split; [done|]. exists u, i. split; [done|]. intros [? _]. congruence. }
    pose proof (tracked_known e a Hg Ht) as Ha. destruct (Hall e a He Ht) as (f & Hf & Hfa).
    destruct (point_lookup a Ha) as [(bytes & E & Hl & _)|[_ Em]].
    + exists bytes. split; [done|lia].
    + destruct (pt_bound _ _ Hm f a Hf Hfa) as [? ?]. congruence.
Qed.

Lemma point_checked : assertCreatedPointEvaluatesToTrue q objects initial_values m = Ret true.
Proof using Hall Hm Hobj Hq Hready Href.
  unfold assertCreatedPointEvaluatesToTrue. cbv zeta.
  assert (Hc : forall cs, cs ⊆ constraints q -> check_constraints point cs = Ret true).
  { induction cs as [|c cs IH]; intros Hsub; [done|]. cbn [check_constraints].
    rewrite point_visit by (left; set_solver). cbn [mbind outcome_bind]. apply IH. set_solver. }
  rewrite Hc by done. cbn [mbind outcome_bind].
  destruct Hq as [[_ Hg] _]. destruct (IsZero_good _ Hg) as (neg & E & _). rewrite E.
  cbn [mbind outcome_bind]. rewrite point_visit by (by right). done.
Qed.

End Point.

Section Initial.
Context `{ExprOptions} `{DivByZero} `{Universe}.
Context {S : Type} `{!Solver S} `{!SolverSpec S}.
(** The solver below takes every query for initial values. *)
Hypothesis Hpre : forall q objects, initial_pre (S:=S) q objects.

Abbreviation env_of m := (env (mkAssignment true m)).
Abbreviation apart := (fun f g => ies_intersects f g = false).

(** The solutions of the factors, or one that has none. *)
Definition factors_result (factors ready : list IndependentElementSet) (r : option bindings_ty) : Prop :=
  match r with
  | Some m => exists all, partial all m /\ factors ⊆ all /\ ready ⊆ all
  | None => exists f, f ∈ factors /\ forall rho, in_domain rho -> ~ holds rho f
  end.

Lemma factors_result_cons f fs ready r :
  factors_result fs (f :: ready) r -> factors_result (f :: fs) ready r.
Proof using Type.
  clear Hpre. destruct r as [m|].
  - intros (all & ? & ? & ?). exists all. set_solver.
  - intros (g & ? & ?). exists g. set_solver.
Qed.

Lemma solve_factors_ok factors : forall ready m,
  Forall solvable ready -> Forall solvable factors -> ForallOrdPairs apart factors ->
  Forall (fun f => Forall (fun g => ies_intersects g f = false) ready) factors ->
  partial ready m ->
  sat solver_inv solver_fails (solve_factors factors m) (factors_result factors ready).
Proof using Hpre.
  induction factors as [|f fs IH]; intros ready m Hready Hfs Hord Hcross Hm; cbn [solve_factors].
  { apply sat_ret. exists ready. split_and!; auto; set_solver. }
  apply Forall_cons in Hfs as [Hf Hfs]. apply Forall_cons in Hcross as [Hcf Hcross].
  inversion Hord as [|? ? Hff Hord']; subst.
  assert (Hnext : forall m', partial (f :: ready) m' ->
    sat solver_inv solver_fails (solve_factors fs m') (factors_result (f :: fs) ready)).
  { intros m' Hm'. eapply sat_conseq; [apply (IH (f :: ready) m')|apply factors_result_cons]; auto.
    rewrite Forall_forall in *. intros g Hg. apply Forall_cons. auto. }
  eapply sat_bind; [apply sat_assert|].
  { destruct Hf as [[_ Hne] _ _ _]. apply Nat.leb_le. destruct (ies_exprs f); simpl; [done|lia]. }
  intros _ _. destruct (length (calculateArrayReferences f) =? 0)%nat eqn:E0.
  { apply Nat.eqb_eq, nil_length_inv in E0. apply Hnext. by apply partial_skip. }
  eapply sat_bind; [apply computeInitialValues_ok; [| | |apply Hpre]|].
  { split; [split; [apply Hf|]|done]. by split. }
  { by intros c [= <-]. }
  { apply Forall_forall. intros a Ha%calculateArrayReferences_elem. by eapply factor_arrays_known. }
  intros [values|] Hr.
  - destruct Hr as (rho & [Hdom Hmod] & _ & Hv).
    destruct (merge_values_ok f rho (calculateArrayReferences f) values m) as (m' & E & Hmo); auto.
    + apply (io_range _ _ (fo_ies _ (so_ok _ Hf))). apply Hf.
    + apply Hm.
    + apply Forall_forall. intros a Ha%calculateArrayReferences_elem. by eapply factor_arrays_known.
    + apply calculateArrayReferences_NoDup.
    + eapply (sat_bind _ _ (fun x => x = m')); [apply sat_lift; by exists m'|]. intros ? ->.
      apply Hnext. by eapply partial_merge.
  - apply sat_ret. exists f. split; [left|]. intros rho Hdom Hh.
    assert (Hx : 0 = 1); [|done]. apply (Hr rho). by split.
Qed.

Lemma Independent_computeInitialValues_ok q objects :
  bool_query q -> not_true (expr q) -> Forall known objects -> initial_ready q ->
  sat solver_inv solver_fails (IndependentSolver__computeInitialValues q objects) (initial_ok q objects).
Proof using Hpre.
  intros Hq Hnt Hobj Hready.
  destruct (getAllIndependentConstraintsSets_ok q Hq Hnt Hready) as (fs & E & Hfs & Hap & Htr & Href).
  eapply (sat_bind _ _ (fun x => x = fs)); [apply sat_lift; by exists fs|]. intros ? ->.
  eapply sat_bind.
  { apply (solve_factors_ok fs [] ∅); auto using partial_nil. apply Forall_forall. intros; constructor. }
  intros [m|] Hr.
  - destruct Hr as (all & Hm & Hsub & _).
    assert (Hrf : refutes (env_of m) q).
    { apply Href; [apply Hm|]. pose proof (pt_holds _ _ Hm) as Hh. rewrite Forall_forall in *. auto. }
    eapply (sat_bind _ _ (fun _ => True)); [apply sat_lift|].
    { exists (). split; [|exact I]. fold (initial_values objects m).
      erewrite point_checked; [done|done..|]. intros e a He Ht. destruct (Htr e a He Ht) as (f & Hf & Hfa). exists f. auto. }
    intros _ _. apply sat_ret. exists (env_of m). destruct Hrf as [Hmod Hz]. split_and!; auto.
    by apply (initial_bytes objects m all).
  - destruct Hr as (f & Hf & Hno). apply sat_ret. intros rho Hmod.
    destruct Hq as [[Hcs Hg] Hw]. destruct (eval_bool rho (expr q) Hg Hw) as [Hz|]; [|done].
    destruct (Hno rho); [apply Hmod|]. assert (Hh : Forall (holds rho) fs) by (by apply Href; [apply Hmod|]).
    rewrite Forall_forall in Hh. auto.
Qed.

(** ** The solver keeps the contract *)

Definition independent_inv (t : IndependentSolver S) : Prop := solver_inv (independent_solver t).

Lemma independent_below_ok {A} (m : SM S A) (Q : A -> Prop) :
  sat solver_inv (solver_fails (S:=S)) m Q ->
  sat independent_inv (solver_fails (S:=S)) (independent_below m) Q.
Proof using Type. clear Hpre. by apply sat_zoom. Qed.

#[export, refine] Instance IndependentSolver_spec : SolverSpec (IndependentSolver S) := {
  solver_inv := independent_inv;
  solver_fails := solver_fails (S:=S);
  initial_pre q _ := initial_ready q
}.
Proof using Hpre.
  - intros q Hq Hf. by apply independent_below_ok, Independent_computeTruth_ok.
  - intros q Hq Hc Hf. by apply independent_below_ok, Independent_computeValidity_ok.
  - intros q Hq Hc Hf. by apply independent_below_ok, Independent_computeValue_ok.
  - intros q objects Hq Hnt Ho Hr. by apply independent_below_ok, Independent_computeInitialValues_ok.
Defined.

End Initial.

(** C20: the factors of a query partition its constraints and the negated
    expression, whatever the number of rounds it takes: no constraint is lost
    or repeated, a factor has the positions its constraints read, and no two
    factors share one. *)
Theorem factors_partition `{ExprOptions} `{DivByZero} `{Universe} q neg :
  bool_query q -> isConstant (expr q) = false -> Expr__createIsZero (expr q) = Ret neg ->
  exists fs, getAllIndependentConstraintsSets q = Ret fs /\
    concat (map ies_exprs fs) ≡ₚ neg :: constraints q /\
    Forall (fun f => forall e, e ∈ ies_exprs f -> covers (in_ies f) e) fs /\
    ForallOrdPairs (fun f g => forall a i, in_ies f a i -> in_ies g a i -> False) fs.
Proof.
  intros [[Hcs Hg] Hw] Hc E. destruct (IsZero_good _ Hg) as (neg' & E' & Hgn & _).
  rewrite E in E'. injection E' as <-.
  destruct (make_factors_ok (neg :: constraints q)) as (fs0 & Ef & Hf0 & He0).
  { constructor; [by destruct Hgn|]. eapply Forall_impl; [exact Hcs|]. by intros c [[]]. }
  cbn [make_factors] in Ef. destruct (IndependentElementSet__new neg) as [s|] eqn:En; [|done].
  cbn [mbind outcome_bind] in Ef. destruct (make_factors (constraints q)) as [rest|] eqn:Er; [|done].
  cbn [mbind outcome_bind] in Ef. injection Ef as <-.
  destruct (factor_loop_ok (S (length (s :: rest))) (s :: rest)) as (fs & El & Hfs & Hexp & Hap); [lia|done|].
  exists fs. split_and!.
  - unfold getAllIndependentConstraintsSets. rewrite E. cbn [mbind outcome_bind]. rewrite En, Er.
    cbn [mbind outcome_bind]. destruct (expr q); done.
  - by rewrite Hexp, He0.
  - eapply Forall_impl; [exact Hfs|]. intros f [Hf _]. apply (io_covers _ _ Hf).
  - clear -Hap. induction Hap as [|f fs Hf _ IH]; constructor; auto.
    eapply Forall_impl; [exact Hf|]. intros g Hfg. by apply ies_intersects_false.
Qed.
