(* ===== verification/SolverValidating.v ===== *)
(** * The validating solver

    [lib/Solver/ValidatingSolver.cpp]: every answer of a solver is checked
    against a second one, the oracle, and an answer that it does not confirm
    stops the program.  The oracle may be a solver of its own or the core
    solver at the bottom of the chain that is checked, whose state both then
    share: the two are reached through views of one state.

    The contract says that between correct solvers no check fails. *)

From S2P Require Import Prelude ExprData ExprCreate ExprSem ExprBool ExprArith ExprBits ExprSpec ExprOrder ExprHeap ExprEval ExprReads Solver SolverStaged SolverCexCaching.

(** A part of a state on which calls can be made. *)
Record view (T S : Type) : Type := mkView { view_get : T -> S; view_put : S -> T -> T }.
Arguments mkView {_ _} _ _.
Arguments view_get {_ _} _ _.
Arguments view_put {_ _} _ _ _.

Definition on {T S A} (v : view T S) (m : SM S A) : SM T A := zoom (view_get v) (view_put v) m.

Section Validating.
Context `{ExprOptions} {S W T : Type} `{!Solver S} `{!Solver W}.
Variables (solver : view T S) (oracle : view T W).

Definition ValidatingSolver__computeTruth (q : Query) : SM T bool :=
  isValid ← on solver (computeTruth q);
  answer ← on oracle (computeTruth q);
  _ ← lift (assertM (bool_decide (isValid = answer)));
  mret isValid.

Definition ValidatingSolver__computeValidity (q : Query) : SM T Validity.t :=
  result ← on solver (computeValidity q);
  answer ← on oracle (computeValidity q);
  _ ← lift (assertM (bool_decide (result = answer)));
  mret result.

Definition ValidatingSolver__computeValue (q : Query) : SM T Expr :=
  result ← on solver (computeValue q);
  differs ← lift (NeExpr__create (expr q) result);
  answer ← on oracle (computeTruth (withExpr q differs));
  _ ← lift (assertM (negb answer));
  mret result.

(** The inner loop: the [n] bytes of [array] from position [j] on. *)
Fixpoint bind_bytes (array : Array) (values : list Z) (j : Z) (n : nat) : outcome (list Expr) :=
  match n with
  | O => Ret []
  | Datatypes.S n =>
      value ← of_option MemError (values !! Z.to_nat j);
      r ← ReadExpr__create array NoUpdate (Constant (ConstantExpr__alloc j (adomain array)));
      e ← EqExpr__create r (Constant (ConstantExpr__alloc value (arange array)));
      rest ← bind_bytes array values (j + 1) n;
      Ret (e :: rest)
  end.

Fixpoint bind_objects (objects : list Array) (values : list (list Z)) : outcome (list Expr) :=
  match values with
  | [] => Ret []
  | v :: values =>
      match objects with
      | [] => Stop MemError
      | array :: objects =>
          bs ← bind_bytes array v 0 (Z.to_nat (asize array));
          rest ← bind_objects objects values;
          Ret (bs ++ rest)
      end
  end.

Fixpoint conjoin (acc : Expr) (cs : list Expr) : outcome Expr :=
  match cs with
  | [] => Ret acc
  | c :: cs => acc' ← AndExpr__create acc c; conjoin acc' cs
  end.

Definition ValidatingSolver__computeInitialValues (q : Query) (objects : list Array)
    : SM T (option (list (list Z))) :=
  r ← on solver (computeInitialValues q objects);
  query ← match r with
          | Some values =>
              lift (bindings ← bind_objects objects values;
                    neg ← Expr__createIsZero (expr q);
                    all ← conjoin neg (constraints q);
                    Ret (mkQuery bindings all))
          | None => mret q
          end;
  answer ← on oracle (computeTruth query);
  _ ← lift (assertM answer);
  mret r.

Definition ValidatingSolver_solver : Solver T := {|
  computeTruth := ValidatingSolver__computeTruth;
  computeValidity := ValidatingSolver__computeValidity;
  computeValue := ValidatingSolver__computeValue;
  computeInitialValues := ValidatingSolver__computeInitialValues
|}.

End Validating.

(** ** The checks succeed *)

Section Bindings.
Context `{ExprOptions} `{DivByZero} `{Universe}.

Lemma bind_byte_ok a v j :
  known a -> wf_array a -> isSymbolicArray a = true -> 0 <= v < 256 -> 0 <= j < asize a ->
  exists r e, ReadExpr__create a NoUpdate (Constant (ConstantExpr__alloc j (adomain a))) = Ret r /\
    EqExpr__create r (Constant (ConstantExpr__alloc v (arange a))) = Ret e /\
    good e /\ getWidth e = 1 /\ forall rho, in_domain rho -> eval rho e = Z.b2z (rho a j =? v).
Proof.
  intros Ha Hwf Hs Hv Hj. pose proof (heap_shape (aaddr a)) as (Hd & Hr & _). rewrite Ha in Hd, Hr.
  pose proof Hwf as (_ & _ & Hsz & _).
  assert (Hc : isConstantArray a = false) by (unfold isConstantArray; by rewrite Hs).
  assert (Hread : creates in_domain 8 (fun rho => rho a j)
    (ReadExpr__create a NoUpdate (Constant (ConstantExpr__alloc j (adomain a))))).
  { rewrite <- Hr. eapply creates_ext.
    - apply (ReadExpr__create_creates in_domain a NoUpdate (fun _ => j mod 2 ^ adomain a)).
      + done.
      + lia.
      + apply denotes_alloc. by rewrite Hd.
      + done.
      + done.
      + congruence.
    - intros rho HD. simpl. rewrite Hd, Z.mod_small by lia. unfold array_value. rewrite Hc, Hr. simpl.
      apply Z.mod_small. apply HD; [done|lia]. }
  destruct (creates_good _ _ _ Hread) as (r & E & Hg & Hw & Hev).
  { by apply ReadExpr__create_closed. }
  destruct (creates_good 1 (fun rho => Z.b2z (rho a j =? v))
    (EqExpr__create r (Constant (ConstantExpr__alloc v (arange a))))) as (e & E' & Hg' & Hw' & Hev').
  - eapply creates_ext; [eapply (EqExpr__create_creates in_domain 8)|].
    + rewrite <- Hw. by apply good_denotes.
    + rewrite Hr. by apply denotes_alloc.
    + intros rho HD. simpl. rewrite Hev by done. by rewrite (Z.mod_small v (2 ^ 8)) by lia.
  - apply EqExpr__create_closed; [apply Hg|done].
  - by exists r, e.
Qed.

(** The constraints say that the bytes are those of an assignment. *)
Record pins (P : assignment -> Prop) (cs : list Expr) : Prop := {
  pins_good : good_constraints cs;
  pins_holds : forall rho, in_domain rho -> Forall (fun c => eval rho c = 1) cs <-> P rho
}.

Lemma pins_app P Q cs ds :
  pins P cs -> pins Q ds -> pins (fun rho => P rho /\ Q rho) (cs ++ ds).
Proof.
  intros [G1 H1'] [G2 H2']. split; [by apply Forall_app|].
  intros rho HD. by rewrite Forall_app, H1', H2'.
Qed.

Lemma pins_ext (P Q : assignment -> Prop) cs :
  (forall rho, in_domain rho -> P rho <-> Q rho) -> pins P cs -> pins Q cs.
Proof. intros HPQ [G Hh]. split; [done|]. intros rho HD. by rewrite Hh, HPQ. Qed.

Lemma bind_bytes_ok rho0 a bytes n : forall j,
  in_domain rho0 -> known a -> wf_array a -> isSymbolicArray a = true -> bytes_of rho0 a bytes ->
  0 <= j -> j + Z.of_nat n = asize a ->
  exists cs, bind_bytes a bytes j n = Ret cs /\
    pins (fun rho => forall i, j <= i < asize a -> rho a i = rho0 a i) cs.
Proof.
  induction n as [|n IH]; intros j HD Ha Hwf Hs Hb Hj Hn; cbn [bind_bytes].
  { exists []. split; [done|]. split; [constructor|]. intros rho _. split; [lia|constructor]. }
  destruct Hb as [Hlen Hb]. destruct (lookup_lt_is_Some_2 bytes (Z.to_nat j) ltac:(lia)) as [v Hv].
  rewrite Hv. cbn [of_option mbind outcome_bind]. apply Hb in Hv. rewrite Z2Nat.id in Hv by lia.
  pose proof (HD a j Ha Hj) as [Hr _]. rewrite <- Hv in Hr.
  destruct (bind_byte_ok a v j) as (r & e & E1 & E2 & Hg & Hw & Hev); auto; [lia|].
  rewrite E1. cbn [mbind outcome_bind]. rewrite E2. cbn [mbind outcome_bind].
  destruct (IH (j + 1)) as (cs & -> & Hcs); auto; [by split|lia|lia|].
  cbn [mbind outcome_bind]. exists (e :: cs). split; [done|].
  change (e :: cs) with ([e] ++ cs).
  eapply pins_ext; [|refine (pins_app (fun rho => rho a j = rho0 a j) _ [e] cs _ Hcs)].
  - intros rho _. split.
    + intros [Hj' Hrest] i Hi. destruct (decide (i = j)) as [->|]; [done|]. apply Hrest. lia.
    + intros Hall. split; [apply Hall; lia|]. intros i Hi. apply Hall. lia.
  - split; [by constructor|]. intros rho HDr. rewrite Forall_singleton, Hev by done. subst v.
    destruct (Z.eqb_spec (rho a j) (rho0 a j)); simpl; split; intros; done || lia.
Qed.

Definition pinned (rho0 : assignment) (objects : list Array) (rho : assignment) : Prop :=
  forall a i, a ∈ objects -> 0 <= i < asize a -> rho a i = rho0 a i.

Lemma bind_objects_ok rho0 objects values :
  in_domain rho0 ->
  Forall (fun a => known a /\ wf_array a /\ isSymbolicArray a = true) objects ->
  Forall2 (bytes_of rho0) objects values ->
  exists cs, bind_objects objects values = Ret cs /\ pins (pinned rho0 objects) cs.
Proof.
  intros HD Ho Hv. induction Hv as [|a bytes objects values Hb Hv IH]; simpl.
  { exists []. split; [done|]. split; [constructor|]. intros rho _. split; [|constructor].
    by intros _ a i Ha%elem_of_nil. }
  apply Forall_cons in Ho as [(Ha & Hwf & Hs) Ho].
  pose proof (heap_shape (aaddr a)) as (_ & _ & Hsz). rewrite Ha in Hsz.
  destruct (bind_bytes_ok rho0 a bytes (Z.to_nat (asize a)) 0) as (cs & -> & Hcs); auto; try lia.
  cbn [mbind outcome_bind]. destruct (IH Ho) as (ds & -> & Hds). cbn [mbind outcome_bind].
  exists (cs ++ ds). split; [done|]. eapply pins_ext; [|by apply pins_app]. intros rho _.
  unfold pinned. split.
  - intros [H1' H2'] b i [->|Hb']%elem_of_cons Hi; auto.
  - intros Hall. split; intros; apply Hall; set_solver.
Qed.

Lemma conjoin_ok cs : forall acc,
  good_constraints cs -> good acc -> getWidth acc = 1 ->
  exists e, conjoin acc cs = Ret e /\ good e /\ getWidth e = 1 /\
    forall rho, in_domain rho -> eval rho e = 1 <-> eval rho acc = 1 /\ Forall (fun c => eval rho c = 1) cs.
Proof.
  induction cs as [|c cs IH]; intros acc Hcs Hg Hw; simpl.
  { exists acc. split_and!; auto. intros. split; [by auto|tauto]. }
  apply Forall_cons in Hcs as [[Hgc Hwc] Hcs].
  destruct (creates_good 1 (fun rho => Z.land (eval rho acc) (eval rho c)) (AndExpr__create acc c))
    as (e & E & Hge & Hwe & Hev).
  - apply AndExpr__create_creates; [rewrite <- Hw|rewrite <- Hwc]; by apply good_denotes.
  - apply AndExpr__create_closed; [apply Hg|apply Hgc].
  - rewrite E. cbn [mbind outcome_bind]. destruct (IH e Hcs Hge Hwe) as (e' & -> & Hge' & Hwe' & Hev').
    exists e'. split_and!; auto. intros rho HD. rewrite Hev', Hev, Forall_cons by done.
    destruct (eval_bool rho acc Hg Hw) as [Ea|Ea], (eval_bool rho c Hgc Hwc) as [Ec|Ec];
      rewrite Ea, Ec; simpl; naive_solver.
Qed.

End Bindings.

Section Contract.
Context `{ExprOptions} `{DivByZero} `{Universe}.
Context {S W T : Type} `{!Solver S} `{!SolverSpec S} `{!Solver W} `{!SolverSpec W}.
Variables (solver : view T S) (oracle : view T W) (inv : T -> Prop).

(** The two parts can be used in turn. *)
Hypothesis Hsolver_get : forall t, inv t -> solver_inv (view_get solver t).
Hypothesis Hsolver_put : forall s t, inv t -> solver_inv s -> inv (view_put solver s t).
Hypothesis Horacle_get : forall t, inv t -> solver_inv (view_get oracle t).
Hypothesis Horacle_put : forall s t, inv t -> solver_inv s -> inv (view_put oracle s t).

Definition either_fails : Prop := solver_fails (S:=S) \/ solver_fails (S:=W).

(** What the check of initial values asks: objects that hold every symbolic
    byte of the query. *)
Record checkable (q : Query) (objects : list Array) : Prop := {
  ck_inner : initial_pre (S:=S) q objects;
  ck_feasible : feasible q;
  ck_objects : Forall (fun a => known a /\ wf_array a /\ isSymbolicArray a = true) objects;
  ck_covers : forall e a, e ∈ expr q :: constraints q -> isSymbolicArray a = true ->
    reads_array a e -> a ∈ objects
}.

Lemma on_solver {A} (m : SM S A) (Q : A -> Prop) :
  sat solver_inv (solver_fails (S:=S)) m Q -> sat inv either_fails (on solver m) Q.
Proof using Hsolver_get Hsolver_put.
  intros Hm. eapply sat_weaken; [by left|]. by eapply sat_zoom.
Qed.

Lemma on_oracle {A} (m : SM W A) (Q : A -> Prop) :
  sat solver_inv (solver_fails (S:=W)) m Q -> sat inv either_fails (on oracle m) Q.
Proof using Horacle_get Horacle_put.
  intros Hm. eapply sat_weaken; [by right|]. by eapply sat_zoom.
Qed.

Lemma Validating_computeTruth_ok q :
  bool_query q -> feasible q ->
  sat inv either_fails (ValidatingSolver__computeTruth solver oracle q) (truth_ok q).
Proof using Hsolver_get Hsolver_put Horacle_get Horacle_put.
  intros Hq Hf. eapply sat_bind; [by apply on_solver, computeTruth_ok|]. intros b Hb.
  eapply sat_bind; [by apply on_oracle, computeTruth_ok|]. intros b' Hb'.
  eapply sat_bind; [apply sat_assert, bool_decide_eq_true|].
  - unfold truth_ok in *. destruct b, b'; naive_solver.
  - intros _ _. by apply sat_ret.
Qed.

Lemma Validating_computeValidity_ok q :
  bool_query q -> computable q (expr q) -> feasible q ->
  sat inv either_fails (ValidatingSolver__computeValidity solver oracle q) (validity_ok q).
Proof using Hsolver_get Hsolver_put Horacle_get Horacle_put.
  intros Hq Hc Hf. eapply sat_bind; [by apply on_solver, computeValidity_ok|]. intros b Hb.
  eapply sat_bind; [by apply on_oracle, computeValidity_ok|]. intros b' Hb'.
  eapply sat_bind; [apply sat_assert, bool_decide_eq_true|].
  - destruct Hf as [rho Hm]. destruct b, b'; simpl in *; try done; try naive_solver;
      exfalso; specialize (Hb rho Hm); specialize (Hb' rho Hm); lia.
  - intros _ _. by apply sat_ret.
Qed.

Lemma Validating_computeValue_ok q :
  good_query q -> computable q (expr q) -> feasible q ->
  sat inv either_fails (ValidatingSolver__computeValue solver oracle q) (value_ok q).
Proof using Hsolver_get Hsolver_put Horacle_get Horacle_put.
  intros Hq Hc Hf. eapply sat_bind; [by apply on_solver, computeValue_ok|]. intros r Hr.
  pose proof Hr as (v & -> & rho & Hm & Hv). destruct Hq as [Hcs Hg].
  assert (Hv' : 0 <= v < 2 ^ getWidth (expr q)) by (rewrite <- Hv; apply eval_range, Hg).
  assert (Hgr : good (Constant (mkConst v (getWidth (expr q))))).
  { apply good_constant; [apply wf_getWidth, Hg|done]. }
  destruct (creates_good 1 (fun rho => Z.b2z (negb (eval rho (expr q) =? v)))
    (NeExpr__create (expr q) (Constant (mkConst v (getWidth (expr q)))))) as (d & E & Hgd & Hwd & Hev).
  - eapply (NeExpr__create_creates _ (getWidth (expr q)) (fun rho => eval rho (expr q)) (fun _ => v)).
    + by apply good_denotes.
    + by apply (good_denotes _ Hgr).
  - apply NeExpr__create_closed; [apply Hg|apply Hgr].
  - eapply (sat_bind _ _ (fun x => x = d)); [apply sat_lift; by exists d|]. intros ? ->.
    eapply sat_bind; [apply on_oracle, computeTruth_ok|]; [by split|by apply (feasible_constraints q)|].
    intros b Hb. eapply sat_bind; [apply sat_assert, negb_true_iff|intros _ _; by apply sat_ret].
    destruct b; [|done]. exfalso. assert (Hval : valid (withExpr q d)) by by apply Hb.
    specialize (Hval rho Hm). simpl in Hval. rewrite Hev, Hv in Hval by apply Hm.
    by rewrite Z.eqb_refl in Hval.
Qed.

(** Assignments that agree on the objects agree on the query. *)
Lemma pinned_eval q objects rho rho' e :
  checkable q objects -> good e -> e ∈ expr q :: constraints q ->
  in_domain rho -> in_domain rho' -> pinned rho objects rho' -> eval rho' e = eval rho e.
Proof using Type.
  intros [_ _ Hobj Hcov] Hg He HD HD' Hpin. destruct Hg as [Hwf Hb _].
  assert (Hbeyond : forall r a i, in_domain r -> known a -> asize a <= i -> r a i = 0).
  { intros r a i Hr Ha Hi. pose proof (heap_shape (aaddr a)) as (_ & _ & Hsz). rewrite Ha in Hsz.
    apply Hr; [done|lia|]. destruct (free a i) eqn:Ef; [|done]. apply free_range in Ef. lia. }
  apply (eval_frame heap (fun a _ => isConstantArray a = true \/ a ∈ objects)); auto.
  - intros a i Ha Hc Hi [Hc'|Hin]; [congruence|].
    destruct (decide (i < asize a)); [apply Hpin; [done|lia]|]. by rewrite !Hbeyond by (done || lia).
  - intros a i Ha Hc Hi. by rewrite !Hbeyond by (done || lia).
  - by apply built_in_heap.
  - intros r Hr. destruct r as [| |a u i| | | | | | |]; try done.
    assert (Hin : isConstantArray a = true \/ a ∈ objects).
    { destruct (isSymbolicArray a) eqn:Es; [right|left; unfold isConstantArray; by rewrite Es].
      apply (Hcov e); [done..|]. by exists u, i. }
    right. by destruct i.
Qed.

(** The query that checks the values found. *)
Lemma check_values_ok q objects values :
  bool_query q -> checkable q objects -> initial_ok q objects (Some values) ->
  exists cq, (bindings ← bind_objects objects values;
      neg ← Expr__createIsZero (expr q);
      all ← conjoin neg (constraints q);
      Ret (mkQuery bindings all)) = Ret cq /\ bool_query cq /\ feasible cq /\ valid cq.
Proof using Type.
  intros Hq Hck (rho & [HD Hm] & Hz & Hv). pose proof Hq as [[Hcs Hg] Hw].
  destruct (bind_objects_ok rho objects values HD (ck_objects _ _ Hck) Hv) as (bs & -> & [Hgb Hpin]).
  cbn [mbind outcome_bind]. destruct (IsZero_good _ Hg) as (neg & -> & Hgn & Hwn & Hevn).
  cbn [mbind outcome_bind]. destruct (conjoin_ok _ neg Hcs Hgn Hwn) as (all & -> & Hga & Hwa & Heva).
  cbn [mbind outcome_bind]. eexists. split; [done|]. split_and!; [by split| |].
  - exists rho. split; [done|]. by apply Hpin.
  - intros rho' [HD' Hm']. simpl in *. apply Hpin in Hm'; [|done]. apply Heva; [done|].
    rewrite Hevn by done. rewrite Forall_forall in Hm |- *.
    rewrite (pinned_eval q objects rho) by (auto; left). rewrite Hz. split; [done|].
    intros c Hc. unfold good_constraints in Hcs. rewrite Forall_forall in Hcs.
    rewrite (pinned_eval q objects rho); auto; [by apply Hcs|by right].
Qed.

Lemma Validating_computeInitialValues_ok q objects :
  bool_query q -> not_true (expr q) -> Forall known objects -> checkable q objects ->
  sat inv either_fails (ValidatingSolver__computeInitialValues solver oracle q objects)
    (initial_ok q objects).
Proof using Hsolver_get Hsolver_put Horacle_get Horacle_put.
  intros Hq Hn Ho Hck. eapply sat_bind.
  { apply on_solver, computeInitialValues_ok; auto. apply Hck. }
  intros r Hr. eapply (sat_bind _ _ (fun cq => bool_query cq /\ feasible cq /\ valid cq)).
  { destruct r as [values|]; [apply sat_lift; by apply check_values_ok|].
    apply sat_ret. split_and!; [done|apply Hck|done]. }
  intros cq (Hcq & Hf & Hv). eapply sat_bind; [by apply on_oracle, computeTruth_ok|].
  intros b Hb. eapply sat_bind; [apply sat_assert; by apply Hb|]. intros _ _. by apply sat_ret.
Qed.

#[refine] Definition ValidatingSolver_spec :
    @SolverSpec _ _ _ T (ValidatingSolver_solver solver oracle) := {|
  solver_inv := inv;
  solver_fails := either_fails;
  initial_pre := checkable
|}.
Proof using Hsolver_get Hsolver_put Horacle_get Horacle_put.
  - apply Validating_computeTruth_ok.
  - apply Validating_computeValidity_ok.
  - apply Validating_computeValue_ok.
  - apply Validating_computeInitialValues_ok.
Defined.

End Contract.
