(* ===== verification/SolverChain.v ===== *)
(** * The solver chain

    [constructSolverChain] of [lib/Solver/ConstructSolverChain.cpp] puts the
    solvers together, each around the one before it: the caches, the
    independence solver and the validating ones, by the options.  The contract
    of the core solver carries through every choice of them, so any sequence
    of calls on a new chain gets right answers. *)

From stdpp Require Import sorting.
From S2P Require Import Prelude MapOfSets ExprData ExprCreate ExprSem ExprBool ExprArith ExprBits ExprSpec ExprOrder ExprHeap ExprEval ExprReads Solver SolverRange SolverStaged SolverCaching SolverCexCaching SolverIndependent SolverIndependentSpec SolverIndependentValues SolverValidating.

(** ** Putting solvers together *)

(** The options of [SolverCmdLine.cpp] that choose the solvers; those that add
    logging, the assignment validating solver and the fast counterexample
    solver are off. *)
Class ChainOptions : Type := {
  UseCexCache : bool;
  UseBranchCache : bool;
  UseIndependentSolver : bool;
  DebugValidateSolver : bool
}.

(** A solver with its state at the start. *)
Record core_solver : Type := mkCore {
  core_state : Type;
  core_ops : Solver core_state;
  core_start : core_state
}.

(** A solver whose state has that of the core solver in it. *)
Record chain (C : Type) : Type := mkChain {
  chain_state : Type;
  chain_ops : Solver chain_state;
  chain_start : chain_state;
  chain_core : view chain_state C
}.
Arguments mkChain {_} _ _ _ _.
Arguments chain_state {_} _.
Arguments chain_ops {_} _.
Arguments chain_start {_} _.
Arguments chain_core {_} _.

#[local] Existing Instance core_ops.
#[local] Existing Instance chain_ops.

(** The core solver inside a solver that is inside another state. *)
Definition view_within {T S C} (get : T -> S) (put : S -> T -> T) (v : view S C) : view T C :=
  mkView (fun t => view_get v (get t)) (fun c t => put (view_put v c (get t)) t).

Section Construct.
Context `{ExprOptions} `{HashValue} `{CexOptions} `{ChainOptions}.

Definition createCexCachingSolver {C} (s : chain C) : chain C :=
  mkChain (CexCachingSolver (chain_state s)) _ (mkCex (UBTree.mkNode None false []) [] (chain_start s))
    (view_within cex_solver (fun x t => mkCex (cex_cache t) (assignmentsTable t) x) (chain_core s)).

Definition createCachingSolver {C} (s : chain C) : chain C :=
  mkChain (CachingSolver (chain_state s)) _ (mkCaching ∅ (chain_start s))
    (view_within solver (fun x t => mkCaching (cache t) x) (chain_core s)).

Definition createIndependentSolver {C} (s : chain C) : chain C :=
  mkChain (IndependentSolver (chain_state s)) _ (mkIndependent (chain_start s))
    (view_within independent_solver (fun x _ => mkIndependent x) (chain_core s)).

(** The oracle is the core solver of the chain itself. *)
Definition createValidatingSolver {C} `{!Solver C} (s : chain C) : chain C :=
  mkChain (chain_state s)
    (ValidatingSolver_solver (mkView id (fun x _ => x)) (chain_core s))
    (chain_start s) (chain_core s).

(** The oracle is another solver. *)
Definition createCrossCheckSolver {C} (s : chain C) (oracle : core_solver) : chain C :=
  mkChain (chain_state s * core_state oracle)
    (ValidatingSolver_solver (mkView fst (fun x t => (x, t.2))) (mkView snd (fun x t => (t.1, x))))
    (chain_start s, core_start oracle)
    (view_within fst (fun x t => (x, t.2)) (chain_core s)).

Definition constructSolverChain (coreSolver : core_solver) (oracleSolver : option core_solver)
    : chain (core_state coreSolver) :=
  let solver := mkChain (core_state coreSolver) _ (core_start coreSolver) (mkView id (fun x _ => x)) in
  let solver := if UseCexCache then createCexCachingSolver solver else solver in
  let solver := if UseBranchCache then createCachingSolver solver else solver in
  let solver := if UseIndependentSolver then createIndependentSolver solver else solver in
  let solver := if DebugValidateSolver then createValidatingSolver solver else solver in
  match oracleSolver with
  | Some oracle => createCrossCheckSolver solver oracle
  | None => solver
  end.

End Construct.

(** ** The contract of a chain *)

Section Spec.
Context `{ExprOptions} `{DivByZero} `{Universe} `{HashValue} `{CexOptions} `{ChainOptions}.
(** The debugging option that re-evaluates new assignments is off. *)
Hypothesis Hdebug : DebugCexCacheCheckBinding = false.

Section Core.
Context {C : Type} `{!Solver C} `{!SolverSpec C}.

(** A chain keeps the contract when its core does: it starts well, reports
    failure only if [F], takes the queries of [P] for initial values, and
    calls on the core solver alone do no harm. *)
Record chain_ok (F : Prop) (P : Query -> list Array -> Prop) (c : chain C) : Type := {
  co_spec : SolverSpec (chain_state c);
  co_start : solver_inv (chain_start c);
  co_fails : solver_fails (S:=chain_state c) -> F;
  co_pre : forall q objects, P q objects -> initial_pre (S:=chain_state c) q objects;
  co_get : forall t, solver_inv t -> solver_inv (view_get (chain_core c) t);
  co_put : forall x t, solver_inv t -> solver_inv x -> solver_inv (view_put (chain_core c) x t)
}.

Abbreviation any := (fun (_ : Query) (_ : list Array) => True).

Lemma cex_inv_new {T} (J : T -> Prop) s : J s -> cex_inv J (mkCex (UBTree.mkNode None false []) [] s).
Proof using Type.
  clear Hdebug. intros Hs. split; simpl; auto.
  - by split; [constructor|].
  - intros key v Hst. inversion Hst; subst. set_solver.
Qed.

Lemma cex_chain_ok F c :
  chain_ok F any c -> chain_ok (F \/ CexCacheExperimental = true) any (createCexCachingSolver c).
Proof using Hdebug.
  intros [Hspec Hs Hf Hp Hg Hput].
  refine {| co_spec := CexCachingSolver_spec (fun q o => Hp q o I) Hdebug : SolverSpec (chain_state (createCexCachingSolver c)) |}; simpl.
  - by apply cex_inv_new.
  - tauto.
  - auto.
  - intros t Ht. apply Hg. apply Ht.
  - intros x t Ht Hx. destruct Ht as [W1 W2 W3 W4]. split; simpl; auto.
Defined.

Lemma branch_chain_ok F P c : chain_ok F P c -> chain_ok F P (createCachingSolver c).
Proof using Type.
  clear Hdebug. intros [Hspec Hs Hf Hp Hg Hput].
  refine {| co_spec := CachingSolver_spec : SolverSpec (chain_state (createCachingSolver c)) |}; simpl; auto.
  - split; [|done]. apply map_Forall_empty.
  - intros t [_ Ht]. auto.
  - intros x t [Hc Ht] Hx. split; simpl; auto.
Defined.

Lemma independent_chain_ok F c :
  chain_ok F any c -> chain_ok F (fun q _ => initial_ready q) (createIndependentSolver c).
Proof using Type.
  clear Hdebug. intros [Hspec Hs Hf Hp Hg Hput].
  refine {| co_spec := IndependentSolver_spec (fun q o => Hp q o I)
                        : SolverSpec (chain_state (createIndependentSolver c)) |}; simpl; auto.
  - intros x t Ht Hx. by apply Hput.
Defined.

(** What the checks of initial values ask. *)
Definition covering (P : Query -> list Array -> Prop) (q : Query) (objects : list Array) : Prop :=
  P q objects /\ feasible q /\
  Forall (fun a => known a /\ wf_array a /\ isSymbolicArray a = true) objects /\
  forall e a, e ∈ expr q :: constraints q -> isSymbolicArray a = true -> reads_array a e -> a ∈ objects.

Lemma validating_chain_ok F P c :
  chain_ok F P c -> chain_ok (F \/ solver_fails (S:=C)) (covering P) (createValidatingSolver c).
Proof using Type.
  clear Hdebug. intros [Hspec Hs Hf Hp Hg Hput].
  unshelve refine {| co_spec := ValidatingSolver_spec (mkView id (fun x _ => x)) (chain_core c) solver_inv _ _ _ _
              : @SolverSpec _ _ _ _ (chain_ops (createValidatingSolver c)) |}; simpl; auto.
  - unfold either_fails. tauto.
  - intros q objects (HP & Hfe & Ho & Hc). split; auto.
Defined.

Lemma cross_chain_ok F P c (oracle : core_solver) `{!SolverSpec (core_state oracle)} :
  chain_ok F P c -> solver_inv (core_start oracle) ->
  chain_ok (F \/ solver_fails (S:=core_state oracle)) (covering P) (createCrossCheckSolver c oracle).
Proof using Type.
  clear Hdebug. intros [Hspec Hs Hf Hp Hg Hput] Ho.
  unshelve refine {| co_spec := ValidatingSolver_spec (S:=chain_state c)
              (mkView fst (fun x t => (x, t.2))) (mkView snd (fun x t => (t.1, x)))
              (fun t => solver_inv t.1 /\ solver_inv t.2) _ _ _ _
              : @SolverSpec _ _ _ _ (chain_ops (createCrossCheckSolver c oracle)) |}; simpl; try tauto.
  - unfold either_fails. tauto.
  - intros q objects (HP & Hfe & Hob & Hc). split; auto.
  - intros t [Ht _]. auto.
  - intros x t [Ht Ht'] Hx. auto.
Defined.

End Core.

(** The failures a chain may report, and what it asks of a query for initial
    values. *)
Definition chain_fails (coreF oracleF : Prop) : Prop :=
  coreF \/ (UseCexCache = true /\ CexCacheExperimental = true) \/ oracleF.

Definition chain_pre (checked : bool) (q : Query) (objects : list Array) : Prop :=
  initial_ready q /\ feasible q /\
  (checked = true ->
    Forall (fun a => known a /\ wf_array a /\ isSymbolicArray a = true) objects /\
    forall e a, e ∈ expr q :: constraints q -> isSymbolicArray a = true -> reads_array a e -> a ∈ objects).

(** A core solver that keeps the contract. *)
Record proved_core : Type := mkProved {
  pc_core : core_solver;
  pc_spec : SolverSpec (core_state pc_core);
  pc_start : solver_inv (core_start pc_core)
}.

Definition pc_fails (c : proved_core) : Prop := solver_fails (SolverSpec:=pc_spec c).

Definition oracle_fails (o : option proved_core) : Prop :=
  match o with Some o => pc_fails o | None => False end.

Lemma chain_ok_weaken {C} `{!Solver C} `{!SolverSpec C} (F F' : Prop) (P P' : Query -> list Array -> Prop)
    (c : chain C) :
  (F -> F') -> (forall q objects, P' q objects -> P q objects) -> chain_ok F P c -> chain_ok F' P' c.
Proof using Type. clear Hdebug. intros HF HP [Hspec Hs Hf Hp Hg Hput]. exists Hspec; auto. Defined.

Lemma base_chain_ok (core : core_solver) `{!SolverSpec (core_state core)} :
  solver_inv (core_start core) -> (forall q objects, initial_pre (S:=core_state core) q objects) ->
  chain_ok (solver_fails (S:=core_state core)) (fun _ _ => True)
    (mkChain (core_state core) _ (core_start core) (mkView id (fun x _ => x))).
Proof using Type.
  clear Hdebug. intros Hs Hp.
  refine {| co_spec := _ : SolverSpec (chain_state (mkChain (core_state core) _ (core_start core) _)) |};
    simpl; auto.
Defined.

(** Every choice of the options gives a chain that keeps the contract. *)
Lemma constructSolverChain_ok (core : proved_core) (oracle : option proved_core) :
  (forall q objects, initial_pre (SolverSpec:=pc_spec core) q objects) ->
  chain_ok (SolverSpec0:=pc_spec core) (chain_fails (pc_fails core) (oracle_fails oracle))
    (chain_pre (DebugValidateSolver || bool_decide (is_Some oracle)))
    (constructSolverChain (pc_core core) (pc_core <$> oracle)).
Proof using Hdebug.
  destruct core as [core Hspec Hstart]. intros Hpre. unfold constructSolverChain, pc_fails. cbn [pc_core pc_spec].
  pose proof (base_chain_ok core Hstart Hpre) as H0c.
  set (c0 := mkChain (core_state core) _ _ _) in *. clearbody c0.
  set (F1 := solver_fails (S:=core_state core) \/ (UseCexCache = true /\ CexCacheExperimental = true)).
  assert (H1c : chain_ok F1 (fun _ _ => True) (if UseCexCache then createCexCachingSolver c0 else c0)).
  { unfold F1. destruct UseCexCache.
    - eapply chain_ok_weaken; [| |apply (cex_chain_ok _ _ H0c)]; [tauto|done].
    - eapply chain_ok_weaken; [| |exact H0c]; [tauto|done]. }
  set (c1 := if UseCexCache then _ else _) in *. clearbody c1. clear H0c c0.
  assert (H2c : chain_ok F1 (fun _ _ => True) (if UseBranchCache then createCachingSolver c1 else c1)).
  { destruct UseBranchCache; [by apply branch_chain_ok|done]. }
  set (c2 := if UseBranchCache then _ else _) in *. clearbody c2. clear H1c c1.
  assert (H3c : chain_ok F1 (fun q _ => initial_ready q)
    (if UseIndependentSolver then createIndependentSolver c2 else c2)).
  { destruct UseIndependentSolver; [by apply independent_chain_ok|].
    eapply chain_ok_weaken; [| |exact H2c]; done. }
  set (c3 := if UseIndependentSolver then _ else _) in *. clearbody c3. clear H2c c2.
  assert (H4c : chain_ok F1 (chain_pre DebugValidateSolver)
    (if DebugValidateSolver then createValidatingSolver c3 else c3)).
  { unfold chain_pre. destruct DebugValidateSolver.
    - eapply chain_ok_weaken; [| |apply (validating_chain_ok _ _ _ H3c)].
      + unfold F1. tauto.
      + intros q objects (Hr & Hf & Hc). destruct (Hc eq_refl). by split_and!.
    - eapply chain_ok_weaken; [| |exact H3c]; [tauto|]. by intros q objects (Hr & _). }
  set (c4 := if DebugValidateSolver then _ else _) in *. clearbody c4. clear H3c c3.
  unfold chain_fails, chain_pre. destruct oracle as [[o Hospec Hostart]|]; simpl.
  - eapply chain_ok_weaken; [| |apply (cross_chain_ok _ _ _ o H4c Hostart)].
    + unfold F1, pc_fails. simpl. tauto.
    + intros q objects (Hr & Hf & Hc). destruct (Hc (orb_true_r _)) as [Ho Hcov].
      split_and!; auto. split_and!; auto.
  - eapply chain_ok_weaken; [| |exact H4c]; [unfold F1; tauto|].
    intros q objects (Hr & Hf & Hc). split_and!; auto. intros Hd. apply Hc. by rewrite Hd.
Defined.

End Spec.

(** ** Sequences of calls *)

(** The calls of the front end that the executor makes, and their results. *)
Inductive ask : Type :=
  | AskEvaluate (q : Query)
  | AskMustBeTrue (q : Query)
  | AskMayBeTrue (q : Query)
  | AskValue (q : Query)
  | AskInitialValues (q : Query) (objects : list Array).

Inductive answer : Type :=
  | AnsValidity (v : Validity.t)
  | AnsBool (b : bool)
  | AnsConstant (c : ConstantExpr)
  | AnsValues (values : list (list Z)).

Definition perform `{ExprOptions} {S} `{!Solver S} (a : ask) : SM S answer :=
  match a with
  | AskEvaluate q => v ← Solver__evaluate q; mret (AnsValidity v)
  | AskMustBeTrue q => b ← Solver__mustBeTrue q; mret (AnsBool b)
  | AskMayBeTrue q => b ← Solver__mayBeTrue q; mret (AnsBool b)
  | AskValue q => c ← Solver__getValue q; mret (AnsConstant c)
  | AskInitialValues q objects => vs ← Solver__getInitialValues q objects; mret (AnsValues vs)
  end.

(** One call after the other on the same solver; a call that fails gives no
    answer. *)
Fixpoint perform_all `{ExprOptions} {S} `{!Solver S} (asks : list ask) (s : S)
    : outcome (list (option answer) * S) :=
  match asks with
  | [] => Ret ([], s)
  | a :: asks =>
      r ← perform a s;
      rest ← perform_all asks r.2;
      Ret (r.1 :: rest.1, rest.2)
  end.

Section Asks.
Context `{ExprOptions} `{DivByZero} `{Universe}.

(** What the executor asks, and what an answer means. *)
Definition ask_pre (pre : Query -> list Array -> Prop) (a : ask) : Prop :=
  match a with
  | AskEvaluate q => bool_query q /\ computable q (expr q) /\ feasible q
  | AskMustBeTrue q | AskMayBeTrue q => bool_query q /\ feasible q
  | AskValue q => good_query q /\ computable q (expr q) /\ feasible q
  | AskInitialValues q objects =>
      bool_query q /\ not_true (expr q) /\ Forall known objects /\ pre q objects
  end.

Definition ask_ok (F : Prop) (a : ask) (r : option answer) : Prop :=
  match a, r with
  | AskEvaluate q, Some (AnsValidity v) => validity_ok q v
  | AskMustBeTrue q, Some (AnsBool b) => truth_ok q b
  | AskMayBeTrue q, Some (AnsBool b) => (b = true -> ~ contradicted q) /\ (b = false -> contradicted q)
  | AskValue q, Some (AnsConstant c) => cwidth c = getWidth (expr q) /\ attains q (cvalue c)
  | AskInitialValues q objects, Some (AnsValues values) => initial_ok q objects (Some values)
  | AskInitialValues q objects, None => F \/ valid q
  | _, None => F
  | _, _ => False
  end.

Lemma ask_answered {S} `{!Solver S} `{!SolverSpec S} (F : Prop) pre a s :
  (solver_fails (S:=S) -> F) -> (forall q objects, pre q objects -> initial_pre (S:=S) q objects) ->
  ask_pre pre a -> solver_inv s ->
  exists r s', perform a s = Ret (r, s') /\ solver_inv s' /\ ask_ok F a r.
Proof.
  intros HF Hpre Ha Hs.
  assert (Hsat : sat solver_inv (match a with AskInitialValues q _ => F \/ valid q | _ => F end)
    (perform a) (fun r => ask_ok F a (Some r))).
  { destruct a as [q|q|q|q|q objects]; cbn [perform]; decompose_hyps; simpl in Ha.
    - destruct Ha as (Hq & Hc & Hf). eapply sat_bind; [eapply sat_weaken; [exact HF|by apply Solver__evaluate_ok]|].
      intros. by apply sat_ret.
    - destruct Ha as (Hq & Hf). eapply sat_bind; [eapply sat_weaken; [exact HF|by apply Solver__mustBeTrue_ok]|].
      intros. by apply sat_ret.
    - destruct Ha as (Hq & Hf). eapply sat_bind; [eapply sat_weaken; [exact HF|by apply Solver__mayBeTrue_ok]|].
      intros. by apply sat_ret.
    - destruct Ha as (Hq & Hc & Hf). eapply sat_bind; [eapply sat_weaken; [exact HF|by apply Solver__getValue_ok]|].
      intros. by apply sat_ret.
    - destruct Ha as (Hq & Hn & Ho & Hp).
      eapply sat_bind; [eapply sat_weaken; [|apply Solver__getInitialValues_ok]|]; auto; [tauto|].
      intros. by apply sat_ret. }
  destruct (Hsat s Hs) as (r & s' & E & Hs' & Hr). exists r, s'. split_and!; auto.
  destruct r; [done|]. by destruct a.
Qed.

Lemma asks_answered {S} `{!Solver S} `{!SolverSpec S} (F : Prop) pre asks : forall s,
  (solver_fails (S:=S) -> F) -> (forall q objects, pre q objects -> initial_pre (S:=S) q objects) ->
  Forall (ask_pre pre) asks -> solver_inv s ->
  exists answers s', perform_all asks s = Ret (answers, s') /\ solver_inv s' /\
    Forall2 (ask_ok F) asks answers.
Proof.
  induction asks as [|a asks IH]; intros s HF Hpre Hall Hs; cbn [perform_all].
  { exists [], s. by split_and!. }
  apply Forall_cons in Hall as [Ha Hall].
  destruct (ask_answered F pre a s HF Hpre Ha Hs) as (r & s1 & -> & Hs1 & Hr). cbn [mbind outcome_bind fst snd].
  destruct (IH s1 HF Hpre Hall Hs1) as (answers & s2 & -> & Hs2 & Hrs). cbn [mbind outcome_bind fst snd].
  exists (r :: answers), s2. split_and!; auto.
Qed.

End Asks.

(** C3: any sequence of calls on a new solver chain, whatever caches, factoring
    and cross checks the options put in it, gets right answers when the core
    solver gives right answers: validity, truth and values under the path
    condition are exact, an assignment found satisfies the constraints and
    falsifies the query, no assertion of the chain fails, and a call fails
    only when the core or the oracle does or with the experimental option of
    the counterexample cache. *)
Theorem solver_chain_correct `{ExprOptions} `{DivByZero} `{Universe} `{HashValue} `{CexOptions}
    `{ChainOptions} (core : proved_core) (oracle : option proved_core) (asks : list ask) :
  DebugCexCacheCheckBinding = false ->
  (forall q objects, initial_pre (SolverSpec:=pc_spec core) q objects) ->
  let c := constructSolverChain (pc_core core) (pc_core <$> oracle) in
  Forall (ask_pre (chain_pre (DebugValidateSolver || bool_decide (is_Some oracle)))) asks ->
  exists answers s', perform_all (Solver0:=chain_ops c) asks (chain_start c) = Ret (answers, s') /\
    Forall2 (ask_ok (chain_fails (pc_fails core) (oracle_fails oracle))) asks answers.
Proof.
  intros Hdebug Hpre c Hasks.
  destruct (constructSolverChain_ok Hdebug core oracle Hpre) as [Hspec Hs Hf Hp _ _].
  destruct (asks_answered (SolverSpec0:=Hspec) _ _ asks _ Hf Hp Hasks Hs) as (answers & s' & E & _ & Hr).
  by exists answers, s'.
Qed.

(** ** The caches *)

(** C21: whatever calls were made, an entry of the counterexample cache is
    right: a set of constraints stored with no assignment has none, a set
    stored with one is satisfied by it; so the answers taken from subsets,
    supersets and earlier assignments are right as well. *)
Theorem cex_cache_invariant `{ExprOptions} `{DivByZero} `{Universe} `{HashValue} `{CexOptions}
    {S} `{!Solver S} `{!SolverSpec S} (asks : list ask) s :
  DebugCexCacheCheckBinding = false ->
  (forall q objects, initial_pre (S:=S) q objects) -> solver_inv s ->
  Forall (ask_pre (fun _ _ => True)) asks ->
  exists answers t,
    perform_all asks (mkCex (UBTree.mkNode None false []) [] s) = Ret (answers, t) /\
    forall key v, UBTree.stored (cex_cache t) key v ->
      match v with
      | None => forall rho, in_domain rho -> ~ Forall (fun c => eval rho c = 1) key
      | Some a => Forall (fun c => eval (env a) c = 1) key
      end.
Proof.
  intros Hdebug Hpre Hs Hasks.
  destruct (asks_answered (SolverSpec0:=CexCachingSolver_spec Hpre Hdebug)
    (solver_fails (S:=S) \/ CexCacheExperimental = true) (fun _ _ => True) asks
    (mkCex (UBTree.mkNode None false []) [] s)) as (answers & t & E & Hinv & _); auto.
  - by apply cex_inv_new.
  - exists answers, t. split; [done|]. intros key v Hst. apply (cex_entries _ _ Hinv) in Hst.
    destruct v; [apply Hst|exact Hst].
Qed.

(** C22: whatever calls were made, an entry of the branch cache is right for
    its constraints and canonical expression, whichever of the query and its
    negation was asked first. *)
Theorem branch_cache_invariant `{ExprOptions} `{DivByZero} `{Universe} `{HashValue}
    {S} `{!Solver S} `{!SolverSpec S} (asks : list ask) s :
  (forall q objects, initial_pre (S:=S) q objects) -> solver_inv s ->
  Forall (ask_pre (fun _ _ => True)) asks ->
  exists answers t, perform_all asks (mkCaching ∅ s) = Ret (answers, t) /\
    forall cs e pv, cache t !! (cs, e) = Some pv ->
      pv <> PartialValidity.None /\ pv_ok (mkQuery cs e) pv.
Proof.
  intros Hpre Hs Hasks.
  destruct (asks_answered (SolverSpec0:=CachingSolver_spec)
    (solver_fails (S:=S)) (fun _ _ => True) asks (mkCaching ∅ s)) as (answers & t & E & [Hc _] & _); auto.
  - intros q objects _. apply Hpre.
  - split; [|done]. apply map_Forall_empty.
  - exists answers, t. split; [done|]. intros cs e pv Hl. by apply Hc in Hl.
Qed.
