(* ===== verification/SolverExample.v ===== *)
(** * A core solver that enumerates

    A core solver is a library that the sources call.  Here is one that keeps
    its contract, for one symbolic byte: it tries the 256 assignments.  On it
    the chain of [SolverChain] runs, and the hypotheses of the theorems on
    solvers are met. *)

From stdpp Require Import sorting.
From S2P Require Import Prelude MapOfSets ExprData ExprCreate ExprSem ExprBool ExprArith ExprBits ExprSpec ExprOrder ExprHeap ExprEval ExprReads Solver SolverRange SolverStaged SolverCaching SolverCexCaching SolverIndependent SolverIndependentSpec SolverIndependentValues SolverValidating SolverChain.

Module Enumeration.

Definition array : Array := mkArray 4096 "x" 1 32 8 [].

Definition heap_at (p : Z) : Array := if p =? 4096 then array else mkArray p "" 0 32 8 [].

#[refine] Instance universe : Universe := {|
  heap := heap_at;
  free a i := bool_decide (a = array) && (i =? 0)
|}.
Proof.
  - intros p. unfold heap_at. by destruct (p =? 4096).
  - intros a i [->%bool_decide_eq_true ->%Z.eqb_eq]%andb_true_iff. done.
Defined.

(** The option of constant arrays is off, as it is by default. *)
Instance options : ExprOptions := {| ConstArrayOpt := false |}.
Instance divz : DivByZero := ex_divz.

(** The assignment of [v] to the byte. *)
Definition byte_is (v : Z) : assignment := fun a i =>
  if bool_decide (a = array) && (i =? 0) then v else 0.

Lemma byte_is_domain v : 0 <= v < 256 -> in_domain (byte_is v).
Proof.
  intros Hv a i _ _. unfold byte_is. simpl. destruct (_ && _); split; try done; lia.
Qed.

Lemma domain_byte rho e : in_domain rho -> good e -> eval rho e = eval (byte_is (rho array 0)) e.
Proof.
  intros HD Hg. assert (Hr : 0 <= rho array 0 < 256) by (by apply (HD array 0)).
  apply (eval_agree (fun _ _ => True)); auto using byte_is_domain.
  - intros r _. destruct r as [| |a u i| | | | | | |]; try done. right. by destruct i.
  - intros a i Ha Hi _. destruct (HD a i Ha Hi) as [_ Hf]. simpl in Hf. unfold byte_is.
    destruct (bool_decide (a = array) && (i =? 0)) eqn:E; [|auto].
    apply andb_true_iff in E as [->%bool_decide_eq_true ->%Z.eqb_eq]. done.
Qed.

(** ** The solver *)

Definition holds_at (q : Query) (v : Z) : bool :=
  forallb (fun c => eval (byte_is v) c =? 1) (constraints q).

Definition bytes : list Z := seqZ 0 256.

Definition truth (q : Query) : bool :=
  forallb (fun v => implb (holds_at q v) (eval (byte_is v) (expr q) =? 1)) bytes.

Definition value (q : Query) : option Z := find (holds_at q) bytes.

Definition counterexample (q : Query) : option Z :=
  find (fun v => holds_at q v && (eval (byte_is v) (expr q) =? 0)) bytes.

Definition bytes_at (v : Z) (a : Array) : list Z :=
  map (byte_is v a) (seqZ 0 (asize a)).

Instance solver : Solver unit := {
  computeTruth q := mret (truth q);
  computeValidity := SolverImpl__computeValidity (fun q => mret (truth q));
  computeValue q :=
    match value q with
    | Some v => mret (Constant (mkConst (eval (byte_is v) (expr q)) (getWidth (expr q))))
    | None => fails
    end;
  computeInitialValues q objects :=
    mret (match counterexample q with
          | Some v => Some (map (bytes_at v) objects)
          | None => None
          end)
}.

(** ** It keeps the contract *)

Lemma holds_at_models q v : 0 <= v < 256 -> holds_at q v = true <-> models (byte_is v) q.
Proof.
  intros Hv. unfold holds_at, models. rewrite forallb_forall, Forall_forall.
  setoid_rewrite Z.eqb_eq. setoid_rewrite list_elem_of_In. split; [|tauto].
  intros Hall. split; [by apply byte_is_domain|done].
Qed.

Lemma models_byte q rho :
  good_query q -> models rho q -> 0 <= rho array 0 < 256 /\ models (byte_is (rho array 0)) q.
Proof.
  intros [Hcs _] [HD Hm]. assert (Hr : 0 <= rho array 0 < 256) by (by apply (HD array 0)).
  split; [done|]. split; [by apply byte_is_domain|]. unfold good_constraints in Hcs.
  rewrite Forall_forall in *. intros c Hc. rewrite <- domain_byte; auto. by apply Hcs.
Qed.

Lemma in_bytes v : In v bytes <-> 0 <= v < 256.
Proof. unfold bytes. rewrite <- list_elem_of_In, elem_of_seqZ. lia. Qed.

Lemma truth_spec q : good_query q -> truth_ok q (truth q).
Proof.
  intros Hq. unfold truth_ok, truth, valid. rewrite forallb_forall. setoid_rewrite in_bytes. split.
  - intros Hall rho Hm. destruct (models_byte q rho Hq Hm) as [Hr Hm'].
    specialize (Hall _ Hr). apply holds_at_models in Hm'; [|done]. rewrite Hm' in Hall. simpl in Hall.
    rewrite domain_byte; [by apply Z.eqb_eq|apply Hm|apply Hq].
  - intros Hv v Hr. destruct (holds_at q v) eqn:Eh; [|done]. simpl. apply Z.eqb_eq, Hv.
    by apply holds_at_models.
Qed.

Lemma find_bytes p v : find p bytes = Some v -> 0 <= v < 256 /\ p v = true.
Proof. intros [Hin Hp]%find_some. by apply in_bytes in Hin. Qed.

Lemma find_none_bytes p v : find p bytes = None -> 0 <= v < 256 -> p v = false.
Proof. intros Hf Hv. by apply (find_none _ _ Hf), in_bytes. Qed.

Lemma bytes_at_ok v a : known a -> bytes_of (byte_is v) a (bytes_at v a).
Proof.
  intros Ha. pose proof (heap_shape (aaddr a)) as (_ & _ & Hsz). rewrite Ha in Hsz.
  unfold bytes_at. split; [rewrite length_map, length_seqZ; lia|]. intros i b Hb.
  change (map (byte_is v a) (seqZ 0 (asize a))) with (byte_is v a <$> seqZ 0 (asize a)) in Hb.
  rewrite list_lookup_fmap in Hb.
  destruct (seqZ 0 (asize a) !! i) as [z|] eqn:E; [|done]. simpl in Hb.
  apply lookup_seqZ in E as [-> _]. by injection Hb as <-.
Qed.

#[refine] Instance solver_spec : SolverSpec unit := {|
  solver_inv _ := True;
  solver_fails := False;
  initial_pre _ _ := True
|}.
Proof.
  - intros q [Hq _] _. apply sat_ret. by apply truth_spec.
  - intros q Hq _ Hf. apply SolverImpl__computeValidity_ok; auto.
    intros q' [Hq' _] _. apply sat_ret. by apply truth_spec.
  - intros q Hq _ [rho Hm]. destruct (models_byte q rho Hq Hm) as [Hr Hm'].
    simpl. destruct (value q) as [v|] eqn:E.
    + apply find_bytes in E as [Hv Hh]. apply sat_ret. eexists. split; [done|]. exists (byte_is v).
      split; [by apply holds_at_models|done].
    + apply holds_at_models in Hm'; [|done]. by rewrite (find_none_bytes _ _ E Hr) in Hm'.
  - intros q objects [Hq Hw] _ Ho _. apply sat_ret. unfold initial_ok.
    destruct (counterexample q) as [v|] eqn:E.
    + apply find_bytes in E as [Hv [Hh Hz]%andb_true_iff]. exists (byte_is v).
      split_and!; [by apply holds_at_models|by apply Z.eqb_eq|].
      clear -Ho. induction Ho as [|a os Ha _ IH]; constructor; auto. by apply bytes_at_ok.
    + intros rho Hm. destruct (models_byte q rho Hq Hm) as [Hr Hm'].
      pose proof (find_none_bytes _ _ E Hr) as Hn. apply holds_at_models in Hm'; [|done].
      cbv beta in Hn. rewrite Hm' in Hn. simpl in Hn. apply Z.eqb_neq in Hn. rewrite (domain_byte rho); [|apply Hm|apply Hq].
      destruct (eval_bool (byte_is (rho array 0)) (expr q)) as [?|?]; [apply Hq|done|done|done].
Defined.

Definition core : proved_core :=
  mkProved (mkCore unit solver ()) solver_spec I.

(** ** Queries about the byte *)

Definition x : Expr := Read array NoUpdate (Constant (mkConst 0 32)).
Definition small : Expr := Binary Kind.Ult x (Constant (mkConst 10 8)).
Definition is_three : Expr := Binary Kind.Eq (Constant (mkConst 3 8)) x.

(** Is it three, when it is below ten? *)
Definition query : Query := mkQuery [small] is_three.
Definition value_query : Query := mkQuery [small] x.

Ltac concrete_good :=
  split; [vm_compute; intuition (done || lia)|vm_compute; intuition done|
          intros rho _ _; vm_compute; intuition done].

Lemma x_good : good x.
Proof. concrete_good. Qed.

Lemma small_good : good small.
Proof. concrete_good. Qed.

Lemma is_three_good : good is_three.
Proof. concrete_good. Qed.

Lemma small_constraints : good_constraints [small].
Proof. constructor; [|constructor]. split; [apply small_good|done]. Qed.

Lemma query_bool : bool_query query.
Proof. split; [split; [apply small_constraints|apply is_three_good]|done]. Qed.

Lemma value_query_good : good_query value_query.
Proof. split; [apply small_constraints|apply x_good]. Qed.

Lemma small_feasible e : feasible (mkQuery [small] e).
Proof.
  exists (byte_is 3). split; [by apply byte_is_domain|]. constructor; [|constructor]. done.
Qed.

Lemma x_tame rho : tame rho x.
Proof. simpl. split_and!; done. Qed.

Lemma x_computable q : computable q x.
Proof. intros rho _. apply x_tame. Qed.

Lemma is_three_computable q : computable q is_three.
Proof. intros rho _. split; [done|]. split; [apply x_tame|done]. Qed.

Lemma neg_is_three : Expr__createIsZero is_three = Ret (Binary Kind.Eq (Constant (mkConst 0 1)) is_three).
Proof. vm_compute. reflexivity. Qed.

Lemma query_asked (P : Expr -> Prop) e :
  asked query e -> P small -> P (Binary Kind.Eq (Constant (mkConst 0 1)) is_three) -> P e.
Proof.
  intros [He|He] Hs Hn.
  - by apply list_elem_of_singleton in He as ->.
  - simpl in He. rewrite neg_is_three in He. by injection He as <-.
Qed.

Lemma x_tracked e : x ∈ nodes e -> tracked e array.
Proof. intros Hx. exists x. split; [done|]. eexists _, _. split; [done|]. by intros [? _]. Qed.

Lemma query_ready : initial_ready query.
Proof.
  split.
  - intros e He. apply (query_asked _ e He); unfold ranged; repeat constructor.
  - intros e rho He Hno _. exfalso. apply (Hno array), x_tracked.
    apply (query_asked (fun e => x ∈ nodes e) e He); vm_compute; repeat constructor.
  - intros e rho He _ _. apply (query_asked _ e He); simpl; intuition done.
Qed.

Lemma query_reads e a :
  e ∈ expr query :: constraints query -> reads_array a e -> a = array.
Proof.
  intros He (u & i & Hr). simpl in He.
  assert (Hx : forall r, r ∈ nodes e -> is_read r = true -> r = x).
  { repeat (apply elem_of_cons in He as [->|He]); [| |by apply elem_of_nil in He];
      intros r Hin Hread; cbn in Hin; repeat (apply elem_of_cons in Hin as [->|Hin]; [done|]);
      by apply elem_of_nil in Hin. }
  specialize (Hx _ Hr eq_refl). by injection Hx as ->.
Qed.

Lemma query_pre checked : chain_pre checked query [array].
Proof.
  split_and!; [apply query_ready|apply small_feasible|]. intros _. split.
  - constructor; [|constructor]. split_and!; [done| |done]. vm_compute. intuition (done || constructor).
  - intros e a He _ Hr. rewrite (query_reads e a He Hr). left.
Qed.

Definition asks : list ask :=
  [AskEvaluate query; AskMustBeTrue query; AskMayBeTrue query; AskValue value_query;
   AskInitialValues query [array]].

Lemma asks_pre checked : Forall (ask_pre (chain_pre checked)) asks.
Proof.
  repeat (apply Forall_cons_2); try (by apply Forall_nil_2); simpl.
  - split_and!; [apply query_bool|apply is_three_computable|apply small_feasible].
  - split; [apply query_bool|apply small_feasible].
  - split; [apply query_bool|apply small_feasible].
  - split_and!; [apply value_query_good|apply x_computable|apply small_feasible].
  - split_and!; [apply query_bool|by intros c|by repeat constructor|apply query_pre].
Qed.

Instance hash : HashValue := fun c => cvalue c.
Instance cex_options : CexOptions := {|
  DebugCexCacheCheckBinding := false;
  CexCacheTryAll := true;
  CexCacheSuperSet := true;
  CexCacheExperimental := false
|}.
Instance chain_options : ChainOptions := {|
  UseCexCache := true;
  UseBranchCache := true;
  UseIndependentSolver := true;
  DebugValidateSolver := true
|}.

End Enumeration.

(** The chain with every solver in it, and a second core solver as oracle. *)
Lemma solver_chain_correct_witness :
  let c := constructSolverChain (H:=Enumeration.options) (H0:=Enumeration.hash)
    (H1:=Enumeration.cex_options) (H2:=Enumeration.chain_options)
    (pc_core Enumeration.core) (Some (pc_core Enumeration.core)) in
  exists answers s',
    perform_all (H:=Enumeration.options) (Solver0:=chain_ops c) Enumeration.asks (chain_start c) =
      Ret (answers, s') /\
    Forall2 (ask_ok (H0:=Enumeration.divz) (H1:=Enumeration.universe)
      (chain_fails (H3:=Enumeration.cex_options) (H4:=Enumeration.chain_options) False False))
      Enumeration.asks answers.
Proof.
  exact (@solver_chain_correct Enumeration.options Enumeration.divz Enumeration.universe
    Enumeration.hash Enumeration.cex_options Enumeration.chain_options
    Enumeration.core (Some Enumeration.core) Enumeration.asks eq_refl
    (fun _ _ => I) (Enumeration.asks_pre true)).
Defined.

(** The answers: three or not, not certain, possible, and 0 as a value; the
    bytes found make the query false. *)
Example chain_answers :
  let c := constructSolverChain (H:=Enumeration.options) (H0:=Enumeration.hash)
    (H1:=Enumeration.cex_options) (H2:=Enumeration.chain_options)
    (pc_core Enumeration.core) (Some (pc_core Enumeration.core)) in
  fst <$> perform_all (H:=Enumeration.options) (Solver0:=chain_ops c) Enumeration.asks (chain_start c) =
  Ret [Some (AnsValidity Validity.Unknown); Some (AnsBool false); Some (AnsBool true);
       Some (AnsConstant (mkConst 0 8)); Some (AnsValues [[0]])].
Proof. vm_compute. reflexivity. Qed.

(** ** Witnesses *)

Section Witnesses.
Import Enumeration.
#[local] Existing Instances universe options divz solver solver_spec hash cex_options.

Lemma asks_pre_any : Forall (ask_pre (fun _ _ => True)) asks.
Proof.
  eapply Forall_impl; [apply (asks_pre false)|]. intros [q|q|q|q|q objects]; simpl; tauto.
Qed.

Lemma independent_decides_witness :
  exists c req, getIndependentConstraints query = Ret (c, req) /\ req ⊆ constraints query /\
    (valid (mkQuery req (expr query)) <-> valid query) /\
    (contradicted (mkQuery req (expr query)) <-> contradicted query) /\
    (forall v, attains (mkQuery req (expr query)) v <-> attains query v).
Proof. exact (independent_decides query (proj1 query_bool) (small_feasible is_three)). Defined.

Lemma factors_partition_witness :
  exists fs, getAllIndependentConstraintsSets query = Ret fs /\
    concat (map ies_exprs fs) ≡ₚ Binary Kind.Eq (Constant (mkConst 0 1)) is_three :: constraints query /\
    Forall (fun f => forall e, e ∈ ies_exprs f -> covers (in_ies f) e) fs /\
    ForallOrdPairs (fun f g => forall a i, in_ies f a i -> in_ies g a i -> False) fs.
Proof. exact (factors_partition query _ query_bool eq_refl neg_is_three). Defined.

Lemma getRange_tight_witness :
  exists r s', Solver__getRange value_query () = Ret (Some r, s') /\ True /\ range_result value_query r.
Proof.
  exact (getRange_tight value_query () value_query_good (x_computable _) (small_feasible x)
    ltac:(vm_compute; discriminate) (fun f => f) I).
Defined.

Lemma cex_cache_invariant_witness :
  exists answers t, perform_all asks (mkCex (UBTree.mkNode None false []) [] ()) = Ret (answers, t) /\
    forall key v, UBTree.stored (cex_cache t) key v ->
      match v with
      | None => forall rho, in_domain rho -> ~ Forall (fun c => eval rho c = 1) key
      | Some a => Forall (fun c => eval (env a) c = 1) key
      end.
Proof. exact (cex_cache_invariant asks () eq_refl (fun _ _ => I) I asks_pre_any). Defined.

Lemma branch_cache_invariant_witness :
  exists answers t, perform_all asks (mkCaching ∅ ()) = Ret (answers, t) /\
    forall cs e pv, cache t !! (cs, e) = Some pv ->
      pv <> PartialValidity.None /\ pv_ok (mkQuery cs e) pv.
Proof. exact (branch_cache_invariant asks () (fun _ _ => I) I asks_pre_any). Defined.

End Witnesses.

(** The values of [x] below ten. *)
Example range_of_x :
  Solver__getRange (H:=Enumeration.options) (H0:=Enumeration.solver) Enumeration.value_query () =
  Ret (Some (Constant (mkConst 0 8), Constant (mkConst 9 8)), ()).
Proof. vm_compute. reflexivity. Qed.

(** With the experimental option a query that is known to be contradicted is
    reported as a failure of the solver, not as one that is not valid. *)
Example experimental_option_fails :
  let exp := {| DebugCexCacheCheckBinding := false; CexCacheTryAll := false;
                CexCacheSuperSet := false; CexCacheExperimental := true |} in
  let is_200 := Binary Kind.Eq (Constant (mkConst 200 8)) Enumeration.x in
  let q := mkQuery [Enumeration.small] is_200 in
  fst <$> perform_all (H:=Enumeration.options)
    (Solver0:=CexCachingSolver_solver (H:=Enumeration.options) (H0:=Enumeration.hash) (H1:=exp) (H2:=Enumeration.solver))
    [AskEvaluate q; AskMustBeTrue q] (mkCex (UBTree.mkNode None false []) [] ()) =
  Ret [Some (AnsValidity Validity.False); None].
Proof. vm_compute. reflexivity. Qed.
