(* ===== verification/TimingSolver.v ===== *)
(** * Queries of the engine

    [lib/Core/TimingSolver.cpp]: the engine asks about an expression under the
    constraints of a state.  A constant is decided at once; any other
    expression is simplified by the constraints, if the option is set, and
    handed to the solver.  Proved against the contract of the solver: the
    answers are about the expression that was asked, not the simplified one. *)

From S2P Require Import Prelude ExprData ExprCreate ExprSem ExprBool ExprArith ExprBits ExprSpec ExprOrder ExprHeap ExprRebuild ExprNodes ExprVisitor Constraints ExprEval ExprReads Solver SolverRange.

Section Timing.
Context `{ExprOptions} {S : Type} `{Solver S}.
(** The options, and the fuel of the simplification. *)
Variables (UseVisitorHash simplifyExprs : bool) (fuel : nat).

Definition simplify_query (constraints : list Expr) (expr : Expr) : SM S Query :=
  lift (e ← (if simplifyExprs then simplifyExpr UseVisitorHash fuel constraints expr else Ret expr);
        Ret (mkQuery constraints e)).

Definition TimingSolver__evaluate (constraints : list Expr) (expr : Expr) : SM S Validity.t :=
  match expr with
  | Constant CE => mret (if isTrue CE then Validity.True else Validity.False)
  | _ => q ← simplify_query constraints expr; Solver__evaluate q
  end.

Definition TimingSolver__mustBeTrue (constraints : list Expr) (expr : Expr) : SM S bool :=
  match expr with
  | Constant CE => mret (if isTrue CE then true else false)
  | _ => q ← simplify_query constraints expr; Solver__mustBeTrue q
  end.

Definition TimingSolver__mustBeFalse (constraints : list Expr) (expr : Expr) : SM S bool :=
  e ← lift (Expr__createIsZero expr); TimingSolver__mustBeTrue constraints e.

Definition TimingSolver__mayBeTrue (constraints : list Expr) (expr : Expr) : SM S bool :=
  res ← TimingSolver__mustBeFalse constraints expr; mret (negb res).

Definition TimingSolver__mayBeFalse (constraints : list Expr) (expr : Expr) : SM S bool :=
  res ← TimingSolver__mustBeTrue constraints expr; mret (negb res).

Definition TimingSolver__getValue (constraints : list Expr) (expr : Expr) : SM S ConstantExpr :=
  match expr with
  | Constant CE => mret CE
  | _ => q ← simplify_query constraints expr; Solver__getValue q
  end.

(** Without objects the result is left as it is: empty. *)
Definition TimingSolver__getInitialValues (constraints : list Expr) (objects : list Array)
    : SM S (list (list Z)) :=
  match objects with
  | [] => mret []
  | _ => Solver__getInitialValues (mkQuery constraints (Constant (ConstantExpr__alloc 0 1))) objects
  end.

Definition TimingSolver__getRange (constraints : list Expr) (expr : Expr) : SM S (Expr * Expr) :=
  Solver__getRange (mkQuery constraints expr).

End Timing.

(** ** The contract *)

Section Spec.
Context `{ExprOptions} `{DivByZero} `{Universe} {S : Type} `{!Solver S} `{!SolverSpec S}.
Hypothesis Hopt : ConstArrayOpt = false.
Variables (UseVisitorHash simplifyExprs : bool).

Abbreviation meets := (sat (S:=S) solver_inv solver_fails).

(** An expression the engine may ask about: under the constraints no divisor
    is 0; a [strict] question is also one whose answer is evaluated, and there
    the reads are inside their arrays and nothing is opaque. *)
Record askable (strict : bool) (q : Query) : Prop := {
  ask_constraints : good_constraints (constraints q);
  ask_expr : visit_ok heap (fun rho => models rho q) strict (expr q);
  ask_feasible : feasible q
}.

Lemma heap_64 p : adomain (heap p) <= 64.
Proof using Type. pose proof (heap_shape p). lia. Qed.

Lemma askable_good strict q : askable strict q -> good_query q.
Proof using Hopt.
  intros [Hcs [Hwf Hn] [rho Hf]]. split; [done|]. split; [done| |intros; by apply inb_off].
  eapply nodes_built; [|exact Hn]. by exists rho.
Qed.

(** A strict question can be evaluated. *)
Lemma nodes_tame M rho :
  M rho ->
  (forall e, holds (read_ok heap M true) (div_ok M) (opaque_ok true) e -> tame rho e) /\
  (forall u, holds_upd (read_ok heap M true) (div_ok M) (opaque_ok true) u -> tame_upd rho u).
Proof using Type.
  intros HMr. apply Expr_UpdateNode_ind; cbn [holds holds_upd tame tame_upd]; try tauto.
  - intros s _ [Ho _]. done.
  - intros a u IHu i IHi ([_ Hr] & Hu & Hi). split_and!; auto.
  - intros k l IHl r IHr (Hd & Hl & Hr). split_and!; auto. intros Hk. destruct (Hd Hk) as [_ Hn]. auto.
Qed.

Lemma askable_computable q : askable true q -> computable q (expr q).
Proof using Type. intros [_ [_ Hn] _] rho Hm. by apply (nodes_tame (fun rho => models rho q)). Qed.

Lemma models_holds rho q : models rho q <-> in_domain rho /\ holds_all rho (constraints q).
Proof using Type. done. Qed.

(** Two queries about the same values. *)
Record same_question (q q' : Query) : Prop := {
  sq_constraints : constraints q' = constraints q;
  sq_width : getWidth (expr q') = getWidth (expr q);
  sq_eval : forall rho, models rho q -> eval rho (expr q') = eval rho (expr q)
}.

Lemma same_models q q' rho : same_question q q' -> models rho q' <-> models rho q.
Proof using Type. intros [Hc _ _]. unfold models. by rewrite Hc. Qed.

Lemma same_valid q q' : same_question q q' -> valid q' <-> valid q.
Proof using Type.
  intros Hs. unfold valid. setoid_rewrite (fun rho => same_models q q' rho Hs).
  split; intros Hv rho Hm; specialize (Hv rho Hm); by rewrite (sq_eval _ _ Hs) in *.
Qed.

Lemma same_contradicted q q' : same_question q q' -> contradicted q' <-> contradicted q.
Proof using Type.
  intros Hs. unfold contradicted. setoid_rewrite (fun rho => same_models q q' rho Hs).
  split; intros Hv rho Hm; specialize (Hv rho Hm); by rewrite (sq_eval _ _ Hs) in *.
Qed.

Lemma same_attains q q' v : same_question q q' -> attains q' v <-> attains q v.
Proof using Type.
  intros Hs. unfold attains. split; intros (rho & Hm & Hv); exists rho.
  - rewrite (same_models q q') in Hm by done. by rewrite (sq_eval _ _ Hs) in Hv.
  - rewrite (same_models q q') by done. by rewrite (sq_eval _ _ Hs).
Qed.

Lemma simplify_query_ok strict q :
  askable strict q ->
  exists N q', (forall n, (N <= n)%nat ->
      simplify_query (S:=S) UseVisitorHash simplifyExprs n (constraints q) (expr q) = lift (Ret q')) /\
    askable strict q' /\ same_question q q'.
Proof using Hopt.
  intros Hq. pose proof Hq as [Hcs He Hf]. destruct simplifyExprs eqn:Es.
  - destruct (simplifyExpr_ok Hopt heap heap_64 UseVisitorHash (fun rho => models rho q) strict Hf (constraints q) (expr q))
      as (N & e' & E & [[Hwf Hw _ Hv] Hok _]); auto.
    + unfold booleans. eapply Forall_impl; [exact Hcs|]. by intros c [[? _ _] ?].
    + by intros rho [_ Hm].
    + exists N, (mkQuery (constraints q) e'). split_and!.
      * intros n Hn. unfold simplify_query. by rewrite E.
      * split; [done|done|]. by apply (feasible_constraints q).
      * split; simpl; auto. intros rho [_ Hm]. by apply Hv.
  - exists O, q. split_and!; auto; [|by split]. intros n _. by destruct q.
Qed.

(** From some amount of fuel on. *)
Definition eventually (P : nat -> Prop) : Prop := exists N, forall n, (N <= n)%nat -> P n.

Lemma eventually_and P Q : eventually P -> eventually Q -> eventually (fun n => P n /\ Q n).
Proof using Type.
  intros [N1 H1'] [N2 H2']. exists (Nat.max N1 N2). intros n Hn. split; [apply H1'|apply H2']; lia.
Qed.

Lemma eventually_impl (P Q : nat -> Prop) : (forall n, P n -> Q n) -> eventually P -> eventually Q.
Proof using Type. intros Hi [N HN]. exists N. auto. Qed.

(** A call that simplifies its expression and asks the solver. *)
Lemma simplified_call {A} strict q (ask : Query -> SM S A) (Q : A -> Prop) :
  askable strict q ->
  (forall q', askable strict q' -> same_question q q' -> meets (ask q') Q) ->
  eventually (fun n => meets (q' ← simplify_query UseVisitorHash simplifyExprs n (constraints q) (expr q); ask q') Q).
Proof using Hopt.
  intros Hq Hask. destruct (simplify_query_ok strict q Hq) as (N & q' & E & Hq' & Hs). exists N. intros n Hn.
  rewrite E by done. apply (sat_bind _ _ (fun x => x = q')); [apply sat_lift; by exists q'|]. intros ? ->. by apply Hask.
Qed.

Lemma eventually_const (P : Prop) : P -> eventually (fun _ => P).
Proof using Type. intros HP. by exists O. Qed.

Lemma askable_bool strict q : askable strict q -> getWidth (expr q) = 1 -> bool_query q.
Proof using Hopt. intros Hq Hw. split; [by eapply askable_good|done]. Qed.

Abbreviation mustBeTrue := (TimingSolver__mustBeTrue UseVisitorHash simplifyExprs).
Abbreviation mayBeTrue := (TimingSolver__mayBeTrue UseVisitorHash simplifyExprs).
Abbreviation evaluate := (TimingSolver__evaluate UseVisitorHash simplifyExprs).
Abbreviation getValue := (TimingSolver__getValue UseVisitorHash simplifyExprs).

Lemma TimingSolver__mustBeTrue_ok strict q :
  askable strict q -> getWidth (expr q) = 1 ->
  eventually (fun n => meets (mustBeTrue n (constraints q) (expr q)) (truth_ok q)).
Proof using Hopt.
  intros Hq Hw.
  assert (Hgo : eventually (fun n => meets (q' ← simplify_query UseVisitorHash simplifyExprs n (constraints q) (expr q);
    Solver__mustBeTrue q') (truth_ok q))).
  { apply (simplified_call strict); [done|]. intros q' Hq' Hs.
    eapply sat_conseq; [apply Solver__mustBeTrue_ok|].
    - apply (askable_bool strict); [done|]. by rewrite (sq_width _ _ Hs).
    - apply Hq'.
    - intros b Hb. unfold truth_ok in *. by rewrite Hb, (same_valid q q'). }
  unfold TimingSolver__mustBeTrue. destruct (expr q) as [c| | | | | | | | |] eqn:E; try exact Hgo.
  apply eventually_const, sat_ret. pose proof (askable_bool strict q Hq) as Hb. rewrite E in Hb.
  pose proof (constant_valid q c E (Hb Hw) (ask_feasible _ _ Hq)) as Hv. unfold truth_ok.
  destruct (isTrue c); [done|]. split; [done|]. intros Hv'. apply valid_not_contradicted in Hv'; [done|apply Hq].
Qed.

(** The negation of a question is a question. *)
Lemma askable_negate strict q :
  askable strict q ->
  exists e', Expr__createIsZero (expr q) = Ret e' /\ askable strict (withExpr q e') /\ getWidth e' = 1 /\
    (getWidth (expr q) = 1 -> opposite q (withExpr q e')).
Proof using Hopt.
  intros Hq. pose proof (askable_good strict q Hq) as [Hcs Hg]. destruct Hq as [_ [Hwf Hn] Hf].
  destruct (IsZero_good _ Hg) as (e' & E & Hg' & Hw' & Hv). exists e'. split_and!; auto.
  - split; [done| |by apply (feasible_constraints q)]. split; [apply Hg'|].
    by destruct (Expr__createIsZero_fit _ _ _ Hopt (expr q) Hn e' E).
  - intros Hw. split; simpl; auto. split; [by split|done].
Qed.

Lemma TimingSolver__mustBeFalse_ok strict q :
  askable strict q -> getWidth (expr q) = 1 ->
  eventually (fun n => meets (TimingSolver__mustBeFalse UseVisitorHash simplifyExprs n (constraints q) (expr q))
    (fun b => b = true <-> contradicted q)).
Proof using Hopt.
  intros Hq Hw. destruct (askable_negate strict q Hq) as (e' & E & Hq' & Hw' & Ho).
  eapply eventually_impl; [|apply (TimingSolver__mustBeTrue_ok strict (withExpr q e') Hq' Hw')].
  intros n Hn. apply (sat_bind _ _ (fun x => x = e')); [apply sat_lift; by exists e'|]. intros ? ->.
  eapply sat_conseq; [exact Hn|]. intros b Hb. unfold truth_ok in Hb.
  rewrite Hb. apply opposite_valid; [by apply (askable_bool strict)|by apply Ho].
Qed.

Lemma TimingSolver__mayBeTrue_ok strict q :
  askable strict q -> getWidth (expr q) = 1 ->
  eventually (fun n => meets (mayBeTrue n (constraints q) (expr q))
    (fun b => (b = true -> ~ contradicted q) /\ (b = false -> contradicted q))).
Proof using Hopt.
  intros Hq Hw. eapply eventually_impl; [|by apply (TimingSolver__mustBeFalse_ok strict)].
  intros n Hn. eapply sat_bind; [exact Hn|]. intros b Hb. apply sat_ret. rewrite <- Hb. by destruct b.
Qed.

Lemma TimingSolver__evaluate_ok q :
  askable true q -> getWidth (expr q) = 1 ->
  eventually (fun n => meets (evaluate n (constraints q) (expr q)) (validity_ok q)).
Proof using Hopt.
  intros Hq Hw.
  assert (Hgo : eventually (fun n => meets (q' ← simplify_query UseVisitorHash simplifyExprs n (constraints q) (expr q);
    Solver__evaluate q') (validity_ok q))).
  { apply (simplified_call true); [done|]. intros q' Hq' Hs.
    eapply sat_conseq; [apply Solver__evaluate_ok|].
    - apply (askable_bool true); [done|]. by rewrite (sq_width _ _ Hs).
    - by apply askable_computable.
    - apply Hq'.
    - intros []; simpl; rewrite ?(same_valid q q'), ?(same_contradicted q q') by done; auto. }
  unfold TimingSolver__evaluate. destruct (expr q) as [c| | | | | | | | |] eqn:E; try exact Hgo.
  apply eventually_const, sat_ret. pose proof (askable_bool true q Hq) as Hb. rewrite E in Hb.
  pose proof (constant_valid q c E (Hb Hw) (ask_feasible _ _ Hq)) as Hv. by destruct (isTrue c).
Qed.

Lemma TimingSolver__getValue_ok q :
  askable true q ->
  eventually (fun n => meets (getValue n (constraints q) (expr q))
    (fun c => cwidth c = getWidth (expr q) /\ attains q (cvalue c))).
Proof using Hopt.
  intros Hq.
  assert (Hgo : eventually (fun n => meets (q' ← simplify_query UseVisitorHash simplifyExprs n (constraints q) (expr q);
    Solver__getValue q') (fun c => cwidth c = getWidth (expr q) /\ attains q (cvalue c)))).
  { apply (simplified_call true); [done|]. intros q' Hq' Hs.
    eapply sat_conseq; [apply Solver__getValue_ok|].
    - by eapply askable_good.
    - by apply askable_computable.
    - apply Hq'.
    - intros c [Hw Ha]. rewrite (same_attains q q') in Ha by done. by rewrite Hw, (sq_width _ _ Hs). }
  unfold TimingSolver__getValue. destruct (expr q) as [c| | | | | | | | |] eqn:E; try exact Hgo.
  apply eventually_const, sat_ret. split; [done|]. destruct (ask_feasible _ _ Hq) as [rho Hm].
  exists rho. split; [done|]. by rewrite E.
Qed.

(** The bytes found for the objects are those of a solution of the path
    condition. *)
Definition solution_bytes (q : Query) (objects : list Array) (values : list (list Z)) : Prop :=
  exists rho, models rho q /\ Forall2 (bytes_of rho) objects values.

Definition false_query (q : Query) : Query := mkQuery (constraints q) (Constant (ConstantExpr__alloc 0 1)).

Lemma false_query_bool q : good_constraints (constraints q) -> bool_query (false_query q).
Proof using Hopt.
  intros Hcs. split; [|done]. split; [done|]. split; [by cbv|done|intros; by apply inb_off].
Qed.

Lemma TimingSolver__getInitialValues_ok q objects :
  good_constraints (constraints q) -> feasible q -> Forall known objects -> initial_pre (false_query q) objects ->
  meets (TimingSolver__getInitialValues (constraints q) objects) (solution_bytes q objects).
Proof using Hopt.
  intros Hcs Hf Ho Hpre. destruct objects as [|o objects]; [apply sat_ret; destruct Hf as [rho Hm]; by exists rho|].
  intros s Hs. destruct (Solver__getInitialValues_ok (false_query q) (o :: objects) (false_query_bool q Hcs)
    ltac:(by intros c [= <-]) Ho Hpre s Hs) as (r & s' & E & Hs' & Hr).
  exists r, s'. split_and!; auto. destruct r as [values|].
  - destruct Hr as (rho & Hm & _ & Hb). by exists rho.
  - destruct Hr as [?|Hv]; [done|]. destruct Hf as [rho Hm]. specialize (Hv rho Hm). by cbv in Hv.
Qed.

Lemma TimingSolver__mayBeFalse_ok strict q :
  askable strict q -> getWidth (expr q) = 1 ->
  eventually (fun n => meets (TimingSolver__mayBeFalse UseVisitorHash simplifyExprs n (constraints q) (expr q))
    (fun b => (b = true -> ~ valid q) /\ (b = false -> valid q))).
Proof using Hopt.
  intros Hq Hw. eapply eventually_impl; [|by apply (TimingSolver__mustBeTrue_ok strict)].
  intros n Hn. eapply sat_bind; [exact Hn|]. intros b Hb. apply sat_ret. unfold truth_ok in Hb.
  rewrite <- Hb. by destruct b.
Qed.

(** The answers to the questions about a boolean. *)
Record boolean_answers (n : nat) (q : Query) : Prop := {
  ba_mustBeTrue : meets (mustBeTrue n (constraints q) (expr q)) (truth_ok q);
  ba_mustBeFalse : meets (TimingSolver__mustBeFalse UseVisitorHash simplifyExprs n (constraints q) (expr q))
    (fun b => b = true <-> contradicted q);
  ba_mayBeTrue : meets (mayBeTrue n (constraints q) (expr q))
    (fun b => (b = true -> ~ contradicted q) /\ (b = false -> contradicted q));
  ba_mayBeFalse : meets (TimingSolver__mayBeFalse UseVisitorHash simplifyExprs n (constraints q) (expr q))
    (fun b => (b = true -> ~ valid q) /\ (b = false -> valid q));
  ba_evaluate : meets (evaluate n (constraints q) (expr q)) (validity_ok q)
}.

Lemma boolean_answers_ok q :
  askable true q -> getWidth (expr q) = 1 -> eventually (fun n => boolean_answers n q).
Proof using Hopt.
  intros Hq Hw.
  destruct (TimingSolver__mustBeTrue_ok true q Hq Hw) as [N1 E1], (TimingSolver__mustBeFalse_ok true q Hq Hw) as [N2 E2],
    (TimingSolver__mayBeTrue_ok true q Hq Hw) as [N3 E3], (TimingSolver__mayBeFalse_ok true q Hq Hw) as [N4 E4],
    (TimingSolver__evaluate_ok q Hq Hw) as [N5 E5].
  exists (N1 + N2 + N3 + N4 + N5)%nat. intros n Hn.
  split; [apply E1|apply E2|apply E3|apply E4|apply E5]; lia.
Qed.

(** C10: the questions of the engine are answered right for the expression
    that was asked, whether it is simplified by the path condition or not.
    The path condition has a solution, under it no divisor of the expression
    is zero, its reads are inside their arrays and no part of it is opaque.
    Then, from some amount of fuel for the simplification on: about a boolean,
    what must be true or false, what may be true or false, and the
    three-valued evaluation; about an expression of any width, a value that
    it takes; about one of at most 64 bits, its exact range, if the solver
    answers; and for objects, the bytes of a solution of the path condition,
    if the solver takes the query. *)
Theorem timing_solver_correct q :
  askable true q ->
  eventually (fun n =>
    (getWidth (expr q) = 1 -> boolean_answers n q) /\
    meets (getValue n (constraints q) (expr q)) (fun c => cwidth c = getWidth (expr q) /\ attains q (cvalue c)) /\
    (getWidth (expr q) <= 64 -> ~ solver_fails (S:=S) ->
      meets (TimingSolver__getRange (constraints q) (expr q)) (range_result q)) /\
    forall objects, Forall known objects -> initial_pre (false_query q) objects ->
      meets (TimingSolver__getInitialValues (constraints q) objects) (solution_bytes q objects)).
Proof using Hopt.
  intros Hq. repeat apply eventually_and.
  - destruct (decide (getWidth (expr q) = 1)) as [Hw|Hw]; [|by exists O].
    eapply eventually_impl; [|by apply boolean_answers_ok]. auto.
  - by apply TimingSolver__getValue_ok.
  - apply eventually_const. intros Hw Hans. unfold TimingSolver__getRange.
    replace (mkQuery (constraints q) (expr q)) with q by (by destruct q). apply Solver__getRange_ok; auto.
    + by eapply askable_good.
    + by apply askable_computable.
    + apply Hq.
  - apply eventually_const. intros objects Ho Hpre.
    apply TimingSolver__getInitialValues_ok; auto; apply Hq.
Qed.

End Spec.
