(* ===== verification/TimingExample.v ===== *)
(** * The engine's questions to the enumerating solver

    One symbolic byte, known to be 3: the solver of [SolverExample] answers
    the questions of [TimingSolver], with the simplification on. *)

From S2P Require Import Prelude ExprData ExprCreate ExprSem ExprBool ExprArith ExprBits ExprSpec ExprOrder ExprHeap ExprRebuild ExprNodes ExprVisitor Constraints ExprEval ExprReads Solver SolverRange SolverExample TimingSolver.

Module TimingExample.
Import Enumeration.
#[local] Existing Instances universe options divz solver solver_spec.

Lemma enumeration_option_off : @ConstArrayOpt options = false.
Proof. done. Qed.

(** Is the byte below ten, when it is three? *)
Definition asked_query : Query := mkQuery [is_three] small.

Lemma asked_feasible : feasible asked_query.
Proof. exists (byte_is 3). split; [by apply byte_is_domain|]. constructor; [|constructor]. done. Qed.

Lemma asked_askable : askable true asked_query.
Proof.
  split; [constructor; [|constructor]; split; [apply is_three_good|done]| |apply asked_feasible].
  split; [apply small_good|]. cbn. unfold read_ok. split_and!; done.
Qed.

(** What the solver is left with is a constant, and the answers follow. *)
Example asked_answers :
  TimingSolver__evaluate true true 20 [is_three] small () = Ret (Some Validity.True, ()) /\
  TimingSolver__getValue true true 20 [is_three] x () = Ret (Some (mkConst 3 8), ()) /\
  TimingSolver__mayBeTrue true true 20 [small] is_three () = Ret (Some true, ()).
Proof. by vm_compute. Qed.

(** The byte itself, a question that is not a boolean. *)
Definition asked_byte : Query := mkQuery [small] x.

Lemma asked_byte_askable : askable true asked_byte.
Proof.
  split; [constructor; [|constructor]; split; [apply small_good|done]| |].
  - split; [apply x_good|]. cbn. unfold read_ok. split_and!; done.
  - exists (byte_is 3). split; [by apply byte_is_domain|]. constructor; [|constructor]. done.
Qed.

Lemma timing_solver_correct_witness :
  let meets {A} := sat (S:=unit) (A:=A) (solver_inv (S:=unit)) (solver_fails (S:=unit)) in
  eventually (fun n => boolean_answers (S:=unit) true true n asked_query) /\
  eventually (fun n =>
    meets (TimingSolver__getValue true true n [small] x) (fun c => cwidth c = 8 /\ attains asked_byte (cvalue c)) /\
    meets (TimingSolver__getRange [small] x) (range_result asked_byte) /\
    meets (TimingSolver__getInitialValues [small] [array]) (solution_bytes asked_byte [array])).
Proof.
  split.
  - eapply eventually_impl; [|exact (timing_solver_correct enumeration_option_off true true asked_query asked_askable)].
    intros n [Hb _]. by apply Hb.
  - eapply eventually_impl; [|exact (timing_solver_correct enumeration_option_off true true asked_byte asked_byte_askable)].
    intros n (_ & Hv & Hr & Hi). split; [exact Hv|]. split; [apply Hr; [done|]|apply Hi; [|done]].
    + by intros [].
    + by constructor.
Defined.

End TimingExample.
