(* ===== verification/Memory.v ===== *)
(** * Memory objects

    [lib/Core/Memory.cpp]: the contents of a memory object, kept in three
    places at once.  A byte has a concrete value, a known symbolic value, or
    its value is what the list of updates says; concrete and symbolic values
    that the list of updates does not have yet are unflushed.  Also the bit
    arrays of [BitArray.h], the creation of arrays by [ArrayCache.cpp] and the
    bounds checks of [Memory.h].

    An access outside a buffer stops with [MemError]. *)

From stdpp Require Import pretty.
From S2P Require Import Prelude ExprData ExprCreate.

(** ** Bit arrays *)

(** 32-bit words. *)
Abbreviation BitArray := (list Z).

Definition BitArray__length (size : Z) : Z := u32 (size + 31) / 32.

Definition BitArray__new (size : Z) (value : bool) : BitArray :=
  replicate (Z.to_nat (BitArray__length size)) (if value then 2 ^ 32 - 1 else 0).

Definition BitArray__word (b : BitArray) (idx : Z) : outcome Z :=
  of_option MemError (b !! Z.to_nat (idx / 32)).

Definition BitArray__get (b : BitArray) (idx : Z) : outcome bool :=
  w ← BitArray__word b idx;
  Ret (nz (Z.land (Z.shiftr w (Z.land idx 31)) 1)).

Definition BitArray__set (b : BitArray) (idx : Z) : outcome BitArray :=
  w ← BitArray__word b idx;
  Ret (<[Z.to_nat (idx / 32) := Z.lor w (Z.shiftl 1 (Z.land idx 31))]> b).

Definition BitArray__unset (b : BitArray) (idx : Z) : outcome BitArray :=
  w ← BitArray__word b idx;
  Ret (<[Z.to_nat (idx / 32) := Z.land w (bnot 32 (Z.shiftl 1 (Z.land idx 31)))]> b).

(** ** Creation of arrays *)

(** [next_address] is where the next array is allocated; the two counters are
    the static variables of the functions that name arrays. *)
Record ArrayCache : Type := mkArrayCache {
  next_address : Z;
  tmp_arr_id : Z;
  const_arr_id : Z;
  cachedSymbolicArrays : list Array;
  concreteArrays : list Array
}.

(** [EquivArrayCmpFn]. *)
Definition equivArray (a b : Array) : bool :=
  (asize a =? asize b) && bool_decide (aname a = aname b).

(** [Array::Array] checks the number and the widths of constant values. *)
Definition Array__new (address : Z) (name : string) (size : Z) (values : list ConstantExpr)
    (domain range : Z) : outcome Array :=
  let array := mkArray address name size domain range (map cvalue values) in
  _ ← assertM (isSymbolicArray array || (Z.of_nat (length values) =? size));
  _ ← assertM (forallb (fun v => cwidth v =? range) values);
  Ret array.

Definition CreateArray (ac : ArrayCache) (name : string) (size : Z) (values : list ConstantExpr)
    : outcome (Array * ArrayCache) :=
  array ← Array__new (next_address ac) name size values 32 8;
  if isSymbolicArray array then
    match find (equivArray array) (cachedSymbolicArrays ac) with
    | None =>
        Ret (array, mkArrayCache (next_address ac + 1) (tmp_arr_id ac) (const_arr_id ac)
                      (array :: cachedSymbolicArrays ac) (concreteArrays ac))
    | Some cached =>
        _ ← assertM (isSymbolicArray cached);
        Ret (cached, ac)
    end
  else
    Ret (array, mkArrayCache (next_address ac + 1) (tmp_arr_id ac) (const_arr_id ac)
                  (cachedSymbolicArrays ac) (concreteArrays ac ++ [array])).

(** ** Memory objects *)

(** [Context]: the byte order and the width of pointers. *)
Class TargetContext : Type := { isLittleEndian : bool; getPointerWidth : Z }.

(** The names, the allocation site and the flags that only the engine uses are
    left out. *)
Record MemoryObject : Type := mkMO {
  mo_id : Z;
  address : Z;
  mo_size : Z;
  alignment : Z;
  isUserSpecified : bool
}.

Section Bounds.
Context `{ExprOptions} `{TargetContext}.

Definition getBaseExpr (mo : MemoryObject) : outcome Expr :=
  Constant <$> ConstantExpr__create (address mo) getPointerWidth.

Definition getSizeExpr (mo : MemoryObject) : outcome Expr :=
  Constant <$> ConstantExpr__create (mo_size mo) getPointerWidth.

Definition getOffsetExpr (mo : MemoryObject) (pointer : Expr) : outcome Expr :=
  base ← getBaseExpr mo; SubExpr__create pointer base.

Definition getBoundsCheckOffset (mo : MemoryObject) (offset : Expr) : outcome Expr :=
  if mo_size mo =? 0 then
    EqExpr__create offset (Constant (ConstantExpr__alloc 0 getPointerWidth))
  else
    size ← getSizeExpr mo; Binary__create Kind.Ult offset size.

(** The check for an access of several bytes. *)
Definition getBoundsCheckOffset_bytes (mo : MemoryObject) (offset : Expr) (bytes : Z) : outcome Expr :=
  if bytes <=? mo_size mo then
    Binary__create Kind.Ult offset
      (Constant (ConstantExpr__alloc (u32 (mo_size mo - bytes + 1)) getPointerWidth))
  else Ret (Constant (ConstantExpr__alloc 0 1)).

Definition getBoundsCheckPointer (mo : MemoryObject) (pointer : Expr) : outcome Expr :=
  offset ← getOffsetExpr mo pointer; getBoundsCheckOffset mo offset.

Definition getBoundsCheckPointer_bytes (mo : MemoryObject) (pointer : Expr) (bytes : Z) : outcome Expr :=
  offset ← getOffsetExpr mo pointer; getBoundsCheckOffset_bytes mo offset bytes.

End Bounds.

(** ** The state of an object *)

(** [root] and [head] are the two parts of [updates]. *)
Record ObjectState : Type := mkObjectState {
  copyOnWriteOwner : Z;
  object : MemoryObject;
  concreteStore : list Z;
  concreteMask : option BitArray;
  knownSymbolics : option (list (option Expr));
  unflushedMask : option BitArray;
  root : option Array;
  head : UpdateNode;
  size : Z;
  readOnly : bool
}.

Definition with_store (s : list Z) (os : ObjectState) : ObjectState :=
  mkObjectState (copyOnWriteOwner os) (object os) s (concreteMask os) (knownSymbolics os)
    (unflushedMask os) (root os) (head os) (size os) (readOnly os).
Definition with_concreteMask (m : option BitArray) (os : ObjectState) : ObjectState :=
  mkObjectState (copyOnWriteOwner os) (object os) (concreteStore os) m (knownSymbolics os)
    (unflushedMask os) (root os) (head os) (size os) (readOnly os).
Definition with_knownSymbolics (k : option (list (option Expr))) (os : ObjectState) : ObjectState :=
  mkObjectState (copyOnWriteOwner os) (object os) (concreteStore os) (concreteMask os) k
    (unflushedMask os) (root os) (head os) (size os) (readOnly os).
Definition with_unflushedMask (m : option BitArray) (os : ObjectState) : ObjectState :=
  mkObjectState (copyOnWriteOwner os) (object os) (concreteStore os) (concreteMask os)
    (knownSymbolics os) m (root os) (head os) (size os) (readOnly os).
Definition with_updates (r : option Array) (h : UpdateNode) (os : ObjectState) : ObjectState :=
  mkObjectState (copyOnWriteOwner os) (object os) (concreteStore os) (concreteMask os)
    (knownSymbolics os) (unflushedMask os) r h (size os) (readOnly os).

(** ** The caches of a byte *)

Definition isByteConcrete (os : ObjectState) (offset : Z) : outcome bool :=
  match concreteMask os with None => Ret true | Some m => BitArray__get m offset end.

Definition isByteUnflushed (os : ObjectState) (offset : Z) : outcome bool :=
  match unflushedMask os with None => Ret true | Some m => BitArray__get m offset end.

(** [knownSymbolics[offset]], a null pointer when there is none. *)
Definition knownSymbolic (os : ObjectState) (offset : Z) : outcome (option Expr) :=
  match knownSymbolics os with
  | None => Ret None
  | Some ks => of_option MemError (ks !! Z.to_nat offset)
  end.

Definition isByteKnownSymbolic (os : ObjectState) (offset : Z) : outcome bool :=
  k ← knownSymbolic os offset; Ret (bool_decide (is_Some k)).

Definition markByteConcrete (os : ObjectState) (offset : Z) : outcome ObjectState :=
  match concreteMask os with
  | None => Ret os
  | Some m => m' ← BitArray__set m offset; Ret (with_concreteMask (Some m') os)
  end.

Definition markByteSymbolic (os : ObjectState) (offset : Z) : outcome ObjectState :=
  let m := default (BitArray__new (size os) true) (concreteMask os) in
  m' ← BitArray__unset m offset;
  Ret (with_concreteMask (Some m') os).

Definition markByteUnflushed (os : ObjectState) (offset : Z) : outcome ObjectState :=
  match unflushedMask os with
  | None => Ret os
  | Some m => m' ← BitArray__set m offset; Ret (with_unflushedMask (Some m') os)
  end.

(** Without a mask every byte becomes flushed. *)
Definition markByteFlushed (os : ObjectState) (offset : Z) : outcome ObjectState :=
  match unflushedMask os with
  | None => Ret (with_unflushedMask (Some (BitArray__new (size os) false)) os)
  | Some m => m' ← BitArray__unset m offset; Ret (with_unflushedMask (Some m') os)
  end.

Definition setKnownSymbolic (os : ObjectState) (offset : Z) (value : option Expr)
    : outcome ObjectState :=
  match knownSymbolics os, value with
  | None, None => Ret os
  | ks, _ =>
      let ks := default (replicate (Z.to_nat (size os)) None) ks in
      _ ← of_option MemError (ks !! Z.to_nat offset);
      Ret (with_knownSymbolics (Some (<[Z.to_nat offset := value]> ks)) os)
  end.

(** [updates.extend]: without a root nothing is checked. *)
Definition extend (os : ObjectState) (index value : Expr) : outcome ObjectState :=
  h ← match root os with
      | Some a => UpdateList__extend a (head os) index value
      | None => Ret (Update index value (head os))
      end;
  Ret (with_updates (root os) h os).

(** A constant of [w] bits as an expression. *)
Definition constant_of (v w : Z) : outcome Expr := Constant <$> ConstantExpr__create v w.

(** ** The list of updates *)

(** The writes of a list of updates, the oldest first. *)
Fixpoint writes_of (u : UpdateNode) : list (Expr * Expr) :=
  match u with NoUpdate => [] | Update i v n => writes_of n ++ [(i, v)] end.

(** The concrete writes at the front go into the constant array; what is left
    starts with one that is not concrete. *)
Fixpoint pull_concrete (contents : list ConstantExpr) (writes : list (Expr * Expr))
    : outcome (list ConstantExpr * list (Expr * Expr)) :=
  match writes with
  | (Constant index, Constant value) :: writes' =>
      i ← getZExtValue index;
      _ ← of_option MemError (contents !! Z.to_nat i);
      pull_concrete (<[Z.to_nat i := value]> contents) writes'
  | _ => Ret (contents, writes)
  end.

Fixpoint extend_all (os : ObjectState) (writes : list (Expr * Expr)) : outcome ObjectState :=
  match writes with
  | [] => Ret os
  | (i, v) :: writes => os' ← extend os i v; extend_all os' writes
  end.

(** The names of the arrays that are not the program's, with a number. *)
Definition const_arr_name (id : Z) : string := String.append "const_arr" (pretty (Z.to_N id)).
Definition tmp_arr_name (id : Z) : string := String.append "tmp_arr" (pretty (Z.to_N id)).

Definition with_const_arr_id (id : Z) (ac : ArrayCache) : ArrayCache :=
  mkArrayCache (next_address ac) (tmp_arr_id ac) id (cachedSymbolicArrays ac) (concreteArrays ac).
Definition with_tmp_arr_id (id : Z) (ac : ArrayCache) : ArrayCache :=
  mkArrayCache (next_address ac) id (const_arr_id ac) (cachedSymbolicArrays ac) (concreteArrays ac).

(** The updates with their root, which is created here when it is missing. *)
Definition getUpdates (os : ObjectState) (ac : ArrayCache)
    : outcome (Array * ObjectState * ArrayCache) :=
  match root os with
  | Some a => Ret (a, os, ac)
  | None =>
      zero ← ConstantExpr__create 0 8;
      p ← pull_concrete (replicate (Z.to_nat (size os)) zero) (writes_of (head os));
      let id := u32 (const_arr_id ac + 1) in
      r ← CreateArray (with_const_arr_id id ac) (const_arr_name id) (size os) p.1;
      os' ← extend_all (with_updates (Some r.1) NoUpdate os) p.2;
      Ret (r.1, os', r.2)
  end.

(** ** Flushing *)

Definition fastRangeCheckOffset (os : ObjectState) (offset : Expr) : Z * Z := (0, size os).

(** The mask, made when it is missing. *)
Definition ensure_unflushedMask (os : ObjectState) : ObjectState :=
  match unflushedMask os with
  | None => with_unflushedMask (Some (BitArray__new (size os) true)) os
  | Some _ => os
  end.

(** [unflushedMask->unset(offset)], where there is a mask. *)
Definition unset_unflushed (os : ObjectState) (offset : Z) : outcome ObjectState :=
  match unflushedMask os with
  | None => Stop MemError
  | Some m => m' ← BitArray__unset m offset; Ret (with_unflushedMask (Some m') os)
  end.

(** The concrete byte as an update. *)
Definition flush_concrete (os : ObjectState) (offset : Z) : outcome ObjectState :=
  i ← constant_of offset 32;
  b ← of_option MemError (concreteStore os !! Z.to_nat offset);
  v ← constant_of b 8;
  extend os i v.

(** The known symbolic byte as an update. *)
Definition flush_known (os : ObjectState) (offset : Z) : outcome ObjectState :=
  k ← knownSymbolic os offset;
  match k with
  | None => Stop AssertFail
  | Some e => i ← constant_of offset 32; extend os i e
  end.

Definition flush_byte_read (os : ObjectState) (offset : Z) : outcome ObjectState :=
  unflushed ← isByteUnflushed os offset;
  if unflushed : bool then
    concrete ← isByteConcrete os offset;
    os' ← (if concrete : bool then flush_concrete os offset else flush_known os offset);
    unset_unflushed os' offset
  else Ret os.

Definition flush_byte_write (os : ObjectState) (offset : Z) : outcome ObjectState :=
  unflushed ← isByteUnflushed os offset;
  concrete ← isByteConcrete os offset;
  if unflushed : bool then
    os' ← (if concrete : bool
           then os' ← flush_concrete os offset; markByteSymbolic os' offset
           else os' ← flush_known os offset; setKnownSymbolic os' offset None);
    unset_unflushed os' offset
  else if concrete : bool then markByteSymbolic os offset
  else
    known ← isByteKnownSymbolic os offset;
    if known : bool then setKnownSymbolic os offset None else Ret os.

(** The [n] bytes from [offset] on. *)
Fixpoint flush_range (flush_byte : ObjectState -> Z -> outcome ObjectState) (os : ObjectState)
    (offset : Z) (n : nat) : outcome ObjectState :=
  match n with
  | O => Ret os
  | S n => os' ← flush_byte os offset; flush_range flush_byte os' (offset + 1) n
  end.

(** The loops run while [offset < rangeBase + rangeSize], in 32 bits. *)
Definition flushRangeForRead (os : ObjectState) (rangeBase rangeSize : Z) : outcome ObjectState :=
  flush_range flush_byte_read (ensure_unflushedMask os) rangeBase
    (Z.to_nat (u32 (rangeBase + rangeSize) - rangeBase)).

Definition flushRangeForWrite (os : ObjectState) (rangeBase rangeSize : Z) : outcome ObjectState :=
  flush_range flush_byte_write (ensure_unflushedMask os) rangeBase
    (Z.to_nat (u32 (rangeBase + rangeSize) - rangeBase)).

(** ** Bytes *)

Section Access.
Context `{ExprOptions} `{TargetContext}.

(** What a read returns: the value, and the object and the arrays as the read
    leaves them. *)
Abbreviation read_result := (outcome (Expr * ObjectState * ArrayCache)).

Definition read8 (os : ObjectState) (ac : ArrayCache) (offset : Z) : read_result :=
  concrete ← isByteConcrete os offset;
  if concrete : bool then
    b ← of_option MemError (concreteStore os !! Z.to_nat offset);
    e ← constant_of b 8;
    Ret (e, os, ac)
  else
    k ← knownSymbolic os offset;
    match k with
    | Some e => Ret (e, os, ac)
    | None =>
        unflushed ← isByteUnflushed os offset;
        _ ← assertM (negb unflushed);
        u ← getUpdates os ac;
        let '(a, os', ac') := u in
        i ← constant_of offset 32;
        e ← ReadExpr__create a (head os') i;
        Ret (e, os', ac')
    end.

(** At a symbolic offset; large objects only give a warning. *)
Definition read8_at (os : ObjectState) (ac : ArrayCache) (offset : Expr) : read_result :=
  _ ← assertM (negb (isConstant offset));
  let '(base, size) := fastRangeCheckOffset os offset in
  os1 ← flushRangeForRead os base size;
  u ← getUpdates os1 ac;
  let '(a, os', ac') := u in
  i ← ZExtExpr__create offset 32;
  e ← ReadExpr__create a (head os') i;
  Ret (e, os', ac').

Definition write8 (os : ObjectState) (offset value : Z) : outcome ObjectState :=
  _ ← of_option MemError (concreteStore os !! Z.to_nat offset);
  let os := with_store (<[Z.to_nat offset := value]> (concreteStore os)) os in
  os ← setKnownSymbolic os offset None;
  os ← markByteConcrete os offset;
  markByteUnflushed os offset.

(** [getZExtValue(8)] asserts that the constant fits. *)
Definition write8_expr (os : ObjectState) (offset : Z) (value : Expr) : outcome ObjectState :=
  match value with
  | Constant CE =>
      _ ← assertM (cwidth CE <=? 8);
      v ← getZExtValue CE;
      write8 os offset (u8 v)
  | _ =>
      os ← setKnownSymbolic os offset (Some value);
      os ← markByteSymbolic os offset;
      markByteUnflushed os offset
  end.

Definition write8_at (os : ObjectState) (offset value : Expr) : outcome ObjectState :=
  _ ← assertM (negb (isConstant offset));
  let '(base, size) := fastRangeCheckOffset os offset in
  os1 ← flushRangeForWrite os base size;
  i ← ZExtExpr__create offset 32;
  extend os1 i value.

(** ** Values of several bytes *)

(** The position of the [i]-th byte of [n], from the lowest. *)
Definition byte_index (n i : Z) : Z := if isLittleEndian then i else n - i - 1.

(** The loop that puts bytes together, the [n] bytes from the [i]-th on;
    [read_byte] reads the byte at an index. *)
Fixpoint read_bytes (read_byte : ObjectState -> ArrayCache -> Z -> read_result)
    (os : ObjectState) (ac : ArrayCache) (total i : Z) (n : nat) (res : option Expr) : read_result :=
  match n with
  | O => match res with Some e => Ret (e, os, ac) | None => Stop MemError end
  | S n =>
      b ← read_byte os ac (byte_index total i);
      let '(byte, os', ac') := b in
      res' ← match res with None => Ret byte | Some r => ConcatExpr__create byte r end;
      read_bytes read_byte os' ac' total (i + 1) n (Some res')
  end.

Definition read (os : ObjectState) (ac : ArrayCache) (offset width : Z) : read_result :=
  if width =? 1 then
    b ← read8 os ac offset;
    let '(byte, os', ac') := b in
    e ← ExtractExpr__create byte 0 1;
    Ret (e, os', ac')
  else
    let numBytes := width / 8 in
    _ ← assertM (width =? numBytes * 8);
    read_bytes (fun os ac idx => read8 os ac (u32 (offset + idx))) os ac numBytes 0
      (Z.to_nat numBytes) None.

(** [offset + idx] as an expression. *)
Definition add_index (offset : Expr) (idx : Z) : outcome Expr :=
  c ← constant_of idx 32; AddExpr__create offset c.

(** [getZExtValue(32)] of the truncated offset. *)
Definition read_at_offset (os : ObjectState) (ac : ArrayCache) (offset : Expr) (width : Z) : read_result :=
  offset ← ZExtExpr__create offset 32;
  match offset with
  | Constant CE => o ← getZExtValue CE; read os ac (u32 o) width
  | _ =>
      if width =? 1 then
        b ← read8_at os ac offset;
        let '(byte, os', ac') := b in
        e ← ExtractExpr__create byte 0 1;
        Ret (e, os', ac')
      else
        let numBytes := width / 8 in
        _ ← assertM (width =? numBytes * 8);
        read_bytes (fun os ac idx => o ← add_index offset idx; read8_at os ac o) os ac numBytes 0
          (Z.to_nat numBytes) None
  end.

(** The loops that take a value apart: the [n] bytes from the [i]-th on. *)
Fixpoint write_bytes (write_byte : ObjectState -> Z -> Z -> outcome ObjectState)
    (os : ObjectState) (total i : Z) (n : nat) : outcome ObjectState :=
  match n with
  | O => Ret os
  | S n => os' ← write_byte os (byte_index total i) i; write_bytes write_byte os' total (i + 1) n
  end.

(** [write16], [write32] and [write64]. *)
Definition write_int (numBytes : Z) (os : ObjectState) (offset value : Z) : outcome ObjectState :=
  write_bytes (fun os idx i => write8 os (u32 (offset + idx)) (u8 (Z.shiftr value (8 * i))))
    os numBytes 0 (Z.to_nat numBytes).

(** The byte by byte case, at a constant offset. *)
Definition write_slow (os : ObjectState) (offset : Z) (value : Expr) : outcome ObjectState :=
  let w := getWidth value in
  if w =? 1 then v ← ZExtExpr__create value 8; write8_expr os offset v
  else
    let numBytes := w / 8 in
    _ ← assertM (w =? numBytes * 8);
    write_bytes (fun os idx i => b ← ExtractExpr__create value (8 * i) 8;
                                 write8_expr os (u32 (offset + idx)) b)
      os numBytes 0 (Z.to_nat numBytes).

(** [bits64::isPowerOfTwo]. *)
Definition isPowerOfTwo (x : Z) : bool :=
  negb (x =? 0) && (Z.land x (x - 1) =? 0).

Definition write (os : ObjectState) (offset : Z) (value : Expr) : outcome ObjectState :=
  match value with
  | Constant CE =>
      let w := cwidth CE in
      if (w <=? 64) && isPowerOfTwo w then
        val ← getZExtValue CE;
        if (w =? 1) || (w =? 8) then write8 os offset (u8 val)
        else if w =? 16 then write_int 2 os offset val
        else if w =? 32 then write_int 4 os offset val
        else if w =? 64 then write_int 8 os offset val
        else Stop AssertFail
      else write_slow os offset value
  | _ => write_slow os offset value
  end.

Definition write_at_offset (os : ObjectState) (offset value : Expr) : outcome ObjectState :=
  offset ← ZExtExpr__create offset 32;
  match offset with
  | Constant CE => o ← getZExtValue CE; write os (u32 o) value
  | _ =>
      let w := getWidth value in
      if w =? 1 then v ← ZExtExpr__create value 8; write8_at os offset v
      else
        let numBytes := w / 8 in
        _ ← assertM (w =? numBytes * 8);
        write_bytes (fun os idx i => o ← add_index offset idx;
                                     b ← ExtractExpr__create value (8 * i) 8;
                                     write8_at os o b)
          os numBytes 0 (Z.to_nat numBytes)
  end.

End Access.

(** ** Creation *)

Definition makeConcrete (os : ObjectState) : ObjectState :=
  with_concreteMask None (with_unflushedMask None (with_knownSymbolics None os)).

(** The loop of [makeSymbolic], the [n] bytes from [i] on. *)
Fixpoint make_symbolic_loop (os : ObjectState) (i : Z) (n : nat) : outcome ObjectState :=
  match n with
  | O => Ret os
  | S n =>
      os ← markByteSymbolic os i;
      os ← setKnownSymbolic os i None;
      os ← markByteFlushed os i;
      make_symbolic_loop os (i + 1) n
  end.

Definition makeSymbolic (os : ObjectState) : outcome ObjectState :=
  _ ← assertM (match head os with NoUpdate => true | Update _ _ _ => false end);
  make_symbolic_loop os 0 (Z.to_nat (size os)).

Definition initializeToZero (os : ObjectState) : ObjectState :=
  with_store (replicate (Z.to_nat (size os)) 0) (makeConcrete os).

Definition initializeToRandom (os : ObjectState) : ObjectState :=
  with_store (replicate (Z.to_nat (size os)) 171) (makeConcrete os).

(** The contents of the buffer are cleared by the constructors. *)
Definition blank_object (mo : MemoryObject) (r : option Array) : ObjectState :=
  mkObjectState 0 mo (replicate (Z.to_nat (mo_size mo)) 0) None None None r NoUpdate (mo_size mo) false.

(** [UseConstantArrays] is the option of that name. *)
Definition ObjectState__new (UseConstantArrays : bool) (mo : MemoryObject) (ac : ArrayCache)
    : outcome (ObjectState * ArrayCache) :=
  if UseConstantArrays then Ret (blank_object mo None, ac)
  else
    let id := u32 (tmp_arr_id ac + 1) in
    r ← CreateArray (with_tmp_arr_id id ac) (tmp_arr_name id) (mo_size mo) [];
    Ret (blank_object mo (Some r.1), r.2).

Definition ObjectState__symbolic (mo : MemoryObject) (array : Array) : outcome ObjectState :=
  makeSymbolic (blank_object mo (Some array)).

(** The copy belongs to nobody and is writable. *)
Definition ObjectState__copy (os : ObjectState) : outcome ObjectState :=
  _ ← assertM (negb (readOnly os));
  Ret (mkObjectState 0 (object os) (concreteStore os) (concreteMask os) (knownSymbolics os)
         (unflushedMask os) (root os) (head os) (size os) false).
