(* ===== verification/MemorySpec.v ===== *)
(** * Memory objects: invariant and bytes

    The three places where [Memory] keeps the bytes of an object agree: under
    every assignment a byte has one value, wherever it is looked up, and the
    operations on bytes read and change just that value.  [MemoryValues] goes
    on with values of several bytes. *)

From stdpp Require Import pretty.
From S2P Require Import Prelude ExprData ExprCreate ExprSem ExprBool ExprArith ExprBits ExprSpec Memory.

(** ** Bit arrays *)

Definition bit_at (m : BitArray) (i : Z) : bool :=
  Z.testbit (default 0 (m !! Z.to_nat (i / 32))) (i mod 32).

(** A bit array for [n] bits; the number of words must not overflow. *)
Definition mask_ok (n : Z) (m : BitArray) : Prop :=
  n + 31 < 2 ^ 32 /\ Z.of_nat (length m) = (n + 31) / 32.

Lemma mask_word n m i :
  mask_ok n m -> 0 <= i < n ->
  BitArray__word m i = Ret (default 0 (m !! Z.to_nat (i / 32))) /\ (Z.to_nat (i / 32) < length m)%nat.
Proof.
  intros [Hn Hl] Hi. assert (Hlt : (Z.to_nat (i / 32) < length m)%nat).
  { pose proof (Z.div_mod (n + 31) 32 ltac:(lia)). pose proof (Z.mod_pos_bound (n + 31) 32 ltac:(lia)).
    pose proof (Z.div_mod i 32 ltac:(lia)). pose proof (Z.mod_pos_bound i 32 ltac:(lia)).
    pose proof (Z.div_pos i 32 ltac:(lia) ltac:(lia)). lia. }
  split; [|done]. unfold BitArray__word. by destruct (lookup_lt_is_Some_2 m _ Hlt) as [w Hw]; rewrite Hw.
Qed.

Lemma land_31 i : Z.land i 31 = i mod 32.
Proof. change 31 with (Z.ones 5). by rewrite Z.land_ones. Qed.

Lemma BitArray__get_ok n m i :
  mask_ok n m -> 0 <= i < n -> BitArray__get m i = Ret (bit_at m i).
Proof.
  intros Hm Hi. unfold BitArray__get. destruct (mask_word n m i Hm Hi) as [-> _].
  cbn [mbind outcome_bind]. f_equal. rewrite land_31. unfold bit_at.
  set (w := default 0 _). change 1 with (Z.ones 1). rewrite Z.land_ones by lia.
  unfold nz. rewrite <- Z.bit0_mod, Z.shiftr_spec by lia.
  rewrite Z.add_0_l. by destruct (Z.testbit w (i mod 32)).
Qed.

(** Changing the bit [i] of a word. *)
Lemma bit_at_insert n m i w j :
  mask_ok n m -> 0 <= i < n -> 0 <= j ->
  (forall k, 0 <= k < 32 -> k <> i mod 32 ->
     Z.testbit w k = Z.testbit (default 0 (m !! Z.to_nat (i / 32))) k) ->
  bit_at (<[Z.to_nat (i / 32) := w]> m) j = if decide (j = i) then Z.testbit w (i mod 32) else bit_at m j.
Proof.
  intros Hm Hi Hj Hw. destruct (mask_word n m i Hm Hi) as [_ Hlt]. unfold bit_at.
  destruct (decide (Z.to_nat (j / 32) = Z.to_nat (i / 32))) as [E|Hne].
  - rewrite E, list_lookup_insert_eq by done. simpl.
    assert (E' : j / 32 = i / 32).
    { pose proof (Z.div_pos i 32 ltac:(lia) ltac:(lia)). pose proof (Z.div_pos j 32 ltac:(lia) ltac:(lia)). lia. }
    destruct (decide (j = i)) as [->|Hji]; [done|]. apply Hw; [apply Z.mod_pos_bound; lia|].
    intros Em. apply Hji. rewrite (Z.div_mod j 32), (Z.div_mod i 32) by lia. lia.
  - rewrite list_lookup_insert_ne by done. destruct (decide (j = i)) as [->|]; done.
Qed.

Lemma mask_ok_insert n m k w : mask_ok n m -> mask_ok n (<[k := w]> m).
Proof. unfold mask_ok. by rewrite length_insert. Qed.

Lemma testbit_one b k : 0 <= b -> Z.testbit (Z.shiftl 1 b) k = (b =? k).
Proof. intros Hb. rewrite Z.shiftl_1_l. by apply Z.pow2_bits_eqb. Qed.

Lemma testbit_bnot x k : 0 <= k < 32 -> Z.testbit (bnot 32 x) k = negb (Z.testbit x k).
Proof.
  intros Hk. unfold bnot. rewrite Z.lxor_spec. change (2 ^ 32 - 1) with (Z.ones 32).
  rewrite Z.ones_spec_low by lia. by destruct (Z.testbit x k).
Qed.

Lemma BitArray__set_ok n m i :
  mask_ok n m -> 0 <= i < n -> exists m', BitArray__set m i = Ret m' /\ mask_ok n m' /\
    forall j, 0 <= j -> bit_at m' j = if decide (j = i) then true else bit_at m j.
Proof.
  intros Hm Hi. unfold BitArray__set. destruct (mask_word n m i Hm Hi) as [-> _].
  cbn [mbind outcome_bind]. eexists. split; [done|]. split; [by apply mask_ok_insert|].
  intros j Hj. rewrite land_31. pose proof (Z.mod_pos_bound i 32 ltac:(lia)) as Hb.
  rewrite (bit_at_insert n); auto.
  - case_decide; [|done]. rewrite Z.lor_spec, testbit_one, Z.eqb_refl by lia. apply orb_true_r.
  - intros k Hk Hne. rewrite Z.lor_spec, testbit_one by lia.
    rewrite (proj2 (Z.eqb_neq _ _)) by congruence. apply orb_false_r.
Qed.

Lemma BitArray__unset_ok n m i :
  mask_ok n m -> 0 <= i < n -> exists m', BitArray__unset m i = Ret m' /\ mask_ok n m' /\
    forall j, 0 <= j -> bit_at m' j = if decide (j = i) then false else bit_at m j.
Proof.
  intros Hm Hi. unfold BitArray__unset. destruct (mask_word n m i Hm Hi) as [-> _].
  cbn [mbind outcome_bind]. eexists. split; [done|]. split; [by apply mask_ok_insert|].
  intros j Hj. rewrite land_31. pose proof (Z.mod_pos_bound i 32 ltac:(lia)) as Hb.
  rewrite (bit_at_insert n); auto.
  - case_decide; [|done]. rewrite Z.land_spec, testbit_bnot, testbit_one, Z.eqb_refl by lia.
    apply andb_false_r.
  - intros k Hk Hne. rewrite Z.land_spec, testbit_bnot, testbit_one by lia.
    rewrite (proj2 (Z.eqb_neq _ _)) by congruence. apply andb_true_r.
Qed.

Lemma BitArray__new_ok n v :
  0 <= n -> n + 31 < 2 ^ 32 -> mask_ok n (BitArray__new n v) /\
  forall i, 0 <= i < n -> bit_at (BitArray__new n v) i = v.
Proof.
  intros H0 Hn. unfold BitArray__new, BitArray__length, u32. rewrite wrapU_small by lia.
  pose proof (Z.div_pos (n + 31) 32 ltac:(lia) ltac:(lia)) as Hp.
  assert (Hm : mask_ok n (replicate (Z.to_nat ((n + 31) / 32)) (if v then 2 ^ 32 - 1 else 0))).
  { split; [done|]. rewrite length_replicate. lia. }
  split; [done|]. intros i Hi. unfold bit_at.
  destruct (mask_word n _ i Hm Hi) as [_ Hlt]. rewrite length_replicate in Hlt.
  rewrite lookup_replicate_2 by done. simpl. pose proof (Z.mod_pos_bound i 32 ltac:(lia)).
  destruct v; [|apply Z.testbit_0_l]. change (2 ^ 32 - 1) with (Z.ones 32). apply Z.ones_spec_low. lia.
Qed.

(** ** What the caches say about a byte *)

(** A mask that was not made is all ones. *)
Definition mask_bit (m : option BitArray) (i : Z) : bool :=
  match m with None => true | Some m => bit_at m i end.

Definition conc (os : ObjectState) (i : Z) : bool := mask_bit (concreteMask os) i.
Definition unfl (os : ObjectState) (i : Z) : bool := mask_bit (unflushedMask os) i.

Definition known_in (ks : option (list (option Expr))) (i : Z) : option Expr :=
  match ks with None => None | Some ks => default None (ks !! Z.to_nat i) end.

Definition symb (os : ObjectState) (i : Z) : option Expr := known_in (knownSymbolics os) i.

Definition stored (os : ObjectState) (i : Z) : Z := default 0 (concreteStore os !! Z.to_nat i).

Definition opt_mask_ok (n : Z) (m : option BitArray) : Prop :=
  match m with None => True | Some m => mask_ok n m end.

(** The buffers have the size of the object. *)
Record shape (os : ObjectState) : Prop := {
  sh_size : 0 <= size os /\ size os + 31 < 2 ^ 32;
  sh_store : Z.of_nat (length (concreteStore os)) = size os;
  sh_bytes : Forall (fun b => 0 <= b < 256) (concreteStore os);
  sh_concrete : opt_mask_ok (size os) (concreteMask os);
  sh_unflushed : opt_mask_ok (size os) (unflushedMask os);
  sh_known : match knownSymbolics os with
             | None => True
             | Some ks => Z.of_nat (length ks) = size os
             end
}.

Section Views.
Variable os : ObjectState.
Hypothesis Hos : shape os.
Variable i : Z.
Hypothesis Hi : 0 <= i < size os.

Lemma isByteConcrete_ok : isByteConcrete os i = Ret (conc os i).
Proof using Hi Hos.
  unfold isByteConcrete, conc. pose proof (sh_concrete os Hos). destruct (concreteMask os); [|done].
  by apply (BitArray__get_ok (size os)).
Qed.

Lemma isByteUnflushed_ok : isByteUnflushed os i = Ret (unfl os i).
Proof using Hi Hos.
  unfold isByteUnflushed, unfl. pose proof (sh_unflushed os Hos). destruct (unflushedMask os); [|done].
  by apply (BitArray__get_ok (size os)).
Qed.

Lemma knownSymbolic_ok : knownSymbolic os i = Ret (symb os i).
Proof using Hi Hos.
  unfold knownSymbolic, symb, known_in. pose proof (sh_known os Hos). destruct (knownSymbolics os) as [ks|]; [|done].
  destruct (lookup_lt_is_Some_2 ks (Z.to_nat i) ltac:(lia)) as [k Hk]. by rewrite Hk.
Qed.

Lemma stored_ok : concreteStore os !! Z.to_nat i = Some (stored os i) /\ 0 <= stored os i < 256.
Proof using Hi Hos.
  unfold stored. pose proof (sh_store os Hos).
  destruct (lookup_lt_is_Some_2 (concreteStore os) (Z.to_nat i) ltac:(lia)) as [b Hb]. rewrite Hb.
  split; [done|]. pose proof (sh_bytes os Hos) as Hf. by eapply (Forall_lookup_1 _ _ _ _ Hf).
Qed.

(** Each of the marks changes one cache of one byte. *)
Definition sets {A} (old new : Z -> A) (a : A) : Prop :=
  forall j, 0 <= j < size os -> new j = if decide (j = i) then a else old j.

Lemma markByteConcrete_ok :
  exists m, markByteConcrete os i = Ret (with_concreteMask m os) /\ opt_mask_ok (size os) m /\
    sets (conc os) (mask_bit m) true.
Proof using Hi Hos.
  unfold markByteConcrete, conc. pose proof (sh_concrete os Hos) as Hm.
  destruct (concreteMask os) as [m|] eqn:E.
  - destruct (BitArray__set_ok (size os) m i Hm Hi) as (m' & -> & Hm' & Hb). cbn [mbind outcome_bind].
    exists (Some m'). split_and!; auto. intros j Hj. apply Hb. lia.
  - exists None. split_and!; [|done|intros j Hj; simpl; by case_decide].
    f_equal. destruct os; simpl in *. by subst.
Qed.

Lemma markByteUnflushed_ok :
  exists m, markByteUnflushed os i = Ret (with_unflushedMask m os) /\ opt_mask_ok (size os) m /\
    sets (unfl os) (mask_bit m) true.
Proof using Hi Hos.
  unfold markByteUnflushed, unfl. pose proof (sh_unflushed os Hos) as Hm.
  destruct (unflushedMask os) as [m|] eqn:E.
  - destruct (BitArray__set_ok (size os) m i Hm Hi) as (m' & -> & Hm' & Hb). cbn [mbind outcome_bind].
    exists (Some m'). split_and!; auto. intros j Hj. apply Hb. lia.
  - exists None. split_and!; [|done|intros j Hj; simpl; by case_decide].
    f_equal. destruct os; simpl in *. by subst.
Qed.

Lemma markByteSymbolic_ok :
  exists m, markByteSymbolic os i = Ret (with_concreteMask (Some m) os) /\ mask_ok (size os) m /\
    sets (conc os) (bit_at m) false.
Proof using Hi Hos.
  unfold markByteSymbolic, conc. pose proof (sh_concrete os Hos) as Hm. pose proof (sh_size os Hos) as Hsz.
  destruct (BitArray__new_ok (size os) true) as [Hnew Hbit]; [lia..|].
  assert (Hd : mask_ok (size os) (default (BitArray__new (size os) true) (concreteMask os))).
  { by destruct (concreteMask os). }
  destruct (BitArray__unset_ok (size os) _ i Hd Hi) as (m' & -> & Hm' & Hb). cbn [mbind outcome_bind].
  exists m'. split_and!; auto. intros j Hj. rewrite Hb by lia. case_decide; [done|].
  destruct (concreteMask os); [done|]. simpl. by apply Hbit.
Qed.

Lemma setKnownSymbolic_ok v :
  exists ks, setKnownSymbolic os i v = Ret (with_knownSymbolics ks os) /\
    match ks with None => True | Some ks => Z.of_nat (length ks) = size os end /\
    sets (symb os) (known_in ks) v.
Proof using Hi Hos.
  unfold setKnownSymbolic, symb. pose proof (sh_known os Hos) as Hk.
  assert (Hgen : forall ks0, Z.of_nat (length ks0) = size os ->
    (forall j, 0 <= j < size os -> default None (ks0 !! Z.to_nat j) = known_in (knownSymbolics os) j) ->
    exists ks, (_ ← of_option MemError (ks0 !! Z.to_nat i);
       Ret (with_knownSymbolics (Some (<[Z.to_nat i := v]> ks0)) os)) = Ret (with_knownSymbolics ks os) /\
    match ks with None => True | Some ks => Z.of_nat (length ks) = size os end /\
    sets (known_in (knownSymbolics os)) (known_in ks) v).
  { intros ks0 Hl Hks. destruct (lookup_lt_is_Some_2 ks0 (Z.to_nat i) ltac:(lia)) as [k Ek]. rewrite Ek.
    eexists. split; [done|]. split; [by rewrite length_insert|]. intros j Hj. simpl.
    destruct (decide (j = i)) as [->|]; [by rewrite list_lookup_insert_eq by lia|].
    rewrite list_lookup_insert_ne by lia. by apply Hks. }
  destruct (knownSymbolics os) as [ks|] eqn:E; [by apply Hgen|].
  destruct v as [e|].
  - apply (Hgen (replicate (Z.to_nat (size os)) None)); [rewrite length_replicate; pose proof (sh_size os Hos); lia|].
    intros j Hj. simpl. destruct (replicate _ None !! _) eqn:El; [|done].
    by apply lookup_replicate in El as [-> _].
  - exists None. split_and!; [|done|intros j Hj; simpl; by case_decide].
    f_equal. destruct os; simpl in *. by subst.
Qed.

End Views.

(** ** The invariant *)

Section Object.
Context `{ExprOptions} `{DivByZero}.

(** An array for an object of [n] bytes. *)
Definition array_ok (n : Z) (a : Array) : Prop :=
  wf_array a /\ adomain a = 32 /\ arange a = 8 /\ asize a = n.

(** An object without a root starts from zeros. *)
Definition zero_array (n : Z) : Array := mkArray 0 "" n 32 8 (replicate (Z.to_nat n) 0).

Definition base_array (os : ObjectState) : Array := default (zero_array (size os)) (root os).

Definition upd_value (rho : assignment) (os : ObjectState) (i : Z) : Z :=
  read_at rho (base_array os) (head os) i.

(** A write of the list whose index is constant is inside the object. *)
Definition write_in (n : Z) (w : Expr * Expr) : Prop :=
  match w.1 with Constant c => cvalue c < n | _ => True end.

Record updates_ok (D : assignment -> Prop) (os : ObjectState) : Prop := {
  up_root : match root os with Some a => array_ok (size os) a | None => True end;
  up_wf : wf_upd (zero_array (size os)) (head os);
  up_inb : inb_upd D (head os);
  up_index : Forall (write_in (size os)) (writes_of (head os))
}.

(** The places that have the byte [i] agree on its value, and the unflushed
    ones have it in a cache. *)
Record byte_ok (D : assignment -> Prop) (V : assignment -> Z -> Z) (os : ObjectState) (i : Z) : Prop := {
  by_concrete : conc os i = true -> forall rho, D rho -> V rho i = stored os i;
  by_known : forall e, symb os i = Some e -> conc os i = false /\ denotes D 8 (fun rho => V rho i) e;
  by_cached : unfl os i = true -> conc os i = true \/ is_Some (symb os i);
  by_flushed : unfl os i = false -> forall rho, D rho -> upd_value rho os i = V rho i
}.

(** The object has the bytes [V] under the assignments of [D]. *)
Record object_ok (D : assignment -> Prop) (V : assignment -> Z -> Z) (os : ObjectState) : Prop := {
  ob_shape : shape os;
  ob_updates : updates_ok D os;
  ob_bytes : forall i, 0 <= i < size os -> byte_ok D V os i
}.

(** Only the widths of the array matter to a list of updates. *)
Lemma wf_upd_array a b u : adomain a = adomain b -> arange a = arange b -> wf_upd a u -> wf_upd b u.
Proof.
  intros Hd Hr. induction u as [|i v n IH] using UpdateNode_chain_ind; simpl; [done|].
  intros (? & ? & ? & ? & ?). rewrite <- Hd, <- Hr. split_and!; auto.
Qed.

Lemma array_ok_upd n a u : array_ok n a -> wf_upd (zero_array n) u -> wf_upd a u.
Proof. intros (_ & Hd & Hr & _). by apply wf_upd_array. Qed.

Lemma zero_array_ok n : 0 <= n < 2 ^ 32 -> array_ok n (zero_array n).
Proof.
  intros Hn. split_and!; try done. unfold wf_array. simpl. split_and!; try done; try lia.
  - rewrite length_replicate. right. lia.
  - apply Forall_replicate. simpl. lia.
Qed.

Lemma base_array_ok D os : shape os -> updates_ok D os -> array_ok (size os) (base_array os).
Proof.
  intros Hs [Hr _ _ _]. unfold base_array. destruct (root os); [done|]. apply zero_array_ok.
  pose proof (sh_size os Hs). simpl. lia.
Qed.

Lemma upd_value_range D os rho i :
  shape os -> updates_ok D os -> 0 <= i -> 0 <= upd_value rho os i < 256.
Proof.
  intros Hs Hu Hi. destruct (base_array_ok D os Hs Hu) as (Hwf & Hd & Hr & Hsz).
  unfold upd_value. change 256 with (2 ^ 8). rewrite <- Hr. apply eval_range; auto.
  apply (array_ok_upd (size os)); [|apply Hu]. by split_and!.
Qed.

(** The bytes are bytes. *)
Lemma object_range D V os rho i :
  object_ok D V os -> 0 <= i < size os -> D rho -> 0 <= V rho i < 256.
Proof.
  intros [Hs Hu Hb] Hi HD. destruct (Hb i Hi) as [B1 B2 B3 B4].
  destruct (unfl os i) eqn:Eu.
  - destruct (B3 eq_refl) as [Hc|[e He]].
    + rewrite (B1 Hc rho HD). by apply stored_ok.
    + destruct (B2 e He) as [_ Hd]. by apply (denotes_range D 8 _ e rho Hd).
  - rewrite <- (B4 eq_refl rho HD). apply (upd_value_range D); auto. lia.
Qed.

(** A byte that looks the same and has the same value. *)
Lemma byte_ok_ext D V V' os os' i :
  conc os' i = conc os i -> symb os' i = symb os i -> unfl os' i = unfl os i ->
  stored os' i = stored os i ->
  (forall rho, D rho -> upd_value rho os' i = upd_value rho os i) ->
  (forall rho, D rho -> V' rho i = V rho i) ->
  byte_ok D V os i -> byte_ok D V' os' i.
Proof.
  intros Ec Ek Eu Es Hupd HV [B1 B2 B3 B4]. split; rewrite ?Ec, ?Ek, ?Eu, ?Es.
  - intros Hc rho HD. rewrite HV by done. auto.
  - intros e He. destruct (B2 e He) as [Hc Hd]. split; [done|].
    eapply denotes_ext; [exact Hd|]. intros rho HD. by rewrite HV.
  - done.
  - intros Hu rho HD. rewrite Hupd, HV by done. auto.
Qed.

(** Fewer assignments. *)
Lemma object_ok_mono (D D' : assignment -> Prop) V os :
  (forall rho, D' rho -> D rho) -> object_ok D V os -> object_ok D' V os.
Proof.
  intros HD [Hs [U1 U2 U3 U4] Hb]. split; [done| |].
  - split; auto. intros rho Hr. by apply U3, HD.
  - intros i Hi. destruct (Hb i Hi) as [B1 B2 B3 B4]. split; auto.
    intros e He. destruct (B2 e He) as [Hc [d1 d2 d3 d4]]. split; [done|]. split; auto.
Qed.

(** ** Extending the list of updates *)

(** An index and a value that can be added. *)
Record new_update (D : assignment -> Prop) (n : Z) (Vi Vv : assignment -> Z) (i v : Expr) : Prop := {
  nu_index : denotes D 32 Vi i;
  nu_value : denotes D 8 Vv v;
  nu_in : write_in n (i, v)
}.

Lemma extend_ok D Vi Vv os i v :
  shape os -> updates_ok D os -> new_update D (size os) Vi Vv i v ->
  exists os', extend os i v = Ret os' /\ os' = with_updates (root os) (Update i v (head os)) os /\
    updates_ok D os' /\
    forall rho j, D rho -> upd_value rho os' j = if Vi rho =? j then Vv rho else upd_value rho os j.
Proof.
  intros Hs [U1 U2 U3 U4] [Hi Hv Hin]. exists (with_updates (root os) (Update i v (head os)) os).
  destruct Hi as [wi di ii ei], Hv as [wv dv iv ev].
  assert (E : extend os i v = Ret (with_updates (root os) (Update i v (head os)) os)).
  { unfold extend. destruct (root os) as [a|] eqn:Er; [|done]. destruct U1 as (_ & Hd & Hr & _).
    unfold UpdateList__extend. rewrite Hd, Hr, di, dv. done. }
  split_and!; [done|done| |].
  - split; simpl; auto.
    + intros rho HD Ho. split_and!; [by apply ii|by apply iv|by apply U3].
    + apply Forall_app. split; [done|]. by constructor.
  - intros rho j HD. unfold upd_value. cbn [head with_updates read_at]. rewrite ei, ev by done. done.
Qed.

End Object.

(** ** Changing one cache *)

Lemma shape_store os s :
  shape os -> Z.of_nat (length s) = size os -> Forall (fun b => 0 <= b < 256) s ->
  shape (with_store s os).
Proof. intros [] ? ?. by split. Qed.

Lemma shape_concreteMask os m : shape os -> opt_mask_ok (size os) m -> shape (with_concreteMask m os).
Proof. intros [] ?. by split. Qed.

Lemma shape_unflushedMask os m : shape os -> opt_mask_ok (size os) m -> shape (with_unflushedMask m os).
Proof. intros [] ?. by split. Qed.

Lemma shape_knownSymbolics os ks :
  shape os -> match ks with None => True | Some ks => Z.of_nat (length ks) = size os end ->
  shape (with_knownSymbolics ks os).
Proof. intros [] ?. by split. Qed.

Lemma shape_updates os r h : shape os -> shape (with_updates r h os).
Proof. intros []. by split. Qed.

Create HintDb memory.
#[export] Hint Resolve shape_store shape_concreteMask shape_unflushedMask shape_knownSymbolics
  shape_updates : memory.

Section Bytes.
Context `{ExprOptions} `{DivByZero}.

(** Two objects look the same at a byte. *)
Definition same_byte (os os' : ObjectState) (j : Z) : Prop :=
  conc os' j = conc os j /\ symb os' j = symb os j /\ unfl os' j = unfl os j /\ stored os' j = stored os j.

(** Only the caches of the byte [i] change. *)
Lemma object_change D V V' os os' i :
  object_ok D V os -> shape os' ->
  size os' = size os -> root os' = root os -> head os' = head os ->
  (forall j, 0 <= j < size os -> j <> i -> same_byte os os' j) ->
  (forall rho j, D rho -> 0 <= j < size os -> j <> i -> V' rho j = V rho j) ->
  (0 <= i < size os -> byte_ok D V' os' i) ->
  object_ok D V' os'.
Proof.
  intros [Hs [U1 U2 U3 U4] Hb] Hs' Esz Er Eh Hsame HV Hi.
  assert (Hupd : forall rho j, upd_value rho os' j = upd_value rho os j).
  { intros. unfold upd_value, base_array. by rewrite Er, Eh, Esz. }
  split; [done| |].
  - split; rewrite ?Er, ?Eh, ?Esz; done.
  - rewrite Esz. intros j Hj. destruct (decide (j = i)) as [->|Hne]; [auto|].
    destruct (Hsame j Hj Hne) as (E1 & E2 & E3 & E4). apply (byte_ok_ext D V V' os); auto.
Qed.

(** The contents with one byte changed. *)
Definition put_byte (V : assignment -> Z -> Z) (i : Z) (v : assignment -> Z) : assignment -> Z -> Z :=
  fun rho j => if j =? i then v rho else V rho j.

Lemma put_byte_same V i v rho : put_byte V i v rho i = v rho.
Proof. unfold put_byte. by rewrite Z.eqb_refl. Qed.

Lemma put_byte_other V i v rho j : j <> i -> put_byte V i v rho j = V rho j.
Proof. intros. unfold put_byte. by rewrite (proj2 (Z.eqb_neq _ _)). Qed.

Lemma write8_ok D V os i v :
  object_ok D V os -> 0 <= i < size os -> 0 <= v < 256 ->
  exists os', write8 os i v = Ret os' /\ size os' = size os /\
    object_ok D (put_byte V i (fun _ => v)) os'.
Proof.
  intros Hos Hi Hv. pose proof (ob_shape _ _ _ Hos) as Hs. unfold write8.
  destruct (stored_ok os Hs i Hi) as [-> _]. cbn [of_option mbind outcome_bind].
  set (st := <[Z.to_nat i := v]> (concreteStore os)).
  assert (Hs1 : shape (with_store st os)).
  { apply shape_store; auto; [unfold st; rewrite length_insert; apply Hs|].
    apply Forall_insert; [apply Hs|done]. }
  destruct (setKnownSymbolic_ok _ Hs1 i Hi None) as (ks & -> & Hks & Sk). cbn [mbind outcome_bind].
  assert (Hs2 : shape (with_knownSymbolics ks (with_store st os))) by auto with memory.
  destruct (markByteConcrete_ok _ Hs2 i Hi) as (mc & -> & Hmc & Sc). cbn [mbind outcome_bind].
  assert (Hs3 : shape (with_concreteMask mc (with_knownSymbolics ks (with_store st os)))) by auto with memory.
  destruct (markByteUnflushed_ok _ Hs3 i Hi) as (mu & -> & Hmu & Su).
  eexists. split; [done|]. split; [done|]. unfold sets in *. simpl in *.
  assert (Hst : forall j, 0 <= j < size os -> stored (with_store st os) j = if decide (j = i) then v else stored os j).
  { intros j Hj. unfold stored, st. simpl. pose proof (sh_store os Hs). destruct (decide (j = i)) as [->|].
    - by rewrite list_lookup_insert_eq by lia.
    - by rewrite list_lookup_insert_ne by lia. }
  eapply (object_change D V _ os _ i); auto with memory.
  - intros j Hj Hne. unfold same_byte, conc, symb, unfl. simpl.
    rewrite Sc, Sk, Su by done. rewrite !decide_False by done. split_and!; auto.
    change (stored (with_store st os) j = stored os j). rewrite Hst by done. by rewrite decide_False.
  - intros rho j HD Hj Hne. by rewrite put_byte_other.
  - intros _. split; unfold conc, symb, unfl; simpl.
    + intros _ rho HD. rewrite put_byte_same. change (v = stored (with_store st os) i).
      rewrite Hst by done. by rewrite decide_True.
    + intros e. rewrite Sk by done. by rewrite decide_True.
    + intros _. left. rewrite Sc by done. by rewrite decide_True.
    + rewrite Su by done. by rewrite decide_True.
Qed.

Lemma write8_expr_ok D V os i value Vv :
  object_ok D V os -> 0 <= i < size os -> denotes D 8 Vv value ->
  exists os', write8_expr os i value = Ret os' /\ size os' = size os /\ object_ok D (put_byte V i Vv) os'.
Proof.
  intros Hos Hi Hd. pose proof (ob_shape _ _ _ Hos) as Hs.
  assert (Hsym : exists os', (os ← setKnownSymbolic os i (Some value); os ← markByteSymbolic os i;
      markByteUnflushed os i) = Ret os' /\ size os' = size os /\ object_ok D (put_byte V i Vv) os').
  { destruct (setKnownSymbolic_ok _ Hs i Hi (Some value)) as (ks & -> & Hks & Sk). cbn [mbind outcome_bind].
    assert (Hs2 : shape (with_knownSymbolics ks os)) by auto with memory.
    destruct (markByteSymbolic_ok _ Hs2 i Hi) as (mc & -> & Hmc & Sc). cbn [mbind outcome_bind].
    assert (Hs3 : shape (with_concreteMask (Some mc) (with_knownSymbolics ks os))) by auto with memory.
    destruct (markByteUnflushed_ok _ Hs3 i Hi) as (mu & -> & Hmu & Su).
    eexists. split; [done|]. split; [done|]. unfold sets in *. simpl in *.
    eapply (object_change D V _ os _ i); auto with memory.
    - intros j Hj Hne. unfold same_byte, conc, symb, unfl. simpl.
      rewrite Sc, Sk, Su by done. by rewrite !decide_False by done.
    - intros rho j HD Hj Hne. by rewrite put_byte_other.
    - intros _. split; unfold conc, symb, unfl; simpl.
      + rewrite Sc by done. by rewrite decide_True.
      + intros e. rewrite Sk, Sc by done. rewrite !decide_True by done. intros [= <-]. split; [done|].
        eapply denotes_ext; [exact Hd|]. intros rho HD. by rewrite put_byte_same.
      + intros _. right. rewrite Sk by done. by rewrite decide_True.
      + rewrite Su by done. by rewrite decide_True. }
  destruct value as [CE| | | | | | | | |]; try exact Hsym. clear Hsym. cbn [write8_expr].
  destruct (denotes_Const_inv _ _ _ _ Hd) as (Hwf & Hw & Hval). unfold getZExtValue. rewrite Hw.
  cbn [Z.leb Z.compare Pos.compare Pos.compare_cont assertM mbind outcome_bind].
  destruct Hwf as [_ Hr]. rewrite Hw in Hr. unfold u8. rewrite wrapU_small by done.
  destruct (write8_ok D V os i (cvalue CE) Hos Hi Hr) as (os' & E & Esz & Hok).
  exists os'. split_and!; auto. destruct Hok as [O1 O2 O3]. split; auto.
  intros j Hj. apply (byte_ok_ext D (put_byte V i (fun _ => cvalue CE)) _ os'); auto.
  intros rho HD. unfold put_byte. destruct (j =? i); [by apply Hval|done].
Qed.

End Bytes.

(** ** Flushing *)

Section Flush.
Context `{ExprOptions} `{DivByZero}.

Lemma constant_of_ok D v w :
  0 < w < 2 ^ 32 -> 0 <= v < 2 ^ w ->
  constant_of v w = Ret (Constant (mkConst v w)) /\ denotes D w (fun _ => v) (Constant (mkConst v w)).
Proof.
  intros Hw Hv. unfold constant_of, ConstantExpr__create, ConstantExpr__alloc.
  rewrite Z.mod_small, Z.eqb_refl, andb_false_r by done. split; [done|].
  apply (denotes_const D (mkConst v w)); [|done]. by split.
Qed.

Lemma size_index os i : shape os -> 0 <= i < size os -> 0 <= i < 2 ^ 32.
Proof. intros Hs Hi. pose proof (sh_size os Hs). lia. Qed.

(** The value of a cached byte becomes an update. *)
Definition flushed_as (D : assignment -> Prop) (V : assignment -> Z -> Z) (i : Z) (os os' : ObjectState) : Prop :=
  (exists h, os' = with_updates (root os) h os) /\ updates_ok D os' /\
  forall rho j, D rho -> upd_value rho os' j = if i =? j then V rho i else upd_value rho os j.

Lemma flush_concrete_ok D V os i :
  object_ok D V os -> 0 <= i < size os -> conc os i = true ->
  exists os', flush_concrete os i = Ret os' /\ flushed_as D V i os os'.
Proof.
  intros [Hs Hu Hb] Hi Hc. unfold flush_concrete.
  destruct (constant_of_ok D i 32) as [-> Hdi]; [lia|by apply (size_index os)|]. cbn [mbind outcome_bind].
  destruct (stored_ok os Hs i Hi) as [-> Hr]. cbn [of_option mbind outcome_bind].
  destruct (constant_of_ok D (stored os i) 8) as [-> Hdv]; [lia|done|]. cbn [mbind outcome_bind].
  destruct (extend_ok D (fun _ => i) (fun _ => stored os i) os (Constant (mkConst i 32))
    (Constant (mkConst (stored os i) 8))) as (os' & E & Eos & Hu' & Hv); auto.
  { split; [done|done|]. unfold write_in. simpl. lia. }
  exists os'. split; [done|]. split_and!; [by eexists|done|]. intros rho j HD. rewrite Hv by done.
  destruct (i =? j); [|done]. symmetry. by apply (by_concrete _ _ _ _ (Hb i Hi)).
Qed.

Lemma flush_known_ok D V os i e :
  object_ok D V os -> 0 <= i < size os -> symb os i = Some e ->
  exists os', flush_known os i = Ret os' /\ flushed_as D V i os os'.
Proof.
  intros [Hs Hu Hb] Hi He. unfold flush_known. rewrite knownSymbolic_ok by done.
  cbn [mbind outcome_bind]. rewrite He.
  destruct (constant_of_ok D i 32) as [-> Hdi]; [lia|by apply (size_index os)|]. cbn [mbind outcome_bind].
  destruct (by_known _ _ _ _ (Hb i Hi) e He) as [_ Hd].
  destruct (extend_ok D (fun _ => i) (fun rho => V rho i) os (Constant (mkConst i 32)) e)
    as (os' & E & Eos & Hu' & Hv); auto.
  { split; [done|done|]. unfold write_in. simpl. lia. }
  exists os'. split; [done|]. split_and!; [by eexists|done|]. intros rho j HD. by rewrite Hv.
Qed.

(** A byte whose value is in the updates: what its caches are does not matter
    as long as they are right. *)
Lemma byte_flushed D V os i :
  (conc os i = true -> forall rho, D rho -> V rho i = stored os i) ->
  (forall e, symb os i = Some e -> conc os i = false /\ denotes D 8 (fun rho => V rho i) e) ->
  unfl os i = false -> (forall rho, D rho -> upd_value rho os i = V rho i) -> byte_ok D V os i.
Proof. intros ? ? Hu ?. split; auto. by rewrite Hu. Qed.

Lemma unset_unflushed_ok os i m :
  shape os -> 0 <= i < size os -> unflushedMask os = Some m ->
  exists m', unset_unflushed os i = Ret (with_unflushedMask (Some m') os) /\ mask_ok (size os) m' /\
    forall j, 0 <= j < size os -> bit_at m' j = if decide (j = i) then false else unfl os j.
Proof.
  intros Hs Hi E. unfold unset_unflushed, unfl. pose proof (sh_unflushed os Hs) as Hm. rewrite E in Hm |- *.
  destruct (BitArray__unset_ok (size os) m i Hm Hi) as (m' & -> & Hm' & Hb). cbn [mbind outcome_bind].
  exists m'. split_and!; auto. intros j Hj. apply Hb. lia.
Qed.

(** What a step of a flush does: the byte [i] is flushed, and others are as
    they were; [drop] tells whether it leaves the caches. *)
Record step_ok (D : assignment -> Prop) (V : assignment -> Z -> Z) (drop : bool) (i : Z)
    (os os' : ObjectState) : Prop := {
  st_ok : object_ok D V os';
  st_size : size os' = size os;
  st_mask : is_Some (unflushedMask os');
  st_flushed : unfl os' i = false;
  st_dropped : drop = true -> conc os' i = false /\ symb os' i = None;
  st_others : forall j, 0 <= j < size os -> j <> i -> same_byte os os' j
}.

(** The byte [i] is flushed to [os1], its caches are changed and its bit is
    cleared: the result is [os']. *)
Lemma flush_step D V (drop : bool) i os os1 os' :
  object_ok D V os -> 0 <= i < size os -> flushed_as D V i os os1 -> shape os' ->
  size os' = size os -> root os' = root os1 -> head os' = head os1 -> is_Some (unflushedMask os') ->
  unfl os' i = false ->
  (forall j, 0 <= j < size os -> j <> i -> same_byte os os' j) ->
  (if drop then conc os' i = false /\ symb os' i = None else same_byte os (with_unflushedMask (unflushedMask os) os') i) ->
  step_ok D V drop i os os'.
Proof.
  intros Hos Hi ((h & ->) & Hu & Hv) Hs' Esz Er Eh Hm Hun Hoth Hdrop. simpl in *.
  assert (Hupd : forall rho j, D rho -> upd_value rho os' j = if i =? j then V rho i else upd_value rho os j).
  { intros rho j HD. rewrite <- Hv by done. unfold upd_value, base_array. simpl. by rewrite Er, Eh, Esz. }
  split; auto; [|intros ->; done]. split; [done| |].
  - destruct Hu as [U1 U2 U3 U4]. simpl in *. split; rewrite ?Er, ?Eh, ?Esz; done.
  - rewrite Esz. intros j Hj. destruct (decide (j = i)) as [->|Hne].
    + apply byte_flushed; auto; [| |intros rho HD; rewrite Hupd, Z.eqb_refl by done; done].
      * destruct (ob_bytes _ _ _ Hos i Hi) as [B1 _ _ _]. destruct drop.
        -- destruct Hdrop as [-> _]. done.
        -- destruct Hdrop as (Ec & _ & _ & Es). change (conc os' i = conc os i) in Ec.
           change (stored os' i = stored os i) in Es. by rewrite Ec, Es.
      * destruct (ob_bytes _ _ _ Hos i Hi) as [_ B2 _ _]. destruct drop.
        -- destruct Hdrop as [_ ->]. done.
        -- destruct Hdrop as (Ec & Ek & _ & _). change (conc os' i = conc os i) in Ec.
           change (symb os' i = symb os i) in Ek. by rewrite Ec, Ek.
    + destruct (Hoth j Hj Hne) as (E1 & E2 & E3 & E4). apply (byte_ok_ext D V V os); auto.
      * intros rho HD. rewrite Hupd by done. by rewrite (proj2 (Z.eqb_neq _ _)) by congruence.
      * by apply Hos.
Qed.

Lemma flush_byte_read_ok D V os i :
  object_ok D V os -> 0 <= i < size os -> is_Some (unflushedMask os) ->
  exists os', flush_byte_read os i = Ret os' /\ step_ok D V false i os os'.
Proof.
  intros Hos Hi [m Em]. pose proof (ob_shape _ _ _ Hos) as Hs. unfold flush_byte_read.
  rewrite isByteUnflushed_ok by done. cbn [mbind outcome_bind]. destruct (unfl os i) eqn:Eu.
  2: { exists os. split; [done|]. split; auto; done. }
  rewrite isByteConcrete_ok by done. cbn [mbind outcome_bind].
  assert (Hfl : exists os1, (if conc os i then flush_concrete os i else flush_known os i) = Ret os1 /\
    flushed_as D V i os os1).
  { destruct (conc os i) eqn:Ec; [by apply flush_concrete_ok|].
    destruct (by_cached _ _ _ _ (ob_bytes _ _ _ Hos i Hi) Eu) as [|[e He]]; [congruence|].
    by apply (flush_known_ok D V os i e). }
  destruct Hfl as (os1 & -> & Hf). cbn [mbind outcome_bind]. pose proof Hf as ((h & ->) & _ & _).
  destruct (unset_unflushed_ok (with_updates (root os) h os) i m) as (m' & -> & Hm' & Hb); auto with memory.
  eexists. split; [done|]. simpl in *.
  apply (flush_step D V false i os _ _ Hos Hi Hf); auto with memory.
  - change (bit_at m' i = false). rewrite Hb by done. by rewrite decide_True.
  - intros j Hj Hne. split_and!; auto. change (bit_at m' j = unfl os j). rewrite Hb by done. by rewrite decide_False.
  - done.
Qed.

Lemma flushed_already D V os i :
  object_ok D V os -> 0 <= i < size os -> unfl os i = false -> flushed_as D V i os os.
Proof.
  intros Hos Hi Hu. split_and!; [exists (head os); by destruct os|apply Hos|].
  intros rho j HD. destruct (Z.eqb_spec i j) as [<-|]; [|done].
  by apply (by_flushed _ _ _ _ (ob_bytes _ _ _ Hos i Hi)).
Qed.

(** The byte leaves the caches. *)
Definition uncached (i : Z) (os os' : ObjectState) : Prop :=
  (exists mc ks, os' = with_concreteMask mc (with_knownSymbolics ks os)) /\ shape os' /\
  conc os' i = false /\ symb os' i = None /\
  forall j, 0 <= j < size os -> j <> i -> same_byte os os' j.

Lemma uncache_concrete os i :
  shape os -> 0 <= i < size os -> symb os i = None ->
  exists os', markByteSymbolic os i = Ret os' /\ uncached i os os'.
Proof.
  intros Hs Hi Hn. destruct (markByteSymbolic_ok os Hs i Hi) as (mc & -> & Hmc & Sc).
  eexists. split; [done|]. split_and!; auto with memory.
  - exists (Some mc), (knownSymbolics os). by destruct os.
  - change (bit_at mc i = false). rewrite Sc by done. by rewrite decide_True.
  - intros j Hj Hne. split_and!; auto. change (bit_at mc j = conc os j). rewrite Sc by done. by rewrite decide_False.
Qed.

Lemma uncache_known os i :
  shape os -> 0 <= i < size os -> conc os i = false ->
  exists os', setKnownSymbolic os i None = Ret os' /\ uncached i os os'.
Proof.
  intros Hs Hi Hn. destruct (setKnownSymbolic_ok os Hs i Hi None) as (ks & -> & Hks & Sk).
  eexists. split; [done|]. split_and!; auto with memory.
  - exists (concreteMask os), ks. by destruct os.
  - change (known_in ks i = None). rewrite Sk by done. by rewrite decide_True.
  - intros j Hj Hne. split_and!; auto. change (known_in ks j = symb os j). rewrite Sk by done. by rewrite decide_False.
Qed.

Lemma uncached_none os i :
  shape os -> conc os i = false -> symb os i = None -> uncached i os os.
Proof.
  intros ? ? ?. split_and!; auto; [|intros; by split_and!].
  exists (concreteMask os), (knownSymbolics os). by destruct os.
Qed.

(** A byte that is flushed, then taken out of the caches. *)
Lemma flush_uncache D V os os1 os2 i :
  object_ok D V os -> 0 <= i < size os -> is_Some (unflushedMask os) -> unfl os i = false ->
  flushed_as D V i os os1 -> uncached i os1 os2 -> step_ok D V true i os os2.
Proof.
  intros Hos Hi Hm Hu Hf ((mc & ks & ->) & Hs & Hc & Hk & Hoth). pose proof Hf as ((h & ->) & _ & _).
  by apply (flush_step D V true i os _ _ Hos Hi Hf).
Qed.

(** The same with the bit of the byte cleared at the end. *)
Lemma flush_uncache_unset D V os os1 os2 i m :
  object_ok D V os -> 0 <= i < size os -> unflushedMask os = Some m ->
  flushed_as D V i os os1 -> uncached i os1 os2 ->
  exists os', unset_unflushed os2 i = Ret os' /\ step_ok D V true i os os'.
Proof.
  intros Hos Hi Em Hf ((mc & ks & ->) & Hs & Hc & Hk & Hoth). pose proof Hf as ((h & ->) & _ & _).
  destruct (unset_unflushed_ok _ i m Hs Hi Em) as (m' & -> & Hm' & Hb).
  eexists. split; [done|]. simpl in Hb.
  apply (flush_step D V true i os _ _ Hos Hi Hf); auto with memory.
  - change (bit_at m' i = false). rewrite Hb by done. by rewrite decide_True.
  - intros j Hj Hne. destruct (Hoth j Hj Hne) as (E1 & E2 & E3 & E4). split_and!; auto.
    change (bit_at m' j = unfl os j). rewrite Hb by done. by rewrite decide_False.
Qed.

Lemma known_not_concrete D V os i :
  object_ok D V os -> 0 <= i < size os -> conc os i = true -> symb os i = None.
Proof.
  intros Hos Hi Hc. destruct (symb os i) as [e|] eqn:E; [|done].
  destruct (by_known _ _ _ _ (ob_bytes _ _ _ Hos i Hi) e E). congruence.
Qed.

Lemma flush_byte_write_ok D V os i :
  object_ok D V os -> 0 <= i < size os -> is_Some (unflushedMask os) ->
  exists os', flush_byte_write os i = Ret os' /\ step_ok D V true i os os'.
Proof.
  intros Hos Hi Hm. pose proof (ob_shape _ _ _ Hos) as Hs. unfold flush_byte_write.
  rewrite isByteUnflushed_ok, isByteConcrete_ok by done. cbn [mbind outcome_bind].
  destruct (unfl os i) eqn:Eu.
  - destruct Hm as [m Em]. destruct (conc os i) eqn:Ec.
    + destruct (flush_concrete_ok D V os i Hos Hi Ec) as (os1 & -> & Hf). cbn [mbind outcome_bind].
      pose proof Hf as ((h & E) & _ & _). pose proof (known_not_concrete D V os i Hos Hi Ec).
      destruct (uncache_concrete os1 i) as (os2 & -> & Hun); [subst os1; auto with memory..|].
      by apply (flush_uncache_unset D V os os1 os2 i m).
    + destruct (by_cached _ _ _ _ (ob_bytes _ _ _ Hos i Hi) Eu) as [|[e He]]; [congruence|].
      destruct (flush_known_ok D V os i e Hos Hi He) as (os1 & -> & Hf). cbn [mbind outcome_bind].
      pose proof Hf as ((h & E) & _ & _).
      destruct (uncache_known os1 i) as (os2 & -> & Hun); [subst os1; auto with memory..|].
      by apply (flush_uncache_unset D V os os1 os2 i m).
  - pose proof (flushed_already D V os i Hos Hi Eu) as Hf. destruct (conc os i) eqn:Ec.
    + pose proof (known_not_concrete D V os i Hos Hi Ec).
      destruct (uncache_concrete os i) as (os2 & -> & Hun); auto.
      exists os2. split; [done|]. by apply (flush_uncache D V os os os2 i).
    + unfold isByteKnownSymbolic. rewrite knownSymbolic_ok by done. cbn [mbind outcome_bind].
      case_bool_decide as Hk.
      * destruct (uncache_known os i) as (os2 & -> & Hun); auto.
        exists os2. split; [done|]. by apply (flush_uncache D V os os os2 i).
      * exists os. split; [done|]. apply (flush_uncache D V os os os i); auto.
        apply uncached_none; auto. destruct (symb os i); [|done]. exfalso. eauto.
Qed.

End Flush.
