(* ===== verification/MemoryBytes.v ===== *)
(** * Memory objects: reads and symbolic offsets

    The operations of [Memory] on a byte that go through the list of updates:
    flushing a range, creating the root of the list, reading a byte, and
    reading and writing at a symbolic offset.  All of them keep the invariant
    of [MemorySpec]. *)

From S2P Require Import Prelude ExprData ExprCreate ExprSem ExprBool ExprArith ExprBits ExprSpec Memory MemorySpec.

(** ** Flushing a range *)

Section Ranges.
Context `{ExprOptions} `{DivByZero}.

(** The bytes of a range are in the list of updates; with [drop] they are
    nowhere else. *)
Record range_flushed (D : assignment -> Prop) (V : assignment -> Z -> Z) (drop : bool) (base n : Z)
    (os os' : ObjectState) : Prop := {
  rf_ok : object_ok D V os';
  rf_size : size os' = size os;
  rf_mask : is_Some (unflushedMask os');
  rf_flushed : forall j, base <= j < base + n -> unfl os' j = false;
  rf_dropped : drop = true -> forall j, base <= j < base + n -> conc os' j = false /\ symb os' j = None;
  rf_others : forall j, 0 <= j < size os -> ~ base <= j < base + n -> same_byte os os' j
}.

Lemma same_byte_trans os1 os2 os3 j : same_byte os1 os2 j -> same_byte os2 os3 j -> same_byte os1 os3 j.
Proof. unfold same_byte. intros (-> & -> & -> & ->) ?. done. Qed.

Lemma flush_range_ok D V drop flush_byte :
  (forall os i, object_ok D V os -> 0 <= i < size os -> is_Some (unflushedMask os) ->
     exists os', flush_byte os i = Ret os' /\ step_ok D V drop i os os') ->
  forall n os base, object_ok D V os -> is_Some (unflushedMask os) ->
    0 <= base -> base + Z.of_nat n <= size os ->
    exists os', flush_range flush_byte os base n = Ret os' /\ range_flushed D V drop base (Z.of_nat n) os os'.
Proof.
  intros Hstep n. induction n as [|n IH]; intros os base Hos Hm Hb Hn.
  { exists os. split; [done|]. split; auto; try (intros; lia). intros; by split_and!. }
  destruct (Hstep os base Hos) as (os1 & E1 & S); [lia|done|]. simpl. rewrite E1. cbn [mbind outcome_bind].
  destruct (IH os1 (base + 1)) as (os' & E' & R); [apply S|apply S|lia|rewrite (st_size _ _ _ _ _ _ S); lia|].
  exists os'. split; [done|]. pose proof (st_size _ _ _ _ _ _ S) as Esz.
  assert (Hfirst : same_byte os1 os' base) by (apply R; lia).
  split; [apply R|rewrite (rf_size _ _ _ _ _ _ _ R); lia|apply R| | |].
  - intros j Hj. destruct (decide (j = base)) as [->|]; [|apply R; lia].
    destruct Hfirst as (_ & _ & -> & _). apply S.
  - intros Hd j Hj. destruct (decide (j = base)) as [->|]; [|apply R; [done|lia]].
    destruct Hfirst as (-> & -> & _ & _). by apply S.
  - intros j Hj Hout. apply (same_byte_trans os os1); [apply S; lia|apply R; lia].
Qed.

Lemma ensure_unflushedMask_ok D V os :
  object_ok D V os ->
  object_ok D V (ensure_unflushedMask os) /\ is_Some (unflushedMask (ensure_unflushedMask os)) /\
  size (ensure_unflushedMask os) = size os /\
  forall j, 0 <= j < size os -> same_byte os (ensure_unflushedMask os) j.
Proof.
  intros Hos. pose proof (ob_shape _ _ _ Hos) as Hs. unfold ensure_unflushedMask.
  destruct (unflushedMask os) as [m|] eqn:E.
  { rewrite E. split_and!; auto. intros; by split_and!. }
  destruct (BitArray__new_ok (size os) true) as [Hm Hbit]; [apply Hs..|].
  assert (Hsame : forall j, 0 <= j < size os ->
    same_byte os (with_unflushedMask (Some (BitArray__new (size os) true)) os) j).
  { intros j Hj. split_and!; auto. unfold unfl. rewrite E. by apply Hbit. }
  split_and!; auto. apply (object_change D V V os _ (-1)); auto with memory; lia.
Qed.

(** The whole object is flushed before an access at a symbolic offset. *)
Lemma flushRange_ok D V drop flush_byte os :
  (forall os i, object_ok D V os -> 0 <= i < size os -> is_Some (unflushedMask os) ->
     exists os', flush_byte os i = Ret os' /\ step_ok D V drop i os os') ->
  object_ok D V os ->
  exists os', flush_range flush_byte (ensure_unflushedMask os) 0 (Z.to_nat (u32 (0 + size os) - 0)) = Ret os' /\
    range_flushed D V drop 0 (size os) os os'.
Proof.
  intros Hstep Hos. pose proof (sh_size os (ob_shape _ _ _ Hos)) as Hsz.
  destruct (ensure_unflushedMask_ok D V os Hos) as (Hos' & Hm & Esz & Hsame).
  unfold u32. rewrite wrapU_small, Z.add_0_l, Z.sub_0_r by lia.
  destruct (flush_range_ok D V drop flush_byte Hstep (Z.to_nat (size os)) _ 0 Hos' Hm) as (os' & E & R); [lia..|].
  rewrite Z2Nat.id in R by lia. exists os'. split; [done|]. destruct R as [R1 R2 R3 R4 R5 R6].
  split; auto; [congruence|]. intros j Hj Hout. lia.
Qed.

Lemma flushRangeForRead_ok D V os :
  object_ok D V os ->
  exists os', flushRangeForRead os 0 (size os) = Ret os' /\ range_flushed D V false 0 (size os) os os'.
Proof. apply (flushRange_ok D V false flush_byte_read), flush_byte_read_ok. Qed.

Lemma flushRangeForWrite_ok D V os :
  object_ok D V os ->
  exists os', flushRangeForWrite os 0 (size os) = Ret os' /\ range_flushed D V true 0 (size os) os os'.
Proof. apply (flushRange_ok D V true flush_byte_write), flush_byte_write_ok. Qed.

End Ranges.

(** ** Arrays *)

Definition cached_ok (a : Array) : Prop := array_ok (asize a) a /\ isSymbolicArray a = true.

(** The arrays that are kept for their names. *)
Definition cache_ok (ac : ArrayCache) : Prop := Forall cached_ok (cachedSymbolicArrays ac).

(** The contents of a constant array for [n] bytes. *)
Definition contents_ok (n : Z) (cs : list ConstantExpr) : Prop :=
  Z.of_nat (length cs) = n /\ Forall (fun c => cwidth c = 8 /\ 0 <= cvalue c < 256) cs.

Lemma isSymbolicArray_nil a : isSymbolicArray a = true <-> aconstantValues a = [].
Proof. unfold isSymbolicArray. destruct (aconstantValues a); done. Qed.

Lemma CreateArray_ok ac name n values :
  cache_ok ac -> 0 <= n < 2 ^ 32 -> values = [] \/ contents_ok n values ->
  exists a ac', CreateArray ac name n values = Ret (a, ac') /\ array_ok n a /\ cache_ok ac' /\
    aconstantValues a = map cvalue values.
Proof.
  intros Hac Hn Hv. set (a := mkArray (next_address ac) name n 32 8 (map cvalue values)).
  assert (Hlen : isSymbolicArray a = true \/ Z.of_nat (length (aconstantValues a)) = asize a).
  { rewrite isSymbolicArray_nil. simpl. rewrite length_map. destruct Hv as [->|[? _]]; auto. }
  assert (Hall : Forall (fun c => cwidth c = 8 /\ 0 <= cvalue c < 256) values) by (destruct Hv as [->|[_ ?]]; auto).
  assert (Ha : array_ok n a).
  { split_and!; try done. unfold wf_array. split_and!; simpl; try done; try lia.
    rewrite Forall_map. eapply Forall_impl; [exact Hall|]. intros c [_ Hc]. done. }
  assert (E : Array__new (next_address ac) name n values 32 8 = Ret a).
  { unfold Array__new. fold a.
    replace (isSymbolicArray a || (Z.of_nat (length values) =? n)) with true.
    2: { symmetry. apply orb_true_iff. rewrite Z.eqb_eq. simpl in Hlen. rewrite length_map in Hlen. done. }
    replace (forallb (fun v => cwidth v =? 8) values) with true; [done|].
    symmetry. apply forallb_forall. intros c Hc. apply Z.eqb_eq.
    rewrite Forall_forall in Hall. apply Hall. by apply list_elem_of_In. }
  unfold CreateArray. rewrite E. cbn [mbind outcome_bind]. destruct (isSymbolicArray a) eqn:Es.
  - destruct (find (equivArray a) (cachedSymbolicArrays ac)) as [b|] eqn:Ef.
    + apply find_some in Ef as [Hin Heq]. apply list_elem_of_In in Hin.
      unfold cache_ok in Hac. rewrite Forall_forall in Hac. destruct (Hac b Hin) as [Hb Hsb].
      rewrite Hsb. cbn [assertM mbind outcome_bind]. exists b, ac.
      unfold equivArray in Heq. apply andb_true_iff in Heq as [Hsz _]. apply Z.eqb_eq in Hsz. simpl in Hsz.
      apply isSymbolicArray_nil in Hsb, Es. simpl in Es. rewrite Hsb, Es, Hsz.
      split_and!; auto. by apply Forall_forall.
    + eexists _, _. split; [done|]. split_and!; auto. apply Forall_cons. split; [|done]. by split.
  - eexists _, _. split; [done|]. by split_and!.
Qed.

(** ** The list of updates *)

Section Updates.
Context `{ExprOptions} `{DivByZero}.

(** The contents after some writes, the oldest first. *)
Definition written (rho : assignment) (f : Z -> Z) (ws : list (Expr * Expr)) : Z -> Z :=
  fold_left (fun f w j => if eval rho w.1 =? j then eval rho w.2 else f j) ws f.

Lemma written_ext rho ws f g j :
  f j = g j -> written rho f ws j = written rho g ws j.
Proof.
  revert f g. induction ws as [|w ws IH]; intros f g Hfg; [done|]. apply IH.
  by destruct (eval rho w.1 =? j).
Qed.

Lemma read_at_written rho a u j :
  read_at rho a u j = written rho (array_value rho a) (writes_of u) j.
Proof.
  induction u as [|i v n IH] using UpdateNode_chain_ind; [done|].
  simpl. unfold written. rewrite fold_left_app. simpl. by rewrite IH.
Qed.

Definition update_item (D : assignment -> Prop) (n : Z) (w : Expr * Expr) : Prop :=
  new_update D n (fun rho => eval rho w.1) (fun rho => eval rho w.2) w.1 w.2.

Lemma updates_items D n u :
  wf_upd (zero_array n) u -> inb_upd D u -> Forall (write_in n) (writes_of u) ->
  Forall (update_item D n) (writes_of u).
Proof.
  induction u as [|i v r IH] using UpdateNode_chain_ind; [by constructor|].
  intros (Hi & Hv & Wi & Wv & Hr) Hinb Hin. simpl in *. apply Forall_app in Hin as [Hin1 Hin2].
  apply Forall_app. split; [apply IH; auto; intros rho HD Ho; by apply (Hinb rho HD Ho)|].
  apply Forall_singleton. apply Forall_cons in Hin2 as [Hin2 _].
  split; [split|split|exact Hin2]; simpl; auto; intros rho HD Ho; by apply (Hinb rho HD Ho).
Qed.

Definition content (cs : list ConstantExpr) (j : Z) : Z := default 0 (cvalue <$> cs !! Z.to_nat j).

Lemma pull_concrete_ok D n ws :
  Forall (update_item D n) ws ->
  forall cs, contents_ok n cs ->
  exists cs' ws', pull_concrete cs ws = Ret (cs', ws') /\ contents_ok n cs' /\ Forall (update_item D n) ws' /\
    forall rho j, 0 <= j < n -> written rho (content cs') ws' j = written rho (content cs) ws j.
Proof.
  induction ws as [|[i v] ws IH]; intros Hws cs Hcs; [by exists cs, []|].
  pose proof Hws as Hall. apply Forall_cons in Hws as [[Hi Hv Hin] Hws]. simpl in *.
  assert (Hstop : exists cs' ws', Ret (cs, (i, v) :: ws) = Ret (cs', ws') /\ contents_ok n cs' /\
    Forall (update_item D n) ws' /\
    forall rho j, 0 <= j < n -> written rho (content cs') ws' j = written rho (content cs) ((i, v) :: ws) j)
    by (by eexists _, _).
  destruct i as [ci| | | | | | | | |]; try exact Hstop. destruct v as [cv| | | | | | | | |]; try exact Hstop.
  clear Hstop. destruct (denotes_Const_inv _ _ _ _ Hi) as ([_ Hri] & Hwi & _).
  destruct (denotes_Const_inv _ _ _ _ Hv) as ([_ Hrv] & Hwv & _). rewrite Hwv in Hrv.
  unfold write_in in Hin. simpl in Hin. destruct Hcs as [Hl Hc].
  unfold getZExtValue. rewrite Hwi. cbn [Z.leb Z.compare Pos.compare Pos.compare_cont assertM mbind outcome_bind].
  destruct (lookup_lt_is_Some_2 cs (Z.to_nat (cvalue ci)) ltac:(lia)) as [c Ec]. rewrite Ec.
  cbn [of_option mbind outcome_bind].
  destruct (IH Hws (<[Z.to_nat (cvalue ci) := cv]> cs)) as (cs' & ws' & -> & Hcs' & Hws' & Hw).
  { split; [by rewrite length_insert|]. by apply Forall_insert. }
  exists cs', ws'. split_and!; auto. intros rho j Hj. rewrite Hw by done. unfold written at 2. simpl.
  apply written_ext. unfold content. destruct (Z.eqb_spec (cvalue ci) j) as [<-|Hne].
  - by rewrite list_lookup_insert_eq by lia.
  - by rewrite list_lookup_insert_ne by lia.
Qed.

Lemma extend_all_ok D ws :
  forall os, shape os -> updates_ok D os -> Forall (update_item D (size os)) ws ->
  exists os', extend_all os ws = Ret os' /\ (exists h, os' = with_updates (root os) h os) /\ updates_ok D os' /\
    forall rho j, D rho -> upd_value rho os' j = written rho (upd_value rho os) ws j.
Proof.
  induction ws as [|[i v] ws IH]; intros os Hs Hu Hws.
  { exists os. split_and!; auto. exists (head os). by destruct os. }
  apply Forall_cons in Hws as [Hit Hws]. simpl in Hit.
  destruct (extend_ok D _ _ os i v Hs Hu Hit) as (os1 & E1 & Eos & Hu1 & Hv1). simpl. rewrite E1.
  cbn [mbind outcome_bind]. subst os1.
  destruct (IH _ (shape_updates _ _ _ Hs) Hu1 Hws) as (os' & -> & (h & ->) & Hu' & Hv').
  eexists. split; [done|]. split_and!; [by exists h|done|]. intros rho j HD. rewrite Hv' by done.
  unfold written at 2. simpl. apply written_ext. by apply Hv1.
Qed.

End Updates.

(** ** Reads and writes of a byte *)

Section Access.
Context `{ExprOptions} `{DivByZero}.

Lemma array_value_content rho n a cs j :
  array_ok n a -> contents_ok n cs -> aconstantValues a = map cvalue cs -> 0 <= j < n ->
  array_value rho a j = content cs j.
Proof.
  intros (_ & _ & _ & Hsz) [Hl _] Ea Hj. unfold array_value, content, isConstantArray, isSymbolicArray.
  rewrite Ea, Hsz, (proj2 (Z.ltb_lt j n)) by lia. destruct cs as [|c cs]; [simpl in Hl; lia|].
  set (l := c :: cs) in *. change (negb (match map cvalue l with [] => true | _ => false end)) with true.
  cbn [andb]. destruct (lookup_lt_is_Some_2 l (Z.to_nat j) ltac:(lia)) as [d Ed].
  rewrite (nth_lookup_Some _ _ _ (cvalue d)); [by rewrite Ed|].
  change (map cvalue l) with (cvalue <$> l). by rewrite list_lookup_fmap, Ed.
Qed.

(** What a lookup of the updates leaves behind. *)
Record looked_up (D : assignment -> Prop) (V : assignment -> Z -> Z) (os os' : ObjectState) : Prop := {
  lu_ok : object_ok D V os';
  lu_size : size os' = size os;
  lu_value : forall rho j, D rho -> 0 <= j < size os -> upd_value rho os' j = upd_value rho os j
}.

Lemma getUpdates_ok D V os ac :
  object_ok D V os -> cache_ok ac ->
  exists a os' ac', getUpdates os ac = Ret (a, os', ac') /\ root os' = Some a /\ cache_ok ac' /\
    looked_up D V os os'.
Proof.
  intros Hos Hac. pose proof Hos as [Hs [U1 U2 U3 U4] Hb]. pose proof (sh_size os Hs) as Hsz.
  unfold getUpdates. destruct (root os) as [a|] eqn:Er.
  { by exists a, os, ac. }
  change (ConstantExpr__create 0 8) with (Ret (mkConst 0 8)). cbn [mbind outcome_bind].
  pose proof (updates_items D (size os) (head os) U2 U3 U4) as Hit.
  set (zeros := replicate (Z.to_nat (size os)) (mkConst 0 8)).
  assert (Hz : contents_ok (size os) zeros).
  { split; [unfold zeros; rewrite length_replicate; lia|]. apply Forall_replicate. simpl. lia. }
  destruct (pull_concrete_ok D (size os) _ Hit zeros Hz) as (cs & ws & -> & Hcs & Hws & Hw).
  cbn [mbind outcome_bind fst snd].
  destruct (CreateArray_ok (with_const_arr_id (u32 (const_arr_id ac + 1)) ac)
    (const_arr_name (u32 (const_arr_id ac + 1))) (size os) cs) as (a & ac' & -> & Ha & Hac' & Ea);
    [done|lia|by right|]. cbn [mbind outcome_bind fst snd].
  destruct (extend_all_ok D ws (with_updates (Some a) NoUpdate os)) as (os' & -> & (h & Eos) & Hu' & Hv');
    auto with memory.
  { split; simpl; try done. }
  cbn [mbind outcome_bind]. exists a, os', ac'.
  assert (Hval : forall rho j, D rho -> 0 <= j < size os -> upd_value rho os' j = upd_value rho os j).
  { intros rho j HD Hj. rewrite Hv' by done. unfold upd_value, base_array. rewrite Er. simpl.
    rewrite read_at_written, (written_ext rho ws _ (content cs)), Hw by (try done; by apply (array_value_content rho (size os))).
    apply written_ext. symmetry. apply (array_value_content rho (size os)); auto; [apply zero_array_ok; lia|].
    simpl. change (map cvalue zeros) with (cvalue <$> zeros). unfold zeros. by rewrite fmap_replicate. }
  subst os'. split_and!; auto. split; auto. split; auto with memory.
  intros j Hj. by apply (byte_ok_ext D V V os); auto.
Qed.

(** A read gives a value and an object with the same bytes. *)
Definition reads (D : assignment -> Prop) (V : assignment -> Z -> Z) (os : ObjectState) (w : Z)
    (Vr : assignment -> Z) (r : outcome (Expr * ObjectState * ArrayCache)) : Prop :=
  exists e os' ac', r = Ret (e, os', ac') /\ denotes D w Vr e /\
    object_ok D V os' /\ size os' = size os /\ cache_ok ac'.

(** The read expression of an object whose updates have the bytes. *)
Lemma read_expr_ok D V os os' ac' a Vo i :
  looked_up D V os os' -> cache_ok ac' -> root os' = Some a ->
  denotes D 32 Vo i -> (forall rho, D rho -> 0 <= Vo rho < size os /\ upd_value rho os (Vo rho) = V rho (Vo rho)) ->
  reads D V os 8 (fun rho => V rho (Vo rho))
    (e ← ReadExpr__create a (head os') i; Ret (e, os', ac')).
Proof.
  intros [Hok Hsz Hv] Hac Er Hi Hin. pose proof Hok as [Hs [U1 U2 U3 U4] Hb]. rewrite Er in U1.
  pose proof U1 as (Hwf & Hd & Hr & Hasz).
  destruct (ReadExpr__create_creates D a (head os') Vo i) as (e & -> & He); auto.
  - rewrite Hd. lia.
  - by rewrite Hd.
  - by apply (array_ok_upd (size os')).
  - intros _ _ rho HD. rewrite Hasz, Hsz. by apply Hin.
  - cbn [mbind outcome_bind]. exists e, os', ac'. split_and!; auto. rewrite Hr in He.
    eapply denotes_ext; [exact He|]. intros rho HD. destruct (Hin rho HD) as [Hrange <-].
    rewrite <- Hv by done. unfold upd_value, base_array. by rewrite Er.
Qed.

Lemma read8_ok D V os ac i :
  object_ok D V os -> cache_ok ac -> 0 <= i < size os ->
  reads D V os 8 (fun rho => V rho i) (read8 os ac i).
Proof.
  intros Hos Hac Hi. pose proof (ob_shape _ _ _ Hos) as Hs. destruct (ob_bytes _ _ _ Hos i Hi) as [B1 B2 B3 B4].
  unfold read8. rewrite isByteConcrete_ok by done. cbn [mbind outcome_bind]. destruct (conc os i) eqn:Ec.
  { destruct (stored_ok os Hs i Hi) as [-> Hr]. cbn [of_option mbind outcome_bind].
    destruct (constant_of_ok D (stored os i) 8) as [-> Hd]; [lia|done|]. cbn [mbind outcome_bind].
    eexists _, _, _. split; [done|]. split_and!; auto. eapply denotes_ext; [exact Hd|].
    intros rho HD. symmetry. by apply B1. }
  rewrite knownSymbolic_ok by done. cbn [mbind outcome_bind]. destruct (symb os i) as [e|] eqn:Ek.
  { eexists _, _, _. split; [done|]. split_and!; auto. by apply B2. }
  rewrite isByteUnflushed_ok by done. cbn [mbind outcome_bind]. destruct (unfl os i) eqn:Eu.
  { exfalso. destruct (B3 eq_refl) as [|[? ?]]; congruence. }
  cbn [negb assertM mbind outcome_bind].
  destruct (getUpdates_ok D V os ac Hos Hac) as (a & os' & ac' & -> & Er & Hac' & Hl). cbn [mbind outcome_bind].
  destruct (constant_of_ok D i 32) as [-> Hd]; [lia|by apply (size_index os)|]. cbn [mbind outcome_bind].
  apply (read_expr_ok D V os os' ac' a (fun _ => i)); auto.
Qed.

(** An offset that is inside the object. *)
Definition offset_in (D : assignment -> Prop) (n : Z) (Vo : assignment -> Z) (offset : Expr) : Prop :=
  denotes D 32 Vo offset /\ isConstant offset = false /\ forall rho, D rho -> 0 <= Vo rho < n.

Lemma ZExtExpr__create_same e w : getWidth e = w -> ZExtExpr__create e w = Ret e.
Proof. intros <-. unfold ZExtExpr__create. by rewrite Z.eqb_refl. Qed.

Lemma read8_at_ok D V os ac Vo offset :
  object_ok D V os -> cache_ok ac -> offset_in D (size os) Vo offset ->
  reads D V os 8 (fun rho => V rho (Vo rho)) (read8_at os ac offset).
Proof.
  intros Hos Hac (Hd & Hc & Hin). unfold read8_at. rewrite Hc. cbn [negb assertM mbind outcome_bind fastRangeCheckOffset].
  destruct (flushRangeForRead_ok D V os Hos) as (os1 & -> & R). cbn [mbind outcome_bind].
  pose proof (rf_size _ _ _ _ _ _ _ R) as Esz. pose proof (rf_ok _ _ _ _ _ _ _ R) as Hos1.
  destruct (getUpdates_ok D V os1 ac Hos1 Hac) as (a & os' & ac' & -> & Er & Hac' & Hl). cbn [mbind outcome_bind].
  rewrite (ZExtExpr__create_same offset 32) by apply Hd. cbn [mbind outcome_bind].
  unfold reads. rewrite <- Esz. apply (read_expr_ok D V os1 os' ac' a Vo); auto.
  intros rho HD. specialize (Hin rho HD). rewrite Esz. split; [done|].
  apply (by_flushed _ _ _ _ (ob_bytes _ _ _ Hos1 (Vo rho) ltac:(lia))); [|done]. apply R. lia.
Qed.

(** The contents with the byte at a symbolic offset changed. *)
Definition put_at (V : assignment -> Z -> Z) (Vo Vv : assignment -> Z) : assignment -> Z -> Z :=
  fun rho j => if Vo rho =? j then Vv rho else V rho j.

Lemma write8_at_ok D V os Vo offset Vv value :
  object_ok D V os -> offset_in D (size os) Vo offset -> denotes D 8 Vv value ->
  exists os', write8_at os offset value = Ret os' /\ size os' = size os /\ object_ok D (put_at V Vo Vv) os'.
Proof.
  intros Hos (Hd & Hc & Hin) Hv. unfold write8_at. rewrite Hc.
  cbn [negb assertM mbind outcome_bind fastRangeCheckOffset].
  destruct (flushRangeForWrite_ok D V os Hos) as (os1 & -> & R). cbn [mbind outcome_bind].
  pose proof (rf_size _ _ _ _ _ _ _ R) as Esz. pose proof (rf_ok _ _ _ _ _ _ _ R) as [Hs1 Hu1 Hb1].
  rewrite (ZExtExpr__create_same offset 32) by apply Hd. cbn [mbind outcome_bind].
  destruct (extend_ok D Vo Vv os1 offset value Hs1 Hu1) as (os' & E & Eos & Hu' & Hval).
  { split; auto. unfold write_in. simpl. by destruct offset. }
  exists os'. split; [done|]. subst os'. split; [done|]. split; auto with memory. simpl. intros j Hj.
  rewrite Esz in Hj. assert (Hunf : unfl os1 j = false) by (apply R; lia).
  destruct (rf_dropped _ _ _ _ _ _ _ R eq_refl j ltac:(lia)) as [Hcj Hkj].
  apply byte_flushed; [| |done|].
  - intros Hx. change (conc os1 j = true) in Hx. congruence.
  - intros e Hx. change (symb os1 j = Some e) in Hx. congruence.
  - intros rho HD. rewrite Hval by done. unfold put_at. destruct (Vo rho =? j); [done|].
    by apply (by_flushed _ _ _ _ (Hb1 j ltac:(lia))).
Qed.

End Access.
