(* ===== verification/MemoryValues.v ===== *)
(** * Memory objects: values of several bytes

    The abstract specification of a memory object: under every assignment it
    is an array of bytes, where a read of [w] bits puts the bytes from an
    offset on together, in the byte order of the target, and a write takes the
    value apart.  Reads and writes of [Memory] at constant and at symbolic
    offsets implement it, what is written is read back, and the bounds checks
    say when an access is inside the object. *)

From S2P Require Import Prelude ExprData ExprCreate ExprSem ExprBool ExprArith ExprBits ExprSpec Memory MemorySpec MemoryBytes.

(** ** Values as bytes *)

Definition byte_of (v k : Z) : Z := slice v (8 * k) 8.

(** The value of [n] bytes, the lowest first. *)
Fixpoint bytes_value (f : Z -> Z) (n : nat) : Z :=
  match n with
  | O => 0
  | S m => f (Z.of_nat m) * 2 ^ (8 * Z.of_nat m) + bytes_value f m
  end.

Lemma bytes_value_ext f g n :
  (forall i, 0 <= i < Z.of_nat n -> f i = g i) -> bytes_value f n = bytes_value g n.
Proof.
  induction n as [|n IH]; intros Hfg; [done|]. cbn [bytes_value]. rewrite Hfg, IH; [done| |lia].
  intros i Hi. apply Hfg. lia.
Qed.

Lemma bytes_value_range f n :
  (forall i, 0 <= i < Z.of_nat n -> 0 <= f i < 256) -> 0 <= bytes_value f n < 2 ^ (8 * Z.of_nat n).
Proof.
  induction n as [|n IH]; intros Hf; [done|]. cbn [bytes_value].
  assert (Hr : 0 <= bytes_value f n < 2 ^ (8 * Z.of_nat n)) by (apply IH; intros; apply Hf; lia).
  specialize (Hf (Z.of_nat n) ltac:(lia)).
  replace (8 * Z.of_nat (S n)) with (8 + 8 * Z.of_nat n) by lia. rewrite Z.pow_add_r by lia.
  change (2 ^ 8) with 256. nia.
Qed.

(** Taking a value apart and putting it together. *)
Lemma bytes_value_of v n : bytes_value (byte_of v) n = slice v 0 (8 * Z.of_nat n).
Proof.
  induction n as [|n IH]; cbn [bytes_value].
  - unfold slice. simpl. by rewrite Z.mod_1_r.
  - rewrite IH. unfold byte_of. replace (8 * Z.of_nat (S n)) with (8 + 8 * Z.of_nat n) by lia.
    rewrite <- (slice_merge v 0 (8 * Z.of_nat n) 8) by lia. by rewrite Z.add_0_l.
Qed.

Lemma byte_of_range v k : 0 <= byte_of v k < 256.
Proof. unfold byte_of, slice. change (2 ^ 8) with 256. apply Z.mod_pos_bound. lia. Qed.

Lemma byte_of_shift v k : 0 <= k -> u8 (Z.shiftr v (8 * k)) = byte_of v k.
Proof. intros Hk. unfold u8, wrapU, byte_of, slice. by rewrite Z.shiftr_div_pow2 by lia. Qed.

(** ** The specification of a memory object *)

Section Spec.
Context `{TargetContext}.

(** The widths of memory accesses: a boolean has a byte. *)
Definition access_width (w : Z) : Prop := w = 1 \/ exists n, 0 < n /\ w = 8 * n /\ w < 2 ^ 32.

Definition access_bytes (w : Z) : Z := (w + 7) / 8.

Definition load (V : Z -> Z) (w offset : Z) : Z :=
  let n := access_bytes w in
  bytes_value (fun i => V (offset + byte_index n i)) (Z.to_nat n) mod 2 ^ w.

Definition store_bytes (total n : Z) (V : Z -> Z) (offset v : Z) : Z -> Z := fun j =>
  let k := byte_index total (j - offset) in
  if (0 <=? k) && (k <? n) then byte_of v k else V j.

Definition store (V : Z -> Z) (w offset v : Z) : Z -> Z :=
  store_bytes (access_bytes w) (access_bytes w) V offset v.

Lemma byte_index_inv n i : byte_index n (byte_index n i) = i.
Proof. unfold byte_index. destruct isLittleEndian; lia. Qed.

Lemma byte_index_range n i : 0 <= i < n <-> 0 <= byte_index n i < n.
Proof. unfold byte_index. destruct isLittleEndian; lia. Qed.

Lemma access_bytes_of n : access_bytes (8 * n) = n.
Proof.
  unfold access_bytes. replace (8 * n + 7) with (7 + n * 8) by lia. by rewrite Z.div_add by lia.
Qed.

Lemma access_bytes_pos w : access_width w -> 0 < access_bytes w /\ w <= 8 * access_bytes w.
Proof. intros [->|(n & Hn & -> & _)]; [by cbv|]. rewrite access_bytes_of. lia. Qed.

(** What is written is read back. *)
Lemma load_store V w o v :
  access_width w -> 0 <= v < 2 ^ w -> load (store V w o v) w o = v.
Proof.
  intros Hw Hv. pose proof (access_bytes_pos w Hw) as [Hp Hle]. unfold load, store.
  set (n := access_bytes w) in *.
  rewrite (bytes_value_ext _ (byte_of v)).
  - rewrite bytes_value_of, Z2Nat.id by lia. rewrite slice_full by (pose proof (Z.pow_le_mono_r 2 w (8 * n)); lia).
    by apply Z.mod_small.
  - intros i Hi. rewrite Z2Nat.id in Hi by lia. unfold store_bytes.
    replace (o + byte_index n i - o) with (byte_index n i) by lia. rewrite byte_index_inv.
    by rewrite (proj2 (Z.leb_le _ _)), (proj2 (Z.ltb_lt _ _)) by lia.
Qed.

(** A write leaves the bytes outside its range. *)
Lemma store_other V w o v j :
  ~ (o <= j < o + access_bytes w) -> store V w o v j = V j.
Proof.
  intros Hj. unfold store, store_bytes. set (n := access_bytes w) in *.
  destruct ((0 <=? _) && _) eqn:E; [|done]. exfalso. apply andb_true_iff in E as [E1 E2].
  apply Z.leb_le in E1. apply Z.ltb_lt in E2.
  pose proof (proj2 (byte_index_range n (j - o)) (conj E1 E2)). lia.
Qed.

(** Reads and writes of ranges that do not meet do not see each other. *)
Lemma load_store_other V w o v w' o' :
  access_width w' -> o + access_bytes w <= o' \/ o' + access_bytes w' <= o ->
  load (store V w o v) w' o' = load V w' o'.
Proof.
  intros Hw Hdis. pose proof (access_bytes_pos w' Hw) as [Hp _]. unfold load. f_equal.
  apply bytes_value_ext. intros i Hi. rewrite Z2Nat.id in Hi by lia. apply store_other.
  pose proof (proj1 (byte_index_range _ _) Hi). lia.
Qed.

End Spec.

(** ** Implementation *)

Section Values.
Context `{ExprOptions} `{DivByZero} `{TargetContext}.

Lemma object_ok_ext D V V' os :
  (forall rho j, D rho -> 0 <= j < size os -> V' rho j = V rho j) -> object_ok D V os -> object_ok D V' os.
Proof.
  intros HV [Hs Hu Hb]. split; auto. intros i Hi. apply (byte_ok_ext D V V' os); auto.
Qed.

(** The loop that reads the bytes. *)
Lemma read_bytes_ok D V sz total (f : assignment -> Z -> Z) read_byte :
  (forall os ac idx, object_ok D V os -> size os = sz -> cache_ok ac -> 0 <= idx < total ->
     reads D V os 8 (fun rho => f rho idx) (read_byte os ac idx)) ->
  8 * total < 2 ^ 32 ->
  forall n os ac i res, object_ok D V os -> size os = sz -> cache_ok ac -> 0 < total ->
    Z.of_nat i + Z.of_nat n = total ->
    match res with
    | None => i = O
    | Some r => (0 < i)%nat /\
        denotes D (8 * Z.of_nat i) (fun rho => bytes_value (fun k => f rho (byte_index total k)) i) r
    end ->
    reads D V os (8 * total) (fun rho => bytes_value (fun k => f rho (byte_index total k)) (Z.to_nat total))
      (read_bytes read_byte os ac total (Z.of_nat i) n res).
Proof.
  intros Hread Hw n. induction n as [|n IH]; intros os ac i res Hos Esz Hac Hpos Htot Hres; cbn [read_bytes].
  { destruct res as [r|]; [|lia]. destruct Hres as [_ Hr]. replace total with (Z.of_nat i) in * by lia.
    rewrite Nat2Z.id. by exists r, os, ac. }
  destruct (Hread os ac (byte_index total (Z.of_nat i)) Hos Esz Hac) as (byte & os' & ac' & E & Hb & Hos' & Esz' & Hac');
    [apply (proj1 (byte_index_range _ _)); lia|].
  rewrite E. cbn [mbind outcome_bind].
  assert (Hnext : exists r, (match res with None => Ret byte | Some r => ConcatExpr__create byte r end) = Ret r /\
    denotes D (8 * Z.of_nat (S i)) (fun rho => bytes_value (fun k => f rho (byte_index total k)) (S i)) r).
  { destruct res as [r|].
    - destruct Hres as [_ Hr].
      destruct (ConcatExpr__create_creates D _ _ _ _ _ _ Hb Hr) as (x & -> & Hx); [lia|].
      exists x. split; [done|]. by replace (8 * Z.of_nat (S i)) with (8 + 8 * Z.of_nat i) by lia.
    - subst i. exists byte. split; [done|]. eapply denotes_ext; [exact Hb|]. intros rho HD. simpl. lia. }
  destruct Hnext as (r & -> & Hr). cbn [mbind outcome_bind].
  replace (Z.of_nat i + 1) with (Z.of_nat (S i)) by lia.
  destruct (IH os' ac' (S i) (Some r)) as (e & os2 & ac2 & -> & He & Hos2 & Esz2 & Hac2); auto; [lia|lia|split; [lia|done]|].
  exists e, os2, ac2. split_and!; auto. lia.
Qed.

(** The loop that writes the bytes, from the [i]-th on. *)
Lemma write_bytes_ok D sz total (Vo Vv : assignment -> Z) write_byte :
  (forall V os i, object_ok D V os -> size os = sz -> 0 <= i < total ->
     exists os', write_byte os (byte_index total i) i = Ret os' /\ size os' = sz /\
       object_ok D (put_at V (fun rho => Vo rho + byte_index total i) (fun rho => byte_of (Vv rho) i)) os') ->
  forall V n os i, 0 <= i -> i + Z.of_nat n = total -> size os = sz ->
    object_ok D (fun rho => store_bytes total i (V rho) (Vo rho) (Vv rho)) os ->
    exists os', write_bytes write_byte os total i n = Ret os' /\ size os' = sz /\
      object_ok D (fun rho => store_bytes total total (V rho) (Vo rho) (Vv rho)) os'.
Proof.
  intros Hwrite V n. induction n as [|n IH]; intros os i Hi Htot Esz Hos; cbn [write_bytes].
  { exists os. split_and!; auto. by replace i with total in Hos by lia. }
  destruct (Hwrite _ os i Hos Esz) as (os1 & -> & Esz1 & Hos1); [lia|]. cbn [mbind outcome_bind].
  apply IH; auto; try lia. eapply object_ok_ext; [|exact Hos1]. intros rho j HD Hj.
  unfold put_at, store_bytes. set (k := byte_index total (j - Vo rho)).
  destruct (Z.eqb_spec (Vo rho + byte_index total i) j) as [Ej|Hne].
  - assert (Ek : k = i) by (unfold k; rewrite <- Ej; replace (_ + _ - _) with (byte_index total i) by lia;
      apply byte_index_inv).
    rewrite Ek, (proj2 (Z.leb_le _ _)), (proj2 (Z.ltb_lt _ _)) by lia. done.
  - assert (Ek : k <> i) by (intros <-; apply Hne; unfold k; rewrite byte_index_inv; lia).
    replace (k <? i + 1) with (k <? i); [done|]. apply eq_bool_prop_intro. rewrite !Is_true_true, !Z.ltb_lt. lia.
Qed.

Lemma store_bytes_none total V o v j : store_bytes total 0 V o v j = V j.
Proof.
  unfold store_bytes. destruct ((0 <=? _) && _) eqn:E; [|done]. apply andb_true_iff in E as [E1 E2].
  apply Z.leb_le in E1. apply Z.ltb_lt in E2. lia.
Qed.

(** From the first byte on. *)
Lemma write_all_ok D V os total (Vo Vv : assignment -> Z) write_byte :
  (forall V os1 i, object_ok D V os1 -> size os1 = size os -> 0 <= i < total ->
     exists os', write_byte os1 (byte_index total i) i = Ret os' /\ size os' = size os /\
       object_ok D (put_at V (fun rho => Vo rho + byte_index total i) (fun rho => byte_of (Vv rho) i)) os') ->
  0 <= total -> object_ok D V os ->
  exists os', write_bytes write_byte os total 0 (Z.to_nat total) = Ret os' /\ size os' = size os /\
    object_ok D (fun rho => store_bytes total total (V rho) (Vo rho) (Vv rho)) os'.
Proof.
  intros Hwrite Ht Hos. apply (write_bytes_ok D (size os) total Vo Vv write_byte Hwrite V); [lia|lia|done|].
  eapply object_ok_ext; [|exact Hos]. intros rho j _ _. apply store_bytes_none.
Qed.

(** ** At a constant offset *)

(** An access of [w] bits at [offset] is inside an object of [n] bytes. *)
Definition access_in (n w offset : Z) : Prop := 0 <= offset /\ offset + access_bytes w <= n.

Lemma u32_offset os o w i :
  shape os -> access_in (size os) w o -> 0 <= i < access_bytes w ->
  u32 (o + byte_index (access_bytes w) i) = o + byte_index (access_bytes w) i /\
  0 <= o + byte_index (access_bytes w) i < size os.
Proof.
  intros Hs [Ho Hin] Hi. pose proof (sh_size os Hs). apply (proj1 (byte_index_range _ _)) in Hi.
  unfold u32. rewrite wrapU_small by lia. lia.
Qed.

Lemma put_byte_at D V os i (Vv : assignment -> Z) :
  object_ok D (put_byte V i Vv) os -> object_ok D (put_at V (fun _ => i) Vv) os.
Proof. apply object_ok_ext. intros rho j _ _. unfold put_at, put_byte. by rewrite Z.eqb_sym. Qed.

(** A value of one byte, or a boolean, which has a byte too. *)
Lemma store_byte V w o v j :
  access_bytes w = 1 -> 0 <= v < 256 -> store V w o v j = if o =? j then v else V j.
Proof.
  intros Hw Hv. unfold store, store_bytes. rewrite Hw.
  replace (byte_index 1 (j - o)) with (if isLittleEndian then j - o else o - j)
    by (unfold byte_index; destruct isLittleEndian; lia).
  assert (E : byte_of v 0 = v) by (unfold byte_of; by apply slice_full).
  destruct (Z.eqb_spec o j) as [<-|Hne].
  - rewrite !Z.sub_diag. destruct isLittleEndian; by rewrite E.
  - destruct isLittleEndian; (destruct ((0 <=? _) && _) eqn:Eb; [|done]);
      apply andb_true_iff in Eb as [E1 E2]; apply Z.leb_le in E1; apply Z.ltb_lt in E2; lia.
Qed.

(** The result of a write: the object has the bytes that [store] gives. *)
Definition writes (D : assignment -> Prop) (V : assignment -> Z -> Z) (os : ObjectState) (w : Z)
    (Vo Vv : assignment -> Z) (r : outcome ObjectState) : Prop :=
  exists os', r = Ret os' /\ size os' = size os /\ object_ok D (fun rho => store (V rho) w (Vo rho) (Vv rho)) os'.

Lemma write_int_ok D V os o n v :
  object_ok D V os -> 0 < n -> access_in (size os) (8 * n) o -> 
  writes D V os (8 * n) (fun _ => o) (fun _ => v) (write_int n os o v).
Proof.
  intros Hos Hn Hin. unfold writes, store. rewrite access_bytes_of.
  apply (write_all_ok D V os n (fun _ => o) (fun _ => v)); auto; [|lia]. intros V1 os1 i Hos1 Esz Hi.
  rewrite <- Esz in Hin. pose proof (u32_offset os1 o (8 * n) i (ob_shape _ _ _ Hos1) Hin) as Hu.
  rewrite access_bytes_of in Hu. destruct (Hu Hi) as [-> Hr]. rewrite byte_of_shift by lia.
  destruct (write8_ok D V1 os1 (o + byte_index n i) (byte_of v i) Hos1 Hr (byte_of_range _ _)) as (os' & E & Es & Hok).
  exists os'. split_and!; auto; [congruence|]. by apply put_byte_at.
Qed.

Lemma width_bytes n : 0 < n ->
  (8 * n =? 1) = false /\ 8 * n / 8 = n /\ (8 * n =? n * 8) = true.
Proof.
  intros Hn. split_and!; [by apply Z.eqb_neq; lia|rewrite Z.mul_comm; by apply Z.div_mul|apply Z.eqb_eq; lia].
Qed.

Lemma ZExt8_bool D Vv value :
  denotes D 1 Vv value -> creates D 8 Vv (ZExtExpr__create value 8).
Proof.
  intros Hv. destruct (cast_create_creates D 1 Vv value 8 false Hv) as (e & E & He); [lia|].
  exists e. split; [done|]. by eapply denotes_ext.
Qed.

Lemma write_slow_ok D V os o w Vv value :
  object_ok D V os -> access_width w -> access_in (size os) w o -> denotes D w Vv value ->
  writes D V os w (fun _ => o) Vv (write_slow os o value).
Proof.
  intros Hos Hw Hin Hv. unfold write_slow. rewrite (den_width _ _ _ _ Hv). destruct Hw as [->|(n & Hn & -> & Hlt)].
  - cbn [Z.eqb Pos.eqb]. destruct (ZExt8_bool D Vv value Hv) as (e & -> & He). cbn [mbind outcome_bind].
    destruct Hin as [Ho Hin]. change (access_bytes 1) with 1 in Hin.
    destruct (write8_expr_ok D V os o e Vv Hos) as (os' & E & Es & Hok); [lia|done|].
    exists os'. split_and!; auto. eapply object_ok_ext; [|by apply put_byte_at].
    intros rho j HD _. apply store_byte; [done|]. pose proof (denotes_range D 1 _ value rho Hv HD). lia.
  - destruct (width_bytes n Hn) as (-> & -> & ->). cbn [assertM mbind outcome_bind].
    unfold writes, store. rewrite access_bytes_of.
    apply (write_all_ok D V os n (fun _ => o) Vv); auto; [|lia]. intros V1 os1 i Hos1 Esz Hi.
    rewrite <- Esz in Hin. pose proof (u32_offset os1 o (8 * n) i (ob_shape _ _ _ Hos1) Hin) as Hu.
    rewrite access_bytes_of in Hu. destruct (Hu Hi) as [-> Hr].
    destruct (ExtractExpr__create_creates D _ _ _ (8 * i) 8 Hv) as (b & -> & Hb); [lia..|]. cbn [mbind outcome_bind].
    destruct (write8_expr_ok D V1 os1 _ b _ Hos1 Hr Hb) as (os' & E & Es & Hok).
    exists os'. split_and!; auto; [congruence|]. by apply put_byte_at.
Qed.

Lemma fast_widths w : access_width w -> (w <=? 64) && isPowerOfTwo w = true ->
  w = 1 \/ w = 8 \/ w = 16 \/ w = 32 \/ w = 64.
Proof.
  intros [->|(n & Hn & -> & _)]; [by left|]. rewrite andb_true_iff, Z.leb_le. intros [Hle Hp].
  assert (Hc : n = 1 \/ n = 2 \/ n = 3 \/ n = 4 \/ n = 5 \/ n = 6 \/ n = 7 \/ n = 8) by lia.
  destruct Hc as [->|[->|[->|[->|[->|[->|[->| ->]]]]]]]; try discriminate Hp; lia.
Qed.

Lemma writes_ext D V os w Vo Vv Vv' r :
  (forall rho, D rho -> Vv' rho = Vv rho) -> writes D V os w Vo Vv r -> writes D V os w Vo Vv' r.
Proof.
  intros HV (os' & -> & Es & Hok). exists os'. split_and!; auto. eapply object_ok_ext; [|exact Hok].
  intros rho j HD _. by rewrite HV.
Qed.

Lemma write_ok D V os o w Vv value :
  object_ok D V os -> access_width w -> access_in (size os) w o -> denotes D w Vv value ->
  writes D V os w (fun _ => o) Vv (write os o value).
Proof.
  intros Hos Hw Hin Hv. pose proof (write_slow_ok D V os o w Vv value Hos Hw Hin Hv) as Hslow.
  destruct value as [CE| | | | | | | | |]; try exact Hslow. unfold write.
  destruct (denotes_Const_inv _ _ _ _ Hv) as ([_ Hr] & Ew & Hval). rewrite Ew in Hr |- *.
  destruct ((w <=? 64) && isPowerOfTwo w) eqn:Ef; [|exact Hslow]. clear Hslow.
  assert (Hle : w <= 64) by (apply andb_true_iff in Ef as [Ef _]; by apply Z.leb_le).
  unfold getZExtValue. rewrite Ew, (proj2 (Z.leb_le _ _) Hle). cbn [assertM mbind outcome_bind].
  apply (writes_ext D V os w _ (fun _ => cvalue CE)); [done|]. clear Hval.
  assert (Hbyte : w = 1 \/ w = 8 -> writes D V os w (fun _ => o) (fun _ => cvalue CE) (write8 os o (u8 (cvalue CE)))).
  { intros Hw'. destruct Hin as [Ho Hin].
    assert (Hn : access_bytes w = 1) by (by destruct Hw' as [-> | ->]). rewrite Hn in Hin.
    assert (Hr8 : 0 <= cvalue CE < 256) by (destruct Hw' as [-> | ->]; simpl in Hr; lia).
    unfold u8. rewrite wrapU_small by done.
    destruct (write8_ok D V os o (cvalue CE) Hos ltac:(lia) Hr8) as (os' & -> & Es & Hok).
    exists os'. split_and!; auto. apply put_byte_at in Hok. eapply object_ok_ext; [|exact Hok].
    intros rho j _ _. by apply store_byte. }
  destruct (fast_widths w Hw Ef) as [E|[E|[E|[E|E]]]]; rewrite E in *; cbn [Z.eqb Pos.eqb orb]; auto.
  - apply (write_int_ok D V os o 2); auto. lia.
  - apply (write_int_ok D V os o 4); auto. lia.
  - apply (write_int_ok D V os o 8); auto. lia.
Qed.

(** A byte of which the lowest bit is taken. *)
Lemma reads_bool D V os Vo r :
  reads D V os 8 (fun rho => V rho (Vo rho)) r ->
  reads D V os 1 (fun rho => load (V rho) 1 (Vo rho))
    (b ← r; let '(byte, os', ac') := b in e ← ExtractExpr__create byte 0 1; Ret (e, os', ac')).
Proof.
  intros (b & os' & ac' & -> & Hb & Hok). cbn [mbind outcome_bind].
  destruct (ExtractExpr__create_creates D 8 _ b 0 1 Hb) as (e & -> & He); [lia..|]. cbn [mbind outcome_bind].
  exists e, os', ac'. split; [done|]. split; [|done]. eapply denotes_ext; [exact He|]. intros rho HD.
  unfold load, slice. change (access_bytes 1) with 1. change (Z.to_nat 1) with 1%nat. cbn [bytes_value].
  replace (byte_index 1 (Z.of_nat 0)) with 0 by (unfold byte_index; by destruct isLittleEndian).
  change (2 ^ (8 * Z.of_nat 0)) with 1. change (2 ^ 0) with 1. by rewrite Z.div_1_r, Z.mul_1_r, !Z.add_0_r.
Qed.

(** Several bytes, from the first one on. *)
Lemma read_all_ok D V os ac n Vo read_byte :
  (forall os1 ac idx, object_ok D V os1 -> size os1 = size os -> cache_ok ac -> 0 <= idx < n ->
     reads D V os1 8 (fun rho => V rho (Vo rho + idx)) (read_byte os1 ac idx)) ->
  (forall rho, D rho -> 0 <= Vo rho /\ Vo rho + n <= size os) ->
  8 * n < 2 ^ 32 -> 0 < n -> object_ok D V os -> cache_ok ac ->
  reads D V os (8 * n) (fun rho => load (V rho) (8 * n) (Vo rho)) (read_bytes read_byte os ac n 0 (Z.to_nat n) None).
Proof.
  intros Hread Hin Hlt Hn Hos Hac.
  destruct (read_bytes_ok D V (size os) n (fun rho idx => V rho (Vo rho + idx)) read_byte Hread Hlt
    (Z.to_nat n) os ac O None) as (e & os' & ac' & E & He & Hok); auto; [lia|].
  exists e, os', ac'. split; [done|]. split; [|done]. eapply denotes_ext; [exact He|]. intros rho HD.
  unfold load. rewrite access_bytes_of. symmetry. apply Z.mod_small.
  replace (8 * n) with (8 * Z.of_nat (Z.to_nat n)) by lia. apply bytes_value_range. intros i Hi.
  rewrite Z2Nat.id in Hi by lia. apply (proj1 (byte_index_range _ _)) in Hi. specialize (Hin rho HD).
  apply (object_range D V os rho); auto. lia.
Qed.

Lemma read_ok D V os ac o w :
  object_ok D V os -> cache_ok ac -> access_width w -> access_in (size os) w o ->
  reads D V os w (fun rho => load (V rho) w o) (read os ac o w).
Proof.
  intros Hos Hac Hw Hin. unfold read. destruct Hw as [->|(n & Hn & -> & Hlt)].
  - apply (reads_bool D V os (fun _ => o)). apply read8_ok; auto. destruct Hin as [Ho Hin].
    change (access_bytes 1) with 1 in Hin. lia.
  - destruct (width_bytes n Hn) as (-> & -> & ->). cbn [assertM mbind outcome_bind].
    apply (read_all_ok D V os ac n (fun _ => o)); auto.
    + intros os1 ac1 idx Hos1 Esz Hac1 Hidx. pose proof (u32_offset os1 o (8 * n) (byte_index n idx) (ob_shape _ _ _ Hos1)) as Hu.
      rewrite access_bytes_of, byte_index_inv in Hu. rewrite Esz in Hu.
      destruct (Hu Hin (proj1 (byte_index_range _ _) Hidx)) as [-> Hr]. apply read8_ok; auto. by rewrite Esz.
    + intros rho _. destruct Hin as [Ho Hin]. by rewrite access_bytes_of in Hin.
Qed.

(** ** At an offset that is an expression *)

(** The expression has two values, so that it is no constant in disguise. *)
Definition two_values (w : Z) (e : Expr) : Prop :=
  exists D' V' rho1 rho2, denotes D' w V' e /\ D' rho1 /\ D' rho2 /\ V' rho1 <> V' rho2.

Lemma two_values_symbolic w e : two_values w e -> isConstant e = false.
Proof.
  intros (D' & V' & rho1 & rho2 & Hd & R1 & R2 & Hne). destruct e; try done. exfalso.
  destruct (denotes_Const_inv _ _ _ _ Hd) as (_ & _ & Hv). apply Hne. by rewrite !Hv.
Qed.

(** An offset from the engine: it is inside the object, and either it is a
    constant once it is truncated, or it varies. *)
Record offset_ok (D : assignment -> Prop) (n w : Z) (Vo : assignment -> Z) (offset : Expr) : Prop := {
  of_denotes : denotes D (getWidth offset) Vo offset;
  of_sat : exists rho, D rho;
  of_in : forall rho, D rho -> access_in n w (Vo rho mod 2 ^ 32);
  of_form : (exists c, ZExtExpr__create offset 32 = Ret (Constant c)) \/
            exists rho1 rho2, inb rho1 offset /\ inb rho2 offset /\
              eval rho1 offset mod 2 ^ 32 <> eval rho2 offset mod 2 ^ 32
}.

Lemma truncate_creates D kw V e :
  denotes D kw V e -> creates D 32 (fun rho => V rho mod 2 ^ 32) (ZExtExpr__create e 32).
Proof.
  intros He. destruct (cast_create_creates D kw V e 32 false He) as (x & E & Hx); [lia|].
  exists x. split; [done|]. eapply denotes_ext; [exact Hx|]. intros rho HD. unfold cast_value.
  destruct (Z.leb_spec 32 kw); [done|]. symmetry. apply Z.mod_small.
  pose proof (denotes_range D kw V e rho He HD). pose proof (Z.pow_le_mono_r 2 kw 32). lia.
Qed.

(** The truncated offset. *)
Lemma truncated_offset D n w Vo offset :
  offset_ok D n w Vo offset ->
  exists e, ZExtExpr__create offset 32 = Ret e /\ denotes D 32 (fun rho => Vo rho mod 2 ^ 32) e /\
    ((exists c, e = Constant c) \/ two_values 32 e).
Proof.
  intros [Hd _ _ Hf]. destruct (truncate_creates D _ Vo offset Hd) as (e & E & He).
  exists e. split_and!; auto. destruct Hf as [[c Ec]|(rho1 & rho2 & I1 & I2 & Hne)].
  - left. exists c. congruence.
  - right. set (D' := fun rho => inb rho offset).
    assert (Hs : denotes D' (getWidth offset) (fun rho => eval rho offset) offset)
      by (apply denotes_self; [apply Hd|done]).
    destruct (truncate_creates D' _ _ offset Hs) as (e' & E' & He'). rewrite E in E'. injection E' as <-.
    by exists D', (fun rho => eval rho offset mod 2 ^ 32), rho1, rho2.
Qed.

Lemma add_mod_injective a b i :
  0 <= a < 2 ^ 32 -> 0 <= b < 2 ^ 32 -> (a + i) mod 2 ^ 32 = (b + i) mod 2 ^ 32 -> a = b.
Proof.
  change (2 ^ 32) with 4294967296. intros Ha Hb E.
  pose proof (Z.div_mod (a + i) 4294967296 ltac:(lia)). pose proof (Z.div_mod (b + i) 4294967296 ltac:(lia)). lia.
Qed.

Lemma add_index_ok D Vo e idx :
  denotes D 32 Vo e -> two_values 32 e -> 0 <= idx < 2 ^ 32 ->
  exists o, add_index e idx = Ret o /\ denotes D 32 (fun rho => (Vo rho + idx) mod 2 ^ 32) o /\
    isConstant o = false.
Proof.
  intros Hd (D' & V' & rho1 & rho2 & Hd' & R1 & R2 & Hne) Hi. unfold add_index.
  destruct (constant_of_ok D idx 32) as [-> Hc]; [lia|done|]. cbn [mbind outcome_bind].
  destruct (constant_of_ok D' idx 32) as [_ Hc']; [lia|done|].
  destruct (proj1 (AddSubExpr__create_creates D 32 _ _ _ _ Hd Hc)) as (o & E & Ho).
  destruct (proj1 (AddSubExpr__create_creates D' 32 _ _ _ _ Hd' Hc')) as (o' & E' & Ho').
  rewrite E in E'. injection E' as <-. exists o. split_and!; auto.
  apply (two_values_symbolic 32). eexists D', _, rho1, rho2. split_and!; [exact Ho'|done|done|].
  unfold VAdd. intros Eq. apply Hne.
  eapply add_mod_injective; [by eapply denotes_range|by eapply denotes_range|exact Eq].
Qed.

(** The offset of a byte of the access. *)
Lemma byte_offset_in D os w Vo e i :
  shape os -> denotes D 32 Vo e -> two_values 32 e -> 0 <= i < access_bytes w ->
  (forall rho, D rho -> access_in (size os) w (Vo rho)) -> (exists rho, D rho) ->
  exists o, add_index e i = Ret o /\ offset_in D (size os) (fun rho => Vo rho + i) o.
Proof.
  intros Hs Hd Ht Hi Hin [rho0 HD0]. pose proof (sh_size os Hs) as Hsz.
  pose proof (Hin rho0 HD0) as [? ?].
  destruct (add_index_ok D Vo e i Hd Ht) as (o & E & Ho & Hc); [lia|].
  exists o. split; [done|]. split_and!; auto.
  - eapply denotes_ext; [exact Ho|]. intros rho HD. destruct (Hin rho HD). apply Z.mod_small. lia.
  - intros rho HD. destruct (Hin rho HD). lia.
Qed.

(** A symbolic offset, after the truncation. *)
Definition symbolic_offset (D : assignment -> Prop) (n w : Z) (Vo : assignment -> Z) (e : Expr) : Prop :=
  denotes D 32 Vo e /\ two_values 32 e /\ (forall rho, D rho -> access_in n w (Vo rho)) /\ exists rho, D rho.

Lemma symbolic_byte D n Vo e : symbolic_offset D n 1 Vo e -> offset_in D n Vo e.
Proof.
  intros (Hd & Ht & Hin & _). split_and!; [done|by apply (two_values_symbolic 32)|]. intros rho HD.
  destruct (Hin rho HD) as [? Hle]. change (access_bytes 1) with 1 in Hle. lia.
Qed.

Lemma read_symbolic_ok D V os ac e w Vo :
  object_ok D V os -> cache_ok ac -> access_width w -> symbolic_offset D (size os) w Vo e ->
  reads D V os w (fun rho => load (V rho) w (Vo rho))
    (if w =? 1 then
       b ← read8_at os ac e;
       let '(byte, os', ac') := b in x ← ExtractExpr__create byte 0 1; Ret (x, os', ac')
     else
       let numBytes := w / 8 in
       _ ← assertM (w =? numBytes * 8);
       read_bytes (fun os ac idx => o ← add_index e idx; read8_at os ac o) os ac numBytes 0
         (Z.to_nat numBytes) None).
Proof.
  intros Hos Hac Hw Hoff. cbv zeta. destruct Hw as [->|(n & Hn & -> & Hlt)].
  { apply (reads_bool D V os Vo), read8_at_ok; auto. by apply symbolic_byte. }
  destruct Hoff as (Hd & Ht & Hin & Hsat). destruct (width_bytes n Hn) as (-> & -> & ->). cbn [assertM mbind outcome_bind].
  apply (read_all_ok D V os ac n Vo); auto.
  - intros os1 ac1 idx Hos1 Esz Hac1 Hidx.
    destruct (byte_offset_in D os1 (8 * n) Vo e idx) as (o & -> & Ho); auto;
      [apply Hos1|by rewrite access_bytes_of|by rewrite Esz|].
    by apply read8_at_ok.
  - intros rho HD. pose proof (Hin rho HD) as [? Hle]. by rewrite access_bytes_of in Hle.
Qed.

Lemma write_symbolic_ok D V os e w Vo Vv value :
  object_ok D V os -> access_width w -> symbolic_offset D (size os) w Vo e -> denotes D w Vv value ->
  writes D V os w Vo Vv
    (let w := getWidth value in
     if w =? 1 then v ← ZExtExpr__create value 8; write8_at os e v
     else
       let numBytes := w / 8 in
       _ ← assertM (w =? numBytes * 8);
       write_bytes (fun os idx i => o ← add_index e idx; b ← ExtractExpr__create value (8 * i) 8; write8_at os o b)
         os numBytes 0 (Z.to_nat numBytes)).
Proof.
  intros Hos Hw Hoff Hv. rewrite (den_width _ _ _ _ Hv). cbv zeta. destruct Hw as [->|(n & Hn & -> & Hlt)].
  - cbn [Z.eqb Pos.eqb]. destruct (ZExt8_bool D Vv value Hv) as (b & -> & Hb). cbn [mbind outcome_bind].
    destruct (write8_at_ok D V os Vo e Vv b Hos (symbolic_byte _ _ _ _ Hoff) Hb) as (os' & -> & Es & Hok).
    exists os'. split_and!; auto. eapply object_ok_ext; [|exact Hok]. intros rho j HD _. unfold put_at.
    apply store_byte; [done|]. pose proof (denotes_range D 1 _ value rho Hv HD). lia.
  - destruct Hoff as (Hd & Ht & Hin & Hsat). destruct (width_bytes n Hn) as (-> & -> & ->). cbn [assertM mbind outcome_bind].
    unfold writes, store. rewrite access_bytes_of.
    apply (write_all_ok D V os n Vo Vv); auto; [|lia]. intros V1 os1 i Hos1 Esz Hi.
    destruct (byte_offset_in D os1 (8 * n) Vo e (byte_index n i)) as (o & -> & Ho); auto;
      [apply Hos1|rewrite access_bytes_of; by apply (proj1 (byte_index_range _ _))|by rewrite Esz|].
    cbn [mbind outcome_bind].
    destruct (ExtractExpr__create_creates D _ _ _ (8 * i) 8 Hv) as (b & -> & Hb); [lia..|]. cbn [mbind outcome_bind].
    destruct (write8_at_ok D V1 os1 _ o _ b Hos1 Ho Hb) as (os' & -> & Es & Hok).
    exists os'. split_and!; auto. congruence.
Qed.

Lemma read_at_offset_ok D V os ac offset w Vo :
  object_ok D V os -> cache_ok ac -> access_width w -> offset_ok D (size os) w Vo offset ->
  reads D V os w (fun rho => load (V rho) w (Vo rho mod 2 ^ 32)) (read_at_offset os ac offset w).
Proof.
  intros Hos Hac Hw Hoff. pose proof (of_in _ _ _ _ _ Hoff) as Hin. pose proof (of_sat _ _ _ _ _ Hoff) as Hsat.
  destruct (truncated_offset _ _ _ _ _ Hoff) as (e & E & He & Hform). unfold read_at_offset. rewrite E.
  cbn [mbind outcome_bind]. destruct Hform as [[c ->]|Ht].
  - destruct (denotes_Const_inv _ _ _ _ He) as ([_ Hr] & Ew & Hval). rewrite Ew in Hr. unfold getZExtValue.
    rewrite Ew. cbn [Z.leb Z.compare Pos.compare Pos.compare_cont assertM mbind outcome_bind].
    unfold u32. rewrite wrapU_small by done. destruct Hsat as [rho0 HD0].
    destruct (read_ok D V os ac (cvalue c) w Hos Hac Hw) as (x & os' & ac' & -> & Hx & Hok);
      [rewrite <- (Hval rho0 HD0); auto|].
    exists x, os', ac'. split; [done|]. split; [|done]. eapply denotes_ext; [exact Hx|].
    intros rho HD. simpl. by rewrite Hval.
  - pose proof (read_symbolic_ok D V os ac e w _ Hos Hac Hw (conj He (conj Ht (conj Hin Hsat)))) as Hsym.
    pose proof (two_values_symbolic 32 e Ht) as Hc. destruct e; try exact Hsym. done.
Qed.

Lemma write_at_offset_ok D V os offset w Vo Vv value :
  object_ok D V os -> access_width w -> offset_ok D (size os) w Vo offset -> denotes D w Vv value ->
  writes D V os w (fun rho => Vo rho mod 2 ^ 32) Vv (write_at_offset os offset value).
Proof.
  intros Hos Hw Hoff Hv. pose proof (of_in _ _ _ _ _ Hoff) as Hin. pose proof (of_sat _ _ _ _ _ Hoff) as Hsat.
  destruct (truncated_offset _ _ _ _ _ Hoff) as (e & E & He & Hform). unfold write_at_offset. rewrite E.
  cbn [mbind outcome_bind]. destruct Hform as [[c ->]|Ht].
  - destruct (denotes_Const_inv _ _ _ _ He) as ([_ Hr] & Ew & Hval). rewrite Ew in Hr. unfold getZExtValue.
    rewrite Ew. cbn [Z.leb Z.compare Pos.compare Pos.compare_cont assertM mbind outcome_bind].
    unfold u32. rewrite wrapU_small by done. destruct Hsat as [rho0 HD0].
    destruct (write_ok D V os (cvalue c) w Vv value Hos Hw) as (os' & -> & Es & Hok);
      [rewrite <- (Hval rho0 HD0); auto|done|].
    exists os'. split_and!; auto. eapply object_ok_ext; [|exact Hok]. intros rho j HD _. simpl. by rewrite Hval.
  - pose proof (write_symbolic_ok D V os e w _ Vv value Hos Hw (conj He (conj Ht (conj Hin Hsat))) Hv) as Hsym.
    pose proof (two_values_symbolic 32 e Ht) as Hc. destruct e; try exact Hsym. done.
Qed.

End Values.
