(* ===== verification/MemoryFrame.v ===== *)
(** * Memory objects: what an access leaves alone

    An access changes neither the owner of an object state nor its object, its
    size or its flag; and a read, which may rearrange an object state that
    several address spaces share, keeps its bytes under every path condition,
    not only that of the reader. *)

From S2P Require Import Prelude ExprData ExprCreate ExprSem ExprBool ExprArith ExprBits ExprSpec Memory MemorySpec MemoryBytes.

(** ** The fields that stay *)

Record kept (os os' : ObjectState) : Prop := {
  kept_owner : copyOnWriteOwner os' = copyOnWriteOwner os;
  kept_object : object os' = object os;
  kept_size : size os' = size os;
  kept_readOnly : readOnly os' = readOnly os
}.

Lemma kept_refl os : kept os os.
Proof. done. Qed.

Lemma kept_trans os1 os2 os3 : kept os1 os2 -> kept os2 os3 -> kept os1 os3.
Proof. intros [] []. split; congruence. Qed.

Create HintDb frame discriminated.
#[export] Hint Resolve kept_refl kept_trans : frame.

(** Take a call that returned apart into the calls it made. *)
Ltac returned := repeat match goal with
  | E : mbind _ _ = Ret _ |- _ => apply outcome_bind_ret in E as (? & ? & ?)
  | E : Ret _ = Ret _ |- _ => injection E as E; subst
  | E : Stop _ = Ret _ |- _ => discriminate E
  | x : _ * _ |- _ => destruct x
  | E : match ?x with _ => _ end = Ret _ |- _ => destruct x eqn:?
  end.

(** The step of one of the operations below. *)
Ltac framed := intros; returned; eauto 6 with frame; done.

Section Frame.
Context `{ExprOptions} `{TargetContext}.

Lemma markByteConcrete_kept os i os' : markByteConcrete os i = Ret os' -> kept os os'.
Proof. unfold markByteConcrete. framed. Qed.

Lemma markByteSymbolic_kept os i os' : markByteSymbolic os i = Ret os' -> kept os os'.
Proof. unfold markByteSymbolic. framed. Qed.

Lemma markByteUnflushed_kept os i os' : markByteUnflushed os i = Ret os' -> kept os os'.
Proof. unfold markByteUnflushed. framed. Qed.

Lemma setKnownSymbolic_kept os i v os' : setKnownSymbolic os i v = Ret os' -> kept os os'.
Proof. unfold setKnownSymbolic. framed. Qed.

Lemma extend_kept os i v os' : extend os i v = Ret os' -> kept os os'.
Proof. unfold extend. framed. Qed.

Lemma unset_unflushed_kept os i os' : unset_unflushed os i = Ret os' -> kept os os'.
Proof. unfold unset_unflushed. framed. Qed.

#[local] Hint Resolve markByteConcrete_kept markByteSymbolic_kept markByteUnflushed_kept setKnownSymbolic_kept
  extend_kept unset_unflushed_kept : frame.

Lemma flush_concrete_kept os i os' : flush_concrete os i = Ret os' -> kept os os'.
Proof. unfold flush_concrete. framed. Qed.

Lemma flush_known_kept os i os' : flush_known os i = Ret os' -> kept os os'.
Proof. unfold flush_known. framed. Qed.

Lemma extend_all_kept ws os os' : extend_all os ws = Ret os' -> kept os os'.
Proof.
  revert os. induction ws as [|[i v] ws IH]; cbn [extend_all]; intros os E; returned; eauto with frame.
Qed.

#[local] Hint Resolve flush_concrete_kept flush_known_kept extend_all_kept : frame.

Lemma getUpdates_kept os ac a os' ac' : getUpdates os ac = Ret (a, os', ac') -> kept os os'.
Proof.
  unfold getUpdates. intros E. returned; eauto with frame.
  apply (kept_trans _ (with_updates (Some a) NoUpdate os)); [done|]. eauto with frame.
Qed.

Lemma flush_byte_read_kept os i os' : flush_byte_read os i = Ret os' -> kept os os'.
Proof. unfold flush_byte_read. framed. Qed.

Lemma flush_byte_write_kept os i os' : flush_byte_write os i = Ret os' -> kept os os'.
Proof. unfold flush_byte_write. framed. Qed.

Lemma flush_range_kept flush_byte n :
  (forall os i os', flush_byte os i = Ret os' -> kept os os') ->
  forall os i os', flush_range flush_byte os i n = Ret os' -> kept os os'.
Proof.
  intros Hf. induction n as [|n IH]; cbn [flush_range]; intros os i os' E; returned; eauto with frame.
Qed.

Lemma ensure_kept os : kept os (ensure_unflushedMask os).
Proof. unfold ensure_unflushedMask. by destruct (unflushedMask os). Qed.

Lemma flushRangeForRead_kept os b n os' : flushRangeForRead os b n = Ret os' -> kept os os'.
Proof.
  intros E. eapply kept_trans; [apply ensure_kept|]. eapply flush_range_kept, E. apply flush_byte_read_kept.
Qed.

Lemma flushRangeForWrite_kept os b n os' : flushRangeForWrite os b n = Ret os' -> kept os os'.
Proof.
  intros E. eapply kept_trans; [apply ensure_kept|]. eapply flush_range_kept, E. apply flush_byte_write_kept.
Qed.

#[local] Hint Resolve getUpdates_kept flushRangeForRead_kept flushRangeForWrite_kept : frame.

Lemma read8_kept os ac i e os' ac' : read8 os ac i = Ret (e, os', ac') -> kept os os'.
Proof. unfold read8. framed. Qed.

Lemma read8_at_kept os ac o e os' ac' : read8_at os ac o = Ret (e, os', ac') -> kept os os'.
Proof. unfold read8_at. framed. Qed.

Lemma read_bytes_kept read_byte total n :
  (forall os ac i e os' ac', read_byte os ac i = Ret (e, os', ac') -> kept os os') ->
  forall os ac i res e os' ac', read_bytes read_byte os ac total i n res = Ret (e, os', ac') -> kept os os'.
Proof.
  intros Hr. induction n as [|n IH]; cbn [read_bytes]; intros os ac i res e os' ac' E; returned; eauto with frame.
Qed.

#[local] Hint Resolve read8_kept read8_at_kept : frame.

Lemma read_kept os ac o w e os' ac' : read os ac o w = Ret (e, os', ac') -> kept os os'.
Proof.
  unfold read. intros E. returned; eauto with frame.
  eapply (read_bytes_kept (fun os ac idx => read8 os ac (u32 (o + idx)))); eauto with frame.
Qed.

(** A read keeps the fields. *)
Lemma read_at_offset_kept os ac offset w e os' ac' :
  read_at_offset os ac offset w = Ret (e, os', ac') -> kept os os'.
Proof.
  assert (Hb : forall o os ac i e os' ac', (x ← add_index o i; read8_at os ac x) = Ret (e, os', ac') -> kept os os')
    by (intros; returned; eauto with frame).
  unfold read_at_offset. intros E. returned; eauto using read_kept with frame; (eapply read_bytes_kept; [apply Hb|eassumption]).
Qed.

Lemma write8_kept os i v os' : write8 os i v = Ret os' -> kept os os'.
Proof.
  unfold write8. intros E. returned.
  apply (kept_trans _ (with_store (<[Z.to_nat i := v]> (concreteStore os)) os)); [done|]. eauto 8 with frame.
Qed.

#[local] Hint Resolve write8_kept : frame.

Lemma write8_expr_kept os i v os' : write8_expr os i v = Ret os' -> kept os os'.
Proof. unfold write8_expr. framed. Qed.

Lemma write8_at_kept os o v os' : write8_at os o v = Ret os' -> kept os os'.
Proof. unfold write8_at. framed. Qed.

Lemma write_bytes_kept write_byte total n :
  (forall os idx i os', write_byte os idx i = Ret os' -> kept os os') ->
  forall os i os', write_bytes write_byte os total i n = Ret os' -> kept os os'.
Proof.
  intros Hw. induction n as [|n IH]; cbn [write_bytes]; intros os i os' E; returned; eauto with frame.
Qed.

#[local] Hint Resolve write8_expr_kept write8_at_kept : frame.

Lemma write_int_kept n os o v os' : write_int n os o v = Ret os' -> kept os os'.
Proof. apply write_bytes_kept. intros. eauto with frame. Qed.

Lemma write_slow_kept os o v os' : write_slow os o v = Ret os' -> kept os os'.
Proof.
  unfold write_slow. intros E. returned; eauto with frame. eapply write_bytes_kept; [|eassumption].
  intros. cbv beta in *. returned. eauto with frame.
Qed.

#[local] Hint Resolve write_int_kept write_slow_kept : frame.

Lemma write_kept os o v os' : write os o v = Ret os' -> kept os os'.
Proof. unfold write. framed. Qed.

(** A write keeps the fields. *)
Lemma write_at_offset_kept os offset v os' : write_at_offset os offset v = Ret os' -> kept os os'.
Proof.
  assert (Hb : forall o os idx i os', (x ← add_index o idx; b ← ExtractExpr__create v (8 * i) 8; write8_at os x b) = Ret os' ->
    kept os os') by (intros; returned; eauto with frame).
  unfold write_at_offset. intros E. returned; eauto using write_kept with frame; (eapply write_bytes_kept; [apply Hb|eassumption]).
Qed.

Lemma markByteFlushed_kept os i os' : markByteFlushed os i = Ret os' -> kept os os'.
Proof. unfold markByteFlushed. framed. Qed.

Lemma make_symbolic_loop_kept n : forall os i os', make_symbolic_loop os i n = Ret os' -> kept os os'.
Proof.
  pose proof markByteFlushed_kept as Hflush.
  induction n as [|n IH]; cbn [make_symbolic_loop]; intros os i os' E; returned; eauto 8 with frame.
Qed.

Lemma makeSymbolic_kept os os' : makeSymbolic os = Ret os' -> kept os os'.
Proof. unfold makeSymbolic. intros E. returned. by eapply make_symbolic_loop_kept. Qed.

End Frame.

(** ** Reads keep the bytes

    Under any path condition, that of another state too. *)

Section Keeps.
Context `{ExprOptions} `{DivByZero} `{TargetContext}.
Variables (D : assignment -> Prop) (V : assignment -> Z -> Z).

Definition intact (os : ObjectState) (ac : ArrayCache) : Prop := object_ok D V os /\ cache_ok ac.

Lemma getUpdates_intact os ac a os' ac' :
  getUpdates os ac = Ret (a, os', ac') -> intact os ac -> intact os' ac'.
Proof.
  intros E [Hos Hac]. destruct (getUpdates_ok D V os ac Hos Hac) as (a2 & os2 & ac2 & E2 & _ & Hac2 & [Hos2 _ _]).
  rewrite E in E2. by simplify_eq.
Qed.

Lemma flushRangeForRead_intact os os' ac :
  flushRangeForRead os 0 (size os) = Ret os' -> intact os ac -> intact os' ac.
Proof.
  intros E [Hos Hac]. destruct (flushRangeForRead_ok D V os Hos) as (os2 & E2 & [Hos2 _ _ _ _ _]).
  rewrite E in E2. by simplify_eq.
Qed.

#[local] Hint Resolve getUpdates_intact flushRangeForRead_intact : frame.

Lemma read8_intact os ac i e os' ac' :
  read8 os ac i = Ret (e, os', ac') -> intact os ac -> intact os' ac'.
Proof. unfold read8. intros E Hi. returned; eauto with frame. Qed.

Lemma read8_at_intact os ac o e os' ac' :
  read8_at os ac o = Ret (e, os', ac') -> intact os ac -> intact os' ac'.
Proof.
  unfold read8_at, fastRangeCheckOffset. intros E Hi. returned; eauto with frame.
Qed.

Lemma read_bytes_intact read_byte total n :
  (forall os ac i e os' ac', read_byte os ac i = Ret (e, os', ac') -> intact os ac -> intact os' ac') ->
  forall os ac i res e os' ac',
    read_bytes read_byte os ac total i n res = Ret (e, os', ac') -> intact os ac -> intact os' ac'.
Proof.
  intros Hr. induction n as [|n IH]; cbn [read_bytes]; intros os ac i res e os' ac' E Hi; returned; eauto.
Qed.

#[local] Hint Resolve read8_intact read8_at_intact : frame.

Lemma read_intact os ac o w e os' ac' :
  read os ac o w = Ret (e, os', ac') -> intact os ac -> intact os' ac'.
Proof.
  unfold read. intros E Hi. returned; eauto with frame.
  eapply (read_bytes_intact (fun os ac idx => read8 os ac (u32 (o + idx)))); eauto with frame.
Qed.

Lemma read_at_offset_intact os ac offset w e os' ac' :
  read_at_offset os ac offset w = Ret (e, os', ac') -> intact os ac -> intact os' ac'.
Proof.
  assert (Hb : forall o os ac i e os' ac', (x ← add_index o i; read8_at os ac x) = Ret (e, os', ac') ->
    intact os ac -> intact os' ac') by (intros; returned; eauto with frame).
  unfold read_at_offset. intros E Hi.
  returned; eauto using read_intact with frame; (eapply read_bytes_intact; [apply Hb|eassumption|done]).
Qed.

End Keeps.
