(* ===== verification/MemoryObjects.v ===== *)
(** * Memory objects: creation, runs and bounds checks

    A new object has the bytes its constructor promises, a run of reads and
    writes on it behaves as a run on an array of bytes, and the bounds checks
    of [Memory.h] are true of the accesses inside the object and no others. *)

From S2P Require Import Prelude ExprData ExprCreate ExprSem ExprBool ExprArith ExprBits ExprSpec Memory MemorySpec MemoryBytes MemoryValues.

(** ** Creation *)

Section Creation.
Context `{ExprOptions} `{DivByZero}.

(** An object of which all bytes are in the concrete store. *)
Lemma concrete_ok D os :
  shape os -> updates_ok D os -> concreteMask os = None -> knownSymbolics os = None -> unflushedMask os = None ->
  object_ok D (fun _ j => stored os j) os.
Proof.
  intros Hs Hu Ec Ek Eu. split; auto. intros i Hi. unfold conc, symb, unfl.
  split; unfold conc, symb, unfl; rewrite ?Ec, ?Ek, ?Eu; simpl; auto; done.
Qed.

Lemma stored_replicate os v j :
  concreteStore os = replicate (Z.to_nat (size os)) v -> 0 <= j < size os -> stored os j = v.
Proof. intros E Hj. unfold stored. rewrite E, lookup_replicate_2 by lia. done. Qed.

Lemma filled_ok D os v :
  0 <= v < 256 -> 0 <= size os -> size os + 31 < 2 ^ 32 -> updates_ok D os ->
  concreteStore os = replicate (Z.to_nat (size os)) v ->
  concreteMask os = None -> knownSymbolics os = None -> unflushedMask os = None ->
  object_ok D (fun _ _ => v) os.
Proof.
  intros Hv Hge Hsz Hu Es Ec Ek Eu. eapply object_ok_ext; [|apply concrete_ok; auto].
  - intros rho j _ Hj. symmetry. by apply stored_replicate.
  - split; rewrite ?Ec, ?Ek, ?Eu, ?Es; try done.
    + rewrite length_replicate. lia.
    + by apply Forall_replicate.
Qed.

Lemma blank_object_ok D mo r :
  0 <= mo_size mo -> mo_size mo + 31 < 2 ^ 32 ->
  match r with Some a => array_ok (mo_size mo) a | None => True end ->
  object_ok D (fun _ _ => 0) (blank_object mo r).
Proof. intros Hge Hsz Hr. apply filled_ok; auto; [lia|]. by split. Qed.

Lemma ObjectState__new_ok D u mo ac :
  0 <= mo_size mo -> mo_size mo + 31 < 2 ^ 32 -> cache_ok ac ->
  exists os ac', ObjectState__new u mo ac = Ret (os, ac') /\ object_ok D (fun _ _ => 0) os /\
    size os = mo_size mo /\ cache_ok ac'.
Proof.
  intros Hge Hsz Hac. unfold ObjectState__new. destruct u.
  - eexists _, _. split; [done|]. split_and!; auto. by apply blank_object_ok.
  - destruct (CreateArray_ok (with_tmp_arr_id (u32 (tmp_arr_id ac + 1)) ac)
      (tmp_arr_name (u32 (tmp_arr_id ac + 1))) (mo_size mo) []) as (a & ac' & -> & Ha & Hac' & _);
      [done|lia|by left|].
    cbn [mbind outcome_bind fst snd]. eexists _, _. split; [done|]. split_and!; auto. by apply blank_object_ok.
Qed.

Lemma makeConcrete_fill_ok D V os v :
  object_ok D V os -> 0 <= v < 256 ->
  object_ok D (fun _ _ => v) (with_store (replicate (Z.to_nat (size os)) v) (makeConcrete os)).
Proof.
  intros [Hs [U1 U2 U3 U4] Hb] Hv. apply filled_ok; auto; [apply Hs..|]. by split.
Qed.

Lemma ObjectState__copy_ok D V os :
  object_ok D V os -> readOnly os = false ->
  exists os', ObjectState__copy os = Ret os' /\ object_ok D V os' /\ size os' = size os.
Proof.
  intros [[S1 S2 S3 S4 S5 S6] [U1 U2 U3 U4] Hb] Hro. unfold ObjectState__copy. rewrite Hro.
  eexists. split; [done|]. split; [|done]. split; [by split|by split|].
  intros i Hi. by apply (byte_ok_ext D V V os); auto.
Qed.

(** The bytes below [i] are only in the list of updates. *)
Definition made_symbolic (i : Z) (os : ObjectState) : Prop :=
  forall j, 0 <= j < i -> conc os j = false /\ symb os j = None /\ unfl os j = false.

Lemma markByteFlushed_ok os i :
  shape os -> 0 <= i < size os ->
  exists m, markByteFlushed os i = Ret (with_unflushedMask (Some m) os) /\ mask_ok (size os) m /\
    bit_at m i = false /\ forall j, 0 <= j < size os -> unfl os j = false -> bit_at m j = false.
Proof.
  intros Hs Hi. unfold markByteFlushed, unfl. pose proof (sh_unflushed os Hs) as Hm. pose proof (sh_size os Hs) as Hsz.
  destruct (unflushedMask os) as [m|].
  - destruct (BitArray__unset_ok (size os) m i Hm Hi) as (m' & -> & Hm' & Hb). cbn [mbind outcome_bind].
    exists m'. split_and!; auto; [rewrite Hb by lia; by rewrite decide_True|].
    intros j Hj Hu. rewrite Hb by lia. by case_decide.
  - destruct (BitArray__new_ok (size os) false) as [Hm' Hb]; [lia..|].
    eexists. split; [done|]. split_and!; auto.
Qed.

Lemma make_symbolic_loop_ok n :
  forall os i, shape os -> 0 <= i -> i + Z.of_nat n = size os -> made_symbolic i os ->
  exists os', make_symbolic_loop os i n = Ret os' /\ shape os' /\ size os' = size os /\ root os' = root os /\
    head os' = head os /\ made_symbolic (size os) os'.
Proof.
  induction n as [|n IH]; intros os i Hs Hi Hn Hm; cbn [make_symbolic_loop].
  { exists os. split_and!; auto. by replace (size os) with i by lia. }
  assert (Hin : 0 <= i < size os) by lia.
  destruct (markByteSymbolic_ok os Hs i Hin) as (mc & -> & Hmc & Sc). cbn [mbind outcome_bind].
  assert (Hs1 : shape (with_concreteMask (Some mc) os)) by auto with memory.
  destruct (setKnownSymbolic_ok _ Hs1 i Hin None) as (ks & -> & Hks & Sk). cbn [mbind outcome_bind].
  assert (Hs2 : shape (with_knownSymbolics ks (with_concreteMask (Some mc) os))) by auto with memory.
  destruct (markByteFlushed_ok _ i Hs2 Hin) as (mu & -> & Hmu & Hui & Su). cbn [mbind outcome_bind].
  unfold sets in *. simpl in *.
  destruct (IH (with_unflushedMask (Some mu) (with_knownSymbolics ks (with_concreteMask (Some mc) os))) (i + 1))
    as (os' & -> & Hs' & Esz & Er & Eh & Hm'); auto with memory; [lia|simpl; lia| |by exists os'].
  intros j Hj. unfold conc, symb, unfl. simpl. rewrite Sc, Sk by lia.
  destruct (decide (j = i)) as [->|]; [by split_and!|].
  destruct (Hm j ltac:(lia)) as (E1 & E2 & E3). split_and!; auto. apply Su; [lia|done].
Qed.

Lemma ObjectState__symbolic_ok D mo a :
  0 <= mo_size mo -> mo_size mo + 31 < 2 ^ 32 -> array_ok (mo_size mo) a ->
  exists os, ObjectState__symbolic mo a = Ret os /\ object_ok D (fun rho j => array_value rho a j) os /\
    size os = mo_size mo.
Proof.
  intros Hge Hsz Ha. pose proof (blank_object_ok D mo (Some a) Hge Hsz Ha) as [Hs _ _].
  unfold ObjectState__symbolic, makeSymbolic. cbn [blank_object head assertM mbind outcome_bind size].
  destruct (make_symbolic_loop_ok (Z.to_nat (mo_size mo)) (blank_object mo (Some a)) 0 Hs)
    as (os & -> & Hs' & Esz & Er & Eh & Hm); [lia|simpl; lia|intros j Hj; lia|]. simpl in *.
  exists os. split; [done|]. split; [|done]. split; [done| |].
  - split; rewrite ?Er, ?Eh, ?Esz; try done.
  - rewrite Esz. intros i Hi. destruct (Hm i Hi) as (E1 & E2 & E3).
    apply byte_flushed; rewrite ?E1, ?E2; try done.
    intros rho HD. unfold upd_value, base_array. by rewrite Er, Eh.
Qed.

End Creation.

(** ** Runs of accesses *)

Inductive access : Type :=
  | Load (offset : Expr) (width : Z)
  | Store (offset value : Expr).

Section Runs.
Context `{ExprOptions} `{DivByZero} `{TargetContext}.

(** The values that the reads of a run return. *)
Fixpoint run_accesses (os : ObjectState) (ac : ArrayCache) (accs : list access)
    : outcome (list Expr * ObjectState * ArrayCache) :=
  match accs with
  | [] => Ret ([], os, ac)
  | Load offset width :: accs =>
      r ← read_at_offset os ac offset width;
      let '(e, os', ac') := r in
      rest ← run_accesses os' ac' accs;
      let '(es, os'', ac'') := rest in
      Ret (e :: es, os'', ac'')
  | Store offset value :: accs =>
      os' ← write_at_offset os offset value;
      run_accesses os' ac accs
  end.

(** The same run on an array of bytes. *)
Fixpoint run_bytes (rho : assignment) (bytes : Z -> Z) (accs : list access) : list Z :=
  match accs with
  | [] => []
  | Load offset width :: accs =>
      load bytes width (eval rho offset mod 2 ^ 32) :: run_bytes rho bytes accs
  | Store offset value :: accs =>
      run_bytes rho (store bytes (getWidth value) (eval rho offset mod 2 ^ 32) (eval rho value)) accs
  end.

Definition offset_valid (D : assignment -> Prop) (n w : Z) (offset : Expr) : Prop :=
  offset_ok D n w (fun rho => eval rho offset) offset.

Definition access_valid (D : assignment -> Prop) (n : Z) (a : access) : Prop :=
  match a with
  | Load offset width => access_width width /\ offset_valid D n width offset
  | Store offset value =>
      wf value /\ (forall rho, D rho -> inb rho value) /\
      access_width (getWidth value) /\ offset_valid D n (getWidth value) offset
  end.

Lemma run_accesses_ok D accs :
  forall V os ac, object_ok D V os -> cache_ok ac -> Forall (access_valid D (size os)) accs ->
  exists es os' ac', run_accesses os ac accs = Ret (es, os', ac') /\ cache_ok ac' /\
    forall rho, D rho -> map (eval rho) es = run_bytes rho (V rho) accs.
Proof.
  induction accs as [|[offset width|offset value] accs IH]; intros V os ac Hos Hac Hv; cbn [run_accesses run_bytes].
  { by exists [], os, ac. }
  - apply Forall_cons in Hv as [[Hw Ho] Hv].
    destruct (read_at_offset_ok D V os ac offset width _ Hos Hac Hw Ho)
      as (e & os' & ac' & -> & He & Hos' & Esz & Hac'). cbn [mbind outcome_bind]. rewrite <- Esz in Hv.
    destruct (IH V os' ac' Hos' Hac' Hv) as (es & os2 & ac2 & -> & Hac2 & Hes). cbn [mbind outcome_bind].
    eexists _, _, _. split; [done|]. split; [done|]. intros rho HD. cbn [map].
    by rewrite (den_eval _ _ _ _ He rho HD), Hes.
  - apply Forall_cons in Hv as [(Hwf & Hinb & Hw & Ho) Hv].
    destruct (write_at_offset_ok D V os offset _ _ _ value Hos Hw Ho (denotes_self D value Hwf Hinb))
      as (os' & -> & Esz & Hos'). cbn [mbind outcome_bind]. rewrite <- Esz in Hv.
    by apply (IH (fun rho => store (V rho) (getWidth value) (eval rho offset mod 2 ^ 32) (eval rho value)) os' ac).
Qed.

(** C4: a memory object is an array of bytes: a run of reads and writes, at
    constant and symbolic offsets, of constant and symbolic values of any
    width, in either byte order, always succeeds when the accesses are inside
    the object, and under every assignment its reads return the values that
    the same run on an array of bytes returns. *)
Theorem memory_refines_bytes D V os ac accs :
  object_ok D V os -> cache_ok ac -> Forall (access_valid D (size os)) accs ->
  exists es os' ac', run_accesses os ac accs = Ret (es, os', ac') /\
    forall rho, D rho -> map (eval rho) es = run_bytes rho (V rho) accs.
Proof.
  intros Hos Hac Hv. destruct (run_accesses_ok D accs V os ac Hos Hac Hv) as (es & os' & ac' & E & _ & Hes).
  by exists es, os', ac'.
Qed.

(** What is written to a memory object is read back, and a value that
    does not overlap it is still there. *)
Theorem memory_write_read D V os ac offset value other w :
  object_ok D V os -> cache_ok ac -> access_valid D (size os) (Store offset value) ->
  access_valid D (size os) (Load other w) ->
  (forall rho, D rho -> eval rho other mod 2 ^ 32 + access_bytes w <= eval rho offset mod 2 ^ 32 \/
     eval rho offset mod 2 ^ 32 + access_bytes (getWidth value) <= eval rho other mod 2 ^ 32) ->
  exists os' e1 os1 ac1 e2 os2 ac2,
    write_at_offset os offset value = Ret os' /\
    read_at_offset os' ac offset (getWidth value) = Ret (e1, os1, ac1) /\
    read_at_offset os1 ac1 other w = Ret (e2, os2, ac2) /\
    forall rho, D rho -> eval rho e1 = eval rho value /\
      eval rho e2 = load (V rho) w (eval rho other mod 2 ^ 32).
Proof.
  intros Hos Hac (Hwf & Hinb & Hw & Ho) [Hw2 Ho2] Hdis.
  destruct (write_at_offset_ok D V os offset _ _ _ value Hos Hw Ho (denotes_self D value Hwf Hinb))
    as (os' & E & Esz & Hos').
  unfold offset_valid in Ho, Ho2. rewrite <- Esz in Ho, Ho2.
  destruct (read_at_offset_ok D _ os' ac offset _ _ Hos' Hac Hw Ho) as (e1 & os1 & ac1 & E1 & He1 & Hos1 & Esz1 & Hac1).
  rewrite <- Esz1 in Ho2.
  destruct (read_at_offset_ok D _ os1 ac1 other w _ Hos1 Hac1 Hw2 Ho2) as (e2 & os2 & ac2 & E2 & He2 & _).
  exists os', e1, os1, ac1, e2, os2, ac2. split_and!; auto. intros rho HD.
  rewrite (den_eval _ _ _ _ He1 rho HD), (den_eval _ _ _ _ He2 rho HD). split.
  - apply load_store; [done|]. by apply eval_range.
  - apply load_store_other; [done|]. destruct (Hdis rho HD); auto.
Qed.

(** C16: every way of making an object establishes the invariant, with the
    promised contents: zeros, the contents of an array, a byte everywhere, or
    those of the copied object. *)
Theorem object_creation_correct D mo ac a :
  0 <= mo_size mo -> mo_size mo + 31 < 2 ^ 32 -> cache_ok ac -> array_ok (mo_size mo) a ->
  (forall u, exists os ac', ObjectState__new u mo ac = Ret (os, ac') /\ object_ok D (fun _ _ => 0) os /\ cache_ok ac') /\
  (exists os, ObjectState__symbolic mo a = Ret os /\ object_ok D (fun rho j => array_value rho a j) os) /\
  forall V os, object_ok D V os ->
    object_ok D (fun _ _ => 0) (initializeToZero os) /\ object_ok D (fun _ _ => 171) (initializeToRandom os) /\
    (readOnly os = false -> exists os', ObjectState__copy os = Ret os' /\ object_ok D V os').
Proof.
  intros Hge Hsz Hac Ha. split_and!.
  - intros u. destruct (ObjectState__new_ok D u mo ac Hge Hsz Hac) as (os & ac' & E & Hok & _ & Hac').
    by exists os, ac'.
  - destruct (ObjectState__symbolic_ok D mo a Hge Hsz Ha) as (os & E & Hok & _). by exists os.
  - intros V os Hos. split_and!; [by apply (makeConcrete_fill_ok D V)..|]. intros Hro.
    destruct (ObjectState__copy_ok D V os Hos Hro) as (os' & E & Hok & _). by exists os'.
Qed.

End Runs.

(** ** Bounds checks *)

Section Bounds.
Context `{ExprOptions} `{DivByZero} `{TargetContext}.

(** The object is somewhere in the address space. *)
Record placed (mo : MemoryObject) : Prop := {
  pl_width : 0 < getPointerWidth < 2 ^ 32;
  pl_address : 0 <= address mo /\ address mo + mo_size mo <= 2 ^ getPointerWidth;
  pl_size : 0 <= mo_size mo < 2 ^ 32 - 1 /\ mo_size mo < 2 ^ getPointerWidth /\ address mo < 2 ^ getPointerWidth
}.

Lemma getOffsetExpr_ok D mo Vp pointer :
  placed mo -> denotes D getPointerWidth Vp pointer ->
  creates D getPointerWidth (fun rho => (Vp rho - address mo) mod 2 ^ getPointerWidth) (getOffsetExpr mo pointer).
Proof.
  intros [Hw [Ha _] [_ [_ Hlt]]] Hp. unfold getOffsetExpr.
  destruct (constant_of_ok D (address mo) getPointerWidth Hw) as [E Hd]; [lia|].
  change (getBaseExpr mo) with (constant_of (address mo) getPointerWidth). rewrite E. cbn [mbind outcome_bind].
  apply (AddSubExpr__create_creates D getPointerWidth _ _ _ _ Hp Hd).
Qed.

(** The distance from the start of the object wraps around below it. *)
Lemma offset_below mo p n :
  placed mo -> 0 <= p < 2 ^ getPointerWidth -> 0 <= n <= mo_size mo ->
  ((p - address mo) mod 2 ^ getPointerWidth < n <-> address mo <= p < address mo + n).
Proof.
  intros [Hw [Ha Hfit] [_ [_ Hlt]]] Hp Hn. set (m := 2 ^ getPointerWidth) in *.
  destruct (Z.le_gt_cases (address mo) p).
  - rewrite Z.mod_small by lia. lia.
  - replace ((p - address mo) mod m) with (p - address mo + m); [lia|].
    apply (Zmod_unique _ _ (-1)); lia.
Qed.

Lemma check_offset_ok D Vo offset n :
  denotes D getPointerWidth Vo offset -> 0 <= n < 2 ^ getPointerWidth -> 0 < getPointerWidth < 2 ^ 32 ->
  creates D 1 (fun rho => Z.b2z (Vo rho <? n)) (Binary__create Kind.Ult offset (Constant (mkConst n getPointerWidth))).
Proof.
  intros Ho Hn Hw. apply (Binary__create_creates D getPointerWidth Vo (fun _ => n) Kind.Ult); [done| |done].
  apply (denotes_const D (mkConst n getPointerWidth)); [|done]. by split.
Qed.

Lemma getBoundsCheckPointer_bytes_ok D mo Vp pointer bytes :
  placed mo -> denotes D getPointerWidth Vp pointer -> 0 < bytes ->
  creates D 1 (fun rho => Z.b2z ((address mo <=? Vp rho) && (Vp rho + bytes <=? address mo + mo_size mo)))
    (getBoundsCheckPointer_bytes mo pointer bytes).
Proof.
  intros Hpl Hp Hb. unfold getBoundsCheckPointer_bytes.
  destruct (getOffsetExpr_ok D mo Vp pointer Hpl Hp) as (o & -> & Ho). cbn [mbind outcome_bind].
  unfold getBoundsCheckOffset_bytes. pose proof Hpl as [Hw [Ha Hfit] [Hsz [Hsz' Hlt]]].
  destruct (Z.leb_spec bytes (mo_size mo)).
  - unfold ConstantExpr__alloc, u32. rewrite wrapU_small, Z.mod_small by lia.
    eapply creates_ext; [apply (check_offset_ok D _ o _ Ho); [lia|done]|]. intros rho HD. cbn beta. f_equal.
    pose proof (denotes_range D _ Vp pointer rho Hp HD) as Hr.
    pose proof (offset_below mo (Vp rho) (mo_size mo - bytes + 1) Hpl Hr ltac:(lia)) as Hiff.
    apply eq_bool_prop_intro. rewrite !Is_true_true, andb_true_iff, Z.ltb_lt, !Z.leb_le. lia.
  - apply creates_ret. eapply denotes_ext; [apply (denotes_bool D false)|]. intros rho HD. cbn beta.
    destruct ((address mo <=? Vp rho) && _) eqn:E; [|done]. exfalso.
    apply andb_true_iff in E as [E1 E2]. apply Z.leb_le in E1, E2. lia.
Qed.

Lemma getBoundsCheckPointer_ok D mo Vp pointer :
  placed mo -> denotes D getPointerWidth Vp pointer ->
  creates D 1 (fun rho => Z.b2z (if mo_size mo =? 0 then Vp rho =? address mo
                                 else (address mo <=? Vp rho) && (Vp rho <? address mo + mo_size mo)))
    (getBoundsCheckPointer mo pointer).
Proof.
  intros Hpl Hp. unfold getBoundsCheckPointer.
  destruct (getOffsetExpr_ok D mo Vp pointer Hpl Hp) as (o & -> & Ho). cbn [mbind outcome_bind].
  unfold getBoundsCheckOffset. pose proof Hpl as [Hw [Ha Hfit] [Hsz [Hsz' Hlt]]].
  destruct (Z.eqb_spec (mo_size mo) 0) as [E0|E0].
  - assert (Hz : denotes D getPointerWidth (fun _ => 0) (Constant (ConstantExpr__alloc 0 getPointerWidth))).
    { unfold ConstantExpr__alloc. rewrite Z.mod_0_l by lia.
      apply (denotes_const D (mkConst 0 getPointerWidth)); [|done]. split; [done|]. simpl. lia. }
    eapply creates_ext; [apply (EqExpr__create_creates D getPointerWidth _ _ _ _ Ho Hz)|].
    intros rho HD. cbn beta. f_equal. pose proof (denotes_range D _ Vp pointer rho Hp HD) as Hr.
    apply eq_bool_prop_intro. rewrite !Is_true_true, !Z.eqb_eq. split.
    + intros Em. apply Z.mod_divide in Em as [k Ek]; [|lia]. set (m := 2 ^ getPointerWidth) in *.
      assert (-1 < k < 1) by (split; apply (Z.mul_lt_mono_pos_r m); lia). replace k with 0 in Ek by lia. lia.
    + intros ->. by rewrite Z.sub_diag, Z.mod_0_l by lia.
  - change (getSizeExpr mo) with (constant_of (mo_size mo) getPointerWidth).
    destruct (constant_of_ok D (mo_size mo) getPointerWidth Hw) as [-> _]; [lia|]. cbn [mbind outcome_bind].
    eapply creates_ext; [apply (check_offset_ok D _ o _ Ho); [lia|done]|]. intros rho HD. cbn beta. f_equal.
    pose proof (denotes_range D _ Vp pointer rho Hp HD) as Hr.
    pose proof (offset_below mo (Vp rho) (mo_size mo) Hpl Hr ltac:(lia)) as Hiff.
    apply eq_bool_prop_intro. rewrite !Is_true_true, andb_true_iff, !Z.ltb_lt, Z.leb_le. lia.
Qed.

(** C15: the bounds checks are exact: the expression they build is true of the
    pointers to bytes of the object (an object without bytes can only be
    pointed to at its address), and of the pointers from which [bytes] bytes
    are inside the object, and false of all others, those below the object and
    those whose access wraps around too. *)
Theorem bounds_checks_exact (D : assignment -> Prop) mo pointer bytes :
  placed mo -> wf pointer -> getWidth pointer = getPointerWidth -> (forall rho, D rho -> inb rho pointer) ->
  0 < bytes ->
  exists e1 e2, getBoundsCheckPointer mo pointer = Ret e1 /\ getBoundsCheckPointer_bytes mo pointer bytes = Ret e2 /\
    getWidth e1 = 1 /\ getWidth e2 = 1 /\
    forall rho, D rho ->
      (eval rho e1 = 1 <-> address mo <= eval rho pointer < address mo + Z.max 1 (mo_size mo)) /\
      (eval rho e2 = 1 <-> address mo <= eval rho pointer /\ eval rho pointer + bytes <= address mo + mo_size mo).
Proof.
  intros Hpl Hwf Hw Hinb Hb.
  assert (Hp : denotes D getPointerWidth (fun rho => eval rho pointer) pointer) by (rewrite <- Hw; by apply denotes_self).
  destruct (getBoundsCheckPointer_ok D mo _ pointer Hpl Hp) as (e1 & E1 & He1).
  destruct (getBoundsCheckPointer_bytes_ok D mo _ pointer bytes Hpl Hp Hb) as (e2 & E2 & He2).
  exists e1, e2. split_and!; auto; [apply He1|apply He2|]. intros rho HD.
  rewrite (den_eval _ _ _ _ He1 rho HD), (den_eval _ _ _ _ He2 rho HD). pose proof (pl_size mo Hpl) as [Hs _].
  split.
  - destruct (Z.eqb_spec (mo_size mo) 0); [destruct (Z.eqb_spec (eval rho pointer) (address mo)); simpl; lia|].
    destruct ((address mo <=? eval rho pointer) && (eval rho pointer <? _)) eqn:E; to_prop; simpl; lia.
  - destruct ((address mo <=? eval rho pointer) && (eval rho pointer + bytes <=? _)) eqn:E; to_prop; simpl; lia.
Qed.

End Bounds.
