(* ===== verification/MemoryExample.v ===== *)
(** * A memory object of eight bytes

    Accesses at a constant and at a symbolic offset, on which the theorems on
    memory objects apply. *)

From S2P Require Import Prelude ExprData ExprCreate ExprSem ExprBool ExprArith ExprBits ExprSpec Memory MemorySpec MemoryBytes MemoryValues MemoryObjects.

Module MemoryExample.

Instance options : ExprOptions := ex_options.
Instance divz : DivByZero := ex_divz.
Instance target : TargetContext := {| isLittleEndian := true; getPointerWidth := 64 |}.

Definition mo : MemoryObject := mkMO 1 65536 8 8 false.
Definition arrays : ArrayCache := mkArrayCache 8192 0 0 [] [].
Definition os : ObjectState := blank_object mo None.

Definition at_const (n : Z) : Expr := Constant (mkConst n 32).
Definition word : Expr := Constant (mkConst 16909060 32).

(** A symbolic byte as an offset, and the assignments that keep a word there
    inside the object. *)
Definition at_byte : Expr := ZExt (ex_byte 0) 32.
Definition inside (rho : assignment) : Prop := rho ex_array 0 mod 256 <= 4.

Definition accesses : list access :=
  [Store (at_const 0) word; Store at_byte (ex_byte 1); Load at_byte 32; Load (at_const 0) 8].

Definition bytes_are (a b : Z) : assignment := fun _ i => if i =? 0 then a else b.

(** What the reads return when the symbolic bytes are 2 and 255. *)
Example run_example :
  (r ← run_accesses os arrays accesses; Ret (map (eval (bytes_are 2 255)) r.1.1)) = Ret [511; 4] /\
  run_bytes (bytes_are 2 255) (fun _ => 0) accesses = [511; 4].
Proof. by split; vm_compute. Qed.

Lemma os_ok D : object_ok D (fun _ _ => 0) os.
Proof. by apply blank_object_ok. Qed.

Lemma arrays_ok : cache_ok arrays.
Proof. constructor. Qed.

Lemma ex_byte_wf i : 0 <= i < 2 ^ 32 -> wf (ex_byte i).
Proof.
  intros Hi. cbn. unfold wf_array, wf_const, wf_width. cbn. repeat split; auto; lia.
Qed.

Lemma inside_zero : inside (bytes_are 0 0).
Proof. by vm_compute. Qed.

Lemma at_const_valid n w : 0 <= n < 8 -> access_in 8 w n -> offset_valid inside 8 w (at_const n).
Proof.
  intros Hn Hin. split.
  - apply denotes_self; [|done]. split; [done|]. simpl. lia.
  - exists (bytes_are 0 0). exact inside_zero.
  - intros rho _. change (eval rho (at_const n)) with n. by rewrite Z.mod_small by lia.
  - left. by eexists.
Qed.

Lemma at_byte_valid w : 0 < access_bytes w <= 4 -> offset_valid inside 8 w at_byte.
Proof.
  intros Hw. split.
  - apply denotes_self; [|by intros]. split; [by apply ex_byte_wf|by cbn].
  - exists (bytes_are 0 0). exact inside_zero.
  - intros rho HD. change (eval rho at_byte) with (rho ex_array 0 mod 256).
    unfold inside in HD. pose proof (Z.mod_pos_bound (rho ex_array 0) 256 ltac:(lia)).
    rewrite Z.mod_small by lia. split; lia.
  - right. exists (bytes_are 0 0), (bytes_are 1 0). by split_and!; try vm_compute.
Qed.

Lemma accesses_valid : Forall (access_valid inside (size os)) accesses.
Proof.
  assert (W32 : access_width 32) by (right; by exists 4).
  assert (W8 : access_width 8) by (right; by exists 1).
  apply Forall_cons; split; [|apply Forall_cons; split; [|apply Forall_cons; split; [|apply Forall_singleton]]].
  - split; [by split|split; [done|split; [exact W32|by apply at_const_valid]]].
  - split; [by apply ex_byte_wf|split; [done|split; [exact W8|by apply at_byte_valid]]].
  - split; [exact W32|by apply at_byte_valid].
  - split; [exact W8|by apply at_const_valid].
Qed.

Lemma memory_refines_bytes_witness :
  exists es os' ac', run_accesses os arrays accesses = Ret (es, os', ac') /\
    forall rho, inside rho -> map (eval rho) es = run_bytes rho (fun _ => 0) accesses.
Proof.
  apply (memory_refines_bytes inside (fun _ _ => 0) os arrays accesses).
  - apply os_ok.
  - apply arrays_ok.
  - apply accesses_valid.
Defined.

Lemma memory_write_read_witness :
  exists os' e1 os1 ac1 e2 os2 ac2,
    write_at_offset os at_byte (ex_byte 1) = Ret os' /\
    read_at_offset os' arrays at_byte 8 = Ret (e1, os1, ac1) /\
    read_at_offset os1 ac1 (at_const 5) 16 = Ret (e2, os2, ac2) /\
    forall rho, inside rho -> eval rho e1 = eval rho (ex_byte 1) /\ eval rho e2 = load (fun _ => 0) 16 (5 mod 2 ^ 32).
Proof.
  apply (memory_write_read inside (fun _ _ => 0) os arrays at_byte (ex_byte 1) (at_const 5) 16).
  - apply os_ok.
  - apply arrays_ok.
  - split; [by apply ex_byte_wf|split; [done|split; [right; by exists 1|by apply at_byte_valid]]].
  - split; [right; by exists 2|by apply at_const_valid].
  - intros rho HD. right. change (eval rho at_byte) with (rho ex_array 0 mod 256). unfold inside in HD.
    pose proof (Z.mod_pos_bound (rho ex_array 0) 256 ltac:(lia)). rewrite Z.mod_small by lia.
    change (access_bytes (getWidth (ex_byte 1))) with 1. change (eval rho (at_const 5) mod 2 ^ 32) with 5. lia.
Defined.

Definition contents : Array := mkArray 4096 "contents" 8 32 8 [].

Lemma object_creation_correct_witness :
  (forall u, exists os ac', ObjectState__new u mo arrays = Ret (os, ac') /\ object_ok inside (fun _ _ => 0) os /\ cache_ok ac') /\
  (exists os, ObjectState__symbolic mo contents = Ret os /\ object_ok inside (fun rho j => array_value rho contents j) os) /\
  forall V os, object_ok inside V os ->
    object_ok inside (fun _ _ => 0) (initializeToZero os) /\ object_ok inside (fun _ _ => 171) (initializeToRandom os) /\
    (readOnly os = false -> exists os', ObjectState__copy os = Ret os' /\ object_ok inside V os').
Proof.
  apply (object_creation_correct inside mo arrays contents).
  - by vm_compute.
  - by vm_compute.
  - apply arrays_ok.
  - unfold array_ok, wf_array, wf_width. cbn. repeat split; auto; lia.
Defined.

(** A pointer into the object, or past it. *)
Definition pointer : Expr := Binary Kind.Add (Constant (mkConst 65536 64)) (ZExt (ex_byte 0) 64).

Lemma bounds_checks_exact_witness :
  exists e1 e2, getBoundsCheckPointer mo pointer = Ret e1 /\ getBoundsCheckPointer_bytes mo pointer 4 = Ret e2 /\
    getWidth e1 = 1 /\ getWidth e2 = 1 /\
    forall rho, True ->
      (eval rho e1 = 1 <-> 65536 <= eval rho pointer < 65544) /\
      (eval rho e2 = 1 <-> 65536 <= eval rho pointer /\ eval rho pointer + 4 <= 65544).
Proof.
  apply (bounds_checks_exact (fun _ => True) mo pointer 4).
  - split; cbn; lia.
  - split; [by split|split; [|done]]. split; [by apply ex_byte_wf|by cbn].
  - done.
  - by intros.
  - lia.
Defined.

End MemoryExample.
