(* ===== verification/AddressSpace.v ===== *)
(** * Address spaces

    [lib/Core/AddressSpace.cpp]: the memory of an execution state, a map from
    memory objects, ordered by address, to object states.  When a state forks
    the two copies share all object states; an address space may write to the
    ones it owns, those made since the last fork, and copies the others first.
    The map is the balanced tree of [ImmutableTree]; the object states live in
    a heap that all address spaces share, so that sharing is visible.

    Reference counts are left out (an object state is never freed), and the
    number that a temporary [MemoryObject] is given. *)

From S2P Require Import Prelude ImmutableTree ExprData ExprCreate Constraints Solver TimingSolver Memory.

(** ** The data *)

#[global] Instance MemoryObject_eq_dec : EqDecision MemoryObject.
Proof. solve_decision. Defined.

(** A memory object and the address of its state in the heap. *)
Abbreviation ObjectPair := (MemoryObject * Z)%type.

Definition MemoryObjectLT (a b : MemoryObject) : bool := address a <? address b.

#[global] Instance MemoryObjectLT_swo : StrictWeakOrder MemoryObjectLT.
Proof. unfold MemoryObjectLT. split; intros; to_prop; rewrite ?Z.ltb_ge, ?Z.ltb_lt in *; lia. Qed.

(** [MemoryObject hack(address)]. *)
Definition hack (address : Z) : MemoryObject := mkMO 0 address 0 0 false.

Abbreviation MemoryMap := (ITree.Node (V:=ObjectPair)).
Definition null_pair : ObjectPair := (hack 0, 0).

Record AddressSpace : Type := mkSpace { cowKey : Z; objects : MemoryMap }.

(** The object states that were allocated, and where the next one goes. *)
Record Heap : Type := mkHeap { states : gmap Z ObjectState; next_state : Z }.

Definition load_state (h : Heap) (p : Z) : outcome ObjectState := of_option MemError (states h !! p).
Definition set_state (h : Heap) (p : Z) (os : ObjectState) : Heap :=
  mkHeap (<[p := os]> (states h)) (next_state h).
Definition new_state (h : Heap) (os : ObjectState) : Z * Heap :=
  (next_state h, mkHeap (<[next_state h := os]> (states h)) (next_state h + 1)).

Definition with_owner (k : Z) (os : ObjectState) : ObjectState :=
  mkObjectState k (object os) (concreteStore os) (concreteMask os) (knownSymbolics os)
    (unflushedMask os) (root os) (head os) (size os) (readOnly os).

(** ** Binding and copying *)

Definition AddressSpace__new : AddressSpace := mkSpace 1 ITree.terminator.

(** The copy constructor gives a new key to both, the same one. *)
Definition AddressSpace__copy (b : AddressSpace) : AddressSpace * AddressSpace :=
  let k := u32 (cowKey b + 1) in
  (mkSpace k (objects b), mkSpace k (objects b)).

Definition bindObject (h : Heap) (sp : AddressSpace) (mo : MemoryObject) (p : Z)
    : outcome (Heap * AddressSpace) :=
  os ← load_state h p;
  _ ← assertM (copyOnWriteOwner os =? 0);
  Ret (set_state h p (with_owner (cowKey sp) os),
       mkSpace (cowKey sp) (ITree.replace fst MemoryObjectLT null_pair (mo, p) (objects sp))).

Definition unbindObject (sp : AddressSpace) (mo : MemoryObject) : AddressSpace :=
  mkSpace (cowKey sp) (ITree.remove fst MemoryObjectLT null_pair mo (objects sp)).

Definition findObject (sp : AddressSpace) (mo : MemoryObject) : option Z :=
  snd <$> ITree.lookup fst MemoryObjectLT mo (objects sp).

(** The state to write to, the object's own or a copy. *)
Definition getWriteable (h : Heap) (sp : AddressSpace) (mo : MemoryObject) (p : Z)
    : outcome (Z * Heap * AddressSpace) :=
  os ← load_state h p;
  _ ← assertM (negb (readOnly os));
  if cowKey sp =? copyOnWriteOwner os then Ret (p, h, sp)
  else
    newObjectState ← ObjectState__copy os;
    let '(p', h') := new_state h (with_owner (cowKey sp) newObjectState) in
    Ret (p', h', mkSpace (cowKey sp) (ITree.replace fst MemoryObjectLT null_pair (mo, p') (objects sp))).

(** ** Calls of external functions

    The concrete bytes are copied to where the program believes its objects to
    be, and back after the call.  [raw] is that memory. *)

Definition poke_bytes (raw : Z -> Z) (a : Z) (l : list Z) : Z -> Z := fun x =>
  if (a <=? x) && (x <? a + Z.of_nat (length l)) then default 0 (l !! Z.to_nat (x - a)) else raw x.

Definition peek_bytes (raw : Z -> Z) (a n : Z) : list Z := raw <$> seqZ a n.

(** The first [n] bytes of the concrete store. *)
Definition store_bytes_of (os : ObjectState) (n : Z) : outcome (list Z) :=
  if n <=? Z.of_nat (length (concreteStore os)) then Ret (take (Z.to_nat n) (concreteStore os))
  else Stop MemError.

Definition copyOutConcrete (raw : Z -> Z) (mo : MemoryObject) (os : ObjectState) : outcome (Z -> Z) :=
  l ← store_bytes_of os (mo_size mo); Ret (poke_bytes raw (address mo) l).

(** The objects in the order of the iterator. *)
Definition all_objects (sp : AddressSpace) : outcome (list ObjectPair) :=
  ITree.to_list null_pair (ITree.size (objects sp)) (objects sp).

Section External.
Variable pageSize : Z.

Fixpoint copy_out_loop (h : Heap) (l : list ObjectPair) (raw : Z -> Z) (numPages : Z)
    : outcome (Z * (Z -> Z)) :=
  match l with
  | [] => Ret (numPages, raw)
  | (mo, p) :: l =>
      os ← load_state h p;
      if negb (isUserSpecified mo) && negb (readOnly os) && negb (size os =? 0) then
        let sz := Z.max (size os) (alignment mo) in
        raw' ← copyOutConcrete raw mo os;
        copy_out_loop h l raw' (u64 (numPages + u64 (sz + pageSize - 1) / pageSize))
      else copy_out_loop h l raw numPages
  end.

Definition copyOutConcretes (h : Heap) (sp : AddressSpace) (raw : Z -> Z) : outcome (Z * (Z -> Z)) :=
  l ← all_objects sp; copy_out_loop h l raw 0.

(** [None] when a read-only object has changed. *)
Definition copyInConcrete (raw : Z -> Z) (h : Heap) (sp : AddressSpace) (mo : MemoryObject) (p : Z)
    (src_address : Z) : outcome (option (Heap * AddressSpace)) :=
  os ← load_state h p;
  l ← store_bytes_of os (mo_size mo);
  let bytes := peek_bytes raw src_address (mo_size mo) in
  if bool_decide (bytes = l) then Ret (Some (h, sp))
  else if readOnly os then Ret None
  else
    w ← getWriteable h sp mo p;
    let '(wp, h', sp') := w in
    wos ← load_state h' wp;
    Ret (Some (set_state h' wp (with_store (splice (concreteStore wos) 0 bytes) wos), sp')).

Fixpoint copy_in_loop (raw : Z -> Z) (h : Heap) (sp : AddressSpace) (l : list ObjectPair)
    : outcome (option (Heap * AddressSpace)) :=
  match l with
  | [] => Ret (Some (h, sp))
  | (mo, p) :: l =>
      if isUserSpecified mo then copy_in_loop raw h sp l
      else
        r ← copyInConcrete raw h sp mo p (address mo);
        match r with
        | None => Ret None
        | Some (h', sp') => copy_in_loop raw h' sp' l
        end
  end.

(** The loop runs over the map as it was at the start. *)
Definition copyInConcretes (raw : Z -> Z) (h : Heap) (sp : AddressSpace)
    : outcome (option (Heap * AddressSpace)) :=
  l ← all_objects sp; copy_in_loop raw h sp l.

End External.

(** ** Resolving an address *)

Definition resolveOne_constant (sp : AddressSpace) (addr : ConstantExpr) : outcome (option ObjectPair) :=
  a ← getZExtValue addr;
  Ret (match ITree.lookup_previous fst MemoryObjectLT (hack a) (objects sp) with
       | Some (mo, p) =>
           if ((mo_size mo =? 0) && (a =? address mo)) || (u64 (a - address mo) <? mo_size mo)
           then Some (mo, p) else None
       | None => None
       end).

Section Resolve.
Context `{ExprOptions} `{TargetContext} {S : Type} `{Solver S}.
(** The options of the queries, and the fuel of their simplification. *)
Variables (UseVisitorHash simplifyExprs : bool) (fuel : nat).
(** The path condition of the state. *)
Variable constraints : list Expr.

Abbreviation mustBeTrue := (TimingSolver__mustBeTrue UseVisitorHash simplifyExprs fuel constraints).
Abbreviation mayBeTrue := (TimingSolver__mayBeTrue UseVisitorHash simplifyExprs fuel constraints).
Abbreviation getValue := (TimingSolver__getValue UseVisitorHash simplifyExprs fuel constraints).

Definition address_below (p : Expr) (mo : MemoryObject) : outcome Expr :=
  base ← getBaseExpr mo; Binary__create Kind.Ult p base.

Definition address_above (p : Expr) (mo : MemoryObject) : outcome Expr :=
  base ← getBaseExpr mo; Binary__create Kind.Uge p base.

(** The backward search of [resolveOne]: it ends with an object, or because
    every object before this one is below the address. *)
Fixpoint resolveOne_back (n : nat) (p : Expr) (oi begin : ITree.iterator) : SM S (option ObjectPair) :=
  if ITree.iter_eq oi begin then mret None
  else
    match n with
    | O => lift (Stop OutOfFuel)
    | Datatypes.S n =>
        oi ← lift (ITree.decr oi);
        op ← lift (ITree.deref null_pair oi);
        inBounds ← lift (getBoundsCheckPointer op.1 p);
        may ← mayBeTrue inBounds;
        if may : bool then mret (Some op)
        else
          above ← lift (address_above p op.1);
          must ← mustBeTrue above;
          if must : bool then mret None else resolveOne_back n p oi begin
    end.

Fixpoint resolveOne_forward (n : nat) (p : Expr) (oi end_ : ITree.iterator) : SM S (option ObjectPair) :=
  if ITree.iter_eq oi end_ then mret None
  else
    match n with
    | O => lift (Stop OutOfFuel)
    | Datatypes.S n =>
        op ← lift (ITree.deref null_pair oi);
        below ← lift (address_below p op.1);
        must ← mustBeTrue below;
        if must : bool then mret None
        else
          inBounds ← lift (getBoundsCheckPointer op.1 p);
          may ← mayBeTrue inBounds;
          if may : bool then mret (Some op)
          else oi ← lift (ITree.incr oi); resolveOne_forward n p oi end_
    end.

(** The object is in front of the address: it has it among its bytes. *)
Definition example_in (example : Z) (op : ObjectPair) : bool :=
  u64 (example - address op.1) <? mo_size op.1.

(** The search around the first object above the example. *)
Definition resolveOne_search (sp : AddressSpace) (p : Expr) (example : Z) : SM S (option ObjectPair) :=
  start ← lift (ITree.upper_bound fst MemoryObjectLT null_pair (hack example) (objects sp));
  begin ← lift (ITree.begin (objects sp));
  end_ ← lift (ITree.end_ (objects sp));
  found ← resolveOne_back (ITree.size (objects sp)) p start begin;
  match found with
  | Some op => mret (Some op)
  | None => resolveOne_forward (ITree.size (objects sp)) p start end_
  end.

(** The result is the object; [return false] is a failure of the solver. *)
Definition resolveOne (sp : AddressSpace) (p : Expr) : SM S (option ObjectPair) :=
  match p with
  | Constant CE => lift (resolveOne_constant sp CE)
  | _ =>
      cex ← getValue p;
      example ← lift (getZExtValue cex);
      match ITree.lookup_previous fst MemoryObjectLT (hack example) (objects sp) with
      | Some op => if example_in example op then mret (Some op) else resolveOne_search sp p example
      | None => resolveOne_search sp p example
      end
  end.

(** The caller looks at whether the query succeeded. *)
Definition attempt {A} (m : SM S A) : SM S (option A) := fun s =>
  match m s with Ret (r, s') => Ret (Some r, s') | Stop e => Stop e end.

(** 1, 0 and 2 as in the code, with the list of results. *)
Definition checkPointerInObject (p : Expr) (op : ObjectPair) (rl : list ObjectPair) (maxResolutions : Z)
    : SM S (Z * list ObjectPair) :=
  inBounds ← lift (getBoundsCheckPointer op.1 p);
  may ← attempt (mayBeTrue inBounds);
  match may with
  | None => mret (1, rl)
  | Some false => mret (2, rl)
  | Some true =>
      let rl := rl ++ [op] in
      let size := Z.of_nat (length rl) in
      if size =? 1 then
        must ← attempt (mustBeTrue inBounds);
        mret (match must with None => 1 | Some true => 0 | Some false => 2 end, rl)
      else mret (if size =? maxResolutions then 1 else 2, rl)
  end.

(** What the timer says when an object is looked at. *)
Variable expired : ObjectPair -> bool.

(** Whether a loop of [resolve] returned, with its result, or went to its end. *)
Inductive outcome_of_loop : Type :=
  | Returned (incomplete : bool) (rl : list ObjectPair)
  | Continue (rl : list ObjectPair).

Fixpoint resolve_back (n : nat) (p : Expr) (oi begin : ITree.iterator) (rl : list ObjectPair)
    (maxResolutions : Z) : SM S outcome_of_loop :=
  if ITree.iter_eq oi begin then mret (Continue rl)
  else
    match n with
    | O => lift (Stop OutOfFuel)
    | Datatypes.S n =>
        oi ← lift (ITree.decr oi);
        op ← lift (ITree.deref null_pair oi);
        if expired op then mret (Returned true rl)
        else
          r ← checkPointerInObject p op rl maxResolutions;
          let '(incomplete, rl) := r in
          if negb (incomplete =? 2) then mret (Returned (nz incomplete) rl)
          else
            above ← lift (address_above p op.1);
            must ← attempt (mustBeTrue above);
            match must with
            | None => mret (Returned true rl)
            | Some true => mret (Continue rl)
            | Some false => resolve_back n p oi begin rl maxResolutions
            end
    end.

Fixpoint resolve_forward (n : nat) (p : Expr) (oi end_ : ITree.iterator) (rl : list ObjectPair)
    (maxResolutions : Z) : SM S outcome_of_loop :=
  if ITree.iter_eq oi end_ then mret (Continue rl)
  else
    match n with
    | O => lift (Stop OutOfFuel)
    | Datatypes.S n =>
        op ← lift (ITree.deref null_pair oi);
        if expired op then mret (Returned true rl)
        else
          below ← lift (address_below p op.1);
          must ← attempt (mustBeTrue below);
          match must with
          | None => mret (Returned true rl)
          | Some true => mret (Continue rl)
          | Some false =>
              r ← checkPointerInObject p op rl maxResolutions;
              let '(incomplete, rl) := r in
              if negb (incomplete =? 2) then mret (Returned (nz incomplete) rl)
              else oi ← lift (ITree.incr oi); resolve_forward n p oi end_ rl maxResolutions
          end
    end.

(** The search around the first object above the example. *)
Definition resolve_search (sp : AddressSpace) (p : Expr) (example : Z) (rl : list ObjectPair) (maxResolutions : Z)
    : SM S (bool * list ObjectPair) :=
  start ← lift (ITree.upper_bound fst MemoryObjectLT null_pair (hack example) (objects sp));
  begin ← lift (ITree.begin (objects sp));
  end_ ← lift (ITree.end_ (objects sp));
  back ← resolve_back (ITree.size (objects sp)) p start begin rl maxResolutions;
  match back with
  | Returned incomplete rl => mret (incomplete, rl)
  | Continue rl =>
      forward ← resolve_forward (ITree.size (objects sp)) p start end_ rl maxResolutions;
      mret (match forward with Returned incomplete rl => (incomplete, rl) | Continue rl => (false, rl) end)
  end.

(** Whether the resolution is incomplete, and the objects. *)
Definition resolve (sp : AddressSpace) (p : Expr) (rl : list ObjectPair) (maxResolutions : Z)
    : SM S (bool * list ObjectPair) :=
  match p with
  | Constant CE =>
      res ← lift (resolveOne_constant sp CE);
      mret (false, match res with Some op => rl ++ [op] | None => rl end)
  | _ =>
      cex ← attempt (getValue p);
      match cex with
      | None => mret (true, rl)
      | Some cex =>
          example ← lift (getZExtValue cex);
          resolve_search sp p example rl maxResolutions
      end
  end.

End Resolve.
