(* ===== verification/AddressSpaceShare.v ===== *)
(** * Copy on write

    Any number of states fork, allocate, free, read and write; all of them
    share one heap of object states through their address spaces.  The
    specification gives every state a memory of its own and copies it when the
    state forks; the address spaces are shown to refine it. *)

From stdpp Require Import sorting.
From S2P Require Import Prelude ImmutableTree ExprData ExprCreate ExprSem ExprBool ExprArith ExprBits ExprSpec Constraints Solver TimingSolver Memory MemorySpec MemoryBytes MemoryFrame MemoryValues MemoryObjects AddressSpace.

(** ** The map of an address space *)

Abbreviation bindings := ITree.elements.
Abbreviation map_ok := (ITree.wf fst MemoryObjectLT).

Lemma same_address (a b : MemoryObject) : ITree.key_equiv MemoryObjectLT a b = true <-> address a = address b.
Proof. rewrite ITree.key_equiv_true. unfold MemoryObjectLT. rewrite !Z.ltb_ge. lia. Qed.

Lemma other_address (a b : MemoryObject) : ITree.key_equiv MemoryObjectLT a b = false <-> address a <> address b.
Proof. rewrite <- same_address. by destruct (ITree.key_equiv _ a b). Qed.

Lemma elem_of_spec_replace (l : list ObjectPair) v x :
  StronglySorted (ITree.value_lt fst MemoryObjectLT) l ->
  x ∈ ITree.spec_replace fst MemoryObjectLT v l <-> x = v \/ (x ∈ l /\ address x.1 <> address v.1).
Proof.
  unfold ITree.value_lt, MemoryObjectLT. induction 1 as [|y l Hs IH Hy]; cbn [ITree.spec_replace]; [set_solver|].
  rewrite Forall_forall in Hy. unfold MemoryObjectLT in *.
  assert (Hl : forall z, z ∈ l -> address y.1 < address z.1) by (intros z Hz; apply Z.ltb_lt; auto).
  destruct (Z.ltb_spec (address v.1) (address y.1)).
  { rewrite !elem_of_cons. split; [|tauto]. intros [?|[?|Hx]]; [auto|subst; right; split; [auto|lia]|].
    right. specialize (Hl x Hx). split; [auto|lia]. }
  destruct (Z.ltb_spec (address y.1) (address v.1)); rewrite !elem_of_cons, ?IH.
  - split; [intros [->|[->|[? ?]]]; auto; right; split; [auto|lia]|]. tauto.
  - split; [intros [->|Hx]; auto; right; specialize (Hl x Hx); split; [auto|lia]|].
    intros [->|[[->|Hx] Hne]]; auto. lia.
Qed.

Lemma bindings_replace m v x :
  map_ok m ->
  x ∈ bindings (ITree.replace fst MemoryObjectLT null_pair v m) <->
  x = v \/ (x ∈ bindings m /\ address x.1 <> address v.1).
Proof. intros [Hb _]. rewrite ITree.elements_replace by (done || apply _). by apply elem_of_spec_replace. Qed.

Lemma bindings_remove m mo x :
  map_ok m ->
  x ∈ bindings (ITree.remove fst MemoryObjectLT null_pair mo m) <-> x ∈ bindings m /\ address x.1 <> address mo.
Proof.
  intros [Hb _]. rewrite ITree.elements_remove by (done || apply _). unfold ITree.spec_remove.
  rewrite list_elem_of_filter, other_address. naive_solver.
Qed.

Lemma replace_ok (m : MemoryMap) v : map_ok m -> map_ok (ITree.replace fst MemoryObjectLT null_pair v m).
Proof. apply (ITree.update_wf fst MemoryObjectLT null_pair (ITree.UReplace v)). Qed.

Lemma remove_ok (m : MemoryMap) mo : map_ok m -> map_ok (ITree.remove fst MemoryObjectLT null_pair mo m).
Proof. apply (ITree.update_wf (K:=MemoryObject) (V:=ObjectPair) fst MemoryObjectLT null_pair (ITree.URemove mo)). Qed.

(** One binding for an address. *)
Lemma bindings_unique (m : MemoryMap) x y : map_ok m -> x ∈ bindings m -> y ∈ bindings m -> address x.1 = address y.1 -> x = y.
Proof.
  intros [Hb _] Hx Hy. unfold ITree.bst in Hb. induction Hb as [|z l Hs IH Hz]; [by apply elem_of_nil in Hx|].
  rewrite Forall_forall in Hz. unfold ITree.value_lt, MemoryObjectLT in Hz.
  assert (Hl : forall y, y ∈ l -> address z.1 < address y.1) by (intros w Hw; apply Z.ltb_lt; auto).
  apply elem_of_cons in Hx as [->|Hx], Hy as [->|Hy]; auto.
  - intros E. specialize (Hl y Hy). lia.
  - intros E. specialize (Hl x Hx). lia.
Qed.

Lemma findObject_bound sp mo p : map_ok (objects sp) -> (mo, p) ∈ bindings (objects sp) -> findObject sp mo = Some p.
Proof.
  intros Hm Hin. unfold findObject. rewrite ITree.lookup_elements by (apply _ || apply Hm). unfold ITree.spec_lookup.
  assert (Hf : (mo, p) ∈ filter (fun x => ITree.key_equiv MemoryObjectLT mo (fst x) = true) (bindings (objects sp)))
    by (apply list_elem_of_filter; split; [by apply same_address|done]).
  destruct (filter _ _) as [|x l] eqn:E; [by apply elem_of_nil in Hf|]. simpl.
  assert (Hx : x ∈ filter (fun x => ITree.key_equiv MemoryObjectLT mo (fst x) = true) (bindings (objects sp)))
    by (rewrite E; left). apply list_elem_of_filter in Hx as [Ea%same_address Hx].
  by rewrite (bindings_unique _ x (mo, p) Hm Hx Hin (eq_sym Ea)).
Qed.

(** ** What states do with memory *)

(** [Constrain] adds to the path condition of a state; it is nothing to the
    address space. *)
Inductive step : Type :=
  | Fork (i : nat)
  | Constrain (i : nat) (P : assignment -> Prop)
  | Bind (i : nat) (mo : MemoryObject) (array : option Array)
  | Unbind (i : nat) (mo : MemoryObject)
  | ReadAt (i : nat) (mo : MemoryObject) (offset : Expr) (width : Z)
  | WriteAt (i : nat) (mo : MemoryObject) (offset value : Expr).

Record World : Type := mkWorld { world_heap : Heap; arrays : ArrayCache; spaces : list AddressSpace }.

Section Run.
Context `{ExprOptions} `{TargetContext}.
Variable UseConstantArrays : bool.

(** The part of [Executor::bindObjectInState] on memory. *)
Definition bindObjectInState (h : Heap) (ac : ArrayCache) (sp : AddressSpace) (mo : MemoryObject)
    (array : option Array) : outcome (Heap * ArrayCache * AddressSpace) :=
  r ← match array with
      | Some a => os ← ObjectState__symbolic mo a; Ret (os, ac)
      | None => ObjectState__new UseConstantArrays mo ac
      end;
  let '(p, h') := new_state h r.1 in
  b ← bindObject h' sp mo p;
  Ret (b.1, r.2, b.2).

(** A read inside an object, and a write, as [executeMemoryOperation] does
    them once the object is found. *)
Definition read_object (h : Heap) (ac : ArrayCache) (p : Z) (offset : Expr) (width : Z)
    : outcome (Expr * Heap * ArrayCache) :=
  os ← load_state h p;
  r ← read_at_offset os ac offset width;
  let '(e, os', ac') := r in
  Ret (e, set_state h p os', ac').

Definition write_object (h : Heap) (sp : AddressSpace) (mo : MemoryObject) (p : Z) (offset value : Expr)
    : outcome (Heap * AddressSpace) :=
  g ← getWriteable h sp mo p;
  let '(wp, h', sp') := g in
  wos ← load_state h' wp;
  wos' ← write_at_offset wos offset value;
  Ret (set_state h' wp wos', sp').

Definition exec (s : step) (w : World) : outcome (option Expr * World) :=
  let h := world_heap w in
  let ac := arrays w in
  match s with
  | Fork i =>
      sp ← of_option MemError (spaces w !! i);
      let '(b, c) := AddressSpace__copy sp in
      Ret (None, mkWorld h ac (<[i := b]> (spaces w) ++ [c]))
  | Constrain _ _ => Ret (None, w)
  | Bind i mo array =>
      sp ← of_option MemError (spaces w !! i);
      r ← bindObjectInState h ac sp mo array;
      let '(h', ac', sp') := r in
      Ret (None, mkWorld h' ac' (<[i := sp']> (spaces w)))
  | Unbind i mo =>
      sp ← of_option MemError (spaces w !! i);
      Ret (None, mkWorld h ac (<[i := unbindObject sp mo]> (spaces w)))
  | ReadAt i mo offset width =>
      sp ← of_option MemError (spaces w !! i);
      p ← of_option AssertFail (findObject sp mo);
      r ← read_object h ac p offset width;
      let '(e, h', ac') := r in
      Ret (Some e, mkWorld h' ac' (spaces w))
  | WriteAt i mo offset value =>
      sp ← of_option MemError (spaces w !! i);
      p ← of_option AssertFail (findObject sp mo);
      r ← write_object h sp mo p offset value;
      Ret (None, mkWorld r.1 ac (<[i := r.2]> (spaces w)))
  end.

Fixpoint run (script : list step) (w : World) : outcome (list Expr * World) :=
  match script with
  | [] => Ret ([], w)
  | s :: script =>
      r ← exec s w;
      rest ← run script r.2;
      Ret (option_list r.1 ++ rest.1, rest.2)
  end.

End Run.

(** The first state. *)
Definition first_world (ac : ArrayCache) : World := mkWorld (mkHeap ∅ 1) ac [AddressSpace__new].

(** ** The specification: a memory for each state *)

Definition content : Type := assignment -> Z -> Z.

(** The path condition of a state, and its objects by address, with their
    bytes. *)
Record Private : Type := mkPrivate { path : assignment -> Prop; memory : gmap Z (MemoryObject * content) }.

Section Specification.
Context `{ExprOptions} `{DivByZero} `{TargetContext}.

(** A value read, under the path condition of the reader. *)
Definition reading : Type := (assignment -> Prop) * (assignment -> Z).

Definition bytes_at (pr : Private) (mo : MemoryObject) : content :=
  match (memory pr !! address mo : option (MemoryObject * content)) with
  | Some (_, V) => V
  | None => fun _ _ => 0
  end.

Definition with_bytes (pr : Private) (mo : MemoryObject) (V : content) : Private :=
  mkPrivate (path pr) (<[address mo := (mo, V)]> (memory pr)).

Definition spec_exec (s : step) (ps : list Private) : option reading * list Private :=
  match s with
  | Fork i => (None, ps ++ option_list (ps !! i))
  | Constrain i P => (None, alter (fun pr => mkPrivate (fun rho => path pr rho /\ P rho) (memory pr)) i ps)
  | Bind i mo array =>
      let V := match array with Some a => fun rho j => array_value rho a j | None => fun _ _ => 0 end in
      (None, alter (fun pr => with_bytes pr mo V) i ps)
  | Unbind i mo => (None, alter (fun pr => mkPrivate (path pr) (delete (address mo) (memory pr))) i ps)
  | ReadAt i mo offset width =>
      (pr ← ps !! i; Some (path pr, fun rho => load (bytes_at pr mo rho) width (eval rho offset mod 2 ^ 32)), ps)
  | WriteAt i mo offset value =>
      (None, alter (fun pr => with_bytes pr mo (fun rho =>
         store (bytes_at pr mo rho) (getWidth value) (eval rho offset mod 2 ^ 32) (eval rho value))) i ps)
  end.

Fixpoint spec_run (script : list step) (ps : list Private) : list reading :=
  match script with
  | [] => []
  | s :: script => option_list (spec_exec s ps).1 ++ spec_run script (spec_exec s ps).2
  end.

(** What a state may do: it exists, and it accesses an object it has inside
    its bounds under its own path condition. *)
Definition step_valid (s : step) (ps : list Private) : Prop :=
  match s with
  | Fork i | Constrain i _ | Unbind i _ => is_Some (ps !! i)
  | Bind i mo array =>
      is_Some (ps !! i) /\ 0 <= mo_size mo /\ mo_size mo + 31 < 2 ^ 32 /\
      forall a, array = Some a -> array_ok (mo_size mo) a
  | ReadAt i mo offset width =>
      exists pr (V : content), ps !! i = Some pr /\ memory pr !! address mo = Some (mo, V) /\
        access_valid (path pr) (mo_size mo) (Load offset width)
  | WriteAt i mo offset value =>
      exists pr (V : content), ps !! i = Some pr /\ memory pr !! address mo = Some (mo, V) /\
        access_valid (path pr) (mo_size mo) (Store offset value)
  end.

Fixpoint script_valid (script : list step) (ps : list Private) : Prop :=
  match script with
  | [] => True
  | s :: script => step_valid s ps /\ script_valid script (spec_exec s ps).2
  end.

(** The expression has the value, wherever the reader may be. *)
Definition reads_as (e : Expr) (r : reading) : Prop := forall rho, r.1 rho -> eval rho e = r.2 rho.

End Specification.

Lemma alter_insert {A} (f : A -> A) i x (l : list A) : l !! i = Some x -> alter f i l = <[i := f x]> l.
Proof. revert i. induction l as [|y l IH]; intros [|i] E; simplify_eq/=; [done|]. f_equal. by apply IH. Qed.

(** ** The invariant *)

Definition holds_state (sp : AddressSpace) (p : Z) : Prop := exists mo, (mo, p) ∈ bindings (objects sp).

Section Invariant.
Context `{ExprOptions} `{DivByZero} `{TargetContext}.

(** The object state of a binding. *)
Record bound_ok (key : Z) (pr : Private) (mo : MemoryObject) (V : content) (os : ObjectState) : Prop := {
  bd_memory : memory pr !! address mo = Some (mo, V);
  bd_bytes : object_ok (path pr) V os;
  bd_owner : 1 <= copyOnWriteOwner os <= key;
  bd_object : object os = mo;
  bd_size : size os = mo_size mo;
  bd_writable : readOnly os = false
}.

(** An address space stands for a memory; [n] bounds its key. *)
Record space_ok (st : gmap Z ObjectState) (n : Z) (sp : AddressSpace) (pr : Private) : Prop := {
  so_key : 1 <= cowKey sp <= n;
  so_map : map_ok (objects sp);
  so_bound : forall mo p, (mo, p) ∈ bindings (objects sp) ->
    exists os V, st !! p = Some os /\ bound_ok (cowKey sp) pr mo V os;
  so_memory : forall a mo V, memory pr !! a = Some (mo, V) ->
    address mo = a /\ exists p, (mo, p) ∈ bindings (objects sp)
}.

(** No address space owns an object state that another one has, too. *)
Record world_ok (w : World) (ps : list Private) (n : Z) : Prop := {
  wo_arrays : cache_ok (arrays w);
  wo_spaces : Forall2 (space_ok (states (world_heap w)) n) (spaces w) ps;
  wo_fresh : forall p, is_Some (states (world_heap w) !! p) -> p < next_state (world_heap w);
  wo_shared : forall i j sp1 sp2 p os, i <> j -> spaces w !! i = Some sp1 -> spaces w !! j = Some sp2 ->
    holds_state sp1 p -> holds_state sp2 p -> states (world_heap w) !! p = Some os ->
    copyOnWriteOwner os < cowKey sp1
}.

(** An object state that may stand for another, under every path condition. *)
Record as_good (os os' : ObjectState) : Prop := {
  ag_kept : kept os os';
  ag_bytes : forall D V, object_ok D V os -> object_ok D V os'
}.

Lemma as_good_refl os : as_good os os.
Proof. split; [apply kept_refl|auto]. Qed.

Lemma bound_ok_as_good key pr mo V os os' : as_good os os' -> bound_ok key pr mo V os -> bound_ok key pr mo V os'.
Proof. intros [[K1 K2 K3 K4] Hb] []. split; rewrite ?K1, ?K2, ?K3, ?K4; auto. Qed.

Lemma space_ok_heap st st' n n' sp pr :
  n <= n' ->
  (forall p os, holds_state sp p -> st !! p = Some os -> exists os', st' !! p = Some os' /\ as_good os os') ->
  space_ok st n sp pr -> space_ok st' n' sp pr.
Proof.
  intros Hn Hst [K M B Y]. split; auto; [lia|]. intros mo p Hin. destruct (B mo p Hin) as (os & V & E & Hb).
  destruct (Hst p os) as (os' & E' & Hg); [by exists mo|done|]. exists os', V. split; [done|]. by apply (bound_ok_as_good _ _ _ _ os).
Qed.

Lemma space_of w ps n i pr :
  world_ok w ps n -> ps !! i = Some pr ->
  exists sp, spaces w !! i = Some sp /\ space_ok (states (world_heap w)) n sp pr.
Proof. intros Hw Hp. destruct (Forall2_lookup_r _ _ _ _ _ (wo_spaces _ _ _ Hw) Hp) as (sp & E & Hs). eauto. Qed.

(** A state takes a memory object of its own. *)
Record installs (w w' : World) (i : nat) (sp : AddressSpace) (mo : MemoryObject) (p : Z) (os : ObjectState) : Prop := {
  in_key : exists m, spaces w' = <[i := mkSpace (cowKey sp) m]> (spaces w) /\ map_ok m /\
    forall x, x ∈ bindings m <-> x = (mo, p) \/ (x ∈ bindings (objects sp) /\ address x.1 <> address mo);
  in_heap : states (world_heap w') = <[p := os]> (states (world_heap w));
  in_next : next_state (world_heap w) <= next_state (world_heap w') /\ p < next_state (world_heap w');
  in_alone : forall j sp', spaces w !! j = Some sp' -> holds_state sp' p -> j = i;
  in_same : forall mo', (mo', p) ∈ bindings (objects sp) -> mo' = mo;
  in_owner : copyOnWriteOwner os = cowKey sp
}.

Lemma installs_ok w w' ps n i sp pr mo (V : content) p os :
  world_ok w ps n -> spaces w !! i = Some sp -> ps !! i = Some pr -> installs w w' i sp mo p os ->
  cache_ok (arrays w') -> object_ok (path pr) V os -> object os = mo -> size os = mo_size mo -> readOnly os = false ->
  world_ok w' (<[i := with_bytes pr mo V]> ps) n.
Proof.
  intros [WA WS WF WH] Ei Ep [(m & Esp & Hm & Hin) Hh Hnext Halone Hsame Hown] Hac Hos Eo Es Er.
  assert (Hsp : space_ok (states (world_heap w)) n sp pr) by (by eapply Forall2_lookup_lr).
  assert (Hold : forall q, q <> p -> states (world_heap w') !! q = states (world_heap w) !! q)
    by (intros q Hq; by rewrite Hh, lookup_insert_ne).
  split; auto.
  - rewrite Esp. pose proof (Forall2_lookup_lr _ _ _ _ _ _ WS Ei Ep) as [K M B Y].
    apply Forall2_same_length_lookup. split; [rewrite !length_insert; by eapply Forall2_length|].
    intros j sj pj Hj Hpj. apply list_lookup_insert_Some in Hj. apply list_lookup_insert_Some in Hpj.
    destruct Hj as [(<- & <- & _)|[Hne Hj]], Hpj as [(E & <- & _)|[Hne' Hpj]]; try congruence.
    + split; simpl; auto.
      * intros mo' q [[= -> ->]|[Hq Hne]]%Hin.
        -- exists os, V. rewrite Hh, lookup_insert_eq. split; [done|]. split; simpl; auto; [by rewrite lookup_insert_eq|lia].
        -- simpl in Hne. assert (q <> p) by (intros ->; apply Hne; by rewrite (Hsame mo')).
           destruct (B mo' q Hq) as (os' & V' & E' & [B1 B2 B3 B4 B5 B6]). exists os', V'. rewrite Hold by done.
           split; [done|]. split; simpl; auto. by rewrite lookup_insert_ne.
      * intros a mo' V' [[<- [= <- <-]]|[Hne HY]]%lookup_insert_Some.
        { split; [done|]. exists p. apply Hin. by left. }
        destruct (Y a mo' V' HY) as [<- [q Hq]]. split; [done|]. exists q. apply Hin. right. by split.
    + apply (space_ok_heap (states (world_heap w)) _ n); [reflexivity| |exact (Forall2_lookup_lr _ _ _ _ _ _ WS Hj Hpj)].
      intros q os' Hq Eq. exists os'. split; [|apply as_good_refl]. rewrite Hold; [done|]. intros ->.
      by specialize (Halone j sj Hj Hq).
  - intros q [os' Eq]. rewrite Hh in Eq. apply lookup_insert_Some in Eq as [[<- _]|[_ Eq]]; [lia|].
    specialize (WF q (ex_intro _ _ Eq)). lia.
  - intros j k s1 s2 q os' Hne H1' H2' Q1 Q2 Eq. rewrite Esp in H1', H2'.
    rewrite list_lookup_insert_Some in H1', H2'.
    destruct (decide (q = p)) as [->|Hqp].
    + exfalso. destruct H1' as [(<- & <- & _)|[Hj H1']], H2' as [(<- & <- & _)|[Hk H2']]; try done.
      * by specialize (Halone k s2 H2' Q2).
      * by specialize (Halone j s1 H1' Q1).
      * pose proof (Halone j s1 H1' Q1). by subst.
    + rewrite Hold in Eq by done.
      assert (Hold' : holds_state (mkSpace (cowKey sp) m) q -> holds_state sp q).
      { intros [mo' [[= -> ->]|[Hq _]]%Hin]; [done|by exists mo']. }
      destruct H1' as [(<- & <- & _)|[Hj H1']], H2' as [(<- & <- & _)|[Hk H2']]; try done.
      * apply (WH i k sp s2 q os'); auto.
      * apply (WH j i s1 sp q os'); auto.
      * apply (WH j k s1 s2 q os'); auto.
Qed.

(** ** Each step keeps it *)

Lemma fork_ok w ps n i sp pr :
  world_ok w ps n -> n + 1 < 2 ^ 32 -> spaces w !! i = Some sp -> ps !! i = Some pr ->
  let '(b, c) := AddressSpace__copy sp in
  world_ok (mkWorld (world_heap w) (arrays w) (<[i := b]> (spaces w) ++ [c])) (ps ++ [pr]) (n + 1).
Proof.
  intros [WA WS WF WH] Hn Ei Ep. pose proof (Forall2_lookup_lr _ _ _ _ _ _ WS Ei Ep) as Hsp.
  pose proof (so_key _ _ _ _ Hsp) as Hk. unfold AddressSpace__copy, u32. rewrite wrapU_small by lia.
  set (b := mkSpace (cowKey sp + 1) (objects sp)).
  assert (Hb : space_ok (states (world_heap w)) (n + 1) b pr).
  { destruct Hsp as [_ M B Y]. split; simpl; auto; [lia|]. intros mo p Hin.
    destruct (B mo p Hin) as (os & V & E & []). exists os, V. split; [done|]. split; auto. lia. }
  assert (Hfrom : forall k s, (<[i := b]> (spaces w) ++ [b]) !! k = Some s -> exists k0 s0,
    spaces w !! k0 = Some s0 /\ objects s = objects s0 /\
    ((k0 = k /\ k <> i /\ s = s0) \/ (k0 = i /\ cowKey s = cowKey s0 + 1))).
  { intros k s [Hk'|[_ Hk']]%lookup_app_Some.
    - apply list_lookup_insert_Some in Hk' as [(<- & <- & _)|[? Hk']];
        [exists i, sp; auto|exists k, s; auto 8].
    - apply list_lookup_singleton_Some in Hk' as [_ <-]. exists i, sp. auto. }
  split; simpl; auto.
  - apply Forall2_app; [|by constructor]. rewrite <- (list_insert_id ps i pr) by done.
    apply Forall2_insert; [|done]. eapply Forall2_impl; [exact WS|]. intros s pr' Hs.
    apply (space_ok_heap (states (world_heap w)) _ n); [lia| |done]. intros q os _ E. exists os. split; [done|apply as_good_refl].
  - intros k l s1 s2 p os Hne H1' H2' [m1 Q1] [m2 Q2] E.
    destruct (Hfrom k s1 H1') as (k0 & t1 & F1 & O1 & C1), (Hfrom l s2 H2') as (l0 & t2 & F2 & O2 & C2).
    rewrite O1 in Q1. rewrite O2 in Q2. destruct (decide (k0 = l0)) as [->|Hkl].
    + assert (Et : t1 = t2) by congruence. subst t2.
      assert (Ek : l0 = i /\ cowKey s1 = cowKey t1 + 1).
      { destruct C1 as [(? & ? & _)|[? ?]], C2 as [(? & ? & _)|[? ?]]; split; congruence. }
      destruct Ek as [-> ->]. assert (Et : t1 = sp) by congruence. subst t1.
      destruct (so_bound _ _ _ _ Hsp m1 p Q1) as (os' & V & E' & [_ _ Ho _ _ _]).
      replace os' with os in Ho by congruence. lia.
    + assert (copyOnWriteOwner os < cowKey t1) by (apply (WH k0 l0 t1 t2 p os); auto; [by exists m1|by exists m2]).
      destruct C1 as [(_ & _ & ->)|[_ ->]]; lia.
Qed.

Lemma constrain_ok w ps n i pr P :
  world_ok w ps n -> ps !! i = Some pr ->
  world_ok w (<[i := mkPrivate (fun rho => path pr rho /\ P rho) (memory pr)]> ps) n.
Proof.
  intros [WA WS WF WH] Ep. split; auto. destruct (Forall2_lookup_r _ _ _ _ _ WS Ep) as (sp & Ei & [K M B Y]).
  rewrite <- (list_insert_id (spaces w) i sp) by done. apply Forall2_insert; [done|]. split; auto.
  intros mo p Hin. destruct (B mo p Hin) as (os & V & E & []). exists os, V. split; [done|]. split; auto.
  simpl. apply (object_ok_mono (path pr)); [by intros rho []|done].
Qed.

Lemma unbind_ok w ps n i sp pr mo :
  world_ok w ps n -> spaces w !! i = Some sp -> ps !! i = Some pr ->
  world_ok (mkWorld (world_heap w) (arrays w) (<[i := unbindObject sp mo]> (spaces w)))
    (<[i := mkPrivate (path pr) (delete (address mo) (memory pr))]> ps) n.
Proof.
  intros [WA WS WF WH] Ei Ep. pose proof (Forall2_lookup_lr _ _ _ _ _ _ WS Ei Ep) as [K M B Y]. split; simpl; auto.
  - apply Forall2_insert; [done|]. split; simpl; auto using remove_ok.
    + intros mo' p [Hin Hne]%bindings_remove; [|done]. destruct (B mo' p Hin) as (os & V & E & []).
      exists os, V. split; [done|]. split; simpl; auto. by rewrite lookup_delete_ne by (simpl in *; congruence).
    + intros a mo' V [Hne HY]%lookup_delete_Some. destruct (Y a mo' V HY) as [<- [p Hp]].
      split; [done|]. exists p. apply bindings_remove; [done|]. split; [done|]. simpl. congruence.
  - intros j k s1 s2 p os Hne H1' H2' Q1 Q2 E.
    assert (Hsub : holds_state (unbindObject sp mo) p -> holds_state sp p)
      by (intros [mo' [Hin _]%bindings_remove]; [by exists mo'|done]).
    apply list_lookup_insert_Some in H1', H2'.
    destruct H1' as [(<- & <- & _)|[Hj H1']], H2' as [(<- & <- & _)|[Hk H2']]; try done; simpl.
    + apply (WH i k sp s2 p os); auto.
    + apply (WH j i s1 sp p os); auto.
    + apply (WH j k s1 s2 p os); auto.
Qed.

Lemma with_owner_ok D V k os : object_ok D V os -> object_ok D V (with_owner k os).
Proof.
  intros [[] [] Hb]. split; [by split|by split|]. intros j Hj. by apply (byte_ok_ext D V V os); auto.
Qed.

(** Nobody has the next object state. *)
Lemma fresh_state w ps n i sp p :
  world_ok w ps n -> spaces w !! i = Some sp -> holds_state sp p -> p <> next_state (world_heap w).
Proof.
  intros [_ WS WF _] Ei [mo Hin] ->. destruct (Forall2_lookup_l _ _ _ _ _ WS Ei) as (pr & _ & [_ _ B _]).
  destruct (B _ _ Hin) as (os & V & E & _). specialize (WF _ (ex_intro _ _ E)). lia.
Qed.

(** A state takes a new object state for an object. *)
Lemma installs_new w ps n i sp mo os ac' :
  world_ok w ps n -> spaces w !! i = Some sp -> map_ok (objects sp) -> copyOnWriteOwner os = cowKey sp ->
  let p := next_state (world_heap w) in
  installs w (mkWorld (mkHeap (<[p := os]> (states (world_heap w))) (p + 1)) ac'
      (<[i := mkSpace (cowKey sp) (ITree.replace fst MemoryObjectLT null_pair (mo, p) (objects sp))]> (spaces w)))
    i sp mo p os.
Proof.
  intros Hw Ei Hm Ho p. split; simpl; auto.
  - eexists. split; [done|]. split; [by apply replace_ok|]. intros x. by rewrite bindings_replace.
  - lia.
  - intros j s Hj Hs. by destruct (fresh_state w ps n j s p Hw Hj Hs).
  - intros mo' Hin. exfalso. apply (fresh_state w ps n i sp p Hw Ei); [by exists mo'|done].
Qed.

(** A new object state has no owner. *)
Lemma new_object_ok D u mo ac array :
  0 <= mo_size mo -> mo_size mo + 31 < 2 ^ 32 -> (forall a, array = Some a -> array_ok (mo_size mo) a) -> cache_ok ac ->
  exists os ac',
    match array with
    | Some a => os ← ObjectState__symbolic mo a; Ret (os, ac)
    | None => ObjectState__new u mo ac
    end = Ret (os, ac') /\ cache_ok ac' /\ kept (blank_object mo None) os /\
    object_ok D (match array with Some a => fun rho j => array_value rho a j | None => fun _ _ => 0 end) os.
Proof.
  intros Hge Hsz Ha Hac. destruct array as [a|].
  - destruct (ObjectState__symbolic_ok D mo a Hge Hsz (Ha a eq_refl)) as (os & E & Hos & _).
    exists os, ac. rewrite E. split_and!; auto. apply makeSymbolic_kept in E. destruct E. by split.
  - destruct (ObjectState__new_ok D u mo ac Hge Hsz Hac) as (os & ac' & E & Hos & _ & Hac').
    exists os, ac'. split_and!; auto. unfold ObjectState__new in E. destruct u; returned; by split.
Qed.

Lemma bind_ok u w ps n i sp pr mo array :
  world_ok w ps n -> spaces w !! i = Some sp -> ps !! i = Some pr ->
  0 <= mo_size mo -> mo_size mo + 31 < 2 ^ 32 -> (forall a, array = Some a -> array_ok (mo_size mo) a) ->
  exists h ac' sp', bindObjectInState u (world_heap w) (arrays w) sp mo array = Ret (h, ac', sp') /\
    world_ok (mkWorld h ac' (<[i := sp']> (spaces w)))
      (<[i := with_bytes pr mo (match array with Some a => fun rho j => array_value rho a j | None => fun _ _ => 0 end)]> ps) n.
Proof.
  intros Hw Ei Ep Hge Hsz Ha. pose proof Hw as [WA WS WF WH].
  destruct (new_object_ok (path pr) u mo (arrays w) array Hge Hsz Ha WA) as (os & ac' & E & Hac & [K1 K2 K3 K4] & Hos).
  unfold bindObjectInState. rewrite E. cbn [mbind outcome_bind fst snd new_state]. unfold bindObject, load_state. cbn [states].
  rewrite lookup_insert_eq. cbn [of_option mbind outcome_bind]. rewrite K1. cbn [blank_object copyOnWriteOwner Z.eqb assertM mbind outcome_bind fst snd].
  eexists _, _, _. split; [done|].
  pose proof (Forall2_lookup_lr _ _ _ _ _ _ WS Ei Ep) as [_ M _ _]. unfold set_state. simpl. rewrite insert_insert_eq.
  apply (installs_ok w _ ps n i sp pr mo _ (next_state (world_heap w)) (with_owner (cowKey sp) os)); auto using with_owner_ok.
  by apply (installs_new w ps n).
Qed.

Lemma read_ok_step w ps n i sp pr mo (V : content) offset width :
  world_ok w ps n -> spaces w !! i = Some sp -> ps !! i = Some pr -> memory pr !! address mo = Some (mo, V) ->
  access_valid (path pr) (mo_size mo) (Load offset width) ->
  exists p e h ac, findObject sp mo = Some p /\
    read_object (world_heap w) (arrays w) p offset width = Ret (e, h, ac) /\
    reads_as e (path pr, fun rho => load (V rho) width (eval rho offset mod 2 ^ 32)) /\
    world_ok (mkWorld h ac (spaces w)) ps n.
Proof.
  intros [WA WS WF WH] Ei Ep Em [Hw Ho]. pose proof (Forall2_lookup_lr _ _ _ _ _ _ WS Ei Ep) as [_ M B Y].
  destruct (Y _ mo V Em) as [_ [p Hin]]. destruct (B mo p Hin) as (os & V' & E & [B1 B2 _ _ B5 _]).
  rewrite Em in B1. injection B1 as <-. unfold offset_valid in Ho. rewrite <- B5 in Ho.
  destruct (read_at_offset_ok (path pr) V os (arrays w) offset width _ B2 WA Hw Ho)
    as (e & os' & ac' & Er & He & _ & _ & Hac').
  exists p, e, (set_state (world_heap w) p os'), ac'. unfold read_object, load_state. rewrite E.
  cbn [of_option mbind outcome_bind]. rewrite Er.
  split_and!; [by apply findObject_bound|done|intros rho HD; by apply (den_eval _ _ _ _ He)|].
  assert (Hg : as_good os os').
  { split; [by eapply read_at_offset_kept|]. intros D V0 Hos.
    by destruct (read_at_offset_intact D V0 os (arrays w) offset width e os' ac' Er (conj Hos WA)). }
  assert (Hst : forall q os1, states (world_heap w) !! q = Some os1 ->
    exists os2, <[p := os']> (states (world_heap w)) !! q = Some os2 /\ as_good os1 os2).
  { intros q os1 Eq. destruct (decide (q = p)) as [->|].
    - exists os'. rewrite lookup_insert_eq. split; [done|]. by replace os1 with os by congruence.
    - exists os1. rewrite lookup_insert_ne by done. split; [done|apply as_good_refl]. }
  split; simpl; auto.
  - eapply Forall2_impl; [exact WS|]. intros s pr'. apply space_ok_heap; [lia|auto].
  - intros q [os1 [[<- _]|[_ Eq]]%lookup_insert_Some]; [|eauto]. apply WF. eauto.
  - intros j k s1 s2 q os1 Hne H1' H2' Q1 Q2 [[<- <-]|[_ Eq]]%lookup_insert_Some; [|by apply (WH j k s1 s2 q)].
    rewrite (kept_owner _ _ (ag_kept _ _ Hg)). by apply (WH j k s1 s2 p).
Qed.

Lemma write_ok_step w ps n i sp pr mo (V : content) offset value :
  world_ok w ps n -> spaces w !! i = Some sp -> ps !! i = Some pr -> memory pr !! address mo = Some (mo, V) ->
  access_valid (path pr) (mo_size mo) (Store offset value) ->
  exists p h sp', findObject sp mo = Some p /\
    write_object (world_heap w) sp mo p offset value = Ret (h, sp') /\
    world_ok (mkWorld h (arrays w) (<[i := sp']> (spaces w)))
      (<[i := with_bytes pr mo (fun rho =>
         store (V rho) (getWidth value) (eval rho offset mod 2 ^ 32) (eval rho value))]> ps) n.
Proof.
  intros Hw Ei Ep Em (Hwf & Hinb & Haw & Ho). pose proof Hw as [WA WS WF WH].
  pose proof (Forall2_lookup_lr _ _ _ _ _ _ WS Ei Ep) as [_ M B Y].
  destruct (Y _ mo V Em) as [_ [p Hin]]. destruct (B mo p Hin) as (os & V' & E & [B1 B2 B3 B4 B5 B6]).
  rewrite Em in B1. injection B1 as <-. unfold offset_valid in Ho. rewrite <- B5 in Ho.
  exists p. unfold write_object, getWriteable, load_state. rewrite E. cbn [of_option mbind outcome_bind].
  rewrite B6. cbn [mbind outcome_bind negb assertM].
  destruct (Z.eqb_spec (cowKey sp) (copyOnWriteOwner os)) as [Eo|Eo].
  - cbn [mbind outcome_bind]. rewrite E. cbn [of_option mbind outcome_bind].
    destruct (write_at_offset_ok (path pr) V os offset _ _ _ value B2 Haw Ho (denotes_self _ value Hwf Hinb))
      as (os' & Ew & _ & Hos'). rewrite Ew. cbn [mbind outcome_bind].
    eexists _, _. split_and!; [by apply findObject_bound|done|].
    apply write_at_offset_kept in Ew as [K1 K2 K3 K4].
    apply (installs_ok w _ ps n i sp pr mo _ p os'); auto; try congruence. split; simpl; auto; try congruence.
    + exists (objects sp). split; [by destruct sp|]. split; [done|]. intros x. split.
      * intros Hx. destruct (decide (address x.1 = address mo)) as [Ea|]; [left|by right].
        by apply (bindings_unique (objects sp)).
      * intros [->|[? _]]; done.
    + split; [lia|]. apply WF. eauto.
    + intros j s Hj Hs. destruct (decide (j = i)) as [|Hne]; [done|]. exfalso.
      assert (copyOnWriteOwner os < cowKey sp) by (apply (WH i j sp s p os); auto; by exists mo). lia.
    + intros mo' Hin'. destruct (B mo' p Hin') as (os2 & V2 & E2 & [_ _ _ B4' _ _]). congruence.
  - destruct (ObjectState__copy_ok (path pr) V os B2 B6) as (os1 & Ec & Hos1 & Esz). rewrite Ec.
    cbn [mbind outcome_bind new_state states]. rewrite lookup_insert_eq. cbn [of_option mbind outcome_bind].
    apply (with_owner_ok _ _ (cowKey sp)) in Hos1. rewrite <- Esz in Ho.
    destruct (write_at_offset_ok (path pr) V _ offset _ _ _ value Hos1 Haw Ho (denotes_self _ value Hwf Hinb))
      as (os' & Ew & _ & Hos'). rewrite Ew. cbn [mbind outcome_bind].
    eexists _, _. split_and!; [by apply findObject_bound|done|]. unfold set_state. simpl. rewrite insert_insert_eq.
    apply write_at_offset_kept in Ew as [K1 K2 K3 K4]. unfold ObjectState__copy in Ec. rewrite B6 in Ec.
    injection Ec as <-. simpl in *.
    apply (installs_ok w _ ps n i sp pr mo _ (next_state (world_heap w)) os'); auto; try congruence.
    by apply (installs_new w ps n).
Qed.

Lemma world_ok_more w ps n n' : n <= n' -> world_ok w ps n -> world_ok w ps n'.
Proof.
  intros Hn [WA WS WF WH]. split; auto. eapply Forall2_impl; [exact WS|]. intros s pr.
  apply space_ok_heap; [done|]. intros q os _ E. exists os. split; [done|apply as_good_refl].
Qed.

Lemma bytes_at_bound pr mo (V : content) : memory pr !! address mo = Some (mo, V) -> bytes_at pr mo = V.
Proof. unfold bytes_at. by intros ->. Qed.

(** Every valid step is taken, reads what the specification reads, and keeps
    the invariant. *)
Lemma exec_ok u s w ps n :
  world_ok w ps n -> n + 1 < 2 ^ 32 -> step_valid s ps ->
  exists r w', exec u s w = Ret (r, w') /\ world_ok w' (spec_exec s ps).2 (n + 1) /\
    Forall2 reads_as (option_list r) (option_list (spec_exec s ps).1).
Proof.
  intros Hw Hn Hv.
  enough (exists r w', exec u s w = Ret (r, w') /\
    (world_ok w' (spec_exec s ps).2 n \/ world_ok w' (spec_exec s ps).2 (n + 1)) /\
    Forall2 reads_as (option_list r) (option_list (spec_exec s ps).1)) as (r & w' & ? & [Hn'|?] & ?).
  1,2: exists r, w'; split_and!; auto; by apply (world_ok_more _ _ n); [lia|].
  destruct s as [i|i P|i mo array|i mo|i mo offset width|i mo offset value]; cbn [step_valid exec spec_exec fst snd] in *.
  - destruct Hv as [pr Ep]. destruct (space_of _ _ _ _ _ Hw Ep) as (sp & Ei & _). rewrite Ei, Ep.
    pose proof (fork_ok w ps n i sp pr Hw Hn Ei Ep) as Hf. cbn [of_option mbind outcome_bind].
    destruct (AddressSpace__copy sp) as [b c]. eexists _, _. split; [done|]. split; [by right|constructor].
  - destruct Hv as [pr Ep]. eexists _, _. split; [done|]. split; [left|constructor].
    rewrite (alter_insert _ _ pr) by done. by apply constrain_ok.
  - destruct Hv as ([pr Ep] & Hge & Hsz & Ha). destruct (space_of _ _ _ _ _ Hw Ep) as (sp & Ei & _). rewrite Ei.
    destruct (bind_ok u w ps n i sp pr mo array Hw Ei Ep Hge Hsz Ha) as (h & ac' & sp' & E & Hok).
    cbn [of_option mbind outcome_bind]. rewrite E. eexists _, _. split; [done|]. split; [left|constructor].
    by rewrite (alter_insert _ _ pr).
  - destruct Hv as [pr Ep]. destruct (space_of _ _ _ _ _ Hw Ep) as (sp & Ei & _). rewrite Ei.
    eexists _, _. split; [done|]. split; [left|constructor]. rewrite (alter_insert _ _ pr) by done. by apply unbind_ok.
  - destruct Hv as (pr & V & Ep & Em & Hv). destruct (space_of _ _ _ _ _ Hw Ep) as (sp & Ei & _). rewrite Ei, Ep.
    destruct (read_ok_step w ps n i sp pr mo V offset width Hw Ei Ep Em Hv) as (p & e & h & ac & Ef & Er & He & Hok).
    cbn [of_option mbind outcome_bind]. rewrite Ef. cbn [of_option mbind outcome_bind]. rewrite Er.
    eexists _, _. split; [done|]. split; [by left|]. repeat constructor. by rewrite (bytes_at_bound pr mo V).
  - destruct Hv as (pr & V & Ep & Em & Hv). destruct (space_of _ _ _ _ _ Hw Ep) as (sp & Ei & _). rewrite Ei.
    destruct (write_ok_step w ps n i sp pr mo V offset value Hw Ei Ep Em Hv) as (p & h & sp' & Ef & Ew & Hok).
    cbn [of_option mbind outcome_bind]. rewrite Ef. cbn [of_option mbind outcome_bind]. rewrite Ew.
    eexists _, _. split; [done|]. split; [left|constructor]. rewrite (alter_insert _ _ pr) by done.
    by rewrite (bytes_at_bound pr mo V).
Qed.

Lemma run_ok u script : forall w ps n,
  world_ok w ps n -> n + Z.of_nat (length script) < 2 ^ 32 -> script_valid script ps ->
  exists es w', run u script w = Ret (es, w') /\ Forall2 reads_as es (spec_run script ps).
Proof.
  induction script as [|s script IH]; intros w ps n Hw Hn Hv; cbn [run spec_run script_valid] in *.
  { exists [], w. split; [done|constructor]. }
  destruct Hv as [Hs Hv]. simpl length in Hn.
  destruct (exec_ok u s w ps n Hw) as (r & w1 & E & Hw1 & Hr); [lia|done|]. rewrite E. cbn [mbind outcome_bind fst snd].
  destruct (IH w1 _ (n + 1) Hw1) as (es & w2 & E2 & Hes); [lia|done|]. rewrite E2. cbn [mbind outcome_bind fst snd].
  eexists _, _. split; [done|]. by apply Forall2_app.
Qed.

(** The memory of the first state, with any path condition. *)
Definition first_memory (D : assignment -> Prop) : list Private := [mkPrivate D ∅].

Lemma first_world_ok ac D : cache_ok ac -> world_ok (first_world ac) (first_memory D) 1.
Proof.
  intros Hac. split; simpl; auto.
  - constructor; [|constructor]. split; simpl; [lia|by split; constructor|by intros ? ? ?%elem_of_nil|done].
  - by intros p [? ?].
  - intros i j sp1 sp2 p os _ _ _ _ _ E. by rewrite lookup_empty in E.
Qed.

(** C5: copy on write is not observable.  However states fork, constrain
    their paths, allocate, free, read and write, on object states that they
    share, every step succeeds that is valid for the state that takes it, and
    every read returns, under the path condition of its reader, the value
    that it returns when each state has a memory of its own, copied at the
    fork. *)
Theorem copy_on_write_refines u ac D script :
  cache_ok ac -> Z.of_nat (length script) < 2 ^ 32 - 1 -> script_valid script (first_memory D) ->
  exists es w, run u script (first_world ac) = Ret (es, w) /\
    Forall2 reads_as es (spec_run script (first_memory D)).
Proof. intros Hac Hn Hv. eapply run_ok; [by apply first_world_ok|lia|done]. Qed.

End Invariant.
