(* ===== verification/AddressSpaceResolve.v ===== *)
(** * Resolving addresses

    To which objects can an address point?  A constant address is looked up in
    the map.  For a symbolic one the solver gives an example, and the objects
    are searched from there in both directions, with queries, until the rest
    is known to be out of reach.  Proved against the contract of the solver:
    whatever the example, the search ends, what it finds can be pointed to, and
    unless it says that it is incomplete it finds everything. *)

From stdpp Require Import sorting.
From S2P Require Import Prelude ImmutableTree ExprData ExprCreate ExprSem ExprBool ExprArith ExprBits ExprSpec ExprOrder ExprHeap ExprRebuild ExprNodes ExprVisitor Constraints ExprEval ExprReads Solver SolverRange TimingSolver Memory MemorySpec MemoryObjects AddressSpace AddressSpaceShare.

(** ** Where objects are *)

(** An object without bytes can be pointed to at its address. *)
Definition points_into (mo : MemoryObject) (a : Z) : Prop := address mo <= a < address mo + Z.max 1 (mo_size mo).

#[global] Instance points_into_dec mo a : Decision (points_into mo a).
Proof. unfold points_into. apply _. Defined.

(** The objects do not overlap. *)
Definition disjoint_objects (m : MemoryMap) : Prop := forall x y, x ∈ bindings m -> y ∈ bindings m ->
  address x.1 < address y.1 -> address x.1 + mo_size x.1 <= address y.1.

Lemma points_into_one (m : MemoryMap) x y a :
  map_ok m -> disjoint_objects m -> x ∈ bindings m -> y ∈ bindings m ->
  points_into x.1 a -> points_into y.1 a -> x = y.
Proof.
  intros Hm Hd Hx Hy Px Py. apply (bindings_unique m); auto. unfold points_into in *.
  pose proof (Hd x y Hx Hy). pose proof (Hd y x Hy Hx). lia.
Qed.

(** The order of the map, and what [lookup_previous] finds. *)
Lemma sorted_split (l1 l2 : list ObjectPair) x y :
  StronglySorted (ITree.value_lt fst MemoryObjectLT) (l1 ++ l2) -> x ∈ l1 -> y ∈ l2 -> address x.1 < address y.1.
Proof.
  intros Hs Hx Hy. apply Z.ltb_lt. apply StronglySorted_app in Hs as (Hlt & _ & _). by apply (Hlt x y).
Qed.

Lemma last_filter_max (P : ObjectPair -> Prop) `{!forall x, Decision (P x)} l :
  StronglySorted (ITree.value_lt fst MemoryObjectLT) l ->
  match last (filter P l) with
  | Some x => x ∈ l /\ P x /\ forall y, y ∈ l -> P y -> address y.1 <= address x.1
  | None => forall y, y ∈ l -> ~ P y
  end.
Proof.
  induction l as [|z l IH] using rev_ind; intros Hs; [intros y Hy; by apply elem_of_nil in Hy|].
  assert (Hl : StronglySorted (ITree.value_lt fst MemoryObjectLT) l) by (by apply StronglySorted_app in Hs as (_ & ? & _)).
  specialize (IH Hl). rewrite filter_app, filter_cons, filter_nil. destruct (decide (P z)) as [Hz|Hz].
  - rewrite last_snoc. split_and!; [set_solver|done|]. intros y [Hy| ->%list_elem_of_singleton]%elem_of_app _; [|done].
    pose proof (sorted_split l [z] y z Hs Hy ltac:(left)). lia.
  - rewrite app_nil_r. destruct (last (filter P l)) as [x|].
    + destruct IH as (Hx & Px & Hmax). split_and!; [set_solver|done|].
      intros y [Hy| ->%list_elem_of_singleton]%elem_of_app Py; [auto|done].
    + intros y [Hy| ->%list_elem_of_singleton]%elem_of_app; auto.
Qed.

Lemma lookup_previous_ok (m : MemoryMap) a :
  map_ok m ->
  match ITree.lookup_previous fst MemoryObjectLT (hack a) m with
  | Some x => x ∈ bindings m /\ address x.1 <= a /\ forall y, y ∈ bindings m -> address y.1 <= a -> address y.1 <= address x.1
  | None => forall y, y ∈ bindings m -> a < address y.1
  end.
Proof.
  intros [Hb _]. unfold ITree.lookup_previous. rewrite ITree.lookup_previous_loop_elements by (apply _ || done).
  unfold ITree.spec_lookup_previous.
  pose proof (last_filter_max (fun x => MemoryObjectLT (hack a) x.1 = false) (bindings m) Hb) as Hlast.
  unfold MemoryObjectLT in *. simpl in *. destruct (last _) as [x|].
  - destruct Hlast as (Hx & Px & Hmax). apply Z.ltb_ge in Px. split_and!; auto.
    intros y Hy Ha. apply Hmax; [done|]. by apply Z.ltb_ge.
  - intros y Hy. specialize (Hlast y Hy). apply not_false_iff_true in Hlast. by apply Z.ltb_lt.
Qed.

(** Below the object in front of an address there is none that it points into. *)
Lemma only_previous (m : MemoryMap) x a :
  map_ok m -> disjoint_objects m -> x ∈ bindings m -> address x.1 <= a ->
  (forall y, y ∈ bindings m -> address y.1 <= a -> address y.1 <= address x.1) ->
  ~ points_into x.1 a -> forall y, y ∈ bindings m -> ~ points_into y.1 a.
Proof.
  intros Hm Hd Hx Ha Hmax Hnx y Hy Py. assert (Hya : address y.1 <= a) by apply Py.
  specialize (Hmax y Hy Hya). destruct (decide (address y.1 = address x.1)) as [E|Hne].
  - apply Hnx. by rewrite <- (bindings_unique m y x Hm Hy Hx E).
  - pose proof (Hd y x Hy Hx). unfold points_into in Py. lia.
Qed.

(** The objects are inside a space of 64 bits. *)
Definition objects_placed (m : MemoryMap) : Prop := forall x, x ∈ bindings m ->
  0 <= address x.1 /\ 0 <= mo_size x.1 /\ address x.1 + mo_size x.1 <= 2 ^ 64.

(** A constant address is resolved to the one object that it points into, if
    there is one, objects without bytes included. *)
Lemma resolveOne_constant_ok sp c :
  map_ok (objects sp) -> disjoint_objects (objects sp) -> objects_placed (objects sp) ->
  cwidth c <= 64 -> 0 <= cvalue c < 2 ^ 64 ->
  exists r, resolveOne_constant sp c = Ret r /\
    forall x, x ∈ bindings (objects sp) -> (points_into x.1 (cvalue c) <-> r = Some x).
Proof.
  intros Hm Hd Hp Hw Hc. unfold resolveOne_constant, getZExtValue.
  rewrite (proj2 (Z.leb_le _ _) Hw). cbn [assertM mbind outcome_bind]. eexists. split; [done|].
  pose proof (lookup_previous_ok (objects sp) (cvalue c) Hm) as Hl.
  destruct (ITree.lookup_previous _ _ _ _) as [[mo p]|].
  - destruct Hl as (Hx & Ha & Hmax). simpl in Ha. destruct (Hp _ Hx) as (P1 & P2 & P3). simpl in *.
    unfold u64. rewrite wrapU_small by lia.
    assert (Hif : ((mo_size mo =? 0) && (cvalue c =? address mo)) || (cvalue c - address mo <? mo_size mo) = true <->
      points_into mo (cvalue c)).
    { unfold points_into. rewrite orb_true_iff, andb_true_iff, !Z.eqb_eq, Z.ltb_lt. lia. }
    destruct (_ || _).
    + intros y Hy. split; [|intros [= <-]; by apply Hif].
      intros Py. f_equal. apply (points_into_one (objects sp) _ _ (cvalue c)); auto. by apply Hif.
    + intros y Hy. split; [|done]. intros Py. exfalso.
      eapply (only_previous (objects sp) (mo, p)); eauto. simpl. intros Pm. by apply Hif in Pm.
  - intros y Hy. split; [|done]. intros [Ha _]. specialize (Hl y Hy). lia.
Qed.

(** ** Calls that look at their success *)

Lemma sat_attempt {S A} (I : S -> Prop) (F F' : Prop) (m : SM S A) (Q : A -> Prop) :
  sat I F m Q -> sat I F' (attempt m) (fun r => match r with Some a => Q a | None => F end).
Proof.
  intros Hm s Hs. destruct (Hm s Hs) as (r & s' & E & Hs' & Hr). exists (Some r), s'. unfold attempt. by rewrite E.
Qed.

(** A step of the code whose result is known. *)
Lemma sat_known {S A B} (I : S -> Prop) (F : Prop) (o : outcome A) a (f : A -> SM S B) (Q : B -> Prop) :
  o = Ret a -> sat I F (f a) Q -> sat I F (lift o ≫= f) Q.
Proof. intros -> Hf s Hs. apply (Hf s Hs). Qed.

(** From some fuel on, for all elements of a list. *)
Lemma eventually_forall {A} (P : nat -> A -> Prop) l :
  (forall x, x ∈ l -> eventually (fun n => P n x)) -> eventually (fun n => Forall (P n) l).
Proof.
  induction l as [|x l IH]; intros Hl; [by exists O|].
  eapply eventually_impl; [|apply eventually_and; [apply (Hl x); left|apply IH; intros y Hy; apply Hl; by right]].
  intros n [? ?]. by constructor.
Qed.

Lemma eventually_ret (P : nat -> Prop) : (forall n, P n) -> eventually P.
Proof. intros HP. by exists O. Qed.

(** The two kinds of pointers. *)
Lemma pointer_cases p : (exists c, p = Constant c) \/ isConstant p = false.
Proof. destruct p; eauto. Qed.

Section Shapes.
Context `{ExprOptions} `{TargetContext} {S : Type} `{!Solver S}.
Variables (UseVisitorHash simplifyExprs : bool) (n : nat) (cs : list Expr) (sp : AddressSpace) (p : Expr).
Hypothesis Hsymbolic : isConstant p = false.

Lemma resolveOne_symbolic :
  resolveOne (S:=S) UseVisitorHash simplifyExprs n cs sp p =
    (cex ← TimingSolver__getValue UseVisitorHash simplifyExprs n cs p;
     example ← lift (getZExtValue cex);
     match ITree.lookup_previous fst MemoryObjectLT (hack example) (objects sp) with
     | Some op => if example_in example op then mret (Some op)
                  else resolveOne_search UseVisitorHash simplifyExprs n cs sp p example
     | None => resolveOne_search UseVisitorHash simplifyExprs n cs sp p example
     end).
Proof. by destruct p. Qed.

Lemma resolve_symbolic expired rl maxResolutions :
  resolve (S:=S) UseVisitorHash simplifyExprs n cs expired sp p rl maxResolutions =
    (cex ← attempt (TimingSolver__getValue UseVisitorHash simplifyExprs n cs p);
     match cex with
     | None => mret (true, rl)
     | Some cex =>
         example ← lift (getZExtValue cex);
         resolve_search UseVisitorHash simplifyExprs n cs expired sp p example rl maxResolutions
     end).
Proof. by destruct p. Qed.

End Shapes.

Section Symbolic.
Context `{ExprOptions} `{DivByZero} `{Universe} `{TargetContext} {S : Type} `{!Solver S} `{!SolverSpec S}.
Hypothesis Hopt : ConstArrayOpt = false.
Variables (UseVisitorHash simplifyExprs : bool).

(** The path condition and the pointer. *)
Variables (cs : list Expr) (p : Expr).
Hypothesis Hask : askable true (mkQuery cs p).
Hypothesis Hwidth : getWidth p = getPointerWidth.

Abbreviation meets := (sat (S:=S) solver_inv solver_fails).
Abbreviation mustBeTrue n := (TimingSolver__mustBeTrue (S:=S) UseVisitorHash simplifyExprs n cs).
Abbreviation mayBeTrue n := (TimingSolver__mayBeTrue (S:=S) UseVisitorHash simplifyExprs n cs).

(** A pointer value under the path condition. *)
Definition reaches (a : Z) : Prop := attains (mkQuery cs p) a.
Definition always (P : Z -> Prop) : Prop := forall a, reaches a -> P a.
Definition never (P : Z -> Prop) : Prop := forall a, reaches a -> ~ P a.

(** An expression that says something of the pointer. *)
Definition says (e : Expr) (P : Z -> Prop) : Prop :=
  askable true (mkQuery cs e) /\ getWidth e = 1 /\
  forall rho, models rho (mkQuery cs p) -> (eval rho e = 1 <-> P (eval rho p)) /\ (eval rho e = 0 <-> ~ P (eval rho p)).

Lemma must_says e P :
  says e P -> eventually (fun n => meets (mustBeTrue n e) (fun b => b = true <-> always P)).
Proof using Hopt.
  intros (He & Hw & Hv). eapply eventually_impl; [|apply (TimingSolver__mustBeTrue_ok Hopt UseVisitorHash simplifyExprs true _ He Hw)].
  intros n Hn. eapply sat_conseq; [exact Hn|]. intros b Hb. unfold truth_ok in Hb. rewrite Hb. split.
  - intros Hval a (rho & Hm & <-). by apply Hv, Hval.
  - intros Ha rho Hm. apply Hv; [done|]. apply Ha. by exists rho.
Qed.

Lemma may_says e P :
  says e P ->
  eventually (fun n => meets (mayBeTrue n e) (fun b => (b = true -> ~ never P) /\ (b = false -> never P))).
Proof using Hopt.
  intros (He & Hw & Hv). eapply eventually_impl; [|apply (TimingSolver__mayBeTrue_ok Hopt UseVisitorHash simplifyExprs true _ He Hw)].
  assert (Hiff : contradicted (mkQuery cs e) <-> never P).
  { split.
    - intros Hc a (rho & Hm & <-). by apply Hv, Hc.
    - intros Hn rho Hm. apply Hv; [done|]. apply Hn. by exists rho. }
  intros n Hn. eapply sat_conseq; [exact Hn|]. intros b Hb. by rewrite <- Hiff.
Qed.

(** ** The questions about an object *)

Lemma pointer_denotes : denotes (fun rho => models rho (mkQuery cs p)) getPointerWidth (fun rho => eval rho p) p.
Proof using Hask Hopt Hwidth.
  rewrite <- Hwidth. apply denotes_self; [apply (ask_expr _ _ Hask)|]. intros. by apply inb_off.
Qed.

Lemma pointer_holds : holds (read_ok heap (fun rho => models rho (mkQuery cs p)) true)
  (div_ok (fun rho => models rho (mkQuery cs p))) (opaque_ok true) p.
Proof using Hask. apply (ask_expr _ _ Hask). Qed.

(** A test that is built from the pointer and constants. *)
Lemma test_says o P `{!forall a, Decision (P a)} :
  creates (fun rho => models rho (mkQuery cs p)) 1 (fun rho => Z.b2z (bool_decide (P (eval rho p)))) o ->
  returns (holds (read_ok heap (fun rho => models rho (mkQuery cs p)) true)
    (div_ok (fun rho => models rho (mkQuery cs p))) (opaque_ok true)) o ->
  exists e, o = Ret e /\ says e P.
Proof using Hask.
  intros (e & -> & [Hwf Hw _ Hv]) Hh. exists e. split; [done|]. split_and!; [|done|].
  - destruct Hask as [Hcs _ Hf]. split; [done| |done]. split; [done|]. by apply Hh.
  - intros rho Hm. rewrite Hv by done. case_bool_decide; simpl; split; split; (done || lia).
Qed.

Abbreviation fine := (holds (read_ok heap (fun rho => models rho (mkQuery cs p)) true)
  (div_ok (fun rho => models rho (mkQuery cs p))) (opaque_ok true)).

Lemma binary_fine k l r : Kind.is_div k = false -> fine l -> fine r -> returns fine (Binary__create k l r).
Proof using Hopt.
  intros Hk Hl Hr e E. apply (Binary__create_fit _ _ _ Hopt k l r); auto. by rewrite Hk.
Qed.

Lemma base_returns mo : returns fine (getBaseExpr mo).
Proof using Type.
  unfold getBaseExpr. intros e E. destruct (ConstantExpr__create _ _); [|done]. by injection E as <-.
Qed.

Lemma size_returns mo : returns fine (getSizeExpr mo).
Proof using Type.
  unfold getSizeExpr. intros e E. destruct (ConstantExpr__create _ _); [|done]. by injection E as <-.
Qed.

Lemma bounds_says mo : placed mo -> exists e, getBoundsCheckPointer mo p = Ret e /\ says e (points_into mo).
Proof using Hask Hopt Hwidth.
  intros Hpl. apply (test_says _ (points_into mo)).
  - eapply creates_ext; [apply (getBoundsCheckPointer_ok _ mo _ p Hpl pointer_denotes)|]. intros rho Hm. cbn beta. f_equal.
    pose proof (pl_size mo Hpl) as [Hs _]. unfold points_into. apply eq_bool_prop_intro.
    rewrite bool_decide_spec, Is_true_true. destruct (Z.eqb_spec (mo_size mo) 0); [rewrite Z.eqb_eq; lia|].
    rewrite andb_true_iff, Z.leb_le, Z.ltb_lt. lia.
  - unfold getBoundsCheckPointer, getOffsetExpr. eapply returns_then.
    + eapply returns_then; [apply base_returns|]. intros base Hb. apply (binary_fine Kind.Sub); [done|apply pointer_holds|exact Hb].
    + intros o Ho. unfold getBoundsCheckOffset. destruct (mo_size mo =? 0); [by apply (binary_fine Kind.Eq)|].
      eapply returns_then; [apply size_returns|]. intros sz Hsz. by apply binary_fine.
Qed.

(** The comparisons of the pointer with the base. *)
Lemma compare_says mo k P `{!forall a, Decision (P a)} :
  placed mo -> Kind.is_cmp k = true -> Kind.is_div k = false ->
  (forall a, bv_op k getPointerWidth a (address mo) = Z.b2z (bool_decide (P a))) ->
  exists e, (base ← getBaseExpr mo; Binary__create k p base) = Ret e /\ says e P.
Proof using Hask Hopt Hwidth.
  intros [Hw [Ha _] [_ [_ Hlt]]] Hc Hd Hop. apply (test_says _ P).
  - destruct (constant_of_ok (fun rho => models rho (mkQuery cs p)) (address mo) getPointerWidth Hw) as [E Hden]; [lia|].
    change (getBaseExpr mo) with (constant_of (address mo) getPointerWidth). rewrite E. cbn [mbind outcome_bind].
    pose proof (Binary__create_creates _ _ _ _ k p _ pointer_denotes Hden) as Hcr. rewrite Hc in Hcr.
    eapply creates_ext; [apply Hcr; by rewrite Hd|]. intros rho Hm. apply Hop.
  - eapply returns_then; [apply base_returns|]. intros base Hb. apply binary_fine; [done|apply pointer_holds|exact Hb].
Qed.

Lemma above_says mo : placed mo -> exists e, address_above p mo = Ret e /\ says e (fun a => address mo <= a).
Proof using Hask Hopt Hwidth.
  intros Hpl. apply (compare_says mo Kind.Uge (fun a => address mo <= a)); [done..|]. intros a. cbn. f_equal.
  apply eq_bool_prop_intro. by rewrite bool_decide_spec, Is_true_true, Z.leb_le.
Qed.

Lemma below_says mo : placed mo -> exists e, address_below p mo = Ret e /\ says e (fun a => a < address mo).
Proof using Hask Hopt Hwidth.
  intros Hpl. apply (compare_says mo Kind.Ult (fun a => a < address mo)); [done..|]. intros a. cbn. f_equal.
  apply eq_bool_prop_intro. by rewrite bool_decide_spec, Is_true_true, Z.ltb_lt.
Qed.

(** With [n] steps for the simplification, what is asked about an object is
    answered. *)
Record ready (n : nat) (x : ObjectPair) : Prop := {
  rd_in : exists e, getBoundsCheckPointer x.1 p = Ret e /\
    meets (mayBeTrue n e) (fun b => (b = true -> ~ never (points_into x.1)) /\ (b = false -> never (points_into x.1))) /\
    meets (mustBeTrue n e) (fun b => b = true <-> always (points_into x.1));
  rd_above : exists e, address_above p x.1 = Ret e /\
    meets (mustBeTrue n e) (fun b => b = true <-> always (fun a => address x.1 <= a));
  rd_below : exists e, address_below p x.1 = Ret e /\
    meets (mustBeTrue n e) (fun b => b = true <-> always (fun a => a < address x.1))
}.

Lemma object_ready x : placed x.1 -> eventually (fun n => ready n x).
Proof using Hask Hopt Hwidth.
  intros Hpl. destruct (bounds_says x.1 Hpl) as (e1 & E1 & S1), (above_says x.1 Hpl) as (e2 & E2 & S2),
    (below_says x.1 Hpl) as (e3 & E3 & S3).
  eapply eventually_impl; [|apply eventually_and; [apply eventually_and; [apply (may_says _ _ S1)|apply (must_says _ _ S1)]|
    apply eventually_and; [apply (must_says _ _ S2)|apply (must_says _ _ S3)]]].
  intros n [[? ?] [? ?]]. split; eauto.
Qed.

(** ** The objects of an address space *)

Variable sp : AddressSpace.
Hypothesis Hmap : map_ok (objects sp).
Hypothesis Hdisjoint : disjoint_objects (objects sp).
Hypothesis Hplaced : forall x, x ∈ bindings (objects sp) -> placed x.1.
Hypothesis Hwidth64 : getPointerWidth <= 64.

Lemma all_ready : eventually (fun n => Forall (ready n) (bindings (objects sp))).
Proof using Hask Hopt Hplaced Hwidth. apply eventually_forall. intros x Hx. by apply object_ready, Hplaced. Qed.

Lemma before_never l1 x l2 :
  bindings (objects sp) = l1 ++ x :: l2 -> always (fun a => address x.1 <= a) ->
  forall y, y ∈ l1 -> never (points_into y.1).
Proof.
  intros E Ha y Hy a Hr Py. specialize (Ha a Hr). cbv beta in Ha. destruct Hmap as [Hb _]. unfold ITree.bst in Hb. rewrite E in Hb.
  pose proof (sorted_split _ _ y x Hb Hy ltac:(left)) as Hlt.
  pose proof (Hdisjoint y x) as Hd. rewrite E in Hd. unfold points_into in Py.
  specialize (Hd ltac:(set_solver) ltac:(set_solver) Hlt). lia.
Qed.

Lemma after_never l1 x l2 :
  bindings (objects sp) = l1 ++ x :: l2 -> always (fun a => a < address x.1) ->
  forall y, y ∈ x :: l2 -> never (points_into y.1).
Proof.
  intros E Ha y Hy a Hr [Py _]. specialize (Ha a Hr). cbv beta in Ha. destruct Hmap as [Hb _]. unfold ITree.bst in Hb. rewrite E in Hb.
  apply elem_of_cons in Hy as [->|Hy]; [lia|].
  replace (l1 ++ x :: l2) with ((l1 ++ [x]) ++ l2) in Hb by (by rewrite <- app_assoc).
  pose proof (sorted_split _ _ x y Hb ltac:(set_solver) Hy). lia.
Qed.

(** ** One object *)

Definition found (x : ObjectPair) : Prop := x ∈ bindings (objects sp) /\ ~ never (points_into x.1).

(** An iterator, with what is before and after it. *)
Record position (it : ITree.iterator) (l1 l2 : list ObjectPair) : Prop := {
  po_ok : ITree.iter_ok (objects sp) it;
  po_before : ITree.consumed null_pair (objects sp) (ITree.elts (ITree.it_stack it)) = l1;
  po_after : ITree.remaining null_pair (ITree.elts (ITree.it_stack it)) = l2
}.

Lemma position_split it l1 l2 : position it l1 l2 -> bindings (objects sp) = l1 ++ l2.
Proof. intros [Hok <- <-]. symmetry. exact (ITree.iter_partition fst MemoryObjectLT null_pair (objects sp) it Hmap Hok). Qed.

Section Loops.
Variable n : nat.
Hypothesis Hready : Forall (ready n) (bindings (objects sp)).

Lemma ready_at l1 x l2 : bindings (objects sp) = l1 ++ x :: l2 -> ready n x /\ x ∈ bindings (objects sp).
Proof. intros E. rewrite E in *. apply Forall_app in Hready as [_ [? _]%Forall_cons]. split; [done|set_solver]. Qed.

Lemma step_back it l x l2 :
  position it (l ++ [x]) l2 -> exists it', ITree.decr it = Ret it' /\ ITree.deref null_pair it' = Ret x /\ position it' l (x :: l2).
Proof.
  intros [Hok Hb Ha]. destruct (ITree.decr_spec fst MemoryObjectLT null_pair (objects sp) it x l Hmap Hok Hb) as (it' & E & Hok' & Hb' & Ha').
  rewrite Ha in Ha'. exists it'. split_and!; [done| |by split]. by apply (ITree.deref_spec fst MemoryObjectLT null_pair (objects sp) _ x l2).
Qed.

Lemma step_forward it l1 x l :
  position it l1 (x :: l) -> ITree.deref null_pair it = Ret x /\ exists it', ITree.incr it = Ret it' /\ position it' (l1 ++ [x]) l.
Proof.
  intros Hp. pose proof Hp as [Hok Hb Ha]. split; [by apply (ITree.deref_spec fst MemoryObjectLT null_pair (objects sp) _ x l)|].
  destruct (ITree.incr_spec fst MemoryObjectLT null_pair (objects sp) it x l Hmap Hok Ha) as (it' & E & Hok' & Ha').
  exists it'. split; [done|]. split; auto. pose proof (position_split it l1 (x :: l) Hp) as E1.
  pose proof (position_split it' _ l (Build_position it' _ l Hok' eq_refl Ha')) as E2. rewrite E1 in E2.
  replace (l1 ++ x :: l) with ((l1 ++ [x]) ++ l) in E2 by (by rewrite <- app_assoc). by apply app_inv_tail in E2.
Qed.

Lemma at_begin it b l1 l2 :
  position it l1 l2 -> ITree.begin (objects sp) = Ret b -> ITree.iter_eq it b = true <-> l1 = [].
Proof. intros [Hok <- _] Eb. exact (ITree.iter_eq_begin fst MemoryObjectLT null_pair (objects sp) it b Hmap Hok Eb). Qed.

Lemma at_end it e l1 l2 :
  position it l1 l2 -> ITree.end_ (objects sp) = Ret e -> ITree.iter_eq it e = true <-> l2 = [].
Proof. intros [Hok _ <-] Ee. injection Ee as <-. exact (ITree.iter_eq_end null_pair (objects sp) it Hok). Qed.

Abbreviation back := (resolveOne_back UseVisitorHash simplifyExprs n cs).
Abbreviation forward := (resolveOne_forward UseVisitorHash simplifyExprs n cs).

Lemma resolveOne_back_ok b k :
  ITree.begin (objects sp) = Ret b -> forall it l1 l2, position it l1 l2 -> (length l1 <= k)%nat ->
  meets (back k p it b) (fun r => match r with Some x => found x | None => forall x, x ∈ l1 -> never (points_into x.1) end).
Proof.
  intros Eb. induction k as [|k IH]; intros it l1 l2 Hpos Hk; cbn [resolveOne_back];
    pose proof (at_begin it b l1 l2 Hpos Eb) as Hbeg; destruct (ITree.iter_eq it b).
  1,3: apply sat_ret; rewrite (proj1 Hbeg eq_refl); by intros x ?%elem_of_nil.
  - destruct l1; [discriminate (proj2 Hbeg eq_refl)|simpl in Hk; lia].
  - destruct l1 as [|x l _] using rev_ind; [discriminate (proj2 Hbeg eq_refl)|].
    destruct (step_back it l x l2 Hpos) as (it' & Ed & Ex & Hpos'). pose proof (position_split _ _ _ Hpos') as Esp.
    destruct (ready_at l x l2 Esp) as [[(e1 & E1 & Hmay & _) (e2 & E2 & Hge) _] Hx].
    apply (sat_known _ _ _ _ _ _ Ed), (sat_known _ _ _ _ _ _ Ex), (sat_known _ _ _ _ _ _ E1).
    eapply sat_bind; [exact Hmay|]. intros may [Hm1 Hm2]. destruct may; [apply sat_ret; split; auto|].
    apply (sat_known _ _ _ _ _ _ E2). eapply sat_bind; [exact Hge|]. intros must Hmust.
    assert (Hsnoc : (forall y, y ∈ l -> never (points_into y.1)) -> forall y, y ∈ l ++ [x] -> never (points_into y.1)).
    { intros Hl y [Hy| ->%list_elem_of_singleton]%elem_of_app; auto. }
    destruct must.
    + apply sat_ret, Hsnoc. apply (before_never l x l2); [done|]. by apply Hmust.
    + rewrite length_app in Hk. simpl in Hk.
      eapply sat_conseq; [apply (IH it' l (x :: l2) Hpos'); lia|]. intros [y|]; auto.
Qed.

Lemma resolveOne_forward_ok e k :
  ITree.end_ (objects sp) = Ret e -> forall it l1 l2, position it l1 l2 -> (length l2 <= k)%nat ->
  meets (forward k p it e) (fun r => match r with Some x => found x | None => forall x, x ∈ l2 -> never (points_into x.1) end).
Proof.
  intros Ee. induction k as [|k IH]; intros it l1 l2 Hpos Hk; cbn [resolveOne_forward];
    pose proof (at_end it e l1 l2 Hpos Ee) as Hend; destruct (ITree.iter_eq it e).
  1,3: apply sat_ret; rewrite (proj1 Hend eq_refl); by intros x ?%elem_of_nil.
  - destruct l2; [discriminate (proj2 Hend eq_refl)|simpl in Hk; lia].
  - destruct l2 as [|x l]; [discriminate (proj2 Hend eq_refl)|]. pose proof (position_split _ _ _ Hpos) as Esp.
    destruct (step_forward it l1 x l Hpos) as (Ex & it' & Ei & Hpos').
    destruct (ready_at l1 x l Esp) as [[(e1 & E1 & Hmay & _) _ (e2 & E2 & Hlt)] Hx].
    apply (sat_known _ _ _ _ _ _ Ex), (sat_known _ _ _ _ _ _ E2). eapply sat_bind; [exact Hlt|]. intros must Hmust.
    destruct must; [apply sat_ret, (after_never l1 x l Esp); by apply Hmust|].
    apply (sat_known _ _ _ _ _ _ E1). eapply sat_bind; [exact Hmay|]. intros may [Hm1 Hm2].
    destruct may; [apply sat_ret; split; auto|]. apply (sat_known _ _ _ _ _ _ Ei). simpl in Hk.
    eapply sat_conseq; [apply (IH it' (l1 ++ [x]) l Hpos'); lia|]. intros [y|]; auto.
    intros Hl y [->|Hy]%elem_of_cons; auto.
Qed.

(** The positions from which the searches start. *)
Lemma start_position a : exists it l1 l2,
  ITree.upper_bound fst MemoryObjectLT null_pair (hack a) (objects sp) = Ret it /\ position it l1 l2 /\
  (length l1 <= ITree.size (objects sp))%nat /\ (length l2 <= ITree.size (objects sp))%nat.
Proof.
  destruct (ITree.bounds_correct fst MemoryObjectLT null_pair (hack a) (objects sp) Hmap) as (_ & (it & E & Hok & _) & _).
  eexists it, _, _. assert (Hpos := Build_position it _ _ Hok eq_refl eq_refl). split; [done|]. split; [exact Hpos|].
  rewrite ITree.size_elements, (position_split _ _ _ Hpos), length_app. lia.
Qed.

Lemma begin_end : exists b e, ITree.begin (objects sp) = Ret b /\ ITree.end_ (objects sp) = Ret e.
Proof. destruct (ITree.begin_spec fst MemoryObjectLT null_pair (objects sp) Hmap) as (b & E & _). by eexists b, _. Qed.

Lemma resolveOne_search_ok a :
  meets (resolveOne_search UseVisitorHash simplifyExprs n cs sp p a)
    (fun r => match r with Some x => found x | None => forall x, x ∈ bindings (objects sp) -> never (points_into x.1) end).
Proof.
  destruct (start_position a) as (it & l1 & l2 & Es & Hpos & Hl1 & Hl2), begin_end as (b & e & Eb & Ee).
  unfold resolveOne_search. apply (sat_known _ _ _ _ _ _ Es), (sat_known _ _ _ _ _ _ Eb), (sat_known _ _ _ _ _ _ Ee).
  eapply sat_bind; [by apply (resolveOne_back_ok b _ Eb it l1 l2)|]. intros [x|] Hb; [by apply sat_ret|].
  eapply sat_conseq; [by apply (resolveOne_forward_ok e _ Ee it l1 l2)|]. intros [x|] Hf; [done|].
  intros x Hx. rewrite (position_split _ _ _ Hpos) in Hx. apply elem_of_app in Hx as [?|?]; auto.
Qed.

(** ** All objects *)

Variables (expired : ObjectPair -> bool) (maxResolutions : Z).

Definition covered (rl : list ObjectPair) (x : ObjectPair) : Prop := x ∈ rl \/ never (points_into x.1).

(** Why a resolution may be incomplete. *)
Definition excused (rl : list ObjectPair) : Prop :=
  solver_fails \/ (exists x, x ∈ bindings (objects sp) /\ expired x = true) \/
  (1 < maxResolutions /\ Z.of_nat (length rl) = maxResolutions).

(** What is known when the search returns, and while it goes on. *)
Definition resolved (incomplete : bool) (rl : list ObjectPair) : Prop :=
  Forall found rl /\ (1 < maxResolutions -> Z.of_nat (length rl) <= maxResolutions) /\
  if incomplete then excused rl else forall x, x ∈ bindings (objects sp) -> covered rl x.

Definition resolving (rl : list ObjectPair) : Prop :=
  Forall found rl /\ (1 < maxResolutions -> Z.of_nat (length rl) < maxResolutions).

Lemma resolving_excused rl : resolving rl -> excused rl -> resolved true rl.
Proof. intros [Hf Hm] He. split_and!; [done| |done]. intros Hmax. specialize (Hm Hmax). lia. Qed.

Lemma covered_more rl rl' x : rl ⊆ rl' -> covered rl x -> covered rl' x.
Proof. intros Hs [Hx|Hx]; [left; auto|by right]. Qed.

(** If the pointer is certain to be in one object, that is all. *)
Lemma certain_covers rl x y :
  x ∈ bindings (objects sp) -> always (points_into x.1) -> x ∈ rl -> y ∈ bindings (objects sp) -> covered rl y.
Proof.
  intros Hx Ha Hin Hy. destruct (decide (y = x)) as [->|Hne]; [by left|]. right. intros a Hr Py. apply Hne.
  by apply (points_into_one (objects sp) _ _ a); auto; apply Ha.
Qed.

Lemma checkPointerInObject_ok x rl :
  ready n x -> x ∈ bindings (objects sp) -> resolving rl ->
  meets (checkPointerInObject UseVisitorHash simplifyExprs n cs p x rl maxResolutions) (fun r =>
    rl ⊆ r.2 /\
    ((r.1 = 2 /\ resolving r.2 /\ covered r.2 x) \/ (r.1 = 1 /\ resolved true r.2) \/ (r.1 = 0 /\ resolved false r.2))).
Proof.
  intros [(e & E & Hmay & Hmust) _ _] Hx Hrl. unfold checkPointerInObject. apply (sat_known _ _ _ _ _ _ E).
  pose proof Hrl as [Hf Hm].
  eapply sat_bind; [by apply sat_attempt|]. intros [[|]|] Hr.
  - destruct Hr as [Hr _]. assert (Hf' : Forall found (rl ++ [x])).
    { apply Forall_app. split; [done|]. apply Forall_singleton. split; auto. }
    assert (Hin : x ∈ rl ++ [x]) by set_solver. rewrite length_app. simpl.
    destruct (Z.eqb_spec (Z.of_nat (length rl + 1)) 1) as [E1|E1].
    + assert (rl = []) as -> by (destruct rl; [done|simpl in E1; lia]).
      eapply sat_bind; [by apply sat_attempt|]. intros [[|]|] Hr'; apply sat_ret; (split; [set_solver|]); simpl.
      * right; right. split; [done|]. split_and!; [done|simpl; lia|]. intros y Hy.
        apply (certain_covers _ x); auto. by apply Hr'.
      * left. split_and!; [done| |by left]. split; [done|simpl; lia].
      * right; left. split; [done|]. split_and!; [done|simpl; lia|by left].
    + apply sat_ret. split; [set_solver|]. simpl. destruct (Z.eqb_spec (Z.of_nat (length rl + 1)) maxResolutions) as [Em|Em].
      * right; left. split; [done|]. split_and!; [done|rewrite length_app; simpl; lia|].
        right; right. rewrite length_app. simpl. lia.
      * left. split_and!; [done| |by left]. split; [done|]. intros Hmax. specialize (Hm Hmax). rewrite length_app. simpl. lia.
  - apply sat_ret. split; [done|]. left. split_and!; [done|done|]. right. by apply Hr.
  - apply sat_ret. split; [done|]. right; left. split; [done|]. apply resolving_excused; [done|by left].
Qed.

(** What a loop over the objects of [l] does. *)
Definition loop_ok (l rl : list ObjectPair) (r : outcome_of_loop) : Prop :=
  match r with
  | Returned incomplete rl' => resolved incomplete rl'
  | Continue rl' => rl ⊆ rl' /\ resolving rl' /\ forall x, x ∈ l -> covered rl' x
  end.

Lemma resolve_back_ok b k :
  ITree.begin (objects sp) = Ret b -> forall it l1 l2 rl, position it l1 l2 -> (length l1 <= k)%nat -> resolving rl ->
  meets (resolve_back UseVisitorHash simplifyExprs n cs expired k p it b rl maxResolutions) (loop_ok l1 rl).
Proof.
  intros Eb. induction k as [|k IH]; intros it l1 l2 rl Hpos Hk Hrl; cbn [resolve_back];
    pose proof (at_begin it b l1 l2 Hpos Eb) as Hbeg; destruct (ITree.iter_eq it b).
  1,3: apply sat_ret; rewrite (proj1 Hbeg eq_refl); (split_and!; [done|done|by intros x ?%elem_of_nil]).
  - destruct l1; [discriminate (proj2 Hbeg eq_refl)|simpl in Hk; lia].
  - destruct l1 as [|x l _] using rev_ind; [discriminate (proj2 Hbeg eq_refl)|].
    destruct (step_back it l x l2 Hpos) as (it' & Ed & Ex & Hpos'). pose proof (position_split _ _ _ Hpos') as Esp.
    destruct (ready_at l x l2 Esp) as [Hrx Hx]. pose proof Hrx as [_ (e2 & E2 & Hge) _].
    apply (sat_known _ _ _ _ _ _ Ed), (sat_known _ _ _ _ _ _ Ex). destruct (expired x) eqn:Et.
    { apply sat_ret, resolving_excused; [done|]. right; left. by exists x. }
    eapply sat_bind; [by apply checkPointerInObject_ok|]. intros [code rl'] [Hsub Hcode]. simpl in *.
    destruct Hcode as [(-> & Hrl' & Hcov)|[[-> Hres]|[-> Hres]]]; [|by apply sat_ret..]. cbn [Z.eqb Pos.eqb negb].
    apply (sat_known _ _ _ _ _ _ E2). eapply sat_bind; [by apply sat_attempt|]. intros [[|]|] Hr.
    + apply sat_ret. split_and!; [done|done|]. intros y [Hy| ->%list_elem_of_singleton]%elem_of_app; [|done].
      right. apply (before_never l x l2 Esp); [by apply Hr|done].
    + rewrite length_app in Hk. simpl in Hk. eapply sat_conseq; [apply (IH it' l (x :: l2) rl' Hpos'); [lia|done]|].
      intros [inc rl2|rl2]; [done|]. intros (Hs2 & Hrl2 & Hl). split_and!; [set_solver|done|].
      intros y [Hy| ->%list_elem_of_singleton]%elem_of_app; [auto|]. by apply (covered_more rl').
    + apply sat_ret, resolving_excused; [done|by left].
Qed.

Lemma resolve_forward_ok e k :
  ITree.end_ (objects sp) = Ret e -> forall it l1 l2 rl, position it l1 l2 -> (length l2 <= k)%nat -> resolving rl ->
  meets (resolve_forward UseVisitorHash simplifyExprs n cs expired k p it e rl maxResolutions) (loop_ok l2 rl).
Proof.
  intros Ee. induction k as [|k IH]; intros it l1 l2 rl Hpos Hk Hrl; cbn [resolve_forward];
    pose proof (at_end it e l1 l2 Hpos Ee) as Hend; destruct (ITree.iter_eq it e).
  1,3: apply sat_ret; rewrite (proj1 Hend eq_refl); (split_and!; [done|done|by intros x ?%elem_of_nil]).
  - destruct l2; [discriminate (proj2 Hend eq_refl)|simpl in Hk; lia].
  - destruct l2 as [|x l]; [discriminate (proj2 Hend eq_refl)|]. pose proof (position_split _ _ _ Hpos) as Esp.
    destruct (step_forward it l1 x l Hpos) as (Ex & it' & Ei & Hpos').
    destruct (ready_at l1 x l Esp) as [Hrx Hx]. pose proof Hrx as [_ _ (e2 & E2 & Hlt)].
    apply (sat_known _ _ _ _ _ _ Ex). destruct (expired x) eqn:Et.
    { apply sat_ret, resolving_excused; [done|]. right; left. by exists x. }
    apply (sat_known _ _ _ _ _ _ E2). eapply sat_bind; [by apply sat_attempt|]. intros [[|]|] Hr.
    + apply sat_ret. split_and!; [done|done|]. intros y Hy. right. apply (after_never l1 x l Esp); [by apply Hr|done].
    + eapply sat_bind; [by apply checkPointerInObject_ok|]. intros [code rl'] [Hsub Hcode]. simpl in *.
      destruct Hcode as [(-> & Hrl' & Hcov)|[[-> Hres]|[-> Hres]]]; [|by apply sat_ret..]. cbn [Z.eqb Pos.eqb negb].
      apply (sat_known _ _ _ _ _ _ Ei). eapply sat_conseq; [apply (IH it' (l1 ++ [x]) l rl' Hpos'); [lia|done]|].
      intros [inc rl2|rl2]; [done|]. intros (Hs2 & Hrl2 & Hl). split_and!; [set_solver|done|].
      intros y [->|Hy]%elem_of_cons; [|auto]. by apply (covered_more rl').
    + apply sat_ret, resolving_excused; [done|by left].
Qed.

Lemma resolve_search_ok a :
  meets (resolve_search UseVisitorHash simplifyExprs n cs expired sp p a [] maxResolutions) (fun r => resolved r.1 r.2).
Proof.
  destruct (start_position a) as (it & l1 & l2 & Es & Hpos & Hl1 & Hl2), begin_end as (b & e & Eb & Ee).
  unfold resolve_search. apply (sat_known _ _ _ _ _ _ Es), (sat_known _ _ _ _ _ _ Eb), (sat_known _ _ _ _ _ _ Ee).
  eapply sat_bind; [apply (resolve_back_ok b _ Eb it l1 l2); [done|done|]|].
  { split; [by constructor|simpl; lia]. }
  intros [inc rl|rl] Hb; [by apply sat_ret|]. destruct Hb as (_ & Hrl & Hc1).
  eapply sat_bind; [by apply (resolve_forward_ok e _ Ee it l1 l2)|]. intros [inc rl2|rl2] Hf; apply sat_ret; [done|].
  destruct Hf as (Hs & [Hf Hm] & Hc2). split_and!; [done|intros Hmax; specialize (Hm Hmax); simpl; lia|].
  intros x Hx. rewrite (position_split _ _ _ Hpos) in Hx. apply elem_of_app in Hx as [?|?]; [|auto].
  apply (covered_more rl); auto.
Qed.

End Loops.

(** ** The entry points *)

Lemma reached a (x : ObjectPair) : reaches a -> points_into x.1 a -> ~ never (points_into x.1).
Proof. intros Hr Hp Hn. by apply (Hn a Hr). Qed.

Lemma placed_64 : objects_placed (objects sp).
Proof.
  intros x Hx. destruct (Hplaced x Hx) as [Hw [Ha Hfit] [Hs _]].
  assert (2 ^ getPointerWidth <= 2 ^ 64) by (apply Z.pow_le_mono_r; lia). lia.
Qed.

(** A constant pointer. *)
Lemma constant_pointer c : p = Constant c ->
  cwidth c <= 64 /\ reaches (cvalue c) /\ exists r, resolveOne_constant sp c = Ret r /\
    (forall x, r = Some x -> found x) /\ forall x, x ∈ bindings (objects sp) -> r = Some x \/ never (points_into x.1).
Proof.
  intros Ep. destruct (ask_expr _ _ Hask) as [Hwf _]. cbn [expr] in Hwf. rewrite Ep in Hwf, Hwidth. cbn in Hwf, Hwidth.
  destruct Hwf as [Hw Hr]. assert (H64 : cwidth c <= 64) by lia.
  assert (Hreach : reaches (cvalue c)).
  { destruct (ask_feasible _ _ Hask) as [rho Hm]. exists rho. split; [done|]. cbn [expr]. by rewrite Ep. }
  split_and!; [done|done|].
  destruct (resolveOne_constant_ok sp c Hmap Hdisjoint placed_64 H64) as (r & E & Hx).
  { assert (2 ^ cwidth c <= 2 ^ 64) by (apply Z.pow_le_mono_r; lia). lia. }
  exists r. split_and!; [done| |].
  - intros x Er. assert (Hin : x ∈ bindings (objects sp)).
    { subst r. unfold resolveOne_constant in E. apply outcome_bind_ret in E as (a & _ & E).
      pose proof (lookup_previous_ok (objects sp) a Hmap) as Hl. destruct (ITree.lookup_previous _ _ _ _) as [[mo q]|]; [|done].
      destruct (_ || _); [|done]. injection E as <-. apply Hl. }
    split; [done|]. apply (reached (cvalue c)); [done|]. by apply Hx.
  - intros x Hin. destruct (decide (points_into x.1 (cvalue c))) as [Hp|Hp]; [left; by apply Hx|right].
    intros a (rho & _ & <-). cbn [expr]. by rewrite Ep.
Qed.

(** A value of the pointer, to start from. *)
Lemma pointer_example_ok : eventually (fun n => meets (TimingSolver__getValue UseVisitorHash simplifyExprs n cs p)
  (fun c => getZExtValue c = Ret (cvalue c) /\ reaches (cvalue c) /\ 0 <= cvalue c < 2 ^ 64)).
Proof.
  eapply eventually_impl; [|apply (TimingSolver__getValue_ok Hopt UseVisitorHash simplifyExprs _ Hask)].
  intros n Hn. eapply sat_conseq; [exact Hn|]. cbn [expr]. intros c [Hw Ha]. unfold getZExtValue.
  rewrite Hw, Hwidth, (proj2 (Z.leb_le _ _) Hwidth64). split_and!; [done|done|..];
    destruct Ha as (rho & Hm & <-); cbn [expr]; pose proof (denotes_range _ _ _ _ rho pointer_denotes Hm) as Hr;
    assert (2 ^ getPointerWidth <= 2 ^ 64) by (apply Z.pow_le_mono_r; lia); lia.
Qed.

(** The object in front of the example, if the example is in it. *)
Lemma example_found a (x : ObjectPair) :
  reaches a -> 0 <= a < 2 ^ 64 ->
  ITree.lookup_previous (K:=MemoryObject) (V:=ObjectPair) fst MemoryObjectLT (hack a) (objects sp) = Some x ->
  example_in a x = true -> found x.
Proof.
  intros Hr Ha E Hex. pose proof (lookup_previous_ok (objects sp) a Hmap) as Hl. rewrite E in Hl.
  destruct Hl as (Hx & Hle & _). destruct (placed_64 x Hx) as (P1 & P2 & P3). split; [done|].
  apply (reached a); [done|]. unfold example_in, u64 in Hex. rewrite wrapU_small in Hex by lia.
  apply Z.ltb_lt in Hex. unfold points_into. lia.
Qed.

(** C7: the fast resolution of a pointer, constant or symbolic: with enough
    fuel for the simplification the call returns; the object it returns is one
    that the pointer can point into under the path condition, and if it
    returns none, there is none, whatever example the solver gave. *)
Theorem resolveOne_correct :
  eventually (fun n => meets (resolveOne UseVisitorHash simplifyExprs n cs sp p) (fun r =>
    match r with Some x => found x | None => forall x, x ∈ bindings (objects sp) -> never (points_into x.1) end)).
Proof.
  destruct (pointer_cases p) as [[c Ep]|Hsym].
  - apply eventually_ret. destruct (constant_pointer c Ep) as (_ & _ & r & E & Hf & Hn). intros n. rewrite Ep. apply sat_lift.
    exists r. split; [done|]. destruct r as [x|]; [by apply Hf|]. intros x Hx. by destruct (Hn x Hx).
  - eapply eventually_impl; [|apply eventually_and; [apply pointer_example_ok|apply all_ready]]. intros n [Hv Hr].
    rewrite resolveOne_symbolic by done. eapply sat_bind; [exact Hv|].
    intros c (Ec & Hreach & Hrange). apply (sat_known _ _ _ _ _ _ Ec).
    destruct (ITree.lookup_previous _ _ _ _) as [x|] eqn:El; [|by apply resolveOne_search_ok].
    destruct (example_in (cvalue c) x) eqn:Ein; [|by apply resolveOne_search_ok].
    apply sat_ret. by apply (example_found (cvalue c)).
Qed.

(** C6: the full resolution: the call returns; every object of the list is one
    that the pointer can point into; with a limit above 1 there are no more
    than that many; and unless the resolution is reported incomplete, which
    needs a failed query, an expired timer or the limit reached, the list has
    every object that the pointer can point into. *)
Theorem resolve_complete expired maxResolutions :
  eventually (fun n => meets (resolve UseVisitorHash simplifyExprs n cs expired sp p [] maxResolutions)
    (fun r => resolved expired maxResolutions r.1 r.2)).
Proof.
  destruct (pointer_cases p) as [[c Ep]|Hsym].
  - apply eventually_ret. destruct (constant_pointer c Ep) as (_ & _ & r & E & Hf & Hn). intros n. rewrite Ep.
    apply (sat_known _ _ _ _ _ _ E), sat_ret. simpl. split_and!.
    + destruct r; repeat constructor; by apply Hf.
    + destruct r; simpl; lia.
    + intros x Hx. destruct (Hn x Hx) as [->|?]; [left; left|by right].
  - eapply eventually_impl; [|apply eventually_and; [apply pointer_example_ok|apply all_ready]]. intros n [Hv Hr].
    rewrite resolve_symbolic by done. eapply sat_bind; [apply sat_attempt, Hv|]. intros [c|].
    + intros (Ec & _ & _). apply (sat_known _ _ _ _ _ _ Ec). by apply resolve_search_ok.
    + intros Hfail. apply sat_ret. split_and!; [by constructor|simpl; lia|by left].
Qed.

End Symbolic.
