(* ===== verification/AddressSpaceExternal.v ===== *)
(** * External calls

    Before an external function is called the concrete bytes of the objects
    are copied to the addresses that the program has for them; after the call
    the bytes that changed are copied back, into copies of the object states
    that other address spaces share.  Only the concrete store of an object is
    copied: the masks, the known symbolic bytes and the list of updates stay.
    [external_call_correct] states what reads see of the bytes copied back,
    and where the places that have a byte no longer agree. *)

From stdpp Require Import sorting.
From S2P Require Import Prelude ImmutableTree ExprData ExprCreate Constraints Solver TimingSolver ExprSem ExprBool ExprArith ExprBits ExprSpec Memory MemorySpec AddressSpace AddressSpaceShare AddressSpaceResolve.

(** The objects have their bytes, and states of their own. *)
Record concrete_space (h : Heap) (sp : AddressSpace) : Prop := {
  cc_map : map_ok (objects sp);
  cc_disjoint : disjoint_objects (objects sp);
  cc_state : forall x, x ∈ bindings (objects sp) -> exists os, states h !! x.2 = Some os /\
    Z.of_nat (length (concreteStore os)) = mo_size x.1 /\ size os = mo_size x.1;
  cc_distinct : forall x y, x ∈ bindings (objects sp) -> y ∈ bindings (objects sp) -> x.2 = y.2 -> x = y;
  cc_fresh : forall p, is_Some (states h !! p) -> p < next_state h
}.

Lemma all_objects_ok sp : map_ok (objects sp) -> all_objects sp = Ret (bindings (objects sp)).
Proof. intros Hm. by apply (ITree.iteration_complete fst MemoryObjectLT null_pair (objects sp)). Qed.

Lemma store_bytes_all os mo :
  Z.of_nat (length (concreteStore os)) = mo_size mo -> store_bytes_of os (mo_size mo) = Ret (concreteStore os).
Proof. intros E. unfold store_bytes_of. rewrite (proj2 (Z.leb_le _ _)) by lia. f_equal. apply take_ge. lia. Qed.

(** ** Bytes in memory *)

Lemma peek_ext raw raw' a n : (forall x, a <= x < a + n -> raw' x = raw x) -> peek_bytes raw' a n = peek_bytes raw a n.
Proof. intros He. unfold peek_bytes. apply list_fmap_ext. intros i x [-> Hi]%lookup_seqZ. apply He. lia. Qed.

Lemma length_peek raw a n : 0 <= n -> Z.of_nat (length (peek_bytes raw a n)) = n.
Proof. intros Hn. unfold peek_bytes. rewrite length_fmap, length_seqZ. lia. Qed.

Lemma peek_poke raw a l : peek_bytes (poke_bytes raw a l) a (Z.of_nat (length l)) = l.
Proof.
  apply list_eq_same_length with (length l); [|unfold peek_bytes; rewrite length_fmap, length_seqZ; lia|].
  { done. }
  intros i x y Hi Hx Hy. unfold peek_bytes in Hx. rewrite list_lookup_fmap in Hx.
  destruct (seqZ _ _ !! i) as [z|] eqn:E; [|done]. apply lookup_seqZ in E as [-> _]. injection Hx as <-.
  unfold poke_bytes. rewrite (proj2 (andb_true_iff _ _)) by (split; [apply Z.leb_le|apply Z.ltb_lt]; lia).
  replace (Z.to_nat (a + Z.of_nat i - a)) with i by lia. by rewrite Hy.
Qed.

Lemma poke_other raw a l x : ~ (a <= x < a + Z.of_nat (length l)) -> poke_bytes raw a l x = raw x.
Proof.
  intros Hx. unfold poke_bytes. destruct ((a <=? x) && _) eqn:E; [|done]. to_prop. lia.
Qed.

(** ** Copying out *)

(** The object of a binding is one that the program may change. *)
Definition exchanged (h : Heap) (x : ObjectPair) (os : ObjectState) : Prop :=
  states h !! x.2 = Some os /\ isUserSpecified x.1 = false /\ readOnly os = false.

Definition inside_object (x : ObjectPair) (a : Z) : Prop := address x.1 <= a < address x.1 + mo_size x.1.

Definition apart (x y : ObjectPair) : Prop := forall a, inside_object x a -> ~ inside_object y a.

(** What the loop over [l] leaves in memory. *)
Record copied_out (h : Heap) (l : list ObjectPair) (raw raw' : Z -> Z) : Prop := {
  co_bytes : forall x os, x ∈ l -> exchanged h x os ->
    peek_bytes raw' (address x.1) (mo_size x.1) = concreteStore os;
  co_others : forall a, (forall x os, x ∈ l -> exchanged h x os -> ~ inside_object x a) -> raw' a = raw a
}.

Lemma copied_out_skip h x l raw raw' :
  (forall os, exchanged h x os -> mo_size x.1 = 0 /\ concreteStore os = []) ->
  copied_out h l raw raw' -> copied_out h (x :: l) raw raw'.
Proof.
  intros Hx [C1 C2]. split.
  - intros y os [->|Hy]%elem_of_cons Hex; [|auto]. destruct (Hx os Hex) as [E1 E2]. by rewrite E1, E2.
  - intros a Ha. apply C2. intros y os Hy. apply Ha. by right.
Qed.

Lemma copied_out_poke h x l raw raw' os :
  exchanged h x os -> Z.of_nat (length (concreteStore os)) = mo_size x.1 -> (forall y, y ∈ l -> apart x y) ->
  copied_out h l (poke_bytes raw (address x.1) (concreteStore os)) raw' -> copied_out h (x :: l) raw raw'.
Proof.
  intros Hex Hlen Hap [C1 C2]. split.
  - intros y os' [->|Hy]%elem_of_cons Hey; [|auto]. destruct Hex as [E _], Hey as [E' _].
    replace os' with os by congruence. rewrite <- Hlen. erewrite peek_ext; [apply peek_poke|].
    intros a Ha. apply C2. intros z osz Hz _. apply (Hap z Hz). unfold inside_object. lia.
  - intros a Ha. rewrite C2; [|intros y os' Hy; apply Ha; by right]. apply poke_other. rewrite Hlen.
    apply (Ha x os); [left|done].
Qed.

Lemma copy_out_loop_ok pageSize h l : forall raw numPages,
  (forall x, x ∈ l -> exists os, states h !! x.2 = Some os /\
     Z.of_nat (length (concreteStore os)) = mo_size x.1 /\ size os = mo_size x.1) ->
  ForallOrdPairs apart l ->
  exists numPages' raw', copy_out_loop pageSize h l raw numPages = Ret (numPages', raw') /\ copied_out h l raw raw'.
Proof.
  induction l as [|[mo p] l IH]; intros raw numPages Hst Hap; cbn [copy_out_loop].
  { eexists _, _. split; [done|]. split; [by intros ? ? ?%elem_of_nil|done]. }
  destruct (Hst (mo, p)) as (os & E & Hlen & Hsz); [left|]. simpl in E, Hlen, Hsz. unfold load_state. rewrite E.
  cbn [of_option mbind outcome_bind]. inversion Hap as [|? ? Hhead Hap']; subst.
  assert (Hst' : forall x, x ∈ l -> exists os, states h !! x.2 = Some os /\
     Z.of_nat (length (concreteStore os)) = mo_size x.1 /\ size os = mo_size x.1) by (intros x Hx; apply Hst; by right).
  destruct (negb (isUserSpecified mo) && negb (readOnly os) && negb (size os =? 0)) eqn:Eif.
  - unfold copyOutConcrete. rewrite store_bytes_all by done. cbn [mbind outcome_bind].
    destruct (IH (poke_bytes raw (address mo) (concreteStore os))
      (u64 (numPages + u64 (Z.max (size os) (alignment mo) + pageSize - 1) / pageSize)) Hst' Hap') as (n' & raw' & E' & Hc).
    exists n', raw'. split; [done|]. apply andb_true_iff in Eif as [[E1 E2]%andb_true_iff _].
    apply negb_true_iff in E1, E2. apply (copied_out_poke h (mo, p) l raw raw' os); try done.
    intros y Hy. rewrite Forall_forall in Hhead. by apply Hhead.
  - destruct (IH raw numPages Hst' Hap') as (n' & raw' & E' & Hc). exists n', raw'. split; [done|].
    apply copied_out_skip; [|done]. intros os' (Eo & E1 & E2). simpl in *. replace os' with os in * by congruence.
    rewrite E1, E2 in Eif. simpl in Eif. apply negb_false_iff, Z.eqb_eq in Eif. rewrite <- Hsz, Eif in *.
    split; [lia|]. apply length_zero_iff_nil. lia.
Qed.

Lemma bindings_apart sp : map_ok (objects sp) -> disjoint_objects (objects sp) -> ForallOrdPairs apart (bindings (objects sp)).
Proof.
  intros [Hb _] Hd. unfold ITree.bst, disjoint_objects in *. revert Hb Hd. generalize (bindings (objects sp)).
  intros l Hs. induction Hs as [|x l Hs IH Hx]; intros Hd; constructor.
  - apply Forall_forall. intros y Hy a Hxa Hya. rewrite Forall_forall in Hx. specialize (Hx y Hy).
    apply Z.ltb_lt in Hx. unfold inside_object in *.
    pose proof (Hd x y ltac:(left) ltac:(by right) Hx). lia.
  - apply IH. intros y z Hy Hz. apply Hd; by right.
Qed.

(** ** Copying in *)

(** The state [os'] of an object is [os] with the bytes of the memory in the
    concrete store. *)
Record returned_state (raw : Z -> Z) (mo : MemoryObject) (os os' : ObjectState) : Prop := {
  rs_store : concreteStore os' = peek_bytes raw (address mo) (mo_size mo);
  rs_concrete : concreteMask os' = concreteMask os;
  rs_known : knownSymbolics os' = knownSymbolics os;
  rs_unflushed : unflushedMask os' = unflushedMask os;
  rs_root : root os' = root os;
  rs_head : head os' = head os;
  rs_size : size os' = size os
}.

(** The object, whose state was [os], has the bytes of the memory. *)
Definition has_bytes (raw : Z -> Z) (h : Heap) (sp : AddressSpace) (mo : MemoryObject) (os : ObjectState) : Prop :=
  exists p os', (mo, p) ∈ bindings (objects sp) /\ states h !! p = Some os' /\ returned_state raw mo os os'.

(** A step that may change the objects at the addresses of [l]. *)
Record changes_only (l : list ObjectPair) (h : Heap) (sp : AddressSpace) (h' : Heap) (sp' : AddressSpace) : Prop := {
  ch_space : concrete_space h' sp';
  ch_key : cowKey sp' = cowKey sp;
  ch_others : forall y, y ∈ bindings (objects sp) -> (forall x, x ∈ l -> address x.1 <> address y.1) ->
    y ∈ bindings (objects sp') /\ states h' !! y.2 = states h !! y.2;
  ch_foreign : forall q os, states h !! q = Some os -> copyOnWriteOwner os <> cowKey sp -> states h' !! q = Some os
}.

Lemma changes_nothing l h sp : concrete_space h sp -> changes_only l h sp h sp.
Proof. by split. Qed.

Lemma changes_trans x l h sp h1 sp1 h2 sp2 :
  changes_only [x] h sp h1 sp1 -> changes_only l h1 sp1 h2 sp2 -> changes_only (x :: l) h sp h2 sp2.
Proof.
  intros [A1 A2 A3 A4] [B1 B2 B3 B4]. split; [done|congruence| |].
  - intros y Hy Hne. destruct (A3 y Hy) as [Hy1 E1]; [by intros z ->%list_elem_of_singleton; apply Hne; left|].
    destruct (B3 y Hy1) as [Hy2 E2]; [intros z Hz; apply Hne; by right|]. split; [done|congruence].
  - intros q os E Ho. apply B4; [by apply A4|by rewrite A2].
Qed.

(** The bytes go into the object state of the space, or into a new one. *)
Lemma write_own_ok h sp mo p os bytes :
  concrete_space h sp -> (mo, p) ∈ bindings (objects sp) -> states h !! p = Some os ->
  copyOnWriteOwner os = cowKey sp -> length bytes = length (concreteStore os) ->
  changes_only [(mo, p)] h sp (set_state h p (with_store bytes os)) sp.
Proof.
  intros [C1 C2 C3 C4 C5] Hin E Ho Hlen. split; simpl; auto.
  - split; simpl; auto.
    + intros x Hx. destruct (decide (x.2 = p)) as [Ep|Hp].
      * rewrite Ep, lookup_insert_eq. eexists. split; [done|]. simpl. rewrite Hlen.
        destruct (C3 x Hx) as (os' & E' & H'). by replace os with os' by congruence.
      * rewrite lookup_insert_ne by done. auto.
    + intros q [os' [[<- _]|[_ Eq]]%lookup_insert_Some]; apply C5; eauto.
  - intros y Hy Hne. split; [done|]. apply lookup_insert_ne. intros Ep.
    apply (Hne (mo, p)); [left|]. by rewrite (C4 y (mo, p) Hy Hin (eq_sym Ep)).
  - intros q os' Eq Hne. rewrite lookup_insert_ne; [done|]. intros ->. congruence.
Qed.

Lemma write_copy_ok h sp mo p os bytes :
  concrete_space h sp -> (mo, p) ∈ bindings (objects sp) -> states h !! p = Some os ->
  length bytes = length (concreteStore os) ->
  let wp := next_state h in
  let wos := with_store bytes (with_owner (cowKey sp)
    (mkObjectState 0 (object os) (concreteStore os) (concreteMask os) (knownSymbolics os)
       (unflushedMask os) (root os) (head os) (size os) false)) in
  changes_only [(mo, p)] h sp (mkHeap (<[wp := wos]> (states h)) (wp + 1))
    (mkSpace (cowKey sp) (ITree.replace fst MemoryObjectLT null_pair (mo, wp) (objects sp))).
Proof.
  intros [C1 C2 C3 C4 C5] Hin E Hlen wp wos.
  assert (Hfresh : forall x, x ∈ bindings (objects sp) -> x.2 <> wp).
  { intros x Hx Ew. destruct (C3 x Hx) as (os' & E' & _). specialize (C5 x.2 ltac:(eauto)). subst wp. lia. }
  assert (Hof : forall x, x ∈ bindings (ITree.replace fst MemoryObjectLT null_pair (mo, wp) (objects sp)) ->
    x = (mo, wp) \/ (x ∈ bindings (objects sp) /\ address x.1 <> address mo))
    by (intros x Hx; by apply bindings_replace in Hx).
  destruct (C3 (mo, p) Hin) as (os' & E' & Hl & Hs). simpl in E', Hl, Hs. replace os' with os in * by congruence.
  split; simpl; auto.
  - split; simpl.
    + by apply replace_ok.
    + intros x y Hx%Hof Hy%Hof. destruct Hx as [->|[Hx _]], Hy as [->|[Hy _]]; simpl.
      * lia.
      * apply (C2 (mo, p) y Hin Hy).
      * apply (C2 x (mo, p) Hx Hin).
      * by apply C2.
    + intros x [->|[Hx _]]%Hof; simpl.
      * rewrite lookup_insert_eq. eexists. split; [done|]. simpl. by rewrite Hlen.
      * rewrite lookup_insert_ne by (intros Ew; by apply (Hfresh x)). auto.
    + intros x y Hx%Hof Hy%Hof Exy. destruct Hx as [->|[Hx _]], Hy as [->|[Hy _]]; simpl in *; auto.
      * by destruct (Hfresh y).
      * by destruct (Hfresh x).
    + intros q [os2 [[<- _]|[_ Eq]]%lookup_insert_Some]; [lia|]. specialize (C5 q ltac:(eauto)). subst wp. lia.
  - intros y Hy Hne. split; [|apply lookup_insert_ne; intros Ew; by apply (Hfresh y)].
    apply bindings_replace; [done|]. right. split; [done|]. specialize (Hne (mo, p) ltac:(left)). simpl in *. congruence.
  - intros q os2 Eq _. rewrite lookup_insert_ne; [done|]. intros <-. specialize (C5 wp ltac:(eauto)). subst wp. lia.
Qed.

Lemma splice_all {A} (l l' : list A) : length l' = length l -> splice l 0 l' = l'.
Proof. intros E. unfold splice. simpl. rewrite drop_ge by lia. apply app_nil_r. Qed.

Lemma copyInConcrete_ok raw h sp mo p os :
  concrete_space h sp -> (mo, p) ∈ bindings (objects sp) -> states h !! p = Some os ->
  (readOnly os = true -> concreteStore os = peek_bytes raw (address mo) (mo_size mo)) ->
  exists h' sp', copyInConcrete raw h sp mo p (address mo) = Ret (Some (h', sp')) /\
    changes_only [(mo, p)] h sp h' sp' /\ has_bytes raw h' sp' mo os.
Proof.
  intros Hsp Hin E Hro. destruct (cc_state _ _ Hsp (mo, p) Hin) as (os' & E' & Hlen & _). simpl in E', Hlen.
  replace os' with os in * by congruence. unfold copyInConcrete, load_state. rewrite E. cbn [of_option mbind outcome_bind].
  rewrite store_bytes_all by done. cbn [mbind outcome_bind].
  pose proof (length_peek raw (address mo) (mo_size mo) ltac:(lia)) as Hpeek.
  set (bytes := peek_bytes raw (address mo) (mo_size mo)) in *.
  case_bool_decide as Eb.
  { exists h, sp. split; [done|]. split; [by apply changes_nothing|]. by exists p, os. }
  destruct (readOnly os) eqn:Er; [by destruct Eb; rewrite Hro|].
  assert (Hl : length bytes = length (concreteStore os)) by lia.
  unfold getWriteable, load_state. rewrite E. cbn [of_option mbind outcome_bind]. rewrite Er.
  cbn [negb assertM mbind outcome_bind]. destruct (Z.eqb_spec (cowKey sp) (copyOnWriteOwner os)) as [Eo|Eo].
  - cbn [mbind outcome_bind]. rewrite E. cbn [of_option mbind outcome_bind]. rewrite splice_all by done.
    eexists _, _. split; [done|]. split; [by apply write_own_ok|].
    exists p, (with_store bytes os). split_and!; [done|simpl; by rewrite lookup_insert_eq|by split].
  - unfold ObjectState__copy. rewrite Er. cbn [negb assertM mbind outcome_bind new_state states].
    rewrite lookup_insert_eq. cbn [of_option mbind outcome_bind]. rewrite splice_all by done.
    eexists _, _. split; [done|]. unfold set_state. simpl. rewrite insert_insert_eq.
    split; [by apply write_copy_ok|]. eexists _, _. split_and!; [|simpl; by rewrite lookup_insert_eq|by split].
    apply bindings_replace; [apply Hsp|]. by left.
Qed.

Lemma copy_in_loop_ok raw l : forall h sp,
  concrete_space h sp -> (forall x, x ∈ l -> x ∈ bindings (objects sp)) ->
  ForallOrdPairs (fun x y => address x.1 <> address y.1) l ->
  (forall x os, x ∈ l -> states h !! x.2 = Some os -> isUserSpecified x.1 = false -> readOnly os = true ->
     concreteStore os = peek_bytes raw (address x.1) (mo_size x.1)) ->
  exists h' sp', copy_in_loop raw h sp l = Ret (Some (h', sp')) /\ changes_only l h sp h' sp' /\
    forall x os, x ∈ l -> isUserSpecified x.1 = false -> states h !! x.2 = Some os -> has_bytes raw h' sp' x.1 os.
Proof.
  induction l as [|[mo p] l IH]; intros h sp Hsp Hin Hne Hro; cbn [copy_in_loop].
  { exists h, sp. split; [done|]. split; [by apply changes_nothing|by intros x os ?%elem_of_nil]. }
  inversion Hne as [|? ? Hhead Hne']; subst. rewrite Forall_forall in Hhead. simpl in Hhead.
  destruct (isUserSpecified mo) eqn:Eu.
  - destruct (IH h sp Hsp) as (h' & sp' & E' & [K1 K2 K3 K4] & Hb); [intros x Hx; apply Hin; by right|done| |].
    { intros x os Hx. apply Hro. by right. }
    exists h', sp'. split; [done|]. split.
    + split; auto. intros y Hy Hy'. apply K3; [done|]. intros x Hx. apply Hy'. by right.
    + intros x os [->|Hx]%elem_of_cons; [simpl; congruence|auto].
  - destruct (cc_state _ _ Hsp (mo, p) ltac:(apply Hin; left)) as (os & E & _ & _). simpl in E.
    destruct (copyInConcrete_ok raw h sp mo p os Hsp ltac:(apply Hin; left) E) as (h1 & sp1 & E1 & H1 & (p1 & os1 & B1 & S1 & O1)).
    { intros Er. by apply (Hro (mo, p) os); [left|..]. }
    rewrite E1. cbn [mbind outcome_bind].
    assert (Hrest : forall x, x ∈ l -> x ∈ bindings (objects sp1) /\ states h1 !! x.2 = states h !! x.2).
    { intros x Hx. apply (ch_others _ _ _ _ _ H1); [apply Hin; by right|]. intros y ->%list_elem_of_singleton. by apply Hhead. }
    destruct (IH h1 sp1) as (h2 & sp2 & E2 & H2 & Hb); [apply H1|by intros x Hx; apply Hrest|done| |].
    { intros x os' Hx Eo. destruct (Hrest x Hx) as [_ Ex]. rewrite Ex in Eo. apply (Hro x os'); [by right|done]. }
    exists h2, sp2. split; [done|]. split; [by eapply changes_trans|].
    intros x os' [->|Hx]%elem_of_cons Hu Eo; [|destruct (Hrest x Hx) as [_ Ex]; apply Hb; auto; by rewrite Ex].
    simpl in Eo. replace os' with os by congruence.
    destruct (ch_others _ _ _ _ _ H2 (mo, p1) B1) as [B2 S2]; [intros x Hx; specialize (Hhead x Hx); simpl in *; congruence|].
    exists p1, os1. split_and!; [done| |done]. simpl in S2. by rewrite S2.
Qed.

Lemma bindings_addresses sp :
  map_ok (objects sp) -> ForallOrdPairs (fun x y => address x.1 <> address y.1) (bindings (objects sp)).
Proof.
  intros [Hb _]. unfold ITree.bst in Hb. induction Hb as [|x l Hs IH Hx]; constructor; [|done].
  eapply Forall_impl; [exact Hx|]. intros y Hy%Z.ltb_lt. lia.
Qed.

(** ** What the program reads after the call *)

Section Reads.
Context `{ExprOptions} `{DivByZero}.

(** A byte that is both in the concrete store and in the list of updates. *)
Definition doubled (os : ObjectState) (i : Z) : Prop := conc os i = true /\ unfl os i = false.

(** The concrete bytes are those of the memory, the symbolic ones stay. *)
Definition returned (raw : Z -> Z) (mo : MemoryObject) (os : ObjectState) (V : assignment -> Z -> Z)
    : assignment -> Z -> Z :=
  fun rho i => if conc os i then raw (address mo + i) else V rho i.

Lemma peek_lookup raw a n i : 0 <= i < n -> peek_bytes raw a n !! Z.to_nat i = Some (raw (a + i)).
Proof.
  intros Hi. unfold peek_bytes. rewrite list_lookup_fmap, lookup_seqZ_lt by lia. simpl. f_equal. f_equal. lia.
Qed.

Lemma returned_stored raw mo os os' i :
  returned_state raw mo os os' -> 0 <= i < mo_size mo -> stored os' i = raw (address mo + i).
Proof. intros Hr Hi. unfold stored. by rewrite (rs_store _ _ _ _ Hr), peek_lookup. Qed.

Lemma returned_same raw mo os os' :
  returned_state raw mo os os' ->
  (forall i, conc os' i = conc os i) /\ (forall i, unfl os' i = unfl os i) /\ (forall i, symb os' i = symb os i) /\
  (forall rho i, upd_value rho os' i = upd_value rho os i).
Proof.
  intros []. split_and!; intros; unfold conc, unfl, symb, upd_value, base_array; congruence.
Qed.

Lemma returned_shape raw mo os os' :
  returned_state raw mo os os' -> size os = mo_size mo -> (forall a, 0 <= raw a < 256) -> shape os -> shape os'.
Proof.
  intros [] Hsz Hraw []. split; rewrite ?rs_size0, ?rs_concrete0, ?rs_unflushed0, ?rs_known0; auto.
  - rewrite rs_store0, Hsz. apply length_peek. lia.
  - rewrite rs_store0. apply Forall_forall. intros b (a & -> & _)%list_elem_of_fmap. apply Hraw.
Qed.

Lemma returned_updates D raw mo os os' : returned_state raw mo os os' -> updates_ok D os -> updates_ok D os'.
Proof. intros [] []. split; rewrite ?rs_root0, ?rs_size0, ?rs_head0; auto. Qed.

(** The places agree on every byte if no byte that is in two of them changed. *)
Lemma returned_ok D V raw mo os os' :
  returned_state raw mo os os' -> size os = mo_size mo -> (forall a, 0 <= raw a < 256) -> object_ok D V os ->
  (forall i, 0 <= i < size os -> doubled os i -> raw (address mo + i) = stored os i) ->
  object_ok D (returned raw mo os V) os'.
Proof.
  intros Hr Hsz Hraw [Hs Hu Hb] Hd. destruct (returned_same raw mo os os' Hr) as (Ec & Eu & Ek & Ev).
  split; [by eapply returned_shape|by eapply returned_updates|]. rewrite (rs_size _ _ _ _ Hr).
  intros i Hi. destruct (Hb i Hi) as [B1 B2 B3 B4]. unfold returned.
  split; rewrite ?Ec, ?Eu, ?Ek.
  - intros -> rho _. by rewrite (returned_stored raw mo os) by (done || lia).
  - intros e He. destruct (B2 e He) as [-> Hd']. done.
  - done.
  - intros Hf rho HD. rewrite Ev, B4 by done. destruct (conc os i) eqn:E; [|done].
    by rewrite B1, Hd by (done || (split; done)).
Qed.

(** A changed byte that is in two places has two values. *)
Lemma returned_split D V V' raw mo os os' rho i :
  returned_state raw mo os os' -> size os = mo_size mo -> object_ok D V os -> D rho ->
  0 <= i < size os -> doubled os i -> raw (address mo + i) <> stored os i -> ~ object_ok D V' os'.
Proof.
  intros Hr Hsz [_ _ Hb] HD Hi [Hc Hf] Hne [_ _ Hb']. rewrite (rs_size _ _ _ _ Hr) in Hb'.
  destruct (returned_same raw mo os os' Hr) as (Ec & Eu & _ & Ev).
  destruct (Hb i Hi) as [B1 _ _ B4], (Hb' i Hi) as [B1' _ _ B4'].
  specialize (B1 Hc rho HD). specialize (B4 Hf rho HD). rewrite Ec, Hc in B1'. rewrite Eu, Hf in B4'.
  specialize (B1' eq_refl rho HD). specialize (B4' eq_refl rho HD). rewrite Ev in B4'.
  rewrite (returned_stored raw mo os) in B1' by (done || lia). congruence.
Qed.

(** C8: an external call.  Copying out succeeds and puts the concrete store of
    every object that the program may write to at the object's address, and
    touches no other byte of memory.  Whatever bytes the call leaves in memory,
    if it leaves the read-only objects as they are, copying in succeeds, the
    map is still well formed, and no object state that the address space does
    not own has changed; every object is bound to its old state with the bytes
    of the memory in the concrete store.  For an object whose bytes were [V]
    this means: if the call changed no byte that is in the concrete store and
    also flushed to the list of updates, then the invariant of the object holds
    again, with the bytes of the memory where the object is concrete and the
    old values where it is symbolic; if it did change such a byte, then no
    bytes satisfy the invariant, as reads at constant offsets see the new byte
    and reads at symbolic offsets the old one. *)
Theorem external_call_correct pageSize h sp raw :
  concrete_space h sp ->
  exists pages raw1, copyOutConcretes pageSize h sp raw = Ret (pages, raw1) /\
    copied_out h (bindings (objects sp)) raw raw1 /\
    forall raw2, (forall a, 0 <= raw2 a < 256) ->
      (forall x os, x ∈ bindings (objects sp) -> states h !! x.2 = Some os -> isUserSpecified x.1 = false ->
         readOnly os = true -> concreteStore os = peek_bytes raw2 (address x.1) (mo_size x.1)) ->
      exists h' sp', copyInConcretes raw2 h sp = Ret (Some (h', sp')) /\ concrete_space h' sp' /\
        (forall p os, states h !! p = Some os -> copyOnWriteOwner os <> cowKey sp -> states h' !! p = Some os) /\
        forall mo p os, (mo, p) ∈ bindings (objects sp) -> isUserSpecified mo = false -> states h !! p = Some os ->
          exists p' os', (mo, p') ∈ bindings (objects sp') /\ states h' !! p' = Some os' /\
            returned_state raw2 mo os os' /\
            forall D V, object_ok D V os ->
              ((forall i, 0 <= i < size os -> doubled os i -> raw2 (address mo + i) = stored os i) ->
                 object_ok D (returned raw2 mo os V) os') /\
              (forall i rho, D rho -> 0 <= i < size os -> doubled os i -> raw2 (address mo + i) <> stored os i ->
                 forall V', ~ object_ok D V' os').
Proof.
  intros Hsp. pose proof Hsp as [C1 C2 C3 _ _]. unfold copyOutConcretes, copyInConcretes.
  rewrite all_objects_ok by done. cbn [mbind outcome_bind].
  destruct (copy_out_loop_ok pageSize h (bindings (objects sp)) raw 0 C3) as (pages & raw1 & E & Hc);
    [by apply bindings_apart|]. exists pages, raw1. split; [done|]. split; [done|]. intros raw2 Hraw Hro.
  destruct (copy_in_loop_ok raw2 (bindings (objects sp)) h sp Hsp) as (h' & sp' & E' & [K1 _ _ K4] & Hb); auto.
  { by apply bindings_addresses. }
  exists h', sp'. split_and!; auto. intros mo p os Hin Hu Eo.
  destruct (Hb (mo, p) os Hin Hu Eo) as (p' & os' & Hin' & Eo' & Hr).
  exists p', os'. split_and!; auto. intros D V Hok.
  destruct (C3 (mo, p) Hin) as (os0 & E0 & _ & Hsz). simpl in E0, Hsz. replace os0 with os in Hsz by congruence.
  split.
  - intros Hd. by apply returned_ok.
  - intros i rho HD Hi Hd Hne V'. by eapply returned_split.
Qed.

End Reads.
