(* ===== verification/AddressSpaceExample.v ===== *)
(** * Two states that share an object

    A state writes to an object and forks; the copy writes to the object at a
    symbolic offset.  On this script, and on two objects that one pointer may
    point into, the theorems on address spaces apply. *)

From S2P Require Import Prelude ImmutableTree ExprData ExprCreate ExprSem ExprBool ExprArith ExprBits ExprSpec ExprOrder ExprHeap ExprRebuild ExprNodes ExprVisitor Constraints ExprEval ExprReads Solver SolverRange SolverExample TimingSolver Memory MemorySpec MemoryBytes MemoryValues MemoryObjects MemoryExample AddressSpace AddressSpaceShare AddressSpaceResolve AddressSpaceExternal.

Module SharedObject.
Import MemoryExample.

Definition script : list step :=
  [Bind 0 mo None; WriteAt 0 mo (at_const 0) word; Fork 0; Constrain 1 inside; WriteAt 1 mo at_byte (ex_byte 1);
   ReadAt 0 mo (at_const 0) 32; ReadAt 1 mo at_byte 8; ReadAt 1 mo (at_const 4) 32].

(** The first state still reads what it wrote; the second reads its byte. *)
Example script_reads :
  (r ← run true script (first_world arrays); Ret (map (eval (bytes_are 2 255)) r.1)) = Ret [16909060; 255; 0].
Proof. by vm_compute. Qed.

Lemma const_offset (D : assignment -> Prop) n w :
  (exists rho, D rho) -> 0 <= n < 8 -> access_in 8 w n -> offset_valid D 8 w (at_const n).
Proof.
  intros HD Hn Hin. split; [|done| |left; by eexists].
  - apply denotes_self; [|done]. split; [done|]. simpl. lia.
  - intros rho _. change (eval rho (at_const n)) with n. by rewrite Z.mod_small by lia.
Qed.

Definition child (rho : assignment) : Prop := True /\ inside rho.

Lemma child_inside w : offset_valid inside 8 w at_byte -> offset_valid child 8 w at_byte.
Proof.
  intros [O1 O2 O3 O4]. split; [|destruct O2 as [rho ?]; by exists rho|by intros rho [_ Hr]; apply O3|done].
  destruct O1 as [D1 D2 D3 D4]. split; [done|done|..]; intros rho [_ Hr]; auto.
Qed.

Lemma word_store (D : assignment -> Prop) : (exists rho, D rho) -> access_valid D 8 (Store (at_const 0) word).
Proof. intros HD. split; [by split|split; [done|split; [right; by exists 4|by apply const_offset]]]. Qed.

Lemma script_ok : script_valid script (first_memory (fun _ => True)).
Proof.
  assert (Hsat : exists rho, child rho) by (exists (bytes_are 0 0); split; [done|exact inside_zero]).
  assert (Hany : exists rho : assignment, True) by (by exists (bytes_are 0 0)).
  refine (conj _ (conj _ (conj _ (conj _ (conj _ (conj _ (conj _ (conj _ I)))))))); cbn [spec_exec snd step_valid].
  - split_and!; [by eexists|done|done|done].
  - eexists _, _. split; [reflexivity|]. split; [reflexivity|]. by apply word_store.
  - by eexists.
  - by eexists.
  - eexists _, _. split; [reflexivity|]. split; [reflexivity|].
    split; [by apply ex_byte_wf|split; [done|split; [right; by exists 1|by apply child_inside, at_byte_valid]]].
  - eexists _, _. split; [reflexivity|]. split; [reflexivity|]. split; [right; by exists 4|by apply const_offset].
  - eexists _, _. split; [reflexivity|]. split; [reflexivity|]. split; [right; by exists 1|by apply child_inside, at_byte_valid].
  - eexists _, _. split; [reflexivity|]. split; [reflexivity|]. split; [right; by exists 4|by apply const_offset].
Qed.

Lemma copy_on_write_refines_witness :
  exists es w, run true script (first_world arrays) = Ret (es, w) /\
    Forall2 reads_as es (spec_run script (first_memory (fun _ => True))).
Proof. exact (copy_on_write_refines true arrays (fun _ => True) script arrays_ok eq_refl script_ok). Defined.

End SharedObject.

Module TwoObjects.
Import Enumeration.
#[local] Existing Instances universe options divz solver solver_spec.
Instance target : TargetContext := {| isLittleEndian := true; getPointerWidth := 64 |}.

Lemma two_objects_option : @ConstArrayOpt options = false.
Proof. done. Qed.

(** A symbolic byte below ten, as an index from the start of the first object. *)
Definition pointer : Expr := Binary Kind.Add (Constant (mkConst 65536 64)) (ZExt x 64).
Definition first : MemoryObject := mkMO 1 65536 4 8 false.
Definition second : MemoryObject := mkMO 2 65544 8 8 false.
Definition far : MemoryObject := mkMO 3 131072 16 8 false.

Definition add (x : ObjectPair) (m : MemoryMap) : MemoryMap := ITree.replace fst MemoryObjectLT null_pair x m.
Definition space : AddressSpace := mkSpace 1 (add (far, 3) (add (second, 2) (add (first, 1) ITree.terminator))).

Definition never_expires (x : ObjectPair) : bool := false.

Example pointer_resolves :
  resolve true true 20 [small] never_expires space pointer [] 0 () = Ret (Some (false, [(first, 1); (second, 2)]), ()) /\
  resolveOne true true 20 [small] space pointer () = Ret (Some (Some (first, 1)), ()).
Proof. by vm_compute. Qed.

(** The limit of one object is not kept: a list of one object is only tested
    for being the whole answer. *)
Example limit_one_ignored :
  resolve true true 20 [small] never_expires space pointer [] 1 () = Ret (Some (false, [(first, 1); (second, 2)]), ()).
Proof. by vm_compute. Qed.

(** With a limit of two the resolution stops there, and is incomplete. *)
Example limit_two_kept :
  resolve true true 20 [small] never_expires space pointer [] 2 () = Ret (Some (true, [(first, 1); (second, 2)]), ()).
Proof. by vm_compute. Qed.

Lemma space_map : map_ok (objects space).
Proof. repeat apply replace_ok. by split; constructor. Qed.

Lemma space_bindings x : x ∈ bindings (objects space) -> x = (first, 1) \/ x = (second, 2) \/ x = (far, 3).
Proof.
  change (bindings (objects space)) with [(first, 1); (second, 2); (far, 3)].
  rewrite !elem_of_cons. intros [?|[?|[?|?%elem_of_nil]]]; auto. done.
Qed.

Lemma space_disjoint : disjoint_objects (objects space).
Proof.
  intros x y Hx%space_bindings Hy%space_bindings. destruct Hx as [->|[->| ->]], Hy as [->|[->| ->]]; simpl; lia.
Qed.

Lemma space_placed x : x ∈ bindings (objects space) -> placed x.1.
Proof. intros [->|[->| ->]]%space_bindings; by split. Qed.

Lemma pointer_askable : askable true (mkQuery [small] pointer).
Proof.
  split; [apply small_constraints| |apply small_feasible]. split.
  - cbn. pose proof (good_wf _ x_good). cbn in *. unfold wf_const, wf_width in *. cbn in *. intuition (done || lia).
  - cbn. unfold ExprVisitor.read_ok. split_and!; done.
Qed.

Lemma resolveOne_correct_witness :
  eventually (fun n => sat (S:=unit) solver_inv solver_fails (resolveOne true true n [small] space pointer) (fun r =>
    match r with
    | Some x => found [small] pointer space x
    | None => forall x, x ∈ bindings (objects space) -> never [small] pointer (points_into x.1)
    end)).
Proof.
  exact (resolveOne_correct two_objects_option true true [small] pointer pointer_askable eq_refl space
    space_map space_disjoint space_placed ltac:(by vm_compute)).
Defined.

Lemma resolve_complete_witness :
  eventually (fun n => sat (S:=unit) solver_inv solver_fails (resolve true true n [small] never_expires space pointer [] 0)
    (fun r => resolved (S:=unit) [small] pointer space never_expires 0 r.1 r.2)).
Proof.
  exact (resolve_complete two_objects_option true true [small] pointer pointer_askable eq_refl space
    space_map space_disjoint space_placed ltac:(by vm_compute) never_expires 0).
Defined.

(** ** A call *)

(** The space owns the state of the first object only. *)
Definition object_states : Heap :=
  mkHeap (<[1 := with_owner 1 (blank_object first None)]> (<[2 := blank_object second None]>
    (<[3 := blank_object far None]> ∅))) 4.

(** The call writes 7 to the second byte of the second object. *)
Definition call (raw : Z -> Z) : Z -> Z := fun a => if a =? 65545 then 7 else raw a.

Example call_changes :
  match copyOutConcretes 4096 object_states space (fun _ => 255) with
  | Ret (pages, raw) =>
      pages = 3 /\
      match copyInConcretes (call raw) object_states space with
      | Ret (Some (h, sp)) =>
          findObject sp first = Some 1 /\ findObject sp second = Some 4 /\
          option_map concreteStore (states h !! 2) = Some [0; 0; 0; 0; 0; 0; 0; 0] /\
          option_map concreteStore (states h !! 4) = Some [0; 7; 0; 0; 0; 0; 0; 0]
      | _ => False
      end
  | Stop _ => False
  end.
Proof. vm_compute. auto. Qed.

Lemma object_states_ok : concrete_space object_states space.
Proof.
  split; [apply space_map|apply space_disjoint| | |].
  - intros x [->|[->| ->]]%space_bindings; by eexists.
  - intros x y [->|[->| ->]]%space_bindings [->|[->| ->]]%space_bindings; done.
  - intros p [os E]. simpl in *. repeat (apply lookup_insert_Some in E as [[<- _]|[_ E]]; [lia|]). by rewrite lookup_empty in E.
Qed.

(** What the call leaves in memory. *)
Definition left_memory (a : Z) : Z := if a =? 65545 then 7 else 0.

Lemma second_ok (D : assignment -> Prop) : object_ok D (fun _ _ => 0) (blank_object second None).
Proof. by apply blank_object_ok. Qed.

(** After the call the second byte of the second object is 7. *)
Lemma external_call_correct_witness :
  exists h' sp' p' os', copyInConcretes left_memory object_states space = Ret (Some (h', sp')) /\
    (second, p') ∈ bindings (objects sp') /\ states h' !! p' = Some os' /\
    exists V, object_ok (fun _ => True) V os' /\ forall rho, V rho 1 = 7.
Proof.
  destruct (external_call_correct 4096 object_states space (fun _ => 255) object_states_ok) as (pages & raw1 & _ & _ & Hin).
  destruct (Hin left_memory) as (h' & sp' & E & _ & _ & Hobj).
  - intros a. unfold left_memory. destruct (a =? 65545); lia.
  - intros x os [->|[->| ->]]%space_bindings [= <-] _ [=].
  - destruct (Hobj second 2 (blank_object second None)) as (p' & os' & Hb & Es & _ & Hok);
      [change (bindings (objects space)) with [(first, 1); (second, 2); (far, 3)]; set_solver|reflexivity|reflexivity|].
    destruct (Hok (fun _ => True) _ (second_ok _)) as [Hret _].
    exists h', sp', p', os'. split; [exact E|]. split; [exact Hb|]. split; [exact Es|].
    eexists. split; [apply Hret|intros rho; reflexivity]. intros i _ [_ [=]].
Defined.

(** The same after a read at a symbolic offset has flushed the object: a read
    at the constant offset 1 gives the new byte, a read at a symbolic offset
    that is 1 the old one. *)
Definition flushed_states : outcome Heap :=
  os ← flushRangeForRead (blank_object second None) 0 8; Ret (set_state object_states 2 os).

Definition after_call (f : ObjectState -> outcome (Expr * ObjectState * ArrayCache)) : outcome Expr :=
  h ← flushed_states;
  r ← copyInConcretes left_memory h space;
  match r with
  | Some (h, sp) =>
      p ← of_option MemError (findObject sp second);
      os ← of_option MemError (states h !! p);
      '(e, _, _) ← f os;
      Ret e
  | None => Stop AssertFail
  end.

Example flushed_byte_split :
  (e ← after_call (fun os => read8 os MemoryExample.arrays 1); Ret (eval (byte_is 1) e)) = Ret 7 /\
  (e ← after_call (fun os => read8_at os MemoryExample.arrays (ZExt x 32)); Ret (eval (byte_is 1) e)) = Ret 0.
Proof. by vm_compute. Qed.

End TwoObjects.
