(* ===== verification/Searchers.v ===== *)
(** * Searchers

    The searchers of [lib/Core/Searcher.cpp] that keep their own collection of
    states: depth first, breadth first, random, interleaved, batching,
    iterative deepening, merging and the splitted searcher of the simulation
    mode.  A searcher is an instance of [Searcher]; what it promises to the
    engine is the class [SearcherSpec], which the composed searchers use of the
    searchers they contain.  States are identified by their addresses. *)

From stdpp Require Import gmap sorting.
From S2P Require Import Prelude.

Definition sid : Type := Z.

(** What a call observes of the outside: the numbers the generator draws, the
    readings of the clock, the number of instructions executed, and whether
    the engine is in simulation mode. *)
Record env : Type := mkEnv {
  rnd : nat -> Z;
  wall : nat -> Z;
  instructions : Z;
  is_simulation_mode : bool
}.

(** What is left for a call made after [k] draws and readings. *)
Definition later (k : nat) (e : env) : env :=
  mkEnv (fun i => rnd e (i + k)%nat) (fun i => wall e (i + k)%nat) (instructions e)
    (is_simulation_mode e).

(** ** The interface *)

Class Searcher (S : Type) : Type := {
  selectState : env -> S -> outcome (sid * S);
  update : env -> S -> option sid -> list sid -> list sid -> outcome S;
  empty : S -> bool
}.

(** The updates the engine makes to a searcher that holds [C]: new states are
    new, removed states are known and may be removed, the current state is
    held. *)
Record valid_update (R : sid -> Prop) (C : gset sid) (current : option sid)
    (added removed : list sid) : Prop := {
  vu_added : NoDup added;
  vu_fresh : forall x, x ∈ added -> x ∉ C;
  vu_removed : NoDup removed;
  vu_known : forall x, x ∈ removed -> x ∈ C \/ x ∈ added;
  vu_removable : forall x, x ∈ removed -> R x;
  vu_current : forall c, current = Some c -> c ∈ C
}.

Definition after (C : gset sid) (added removed : list sid) : gset sid :=
  (C ∪ list_to_set added) ∖ list_to_set removed.

Class SearcherSpec (R : sid -> Prop) (S : Type) `{Searcher S} : Type := {
  contents : S -> gset sid;
  Inv : S -> Prop;
  select_ok : forall e s, Inv s -> contents s <> ∅ ->
    exists x s', selectState e s = Ret (x, s') /\ x ∈ contents s /\
      Inv s' /\ contents s' = contents s;
  update_ok : forall e s current added removed, Inv s ->
    valid_update R (contents s) current added removed ->
    exists s', update e s current added removed = Ret s' /\
      Inv s' /\ contents s' = after (contents s) added removed;
  empty_ok : forall s, Inv s -> empty s = true <-> contents s = ∅
}.

(** ** Lists of states *)

(** [std::find] and [erase]: drop the first occurrence. *)
Fixpoint erase (x : sid) (l : list sid) : option (list sid) :=
  match l with
  | [] => None
  | y :: l' => if x =? y then Some l' else (fun r => y :: r) <$> erase x l'
  end.

Lemma erase_spec x l :
  NoDup l -> x ∈ l ->
  exists l', erase x l = Some l' /\ NoDup l' /\ forall y, y ∈ l' <-> y ∈ l /\ y <> x.
Proof.
  induction l as [|z l IH]; intros Hnd Hx; [by apply elem_of_nil in Hx|].
  apply NoDup_cons in Hnd as [Hz Hnd]. simpl. destruct (Z.eqb_spec x z) as [->|Hne].
  - exists l. split_and!; auto. set_solver.
  - destruct IH as (l' & -> & Hnd' & Hl'); [done|set_solver|]. simpl. eexists. split; [done|].
    split; [apply NoDup_cons; set_solver|]. set_solver.
Qed.

Lemma erase_none x l : x ∉ l -> erase x l = None.
Proof.
  induction l as [|z l IH]; intros Hx; [done|]. simpl.
  destruct (Z.eqb_spec x z); [set_solver|]. rewrite IH; [done|set_solver].
Qed.

(** A list of states without duplicates that holds the set [C]. *)
Definition holds (l : list sid) (C : gset sid) : Prop := NoDup l /\ forall x, x ∈ l <-> x ∈ C.

Lemma holds_to_set l : NoDup l -> holds l (list_to_set l).
Proof. intros. split; [done|]. set_solver. Qed.

Lemma holds_eq l C : holds l C -> list_to_set l = C.
Proof. intros [_ Hl]. set_solver. Qed.

Lemma holds_app l C added :
  holds l C -> NoDup added -> (forall x, x ∈ added -> x ∉ C) ->
  holds (l ++ added) (C ∪ list_to_set added).
Proof.
  intros [Hnd Hl] Ha Hf. split; [|set_solver]. apply NoDup_app. split_and!; auto. set_solver.
Qed.

Lemma holds_nonempty l C : holds l C -> C <> ∅ -> exists x l', l = x :: l' /\ x ∈ C.
Proof.
  intros [_ Hl] Hne. destruct l as [|x l]; [|exists x, l; split; [done|]; set_solver].
  destruct Hne. set_solver.
Qed.

(** ** Depth first *)

Record DFSSearcher : Type := mkDFS { dfs_states : list sid }.
Record BFSSearcher : Type := mkBFS { bfs_states : list sid }.
Record RandomSearcher : Type := mkRandom { random_states : list sid }.

Section Simple.
Variable isSimulationState : sid -> bool.

(** The states the engine removes from the searchers of normal states. *)
Definition normal (x : sid) : Prop := isSimulationState x = false.

(** The last element and the elements before it; [back] of an empty vector is
    an invalid access. *)
Fixpoint back (l : list sid) : option (sid * list sid) :=
  match l with
  | [] => None
  | x :: l' =>
      match back l' with
      | None => Some (x, [])
      | Some (y, r) => Some (y, x :: r)
      end
  end.

Fixpoint DFSSearcher_remove (states removed : list sid) : outcome (list sid) :=
  match removed with
  | [] => Ret states
  | x :: removed' =>
      if isSimulationState x then DFSSearcher_remove states removed'
      else
        match back states with
        | None => Stop MemError
        | Some (y, r) =>
            if x =? y then DFSSearcher_remove r removed'
            else
              match erase x states with
              | Some r' => DFSSearcher_remove r' removed'
              | None => Stop AssertFail
              end
        end
  end.

Definition DFSSearcher_selectState (e : env) (s : DFSSearcher) : outcome (sid * DFSSearcher) :=
  match back (dfs_states s) with
  | Some (x, _) => Ret (x, s)
  | None => Stop MemError
  end.

Definition DFSSearcher_update (e : env) (s : DFSSearcher) (current : option sid)
    (added removed : list sid) : outcome DFSSearcher :=
  mkDFS <$> DFSSearcher_remove (dfs_states s ++ added) removed.

Definition DFSSearcher_empty (s : DFSSearcher) : bool :=
  match dfs_states s with [] => true | _ => false end.

#[global] Instance DFSSearcher_ops : Searcher DFSSearcher := {|
  selectState := DFSSearcher_selectState;
  update := DFSSearcher_update;
  empty := DFSSearcher_empty
|}.

(** ** Breadth first *)

Fixpoint BFSSearcher_remove (states removed : list sid) : outcome (list sid) :=
  match removed with
  | [] => Ret states
  | x :: removed' =>
      match states with
      | [] => Stop MemError
      | y :: r =>
          if x =? y then BFSSearcher_remove r removed'
          else
            match erase x states with
            | Some r' => BFSSearcher_remove r' removed'
            | None => Stop AssertFail
            end
      end
  end.

(** A current state that forked and is not removed goes to the end. *)
Definition BFSSearcher_current (states : list sid) (current : option sid)
    (added removed : list sid) : outcome (list sid) :=
  match current with
  | Some c =>
      if negb (bool_decide (added = [])) && bool_decide (c ∉ removed) then
        match erase c states with
        | Some r => Ret (r ++ [c])
        | None => Stop AssertFail
        end
      else Ret states
  | None => Ret states
  end.

Definition BFSSearcher_selectState (e : env) (s : BFSSearcher) : outcome (sid * BFSSearcher) :=
  match bfs_states s with
  | x :: _ => Ret (x, s)
  | [] => Stop MemError
  end.

Definition BFSSearcher_update (e : env) (s : BFSSearcher) (current : option sid)
    (added removed : list sid) : outcome BFSSearcher :=
  st ← BFSSearcher_current (bfs_states s) current added removed;
  mkBFS <$> BFSSearcher_remove (st ++ added) removed.

Definition BFSSearcher_empty (s : BFSSearcher) : bool :=
  match bfs_states s with [] => true | _ => false end.

#[global] Instance BFSSearcher_ops : Searcher BFSSearcher := {|
  selectState := BFSSearcher_selectState;
  update := BFSSearcher_update;
  empty := BFSSearcher_empty
|}.

(** ** Random *)

Fixpoint RandomSearcher_remove (states removed : list sid) : outcome (list sid) :=
  match removed with
  | [] => Ret states
  | x :: removed' =>
      match erase x states with
      | Some r =>
          if isSimulationState x then RandomSearcher_remove states removed'
          else RandomSearcher_remove r removed'
      | None => Stop AssertFail
      end
  end.

Definition RandomSearcher_selectState (e : env) (s : RandomSearcher)
    : outcome (sid * RandomSearcher) :=
  let n := Z.of_nat (length (random_states s)) in
  if n =? 0 then Stop MemError
  else x ← of_option MemError (random_states s !! Z.to_nat (u32 (rnd e 0) mod n)); Ret (x, s).

Definition RandomSearcher_update (e : env) (s : RandomSearcher) (current : option sid)
    (added removed : list sid) : outcome RandomSearcher :=
  mkRandom <$> RandomSearcher_remove (random_states s ++ added) removed.

Definition RandomSearcher_empty (s : RandomSearcher) : bool :=
  match random_states s with [] => true | _ => false end.

#[global] Instance RandomSearcher_ops : Searcher RandomSearcher := {|
  selectState := RandomSearcher_selectState;
  update := RandomSearcher_update;
  empty := RandomSearcher_empty
|}.

(** ** The simple searchers meet the interface *)

Lemma back_spec l x r : back l = Some (x, r) -> l = r ++ [x].
Proof.
  revert x r. induction l as [|y l IH]; intros x r; [done|]. simpl.
  destruct (back l) as [[z r']|] eqn:E; intros Hb; simplify_eq.
  - by rewrite (IH x r').
  - destruct l as [|w l]; [done|]. simpl in E. by destruct (back l) as [[]|].
Qed.

Lemma back_None l : back l = None -> l = [].
Proof. destruct l as [|y l]; [done|]. simpl. by destruct (back l) as [[]|]. Qed.

(** One removal, as the loops of the three searchers do it. *)
Definition removes (loop : list sid -> list sid -> outcome (list sid)) (R : sid -> Prop) : Prop :=
  forall states removed C, holds states C -> NoDup removed ->
    (forall x, x ∈ removed -> x ∈ C) -> (forall x, x ∈ removed -> R x) ->
    exists states', loop states removed = Ret states' /\ holds states' (C ∖ list_to_set removed).

(** The induction the three loops share: one step removes the head. *)
Lemma removes_loop (loop : list sid -> list sid -> outcome (list sid)) R :
  (forall states, loop states [] = Ret states) ->
  (forall states x removed, NoDup states -> x ∈ states -> R x ->
    exists states', loop states (x :: removed) = loop states' removed /\
      NoDup states' /\ forall y, y ∈ states' <-> y ∈ states /\ y <> x) ->
  removes loop R.
Proof using Type.
  clear isSimulationState.
  intros Hnil Hstep states removed. revert states.
  induction removed as [|x removed IH]; intros states C [Hnd Hl] Hrnd Hin HR.
  - exists states. split; [done|]. split; [done|]. set_solver.
  - apply NoDup_cons in Hrnd as [Hx Hrnd].
    destruct (Hstep states x removed Hnd) as (st & Hst & Hnd' & Hst').
    { apply Hl. set_solver. } { apply HR. set_solver. }
    rewrite Hst. destruct (IH st (C ∖ {[x]})) as (st' & Hst2 & Hh).
    { split; [done|]. set_solver. } { done. } { set_solver. } { set_solver. }
    exists st'. split; [done|]. destruct Hh as [? Hh]. split; [done|]. set_solver.
Qed.

Lemma DFSSearcher_removes : removes DFSSearcher_remove normal.
Proof.
  apply removes_loop; [done|]. intros states x removed Hnd Hx HR. simpl. rewrite HR.
  destruct (back states) as [[y r]|] eqn:Eb; [|apply back_None in Eb; subst; set_solver].
  apply back_spec in Eb. destruct (Z.eqb_spec x y) as [->|Hne].
  - subst states. exists r. apply NoDup_app in Hnd as (Hr & Hd & _). split_and!; auto. set_solver.
  - destruct (erase_spec x states Hnd Hx) as (l' & -> & Hl'). by exists l'.
Qed.

Lemma BFSSearcher_removes R : removes BFSSearcher_remove R.
Proof using Type.
  clear isSimulationState.
  apply removes_loop; [done|]. intros states x removed Hnd Hx _.
  destruct states as [|y r]; [set_solver|].
  destruct (erase_spec x (y :: r) Hnd Hx) as (l' & He & Hl').
  cbn [BFSSearcher_remove]. destruct (Z.eqb_spec x y) as [->|Hne].
  - exists r. apply NoDup_cons in Hnd as [Hy Hr]. split_and!; auto. set_solver.
  - rewrite He. by exists l'.
Qed.

Lemma RandomSearcher_removes : removes RandomSearcher_remove normal.
Proof.
  apply removes_loop; [done|]. intros states x removed Hnd Hx HR. simpl.
  destruct (erase_spec x states Hnd Hx) as (l' & -> & Hl'). rewrite HR. by exists l'.
Qed.

(** Appending and removing is the update of the set. *)
Lemma removes_update loop R l C current added removed :
  removes loop R -> holds l C -> valid_update R C current added removed ->
  exists l', loop (l ++ added) removed = Ret l' /\ holds l' (after C added removed).
Proof using Type.
  clear isSimulationState.
  intros Hloop Hl []. apply Hloop; auto.
  - by apply holds_app.
  - set_solver.
Qed.

Lemma list_empty_ok l C : holds l C -> (match l with [] => true | _ => false end) = true <-> C = ∅.
Proof using Type.
  clear isSimulationState.
  intros [_ Hl]. destruct l as [|x l]; [set_solver|]. split; [done|]. intros ->. set_solver.
Qed.

#[global] Program Instance DFSSearcher_spec : SearcherSpec normal DFSSearcher := {
  contents s := list_to_set (dfs_states s);
  Inv s := NoDup (dfs_states s)
}.
Next Obligation.
  intros e [l] Hnd Hne. simpl in *. unfold DFSSearcher_selectState. simpl.
  destruct (back l) as [[x r]|] eqn:Eb; [|by apply back_None in Eb; subst].
  apply back_spec in Eb. eexists _, _. split; [done|]. split_and!; auto. set_solver.
Qed.
Next Obligation.
  intros e [l] current added removed Hnd Hv. simpl in *. unfold DFSSearcher_update. simpl.
  destruct (removes_update _ _ _ _ _ _ _ DFSSearcher_removes (holds_to_set l Hnd) Hv)
    as (l' & -> & Hh). exists (mkDFS l'). split_and!; [done|apply Hh|]. by apply holds_eq.
Qed.
Next Obligation. intros [l] Hnd. by apply list_empty_ok, holds_to_set. Qed.

Lemma BFSSearcher_current_ok R l C current added removed :
  holds l C -> valid_update R C current added removed ->
  exists l', BFSSearcher_current l current added removed = Ret l' /\ holds l' C.
Proof using Type.
  clear isSimulationState.
  intros Hh Hv. unfold BFSSearcher_current.
  destruct current as [c|]; [|by exists l]. case_match; [|by exists l].
  destruct Hh as [Hnd Hl].
  destruct (erase_spec c l Hnd) as (r & -> & Hr & Hmem).
  { apply Hl. by eapply vu_current. }
  exists (r ++ [c]). split; [done|]. split.
  - apply NoDup_app. split_and!; [done| |apply NoDup_singleton]. set_solver.
  - assert (c ∈ C) by (by eapply vu_current). intros x. rewrite elem_of_app, Hmem, Hl, list_elem_of_singleton.
    destruct (decide (x = c)) as [->|]; naive_solver.
Qed.

#[global] Program Instance RandomSearcher_spec : SearcherSpec normal RandomSearcher := {
  contents s := list_to_set (random_states s);
  Inv s := NoDup (random_states s)
}.
Next Obligation.
  intros e [l] Hnd Hne. simpl in *. unfold RandomSearcher_selectState. cbn [random_states].
  destruct (Z.eqb_spec (Z.of_nat (length l)) 0) as [Hz|Hz].
  { destruct l; [done|]. simpl in Hz. lia. }
  destruct (lookup_lt_is_Some_2 l (Z.to_nat (u32 (rnd e 0) mod Z.of_nat (length l)))) as [x Hx].
  { pose proof (Z.mod_pos_bound (u32 (rnd e 0)) (Z.of_nat (length l))). lia. }
  rewrite Hx. eexists _, _. split; [done|]. split_and!; auto.
  apply elem_of_list_to_set. by eapply list_elem_of_lookup_2.
Qed.
Next Obligation.
  intros e [l] current added removed Hnd Hv. simpl in *. unfold RandomSearcher_update. simpl.
  destruct (removes_update _ _ _ _ _ _ _ RandomSearcher_removes (holds_to_set l Hnd) Hv)
    as (l' & -> & Hh). exists (mkRandom l'). split_and!; [done|apply Hh|]. by apply holds_eq.
Qed.
Next Obligation. intros [l] Hnd. by apply list_empty_ok, holds_to_set. Qed.

End Simple.

#[global] Program Instance BFSSearcher_spec R : SearcherSpec R BFSSearcher := {
  contents s := list_to_set (bfs_states s);
  Inv s := NoDup (bfs_states s)
}.
Next Obligation.
  intros R e [[|x l]] Hnd Hne; simpl in *; [done|]. eexists _, _. split; [done|].
  split_and!; auto. set_solver.
Qed.
Next Obligation.
  intros R e [l] current added removed Hnd Hv. simpl in *. unfold BFSSearcher_update. simpl.
  destruct (BFSSearcher_current_ok R l _ _ _ _ (holds_to_set l Hnd) Hv) as (l1 & -> & Hh).
  cbn [mbind outcome_bind].
  destruct (removes_update _ _ _ _ _ _ _ (BFSSearcher_removes R) Hh Hv)
    as (l' & -> & Hh'). exists (mkBFS l'). split_and!; [done|apply Hh'|]. by apply holds_eq.
Qed.
Next Obligation. intros R [l] Hnd. by apply list_empty_ok, holds_to_set. Qed.

(** ** A choice between two kinds of searchers

    A pointer to a [Searcher] is a value of one of its subclasses; calls are
    dispatched on the constructor. *)

Section Sum.
Context {S1 S2 : Type} `{Searcher S1} `{Searcher S2}.

#[global] Instance sum_ops : Searcher (S1 + S2) := {|
  selectState e s :=
    match s with
    | inl s1 => '(x, s1') ← selectState e s1; Ret (x, inl s1')
    | inr s2 => '(x, s2') ← selectState e s2; Ret (x, inr s2')
    end;
  update e s current added removed :=
    match s with
    | inl s1 => inl <$> update e s1 current added removed
    | inr s2 => inr <$> update e s2 current added removed
    end;
  empty s := match s with inl s1 => empty s1 | inr s2 => empty s2 end
|}.

Context (R : sid -> Prop) `{!SearcherSpec R S1} `{!SearcherSpec R S2}.

#[global] Program Instance sum_spec : SearcherSpec R (S1 + S2) := {
  contents s := match s with inl s1 => contents s1 | inr s2 => contents s2 end;
  Inv s := match s with inl s1 => Inv s1 | inr s2 => Inv s2 end
}.
Next Obligation.
  intros e [s|s] HI Hne; simpl in *;
    destruct (select_ok e s HI Hne) as (x & s' & -> & Hx & HI' & Hc); simpl; eauto 10.
Qed.
Next Obligation.
  intros e [s|s] current added removed HI Hv; simpl in *;
    destruct (update_ok e s current added removed HI Hv) as (s' & -> & HI' & Hc); simpl; eauto.
Qed.
Next Obligation. intros [s|s] HI; simpl in *; by apply empty_ok. Qed.

End Sum.
