(* ===== verification/SearchersMeta.v ===== *)
(** * Searchers built from other searchers

    The interleaved and the batching searcher meet the interface of
    [Searchers] when the searchers they contain do; iterative deepening,
    merging and the splitted searcher are specified on top of it.  The engine's
    use of a searcher, a selection followed by an update, is a run whose live
    states the searcher tracks exactly. *)

From stdpp Require Import gmap sorting.
From S2P Require Import Prelude Searchers.

(** ** Interleaved *)

Record InterleavedSearcher (S : Type) : Type := mkInterleaved {
  searchers : list S;
  index : Z
}.
Arguments mkInterleaved {_} _ _.
Arguments searchers {_} _.
Arguments index {_} _.

Section Interleaved.
Context {S : Type} `{Searcher S}.

(** The constructor; [index] starts at 1. *)
Definition new_InterleavedSearcher (l : list S) : InterleavedSearcher S := mkInterleaved l 1.

(** The position asked next. *)
Definition turn (s : InterleavedSearcher S) : Z := u32 (index s - 1).

Definition InterleavedSearcher_selectState (e : env) (s : InterleavedSearcher S)
    : outcome (sid * InterleavedSearcher S) :=
  let i := turn s in
  b ← of_option MemError (searchers s !! Z.to_nat i);
  let index' := if i =? 0 then Z.of_nat (length (searchers s)) else i in
  '(x, b') ← selectState e b;
  Ret (x, mkInterleaved (<[Z.to_nat i := b']> (searchers s)) index').

Fixpoint update_all (e : env) (l : list S) (current : option sid) (added removed : list sid)
    : outcome (list S) :=
  match l with
  | [] => Ret []
  | b :: l' =>
      b' ← update e b current added removed;
      l'' ← update_all e l' current added removed;
      Ret (b' :: l'')
  end.

Definition InterleavedSearcher_update (e : env) (s : InterleavedSearcher S) (current : option sid)
    (added removed : list sid) : outcome (InterleavedSearcher S) :=
  l ← update_all e (searchers s) current added removed;
  Ret (mkInterleaved l (index s)).

Definition InterleavedSearcher_empty (s : InterleavedSearcher S) : bool :=
  match searchers s with b :: _ => empty b | [] => true end.

#[global] Instance InterleavedSearcher_ops : Searcher (InterleavedSearcher S) := {|
  selectState := InterleavedSearcher_selectState;
  update := InterleavedSearcher_update;
  empty := InterleavedSearcher_empty
|}.

Context (R : sid -> Prop) `{!SearcherSpec R S}.

(** Every searcher holds the same states, and the index is in range. *)
Record interleaved_inv (s : InterleavedSearcher S) : Prop := {
  il_index : 1 <= index s <= Z.of_nat (length (searchers s));
  il_small : Z.of_nat (length (searchers s)) < 2 ^ 32;
  il_inv : Forall Inv (searchers s);
  il_same : forall b b', b ∈ searchers s -> b' ∈ searchers s -> contents b = contents b'
}.

Definition interleaved_contents (s : InterleavedSearcher S) : gset sid :=
  match searchers s with b :: _ => contents b | [] => ∅ end.

Lemma interleaved_contents_eq s b :
  interleaved_inv s -> b ∈ searchers s -> contents b = interleaved_contents s.
Proof.
  intros Hi Hb. unfold interleaved_contents. destruct Hi as [_ _ _ Hs].
  destruct (searchers s) as [|b0 l] eqn:E; [by apply elem_of_nil in Hb|]. apply Hs; [done|left].
Qed.

Lemma turn_eq s : interleaved_inv s -> turn s = index s - 1.
Proof. intros []. apply wrapU_small. lia. Qed.

Lemma update_all_ok e l current added removed C :
  Forall Inv l -> (forall b, b ∈ l -> contents b = C) -> valid_update R C current added removed ->
  exists l', update_all e l current added removed = Ret l' /\ length l' = length l /\
    Forall Inv l' /\ forall b, b ∈ l' -> contents b = after C added removed.
Proof.
  intros Hinv HC Hv. induction l as [|b l IH]; simpl.
  - exists []. split_and!; auto. set_solver.
  - apply Forall_cons in Hinv as [Hb Hl].
    destruct (update_ok e b current added removed Hb) as (b' & -> & Hb' & Hc').
    { by rewrite HC by left. }
    destruct IH as (l' & Hl' & Hlen & Hinv' & HC'); [done|set_solver|].
    cbn [mbind outcome_bind]. rewrite Hl'. cbn [mbind outcome_bind].
    exists (b' :: l'). split_and!; [done|simpl; lia|by constructor|].
    intros b0 [->|]%elem_of_cons; [|auto]. rewrite Hc'. f_equal. apply HC. left.
Qed.

#[global] Program Instance InterleavedSearcher_spec : SearcherSpec R (InterleavedSearcher S) := {
  contents := interleaved_contents;
  Inv := interleaved_inv
}.
Next Obligation.
  intros e s Hi Hne. simpl. unfold InterleavedSearcher_selectState.
  pose proof Hi as [Hidx Hsm Hinv Hsame]. rewrite turn_eq by done.
  destruct (lookup_lt_is_Some_2 (searchers s) (Z.to_nat (index s - 1))) as [b Hb]; [lia|].
  rewrite Hb. cbn [of_option mbind outcome_bind].
  assert (Hmem : b ∈ searchers s) by (by eapply list_elem_of_lookup_2).
  pose proof (interleaved_contents_eq s b Hi Hmem) as Hc.
  destruct (select_ok e b) as (x & b' & -> & Hx & Hb' & Hc').
  { by eapply Forall_lookup_1. } { by rewrite Hc. }
  cbn [mbind outcome_bind]. rewrite Hc in Hx. eexists x, _. split; [done|]. split; [done|].
  assert (Hall : forall b0, b0 ∈ <[Z.to_nat (index s - 1) := b']> (searchers s) ->
    contents b0 = interleaved_contents s).
  { intros b0 [i Hi0]%list_elem_of_lookup. apply list_lookup_insert_Some in Hi0 as [(_ & <- & _)|[_ Hi0]].
    - congruence.
    - apply interleaved_contents_eq; [done|]. by eapply list_elem_of_lookup_2. }
  split.
  - split; simpl; rewrite ?length_insert; try done.
    + case_match; lia.
    + by apply Forall_insert.
    + intros b1 b2 H1 H2. by rewrite !Hall.
  - unfold interleaved_contents at 1. simpl.
    destruct (<[Z.to_nat (index s - 1) := b']> (searchers s)) as [|b1 l] eqn:E.
    + apply (f_equal length) in E. rewrite length_insert in E. simpl in E. lia.
    + apply Hall. left.
Qed.
Next Obligation.
  intros e s current added removed Hi Hv. simpl. unfold InterleavedSearcher_update.
  destruct (update_all_ok e (searchers s) current added removed (interleaved_contents s))
    as (l' & -> & Hlen & Hinv & HC); [apply Hi| |done|].
  { intros. by apply interleaved_contents_eq. }
  cbn [mbind outcome_bind]. eexists. split; [done|].
  pose proof (il_index _ Hi). split.
  - split; simpl; rewrite ?Hlen; try done; try apply Hi. intros. by rewrite !HC.
  - unfold interleaved_contents at 1. simpl. destruct l' as [|b l']; [simpl in *; lia|].
    apply HC. left.
Qed.
Next Obligation.
  intros s Hi. simpl. unfold InterleavedSearcher_empty, interleaved_contents.
  pose proof (il_inv _ Hi) as Hinv.
  destruct (searchers s) as [|b l]; [done|]. apply Forall_cons in Hinv as [Hb _].
  by apply empty_ok.
Qed.

(** *** Fairness

    A run of selections with any updates in between, and the positions asked. *)
Inductive rounds : list Z -> InterleavedSearcher S -> InterleavedSearcher S -> Prop :=
  | rounds_nil s : rounds [] s s
  | rounds_update e current added removed ts s s1 s2 :
      update e s current added removed = Ret s1 -> rounds ts s1 s2 -> rounds ts s s2
  | rounds_select e x ts s s1 s2 :
      selectState e s = Ret (x, s1) -> rounds ts s1 s2 -> rounds (turn s :: ts) s s2.

(** The positions asked from index [i] on. *)
Fixpoint turns (n i : Z) (k : nat) : list Z :=
  match k with
  | O => []
  | Datatypes.S k' => i - 1 :: turns n (if i =? 1 then n else i - 1) k'
  end.

Lemma update_all_length e l current added removed l' :
  update_all e l current added removed = Ret l' -> length l' = length l.
Proof.
  revert l'. induction l as [|b l IH]; intros l'; simpl; [naive_solver|].
  destruct (update e b current added removed) as [b'|]; [|done]. cbn [mbind outcome_bind].
  destruct (update_all e l current added removed) as [l''|] eqn:E; [|done].
  cbn [mbind outcome_bind]. intros Heq. simplify_eq. simpl. by rewrite (IH l'').
Qed.

Lemma rounds_turns ts s s' :
  rounds ts s s' -> 1 <= index s <= Z.of_nat (length (searchers s)) ->
  Z.of_nat (length (searchers s)) < 2 ^ 32 ->
  ts = turns (Z.of_nat (length (searchers s))) (index s) (length ts).
Proof.
  induction 1 as [s|e current added removed ts s s1 s2 Hu _ IH|e x ts s s1 s2 Hs _ IH];
    intros Hidx Hlt.
  - done.
  - simpl in Hu. unfold InterleavedSearcher_update in Hu.
    destruct (update_all _ _ _ _ _) as [l|] eqn:E; [|done]. simplify_eq/=.
    rewrite <- (update_all_length _ _ _ _ _ _ E) in *. by apply IH.
  - assert (Hturn : turn s = index s - 1) by (apply wrapU_small; lia).
    simpl in Hs. unfold InterleavedSearcher_selectState in Hs. rewrite Hturn in *.
    destruct (searchers s !! _) as [b|]; [|done]. cbn [of_option mbind outcome_bind] in Hs.
    destruct (selectState e b) as [[y b']|]; [|done]. cbn [mbind outcome_bind] in Hs. simplify_eq.
    simpl in IH. rewrite length_insert in IH. cbn [length turns]. f_equal.
    replace (if index s =? 1 then Z.of_nat (length (searchers s)) else index s - 1)
      with (if index s - 1 =? 0 then Z.of_nat (length (searchers s)) else index s - 1).
    + apply IH; [|done]. case_match; to_prop; lia.
    + destruct (Z.eqb_spec (index s) 1), (Z.eqb_spec (index s - 1) 0); lia.
Qed.

(** Counting down visits the positions below. *)
Lemma turns_down n k : forall i, Z.of_nat k <= i ->
  turns n i k ≡ₚ seqZ (i - Z.of_nat k) (Z.of_nat k).
Proof.
  induction k as [|k IH]; intros i Hk; [done|]. cbn [turns].
  replace (Z.of_nat (Datatypes.S k)) with (Z.of_nat k + 1) by lia.
  rewrite seqZ_app by lia. replace (i - (Z.of_nat k + 1) + Z.of_nat k) with (i - 1) by lia.
  replace (seqZ (i - 1) 1) with [i - 1] by (rewrite seqZ_cons by lia; by rewrite seqZ_nil by lia).
  rewrite Permutation_app_comm. simpl. constructor.
  destruct (Z.eqb_spec i 1) as [->|Hne].
  - destruct k; [done|lia].
  - rewrite IH by lia. by replace (i - 1 - Z.of_nat k) with (i - (Z.of_nat k + 1)) by lia.
Qed.

(** After position 0 the count starts again at the end. *)
Lemma turns_wrap n k m : forall i, i = Z.of_nat k -> 1 <= i ->
  turns n i (k + m) = turns n i k ++ turns n n m.
Proof.
  induction k as [|k IH]; intros i Hi Hi1; [lia|]. cbn [turns Nat.add app]. f_equal.
  destruct (Z.eqb_spec i 1) as [->|Hne].
  - by replace k with O by lia.
  - apply IH; lia.
Qed.

Lemma turns_round n i :
  1 <= i <= n -> turns n i (Z.to_nat n) ≡ₚ seqZ 0 n.
Proof.
  intros Hi. replace (Z.to_nat n) with (Z.to_nat i + Z.to_nat (n - i))%nat by lia.
  rewrite turns_wrap by lia. rewrite !turns_down by lia.
  replace (i - Z.of_nat (Z.to_nat i)) with 0 by lia.
  replace (n - Z.of_nat (Z.to_nat (n - i))) with i by lia.
  replace (seqZ 0 n) with (seqZ 0 i ++ seqZ i (n - i)); [by rewrite !Z2Nat.id by lia|].
  replace n with (i + (n - i)) at 2 by lia. by rewrite seqZ_app by lia.
Qed.

End Interleaved.

(** ** Batching *)

Record BatchingSearcher (S : Type) : Type := mkBatching {
  bt_base : S;
  timeBudgetEnabled : bool;
  timeBudget : Z;
  instructionBudgetEnabled : bool;
  instructionBudget : Z;
  lastState : option sid;
  lastStartTime : Z;
  lastStartInstructions : Z
}.
Arguments mkBatching {_} _ _ _ _ _ _ _ _.
Arguments bt_base {_} _.
Arguments timeBudgetEnabled {_} _.
Arguments timeBudget {_} _.
Arguments instructionBudgetEnabled {_} _.
Arguments instructionBudget {_} _.
Arguments lastState {_} _.
Arguments lastStartTime {_} _.
Arguments lastStartInstructions {_} _.

Section Batching.
Context {S : Type} `{Searcher S}.

(** The product of a span with the double 1.1. *)
Variable times_1_1 : Z -> Z.

Definition new_BatchingSearcher (base : S) (budget instrs : Z) : BatchingSearcher S :=
  mkBatching base (nz budget) budget (0 <? instrs) instrs None 0 0.

Definition withinTimeBudget (now : Z) (s : BatchingSearcher S) : bool :=
  negb (timeBudgetEnabled s) || (now - lastStartTime s <=? timeBudget s).

(** The counter has 64 bits, the recorded start 32. *)
Definition withinInstructionBudget (now : Z) (s : BatchingSearcher S) : bool :=
  negb (instructionBudgetEnabled s) ||
  (u64 (now - lastStartInstructions s) <=? instructionBudget s).

Definition BatchingSearcher_selectState (e : env) (s : BatchingSearcher S)
    : outcome (sid * BatchingSearcher S) :=
  let pick :=
    let tb :=
      match lastState s with
      | Some _ =>
          if timeBudgetEnabled s then
            let delta := wall e 1 - lastStartTime s in
            if times_1_1 (timeBudget s) <? delta then delta else timeBudget s
          else timeBudget s
      | None => timeBudget s
      end in
    '(x, b') ← selectState (later 3 e) (bt_base s);
    Ret (x, mkBatching b' (timeBudgetEnabled s) tb (instructionBudgetEnabled s) (instructionBudget s)
              (Some x)
              (if timeBudgetEnabled s then wall e 2 else lastStartTime s)
              (if instructionBudgetEnabled s then u32 (instructions e)
               else lastStartInstructions s)) in
  match lastState s with
  | Some x =>
      if withinTimeBudget (wall e 0) s && withinInstructionBudget (instructions e) s
      then Ret (x, s) else pick
  | None => pick
  end.

Definition BatchingSearcher_update (e : env) (s : BatchingSearcher S) (current : option sid)
    (added removed : list sid) : outcome (BatchingSearcher S) :=
  let last :=
    match lastState s with
    | Some x => if bool_decide (x ∈ removed) then None else Some x
    | None => None
    end in
  b' ← update e (bt_base s) current added removed;
  Ret (mkBatching b' (timeBudgetEnabled s) (timeBudget s) (instructionBudgetEnabled s)
         (instructionBudget s) last (lastStartTime s) (lastStartInstructions s)).

Definition BatchingSearcher_empty (s : BatchingSearcher S) : bool := empty (bt_base s).

#[global] Instance BatchingSearcher_ops : Searcher (BatchingSearcher S) := {|
  selectState := BatchingSearcher_selectState;
  update := BatchingSearcher_update;
  empty := BatchingSearcher_empty
|}.

Context (R : sid -> Prop) `{!SearcherSpec R S}.

#[global] Program Instance BatchingSearcher_spec : SearcherSpec R (BatchingSearcher S) := {
  contents s := contents (bt_base s);
  Inv s := Inv (bt_base s) /\ forall x, lastState s = Some x -> x ∈ contents (bt_base s)
}.
Next Obligation.
  intros e s [HI Hlast] Hne. simpl. unfold BatchingSearcher_selectState.
  destruct (select_ok (later 3 e) (bt_base s) HI Hne) as (x & b' & Hsel & Hx & HI' & Hc).
  rewrite Hsel. cbn [mbind outcome_bind].
  destruct (lastState s) as [y|] eqn:El; [case_match|];
    (eexists _, _; split; [done|]; simpl; split_and!; auto); intros z Hz; simplify_eq; auto;
    by rewrite Hc.
Qed.
Next Obligation.
  intros e s current added removed [HI Hlast] Hv. simpl. unfold BatchingSearcher_update.
  destruct (update_ok e (bt_base s) current added removed HI Hv) as (b' & -> & HI' & Hc).
  cbn [mbind outcome_bind]. eexists. split; [done|]. simpl. split_and!; auto.
  intros x Hx. destruct (lastState s) as [y|] eqn:El; [|done].
  case_bool_decide; [done|]. simplify_eq. rewrite Hc. unfold after.
  specialize (Hlast x eq_refl). set_solver.
Qed.
Next Obligation. intros s [HI _]. by apply (empty_ok (bt_base s)). Qed.

(** The start of a batch is recorded in 32 bits: from instruction [2^32] on the
    difference to the 64-bit counter exceeds every budget, and a state is
    selected anew at every call. *)
Lemma batching_wraps e e' s x s' :
  lastState s = None -> instructionBudgetEnabled s = true -> 0 <= instructionBudget s < 2 ^ 32 ->
  2 ^ 32 <= instructions e <= instructions e' -> instructions e' < 2 ^ 64 ->
  selectState e s = Ret (x, s') ->
  withinInstructionBudget (instructions e') s' = false.
Proof.
  intros Hl Hen Hb Hi Hi' Hsel. simpl in Hsel. unfold BatchingSearcher_selectState in Hsel.
  rewrite Hl in Hsel. destruct (selectState _ _) as [[y b']|]; [|done].
  cbn [mbind outcome_bind] in Hsel. simplify_eq. unfold withinInstructionBudget. simpl.
  rewrite Hen. simpl. apply Z.leb_gt.
  pose proof (u32_range (instructions e)).
  assert (u32 (instructions e) <= instructions e - 2 ^ 32).
  { unfold u32, wrapU. rewrite Z.mod_eq by lia.
    assert (1 <= instructions e / 2 ^ 32) by (apply Z.div_le_lower_bound; lia). lia. }
  unfold u64. rewrite wrapU_small by lia. lia.
Qed.

End Batching.

(** ** Iterative deepening *)

Record IterativeDeepeningTimeSearcher (S : Type) : Type := mkIDT {
  id_base : S;
  startTime : Z;
  time : Z;
  pausedStates : gset sid
}.
Arguments mkIDT {_} _ _ _ _.
Arguments id_base {_} _.
Arguments startTime {_} _.
Arguments time {_} _.
Arguments pausedStates {_} _.

(** The paused states in the order of a [std::set] of addresses. *)
Definition in_order (X : gset sid) : list sid := merge_sort Z.le (elements X).

Lemma in_order_spec X : NoDup (in_order X) /\ forall x, x ∈ in_order X <-> x ∈ X.
Proof.
  assert (Hp : in_order X ≡ₚ elements X) by apply merge_sort_Permutation. split.
  - rewrite Hp. apply NoDup_elements.
  - intros x. by rewrite Hp, elem_of_elements.
Qed.

Section IDT.
Context {S : Type} `{Searcher S}.

(** One second, in nanoseconds. *)
Definition new_IterativeDeepeningTimeSearcher (base : S) : IterativeDeepeningTimeSearcher S :=
  mkIDT base 0 1000000000 ∅.

Definition IterativeDeepeningTimeSearcher_selectState (e : env)
    (s : IterativeDeepeningTimeSearcher S) : outcome (sid * IterativeDeepeningTimeSearcher S) :=
  '(x, b') ← selectState (later 1 e) (id_base s);
  Ret (x, mkIDT b' (wall e 0) (time s) (pausedStates s)).

(** The loop over the removed states: forget those that are paused. *)
Fixpoint filter_paused (removed : list sid) (paused : gset sid) (alt : list sid)
    : gset sid * list sid :=
  match removed with
  | [] => (paused, alt)
  | x :: removed' =>
      if bool_decide (x ∈ paused)
      then filter_paused removed' (paused ∖ {[x]}) (filter (fun y => y <> x) alt)
      else filter_paused removed' paused alt
  end.

Definition IterativeDeepeningTimeSearcher_update (e : env) (s : IterativeDeepeningTimeSearcher S)
    (current : option sid) (added removed : list sid)
    : outcome (IterativeDeepeningTimeSearcher S) :=
  let elapsed := wall e 0 - startTime s in
  let '(paused, alt) :=
    match removed with
    | [] => (pausedStates s, removed)
    | _ => filter_paused removed (pausedStates s) removed
    end in
  b ← update (later 1 e) (id_base s) current added alt;
  '(b, paused) ←
    match current with
    | Some c =>
        if bool_decide (c ∉ removed) && (time s <? elapsed)
        then b' ← update (later 1 e) b None [] [c]; Ret (b', paused ∪ {[c]})
        else Ret (b, paused)
    | None => Ret (b, paused)
    end;
  if empty b
  then b' ← update (later 1 e) b None (in_order paused) [];
       Ret (mkIDT b' (startTime s) (time s * 2) ∅)
  else Ret (mkIDT b (startTime s) (time s) paused).

Definition IterativeDeepeningTimeSearcher_empty (s : IterativeDeepeningTimeSearcher S) : bool :=
  empty (id_base s) && bool_decide (pausedStates s = ∅).

#[global] Instance IterativeDeepeningTimeSearcher_ops
  : Searcher (IterativeDeepeningTimeSearcher S) := {|
  selectState := IterativeDeepeningTimeSearcher_selectState;
  update := IterativeDeepeningTimeSearcher_update;
  empty := IterativeDeepeningTimeSearcher_empty
|}.

Lemma filter_paused_spec removed paused alt :
  NoDup removed ->
  filter_paused removed paused alt =
  (paused ∖ list_to_set removed, filter (fun y => y ∉ removed \/ y ∉ paused) alt).
Proof.
  revert paused alt. induction removed as [|x removed IH]; intros paused alt Hnd.
  - simpl. f_equal; [set_solver|]. symmetry. apply filter_all, Forall_forall. set_solver.
  - apply NoDup_cons in Hnd as [Hx Hnd]. simpl. case_bool_decide as Hp.
    + rewrite IH by done. f_equal; [set_solver|]. rewrite list_filter_filter.
      apply list_filter_iff. intros y. destruct (decide (y = x)) as [->|]; set_solver.
    + rewrite IH by done. f_equal; [set_solver|]. apply list_filter_iff. intros y.
      destruct (decide (y = x)) as [->|]; set_solver.
Qed.

Context (R : sid -> Prop) `{!SearcherSpec R S}.

Definition idt_contents (s : IterativeDeepeningTimeSearcher S) : gset sid :=
  contents (id_base s) ∪ pausedStates s.

(** Paused states are out of the underlying searcher, which only is empty when
    nothing is left. *)
Record idt_inv (s : IterativeDeepeningTimeSearcher S) : Prop := {
  idt_base : Inv (id_base s);
  idt_disjoint : contents (id_base s) ## pausedStates s;
  idt_filled : contents (id_base s) = ∅ -> pausedStates s = ∅
}.

Lemma idt_select_ok e s :
  idt_inv s -> idt_contents s <> ∅ ->
  exists x s', selectState e s = Ret (x, s') /\ x ∈ contents (id_base s) /\
    idt_inv s' /\ idt_contents s' = idt_contents s /\
    contents (id_base s') = contents (id_base s).
Proof.
  intros [HI Hd Hf] Hne. simpl. unfold IterativeDeepeningTimeSearcher_selectState.
  destruct (select_ok (later 1 e) (id_base s) HI) as (x & b' & -> & Hx & HI' & Hc).
  { intros Hc. apply Hne. unfold idt_contents. rewrite Hc, Hf by done. set_solver. }
  cbn [mbind outcome_bind]. eexists _, _. split; [done|]. simpl. split_and!; auto.
  - split; simpl; rewrite ?Hc; auto.
  - unfold idt_contents. simpl. by rewrite Hc.
Qed.

(** The end of an update: an empty searcher is filled with the paused states. *)
Lemma idt_refill e b st t paused C :
  Inv b -> contents b ## paused -> contents b ∪ paused = C -> (forall x, x ∈ paused -> R x) ->
  exists s', (if empty b
    then b' ← update e b None (in_order paused) []; Ret (mkIDT b' st (t * 2) ∅)
    else Ret (mkIDT b st t paused)) = Ret s' /\ idt_inv s' /\ idt_contents s' = C.
Proof.
  intros HI Hd HC HR. destruct (empty b) eqn:Ee.
  - apply empty_ok in Ee; [|done]. destruct (in_order_spec paused) as [Hnd Hmem].
    destruct (update_ok e b None (in_order paused) []) as (b' & -> & HI' & Hc); [done| |].
    { split; try done; [|by apply NoDup_nil|set_solver|set_solver]. rewrite Ee. set_solver. }
    cbn [mbind outcome_bind]. eexists. split; [done|].
    assert (Hc' : contents b' = paused).
    { rewrite Hc. unfold after. rewrite Ee. set_solver. }
    split; [split; simpl; auto; set_solver|]. unfold idt_contents. simpl. rewrite Hc', <- HC, Ee.
    set_solver.
  - eexists. split; [done|]. split; [|done]. split; simpl; auto.
    intros Hemp. apply empty_ok in Hemp; [|done]. congruence.
Qed.

Lemma idt_update_ok e s current added removed :
  idt_inv s -> valid_update R (idt_contents s) current added removed ->
  (forall x, x ∈ idt_contents s -> R x) -> (forall x, x ∈ added -> R x) ->
  (forall c, current = Some c -> c ∈ contents (id_base s)) ->
  exists s', update e s current added removed = Ret s' /\
    idt_inv s' /\ idt_contents s' = after (idt_contents s) added removed.
Proof.
  intros [HI Hd Hf] Hv HRc HRa Hcur. simpl. unfold IterativeDeepeningTimeSearcher_update.
  set (paused1 := pausedStates s ∖ list_to_set removed).
  set (alt := filter (fun y => y ∉ removed \/ y ∉ pausedStates s) removed).
  assert (Hfilter : (match removed with
      | [] => (pausedStates s, removed)
      | _ => filter_paused removed (pausedStates s) removed end) = (paused1, alt)).
  { unfold paused1, alt. destruct removed as [|x r] eqn:Er.
    - f_equal. set_solver.
    - rewrite <- Er in *. apply filter_paused_spec. apply Hv. }
  rewrite Hfilter. clear Hfilter.
  assert (Halt : forall x, x ∈ alt <-> x ∈ removed /\ x ∉ pausedStates s).
  { intros x. unfold alt. rewrite list_elem_of_filter. split; [|naive_solver].
    intros [[Hn|Hn] Hx]; naive_solver. }
  destruct Hv as [Ha Hfr Hr Hk HR _].
  destruct (update_ok (later 1 e) (id_base s) current added alt HI) as (b & -> & HIb & Hcb).
  { split; auto.
    - intros x Hx Hin. apply (Hfr x Hx). unfold idt_contents. set_solver.
    - unfold alt. by apply NoDup_filter.
    - intros x [Hx Hp]%Halt. destruct (Hk x Hx) as [Hin|]; [|by right].
      left. unfold idt_contents in Hin. set_solver.
    - intros x [Hx _]%Halt. auto. }
  cbn [mbind outcome_bind].
  assert (Hcb' : forall x, x ∈ contents b <->
    (x ∈ contents (id_base s) \/ x ∈ added) /\ ~ (x ∈ removed /\ x ∉ pausedStates s)).
  { intros x. rewrite Hcb. unfold after.
    rewrite elem_of_difference, elem_of_union, !elem_of_list_to_set, Halt. done. }
  assert (Hafter : forall x, x ∈ after (idt_contents s) added removed <->
    x ∈ contents b \/ x ∈ paused1).
  { intros x. unfold after, idt_contents, paused1.
    rewrite !elem_of_difference, !elem_of_union, !elem_of_list_to_set, Hcb'.
    specialize (Hfr x). unfold idt_contents in Hfr. rewrite elem_of_union in Hfr.
    destruct (decide (x ∈ removed)), (decide (x ∈ pausedStates s)),
      (decide (x ∈ contents (id_base s))); set_solver. }
  assert (Hdis : contents b ## paused1).
  { intros x [[Hx|Hx] _]%Hcb' Hp; unfold paused1 in Hp; [set_solver|].
    apply (Hfr x Hx). unfold idt_contents. set_solver. }
  assert (HRp : forall x, x ∈ paused1 -> R x).
  { intros x Hx. apply HRc. unfold idt_contents, paused1 in *. set_solver. }
  assert (Hend : forall b', Inv b' -> contents b' = contents b ->
    exists s', (if empty b'
      then b'' ← update (later 1 e) b' None (in_order paused1) [];
           Ret (mkIDT b'' (startTime s) (time s * 2) ∅)
      else Ret (mkIDT b' (startTime s) (time s) paused1)) = Ret s' /\
      idt_inv s' /\ idt_contents s' = after (idt_contents s) added removed).
  { intros b' HI' Hc'. apply idt_refill; auto; [by rewrite Hc'|]. rewrite Hc'. set_solver. }
  destruct current as [c|]; [|by apply Hend].
  destruct (bool_decide (c ∉ removed) && _) eqn:Et; [|by apply Hend].
  apply andb_true_iff in Et as [Hnr _]. apply bool_decide_eq_true in Hnr.
  assert (Hcc : c ∈ contents b) by (apply Hcb'; split; [left; by apply Hcur|naive_solver]).
  destruct (update_ok (later 1 e) b None [] [c] HIb) as (b' & -> & HI' & Hc').
  { split; try done; [by apply NoDup_nil|set_solver|by apply NoDup_singleton|set_solver|].
    intros x ->%list_elem_of_singleton. apply HRc. unfold idt_contents. set_solver. }
  cbn [mbind outcome_bind]. unfold after in Hc'. apply idt_refill; auto.
  - rewrite Hc'. set_solver.
  - rewrite Hc'. apply set_eq. intros x. rewrite Hafter.
    destruct (decide (x = c)) as [->|]; set_solver.
  - intros x [Hx| ->%elem_of_singleton]%elem_of_union; [auto|].
    apply HRc. unfold idt_contents. rewrite elem_of_union. left. by apply Hcur.
Qed.

End IDT.
