(* ===== verification/SearchersEngine.v ===== *)
(** * What the engine relies on of a searcher

    [EngineSpec] is the part of the searchers' interface the main loop uses:
    the state passed as current is the one selected last.  Every searcher that
    meets [SearcherSpec] meets it, and so does iterative deepening.  The
    splitted searcher of the simulation mode keeps two searchers apart. *)

From stdpp Require Import gmap sorting.
From S2P Require Import Prelude Searchers SearchersMeta.

Class EngineSpec (R : sid -> Prop) (S : Type) `{Searcher S} : Type := {
  live : S -> gset sid;
  EInv : S -> Prop;
  sched : S -> sid -> Prop;
  engine_select : forall e s, EInv s -> live s <> ∅ ->
    exists x s', selectState e s = Ret (x, s') /\ x ∈ live s /\ sched s' x /\
      EInv s' /\ live s' = live s;
  engine_update : forall e s current added removed, EInv s ->
    valid_update R (live s) current added removed -> (forall x, x ∈ added -> R x) ->
    (forall c, current = Some c -> sched s c) ->
    exists s', update e s current added removed = Ret s' /\
      EInv s' /\ live s' = after (live s) added removed;
  engine_empty : forall s, EInv s -> empty s = true <-> live s = ∅
}.

Section FromSpec.
Context {S : Type} `{Searcher S} (R : sid -> Prop) `{!SearcherSpec R S}.

#[global] Program Instance engine_spec : EngineSpec R S := {
  live := contents;
  EInv := Inv;
  sched s x := x ∈ contents s
}.
Next Obligation.
  intros e s HI Hne. destruct (select_ok e s HI Hne) as (x & s' & Hrun & Hx & HI' & Hc).
  exists x, s'. split_and!; auto. by rewrite Hc.
Qed.
Next Obligation. intros e s current added removed HI Hv _ _. by apply update_ok. Qed.
Next Obligation. intros s HI. by apply empty_ok. Qed.

(** Iterative deepening: the current state must not be a paused one. *)
#[global] Program Instance idt_engine_spec : EngineSpec R (IterativeDeepeningTimeSearcher S) := {
  live := idt_contents R;
  EInv s := idt_inv R s /\ forall x, x ∈ idt_contents R s -> R x;
  sched s x := x ∈ contents (id_base s)
}.
Next Obligation.
  intros e s [HI HR] Hne. destruct (idt_select_ok R e s HI Hne) as (x & s' & Hrun & Hx & HI' & Hc & Hb).
  exists x, s'. rewrite Hc, Hb. split_and!; auto. unfold idt_contents. set_solver.
Qed.
Next Obligation.
  intros e s current added removed [HI HR] Hv Ha Hcur.
  destruct (idt_update_ok R e s current added removed HI Hv HR Ha Hcur) as (s' & Hrun & HI' & Hc).
  exists s'. split_and!; auto. intros x. rewrite Hc. unfold after. set_solver.
Qed.
Next Obligation.
  intros s [HI HR]. simpl. unfold IterativeDeepeningTimeSearcher_empty, idt_contents.
  rewrite andb_true_iff, bool_decide_eq_true, (empty_ok _ (idt_base _ _ HI)).
  pose proof (idt_filled _ _ HI). split; [intros [-> ->]; set_solver|].
  intros Hu. apply empty_union_L in Hu. done.
Qed.

End FromSpec.

(** ** Splitted *)

Record SplittedSearcher (S1 S2 : Type) : Type := mkSplitted {
  mctsSearcher : S1;
  simulationSearcher : S2;
  sim_mode : Z
}.
Arguments mkSplitted {_ _} _ _ _.
Arguments mctsSearcher {_ _} _.
Arguments simulationSearcher {_ _} _.
Arguments sim_mode {_ _} _.

Section Splitted.
Context {S1 S2 : Type} `{Searcher S1} `{Searcher S2}.
Variable isSimulationState : sid -> bool.

Definition SplittedSearcher_selectState (e : env) (s : SplittedSearcher S1 S2)
    : outcome (sid * SplittedSearcher S1 S2) :=
  if negb (is_simulation_mode e) then
    '(x, m) ← selectState e (mctsSearcher s);
    Ret (x, mkSplitted m (simulationSearcher s) (sim_mode s))
  else
    '(x, m) ← selectState e (simulationSearcher s);
    Ret (x, mkSplitted (mctsSearcher s) m (sim_mode s)).

(** Distribute states over the two searchers, in order. *)
Fixpoint split_states (l : list sid) : list sid * list sid :=
  match l with
  | [] => ([], [])
  | x :: l' =>
      let '(orig, sim) := split_states l' in
      if isSimulationState x then (orig, x :: sim) else (x :: orig, sim)
  end.

Definition SplittedSearcher_update (e : env) (s : SplittedSearcher S1 S2) (current : option sid)
    (added removed : list sid) : outcome (SplittedSearcher S1 S2) :=
  let '(addedOriginating, addedSimulation) := split_states added in
  let '(removedOriginating, removedSimulation) := split_states removed in
  let cur1 := match current with
              | Some c => if isSimulationState c then None else Some c
              | None => None end in
  let cur2 := match current with
              | Some c => if negb (isSimulationState c) then None else Some c
              | None => None end in
  m ← update e (mctsSearcher s) cur1 addedOriginating removedOriginating;
  m' ← update e (simulationSearcher s) cur2 addedSimulation removedSimulation;
  Ret (mkSplitted m m' (sim_mode s)).

Definition SplittedSearcher_empty (s : SplittedSearcher S1 S2) : bool :=
  empty (mctsSearcher s) && empty (simulationSearcher s).

#[global] Instance SplittedSearcher_ops : Searcher (SplittedSearcher S1 S2) := {|
  selectState := SplittedSearcher_selectState;
  update := SplittedSearcher_update;
  empty := SplittedSearcher_empty
|}.

Lemma split_states_spec l :
  split_states l = (filter (fun x => isSimulationState x = false) l,
                    filter (fun x => isSimulationState x = true) l).
Proof.
  induction l as [|x l IH]; [done|]. cbn [split_states]. rewrite IH, !filter_cons.
  destruct (isSimulationState x); simpl; done.
Qed.

(** The state of an update that the main searcher hears of. *)
Definition originating_current (current : option sid) : option sid :=
  match current with Some c => if isSimulationState c then None else Some c | None => None end.

End Splitted.

(** ** The splitted searcher as the program builds it, with a depth first
    simulation searcher *)

Section SplittedDFS.
Context {S1 : Type} `{Searcher S1}.
Variable isSimulationState : sid -> bool.
Context `{!SearcherSpec (normal isSimulationState) S1}.

#[local] Instance simulation_dfs : Searcher DFSSearcher := DFSSearcher_ops isSimulationState.
#[local] Instance splitted_dfs : Searcher (SplittedSearcher S1 DFSSearcher) := SplittedSearcher_ops isSimulationState.

Abbreviation originating l := (filter (fun x => isSimulationState x = false) l).
Abbreviation simulations l := (filter (fun x => isSimulationState x = true) l).

(** Originating states on one side, simulation states on the other. *)
Record splitted_inv (s : SplittedSearcher S1 DFSSearcher) : Prop := {
  sp_mcts : Inv (mctsSearcher s);
  sp_normal : forall x, x ∈ contents (mctsSearcher s) -> isSimulationState x = false;
  sp_simulation : forall x, x ∈ dfs_states (simulationSearcher s) -> isSimulationState x = true
}.

(** [DFSSearcher::update] skips removed simulation states. *)
Lemma dfs_removes_no_simulation states removed :
  (forall x, x ∈ removed -> isSimulationState x = true) ->
  DFSSearcher_remove isSimulationState states removed = Ret states.
Proof.
  induction removed as [|x removed IH]; intros Hr; [done|]. simpl. rewrite Hr by left. apply IH.
  intros y Hy. apply Hr. by right.
Qed.

Lemma back_last l x : back (l ++ [x]) = Some (x, l).
Proof. induction l as [|y l IH]; [done|]. simpl. by rewrite IH. Qed.

Lemma splitted_update_ok e s current added removed :
  splitted_inv s ->
  valid_update (normal isSimulationState) (contents (mctsSearcher s))
    (originating_current isSimulationState current) (originating added) (originating removed) ->
  exists s', update e s current added removed = Ret s' /\ splitted_inv s' /\
    contents (mctsSearcher s') = after (contents (mctsSearcher s)) (originating added) (originating removed) /\
    dfs_states (simulationSearcher s') = dfs_states (simulationSearcher s) ++ simulations added.
Proof.
  intros [H1 Hn Hs] Hv. simpl. unfold SplittedSearcher_update. rewrite !split_states_spec.
  fold (originating_current isSimulationState current).
  destruct (update_ok e _ _ _ _ H1 Hv) as (m & -> & HI & Hc). cbn [mbind outcome_bind].
  simpl. unfold DFSSearcher_update. rewrite dfs_removes_no_simulation by (intros x; rewrite list_elem_of_filter; tauto).
  simpl. eexists. split; [done|]. split_and!; auto. split; simpl; auto; intros x.
  - rewrite Hc. unfold after. intros [[Hx|Hx]%elem_of_union _]%elem_of_difference; [auto|].
    apply elem_of_list_to_set, list_elem_of_filter in Hx. tauto.
  - intros [Hx|Hx]%elem_of_app; [auto|]. apply list_elem_of_filter in Hx. tauto.
Qed.

(** C30: the splitted searcher with a depth first simulation searcher, over any
    main searcher that meets the interface.  When the originating states of an
    update form a valid update of the main searcher, the update succeeds
    whatever its simulation states are: the main searcher holds exactly the
    originating states alive, and the simulation searcher the simulation
    states ever added, in the order of their arrival and with the removed ones
    among them.  Outside of the simulation mode a selection returns an
    originating state alive; in simulation mode it returns the simulation
    state added last, removed or not.  The searcher is empty when no
    originating state is alive and no simulation state was ever added. *)
Theorem splitted_partition (s : SplittedSearcher S1 DFSSearcher) :
  splitted_inv s ->
  (forall e current added removed,
    valid_update (normal isSimulationState) (contents (mctsSearcher s))
      (originating_current isSimulationState current) (originating added) (originating removed) ->
    exists s', update e s current added removed = Ret s' /\ splitted_inv s' /\
      contents (mctsSearcher s') = after (contents (mctsSearcher s)) (originating added) (originating removed) /\
      dfs_states (simulationSearcher s') = dfs_states (simulationSearcher s) ++ simulations added) /\
  (forall e, contents (mctsSearcher s) <> ∅ -> is_simulation_mode e = false ->
    exists x s', selectState e s = Ret (x, s') /\ x ∈ contents (mctsSearcher s) /\
      isSimulationState x = false /\ splitted_inv s' /\ contents (mctsSearcher s') = contents (mctsSearcher s) /\
      simulationSearcher s' = simulationSearcher s) /\
  (forall e l x, dfs_states (simulationSearcher s) = l ++ [x] -> is_simulation_mode e = true ->
    selectState e s = Ret (x, s) /\ isSimulationState x = true) /\
  (empty s = true <-> contents (mctsSearcher s) = ∅ /\ dfs_states (simulationSearcher s) = []).
Proof.
  intros Hinv. pose proof Hinv as [H1 Hn Hs]. split_and!.
  - intros e current added removed Hv. by apply splitted_update_ok.
  - intros e Hne Hm. simpl. unfold SplittedSearcher_selectState. rewrite Hm. cbn [negb].
    destruct (select_ok e _ H1 Hne) as (x & m & -> & Hx & HI & Hc). cbn [mbind outcome_bind].
    eexists x, _. split; [done|]. simpl. rewrite Hc. split_and!; auto. split; simpl; rewrite ?Hc; auto.
  - intros e l x El Hm. split; [|apply Hs; rewrite El; set_solver].
    simpl. unfold SplittedSearcher_selectState. rewrite Hm. simpl. unfold DFSSearcher_selectState.
    rewrite El, back_last. by destruct s.
  - simpl. unfold SplittedSearcher_empty. rewrite andb_true_iff, (empty_ok _ H1). simpl. unfold DFSSearcher_empty.
    destruct (dfs_states (simulationSearcher s)); intuition congruence.
Qed.

End SplittedDFS.

(** States with negative numbers, as the simulation states of an example. *)
Definition below_zero (x : sid) : bool := x <? 0.

#[local] Instance example_dfs : Searcher DFSSearcher := DFSSearcher_ops below_zero.
#[local] Instance example_dfs_spec : SearcherSpec (normal below_zero) DFSSearcher :=
  DFSSearcher_spec below_zero.
#[local] Instance example_splitted : Searcher (SplittedSearcher DFSSearcher DFSSearcher) :=
  SplittedSearcher_ops below_zero.

(** Terminating the state 2 and the simulation state -1: the first is gone, the
    second is selected again. *)
Lemma splitted_partition_witness :
  let s := mkSplitted (mkDFS [1; 2]) (mkDFS [-1]) 1 in
  (exists s', update (mkEnv (fun _ => 0) (fun _ => 0) 0 false) s (Some 2) [] [2; -1] = Ret s' /\
    contents (mctsSearcher s') = {[1]} /\ dfs_states (simulationSearcher s') = [-1]) /\
  selectState (mkEnv (fun _ => 0) (fun _ => 0) 0 true) s = Ret (-1, s).
Proof.
  intros s. assert (Hinv : splitted_inv below_zero s).
  { split; simpl.
    - apply NoDup_cons. split; [set_solver|apply NoDup_singleton].
    - intros x Hx. assert (x = 1 \/ x = 2) as [->| ->] by set_solver; reflexivity.
    - intros x Hx. assert (x = -1) as -> by set_solver. reflexivity. }
  destruct (splitted_partition below_zero s Hinv) as (Hu & _ & Hsel & _). split.
  - destruct (Hu (mkEnv (fun _ => 0) (fun _ => 0) 0 false) (Some 2) [] [2; -1]) as (s' & Hrun & _ & Hc & Hd).
    { split; simpl.
      - apply NoDup_nil_2.
      - set_solver.
      - apply NoDup_singleton.
      - intros x Hx. set_solver.
      - intros x Hx. assert (x = 2) as -> by set_solver. reflexivity.
      - intros c [= <-]. set_solver. }
    exists s'. split; [exact Hrun|]. split; [|exact Hd]. rewrite Hc. unfold after. simpl. set_solver.
  - apply (Hsel (mkEnv (fun _ => 0) (fun _ => 0) 0 true) [] (-1)); reflexivity.
Defined.

(** [DFSSearcher::update] skips removed simulation states: as the simulation
    searcher it keeps a state that was removed, and selects it again. *)
Theorem dfs_keeps_simulation_states (isSimulationState : sid -> bool) (e : env) (l : list sid) (x : sid)
    (current : option sid) :
  isSimulationState x = true ->
  DFSSearcher_update isSimulationState e (mkDFS (l ++ [x])) current [] [x] = Ret (mkDFS (l ++ [x])) /\
  DFSSearcher_selectState e (mkDFS (l ++ [x])) = Ret (x, mkDFS (l ++ [x])).
Proof.
  intros Hx. split.
  - unfold DFSSearcher_update. simpl. by rewrite Hx, app_nil_r.
  - unfold DFSSearcher_selectState. simpl. by rewrite back_last.
Qed.

(** ** Fairness of the interleaved searcher *)

(** C29: the interleaved searcher asks every one of its searchers exactly once in
    any [n] consecutive selections, [n] being their number, whatever updates
    happen in between. *)
Theorem interleaved_fair {S : Type} `{Searcher S} (ts : list Z) (s s' : InterleavedSearcher S) :
  rounds ts s s' -> 1 <= index s <= Z.of_nat (length (searchers s)) ->
  Z.of_nat (length (searchers s)) < 2 ^ 32 -> length ts = length (searchers s) ->
  ts ≡ₚ seqZ 0 (Z.of_nat (length (searchers s))).
Proof.
  intros Hr Hi Hn Hlen. rewrite (rounds_turns ts s s' Hr Hi Hn), Hlen.
  rewrite <- (Nat2Z.id (length (searchers s))) at 2. by apply turns_round.
Qed.

Lemma interleaved_fair_witness : [0; 1] ≡ₚ seqZ 0 2.
Proof.
  set (e := mkEnv (fun _ => 0) (fun _ => 0) 0 false).
  set (s0 := new_InterleavedSearcher [mkBFS [5]; mkBFS [5]]).
  set (s1 := mkInterleaved [mkBFS [5]; mkBFS [5]] 2).
  set (s2 := mkInterleaved [mkBFS [5]; mkBFS [5]] 1).
  assert (Hr : rounds [0; 1] s0 s2).
  { change [0; 1] with [turn s0; turn s1]. eapply (rounds_select e 5 _ s0 s1); [reflexivity|].
    eapply (rounds_select e 5 _ s1 s2); [reflexivity|]. constructor. }
  exact (interleaved_fair [0; 1] s0 s2 Hr ltac:(simpl; lia) ltac:(simpl; lia) eq_refl).
Defined.
