(* ===== verification/PTree.v ===== *)
(** * The process tree

    [lib/Core/PTree.cpp]: the binary tree of forks, its nodes on a heap with
    parent pointers and with the searchers' bits in the pointers to children.
    The heap is a finite map from addresses to nodes; [Rep] relates it to a
    tree, and the operations are shown to be operations on that tree. *)

From stdpp Require Import gmap fin_maps.
From S2P Require Import Prelude Searchers.

Definition addr : Type := Z.

(** A pointer with its tag bits, [llvm::PointerIntPair]. *)
Definition PTreeNodePtr : Type := (option addr * Z)%type.
Definition getPointer (p : PTreeNodePtr) : option addr := p.1.
Definition getInt (p : PTreeNodePtr) : Z := p.2.

(** The fields of a node; the reward, which only the tree search reads, is left
    out. *)
Record PTreeNode : Type := mkPTreeNode {
  parent : option addr;
  left : PTreeNodePtr;
  right : PTreeNodePtr;
  state : option sid;
  isTerminal : bool;
  visit : Z;
  isInMCTSTree : bool;
  isForked : bool;
  isSimulated : bool
}.

(** The tree with the heap its nodes are in and the [ptreeNode] field of the
    states.  The members [changed] and [mcts_root] have no reader and are left
    out, as is [split], which has no caller. *)
Record PTree : Type := mkPTree {
  nodes : gmap addr PTreeNode;
  ptreeNode : gmap sid addr;
  root : PTreeNodePtr;
  registeredIds : Z
}.

Definition set_parent (p : option addr) (n : PTreeNode) : PTreeNode :=
  mkPTreeNode p (left n) (right n) (state n) (isTerminal n) (visit n) (isInMCTSTree n) (isForked n)
    (isSimulated n).
Definition set_left (q : PTreeNodePtr) (n : PTreeNode) : PTreeNode :=
  mkPTreeNode (parent n) q (right n) (state n) (isTerminal n) (visit n) (isInMCTSTree n) (isForked n)
    (isSimulated n).
Definition set_right (q : PTreeNodePtr) (n : PTreeNode) : PTreeNode :=
  mkPTreeNode (parent n) (left n) q (state n) (isTerminal n) (visit n) (isInMCTSTree n) (isForked n)
    (isSimulated n).
Definition set_state (s : option sid) (n : PTreeNode) : PTreeNode :=
  mkPTreeNode (parent n) (left n) (right n) s (isTerminal n) (visit n) (isInMCTSTree n) (isForked n)
    (isSimulated n).

Definition with_nodes (h : gmap addr PTreeNode) (t : PTree) : PTree :=
  mkPTree h (ptreeNode t) (root t) (registeredIds t).
Definition with_root (q : PTreeNodePtr) (t : PTree) : PTree :=
  mkPTree (nodes t) (ptreeNode t) q (registeredIds t).

Definition deref (t : PTree) (a : addr) : outcome PTreeNode := of_option MemError (nodes t !! a).

Lemma deref_Some t a n : nodes t !! a = Some n -> deref t a = Ret n.
Proof. unfold deref. by intros ->. Qed.

(** [*a] changed in place. *)
Definition modify (f : PTreeNode -> PTreeNode) (a : addr) (t : PTree) : PTree :=
  with_nodes (alter f a (nodes t)) t.

(** ** Operations *)

(** The constructor of a node, which sets the state's [ptreeNode]. *)
Definition new_PTreeNode (t : PTree) (p : option addr) (s : sid) : addr * PTree :=
  let a := fresh (dom (nodes t)) in
  (a, mkPTree (<[a := mkPTreeNode p (None, 0) (None, 0) (Some s) false 0 false false false]> (nodes t))
        (<[s := a]> (ptreeNode t)) (root t) (registeredIds t)).

Definition new_PTree (initialState : sid) : PTree :=
  let '(a, t) := new_PTreeNode (mkPTree ∅ ∅ (None, 0) 0) None initialState in
  with_root (Some a, 0) t.

(** [PtrBitCount] is 3. *)
Definition getNextId (t : PTree) : outcome (Z * PTree) :=
  let id := u8 (Z.shiftl 1 (registeredIds t)) in
  let n := registeredIds t + 1 in
  if 3 <? n then Stop (KleeError "PTree cannot support more than 3 RandomPathSearchers")
  else Ret (id, mkPTree (nodes t) (ptreeNode t) (root t) n).

(** The tag of the pointer to a node, read through its parent. *)
Definition currentNodeTag (t : PTree) (a : addr) (p : option addr) : outcome Z :=
  match p with
  | None => Ret (getInt (root t))
  | Some p =>
      n ← deref t p;
      Ret (if bool_decide (getPointer (left n) = Some a) then getInt (left n) else getInt (right n))
  end.

Definition attach (t : PTree) (node : addr) (leftState rightState : sid) : outcome PTree :=
  if negb (bool_decide (ptreeNode t !! rightState = Some node)) then Stop AssertFail
  else
    n ← deref t node;
    let t := modify (set_state None) node t in
    let '(l, t) := new_PTreeNode t (Some node) leftState in
    let t := modify (set_left (Some l, 0)) node t in
    tag ← currentNodeTag t node (parent n);
    let '(r, t) := new_PTreeNode t (Some node) rightState in
    Ret (modify (set_right (Some r, tag)) node t).

Definition childless (n : PTreeNode) : bool :=
  bool_decide (getPointer (left n) = None) && bool_decide (getPointer (right n) = None).

(** Replace the pointer to [a] in its parent. *)
Definition replace_child (t : PTree) (a p : addr) (q : PTreeNodePtr) : outcome PTree :=
  n ← deref t p;
  if bool_decide (getPointer (left n) = Some a) then Ret (modify (set_left q) p t)
  else if bool_decide (getPointer (right n) = Some a) then Ret (modify (set_right q) p t)
  else Stop AssertFail.

(** The loop of [remove]: delete a node, then its parent if nothing is left
    below it. *)
Fixpoint remove_loop (fuel : nat) (t : PTree) (n : addr) : outcome (PTree * option addr) :=
  match fuel with
  | O => Stop OutOfFuel
  | S fuel' =>
      nd ← deref t n;
      t ← match parent nd with
          | Some p => replace_child t n p (None, 0)
          | None => Ret t
          end;
      let t := with_nodes (delete n (nodes t)) t in
      match parent nd with
      | None => Ret (t, None)
      | Some p =>
          np ← deref t p;
          if childless np then remove_loop fuel' t p else Ret (t, Some p)
      end
  end.

(** The end of [remove] with [CompressProcessTree]: drop a node with one child. *)
Definition compress (t : PTree) (n : addr) : outcome PTree :=
  nd ← deref t n;
  let child := match getPointer (left nd) with Some _ => left nd | None => right nd end in
  c ← of_option MemError (getPointer child);
  let t := modify (set_parent (parent nd)) c t in
  t ← match parent nd with
      | None => Ret (with_root child t)
      | Some p => replace_child t n p child
      end;
  Ret (with_nodes (delete n (nodes t)) t).

Definition remove (CompressProcessTree : bool) (t : PTree) (n : addr) : outcome PTree :=
  nd ← deref t n;
  if negb (childless nd) then Stop AssertFail
  else
    '(t, n) ← remove_loop (size (nodes t)) t n;
    match n with
    | Some n => if CompressProcessTree then compress t n else Ret t
    | None => Ret t
    end.

(** ** Trees

    [TNode a tag st l r] is a node at address [a], reached through a pointer
    with tag [tag]. *)

Inductive tree : Type :=
  | TNil
  | TNode (a : addr) (tag : Z) (st : option sid) (l r : tree).

Fixpoint addrs (T : tree) : list addr :=
  match T with
  | TNil => []
  | TNode a _ _ l r => a :: addrs l ++ addrs r
  end.

Fixpoint rep (h : gmap addr PTreeNode) (p : option addr) (q : PTreeNodePtr) (T : tree) : Prop :=
  match T with
  | TNil => q = (None, 0)
  | TNode a tag st l r =>
      q = (Some a, tag) /\ exists n, h !! a = Some n /\ parent n = p /\ state n = st /\
        rep h (Some a) (left n) l /\ rep h (Some a) (right n) r
  end.

(** A tree with a hole: the frames from the hole to the root. *)
Inductive frame : Type :=
  | FL (a : addr) (tag : Z) (st : option sid) (r : tree)
  | FR (a : addr) (tag : Z) (st : option sid) (l : tree).

Definition frame_addr (f : frame) : addr := match f with FL a _ _ _ | FR a _ _ _ => a end.
Definition frame_tag (f : frame) : Z := match f with FL _ tg _ _ | FR _ tg _ _ => tg end.
Definition frame_state (f : frame) : option sid := match f with FL _ _ s _ | FR _ _ s _ => s end.
Definition sibling (f : frame) : tree := match f with FL _ _ _ r => r | FR _ _ _ l => l end.
Definition fill (f : frame) (T : tree) : tree :=
  match f with
  | FL a tag st r => TNode a tag st T r
  | FR a tag st l => TNode a tag st l T
  end.

Fixpoint plug (c : list frame) (T : tree) : tree :=
  match c with [] => T | f :: c' => plug c' (fill f T) end.

Definition ctx_parent (c : list frame) : option addr :=
  match c with [] => None | f :: _ => Some (frame_addr f) end.

Definition ctx_addrs (c : list frame) : list addr :=
  concat (map (fun f => frame_addr f :: addrs (sibling f)) c).

(** The hole of [c] is the pointer [q]. *)
Fixpoint rep_ctx (h : gmap addr PTreeNode) (rt q : PTreeNodePtr) (c : list frame) : Prop :=
  match c with
  | [] => rt = q
  | f :: c' =>
      exists n, h !! frame_addr f = Some n /\ parent n = ctx_parent c' /\ state n = frame_state f /\
        (match f with
         | FL a _ _ r => left n = q /\ rep h (Some a) (right n) r
         | FR a _ _ l => right n = q /\ rep h (Some a) (left n) l
         end) /\
        rep_ctx h rt (Some (frame_addr f), frame_tag f) c'
  end.

(** The heap holds the tree and nothing else. *)
Record Rep (t : PTree) (T : tree) : Prop := {
  rep_tree : rep (nodes t) None (root t) T;
  rep_nodup : NoDup (addrs T);
  rep_dom : forall a, is_Some (nodes t !! a) <-> a ∈ addrs T
}.

(** ** Lemmas on the representation *)

Lemma rep_plug h rt c : forall T,
  rep h None rt (plug c T) <-> exists q, rep_ctx h rt q c /\ rep h (ctx_parent c) q T.
Proof.
  induction c as [|f c IH]; intros T; simpl.
  - split; [eauto|]. by intros (q & -> & ?).
  - rewrite IH. destruct f as [a tag st r|a tag st l]; simpl; split.
    + intros (q & Hc & -> & n & Hn & Hp & Hst & Hl & Hr). exists (left n). split; [|done].
      exists n. split_and!; auto.
    + intros (q & (n & Hn & Hp & Hst & [<- Hr] & Hc) & HT). eexists. split; [done|].
      split; [done|]. exists n. split_and!; auto.
    + intros (q & Hc & -> & n & Hn & Hp & Hst & Hl & Hr). exists (right n). split; [|done].
      exists n. split_and!; auto.
    + intros (q & (n & Hn & Hp & Hst & [<- Hl] & Hc) & HT). eexists. split; [done|].
      split; [done|]. exists n. split_and!; auto.
Qed.

Lemma addrs_fill f T : addrs (fill f T) ≡ₚ (frame_addr f :: addrs (sibling f)) ++ addrs T.
Proof.
  destruct f; simpl; [|done]. by rewrite (Permutation_app_comm (addrs T)).
Qed.

Lemma addrs_plug c : forall T, addrs (plug c T) ≡ₚ ctx_addrs c ++ addrs T.
Proof.
  induction c as [|f c IH]; intros T; simpl; [done|].
  rewrite IH, addrs_fill. unfold ctx_addrs. cbn [map concat]. solve_Permutation.
Qed.

(** Only the addresses of a tree matter to it. *)
Lemma rep_frame h h' p q T :
  (forall a, a ∈ addrs T -> h' !! a = h !! a) -> rep h p q T -> rep h' p q T.
Proof.
  revert p q. induction T as [|a tag st l IHl r IHr]; intros p q Heq; simpl; [done|].
  intros (-> & n & Hn & Hp & Hst & Hl & Hr). split; [done|]. exists n. simpl in Heq.
  rewrite Heq by left. split_and!; auto; [apply IHl|apply IHr]; auto; intros b Hb; apply Heq; set_solver.
Qed.

Lemma rep_ctx_frame h h' rt q c :
  (forall a, a ∈ ctx_addrs c -> h' !! a = h !! a) -> rep_ctx h rt q c -> rep_ctx h' rt q c.
Proof.
  revert q. induction c as [|f c IH]; intros q Heq; simpl; [done|].
  unfold ctx_addrs in Heq. cbn [map concat] in Heq.
  intros (n & Hn & Hp & Hst & Hq & Hc). exists n. rewrite Heq by set_solver.
  split_and!; auto.
  - destruct f; destruct Hq as [Hq Hs]; split; auto;
      (eapply rep_frame; [|exact Hs]); intros b Hb; apply Heq; simpl; set_solver.
  - apply IH; [|done]. intros b Hb. apply Heq. set_solver.
Qed.

(** A pointer to a node that is not of the tree is not its root's. *)
Lemma rep_not_ptr h p q T a : rep h p q T -> a ∉ addrs T -> getPointer q <> Some a.
Proof.
  destruct T as [|b tag st l r]; simpl; [by intros ->|]. intros (-> & _) Ha. simpl.
  intros [= ->]. set_solver.
Qed.

(** ** The pointer to a node

    [child_ptr] reads it and [set_child] changes it, in the parent or in the
    tree. *)

Definition child_ptr (t : PTree) (a : addr) (p : option addr) : outcome PTreeNodePtr :=
  match p with
  | None => Ret (root t)
  | Some p =>
      n ← deref t p;
      Ret (if bool_decide (getPointer (left n) = Some a) then left n else right n)
  end.

Definition set_child (t : PTree) (a : addr) (p : option addr) (q : PTreeNodePtr) : PTree :=
  match p with
  | None => with_root q t
  | Some p =>
      modify (fun n => if bool_decide (getPointer (left n) = Some a) then set_left q n
                       else set_right q n) p t
  end.

Lemma set_child_dom t a p q b : is_Some (nodes (set_child t a p q) !! b) <-> is_Some (nodes t !! b).
Proof. destruct p as [p|]; simpl; [|done]. by rewrite lookup_alter_is_Some. Qed.

Lemma set_child_other t a p q b : p <> Some b -> nodes (set_child t a p q) !! b = nodes t !! b.
Proof. destruct p as [p|]; simpl; [|done]. intros. rewrite lookup_alter_ne by congruence. done. Qed.

Lemma ctx_parent_in c p : ctx_parent c = Some p -> p ∈ ctx_addrs c.
Proof. destruct c as [|f c]; simpl; [done|]. intros [= <-]. unfold ctx_addrs. simpl. left. Qed.

Section Child.
Variables (t : PTree) (a : addr) (tag : Z).

(** [a] is in the hole of [c], outside of its frames. *)
Record hole (c : list frame) : Prop := {
  hole_rep : rep_ctx (nodes t) (root t) (Some a, tag) c;
  hole_nodup : NoDup (ctx_addrs c);
  hole_out : a ∉ ctx_addrs c
}.

Lemma child_ptr_ctx c : hole c -> child_ptr t a (ctx_parent c) = Ret (Some a, tag).
Proof.
  intros [Hctx Hnd Ha].
  destruct c as [|f c']; simpl in *; [by rewrite Hctx|].
  destruct Hctx as (n & Hn & _ & _ & Hq & _). unfold deref. rewrite Hn. simpl.
  unfold ctx_addrs in Ha. simpl in Ha.
  destruct f as [b tg st r|b tg st l]; destruct Hq as [Hq Hs]; simpl in *.
  - rewrite Hq. simpl. by rewrite bool_decide_true.
  - rewrite bool_decide_false; [by rewrite Hq|]. eapply rep_not_ptr; [done|]. set_solver.
Qed.

Lemma set_child_ctx c q :
  hole c ->
  rep_ctx (nodes (set_child t a (ctx_parent c) q)) (root (set_child t a (ctx_parent c) q)) q c.
Proof.
  intros [Hctx Hnd Ha]. destruct c as [|f c']; simpl in *; [done|].
  destruct Hctx as (n & Hn & Hp & Hst & Hq & Hc).
  unfold ctx_addrs in Ha, Hnd. cbn [map concat app] in Ha, Hnd.
  apply NoDup_cons in Hnd as [Hf Hnd']. apply not_elem_of_cons in Ha as [Haf Ha'].
  apply not_elem_of_app in Ha' as [Has _]. apply not_elem_of_app in Hf as [Hfs Hfc].
  eexists. rewrite lookup_alter_eq, Hn. simpl. split; [done|]. split.
  { by case_bool_decide. } split. { by case_bool_decide. } split.
  - destruct f as [b tg st r|b tg st l]; destruct Hq as [Hq Hs]; simpl in *.
    + rewrite Hq. simpl. rewrite bool_decide_true by done. split; [done|]. simpl.
      eapply rep_frame; [|done]. intros b' Hb'. rewrite lookup_alter_ne; [done|]. set_solver.
    + rewrite bool_decide_false by (eapply rep_not_ptr; [done|set_solver]). split; [done|]. simpl.
      eapply rep_frame; [|done]. intros b' Hb'. rewrite lookup_alter_ne; [done|]. set_solver.
  - eapply rep_ctx_frame; [|done]. intros b' Hb'. rewrite lookup_alter_ne; [done|]. set_solver.
Qed.

Lemma replace_child_ctx c p q :
  hole c -> ctx_parent c = Some p -> replace_child t a p q = Ret (set_child t a (Some p) q).
Proof.
  intros [Hctx Hnd Ha]. destruct c as [|f c']; simpl in *; [done|]. intros [= <-].
  destruct Hctx as (n & Hn & _ & _ & Hq & _). unfold replace_child, deref. rewrite Hn. simpl.
  unfold ctx_addrs in Ha. simpl in Ha.
  assert (Halter : forall g, (if bool_decide (getPointer (left n) = Some a) then set_left q n
      else set_right q n) = g n ->
    set_child t a (Some (frame_addr f)) q = modify g (frame_addr f) t).
  { intros g Hg. simpl. unfold modify. f_equal. apply map_eq. intros b.
    destruct (decide (b = frame_addr f)) as [->|]; [|by rewrite !lookup_alter_ne].
    rewrite !lookup_alter_eq, Hn. simpl. by rewrite Hg. }
  destruct f as [b tg st r|b tg st l]; destruct Hq as [Hq Hs]; simpl in *.
  - rewrite Hq in *. simpl in *. rewrite bool_decide_true in * by done. f_equal. symmetry.
    by apply Halter.
  - rewrite bool_decide_false in * by (eapply rep_not_ptr; [done|set_solver]).
    rewrite Hq. simpl. rewrite bool_decide_true by done. f_equal. symmetry. by apply Halter.
Qed.

End Child.

(** A node of a represented tree, with its context. *)
Lemma Rep_at t c a tag st l r :
  Rep t (plug c (TNode a tag st l r)) ->
  hole t a tag c /\
  (exists n, nodes t !! a = Some n /\ parent n = ctx_parent c /\ state n = st /\
    rep (nodes t) (Some a) (left n) l /\ rep (nodes t) (Some a) (right n) r) /\
  NoDup (a :: addrs l ++ addrs r) /\
  forall b, b ∈ ctx_addrs c -> b ∉ a :: addrs l ++ addrs r.
Proof.
  intros [Hr Hnd Hd]. apply rep_plug in Hr as (q & Hc & -> & n & Hn).
  rewrite addrs_plug in Hnd. apply NoDup_app in Hnd as (H1 & H2 & H3).
  split_and!; eauto. split; auto. intros Hin. apply (H2 a Hin). left.
Qed.

(** Replace the subtree at a node: the pointer to it changes, the rest of the
    context stays. *)
Lemma Rep_subst t c a tag st l r t' q u :
  Rep t (plug c (TNode a tag st l r)) ->
  (forall b, b ∈ ctx_addrs c -> nodes t' !! b = nodes (set_child t a (ctx_parent c) q) !! b) ->
  root t' = root (set_child t a (ctx_parent c) q) ->
  rep (nodes t') (ctx_parent c) q u -> NoDup (addrs u) ->
  (forall b, b ∈ addrs u -> b ∉ ctx_addrs c) ->
  (forall b, is_Some (nodes t' !! b) <-> b ∈ ctx_addrs c \/ b ∈ addrs u) ->
  Rep t' (plug c u).
Proof.
  intros Hrep Hctx Hroot Hu Hndu Hdisj Hdom.
  destruct (Rep_at _ _ _ _ _ _ _ Hrep) as (Hc & _ & _ & Hout).
  pose proof (hole_nodup _ _ _ _ Hc). split.
  - apply rep_plug. exists q. split; [|done]. rewrite Hroot.
    eapply rep_ctx_frame; [exact Hctx|]. by eapply set_child_ctx.
  - rewrite addrs_plug. apply NoDup_app. split_and!; auto. intros b Hb Hbu. by apply (Hdisj b).
  - intros b. rewrite addrs_plug, elem_of_app. apply Hdom.
Qed.

Lemma set_child_same t c a tag :
  hole t a tag c -> set_child t a (ctx_parent c) (Some a, tag) = t.
Proof.
  intros Hh. pose proof (child_ptr_ctx _ _ _ _ Hh) as Hq. destruct t as [h pn rt ids].
  destruct (ctx_parent c) as [p|] eqn:Ep; simpl in *; [|by simplify_eq].
  unfold deref in Hq. simpl in Hq. unfold modify, with_nodes. simpl. f_equal.
  destruct (h !! p) as [n|] eqn:En; [|done]. simpl in Hq. apply map_eq. intros b.
  destruct (decide (b = p)) as [->|]; [|by rewrite lookup_alter_ne].
  rewrite lookup_alter_eq, En. simpl. f_equal. destruct n. simpl in *.
  case_bool_decide; simplify_eq; done.
Qed.

(** ** Leaves

    The states are at the leaves; an inner node has a child. *)

Fixpoint leaves (T : tree) : list (sid * addr) :=
  match T with
  | TNil => []
  | TNode a _ st l r =>
      (match st with Some s => [(s, a)] | None => [] end) ++ leaves l ++ leaves r
  end.

Fixpoint wf (T : tree) : Prop :=
  match T with
  | TNil => True
  | TNode _ _ (Some _) l r => l = TNil /\ r = TNil
  | TNode _ _ None l r => (l <> TNil \/ r <> TNil) /\ wf l /\ wf r
  end.

Abbreviation leaf a tag s := (TNode a tag (Some s) TNil TNil).

Definition frame_ok (f : frame) : Prop := frame_state f = None /\ wf (sibling f).

Fixpoint before (c : list frame) : list (sid * addr) :=
  match c with
  | [] => []
  | FL _ _ _ _ :: c' => before c'
  | FR _ _ _ l :: c' => before c' ++ leaves l
  end.

Fixpoint behind (c : list frame) : list (sid * addr) :=
  match c with
  | [] => []
  | FL _ _ _ r :: c' => leaves r ++ behind c'
  | FR _ _ _ _ :: c' => behind c'
  end.

Lemma leaves_plug c : forall T,
  Forall frame_ok c -> leaves (plug c T) = before c ++ leaves T ++ behind c.
Proof.
  induction c as [|f c IH]; intros T Hc; simpl; [by rewrite app_nil_r|].
  apply Forall_cons in Hc as [[Hf _] Hc]. rewrite IH by done.
  destruct f; simpl in *; subst; simpl; by rewrite <- !app_assoc.
Qed.

Lemma wf_fill f T : T <> TNil -> wf (fill f T) <-> frame_ok f /\ wf T.
Proof.
  intros HT. destruct f as [a tag [s|] r|a tag [s|] l]; unfold frame_ok; simpl; naive_solver.
Qed.

Lemma fill_not_nil f T : fill f T <> TNil.
Proof. by destruct f. Qed.

Lemma wf_plug c : forall T, T <> TNil -> wf (plug c T) <-> Forall frame_ok c /\ wf T.
Proof.
  induction c as [|f c IH]; intros T HT; simpl; [naive_solver|].
  rewrite IH by apply fill_not_nil. rewrite wf_fill by done. rewrite Forall_cons. tauto.
Qed.

Lemma wf_nil_leaves T : wf T -> T <> TNil -> leaves T <> [].
Proof.
  induction T as [|a tag [s|] l IHl r IHr]; simpl; [done|done|].
  intros ([Hn|Hn] & Hl & Hr) _ [H1 H2]%app_nil; naive_solver.
Qed.

(** A leaf has a context. *)
Lemma leaf_ctx T s a :
  wf T -> (s, a) ∈ leaves T -> exists c tag, T = plug c (leaf a tag s).
Proof.
  assert (Hgen : forall c0 T0, wf T0 -> (s, a) ∈ leaves T0 ->
    exists c tag, plug c0 T0 = plug c (leaf a tag s)); [|by apply (Hgen [])].
  intros c0 T0. revert c0. induction T0 as [|b tag [s'|] l IHl r IHr]; intros c0 Hwf Hin; simpl in *.
  - set_solver.
  - destruct Hwf as [-> ->]. simpl in Hin. apply list_elem_of_singleton in Hin. simplify_eq. eauto.
  - destruct Hwf as (_ & Hl & Hr). apply elem_of_app in Hin as [Hin|Hin].
    + apply (IHl (FL b tag None r :: c0) Hl Hin).
    + apply (IHr (FR b tag None l :: c0) Hr Hin).
Qed.

(** ** Removing a leaf *)

(** The first frame with another child. *)
Fixpoint stops (c : list frame) : option (frame * list frame) :=
  match c with
  | [] => None
  | f :: c' => match sibling f with TNil => stops c' | _ => Some (f, c') end
  end.

Definition prune (CompressProcessTree : bool) (c : list frame) : tree :=
  match stops c with
  | None => TNil
  | Some (f, c') => plug c' (if CompressProcessTree then sibling f else fill f TNil)
  end.

(** Same states and same searchers registered. *)
Definition same_rest (t t' : PTree) : Prop :=
  ptreeNode t' = ptreeNode t /\ registeredIds t' = registeredIds t.

(** Cutting a node without children. *)
Lemma Rep_cut t f c a tag st :
  Rep t (plug (f :: c) (TNode a tag st TNil TNil)) ->
  let t1 := set_child t a (Some (frame_addr f)) (None, 0) in
  Rep (with_nodes (delete a (nodes t1)) t1) (plug (f :: c) TNil).
Proof.
  intros HR t1. destruct (Rep_at _ _ _ _ _ _ _ HR) as (Hh & (n & Hn & _) & _ & Hout).
  eapply (Rep_subst t (f :: c) a tag st TNil TNil _ (None, 0)); [done| |done|done|apply NoDup_nil_2|set_solver|].
  - intros b Hb. cbn [ctx_parent]. fold t1. simpl. rewrite lookup_delete_ne; [done|].
    intros ->. by apply (Hout b Hb); left.
  - intros b. cbn [addrs]. pose proof (rep_dom _ _ HR b) as Hd. rewrite addrs_plug in Hd.
    cbn [with_nodes nodes].
    destruct (decide (b = a)) as [->|Hne].
    + rewrite lookup_delete_eq. split; [by intros []|]. intros [Hb|Hb]; [|set_solver].
      exfalso. apply (Hout a Hb). left.
    + rewrite lookup_delete_ne by done. unfold t1. rewrite set_child_dom, Hd. simpl. set_solver.
Qed.

Lemma childless_fill t c f n :
  Rep t (plug c (fill f TNil)) -> nodes t !! frame_addr f = Some n ->
  childless n = match sibling f with TNil => true | _ => false end.
Proof.
  intros HR Hn. unfold childless.
  destruct f as [a tag st r|a tag st l]; simpl in *;
    destruct (Rep_at _ _ _ _ _ _ _ HR) as (_ & (n' & Hn' & _ & _ & Hl & Hr) & _); simplify_eq;
    simpl in Hl, Hr.
  - rewrite Hl. destruct r; [by rewrite Hr|]. destruct Hr as [-> _]. done.
  - rewrite Hr. destruct l; [by rewrite Hl|]. destruct Hl as [-> _]. done.
Qed.

Lemma remove_loop_spec c : forall fuel t a tag st,
  Rep t (plug c (TNode a tag st TNil TNil)) -> (length c < fuel)%nat ->
  exists t' o, remove_loop fuel t a = Ret (t', o) /\ same_rest t t' /\ root t' = root t /\
    match stops c with
    | None => o = None /\ Rep (with_root (None, 0) t') TNil
    | Some (f, c') => o = Some (frame_addr f) /\ Rep t' (plug c' (fill f TNil))
    end.
Proof.
  induction c as [|f c IH]; intros fuel t a tag st HR Hfuel; (destruct fuel as [|fuel]; [simpl in *; lia|]);
    destruct (Rep_at _ _ _ _ _ _ _ HR) as (Hh & (n & Hn & Hp & _) & _);
    cbn [remove_loop]; rewrite (deref_Some _ _ _ Hn); cbn [mbind outcome_bind]; rewrite Hp.
  - simpl. eexists _, _. split_and!; try done. split; [done|apply NoDup_nil_2|].
    intros b. pose proof (rep_dom _ _ HR b) as Hd. simpl in *.
    destruct (decide (b = a)) as [->|]; [rewrite lookup_delete_eq|rewrite lookup_delete_ne, Hd by done].
    + split; [by intros []|set_solver].
    + set_solver.
  - cbn [ctx_parent]. erewrite replace_child_ctx by (done || by apply Hh).
    cbn [mbind outcome_bind]. apply Rep_cut in HR. simpl in HR.
    set (t1 := set_child t a (Some (frame_addr f)) (None, 0)) in *.
    set (t2 := with_nodes (delete a (nodes t1)) t1) in *.
    assert (Hin : is_Some (nodes t2 !! frame_addr f)).
    { apply (rep_dom _ _ HR). rewrite addrs_plug, addrs_fill. set_solver. }
    destruct Hin as [np Hnp]. fold t1. fold t2.
    rewrite (deref_Some _ _ _ Hnp). cbn [mbind outcome_bind].
    rewrite (childless_fill _ _ _ _ HR Hnp). simpl. destruct (sibling f) as [|] eqn:Es.
    + destruct (IH fuel t2 (frame_addr f) (frame_tag f) (frame_state f)) as (t' & o & Hrun & Hrest & Hm).
      { destruct f; simpl in *; by subst. } { simpl in Hfuel. lia. }
      exists t', o. done.
    + by exists t2, (Some (frame_addr f)).
Qed.

Lemma compress_spec t c f :
  Rep t (plug c (fill f TNil)) -> sibling f <> TNil ->
  exists t', compress t (frame_addr f) = Ret t' /\ same_rest t t' /\ Rep t' (plug c (sibling f)).
Proof.
  intros HR Hs. destruct (sibling f) as [|b btag bst bl br] eqn:Es; [done|]. clear Hs.
  set (a := frame_addr f) in *.
  assert (HR' : exists l r, fill f TNil = TNode a (frame_tag f) (frame_state f) l r /\
      addrs l ++ addrs r = addrs (TNode b btag bst bl br)).
  { destruct f; simpl in *; subst; eexists _, _; (split; [done|]); simpl; rewrite ?app_nil_r; done. }
  destruct HR' as (l & r & Efill & Eaddrs). rewrite Efill in HR.
  destruct (Rep_at _ _ _ _ _ _ _ HR) as (Hh & (n & Hn & Hp & _ & Hl & Hr) & Hnd & Hout).
  rewrite Eaddrs in Hnd, Hout.
  assert (Hchild : (match getPointer (left n) with Some _ => left n | None => right n end) = (Some b, btag) /\
    rep (nodes t) (Some a) (Some b, btag) (TNode b btag bst bl br)).
  { destruct f; simpl in *; simplify_eq; simpl in *.
    - rewrite Hl. simpl. destruct Hr as [Hr1 Hr2]. rewrite Hr1. done.
    - destruct Hl as [Hl1 Hl2]. rewrite Hl1. done. }
  destruct Hchild as [Hch Hrep]. unfold compress. rewrite (deref_Some _ _ _ Hn).
  cbn [mbind outcome_bind]. rewrite Hch. cbn [getPointer fst of_option mbind outcome_bind].
  rewrite Hp. apply NoDup_cons in Hnd as [Hab Hnd].
  assert (Hbc : b ∉ ctx_addrs c) by (intros Hb; apply (Hout b Hb); simpl; set_solver).
  set (t1 := modify (set_parent (ctx_parent c)) b t).
  assert (Hh1 : hole t1 a (frame_tag f) c).
  { destruct Hh as [Hc Hndc Ha]. split; auto. eapply rep_ctx_frame; [|exact Hc]. intros x Hx. simpl.
    rewrite lookup_alter_ne; [done|]. intros ->. done. }
  set (t2 := set_child t1 a (ctx_parent c) (Some b, btag)).
  assert (Hrun : (match ctx_parent c with
      | Some p => replace_child t1 a p (Some b, btag)
      | None => Ret (with_root (Some b, btag) t1) end) = Ret t2).
  { unfold t2. destruct (ctx_parent c) as [p|] eqn:Ep; [|done]. by eapply replace_child_ctx. }
  rewrite Hrun. cbn [mbind outcome_bind]. eexists. split; [done|]. split.
  { unfold t2, t1. by destruct (ctx_parent c). }
  assert (Hcomm : forall x, x <> b ->
    nodes t2 !! x = nodes (set_child t a (ctx_parent c) (Some b, btag)) !! x).
  { intros x Hx. unfold t2, t1. destruct (ctx_parent c) as [p|]; simpl.
    - destruct (decide (x = p)) as [->|]; [|by rewrite !lookup_alter_ne].
      rewrite !lookup_alter_eq. f_equal. by rewrite lookup_alter_ne.
    - by rewrite lookup_alter_ne. }
  assert (Hpc : forall x, x ∈ addrs (TNode b btag bst bl br) -> ctx_parent c <> Some x).
  { intros x Hx Hpx. apply ctx_parent_in in Hpx. apply (Hout x Hpx). by right. }
  assert (Hlow : forall x, x ∈ addrs bl ++ addrs br -> nodes (with_nodes (delete a (nodes t2)) t2) !! x = nodes t !! x).
  { intros x Hx. simpl. rewrite lookup_delete_ne by (intros ->; apply Hab; right; done).
    rewrite Hcomm by (intros ->; apply NoDup_cons in Hnd as [Hb _]; done).
    rewrite set_child_other; [done|]. apply Hpc. by right. }
  eapply (Rep_subst t c a _ _ _ _ _ (Some b, btag)); [exact HR| | | |done| |].
  - intros x Hx. simpl. rewrite lookup_delete_ne by (intros ->; apply (Hout x Hx); left).
    apply Hcomm. by intros ->.
  - simpl. unfold t2, t1. by destruct (ctx_parent c).
  - destruct Hrep as (_ & nb & Hnb & _ & Hstb & Hbl & Hbr). split; [done|].
    exists (set_parent (ctx_parent c) nb). split_and!; [|done|done| |].
    + simpl. rewrite lookup_delete_ne by (intros ->; apply Hab; left).
      unfold t2. rewrite set_child_other by (apply Hpc; left).
      simpl. by rewrite lookup_alter_eq, Hnb.
    + eapply rep_frame; [|exact Hbl]. intros x Hx. apply Hlow. set_solver.
    + eapply rep_frame; [|exact Hbr]. intros x Hx. apply Hlow. set_solver.
  - intros x Hx Hc. apply (Hout x Hc). by right.
  - intros x. pose proof (rep_dom _ _ HR x) as Hd. rewrite addrs_plug in Hd. cbn [addrs] in Hd.
    rewrite Eaddrs in Hd. cbn [with_nodes nodes].
    destruct (decide (x = a)) as [->|Hne].
    + rewrite lookup_delete_eq. split; [by intros []|]. intros [Hx|Hx]; [|done].
      exfalso. by apply (hole_out _ _ _ _ Hh).
    + rewrite lookup_delete_ne by done. unfold t2. rewrite set_child_dom. unfold t1. simpl.
      rewrite lookup_alter_is_Some, Hd. set_solver.
Qed.

Lemma ctx_length c : (length c <= length (ctx_addrs c))%nat.
Proof.
  induction c as [|f c IH]; unfold ctx_addrs in *; simpl; [lia|]. rewrite length_app. lia.
Qed.

Lemma Rep_size t T : Rep t T -> size (nodes t) = length (addrs T).
Proof.
  intros [_ Hnd Hd]. rewrite <- size_dom. rewrite <- (size_list_to_set (C := gset addr) _ Hnd).
  apply set_size_proper. intros a. rewrite elem_of_dom, elem_of_list_to_set. apply Hd.
Qed.

(** ** The invariant of the tree *)

(** When nothing is left the root pointer dangles. *)
Definition Rep0 (t : PTree) (T : tree) : Prop :=
  match T with TNil => Rep (with_root (None, 0) t) TNil | _ => Rep t T end.

Record PTree_inv (t : PTree) (T : tree) : Prop := {
  pi_rep : Rep0 t T;
  pi_wf : wf T;
  pi_states : NoDup (leaves T).*1;
  pi_node : forall s a, (s, a) ∈ leaves T -> ptreeNode t !! s = Some a
}.

(** Every inner node has two children. *)
Fixpoint full (T : tree) : Prop :=
  match T with
  | TNil => True
  | TNode _ _ (Some _) _ _ => True
  | TNode _ _ None l r => l <> TNil /\ r <> TNil /\ full l /\ full r
  end.

Lemma full_plug c : forall T,
  Forall frame_ok c -> T <> TNil ->
  full (plug c T) <-> Forall (fun f => sibling f <> TNil /\ full (sibling f)) c /\ full T.
Proof.
  induction c as [|f c IH]; intros T Hok HT; simpl; [naive_solver|].
  apply Forall_cons in Hok as [[Hf _] Hok]. rewrite IH, Forall_cons by (done || apply fill_not_nil).
  destruct f; simpl in *; subst; simpl; naive_solver.
Qed.

Lemma plug_not_nil c : forall T, T <> TNil -> plug c T <> TNil.
Proof.
  induction c as [|f c IH]; intros T HT; simpl; [done|]. apply IH, fill_not_nil.
Qed.

Lemma Rep0_plug t c T : T <> TNil -> Rep0 t (plug c T) <-> Rep t (plug c T).
Proof.
  intros HT. pose proof (plug_not_nil c T HT). unfold Rep0. by destruct (plug c T).
Qed.

(** ** Pruning keeps the other leaves *)

Lemma stops_spec c : Forall frame_ok c ->
  match stops c with
  | None => before c = [] /\ behind c = []
  | Some (f, c') => before (f :: c') = before c /\ behind (f :: c') = behind c /\
      frame_ok f /\ Forall frame_ok c' /\ sibling f <> TNil
  end.
Proof.
  induction 1 as [|f c Hf Hc IH]; [done|]. cbn [stops]. destruct (sibling f) as [|] eqn:Es.
  - assert (before (f :: c) = before c /\ behind (f :: c) = behind c) as [-> ->]; [|done].
    destruct f; simpl in *; subst; simpl; by rewrite ?app_nil_r.
  - split_and!; auto. by rewrite Es.
Qed.

Lemma prune_spec cmp c a tag s :
  wf (plug c (leaf a tag s)) ->
  wf (prune cmp c) /\ leaves (prune cmp c) = before c ++ behind c /\
  (cmp = true -> full (plug c (leaf a tag s)) -> full (prune cmp c)).
Proof.
  rewrite wf_plug by done. intros [Hok _]. pose proof (stops_spec c Hok) as Hs. unfold prune.
  assert (Hfull : full (plug c (leaf a tag s)) -> Forall (fun f => sibling f <> TNil /\ full (sibling f)) c).
  { rewrite full_plug by done. naive_solver. }
  destruct (stops c) as [[f c']|] eqn:Est; [|by destruct Hs as [-> ->]].
  destruct Hs as (<- & <- & [Hf Hwf] & Hok' & Hsib). destruct cmp.
  - rewrite wf_plug, leaves_plug by done. split_and!; [done|done| |].
    + destruct f; simpl; by rewrite <- ?app_assoc.
    + intros _ HF. specialize (Hfull HF). rewrite full_plug by done.
      destruct c as [|f0 c0]; [done|]. cbn [stops] in Est. apply Forall_cons in Hfull as [[Hn Hfs] Hfc].
      destruct (sibling f0) as [|] eqn:E0; [done|]. simplify_eq. by rewrite E0.
  - rewrite wf_plug, leaves_plug by (done || apply fill_not_nil). split_and!; [done| | |done].
    + destruct f; simpl in *; subst; simpl; naive_solver.
    + destruct f; simpl in *; subst; simpl; rewrite ?app_nil_r, <- ?app_assoc; done.
Qed.

(** What an operation keeps of the invariant follows from its leaves. *)
Lemma PTree_inv_sub t T t' T' :
  PTree_inv t T -> Rep0 t' T' -> wf T' -> same_rest t t' -> leaves T' `sublist_of` leaves T -> PTree_inv t' T'.
Proof.
  intros [_ _ Hnd Hnode] HR Hwf [Hp _] Hsub. split; auto.
  - eapply sublist_NoDup; [exact Hnd|]. by apply fmap_sublist.
  - intros s a Hin. rewrite Hp. apply Hnode. eapply elem_of_submseteq; [done|].
    by apply sublist_submseteq.
Qed.

Lemma leaves_without L1 L2 (s : sid) (a : addr) :
  NoDup (L1 ++ (s, a) :: L2).*1 -> filter (fun x => x.1 <> s) (L1 ++ (s, a) :: L2) = L1 ++ L2.
Proof.
  rewrite fmap_app, fmap_cons. intros (H1 & H2 & [H3 H4]%NoDup_cons)%NoDup_app. simpl in *.
  rewrite filter_app, filter_cons_False by naive_solver. f_equal; apply filter_all, Forall_forall.
  - intros x Hx <-. apply (H2 x.1); [by apply list_elem_of_fmap_2|left].
  - intros x Hx <-. apply H3. by apply list_elem_of_fmap_2.
Qed.

(** Removing the leaf in the hole of [c]. *)
Lemma remove_at cmp t c a tag s :
  PTree_inv t (plug c (leaf a tag s)) ->
  exists t', remove cmp t a = Ret t' /\ same_rest t t' /\ PTree_inv t' (prune cmp c) /\
    (stops c = None -> root t' = root t).
Proof.
  intros Hinv. pose proof (proj1 (Rep0_plug t c (leaf a tag s) ltac:(done)) (pi_rep _ _ Hinv)) as HR.
  destruct (Rep_at _ _ _ _ _ _ _ HR) as (_ & (n & Hn & _ & _ & Hl & Hr) & _).
  destruct (prune_spec cmp c a tag s (pi_wf _ _ Hinv)) as (Hwf & Hleaves & _).
  pose proof (pi_wf _ _ Hinv) as Hwf0. rewrite wf_plug in Hwf0 by done. destruct Hwf0 as [Hok _].
  unfold remove. rewrite (deref_Some _ _ _ Hn). cbn [mbind outcome_bind].
  replace (childless n) with true by (unfold childless; simpl in Hl, Hr; by rewrite Hl, Hr).
  cbn [negb]. destruct (remove_loop_spec c (size (nodes t)) t a tag (Some s) HR)
    as (t1 & o & -> & Hrest & Hroot & Hm).
  { rewrite (Rep_size _ _ HR), addrs_plug, length_app. simpl. pose proof (ctx_length c). lia. }
  cbn [mbind outcome_bind].
  assert (Hend : forall t', same_rest t t' -> Rep0 t' (prune cmp c) -> PTree_inv t' (prune cmp c)).
  { intros t' Hs HR'. eapply PTree_inv_sub; eauto. rewrite Hleaves, leaves_plug by done.
    apply sublist_app; [done|]. by apply sublist_cons. }
  pose proof (stops_spec c Hok) as Hstops. unfold prune in *. destruct (stops c) as [[f c']|].
  - destruct Hm as [-> HR1]. destruct cmp.
    + destruct Hstops as (_ & _ & _ & _ & Hsib).
      destruct (compress_spec t1 c' f HR1 Hsib) as (t2 & -> & [Hs1 Hs2] & HR2).
      assert (same_rest t t2) by (destruct Hrest; split; congruence).
      exists t2. split_and!; auto; try done. apply Hend; [done|]. by apply Rep0_plug.
    + exists t1. split_and!; auto; try done. apply Hend; [done|]. apply Rep0_plug; [apply fill_not_nil|done].
  - destruct Hm as [-> HR1]. exists t1. split_and!; auto.
Qed.

Lemma remove_spec cmp t T s a :
  PTree_inv t T -> (s, a) ∈ leaves T ->
  exists t' T', remove cmp t a = Ret t' /\ same_rest t t' /\ PTree_inv t' T' /\
    leaves T' = filter (fun x => x.1 <> s) (leaves T) /\ (cmp = true -> full T -> full T').
Proof.
  intros Hinv Hin. destruct (leaf_ctx T s a (pi_wf _ _ Hinv) Hin) as (c & tag & ->).
  destruct (remove_at cmp t c a tag s Hinv) as (t' & Hrun & Hrest & Hinv' & _).
  destruct (prune_spec cmp c a tag s (pi_wf _ _ Hinv)) as (_ & Hleaves & Hfull).
  exists t', (prune cmp c). split_and!; auto.
  pose proof (pi_wf _ _ Hinv) as Hwf0. rewrite wf_plug in Hwf0 by done. destruct Hwf0 as [Hok _].
  pose proof (pi_states _ _ Hinv) as Hnd. rewrite leaves_plug in Hnd |- * by done.
  rewrite Hleaves. symmetry. by apply leaves_without.
Qed.

(** ** Forking a leaf *)

Lemma currentNodeTag_hole t t' c a tag :
  hole t a tag c -> root t' = root t -> (forall p, ctx_parent c = Some p -> nodes t' !! p = nodes t !! p) ->
  currentNodeTag t' a (ctx_parent c) = Ret tag.
Proof.
  intros Hh Hroot Hsame. pose proof (child_ptr_ctx _ _ _ _ Hh) as Hq.
  destruct (ctx_parent c) as [p|]; simpl in *.
  - unfold deref in *. rewrite Hsame by done. destruct (nodes t !! p) as [n|]; [|done]. simpl in *.
    case_bool_decide; injection Hq as Hq; by rewrite Hq.
  - injection Hq as Hq. rewrite Hroot, Hq. done.
Qed.

(** What [attach] leaves on the heap. *)
Lemma attach_heap t c a tag ls rs :
  Rep t (plug c (leaf a tag rs)) -> ptreeNode t !! rs = Some a ->
  exists t' n l r, attach t a ls rs = Ret t' /\ nodes t !! a = Some n /\
    nodes t !! l = None /\ nodes t !! r = None /\ l <> r /\
    root t' = root t /\ registeredIds t' = registeredIds t /\
    ptreeNode t' = <[rs := r]> (<[ls := l]> (ptreeNode t)) /\
    nodes t' = <[a := set_right (Some r, tag) (set_left (Some l, 0) (set_state None n))]>
      (<[r := mkPTreeNode (Some a) (None, 0) (None, 0) (Some rs) false 0 false false false]>
      (<[l := mkPTreeNode (Some a) (None, 0) (None, 0) (Some ls) false 0 false false false]> (nodes t))).
Proof.
  intros HR Hrs. destruct (Rep_at _ _ _ _ _ _ _ HR) as (Hh & (n & Hn & Hp & _) & _ & Hout).
  unfold attach. rewrite bool_decide_true by done. cbn [negb].
  rewrite (deref_Some _ _ _ Hn). cbn [mbind outcome_bind].
  set (t1 := modify (set_state None) a t).
  destruct (new_PTreeNode t1 (Some a) ls) as [l t2] eqn:E2.
  unfold new_PTreeNode in E2. injection E2 as Hl Ht2.
  set (t3 := modify (set_left (Some l, 0)) a t2).
  assert (Hl1 : nodes t1 !! l = None) by (rewrite <- Hl; apply not_elem_of_dom, is_fresh).
  assert (Hal : a <> l).
  { intros <-. unfold t1 in Hl1. simpl in Hl1. by rewrite lookup_alter_eq, Hn in Hl1. }
  assert (Hl0 : nodes t !! l = None) by (unfold t1 in Hl1; simpl in Hl1; by rewrite lookup_alter_ne in Hl1).
  rewrite Hl in Ht2.
  rewrite Hp, (currentNodeTag_hole t t3 c a tag Hh).
  2: { unfold t3. by rewrite <- Ht2. }
  2: { intros p Hpc. apply ctx_parent_in in Hpc. unfold t3. rewrite <- Ht2. simpl.
       assert (p <> a) by (intros ->; by apply (hole_out _ _ _ _ Hh)).
       assert (p <> l).
       { intros ->. assert (is_Some (nodes t !! l)) as [? He]; [|congruence].
         apply (rep_dom _ _ HR). rewrite addrs_plug. set_solver. }
       by rewrite lookup_alter_ne, lookup_insert_ne, lookup_alter_ne by done. }
  cbn [mbind outcome_bind].
  destruct (new_PTreeNode t3 (Some a) rs) as [r t4] eqn:E4.
  unfold new_PTreeNode in E4. injection E4 as Hr Ht4.
  assert (Hr3 : nodes t3 !! r = None) by (rewrite <- Hr; apply not_elem_of_dom, is_fresh).
  rewrite Hr in Ht4.
  assert (Hn3 : nodes t3 = <[a := set_left (Some l, 0) (set_state None n)]>
    (<[l := mkPTreeNode (Some a) (None, 0) (None, 0) (Some ls) false 0 false false false]> (nodes t))).
  { unfold t3. rewrite <- Ht2. unfold t1. simpl.
    rewrite (alter_alt_Some _ _ _ n Hn), alter_insert_ne by done.
    rewrite alter_insert_eq. apply insert_insert_ne. congruence. }
  rewrite Hn3 in Hr3. apply lookup_insert_None in Hr3 as [Hr3 Har].
  apply lookup_insert_None in Hr3 as [Hr0 Hlr].
  eexists _, n, l, r. split; [done|]. split_and!; auto.
  - rewrite <- Ht4. unfold t3. by rewrite <- Ht2.
  - rewrite <- Ht4. unfold t3. by rewrite <- Ht2.
  - rewrite <- Ht4. unfold t3. by rewrite <- Ht2.
  - rewrite <- Ht4. simpl. change (alter (set_left (Some l, 0)) a (nodes t2)) with (nodes t3).
    rewrite Hn3, alter_insert_ne, alter_insert_eq by congruence. apply insert_insert_ne. congruence.
Qed.

Lemma attach_Rep t c a tag ls rs :
  Rep t (plug c (leaf a tag rs)) -> ptreeNode t !! rs = Some a ->
  exists t' l r, attach t a ls rs = Ret t' /\ registeredIds t' = registeredIds t /\
    ptreeNode t' = <[rs := r]> (<[ls := l]> (ptreeNode t)) /\
    Rep t' (plug c (TNode a tag None (leaf l 0 ls) (leaf r tag rs))).
Proof.
  intros HR Hrs. destruct (attach_heap t c a tag ls rs HR Hrs)
    as (t' & n & l & r & Hrun & Hn & Hl & Hr & Hlr & Hroot & Hids & Hpn & Hnodes).
  exists t', l, r. split_and!; auto.
  destruct (Rep_at _ _ _ _ _ _ _ HR) as (Hh & (n' & Hn' & Hp & _) & _ & Hout). simplify_eq.
  assert (Hfresh : forall b, b ∈ ctx_addrs c -> b <> l /\ b <> r).
  { intros b Hb. assert (is_Some (nodes t !! b)) as [m Hm]; [|split; congruence].
    apply (rep_dom _ _ HR). rewrite addrs_plug. set_solver. }
  assert (Hal : a <> l) by congruence. assert (Har : a <> r) by congruence.
  eapply (Rep_subst t c a _ _ _ _ _ (Some a, tag)); [exact HR| | | | | |].
  - intros b Hb. rewrite set_child_same by done. destruct (Hfresh b Hb).
    rewrite Hnodes, !lookup_insert_ne; auto. intros ->. apply (Hout b Hb). left.
  - by rewrite set_child_same.
  - split; [done|]. eexists. rewrite Hnodes, lookup_insert_eq. split; [done|]. simpl.
    split_and!; try done.
    + exists (mkPTreeNode (Some a) (None, 0) (None, 0) (Some ls) false 0 false false false).
      by rewrite !lookup_insert_ne, lookup_insert_eq by congruence.
    + exists (mkPTreeNode (Some a) (None, 0) (None, 0) (Some rs) false 0 false false false).
      by rewrite lookup_insert_ne, lookup_insert_eq by congruence.
  - simpl. apply NoDup_cons. split; [set_solver|]. apply NoDup_cons. split; [set_solver|].
    apply NoDup_singleton.
  - simpl. intros b Hb Hc. destruct (Hfresh b Hc). specialize (Hout b Hc). set_solver.
  - intros b. pose proof (rep_dom _ _ HR b) as Hd. rewrite addrs_plug in Hd. simpl in *.
    rewrite Hnodes, !lookup_insert_is_Some', Hd. set_solver.
Qed.

(** Forking the leaf in the hole of [c]. *)
Lemma attach_at t c a tag ls rs :
  PTree_inv t (plug c (leaf a tag rs)) -> ls ∉ (leaves (plug c (leaf a tag rs))).*1 ->
  exists t' l r, attach t a ls rs = Ret t' /\ registeredIds t' = registeredIds t /\
    PTree_inv t' (plug c (TNode a tag None (leaf l 0 ls) (leaf r tag rs))).
Proof.
  intros Hinv Hls.
  pose proof (proj1 (Rep0_plug t c (leaf a tag rs) ltac:(done)) (pi_rep _ _ Hinv)) as HR.
  pose proof (pi_wf _ _ Hinv) as Hwf. rewrite wf_plug in Hwf by done. destruct Hwf as [Hok _].
  assert (HL : leaves (plug c (leaf a tag rs)) = before c ++ (rs, a) :: behind c) by (by rewrite leaves_plug).
  destruct (attach_Rep t c a tag ls rs HR) as (t' & l & r & Hrun & Hids & Hpn & HR').
  { apply (pi_node _ _ Hinv). rewrite HL. set_solver. }
  set (T' := plug c (TNode a tag None (leaf l 0 ls) (leaf r tag rs))) in *.
  assert (HL' : leaves T' = before c ++ (ls, l) :: (rs, r) :: behind c) by (unfold T'; by rewrite leaves_plug).
  pose proof (pi_states _ _ Hinv) as Hnd. rewrite HL in Hls, Hnd.
  rewrite fmap_app, fmap_cons in Hls, Hnd. simpl in Hls, Hnd.
  exists t', l, r. fold T'. split_and!; auto. split.
  - by apply Rep0_plug.
  - unfold T'. rewrite wf_plug by done. split; [done|]. simpl. naive_solver.
  - rewrite HL', fmap_app, !fmap_cons. simpl. apply NoDup_app in Hnd as (H1 & H2 & [H3 H4]%NoDup_cons).
    apply NoDup_app. split_and!; [done|set_solver|]. apply NoDup_cons. split; [set_solver|].
    apply NoDup_cons. done.
  - intros s b Hsb. rewrite HL' in Hsb. rewrite Hpn.
    destruct (decide ((s, b) ∈ before c ++ behind c)) as [Hold|Hnew].
    + pose proof (list_elem_of_fmap_2 fst _ _ Hold) as Hs. rewrite fmap_app in Hs. simpl in Hs.
      rewrite !lookup_insert_ne; [apply (pi_node _ _ Hinv); rewrite HL; set_solver| |].
      * intros ->. apply Hls. set_solver.
      * intros ->. apply NoDup_app in Hnd as (H1 & H2 & [H3 H4]%NoDup_cons). set_solver.
    + assert ((s, b) = (ls, l) \/ (s, b) = (rs, r)) as [[= -> ->]|[= -> ->]] by set_solver.
      * rewrite lookup_insert_ne, lookup_insert_eq; [done|]. intros ->. apply Hls. set_solver.
      * by rewrite lookup_insert_eq.
Qed.

Lemma attach_spec t T a ls rs :
  PTree_inv t T -> (rs, a) ∈ leaves T -> ls ∉ (leaves T).*1 ->
  exists t' T' l r L1 L2, attach t a ls rs = Ret t' /\ PTree_inv t' T' /\
    leaves T = L1 ++ (rs, a) :: L2 /\ leaves T' = L1 ++ (ls, l) :: (rs, r) :: L2 /\
    (full T -> full T').
Proof.
  intros Hinv Hin Hls. destruct (leaf_ctx T rs a (pi_wf _ _ Hinv) Hin) as (c & tag & ->).
  destruct (attach_at t c a tag ls rs Hinv Hls) as (t' & l & r & Hrun & _ & Hinv').
  pose proof (pi_wf _ _ Hinv) as Hwf. rewrite wf_plug in Hwf by done. destruct Hwf as [Hok _].
  eexists t', _, l, r, (before c), (behind c). split; [done|]. split; [done|].
  rewrite !leaves_plug, !full_plug by done. simpl. split_and!; naive_solver.
Qed.

Lemma new_PTree_spec s : exists a, PTree_inv (new_PTree s) (leaf a 0 s).
Proof.
  unfold new_PTree. destruct (new_PTreeNode _ None s) as [a t] eqn:E.
  injection E as Ha <-. rewrite Ha. clear Ha. exists a. split; simpl.
  - split; simpl.
    + split; [done|]. eexists. rewrite lookup_insert_eq. split; [done|]. done.
    + apply NoDup_singleton.
    + intros b. rewrite lookup_insert_is_Some', lookup_empty. split; [|set_solver].
      intros [->|[]]; [|done]. set_solver.
  - done.
  - apply NoDup_singleton.
  - intros s' a' [= -> ->]%list_elem_of_singleton. by rewrite lookup_insert_eq.
Qed.

(** C27: removing the leaf of a state from the process tree returns and keeps the
    tree well formed: the other states keep their leaves and their order, every
    inner node that is left has a child, and with [CompressProcessTree] every
    inner node still has two. *)
Theorem process_tree_remove (cmp : bool) (t : PTree) (T : tree) (s : sid) (a : addr) :
  PTree_inv t T -> (s, a) ∈ leaves T ->
  exists t' T', remove cmp t a = Ret t' /\ PTree_inv t' T' /\
    leaves T' = filter (fun x => x.1 <> s) (leaves T) /\ (cmp = true -> full T -> full T').
Proof.
  intros Hinv Hin. destruct (remove_spec cmp t T s a Hinv Hin) as (t' & T' & Hrun & _ & Hinv' & HL & HF).
  eauto 10.
Qed.

Lemma process_tree_remove_witness :
  exists a t' T', remove true (new_PTree 7) a = Ret t' /\ PTree_inv t' T' /\ leaves T' = [].
Proof.
  destruct (new_PTree_spec 7) as (a & Hinv). exists a.
  destruct (process_tree_remove true (new_PTree 7) (leaf a 0 7) 7 a Hinv (list_elem_of_here _ _))
    as (t' & T' & Hrun & Hinv' & HL & _).
  exists t', T'. split; [exact Hrun|]. split; [exact Hinv'|]. rewrite HL. reflexivity.
Defined.
