(* ===== verification/RandomPath.v ===== *)
(** * The random path searcher

    [RandomPathSearcher] of [lib/Core/Searcher.cpp] keeps its states as bits in
    the pointers of the process tree: a pointer is marked when a state of the
    searcher is below it.  Selecting walks down along marked pointers; an update
    marks and clears the way up from a leaf.  The searcher tracks its states
    exactly, also while the engine forks and removes states. *)

From stdpp Require Import gmap fin_maps.
From S2P Require Import Prelude Searchers PTree.

(** ** Operations *)

(** [IS_OUR_NODE_VALID] *)
Definition ours (idBitMask : Z) (q : PTreeNodePtr) : bool :=
  negb (bool_decide (getPointer q = None)) && nz (Z.land (getInt q) idBitMask).

Definition new_RandomPathSearcher (t : PTree) : outcome (Z * PTree) := getNextId t.

(** The walk of [selectState]; [k] counts the numbers drawn. *)
Fixpoint select_walk (idBitMask : Z) (fuel : nat) (e : env) (t : PTree) (n : addr) (flips bits : Z)
    (k : nat) : outcome sid :=
  match fuel with
  | O => Stop OutOfFuel
  | S fuel' =>
      nd ← deref t n;
      match state nd with
      | Some s => Ret s
      | None =>
          if negb (ours idBitMask (left nd)) then
            if negb (ours idBitMask (right nd)) then Stop AssertFail
            else if bool_decide (getPointer (right nd) = Some n) then Stop AssertFail
            else r ← of_option MemError (getPointer (right nd));
                 select_walk idBitMask fuel' e t r flips bits k
          else if negb (ours idBitMask (right nd)) then
            if bool_decide (getPointer (left nd) = Some n) then Stop AssertFail
            else l ← of_option MemError (getPointer (left nd));
                 select_walk idBitMask fuel' e t l flips bits k
          else
            let '(flips, bits, k) :=
              if bits =? 0 then (u32 (rnd e k), 32, S k) else (flips, bits, k) in
            let bits := bits - 1 in
            c ← of_option MemError
                  (getPointer (if nz (Z.land flips (Z.shiftl 1 bits)) then left nd else right nd));
            select_walk idBitMask fuel' e t c flips bits k
      end
  end.

Definition RandomPathSearcher_selectState (idBitMask : Z) (e : env) (t : PTree) : outcome sid :=
  if negb (nz (Z.land (getInt (root t)) idBitMask)) then Stop AssertFail
  else
    n ← of_option MemError (getPointer (root t));
    select_walk idBitMask (S (size (nodes t))) e t n 0 0 0.

(** The loop over the way up of an added state. *)
Fixpoint mark_up (idBitMask : Z) (fuel : nat) (t : PTree) (pnode p : option addr) : outcome PTree :=
  match fuel with
  | O => Stop OutOfFuel
  | S fuel' =>
      match pnode with
      | None => Ret t
      | Some a =>
          q ← child_ptr t a p;
          if ours idBitMask q then Ret t
          else
            let t := set_child t a p (getPointer q, Z.lor (getInt q) idBitMask) in
            match p with
            | None => mark_up idBitMask fuel' t None None
            | Some b => n ← deref t b; mark_up idBitMask fuel' t (Some b) (parent n)
            end
      end
  end.

(** The loop over the way up of a removed state. *)
Fixpoint clear_up (idBitMask : Z) (fuel : nat) (t : PTree) (pnode p : option addr) : outcome PTree :=
  match fuel with
  | O => Stop OutOfFuel
  | S fuel' =>
      match pnode with
      | None => Ret t
      | Some a =>
          nd ← deref t a;
          if ours idBitMask (left nd) || ours idBitMask (right nd) then Ret t
          else
            q ← child_ptr t a p;
            if negb (ours idBitMask q) then Stop AssertFail
            else
              let t := set_child t a p (getPointer q, Z.land (getInt q) (Z.lnot idBitMask)) in
              match p with
              | None => clear_up idBitMask fuel' t None None
              | Some b => n ← deref t b; clear_up idBitMask fuel' t (Some b) (parent n)
              end
      end
  end.

(** One state: the loop started at the state's node. *)
Definition from_state (loop : nat -> PTree -> option addr -> option addr -> outcome PTree)
    (t : PTree) (es : sid) : outcome PTree :=
  a ← of_option MemError (ptreeNode t !! es);
  n ← deref t a;
  loop (S (S (size (nodes t)))) t (Some a) (parent n).

Fixpoint each_state (loop : nat -> PTree -> option addr -> option addr -> outcome PTree)
    (t : PTree) (l : list sid) : outcome PTree :=
  match l with
  | [] => Ret t
  | es :: l' => t ← from_state loop t es; each_state loop t l'
  end.

Definition RandomPathSearcher_update (idBitMask : Z) (t : PTree) (current : option sid)
    (added removed : list sid) : outcome PTree :=
  t ← each_state (mark_up idBitMask) t added;
  each_state (clear_up idBitMask) t removed.

Definition RandomPathSearcher_empty (idBitMask : Z) (t : PTree) : bool :=
  negb (ours idBitMask (root t)).

(** ** Marked trees *)

Section Mask.
Variable idBitMask : Z.

Definition bit (tag : Z) : bool := nz (Z.land tag idBitMask).

(** A state of [M] is below. *)
Definition has (M : gset sid) (T : tree) : bool :=
  existsb (fun x => bool_decide (x.1 ∈ M)) (leaves T).

Fixpoint tagged (M : gset sid) (T : tree) : Prop :=
  match T with
  | TNil => True
  | TNode _ tag _ l r => bit tag = has M T /\ tagged M l /\ tagged M r
  end.

Fixpoint ctx_tagged (M : gset sid) (c : list frame) (b : bool) : Prop :=
  match c with
  | [] => True
  | f :: c' =>
      bit (frame_tag f) = has M (sibling f) || b /\ tagged M (sibling f) /\
      ctx_tagged M c' (has M (sibling f) || b)
  end.

Lemma has_fill M f T : frame_state f = None -> has M (fill f T) = has M (sibling f) || has M T.
Proof.
  unfold has. destruct f; simpl; intros ->; simpl; rewrite existsb_app; [apply orb_comm|done].
Qed.

Lemma tagged_fill M f T :
  tagged M (fill f T) <->
  bit (frame_tag f) = has M (fill f T) /\ tagged M (sibling f) /\ tagged M T.
Proof. destruct f; simpl; tauto. Qed.

Lemma tagged_plug M c : forall T, Forall frame_ok c ->
  tagged M (plug c T) <-> ctx_tagged M c (has M T) /\ tagged M T.
Proof.
  induction c as [|f c IH]; intros T Hok; simpl; [tauto|].
  apply Forall_cons in Hok as [[Hf _] Hok]. rewrite IH, has_fill by done.
  rewrite tagged_fill, has_fill by done. tauto.
Qed.

Lemma has_true M T : has M T = true <-> exists s a, (s, a) ∈ leaves T /\ s ∈ M.
Proof.
  unfold has. rewrite existsb_exists. split.
  - intros ([s a] & Hin & Hs). exists s, a. split; [by apply list_elem_of_In|].
    by apply bool_decide_eq_true in Hs.
  - intros (s & a & Hin & Hs). exists (s, a). split; [by apply list_elem_of_In|].
    by apply bool_decide_eq_true.
Qed.

(** Whether the pointer to a subtree is marked. *)
Definition kid (T : tree) : bool := match T with TNil => false | TNode _ tag _ _ _ => bit tag end.

Lemma kid_has M T : tagged M T -> kid T = has M T.
Proof. destruct T; simpl; [done|tauto]. Qed.

Lemma ours_kid h p q T : rep h p q T -> ours idBitMask q = kid T.
Proof. destruct T; simpl; [by intros ->|]. intros [-> _]. done. Qed.

(** ** Selection *)

Fixpoint height (T : tree) : nat :=
  match T with TNil => 0 | TNode _ _ _ l r => S (Nat.max (height l) (height r)) end.

Lemma height_addrs T : (height T <= length (addrs T))%nat.
Proof. induction T; simpl; [lia|]. rewrite length_app. lia. Qed.

Lemma select_walk_spec M e t T : forall fuel p a tag flips bits k,
  rep (nodes t) p (Some a, tag) T -> NoDup (addrs T) -> wf T -> tagged M T -> has M T = true ->
  (height T <= fuel)%nat ->
  exists s, select_walk idBitMask fuel e t a flips bits k = Ret s /\ s ∈ M.
Proof.
  induction T as [|b tg st l IHl r IHr]; intros fuel p a tag flips bits k Hrep Hnd Hwf Htag Hhas Hfuel;
    [done|]. destruct Hrep as ([= <- <-] & n & Hn & _ & Hst & Hl & Hr).
  destruct fuel as [|fuel]; [simpl in Hfuel; lia|]. cbn [select_walk].
  rewrite (deref_Some _ _ _ Hn). cbn [mbind outcome_bind]. rewrite Hst.
  destruct st as [s|].
  { destruct Hwf as [-> ->]. exists s. split; [done|]. apply has_true in Hhas as (s' & a' & Hin & Hs).
    apply list_elem_of_singleton in Hin. by simplify_eq. }
  destruct Hwf as (_ & Hwl & Hwr). destruct Htag as (_ & Htl & Htr).
  cbn [addrs] in Hnd. apply NoDup_cons in Hnd as [Hb Hnd]. apply not_elem_of_app in Hb as [Hbl Hbr].
  apply NoDup_app in Hnd as (Hndl & _ & Hndr).
  assert (Hkids : kid l = true \/ kid r = true).
  { rewrite (kid_has M l), (kid_has M r) by done. unfold has in *. simpl in Hhas.
    rewrite existsb_app in Hhas. by apply orb_true_iff. }
  cbn [height] in Hfuel.
  rewrite (ours_kid _ _ _ _ Hl), (ours_kid _ _ _ _ Hr).
  assert (Gol : forall flips bits k, kid l = true ->
    exists s, (l0 ← of_option MemError (getPointer (left n));
      select_walk idBitMask fuel e t l0 flips bits k) = Ret s /\ s ∈ M).
  { intros flips' bits' k' Hk. destruct l as [|la lt ls ll lr]; [done|].
    pose proof Hl as [Hql _]. rewrite Hql in Hl |- *. cbn [getPointer fst of_option mbind outcome_bind].
    eapply IHl; eauto; [|lia]. by rewrite <- (kid_has M). }
  assert (Gor : forall flips bits k, kid r = true ->
    exists s, (r0 ← of_option MemError (getPointer (right n));
      select_walk idBitMask fuel e t r0 flips bits k) = Ret s /\ s ∈ M).
  { intros flips' bits' k' Hk. destruct r as [|ra rt rs rl rr]; [done|].
    pose proof Hr as [Hqr _]. rewrite Hqr in Hr |- *. cbn [getPointer fst of_option mbind outcome_bind].
    eapply IHr; eauto; [|lia]. by rewrite <- (kid_has M). }
  rewrite (bool_decide_false (getPointer (right n) = Some a)) by (by eapply rep_not_ptr).
  rewrite (bool_decide_false (getPointer (left n) = Some a)) by (by eapply rep_not_ptr).
  destruct (kid l) eqn:Ekl, (kid r) eqn:Ekr; cbn [negb]; [|by apply Gol|by apply Gor|naive_solver].
  destruct (bits =? 0); destruct (nz (Z.land _ _)); auto.
Qed.

(** ** Changing tags

    Two tags that differ at most in this searcher's bit. *)
Definition agree (g g' : Z) : Prop := forall m, Z.land idBitMask m = 0 -> Z.land g m = Z.land g' m.

Lemma agree_refl g : agree g g.
Proof. done. Qed.

Lemma agree_mark g : agree g (Z.lor g idBitMask).
Proof. intros m Hm. by rewrite Z.land_lor_distr_l, Hm, Z.lor_0_r. Qed.

Lemma agree_clear g : agree g (Z.land g (Z.lnot idBitMask)).
Proof.
  intros m Hm. apply Z.bits_inj'. intros i Hi.
  assert (Hb : Z.testbit (Z.land idBitMask m) i = false) by (by rewrite Hm, Z.bits_0).
  rewrite !Z.land_spec, Z.lnot_spec in * by done.
  destruct (Z.testbit idBitMask i), (Z.testbit m i), (Z.testbit g i); done.
Qed.

Lemma bit_mark g : idBitMask <> 0 -> bit (Z.lor g idBitMask) = true.
Proof.
  intros Hm. unfold bit. apply nz_true. rewrite Z.land_lor_distr_l, Z.land_diag.
  rewrite Z.lor_eq_0_iff. tauto.
Qed.

Lemma bit_clear g : bit (Z.land g (Z.lnot idBitMask)) = false.
Proof.
  unfold bit. apply nz_false. rewrite <- Z.land_assoc, (Z.land_comm (Z.lnot _)), Z.land_lnot_diag.
  apply Z.land_0_r.
Qed.

Definition set_tag (f : frame) (g : Z) : frame :=
  match f with FL a _ st r => FL a g st r | FR a _ st l => FR a g st l end.

Definition same_frame (f f' : frame) : Prop := exists g, agree (frame_tag f) g /\ f' = set_tag f g.

Lemma same_frame_refl f : same_frame f f.
Proof. exists (frame_tag f). split; [done|]. by destruct f. Qed.

Lemma same_ctx_refl c : Forall2 same_frame c c.
Proof. induction c; constructor; auto using same_frame_refl. Qed.

Definition lkid (f : frame) (X : tree) : tree := match f with FL _ _ _ _ => X | FR _ _ _ l => l end.
Definition rkid (f : frame) (X : tree) : tree := match f with FL _ _ _ r => r | FR _ _ _ _ => X end.

Lemma fill_set_tag f g X : fill (set_tag f g) X = TNode (frame_addr f) g (frame_state f) (lkid f X) (rkid f X).
Proof. by destruct f. Qed.

Lemma fill_node f X : fill f X = TNode (frame_addr f) (frame_tag f) (frame_state f) (lkid f X) (rkid f X).
Proof. by destruct f. Qed.

Lemma Rep_set_tag t c a tag st l r g :
  Rep t (plug c (TNode a tag st l r)) ->
  Rep (set_child t a (ctx_parent c) (Some a, g)) (plug c (TNode a g st l r)).
Proof.
  intros HR. destruct (Rep_at _ _ _ _ _ _ _ HR) as (Hh & (n & Hn & Hp & Hst & Hl & Hr) & Hnd & Hout).
  assert (Hlow : forall x, x ∈ a :: addrs l ++ addrs r ->
    nodes (set_child t a (ctx_parent c) (Some a, g)) !! x = nodes t !! x).
  { intros x Hx. apply set_child_other. intros Hpx%ctx_parent_in. by apply (Hout x). }
  eapply (Rep_subst t c a _ _ _ _ _ (Some a, g)); [exact HR|done|done| |done| |].
  - split; [done|]. exists n. rewrite Hlow by left. split_and!; auto;
      (eapply rep_frame; [|done]); intros x Hx; apply Hlow; set_solver.
  - intros x Hx Hc. by apply (Hout x).
  - intros x. rewrite set_child_dom, (rep_dom _ _ HR), addrs_plug, elem_of_app. done.
Qed.

Lemma set_child_rest t a p q : same_rest t (set_child t a p q).
Proof. by destruct p. Qed.

Lemma same_rest_trans t1 t2 t3 : same_rest t1 t2 -> same_rest t2 t3 -> same_rest t1 t3.
Proof. intros [] []. split; congruence. Qed.

Hypothesis Hmask : idBitMask <> 0.

Lemma mark_up_spec M c : forall fuel t a tag st l r b,
  Rep t (plug c (TNode a tag st l r)) -> ctx_tagged M c b -> bit tag = b ->
  (S (length c) < fuel)%nat ->
  exists t' tag' c', mark_up idBitMask fuel t (Some a) (ctx_parent c) = Ret t' /\ same_rest t t' /\
    Rep t' (plug c' (TNode a tag' st l r)) /\ agree tag tag' /\ Forall2 same_frame c c' /\
    bit tag' = true /\ ctx_tagged M c' true.
Proof.
  induction c as [|f c IH]; intros fuel t a tag st l r b HR Htag Hb Hfuel;
    (destruct fuel as [|fuel]; [lia|]); cbn [mark_up];
    destruct (Rep_at _ _ _ _ _ _ _ HR) as (Hh & _); rewrite (child_ptr_ctx _ _ _ _ Hh);
    cbn [mbind outcome_bind]; change (ours idBitMask (Some a, tag)) with (bit tag); rewrite Hb;
    destruct b; [eexists t, tag, _; split_and!; eauto using same_ctx_refl; done| |
      eexists t, tag, _; split_and!; eauto using same_ctx_refl; done|];
    pose proof (Rep_set_tag _ _ _ _ _ _ _ (Z.lor tag idBitMask) HR) as HR1;
    cbn [getPointer getInt fst snd].
  - destruct fuel as [|fuel]; [simpl in Hfuel; lia|]. eexists _, _, []. split; [done|].
    split_and!; eauto using agree_mark, bit_mark, set_child_rest.
  - set (t1 := set_child t a (ctx_parent (f :: c)) (Some a, Z.lor tag idBitMask)) in *.
    cbn [ctx_parent plug] in *. rewrite fill_node in HR1.
    destruct (Rep_at _ _ _ _ _ _ _ HR1) as (_ & (nf & Hnf & Hpf & _) & _).
    rewrite (deref_Some _ _ _ Hnf). cbn [mbind outcome_bind]. rewrite Hpf.
    cbn [ctx_tagged] in Htag. destruct Htag as (Hbf & Hsib & Hc).
    destruct (IH fuel t1 _ _ _ _ _ _ HR1 Hc Hbf) as (t' & g & c' & Hrun & Hrest & HR' & Hag & Hcc & Hbg & Htg).
    { simpl in Hfuel. lia. }
    exists t', (Z.lor tag idBitMask), (set_tag f g :: c'). split; [done|].
    split; [eapply same_rest_trans; [apply set_child_rest|exact Hrest]|].
    split; [simpl; by rewrite fill_set_tag|]. split; [apply agree_mark|].
    split; [constructor; [by exists g|done]|]. split; [by apply bit_mark|].
    cbn [ctx_tagged]. replace (frame_tag (set_tag f g)) with g by (by destruct f).
    replace (sibling (set_tag f g)) with (sibling f) by (by destruct f).
    rewrite orb_true_r. done.
Qed.

Lemma clear_up_spec M c : forall fuel t a tag st l r,
  Rep t (plug c (TNode a tag st l r)) -> ctx_tagged M c true -> bit tag = true ->
  kid l = false -> kid r = false -> (S (length c) < fuel)%nat ->
  exists t' tag' c', clear_up idBitMask fuel t (Some a) (ctx_parent c) = Ret t' /\ same_rest t t' /\
    Rep t' (plug c' (TNode a tag' st l r)) /\ agree tag tag' /\ Forall2 same_frame c c' /\
    bit tag' = false /\ ctx_tagged M c' false.
Proof.
  induction c as [|f c IH]; intros fuel t a tag st l r HR Htag Hb Hkl Hkr Hfuel;
    (destruct fuel as [|fuel]; [lia|]); cbn [clear_up];
    destruct (Rep_at _ _ _ _ _ _ _ HR) as (Hh & (n & Hn & _ & _ & Hl & Hr) & _);
    rewrite (deref_Some _ _ _ Hn); cbn [mbind outcome_bind];
    rewrite (ours_kid _ _ _ _ Hl), (ours_kid _ _ _ _ Hr), Hkl, Hkr; cbn [orb];
    rewrite (child_ptr_ctx _ _ _ _ Hh); cbn [mbind outcome_bind];
    change (ours idBitMask (Some a, tag)) with (bit tag); rewrite Hb; cbn [negb];
    pose proof (Rep_set_tag _ _ _ _ _ _ _ (Z.land tag (Z.lnot idBitMask)) HR) as HR1;
    cbn [getPointer getInt fst snd].
  - destruct fuel as [|fuel]; [simpl in Hfuel; lia|]. eexists _, _, []. split; [done|].
    split_and!; eauto using agree_clear, bit_clear, set_child_rest.
  - set (t1 := set_child t a (ctx_parent (f :: c)) (Some a, Z.land tag (Z.lnot idBitMask))) in *.
    set (X := TNode a (Z.land tag (Z.lnot idBitMask)) st l r) in *.
    pose proof HR1 as HR2. cbn [ctx_parent plug] in *. rewrite fill_node in HR1.
    destruct (Rep_at _ _ _ _ _ _ _ HR1) as (_ & (nf & Hnf & Hpf & _ & Hlf & Hrf) & _).
    rewrite (deref_Some _ _ _ Hnf). cbn [mbind outcome_bind]. rewrite Hpf.
    cbn [ctx_tagged] in Htag. destruct Htag as (Hbf & Hsib & Hc). rewrite orb_true_r in Hbf, Hc.
    assert (HX : kid X = false) by apply bit_clear.
    destruct (has M (sibling f)) eqn:Ehas.
    + destruct fuel as [|fuel]; [simpl in Hfuel; lia|]. exists t1, (Z.land tag (Z.lnot idBitMask)), (f :: c).
      split.
      { cbn [clear_up]. rewrite (deref_Some _ _ _ Hnf). cbn [mbind outcome_bind].
        rewrite (ours_kid _ _ _ _ Hlf), (ours_kid _ _ _ _ Hrf).
        assert (Hk : kid (sibling f) = true) by (by rewrite (kid_has M)).
        destruct f; simpl in *; rewrite Hk, ?orb_true_r; done. }
      split; [apply set_child_rest|]. split_and!; eauto using agree_clear, bit_clear, same_ctx_refl.
      cbn [ctx_tagged]. rewrite Ehas. done.
    + assert (Hk : kid (sibling f) = false) by (by rewrite (kid_has M)).
      destruct (IH fuel t1 _ _ _ _ _ HR1 Hc Hbf) as (t' & g & c' & Hrun & Hrest & HR' & Hag & Hcc & Hbg & Htg).
      { by destruct f. } { by destruct f. } { simpl in Hfuel. lia. }
      exists t', (Z.land tag (Z.lnot idBitMask)), (set_tag f g :: c'). split; [done|].
      split; [eapply same_rest_trans; [apply set_child_rest|exact Hrest]|].
      split; [simpl; by rewrite fill_set_tag|]. split; [apply agree_clear|].
      split; [constructor; [by exists g|done]|]. split; [apply bit_clear|].
      cbn [ctx_tagged]. replace (frame_tag (set_tag f g)) with g by (by destruct f).
      replace (sibling (set_tag f g)) with (sibling f) by (by destruct f).
      rewrite Ehas. done.
Qed.

(** ** Trees that differ in this searcher's bits *)

Fixpoint retag (T T' : tree) : Prop :=
  match T, T' with
  | TNil, TNil => True
  | TNode a g st l r, TNode a' g' st' l' r' =>
      a = a' /\ st = st' /\ agree g g' /\ retag l l' /\ retag r r'
  | _, _ => False
  end.

Lemma retag_refl T : retag T T.
Proof. induction T; simpl; auto using agree_refl. Qed.

Lemma retag_trans T1 T2 T3 : retag T1 T2 -> retag T2 T3 -> retag T1 T3.
Proof.
  revert T2 T3. induction T1 as [|a g st l IHl r IHr]; intros [|] [|]; simpl; try done.
  intros (-> & -> & H1 & Hl & Hr) (-> & -> & H2 & Hl' & Hr'). split_and!; eauto.
  intros m Hm. rewrite H1 by done. by apply H2.
Qed.

Lemma retag_leaves T T' : retag T T' -> leaves T' = leaves T.
Proof.
  revert T'. induction T as [|a g st l IHl r IHr]; intros [|]; simpl; try done.
  intros (<- & <- & _ & Hl & Hr). by rewrite (IHl _ Hl), (IHr _ Hr).
Qed.

Lemma retag_nil T T' : retag T T' -> T' = TNil <-> T = TNil.
Proof. by destruct T, T'. Qed.

Lemma retag_wf T T' : retag T T' -> wf T -> wf T'.
Proof.
  revert T'. induction T as [|a g st l IHl r IHr]; intros [|]; simpl; try done.
  intros (<- & <- & _ & Hl & Hr).
  pose proof (retag_nil _ _ Hl). pose proof (retag_nil _ _ Hr). destruct st; [tauto|].
  intros (Hn & Hwl & Hwr). split_and!; eauto. tauto.
Qed.

Lemma retag_plug c c' : Forall2 same_frame c c' -> forall T T', retag T T' -> retag (plug c T) (plug c' T').
Proof.
  induction 1 as [|f f' c c' (g & Hg & ->) _ IH]; intros T T' HT; simpl; [done|]. apply IH.
  destruct f; simpl; auto using retag_refl.
Qed.

(** ** The invariant of the searcher *)

Record rp_inv (t : PTree) (T : tree) (M : gset sid) : Prop := {
  rp_tree : PTree_inv t T;
  rp_tagged : tagged M T;
  rp_sub : forall s, s ∈ M -> s ∈ (leaves T).*1;
  rp_root : T = TNil -> bit (getInt (root t)) = false
}.

Lemma has_ext M M' T :
  (forall s, s ∈ (leaves T).*1 -> s ∈ M <-> s ∈ M') -> has M T = has M' T.
Proof.
  intros HM. apply eq_bool_prop_intro. rewrite !Is_true_true, !has_true.
  split; intros (s & a & Hin & Hs); exists s, a; (split; [done|]);
    apply HM; auto; by apply (list_elem_of_fmap_2 fst) in Hin.
Qed.

Lemma tagged_ext M M' T :
  (forall s, s ∈ (leaves T).*1 -> s ∈ M <-> s ∈ M') -> tagged M T -> tagged M' T.
Proof.
  induction T as [|a g st l IHl r IHr]; intros HM; cbn [tagged]; [done|].
  intros (Hb & Hl & Hr). rewrite <- (has_ext M M') by done. split; [done|].
  cbn [leaves] in HM. rewrite !fmap_app in HM.
  split; [apply IHl|apply IHr]; auto; intros s Hs; apply HM; set_solver.
Qed.

Lemma ctx_tagged_ext M M' c b :
  (forall s, s ∈ (before c ++ behind c).*1 -> s ∈ M <-> s ∈ M') -> ctx_tagged M c b -> ctx_tagged M' c b.
Proof.
  revert b. induction c as [|f c IH]; intros b HM; [done|].
  assert (HM' : (forall s, s ∈ (leaves (sibling f)).*1 -> s ∈ M <-> s ∈ M') /\
    forall s, s ∈ (before c ++ behind c).*1 -> s ∈ M <-> s ∈ M').
  { rewrite fmap_app in HM. destruct f; simpl in *; rewrite fmap_app in HM |- *;
      split; intros x Hx; apply HM; set_solver. }
  destruct HM' as [Hs Hc]. cbn [ctx_tagged]. rewrite <- (has_ext M M') by done.
  intros (Hb & Ht & Hct). split_and!; auto. by eapply tagged_ext.
Qed.

(** A leaf of the tree, as the loops of [update] find it. *)
Lemma rp_leaf t T M s :
  rp_inv t T M -> s ∈ (leaves T).*1 ->
  exists c a tag, T = plug c (leaf a tag s) /\ Forall frame_ok c /\ Rep t (plug c (leaf a tag s)) /\
    ctx_tagged M c (bool_decide (s ∈ M)) /\ bit tag = bool_decide (s ∈ M) /\
    (forall loop, from_state loop t s = loop (S (S (size (nodes t)))) t (Some a) (ctx_parent c)) /\
    (S (length c) < S (S (size (nodes t))))%nat /\
    s ∉ (before c ++ behind c).*1.
Proof.
  intros Hinv ([s' a] & -> & Hin)%list_elem_of_fmap. destruct Hinv as [Hpt Htag _ _].
  destruct (leaf_ctx T s' a (pi_wf _ _ Hpt) Hin) as (c & tag & ->). exists c, a, tag.
  pose proof (pi_wf _ _ Hpt) as Hwf. rewrite wf_plug in Hwf by done. destruct Hwf as [Hok _].
  pose proof (proj1 (Rep0_plug t c (leaf a tag s') ltac:(done)) (pi_rep _ _ Hpt)) as HR.
  rewrite tagged_plug in Htag by done. destruct Htag as (Hc & Hb & _).
  assert (Hhas : has M (leaf a tag s') = bool_decide (s' ∈ M)) by (unfold has; simpl; by rewrite orb_false_r).
  rewrite Hhas in Hc, Hb.
  destruct (Rep_at _ _ _ _ _ _ _ HR) as (_ & (n & Hn & Hp & _) & _).
  cbn [fst]. do 5 (split; [done|]). split_and!.
  - intros loop. unfold from_state. simpl. rewrite (pi_node _ _ Hpt _ _ Hin). cbn [of_option mbind outcome_bind].
    rewrite (deref_Some _ _ _ Hn). cbn [mbind outcome_bind]. by rewrite Hp.
  - rewrite (Rep_size _ _ HR), addrs_plug, length_app. simpl. pose proof (ctx_length c). lia.
  - pose proof (pi_states _ _ Hpt) as Hnd. rewrite leaves_plug in Hnd by done. simpl.
    rewrite fmap_app in Hnd |- *. simpl in Hnd. apply NoDup_app in Hnd as (H1 & H2 & [H3 H4]%NoDup_cons).
    set_solver.
Qed.

(** The end of both loops: the tree is the same up to this searcher's bits. *)
Lemma rp_relabel t t' T c c' a tag tag' s M M' :
  rp_inv t T M -> T = plug c (leaf a tag s) -> Forall frame_ok c ->
  same_rest t t' -> Rep t' (plug c' (leaf a tag' s)) -> agree tag tag' -> Forall2 same_frame c c' ->
  bit tag' = bool_decide (s ∈ M') -> ctx_tagged M' c' (bool_decide (s ∈ M')) ->
  (forall x, x ∈ M' -> x ∈ M \/ x = s) ->
  rp_inv t' (plug c' (leaf a tag' s)) M' /\ retag T (plug c' (leaf a tag' s)).
Proof.
  intros Hinv -> Hok Hrest HR' Hag Hcc Hb Htag Hsub.
  assert (Hre : retag (plug c (leaf a tag s)) (plug c' (leaf a tag' s))).
  { apply retag_plug; [done|]. simpl. split_and!; auto. }
  split; [|done]. pose proof (retag_leaves _ _ Hre) as Hl. destruct Hinv as [Hpt _ Hin _].
  pose proof (retag_wf _ _ Hre (pi_wf _ _ Hpt)) as Hwf'. split.
  - eapply PTree_inv_sub; [exact Hpt| | |done|by rewrite Hl]; [|done]. by apply Rep0_plug.
  - rewrite wf_plug in Hwf' by done. destruct Hwf' as [Hok' _]. rewrite tagged_plug by done.
    assert (Hhas : has M' (leaf a tag' s) = bool_decide (s ∈ M')) by (unfold has; simpl; by rewrite orb_false_r).
    cbn [tagged]. rewrite Hhas. done.
  - intros x [Hx| ->]%Hsub; rewrite Hl; [by apply Hin|].
    rewrite leaves_plug by done. rewrite fmap_app. simpl. set_solver.
  - intros Hnil. exfalso. by eapply plug_not_nil; [|exact Hnil].
Qed.

Lemma rp_add t T M s :
  rp_inv t T M -> s ∈ (leaves T).*1 ->
  exists t' T', from_state (mark_up idBitMask) t s = Ret t' /\ rp_inv t' T' (M ∪ {[s]}) /\ retag T T'.
Proof.
  intros Hinv Hs. destruct (rp_leaf t T M s Hinv Hs) as (c & a & tag & HT & Hok & HR & Hct & Hb & Hrun & Hf & Hout).
  rewrite Hrun. destruct (mark_up_spec (M ∪ {[s]}) c _ t a tag _ _ _ _ HR
    (ctx_tagged_ext M (M ∪ {[s]}) c _ ltac:(set_solver) Hct) Hb Hf)
    as (t' & tag' & c' & Hr & Hrest & HR' & Hag & Hcc & Hb' & Ht').
  exists t', (plug c' (leaf a tag' s)). split; [done|].
  assert (Hin : bool_decide (s ∈ M ∪ {[s]}) = true) by (apply bool_decide_eq_true; set_solver).
  eapply rp_relabel; eauto; rewrite ?Hin; auto. set_solver.
Qed.

Lemma rp_remove t T M s :
  rp_inv t T M -> s ∈ M ->
  exists t' T', from_state (clear_up idBitMask) t s = Ret t' /\ rp_inv t' T' (M ∖ {[s]}) /\ retag T T'.
Proof.
  intros Hinv Hs. destruct (rp_leaf t T M s Hinv (rp_sub _ _ _ Hinv s Hs))
    as (c & a & tag & HT & Hok & HR & Hct & Hb & Hrun & Hf & Hout).
  rewrite bool_decide_true in Hct, Hb by done.
  rewrite Hrun. destruct (clear_up_spec (M ∖ {[s]}) c _ t a tag _ _ _ HR
    (ctx_tagged_ext M (M ∖ {[s]}) c _ ltac:(set_solver) Hct) Hb eq_refl eq_refl Hf)
    as (t' & tag' & c' & Hr & Hrest & HR' & Hag & Hcc & Hb' & Ht').
  exists t', (plug c' (leaf a tag' s)). split; [done|].
  assert (Hin : bool_decide (s ∈ M ∖ {[s]}) = false) by (apply bool_decide_eq_false; set_solver).
  eapply rp_relabel; eauto; rewrite ?Hin; auto. set_solver.
Qed.

End Mask.

(** ** Updates *)

Section Update.
Variable idBitMask : Z.
Hypothesis Hmask : idBitMask <> 0.

Lemma rp_add_all l : forall t T M,
  rp_inv idBitMask t T M -> (forall s, s ∈ l -> s ∈ (leaves T).*1) ->
  exists t' T', each_state (mark_up idBitMask) t l = Ret t' /\
    rp_inv idBitMask t' T' (M ∪ list_to_set l) /\ retag idBitMask T T' /\
    (T = TNil -> root t' = root t).
Proof.
  induction l as [|s l IH]; intros t T M Hinv Hl.
  - exists t, T. replace (M ∪ list_to_set []) with M by set_solver. split_and!; auto using retag_refl.
  - destruct (rp_add idBitMask Hmask t T M s Hinv) as (t1 & T1 & Hrun & Hinv1 & Hre); [set_solver|].
    destruct (IH t1 T1 _ Hinv1) as (t2 & T2 & Hrun2 & Hinv2 & Hre2 & _).
    { rewrite (retag_leaves _ _ _ Hre). set_solver. }
    exists t2, T2. cbn [each_state]. rewrite Hrun. cbn [mbind outcome_bind]. split; [done|].
    replace (M ∪ list_to_set (s :: l)) with (M ∪ {[s]} ∪ list_to_set l) by set_solver.
    split_and!; eauto using retag_trans. intros ->. specialize (Hl s). set_solver.
Qed.

Lemma rp_remove_all l : forall t T M,
  rp_inv idBitMask t T M -> NoDup l -> (forall s, s ∈ l -> s ∈ M) ->
  exists t' T', each_state (clear_up idBitMask) t l = Ret t' /\
    rp_inv idBitMask t' T' (M ∖ list_to_set l) /\ retag idBitMask T T' /\
    (T = TNil -> root t' = root t).
Proof.
  induction l as [|s l IH]; intros t T M Hinv Hnd Hl.
  - exists t, T. replace (M ∖ list_to_set []) with M by set_solver. split_and!; auto using retag_refl.
  - apply NoDup_cons in Hnd as [Hs Hnd].
    destruct (rp_remove idBitMask Hmask t T M s Hinv) as (t1 & T1 & Hrun & Hinv1 & Hre); [set_solver|].
    destruct (IH t1 T1 _ Hinv1 Hnd) as (t2 & T2 & Hrun2 & Hinv2 & Hre2 & _); [set_solver|].
    exists t2, T2. cbn [each_state]. rewrite Hrun. cbn [mbind outcome_bind]. split; [done|].
    replace (M ∖ list_to_set (s :: l)) with (M ∖ {[s]} ∖ list_to_set l) by set_solver.
    split_and!; eauto using retag_trans. intros ->.
    pose proof (rp_sub _ _ _ _ Hinv s (Hl s ltac:(left))). set_solver.
Qed.

Lemma rp_update t T M current added removed :
  rp_inv idBitMask t T M -> (forall s, s ∈ added -> s ∈ (leaves T).*1) ->
  NoDup removed -> (forall s, s ∈ removed -> s ∈ M \/ s ∈ added) ->
  exists t' T', RandomPathSearcher_update idBitMask t current added removed = Ret t' /\
    rp_inv idBitMask t' T' (after M added removed) /\ retag idBitMask T T' /\
    (T = TNil -> root t' = root t).
Proof.
  intros Hinv Ha Hnd Hr. unfold RandomPathSearcher_update.
  destruct (rp_add_all added t T M Hinv Ha) as (t1 & T1 & -> & Hinv1 & Hre1 & Hroot1).
  cbn [mbind outcome_bind].
  destruct (rp_remove_all removed t1 T1 _ Hinv1 Hnd) as (t2 & T2 & -> & Hinv2 & Hre2 & Hroot2); [set_solver|].
  exists t2, T2. split_and!; eauto using retag_trans.
  intros HT. rewrite <- Hroot1 by done. apply Hroot2. by apply (retag_nil _ _ _ Hre1).
Qed.

(** Another searcher, with another bit, is not disturbed. *)
Lemma retag_tagged other M T T' :
  Z.land idBitMask other = 0 -> retag idBitMask T T' -> tagged other M T -> tagged other M T'.
Proof.
  intros Ho Hre. pose proof (retag_leaves _ _ _ Hre) as Hl. revert T' Hre Hl.
  induction T as [|a g st l IHl r IHr]; intros [|a' g' st' l' r'] Hre Hl; cbn [retag tagged] in *; try done.
  destruct Hre as (_ & _ & Hg & Hrl & Hrr). intros (Hb & Htl & Htr). split_and!.
  - unfold has. rewrite Hl. change (bit other g' = has M (TNode a g st l r)). rewrite <- Hb.
    unfold bit. by rewrite (Hg other Ho).
  - eauto using retag_leaves.
  - eauto using retag_leaves.
Qed.

Lemma rp_other other t T M t' T' M' :
  Z.land idBitMask other = 0 -> rp_inv idBitMask t' T' M' -> retag idBitMask T T' ->
  (T = TNil -> root t' = root t) -> rp_inv other t T M -> rp_inv other t' T' M.
Proof.
  intros Ho [Hpt' _ _ _] Hre Hroot [Hpt Htag Hsub Hr]. split; auto.
  - by eapply retag_tagged.
  - intros s Hs. rewrite (retag_leaves _ _ _ Hre). auto.
  - intros HT. apply (retag_nil _ _ _ Hre) in HT. rewrite Hroot by done. auto.
Qed.

(** The root is marked when the searcher holds a state. *)
Lemma rp_root_bit t T M : rp_inv idBitMask t T M -> bit idBitMask (getInt (root t)) = has M T.
Proof.
  intros [Hpt Htag _ Hr]. destruct T as [|a g st l r]; [by apply Hr|].
  pose proof (rep_tree _ _ (pi_rep _ _ Hpt)) as [-> _]. apply Htag.
Qed.

(** ** Forks and removals of the tree *)

Lemma rp_attach t T M a ls rs :
  rp_inv idBitMask t T M -> (rs, a) ∈ leaves T -> ls ∉ (leaves T).*1 ->
  exists t' T', attach t a ls rs = Ret t' /\ rp_inv idBitMask t' T' M /\
    (forall s, s ∈ (leaves T').*1 <-> s = ls \/ s ∈ (leaves T).*1).
Proof.
  intros [Hpt Htag Hsub _] Hin Hls. destruct (leaf_ctx T rs a (pi_wf _ _ Hpt) Hin) as (c & tag & ->).
  destruct (attach_at t c a tag ls rs Hpt Hls) as (t' & l & r & Hrun & _ & Hpt').
  pose proof (pi_wf _ _ Hpt) as Hwf. rewrite wf_plug in Hwf by done. destruct Hwf as [Hok _].
  assert (Hmem : forall s, s ∈ (leaves (plug c (TNode a tag None (leaf l 0 ls) (leaf r tag rs)))).*1 <->
    s = ls \/ s ∈ (leaves (plug c (leaf a tag rs))).*1).
  { intros s. rewrite !leaves_plug by done. rewrite !fmap_app. simpl. set_solver. }
  assert (HlsM : ls ∉ M) by (intros ?%Hsub; done).
  eexists t', _. split; [done|]. split; [|done]. split.
  - done.
  - rewrite tagged_plug in Htag |- * by done. destruct Htag as (Hc & Hb & _).
    assert (Hhas : has M (TNode a tag None (leaf l 0 ls) (leaf r tag rs)) = has M (leaf a tag rs)).
    { unfold has. simpl. by rewrite (bool_decide_false (ls ∈ M)). }
    rewrite Hhas. split; [done|]. cbn [tagged]. rewrite Hhas, Hb. split_and!; auto.
    unfold has, bit. simpl. by rewrite (bool_decide_false (ls ∈ M)).
  - intros s Hs. apply Hmem. right. auto.
  - intros HT. exfalso. by eapply plug_not_nil; [|exact HT].
Qed.

Lemma prune_tagged M cmp c :
  Forall frame_ok c -> ctx_tagged idBitMask M c false -> tagged idBitMask M (prune cmp c).
Proof.
  unfold prune. induction 1 as [|f c [Hf Hwf] Hok IH]; [done|].
  cbn [ctx_tagged stops]. rewrite orb_false_r. intros (Hb & Ht & Hc).
  destruct (sibling f) as [|] eqn:Es; [by apply IH|]. rewrite <- Es in *. destruct cmp.
  - by rewrite tagged_plug.
  - rewrite tagged_plug, tagged_fill, has_fill by done. simpl. by rewrite orb_false_r.
Qed.

Lemma rp_tree_remove cmp t T M s a :
  rp_inv idBitMask t T M -> (s, a) ∈ leaves T -> s ∉ M ->
  exists t' T', remove cmp t a = Ret t' /\ rp_inv idBitMask t' T' M /\
    (forall x, x ∈ (leaves T').*1 <-> x ∈ (leaves T).*1 /\ x <> s).
Proof.
  intros Hinv Hin Hs. pose proof (rp_root_bit _ _ _ Hinv) as Hrb. destruct Hinv as [Hpt Htag Hsub _].
  destruct (leaf_ctx T s a (pi_wf _ _ Hpt) Hin) as (c & tag & ->).
  destruct (remove_at cmp t c a tag s Hpt) as (t' & Hrun & _ & Hpt' & Hroot).
  pose proof (pi_wf _ _ Hpt) as Hwf. rewrite wf_plug in Hwf by done. destruct Hwf as [Hok _].
  destruct (prune_spec cmp c a tag s (pi_wf _ _ Hpt)) as (_ & Hleaves & _).
  rewrite tagged_plug in Htag by done. destruct Htag as (Hc & Hb & _).
  assert (Hhas : has M (leaf a tag s) = false) by (unfold has; simpl; by rewrite bool_decide_false).
  rewrite Hhas in Hc, Hb.
  assert (Hmem : forall x, x ∈ (leaves (prune cmp c)).*1 <-> x ∈ (leaves (plug c (leaf a tag s))).*1 /\ x <> s).
  { pose proof (pi_states _ _ Hpt) as Hnd. intros x. rewrite leaves_plug in Hnd |- * by done.
    rewrite Hleaves, !fmap_app in *. simpl in *.
    apply NoDup_app in Hnd as (H1 & H2 & [H3 H4]%NoDup_cons). set_solver. }
  exists t', (prune cmp c). split; [done|]. split; [|done]. split.
  - done.
  - by apply prune_tagged.
  - intros x Hx. apply Hmem. split; [auto|]. by intros ->.
  - intros HT. unfold prune in HT. destruct (stops c) as [[f c']|] eqn:Est.
    + exfalso. pose proof (stops_spec c Hok) as Hst. rewrite Est in Hst.
      eapply plug_not_nil; [|exact HT]. destruct cmp; [apply Hst|apply fill_not_nil].
    + rewrite Hroot, Hrb by done. pose proof (stops_spec c Hok) as Hst. rewrite Est in Hst.
      destruct Hst as [Hbf Hbh]. unfold has. rewrite leaves_plug, Hbf, Hbh by done. exact Hhas.
Qed.

End Update.

(** ** The engine's use of the tree

    A fork attaches the new state and adds it to the searcher; a termination
    removes the state from the searcher and then from the tree. *)

Definition fork (idBitMask : Z) (t : PTree) (x ns : sid) : outcome PTree :=
  a ← of_option MemError (ptreeNode t !! x);
  t ← attach t a ns x;
  RandomPathSearcher_update idBitMask t (Some x) [ns] [].

Definition terminate (CompressProcessTree : bool) (idBitMask : Z) (t : PTree) (x : sid) : outcome PTree :=
  t ← RandomPathSearcher_update idBitMask t (Some x) [] [x];
  a ← of_option MemError (ptreeNode t !! x);
  remove CompressProcessTree t a.

(** The trees of an exploration, with the states alive. *)
Inductive explored (CompressProcessTree : bool) (idBitMask : Z) : PTree -> gset sid -> Prop :=
  | explored_start s t t' :
      new_RandomPathSearcher (new_PTree s) = Ret (idBitMask, t) ->
      RandomPathSearcher_update idBitMask t None [s] [] = Ret t' ->
      explored CompressProcessTree idBitMask t' {[s]}
  | explored_fork t M x ns t' :
      explored CompressProcessTree idBitMask t M -> x ∈ M -> ns ∉ M ->
      fork idBitMask t x ns = Ret t' -> explored CompressProcessTree idBitMask t' (M ∪ {[ns]})
  | explored_end t M x t' :
      explored CompressProcessTree idBitMask t M -> x ∈ M ->
      terminate CompressProcessTree idBitMask t x = Ret t' ->
      explored CompressProcessTree idBitMask t' (M ∖ {[x]}).

(** All states of the tree are the searcher's. *)
Definition tracks (idBitMask : Z) (t : PTree) (M : gset sid) : Prop :=
  exists T, rp_inv idBitMask t T M /\ forall s, s ∈ (leaves T).*1 <-> s ∈ M.

Lemma rp_select idBitMask e t T M :
  rp_inv idBitMask t T M -> M <> ∅ ->
  exists s, RandomPathSearcher_selectState idBitMask e t = Ret s /\ s ∈ M.
Proof.
  intros Hinv Hne. unfold RandomPathSearcher_selectState.
  pose proof (rp_root_bit _ _ _ _ Hinv) as Hb. unfold bit in Hb. rewrite Hb.
  destruct (set_choose_L M Hne) as [s Hs].
  pose proof (rp_sub _ _ _ _ Hinv s Hs) as Hin. apply list_elem_of_fmap in Hin as ([s' a] & -> & Hin).
  assert (Hhas : has M T = true) by (apply has_true; eauto).
  rewrite Hhas. cbn [negb]. destruct Hinv as [Hpt Htag _ _]. destruct T as [|n g st l r]; [set_solver|].
  pose proof (pi_rep _ _ Hpt) as HR. pose proof (rep_tree _ _ HR) as Hrep. pose proof Hrep as [Hq _].
  rewrite Hq in Hrep |- *. cbn [getPointer fst of_option mbind outcome_bind].
  eapply select_walk_spec; eauto; [apply HR|apply Hpt|].
  rewrite (Rep_size _ _ HR). pose proof (height_addrs (TNode n g st l r)). lia.
Qed.

Lemma rp_empty idBitMask t T M :
  rp_inv idBitMask t T M -> RandomPathSearcher_empty idBitMask t = true <-> M = ∅.
Proof.
  intros Hinv. unfold RandomPathSearcher_empty, ours. rewrite negb_true_iff.
  pose proof (rp_root_bit _ _ _ _ Hinv) as Hb. unfold bit in Hb. rewrite Hb.
  destruct Hinv as [Hpt _ Hsub _]. split.
  - intros Hf. apply set_eq. intros s. split; [|set_solver]. intros Hs. exfalso.
    pose proof (Hsub s Hs) as Hin. apply list_elem_of_fmap in Hin as ([s' a] & -> & Hin).
    assert (Hhas : has M T = true) by (apply has_true; eauto). rewrite Hhas, andb_true_r in Hf.
    destruct T as [|n g st l r]; [set_solver|]. pose proof (rep_tree _ _ (pi_rep _ _ Hpt)) as [Hq _].
    by rewrite Hq in Hf.
  - intros ->. assert (Hhas : has ∅ T = false); [|by rewrite Hhas, andb_false_r].
    apply not_true_iff_false. rewrite has_true. set_solver.
Qed.

Lemma tracks_fork idBitMask t M x ns :
  idBitMask <> 0 -> tracks idBitMask t M -> x ∈ M -> ns ∉ M ->
  exists t', fork idBitMask t x ns = Ret t' /\ tracks idBitMask t' (M ∪ {[ns]}).
Proof.
  intros Hm (T & Hinv & HM) Hx Hns. unfold fork.
  pose proof (proj2 (HM x) Hx) as Hin. apply list_elem_of_fmap in Hin as ([x' a] & Hxe & Hin). simpl in Hxe. subst x'.
  rewrite (pi_node _ _ (rp_tree _ _ _ _ Hinv) _ _ Hin). cbn [of_option mbind outcome_bind].
  destruct (rp_attach idBitMask Hm t T M a ns x Hinv Hin) as (t1 & T1 & -> & Hinv1 & Hl1).
  { by rewrite HM. }
  cbn [mbind outcome_bind].
  destruct (rp_update idBitMask Hm t1 T1 M (Some x) [ns] []) as (t2 & T2 & -> & Hinv2 & Hre & _).
  { done. } { set_solver. } { by apply NoDup_nil. } { set_solver. }
  exists t2. split; [done|]. exists T2. unfold after in Hinv2.
  replace (M ∪ {[ns]}) with ((M ∪ list_to_set [ns]) ∖ list_to_set []) by set_solver. split; [done|].
  intros s. rewrite (retag_leaves _ _ _ Hre), Hl1, HM. set_solver.
Qed.

Lemma tracks_terminate cmp idBitMask t M x :
  idBitMask <> 0 -> tracks idBitMask t M -> x ∈ M ->
  exists t', terminate cmp idBitMask t x = Ret t' /\ tracks idBitMask t' (M ∖ {[x]}).
Proof.
  intros Hm (T & Hinv & HM) Hx. unfold terminate.
  destruct (rp_update idBitMask Hm t T M (Some x) [] [x] Hinv) as (t1 & T1 & -> & Hinv1 & Hre & _).
  { set_solver. } { apply NoDup_singleton. } { set_solver. }
  cbn [mbind outcome_bind].
  pose proof (proj2 (HM x) Hx) as Hin. rewrite <- (retag_leaves _ _ _ Hre) in Hin.
  apply list_elem_of_fmap in Hin as ([x' a] & Hxe & Hin). simpl in Hxe. subst x'.
  rewrite (pi_node _ _ (rp_tree _ _ _ _ Hinv1) _ _ Hin). cbn [of_option mbind outcome_bind].
  destruct (rp_tree_remove idBitMask Hm cmp t1 T1 _ x a Hinv1 Hin) as (t2 & T2 & -> & Hinv2 & Hl2).
  { unfold after. set_solver. }
  exists t2. split; [done|]. exists T2. unfold after in Hinv2. simpl in *.
  replace (M ∖ {[x]}) with ((M ∪ list_to_set []) ∖ list_to_set [x]) by set_solver. split; [done|].
  intros s. rewrite Hl2, (retag_leaves _ _ _ Hre), HM. set_solver.
Qed.

Lemma tracks_start idBitMask s t :
  new_RandomPathSearcher (new_PTree s) = Ret (idBitMask, t) ->
  idBitMask <> 0 /\
  exists t', RandomPathSearcher_update idBitMask t None [s] [] = Ret t' /\ tracks idBitMask t' {[s]}.
Proof.
  intros Hnew. destruct (new_PTree_spec s) as (a & Hpt).
  assert (Hid : idBitMask = 1 /\ nodes t = nodes (new_PTree s) /\ ptreeNode t = ptreeNode (new_PTree s) /\
    root t = root (new_PTree s)).
  { unfold new_RandomPathSearcher, getNextId in Hnew. simpl in Hnew. by simplify_eq. }
  destruct Hid as (-> & Hn & Hp & Hr). split; [done|].
  assert (Hpt' : PTree_inv t (leaf a 0 s)).
  { destruct Hpt as [HR Hwf Hnd Hnode]. split; auto; [|by rewrite Hp].
    destruct HR as [Hrep Hnd' Hd]. split; [|done|]; rewrite ?Hn, ?Hr; done. }
  destruct (rp_update 1 ltac:(done) t (leaf a 0 s) ∅ None [s] []) as (t' & T' & Hrun & Hinv & Hre & _).
  { split; [done| |set_solver|done]. cbn [tagged]. split_and!; auto. }
  { set_solver. } { by apply NoDup_nil. } { set_solver. }
  exists t'. split; [done|]. exists T'. unfold after in Hinv.
  replace ({[s]} : gset sid) with ((∅ ∪ list_to_set [s] : gset sid) ∖ list_to_set []) by set_solver.
  split; [done|]. intros x. rewrite (retag_leaves _ _ _ Hre). simpl. set_solver.
Qed.

Lemma explored_tracks cmp idBitMask t M :
  explored cmp idBitMask t M -> idBitMask <> 0 /\ tracks idBitMask t M.
Proof.
  induction 1 as [s t t' Hnew Hup|t M x ns t' _ [Hm IH] Hx Hns Hrun|t M x t' _ [Hm IH] Hx Hrun].
  - destruct (tracks_start _ _ _ Hnew) as (Hm & t1 & Hup1 & Ht). split; [done|]. congruence.
  - destruct (tracks_fork _ _ _ _ _ Hm IH Hx Hns) as (t1 & Hrun1 & Ht). split; [done|]. congruence.
  - destruct (tracks_terminate cmp _ _ _ _ Hm IH Hx) as (t1 & Hrun1 & Ht). split; [done|]. congruence.
Qed.

(** The random path searcher's update marks exactly the added states and
    clears exactly the removed ones, without failing an assertion and without
    disturbing a searcher that owns another bit of the same tree. *)
Theorem randompath_update (idBitMask : Z) (t : PTree) (T : tree) (M : gset sid)
    (current : option sid) (added removed : list sid) :
  idBitMask <> 0 -> rp_inv idBitMask t T M -> (forall s, s ∈ added -> s ∈ (leaves T).*1) ->
  NoDup removed -> (forall s, s ∈ removed -> s ∈ M \/ s ∈ added) ->
  exists t' T', RandomPathSearcher_update idBitMask t current added removed = Ret t' /\
    rp_inv idBitMask t' T' (after M added removed) /\ leaves T' = leaves T /\
    forall other M', Z.land idBitMask other = 0 -> rp_inv other t T M' -> rp_inv other t' T' M'.
Proof.
  intros Hm Hinv Ha Hnd Hr.
  destruct (rp_update idBitMask Hm t T M current added removed Hinv Ha Hnd Hr)
    as (t' & T' & Hrun & Hinv' & Hre & Hroot).
  exists t', T'. split_and!; auto; [by eapply retag_leaves|]. intros. by eapply rp_other.
Qed.

Lemma randompath_update_witness :
  exists t' T', RandomPathSearcher_update 1 (new_PTree 7) None [7] [] = Ret t' /\
    rp_inv 1 t' T' {[7]}.
Proof.
  destruct (new_PTree_spec 7) as (a & Hpt).
  destruct (randompath_update 1 (new_PTree 7) (leaf a 0 7) ∅ None [7] []) as (t' & T' & Hrun & Hinv & _).
  { lia. } { split; [exact Hpt|repeat split|set_solver|discriminate]. } { set_solver. }
  { apply NoDup_nil_2. } { set_solver. }
  exists t', T'. split; [exact Hrun|].
  replace ({[7]} : gset sid) with (after ∅ [7] []) by (unfold after; set_solver). exact Hinv.
Defined.

(** C14: along every exploration, from the initial state through any forks and
    terminations, the random path searcher holds exactly the states alive: it
    is empty when none is left, otherwise selecting returns one of them, and
    the next fork or termination succeeds. *)
Theorem randompath_reachable (cmp : bool) (idBitMask : Z) (t : PTree) (M : gset sid) :
  explored cmp idBitMask t M ->
  (RandomPathSearcher_empty idBitMask t = true <-> M = ∅) /\
  (M <> ∅ -> forall e, exists s, RandomPathSearcher_selectState idBitMask e t = Ret s /\ s ∈ M) /\
  (forall x ns, x ∈ M -> ns ∉ M -> exists t', fork idBitMask t x ns = Ret t') /\
  (forall x, x ∈ M -> exists t', terminate cmp idBitMask t x = Ret t').
Proof.
  intros Hex. destruct (explored_tracks _ _ _ _ Hex) as (Hm & Ht). pose proof Ht as (T & Hinv & HM).
  split_and!.
  - by eapply rp_empty.
  - intros Hne e. by eapply rp_select.
  - intros x ns Hx Hns. destruct (tracks_fork _ _ _ _ _ Hm Ht Hx Hns) as (t' & ? & _). eauto.
  - intros x Hx. destruct (tracks_terminate cmp _ _ _ _ Hm Ht Hx) as (t' & ? & _). eauto.
Qed.

Lemma randompath_reachable_witness :
  exists t, explored true 1 t ({[7]} ∪ {[8]}) /\
    forall e, exists s, RandomPathSearcher_selectState 1 e t = Ret s /\ s ∈ ({[7]} ∪ {[8]} : gset sid).
Proof.
  set (t0 := new_PTree 7). set (t1 := mkPTree (nodes t0) (ptreeNode t0) (root t0) 1).
  assert (Hnew : new_RandomPathSearcher t0 = Ret (1, t1)) by reflexivity.
  destruct (tracks_start 1 7 t1 Hnew) as (Hm & t2 & Hup & Htr).
  destruct (tracks_fork 1 t2 {[7]} 7 8 Hm Htr) as (t3 & Hrun & _); [set_solver|set_solver|].
  assert (Hex : explored true 1 t3 ({[7]} ∪ {[8]})).
  { eapply explored_fork; [eapply explored_start; eassumption| | |eassumption]; set_solver. }
  exists t3. split; [exact Hex|].
  exact (proj1 (proj2 (randompath_reachable true 1 t3 ({[7]} ∪ {[8]}) Hex)) ltac:(set_solver)).
Defined.
