(* ===== verification/ExecutorStates.v ===== *)
(** * The engine's bookkeeping of states

    The part of [lib/Core/Executor.cpp] that creates, schedules and discards
    states: [branch], [terminateState] with the end of a simulation,
    [suspendState], [resumeState], [startSimulationState], [updateStates] and
    the main loop of [run].  It keeps the set of states, the searcher and the
    process tree in agreement, for every searcher that meets [EngineSpec], as
    long as only states that the searcher has seen are terminated and no
    simulation is under way.  Executing an instruction is a sequence of
    branches and terminations.  An access to a deleted state, and advancing an
    iterator of an erased element, are undefined: they stop with [MemError]. *)

From stdpp Require Import gmap fin_maps.
From S2P Require Import Prelude Searchers SearchersMeta SearchersEngine PTree.

(** The simulation: the states whose [suspendStatus] is set, the
    [dependentState] of the simulation states, whether forking is inhibited,
    and the global [is_simulation_mode].  The link from a state to its
    simulation state, which nothing reads, and the recorded instructions and
    rewards, which only the tree search reads, are left out. *)
Record Simulation : Type := mkSimulation {
  suspended : gset sid;
  dependentState : gmap sid sid;
  inhibitForking : bool;
  simulating : bool
}.

(** The keys of [seedMap] are modelled, not the seeds. *)
Record Executor (S : Type) : Type := mkExecutor {
  searcher : option S;
  states : gset sid;
  addedStates : list sid;
  removedStates : list sid;
  suspendedStates : list sid;
  resumedStates : list sid;
  seedMap : gset sid;
  processTree : PTree;
  pathsExplored : Z;
  pathsExploredSimulation : Z;
  simulation : Simulation
}.
Arguments mkExecutor {_} _ _ _ _ _ _ _ _ _ _ _.
Arguments searcher {_} _.
Arguments states {_} _.
Arguments addedStates {_} _.
Arguments removedStates {_} _.
Arguments suspendedStates {_} _.
Arguments resumedStates {_} _.
Arguments seedMap {_} _.
Arguments processTree {_} _.
Arguments pathsExplored {_} _.
Arguments pathsExploredSimulation {_} _.
Arguments simulation {_} _.

(** [assert] in the methods of a state. *)
Definition assert_that (b : bool) : outcome () := if b then Ret () else Stop AssertFail.

(** [delete &state]: its [ptreeNode] field goes with it. *)
Definition delete_state (x : sid) (t : PTree) : PTree :=
  mkPTree (nodes t) (delete x (ptreeNode t)) (root t) (registeredIds t).

Section Engine.
Context {S : Type} `{Searcher S}.

(** The types of the states, and an option of the engine. *)
Variable isNormalState isSimulationState : sid -> bool.
Variable CompressProcessTree : bool.

Definition isSuspended (ex : Executor S) (x : sid) : bool := bool_decide (x ∈ suspended (simulation ex)).

Definition with_simulation (m : Simulation) (ex : Executor S) : Executor S :=
  mkExecutor (searcher ex) (states ex) (addedStates ex) (removedStates ex) (suspendedStates ex)
    (resumedStates ex) (seedMap ex) (processTree ex) (pathsExplored ex) (pathsExploredSimulation ex) m.

Definition with_suspended (l : gset sid) (m : Simulation) : Simulation :=
  mkSimulation l (dependentState m) (inhibitForking m) (simulating m).
Definition with_inhibitForking (b : bool) (m : Simulation) : Simulation :=
  mkSimulation (suspended m) (dependentState m) b (simulating m).
Definition with_simulating (b : bool) (m : Simulation) : Simulation :=
  mkSimulation (suspended m) (dependentState m) (inhibitForking m) b.

(** A call of the searcher sees the global of the engine. *)
Definition at_mode (ex : Executor S) (e : env) : env :=
  mkEnv (rnd e) (wall e) (instructions e) (simulating (simulation ex)).

(** ** Creating and terminating states *)

Definition with_added (l : list sid) (t : PTree) (ex : Executor S) : Executor S :=
  mkExecutor (searcher ex) (states ex) l (removedStates ex) (suspendedStates ex) (resumedStates ex)
    (seedMap ex) t (pathsExplored ex) (pathsExploredSimulation ex) (simulation ex).

(** The copy [ns] of a state has its [suspendStatus] and [dependentState]. *)
Definition copy_state (es ns : sid) (m : Simulation) : Simulation :=
  mkSimulation (if bool_decide (es ∈ suspended m) then suspended m ∪ {[ns]} else suspended m ∖ {[ns]})
    (match dependentState m !! es with
     | Some d => <[ns := d]> (dependentState m)
     | None => delete ns (dependentState m)
     end) (inhibitForking m) (simulating m).

(** The loop of [branch]: the [i]-th new state is branched off a random earlier
    one; [news] are the addresses of the new states. *)
Fixpoint branch_loop (e : env) (i : nat) (news result : list sid) (ex : Executor S)
    : outcome (list sid * Executor S) :=
  match news with
  | [] => Ret (result, ex)
  | ns :: news' =>
      es ← of_option MemError (result !! Z.to_nat (u32 (rnd e (i - 1)) mod Z.of_nat i));
      a ← of_option MemError (ptreeNode (processTree ex) !! es);
      t ← attach (processTree ex) a ns es;
      branch_loop e (Datatypes.S i) news' (result ++ [ns])
        (with_simulation (copy_state es ns (simulation ex)) (with_added (addedStates ex ++ [ns]) t ex))
  end.

(** [branch] up to the redistribution of seeds; without permission to branch
    one of the conditions is chosen. *)
Definition branch (e : env) (branchingPermitted : bool) (state : sid) (N : nat) (news : list sid)
    (ex : Executor S) : outcome (list (option sid) * Executor S) :=
  match N with
  | O => Stop AssertFail
  | Datatypes.S _ =>
      if negb branchingPermitted then
        let next := Z.to_nat (u32 (rnd e 0) mod Z.of_nat N) in
        Ret (map (fun i => if bool_decide (i = next) then Some state else None) (seq 0 N), ex)
      else
        '(result, ex) ← branch_loop e 1 (take (N - 1) news) [state] ex;
        Ret (map Some result, ex)
  end.

(** The first part of [terminateState]: a state that the searcher has not seen
    is deleted at once, any other is put on the list of removed states.  The
    result says whether the state was deleted. *)
Definition discard (ex : Executor S) (x : sid) : outcome (bool * Executor S) :=
  let n := if isNormalState x then pathsExplored ex + 1 else pathsExplored ex in
  let m := if isNormalState x then pathsExploredSimulation ex else pathsExploredSimulation ex + 1 in
  match erase x (addedStates ex) with
  | None =>
      Ret (false, mkExecutor (searcher ex) (states ex) (addedStates ex) (removedStates ex ++ [x])
             (suspendedStates ex) (resumedStates ex) (seedMap ex) (processTree ex) n m (simulation ex))
  | Some added =>
      a ← of_option MemError (ptreeNode (processTree ex) !! x);
      t ← remove CompressProcessTree (processTree ex) a;
      Ret (true, mkExecutor (searcher ex) (states ex) added (removedStates ex) (suspendedStates ex)
             (resumedStates ex) (seedMap ex ∖ {[x]}) (delete_state x t) n m (simulation ex))
  end.

Definition set_terminal (n : PTreeNode) : PTreeNode :=
  mkPTreeNode (parent n) (left n) (right n) (state n) true (visit n) (isInMCTSTree n) (isForked n)
    (isSimulated n).

(** A change to the node of a state. *)
Definition modify_node (f : PTreeNode -> PTreeNode) (x : sid) (ex : Executor S) : outcome (Executor S) :=
  a ← of_option MemError (ptreeNode (processTree ex) !! x);
  _ ← deref (processTree ex) a;
  Ret (with_added (addedStates ex) (modify f a (processTree ex)) ex).

(** [terminateState] outside of the simulation mode: the type of the state is
    read, and its node is marked, after the state may have been deleted. *)
Definition terminate_normal (ex : Executor S) (x : sid) : outcome (Executor S) :=
  '(deleted, ex) ← discard ex x;
  if deleted : bool then Stop MemError
  else if isNormalState x then modify_node set_terminal x ex
  else Ret ex.

(** [setSuspended] and [setResumed] assert that the state is normal. *)
Definition suspendState (ex : Executor S) (x : sid) : outcome (Executor S) :=
  _ ← assert_that (isNormalState x);
  Ret (mkExecutor (searcher ex) (states ex) (addedStates ex) (removedStates ex) (suspendedStates ex ++ [x])
         (resumedStates ex) (seedMap ex) (processTree ex) (pathsExplored ex) (pathsExploredSimulation ex)
         (with_suspended (suspended (simulation ex) ∪ {[x]}) (simulation ex))).

Definition resumeState (ex : Executor S) (x : sid) : outcome (Executor S) :=
  _ ← assert_that (isNormalState x);
  Ret (with_simulation (with_suspended (suspended (simulation ex) ∖ {[x]}) (simulation ex))
         (with_added (addedStates ex ++ [x]) (processTree ex) ex)).

(** The simulation state [ns] is a copy of [x] that shares its node. *)
Definition startSimulationState (ex : Executor S) (x ns : sid) : outcome (Executor S) :=
  _ ← assert_that (isSimulationState ns);
  _ ← assert_that (isNormalState x);
  let m := copy_state x ns (simulation ex) in
  a ← of_option MemError (ptreeNode (processTree ex) !! x);
  let t := processTree ex in
  Ret (with_simulation (mkSimulation (suspended m) (<[ns := x]> (dependentState m)) true (simulating m))
         (with_added (addedStates ex ++ [ns])
            (mkPTree (nodes t) (<[ns := a]> (ptreeNode t)) (root t) (registeredIds t)) ex)).

Definition getDependentState (ex : Executor S) (x : sid) : outcome sid :=
  _ ← assert_that (isSimulationState x);
  of_option MemError (dependentState (simulation ex) !! x).

Definition notifyDependentState (ex : Executor S) (x : sid) : outcome (Executor S) :=
  d ← getDependentState ex x;
  ex ← modify_node (set_state (Some d)) x ex;
  resumeState ex d.

(** The loop over the states terminates a simulation state and erases it from
    the set it iterates over, at the iterator: the step to the next state is
    then undefined. *)
Definition onSimulationStateExit (ex : Executor S) (x : sid) : outcome (Executor S) :=
  ex ← notifyDependentState ex x;
  ex ← terminate_normal ex x;
  match filter (fun es => isSimulationState es || negb (isNormalState es) = true) (elements (states ex)) with
  | es :: _ => _ ← terminate_normal ex es; Stop MemError
  | [] => Ret (with_simulation (with_inhibitForking false (simulation ex)) ex)
  end.

Definition add_visit (n : PTreeNode) : PTreeNode :=
  mkPTreeNode (parent n) (left n) (right n) (state n) (isTerminal n) (visit n + 1) (isInMCTSTree n) (isForked n)
    (isSimulated n).

(** The loop over the parents, one turn for each node at most. *)
Fixpoint backpropagate (fuel : nat) (a : option addr) (t : PTree) : outcome PTree :=
  match a, fuel with
  | None, _ => Ret t
  | Some _, O => Stop OutOfFuel
  | Some a, Datatypes.S fuel' => n ← deref t a; backpropagate fuel' (parent n) (modify add_visit a t)
  end.

Definition doBackpropagation (ex : Executor S) (x : sid) : outcome (Executor S) :=
  let t := processTree ex in
  t ← backpropagate (Datatypes.S (size (nodes t))) (ptreeNode t !! x) t;
  Ret (with_added (addedStates ex) t ex).

(** In simulation mode the reward is taken from the state, which may have been
    deleted, and the simulation ends. *)
Definition terminateState (ex : Executor S) (x : sid) : outcome (Executor S) :=
  if simulating (simulation ex) then
    '(deleted, ex) ← discard ex x;
    if deleted : bool then Stop MemError else
    ex ← onSimulationStateExit (with_simulation (with_simulating false (simulation ex)) ex) x;
    d ← getDependentState ex x;
    doBackpropagation ex d
  else terminate_normal ex x.

(** ** Updating *)

Fixpoint remove_each (es : nat -> env) (s : S) (l : list sid) : outcome S :=
  match l with
  | [] => Ret s
  | x :: l' => s ← update (es O) s None [] [x]; remove_each (fun i => es (Datatypes.S i)) s l'
  end.

Fixpoint add_each (es : nat -> env) (s : S) (l : list sid) : outcome S :=
  match l with
  | [] => Ret s
  | x :: l' => s ← update (es O) s None [x] []; add_each (fun i => es (Datatypes.S i)) s l'
  end.

(** The searcher's part; [es] are the environments of the calls. *)
Definition updateSearcher (es : nat -> env) (current : option sid) (ex : Executor S) (s : S) : outcome S :=
  let filtered :=
    match removedStates ex with
    | [] => []
    | _ => filter (fun x => isNormalState x && isSuspended ex x = false) (removedStates ex)
    end in
  s ← update (es O) s current (addedStates ex) filtered;
  s ← remove_each (fun i => es (1 + i)%nat) s (suspendedStates ex);
  add_each (fun i => es (1 + length (suspendedStates ex) + i)%nat) s (resumedStates ex).

(** The loop over the removed states. *)
Fixpoint erase_states (haltExecution : bool) (l : list sid) (st seeds : gset sid) (t : PTree)
    : outcome (gset sid * gset sid * PTree) :=
  match l with
  | [] => Ret (st, seeds, t)
  | x :: l' =>
      if isSimulationState x then erase_states haltExecution l' st seeds t
      else if bool_decide (x ∉ st) then Stop AssertFail
      else
        a ← of_option MemError (ptreeNode t !! x);
        n ← deref t a;
        if haltExecution && negb (childless n)
        then erase_states haltExecution l' (st ∖ {[x]}) (seeds ∖ {[x]}) t
        else
          t ← remove CompressProcessTree t a;
          erase_states haltExecution l' (st ∖ {[x]}) (seeds ∖ {[x]}) (delete_state x t)
  end.

Definition updateStates (es : nat -> env) (haltExecution : bool) (current : option sid)
    (ex : Executor S) : outcome (Executor S) :=
  '(srch, susp, res) ←
    match searcher ex with
    | Some s => s ← updateSearcher (fun i => at_mode ex (es i)) current ex s; Ret (Some s, [], [])
    | None => Ret (None, suspendedStates ex, resumedStates ex)
    end;
  '(st, seeds, t) ←
    erase_states haltExecution (removedStates ex) (states ex ∪ list_to_set (addedStates ex))
      (seedMap ex) (processTree ex);
  Ret (mkExecutor srch st [] [] susp res seeds t (pathsExplored ex) (pathsExploredSimulation ex)
         (simulation ex)).

(** ** The main loop *)

(** What an instruction does to the states: branch a state or terminate one. *)
Inductive action : Type :=
  | Branch (e : env) (x : sid) (news : list sid)
  | Terminate (x : sid).

Definition perform (ex : Executor S) (a : action) : outcome (Executor S) :=
  match a with
  | Branch e x news =>
      '(_, ex) ← branch e true x (Datatypes.S (length news)) news ex; Ret ex
  | Terminate x => terminateState ex x
  end.

Fixpoint perform_all (ex : Executor S) (l : list action) : outcome (Executor S) :=
  match l with
  | [] => Ret ex
  | a :: l' => ex ← perform ex a; perform_all ex l'
  end.

Definition with_searcher (s : S) (ex : Executor S) : Executor S :=
  mkExecutor (Some s) (states ex) (addedStates ex) (removedStates ex) (suspendedStates ex)
    (resumedStates ex) (seedMap ex) (processTree ex) (pathsExplored ex) (pathsExploredSimulation ex)
    (simulation ex).

(** The mark of the current node outside of the simulation mode. *)
Definition set_in_tree (n : PTreeNode) : PTreeNode :=
  mkPTreeNode (parent n) (left n) (right n) (state n) (isTerminal n) (visit n) true (isForked n)
    (isSimulated n).

Definition mark_current (x : sid) (ex : Executor S) : outcome (Executor S) :=
  if simulating (simulation ex) then Ret ex else modify_node set_in_tree x ex.

(** One iteration: what the instruction of a state does, what the memory check
    does ([None] when it passes), whether execution is halted meanwhile, the
    environments of the searcher's calls. *)
Record iteration : Type := mkIteration {
  selecting : env;
  halting : bool;
  executes : sid -> list action;
  updating : nat -> env;
  pressure : option (list action);
  updating_null : nat -> env
}.

Definition run_iteration (it : iteration) (ex : Executor S) (s : S) : outcome (sid * Executor S) :=
  '(x, s) ← selectState (at_mode ex (selecting it)) s;
  ex ← perform_all (with_searcher s ex) (executes it x);
  ex ← mark_current x ex;
  ex ← updateStates (updating it) (halting it) (Some x) ex;
  match pressure it with
  | Some l =>
      ex ← perform_all ex l;
      if simulating (simulation ex) then Ret (x, ex)
      else ex ← updateStates (updating_null it) (halting it) None ex; Ret (x, ex)
  | None => Ret (x, ex)
  end.

(** The loop runs while there are states and execution is not halted; the
    states selected are recorded. *)
Fixpoint run_loop (its : list iteration) (ex : Executor S) : outcome (list sid * Executor S) :=
  match its with
  | [] => Ret ([], ex)
  | it :: its' =>
      if bool_decide (states ex = ∅) then Ret ([], ex)
      else
        s ← of_option MemError (searcher ex);
        '(x, ex) ← run_iteration it ex s;
        if halting it then Ret ([x], ex) else
        '(xs, ex) ← run_loop its' ex;
        Ret (x :: xs, ex)
  end.

(** ** Lemmas on the tree *)

Lemma PTree_inv_delete t T x :
  PTree_inv t T -> x ∉ (leaves T).*1 -> PTree_inv (delete_state x t) T.
Proof.
  intros [HR Hwf Hnd Hnode] Hx. split; auto.
  - destruct T; simpl in *; destruct HR; split; auto.
  - intros s a Hin. simpl. rewrite lookup_delete_ne; [auto|]. intros ->. apply Hx.
    by apply (list_elem_of_fmap_2 fst) in Hin.
Qed.

(** Flags of a node are not part of the tree. *)
Lemma rep_flags f b h p q T :
  (forall n, parent (f n) = parent n /\ left (f n) = left n /\ right (f n) = right n /\ state (f n) = state n) ->
  rep h p q T -> rep (alter f b h) p q T.
Proof.
  intros Hf. revert p q. induction T as [|a g st l IHl r IHr]; intros p q; simpl; [done|].
  intros (-> & n & Hn & Hp & Hst & Hl & Hr). split; [done|].
  destruct (decide (a = b)) as [->|Hne].
  - exists (f n). rewrite lookup_alter_eq, Hn. destruct (Hf n) as (-> & -> & -> & ->).
    split_and!; auto.
  - exists n. rewrite lookup_alter_ne by done. split_and!; auto.
Qed.

Lemma PTree_inv_flags f b t T :
  (forall n, parent (f n) = parent n /\ left (f n) = left n /\ right (f n) = right n /\ state (f n) = state n) ->
  PTree_inv t T -> PTree_inv (modify f b t) T.
Proof.
  intros Hf [HR Hwf Hnd Hnode]. split; auto. unfold Rep0 in *.
  assert (Hgen : forall t0 T0, Rep t0 T0 -> Rep (modify f b t0) T0).
  { intros t0 T0 [Hr Hn Hd]. split; [by apply rep_flags|done|]. intros a. simpl.
    rewrite lookup_alter_is_Some. apply Hd. }
  destruct T; [apply (Hgen (with_root (None, 0) t))|apply Hgen]; exact HR.
Qed.

(** A state of the tree has its leaf. *)
Lemma leaf_of t T x :
  PTree_inv t T -> x ∈ (leaves T).*1 ->
  exists a n, ptreeNode t !! x = Some a /\ (x, a) ∈ leaves T /\ deref t a = Ret n /\ childless n = true.
Proof.
  intros Hpt Hx. apply list_elem_of_fmap in Hx as ([x' a] & Hxe & Hin). simpl in Hxe. subst x'.
  destruct (leaf_ctx T x a (pi_wf _ _ Hpt) Hin) as (c & tag & ->).
  pose proof (proj1 (Rep0_plug t c (leaf a tag x) ltac:(done)) (pi_rep _ _ Hpt)) as HR.
  destruct (Rep_at _ _ _ _ _ _ _ HR) as (_ & (n & Hn & _ & _ & Hl & Hr) & _).
  exists a, n. split_and!; [by apply (pi_node _ _ Hpt)|done|by apply deref_Some|].
  unfold childless. simpl in Hl, Hr. by rewrite Hl, Hr.
Qed.

(** Removing the leaf of a state that is then deleted. *)
Lemma remove_delete t T x a :
  PTree_inv t T -> (x, a) ∈ leaves T ->
  exists t' T', remove CompressProcessTree t a = Ret t' /\ PTree_inv (delete_state x t') T' /\
    forall y, y ∈ (leaves T').*1 <-> y ∈ (leaves T).*1 /\ y <> x.
Proof.
  intros Hpt Hin. destruct (remove_spec CompressProcessTree t T x a Hpt Hin) as (t' & T' & Hrun & _ & Hpt' & HL & _).
  assert (Hl : forall y, y ∈ (leaves T').*1 <-> y ∈ (leaves T).*1 /\ y <> x).
  { intros y. rewrite HL, !list_elem_of_fmap. split.
    - intros (z & -> & [Hz Hin']%list_elem_of_filter). eauto.
    - intros ((z & -> & Hz) & Hne). exists z. split; [done|]. by apply list_elem_of_filter. }
  exists t', T'. split_and!; auto. apply PTree_inv_delete; [done|]. rewrite Hl. tauto.
Qed.

(** ** The loop over the removed states *)

Lemma erase_states_ok halt l : forall st seeds t T,
  PTree_inv t T -> (forall y, y ∈ (leaves T).*1 <-> y ∈ st) -> NoDup l ->
  (forall x, x ∈ l -> x ∈ st) -> (forall x, x ∈ l -> isSimulationState x = false) ->
  exists t' T', erase_states halt l st seeds t =
      Ret (st ∖ list_to_set l, seeds ∖ list_to_set l, t') /\ PTree_inv t' T' /\
    forall y, y ∈ (leaves T').*1 <-> y ∈ st ∖ list_to_set l.
Proof.
  induction l as [|x l IH]; intros st seeds t T Hpt HT Hnd Hst Hsim.
  - exists t, T. simpl. rewrite !difference_empty_L. done.
  - apply NoDup_cons in Hnd as [Hx Hnd]. cbn [erase_states]. rewrite Hsim by left.
    rewrite bool_decide_false by (intros Hn; apply Hn, Hst; left).
    destruct (leaf_of t T x Hpt) as (a & n & Ha & Hin & Hn & Hc); [apply HT, Hst; left|].
    rewrite Ha. cbn [of_option mbind outcome_bind]. rewrite Hn. cbn [mbind outcome_bind].
    rewrite Hc, andb_false_r.
    destruct (remove_delete t T x a Hpt Hin) as (t1 & T1 & -> & Hpt1 & Hl1). cbn [mbind outcome_bind].
    destruct (IH (st ∖ {[x]}) (seeds ∖ {[x]}) (delete_state x t1) T1 Hpt1) as (t2 & T2 & -> & Hpt2 & Hl2).
    { intros y. rewrite Hl1, HT. set_solver. } { done. } { set_solver. } { set_solver. }
    exists t2, T2. cbn [list_to_set]. rewrite !difference_difference_l_L in *. done.
Qed.

(** ** The searcher's part of an update *)

Abbreviation R := (normal isSimulationState).
Context `{!EngineSpec R S}.

Lemma remove_each_ok l : forall es s,
  EInv s -> NoDup l -> (forall x, x ∈ l -> x ∈ live s /\ R x) ->
  exists s', remove_each es s l = Ret s' /\ EInv s' /\ live s' = live s ∖ list_to_set l.
Proof.
  induction l as [|x l IH]; intros es s HI Hnd Hl.
  - exists s. simpl. rewrite difference_empty_L. done.
  - apply NoDup_cons in Hnd as [Hx Hnd]. cbn [remove_each].
    destruct (engine_update (es O) s None [] [x] HI) as (s1 & -> & HI1 & Hc1).
    { split; try done; [by apply NoDup_nil|set_solver|by apply NoDup_singleton|set_solver|].
      intros y ->%list_elem_of_singleton. apply Hl. left. } { set_solver. } { done. }
    cbn [mbind outcome_bind]. unfold after in Hc1.
    destruct (IH (fun i => es (Datatypes.S i)) s1 HI1 Hnd) as (s2 & -> & HI2 & Hc2).
    { intros y Hy. rewrite Hc1. split; [|apply Hl; by right]. pose proof (Hl y). set_solver. }
    exists s2. split_and!; auto. rewrite Hc2, Hc1. set_solver.
Qed.

Lemma add_each_ok l : forall es s,
  EInv s -> NoDup l -> (forall x, x ∈ l -> x ∉ live s /\ R x) ->
  exists s', add_each es s l = Ret s' /\ EInv s' /\ live s' = live s ∪ list_to_set l.
Proof.
  induction l as [|x l IH]; intros es s HI Hnd Hl.
  - exists s. simpl. rewrite union_empty_r_L. done.
  - apply NoDup_cons in Hnd as [Hx Hnd]. cbn [add_each].
    destruct (engine_update (es O) s None [x] [] HI) as (s1 & -> & HI1 & Hc1).
    { split; try done; [by apply NoDup_singleton| |by apply NoDup_nil|set_solver|set_solver].
      intros y ->%list_elem_of_singleton. apply Hl. left. }
    { intros y ->%list_elem_of_singleton. apply Hl. left. } { done. }
    cbn [mbind outcome_bind]. unfold after in Hc1.
    destruct (IH (fun i => es (Datatypes.S i)) s1 HI1 Hnd) as (s2 & -> & HI2 & Hc2).
    { intros y Hy. rewrite Hc1. split; [|apply Hl; by right]. pose proof (Hl y). set_solver. }
    exists s2. split_and!; auto. rewrite Hc2, Hc1. set_solver.
Qed.

(** The removed states the searcher hears of. *)
Definition filtered (ex : Executor S) : list sid :=
  filter (fun x => isNormalState x && isSuspended ex x = false) (removedStates ex).

(** The states a searcher holds after an update. *)
Definition scheduled (ex : Executor S) (s : S) : gset sid :=
  (after (live s) (addedStates ex) (filtered ex) ∖ list_to_set (suspendedStates ex))
    ∪ list_to_set (resumedStates ex).

(** What an update finds: the tree has a leaf for every state, new or old, and
    the lists name states the searcher can add and drop. *)
Record pending (current : option sid) (ex : Executor S) (s : S) (T : tree) : Prop := {
  pd_searcher : searcher ex = Some s;
  pd_inv : EInv s;
  pd_tree : PTree_inv (processTree ex) T;
  pd_leaves : forall y, y ∈ (leaves T).*1 <-> y ∈ states ex \/ y ∈ addedStates ex;
  pd_update : valid_update R (live s) current (addedStates ex) (filtered ex);
  pd_current : forall c, current = Some c -> sched s c;
  pd_added : forall x, x ∈ addedStates ex -> R x;
  pd_removed : NoDup (removedStates ex);
  pd_known : forall x, x ∈ removedStates ex -> (x ∈ states ex \/ x ∈ addedStates ex) /\ R x;
  pd_nodup : NoDup (suspendedStates ex) /\ NoDup (resumedStates ex);
  pd_suspended : forall x, x ∈ suspendedStates ex ->
    x ∈ after (live s) (addedStates ex) (filtered ex) /\ R x;
  pd_resumed : forall x, x ∈ resumedStates ex ->
    x ∉ after (live s) (addedStates ex) (filtered ex) ∖ list_to_set (suspendedStates ex) /\ R x
}.

Lemma updateSearcher_ok es current ex s T :
  pending current ex s T ->
  exists s', updateSearcher es current ex s = Ret s' /\ EInv s' /\ live s' = scheduled ex s.
Proof.
  intros []. unfold updateSearcher.
  replace (match removedStates ex with [] => [] | _ => _ end) with (filtered ex)
    by (unfold filtered; by destruct (removedStates ex)).
  destruct (engine_update (es O) s current (addedStates ex) (filtered ex)) as (s1 & -> & HI1 & Hc1); auto.
  cbn [mbind outcome_bind].
  destruct (remove_each_ok (suspendedStates ex) (fun i => es (1 + i)%nat) s1) as (s2 & -> & HI2 & Hc2);
    [done|tauto|by rewrite Hc1|].
  cbn [mbind outcome_bind].
  destruct (add_each_ok (resumedStates ex) (fun i => es (1 + length (suspendedStates ex) + i)%nat) s2)
    as (s3 & -> & HI3 & Hc3); [done|tauto|by rewrite Hc2, Hc1|].
  exists s3. split_and!; auto. by rewrite Hc3, Hc2, Hc1.
Qed.

Lemma updateStates_ok es halt current ex s T :
  pending current ex s T ->
  exists ex' s' T', updateStates es halt current ex = Ret ex' /\
    searcher ex' = Some s' /\ EInv s' /\ live s' = scheduled ex s /\
    states ex' = (states ex ∪ list_to_set (addedStates ex)) ∖ list_to_set (removedStates ex) /\
    seedMap ex' = seedMap ex ∖ list_to_set (removedStates ex) /\
    PTree_inv (processTree ex') T' /\ (forall y, y ∈ (leaves T').*1 <-> y ∈ states ex') /\
    addedStates ex' = [] /\ removedStates ex' = [] /\ suspendedStates ex' = [] /\ resumedStates ex' = [] /\
    simulation ex' = simulation ex.
Proof.
  intros Hp. unfold updateStates. destruct (updateSearcher_ok (fun i => at_mode ex (es i)) current ex s T Hp) as (s' & Hrun & HI' & Hc').
  destruct Hp. rewrite pd_searcher0, Hrun. cbn [mbind outcome_bind].
  destruct (erase_states_ok halt (removedStates ex) (states ex ∪ list_to_set (addedStates ex)) (seedMap ex)
    (processTree ex) T) as (t' & T' & -> & Hpt' & Hl'); auto.
  { intros y. rewrite pd_leaves0. set_solver. }
  { intros x Hx. destruct (pd_known0 x Hx). set_solver. }
  { intros x Hx. by destruct (pd_known0 x Hx). }
  cbn [mbind outcome_bind]. eexists _, s', T'. split; [done|]. simpl. split_and!; auto.
Qed.

(** ** Instructions *)

(** The engine between updates, outside of a simulation: no state is
    suspended. *)
Record engine_inv (ex : Executor S) (s : S) (T : tree) : Prop := {
  ei_searcher : searcher ex = Some s;
  ei_inv : EInv s;
  ei_live : live s = states ex;
  ei_tree : PTree_inv (processTree ex) T;
  ei_leaves : forall y, y ∈ (leaves T).*1 <-> y ∈ states ex \/ y ∈ addedStates ex;
  ei_added : NoDup (addedStates ex);
  ei_fresh : forall x, x ∈ addedStates ex -> x ∉ states ex;
  ei_removed : NoDup (removedStates ex);
  ei_known : forall x, x ∈ removedStates ex -> x ∈ states ex;
  ei_normal : forall x, x ∈ states ex \/ x ∈ addedStates ex -> R x /\ isSuspended ex x = false;
  ei_idle : suspendedStates ex = [] /\ resumedStates ex = [];
  ei_mode : simulating (simulation ex) = false
}.

(** The effect of an action on the lists of new and removed states, with the
    states [St] alive.  A state that is terminated is one of them: one that was
    branched off by the same instruction is not known to the searcher yet. *)
Inductive effect (St : gset sid) : list sid -> list sid -> action -> list sid -> list sid -> Prop :=
  | effect_branch e x news A Rm :
      (x ∈ St \/ x ∈ A) -> NoDup news ->
      (forall n, n ∈ news -> (n ∉ St /\ n ∉ A) /\ R n) ->
      effect St A Rm (Branch e x news) (A ++ news) Rm
  | effect_terminate x A Rm :
      x ∈ St -> x ∉ A -> x ∉ Rm -> effect St A Rm (Terminate x) A (Rm ++ [x]).

Inductive effects (St : gset sid) : list sid -> list sid -> list action -> list sid -> list sid -> Prop :=
  | effects_nil A Rm : effects St A Rm [] A Rm
  | effects_cons A Rm a A1 R1 l A2 R2 :
      effect St A Rm a A1 R1 -> effects St A1 R1 l A2 R2 -> effects St A Rm (a :: l) A2 R2.

(** Same searcher and states, given lists. *)
Definition advances (ex ex' : Executor S) (s : S) (A Rm : list sid) : Prop :=
  (exists T', engine_inv ex' s T') /\ states ex' = states ex /\ addedStates ex' = A /\ removedStates ex' = Rm.

(** One new state, branched off a state of the tree. *)
Lemma attach_one ex s T es ns :
  engine_inv ex s T -> (es ∈ states ex \/ es ∈ addedStates ex) ->
  (ns ∉ states ex /\ ns ∉ addedStates ex) /\ R ns ->
  exists a t', ptreeNode (processTree ex) !! es = Some a /\ attach (processTree ex) a ns es = Ret t' /\
    advances ex (with_simulation (copy_state es ns (simulation ex)) (with_added (addedStates ex ++ [ns]) t' ex)) s
      (addedStates ex ++ [ns]) (removedStates ex).
Proof.
  intros [] Hes ((Hns & Hna) & HR).
  destruct (leaf_of (processTree ex) T es ei_tree0) as (a & n & Ha & Hin & _); [by apply ei_leaves0|].
  destruct (attach_spec (processTree ex) T a ns es ei_tree0 Hin) as (t' & T' & l & r & L1 & L2 & Hrun & Hpt & HL & HL' & _).
  { rewrite ei_leaves0. tauto. }
  exists a, t'. split_and!; auto. split; [|done]. exists T'. split; simpl; auto.
  - intros y. assert (Hy : y ∈ (leaves T').*1 <-> y = ns \/ y ∈ (leaves T).*1).
    { rewrite HL, HL', !fmap_app. simpl. set_solver. }
    rewrite Hy, ei_leaves0. set_solver.
  - apply NoDup_app. split_and!; auto; [|apply NoDup_singleton]. set_solver.
  - intros x [Hx|Hx]%elem_of_app; [auto|]. by apply list_elem_of_singleton in Hx as ->.
  - destruct (ei_normal0 es Hes) as [_ Hsus%bool_decide_eq_false]. unfold isSuspended, copy_state. simpl.
    rewrite bool_decide_false by done. intros x Hx. rewrite bool_decide_eq_false.
    assert (Hor : (x ∈ states ex \/ x ∈ addedStates ex) \/ x = ns) by set_solver.
    destruct Hor as [Hx'| ->]; [|set_solver].
    destruct (ei_normal0 x Hx') as [HRx Hx''%bool_decide_eq_false]. set_solver.
Qed.

Lemma branch_loop_ok e news : forall i result ex s T,
  engine_inv ex s T -> length result = i -> (0 < i)%nat ->
  (forall x, x ∈ result -> x ∈ states ex \/ x ∈ addedStates ex) -> NoDup news ->
  (forall n, n ∈ news -> (n ∉ states ex /\ n ∉ addedStates ex) /\ R n) ->
  exists ex', branch_loop e i news result ex = Ret (result ++ news, ex') /\
    advances ex ex' s (addedStates ex ++ news) (removedStates ex).
Proof.
  induction news as [|ns news IH]; intros i result ex s T Hinv Hlen Hi Hres Hnd Hnew.
  - exists ex. simpl. rewrite !app_nil_r. split; [done|]. split; [by exists T|done].
  - apply NoDup_cons in Hnd as [Hns Hnd]. cbn [branch_loop].
    destruct (lookup_lt_is_Some_2 result (Z.to_nat (u32 (rnd e (i - 1)) mod Z.of_nat i))) as [es Hes].
    { pose proof (Z.mod_pos_bound (u32 (rnd e (i - 1))) (Z.of_nat i)). lia. }
    rewrite Hes. cbn [of_option mbind outcome_bind].
    destruct (attach_one ex s T es ns Hinv) as (a & t' & -> & Hrun & [T1 Hinv1] & _).
    { apply Hres. by eapply list_elem_of_lookup_2. } { apply Hnew. left. }
    cbn [of_option mbind outcome_bind]. rewrite Hrun. cbn [mbind outcome_bind].
    destruct (IH (Datatypes.S i) (result ++ [ns]) _ s T1 Hinv1) as (ex' & -> & Hadv); auto.
    + rewrite length_app. simpl. lia.
    + simpl. intros x [Hx|Hx]%elem_of_app; [|set_solver]. destruct (Hres x Hx); set_solver.
    + simpl. intros n Hn. destruct (Hnew n ltac:(by right)) as ((H1 & H2) & H3). split; [|done].
      split; [done|]. intros [|Hx]%elem_of_app; [done|]. apply list_elem_of_singleton in Hx as ->. done.
    + exists ex'. rewrite <- app_assoc. split; [done|]. unfold advances in *. simpl in Hadv.
      rewrite <- app_assoc in Hadv. done.
Qed.

(** A mark on the node of a state. *)
Lemma modify_node_ok f x ex s T :
  (forall n, parent (f n) = parent n /\ left (f n) = left n /\ right (f n) = right n /\ state (f n) = state n) ->
  engine_inv ex s T -> x ∈ states ex ->
  exists ex', modify_node f x ex = Ret ex' /\ advances ex ex' s (addedStates ex) (removedStates ex).
Proof.
  intros Hf Hinv Hx. pose proof Hinv as []. unfold modify_node.
  destruct (leaf_of (processTree ex) T x ei_tree0) as (a & n & -> & _ & Hn & _); [apply ei_leaves0; tauto|].
  cbn [of_option mbind outcome_bind]. rewrite Hn. cbn [mbind outcome_bind].
  eexists. split; [done|]. split; [|done]. exists T. split; simpl; auto. by apply PTree_inv_flags.
Qed.

(** A state that the searcher knows is put on the list of removed states. *)
Lemma terminate_normal_ok ex s T x :
  engine_inv ex s T -> x ∈ states ex -> x ∉ addedStates ex -> x ∉ removedStates ex ->
  exists ex', terminate_normal ex x = Ret ex' /\ advances ex ex' s (addedStates ex) (removedStates ex ++ [x]).
Proof.
  intros Hinv Hx HxA HxR. unfold terminate_normal, discard. rewrite erase_none by done. cbn [mbind outcome_bind].
  set (ex1 := mkExecutor _ _ _ _ _ _ _ _ _ _ _).
  assert (Hinv1 : engine_inv ex1 s T).
  { destruct Hinv. split; simpl; auto.
    - apply NoDup_app. split_and!; auto; [|apply NoDup_singleton]. set_solver.
    - intros y [Hy|Hy]%elem_of_app; [auto|]. by apply list_elem_of_singleton in Hy as ->. }
  destruct (isNormalState x).
  - by apply (modify_node_ok set_terminal x ex1 s T).
  - exists ex1. split; [done|]. split; [by exists T|done].
Qed.

Lemma perform_ok ex s T a A Rm :
  engine_inv ex s T -> effect (states ex) (addedStates ex) (removedStates ex) a A Rm ->
  exists ex', perform ex a = Ret ex' /\ advances ex ex' s A Rm.
Proof.
  intros Hinv Hef. remember (addedStates ex) as A0 eqn:EA. remember (removedStates ex) as R0 eqn:ER.
  destruct Hef as [e x news A Rm Hx Hnd Hnew|x A Rm Hx HxA HxR]; subst A Rm; cbn [perform].
  - unfold branch. cbn [negb]. replace (Datatypes.S (length news) - 1)%nat with (length news) by lia.
    rewrite firstn_all.
    destruct (branch_loop_ok e news 1 [x] ex s T Hinv) as (ex' & -> & Hadv); auto.
    { intros y Hy. apply list_elem_of_singleton in Hy as ->. done. }
    exists ex'. done.
  - unfold terminateState. rewrite (ei_mode _ _ _ Hinv). by apply (terminate_normal_ok ex s T).
Qed.

Lemma perform_all_ok St A Rm l A' R' :
  effects St A Rm l A' R' -> forall ex s T,
  engine_inv ex s T -> states ex = St -> addedStates ex = A -> removedStates ex = Rm ->
  exists ex', perform_all ex l = Ret ex' /\ advances ex ex' s A' R'.
Proof.
  induction 1 as [A Rm|A Rm a A1 R1 l A2 R2 Ha _ IH]; intros ex s T Hinv HSt HA HR; subst; cbn [perform_all].
  - exists ex. split; [done|]. split; [by exists T|done].
  - destruct (perform_ok ex s T a A1 R1 Hinv Ha) as (ex1 & -> & [T1 Hinv1] & Hs1 & HA1 & HR1).
    cbn [mbind outcome_bind].
    destruct (IH ex1 s T1 Hinv1 Hs1 HA1 HR1) as (ex2 & -> & Hinv2 & Hs2 & HA2 & HR2).
    exists ex2. split; [done|]. split; [done|]. split_and!; congruence.
Qed.

(** Nothing is filtered when no state is suspended. *)
Lemma filtered_all ex s T : engine_inv ex s T -> filtered ex = removedStates ex.
Proof.
  intros []. unfold filtered. apply filter_all, Forall_forall. intros x Hx.
  destruct (ei_normal0 x) as [_ ->]; [left; auto|]. apply andb_false_r.
Qed.

(** An update between instructions. *)
Lemma engine_pending current ex s T :
  engine_inv ex s T -> (forall c, current = Some c -> sched s c /\ c ∈ live s) -> pending current ex s T.
Proof.
  intros Hinv Hcur. pose proof (filtered_all _ _ _ Hinv) as Hf. destruct Hinv.
  destruct ei_idle0 as [Hsus Hres]. split; auto; rewrite ?Hf, ?Hsus, ?Hres.
  - split; auto.
    + intros x Hx. rewrite ei_live0. auto.
    + intros x Hx. left. rewrite ei_live0. auto.
    + intros x Hx. apply ei_normal0. left. auto.
    + intros c Hc. by apply Hcur.
  - intros c Hc. by apply Hcur.
  - intros x Hx. apply ei_normal0. tauto.
  - intros x Hx. split; [left; auto|]. apply ei_normal0. left. auto.
  - split; apply NoDup_nil_2.
  - set_solver.
  - set_solver.
Qed.

Lemma engine_update_states es halt current ex s T :
  engine_inv ex s T -> (forall c, current = Some c -> sched s c /\ c ∈ live s) ->
  exists ex' s' T', updateStates es halt current ex = Ret ex' /\ engine_inv ex' s' T' /\
    states ex' = (states ex ∪ list_to_set (addedStates ex)) ∖ list_to_set (removedStates ex) /\
    addedStates ex' = [] /\ removedStates ex' = [].
Proof.
  intros Hinv Hcur. pose proof (engine_pending current ex s T Hinv Hcur) as Hp.
  destruct (updateStates_ok es halt current ex s T Hp)
    as (ex' & s' & T' & Hrun & Hs' & HI' & Hlive & Hst & _ & Hpt & Hl & HA & HR & Hsus & Hres & Hsim).
  exists ex', s', T'. split; [done|]. split; [|done].
  pose proof (filtered_all _ _ _ Hinv) as Hf. destruct Hinv. destruct ei_idle0 as [Hsus0 Hres0].
  split; rewrite ?HA, ?HR; auto using NoDup_nil_2.
  - rewrite Hlive, Hst. unfold scheduled, after. rewrite Hf, Hsus0, Hres0, ei_live0. cbn [list_to_set].
    assert (Hid : forall X : gset sid, X ∖ ∅ ∪ ∅ = X) by (clear; set_solver). apply Hid.
  - intros y. rewrite Hl. split; [by left|]. by intros [|?%elem_of_nil].
  - by intros x ?%elem_of_nil.
  - by intros x ?%elem_of_nil.
  - intros x [Hx|?%elem_of_nil]; [|done]. rewrite Hst in Hx. unfold isSuspended. rewrite Hsim. apply ei_normal0.
    apply elem_of_difference in Hx as [Hx _]. set_solver.
  - by rewrite Hsim.
Qed.

Lemma mark_current_ok x ex s T :
  engine_inv ex s T -> x ∈ states ex ->
  exists ex', mark_current x ex = Ret ex' /\ advances ex ex' s (addedStates ex) (removedStates ex).
Proof. intros Hinv Hx. unfold mark_current. rewrite (ei_mode _ _ _ Hinv). by apply (modify_node_ok set_in_tree x ex s T). Qed.

(** ** The main loop *)

(** The iteration is possible whatever state of [St] is selected, and leaves
    the states [next]. *)
Definition possible (it : iteration) (St : gset sid) (x : sid) (next : gset sid) : Prop :=
  exists A Rm, effects St [] [] (executes it x) A Rm /\
  let St1 := (St ∪ list_to_set A) ∖ list_to_set Rm in
  match pressure it with
  | None => next = St1
  | Some l =>
      exists A' R', effects St1 [] [] l A' R' /\ next = (St1 ∪ list_to_set A') ∖ list_to_set R'
  end.

(** What the loop may be given: every iteration is possible for every choice
    of the searcher. *)
Fixpoint run_ok (its : list iteration) (St : gset sid) : Prop :=
  match its with
  | [] => True
  | it :: its' => forall x, x ∈ St ->
      (exists next, possible it St x next) /\ forall next, possible it St x next -> run_ok its' next
  end.

(** The choices of the loop against the set of states: an abstract scheduler
    that picks any state alive. *)
Inductive schedule : list iteration -> gset sid -> list sid -> gset sid -> Prop :=
  | schedule_end St : schedule [] St [] St
  | schedule_empty its : schedule its ∅ [] ∅
  | schedule_halt it its St x next :
      x ∈ St -> possible it St x next -> halting it = true -> schedule (it :: its) St [x] next
  | schedule_step it its St x next xs St' :
      x ∈ St -> possible it St x next -> schedule its next xs St' ->
      schedule (it :: its) St (x :: xs) St'.

Lemma engine_inv_searcher ex s T s' :
  engine_inv ex s T -> EInv s' -> live s' = live s -> engine_inv (with_searcher s' ex) s' T.
Proof. intros [] HI Hl. split; simpl; auto. congruence. Qed.

Lemma run_iteration_ok it ex s T :
  engine_inv ex s T -> addedStates ex = [] -> removedStates ex = [] -> states ex <> ∅ ->
  (forall x, x ∈ states ex -> exists next, possible it (states ex) x next) ->
  exists x ex' s' T', run_iteration it ex s = Ret (x, ex') /\ x ∈ states ex /\ engine_inv ex' s' T' /\
    addedStates ex' = [] /\ removedStates ex' = [] /\ possible it (states ex) x (states ex').
Proof.
  intros Hinv HA HR Hne Hpos. unfold run_iteration.
  destruct (engine_select (at_mode ex (selecting it)) s) as (x & s1 & -> & Hx & Hsch & HI1 & Hl1).
  { apply Hinv. } { by rewrite (ei_live _ _ _ Hinv). }
  cbn [mbind outcome_bind]. pose proof (engine_inv_searcher ex s T s1 Hinv HI1 Hl1) as Hinv1.
  rewrite (ei_live _ _ _ Hinv) in Hx. destruct (Hpos x Hx) as (next & A & Rm & Hef & Hnext).
  destruct (perform_all_ok _ _ _ _ _ _ Hef _ _ _ Hinv1 eq_refl HA HR) as (ex2 & -> & [T2 Hinv2] & Hs2 & HA2 & HR2).
  cbn [mbind outcome_bind]. simpl in Hs2.
  destruct (mark_current_ok x ex2 s1 T2 Hinv2)
    as (ex3 & -> & [T3 Hinv3] & Hs3 & HA3 & HR3); [by rewrite Hs2|].
  cbn [mbind outcome_bind].
  destruct (engine_update_states (updating it) (halting it) (Some x) ex3 s1 T3 Hinv3)
    as (ex4 & s4 & T4 & -> & Hinv4 & Hs4 & HA4 & HR4).
  { intros c [= <-]. split; [done|]. by rewrite Hl1, (ei_live _ _ _ Hinv). }
  cbn [mbind outcome_bind]. rewrite Hs3, Hs2, HA3, HA2, HR3, HR2 in Hs4. unfold possible.
  destruct (pressure it) as [l|].
  - destruct Hnext as (A' & R' & Hef' & _). rewrite <- Hs4 in Hef'.
    destruct (perform_all_ok _ _ _ _ _ _ Hef' _ _ _ Hinv4 eq_refl HA4 HR4)
      as (ex5 & -> & [T5 Hinv5] & Hs5 & HA5 & HR5).
    cbn [mbind outcome_bind]. rewrite (ei_mode _ _ _ Hinv5).
    destruct (engine_update_states (updating_null it) (halting it) None ex5 s4 T5 Hinv5)
      as (ex6 & s6 & T6 & -> & Hinv6 & Hs6 & HA6 & HR6); [done|].
    cbn [mbind outcome_bind]. rewrite Hs5, HA5, HR5 in Hs6.
    exists x, ex6, s6, T6. split_and!; auto. exists A, Rm. split; [done|].
    exists A', R'. rewrite <- Hs4. done.
  - exists x, ex4, s4, T4. split_and!; auto. exists A, Rm. done.
Qed.

Lemma run_loop_ok its : forall ex s T,
  engine_inv ex s T -> addedStates ex = [] -> removedStates ex = [] -> run_ok its (states ex) ->
  exists xs ex' s' T', run_loop its ex = Ret (xs, ex') /\ engine_inv ex' s' T' /\
    addedStates ex' = [] /\ removedStates ex' = [] /\ schedule its (states ex) xs (states ex').
Proof.
  induction its as [|it its IH]; intros ex s T Hinv HA HR Hok; cbn [run_loop].
  - exists [], ex, s, T. split_and!; auto. constructor.
  - case_bool_decide as He.
    + exists [], ex, s, T. split_and!; auto. rewrite He. constructor.
    + rewrite (ei_searcher _ _ _ Hinv). cbn [of_option mbind outcome_bind]. cbn [run_ok] in Hok.
      destruct (run_iteration_ok it ex s T Hinv HA HR He) as (x & ex1 & s1 & T1 & -> & Hx & Hinv1 & HA1 & HR1 & Hp).
      { intros x Hx. by apply Hok. }
      cbn [mbind outcome_bind]. destruct (halting it) eqn:Eh.
      * exists [x], ex1, s1, T1. split_and!; auto. by apply schedule_halt.
      * destruct (IH ex1 s1 T1 Hinv1 HA1 HR1) as (xs & ex2 & s2 & T2 & -> & Hinv2 & HA2 & HR2 & Hsch).
        { by apply (Hok x Hx). }
        cbn [mbind outcome_bind]. exists (x :: xs), ex2, s2, T2. split_and!; auto.
        by eapply schedule_step.
Qed.

(** Terminating a state that the searcher has not seen: its type is read after
    it was deleted. *)
Lemma terminate_new_state ex s T x :
  engine_inv ex s T -> x ∈ addedStates ex -> terminateState ex x = Stop MemError.
Proof.
  intros Hinv Hx. unfold terminateState, terminate_normal, discard. rewrite (ei_mode _ _ _ Hinv). destruct Hinv.
  destruct (erase_spec x _ ei_added0 Hx) as (A & -> & _).
  destruct (leaf_of (processTree ex) T x ei_tree0) as (a & n & -> & Hin & _); [apply ei_leaves0; tauto|].
  cbn [of_option mbind outcome_bind]. by destruct (remove_delete (processTree ex) T x a ei_tree0 Hin) as (t' & T' & -> & _).
Qed.

(** The end of a simulation does not return when the simulation state, or any
    other, is in the set of states: the loop over the set erases it. *)
Lemma bind_stop {A B} (o : outcome A) (f : A -> outcome B) :
  (forall a, o = Ret a -> exists e, f a = Stop e) -> exists e, (o ≫= f) = Stop e.
Proof. intros Hf. destruct o as [a|e]; [by apply Hf|by exists e]. Qed.

Lemma modify_node_states f x ex ex' : modify_node f x ex = Ret ex' -> states ex' = states ex.
Proof.
  unfold modify_node. destruct (ptreeNode _ !! x) as [a|]; [|done]. cbn [of_option mbind outcome_bind].
  destruct (deref _ a); [|done]. by intros [= <-].
Qed.

Lemma discard_states ex x b ex' : discard ex x = Ret (b, ex') -> states ex' = states ex.
Proof.
  unfold discard. destruct (erase x _); [|by intros [= _ <-]].
  destruct (ptreeNode _ !! x) as [a|]; [|done]. cbn [of_option mbind outcome_bind].
  destruct (remove _ _ a); [|done]. by intros [= _ <-].
Qed.

Lemma terminate_normal_states ex x ex' : terminate_normal ex x = Ret ex' -> states ex' = states ex.
Proof.
  unfold terminate_normal. destruct (discard ex x) as [[b ex1]|] eqn:E; [|done]. apply discard_states in E.
  cbn [mbind outcome_bind]. destruct b; [done|]. destruct (isNormalState x).
  - intros Hm%modify_node_states. congruence.
  - by intros [= <-].
Qed.

Lemma notify_states ex x ex' : notifyDependentState ex x = Ret ex' -> states ex' = states ex.
Proof.
  unfold notifyDependentState. destruct (getDependentState ex x) as [d|]; [|done]. cbn [mbind outcome_bind].
  destruct (modify_node _ x ex) as [ex1|] eqn:E; [|done]. apply modify_node_states in E. cbn [mbind outcome_bind].
  unfold resumeState. destruct (assert_that _); [|done]. by intros [= <-].
Qed.

(** Ending a simulation run is undefined: the simulation state is itself in the
    set of states. *)
Theorem simulation_exit_undefined ex x y :
  simulating (simulation ex) = true -> y ∈ states ex -> isSimulationState y = true ->
  exists e, terminateState ex x = Stop e.
Proof.
  intros Hm Hy Hs. unfold terminateState. rewrite Hm. apply bind_stop. intros [b ex1] E1.
  apply discard_states in E1. destruct b; [by eexists|]. apply bind_stop. intros ex4 E4. exfalso. revert E4.
  unfold onSimulationStateExit. destruct (notifyDependentState _ x) as [ex2|] eqn:E2; [|done].
  apply notify_states in E2. cbn [mbind outcome_bind].
  destruct (terminate_normal ex2 x) as [ex3|] eqn:E3; [|done]. apply terminate_normal_states in E3.
  cbn [mbind outcome_bind]. destruct (filter _ _) as [|z l] eqn:Ef.
  - assert (Hin : y ∈ @nil sid); [|by apply elem_of_nil in Hin]. rewrite <- Ef. apply list_elem_of_filter.
    rewrite Hs. split; [done|]. apply elem_of_elements. simpl in *. congruence.
  - by destruct (terminate_normal ex3 z).
Qed.

(** C12: the main loop refines a scheduler that picks any state alive.  For every
    searcher that meets the interface and every sequence of instructions that
    branch states and terminate states known to the searcher, outside of a
    simulation, the loop fails no assertion and leaves the searcher, the set of
    states and the process tree in agreement; the states it selects are alive
    when selected, and it stops early only when no state is left or execution
    is halted.  The restriction on terminations is needed: terminating a state
    that was branched off by the same instruction reads the state after it was
    deleted. *)
Theorem main_loop_refines (its : list iteration) (ex : Executor S) (s : S) (T : tree) :
  engine_inv ex s T -> addedStates ex = [] -> removedStates ex = [] -> run_ok its (states ex) ->
  (exists xs ex' s' T', run_loop its ex = Ret (xs, ex') /\ schedule its (states ex) xs (states ex') /\
    engine_inv ex' s' T' /\ live s' = states ex' /\
    forall y, y ∈ (leaves T').*1 <-> y ∈ states ex') /\
  (forall ex1 s1 T1 x, engine_inv ex1 s1 T1 -> x ∈ addedStates ex1 -> terminateState ex1 x = Stop MemError).
Proof.
  intros Hinv HA HR Hok. split; [|intros ex1 s1 T1 x; apply terminate_new_state].
  destruct (run_loop_ok its ex s T Hinv HA HR Hok) as (xs & ex' & s' & T' & Hrun & Hinv' & HA' & HR' & Hsch).
  exists xs, ex', s', T'. split_and!; auto; [apply Hinv'|]. intros y. rewrite (ei_leaves _ _ _ Hinv'), HA'.
  split; [|by left]. by intros [|?%elem_of_nil].
Qed.

(** An update with suspended and resumed states: the searcher drops the
    suspended ones, which stay states of the engine and of the process tree,
    and takes the resumed ones back; removed states leave the searcher, the
    set, the seeds and the tree, a suspended one without telling the searcher
    again. *)
Theorem update_states_suspend (es : nat -> env) (halt : bool) (current : option sid)
    (ex : Executor S) (s : S) (T : tree) :
  pending current ex s T ->
  exists ex' s' T', updateStates es halt current ex = Ret ex' /\
    searcher ex' = Some s' /\ live s' = scheduled ex s /\
    states ex' = (states ex ∪ list_to_set (addedStates ex)) ∖ list_to_set (removedStates ex) /\
    seedMap ex' = seedMap ex ∖ list_to_set (removedStates ex) /\
    (forall y, y ∈ (leaves T').*1 <-> y ∈ states ex') /\
    PTree_inv (processTree ex') T' /\
    addedStates ex' = [] /\ removedStates ex' = [] /\ suspendedStates ex' = [] /\ resumedStates ex' = [].
Proof.
  intros Hp. destruct (updateStates_ok es halt current ex s T Hp)
    as (ex' & s' & T' & Hrun & Hs' & _ & Hlive & Hst & Hseed & Hpt & Hl & Hrest).
  exists ex', s', T'. split_and!; auto; apply Hrest.
Qed.

End Engine.

(** ** An example: two breadth first searchers, interleaved *)

Definition quiet : env := mkEnv (fun _ => 0) (fun _ => 0) 0 false.
Definition never (x : sid) : bool := false.
Definition always (x : sid) : bool := true.

Definition start : Executor (InterleavedSearcher BFSSearcher) :=
  mkExecutor (Some (new_InterleavedSearcher [mkBFS [7]; mkBFS [7]])) {[7]} [] [] [] [] ∅ (new_PTree 7) 0 0
    (mkSimulation ∅ ∅ false false).

Definition branching : iteration :=
  mkIteration quiet false (fun x => [Branch quiet x [8]]) (fun _ => quiet) None (fun _ => quiet).
Definition ending : iteration :=
  mkIteration quiet false (fun x => [Terminate x]) (fun _ => quiet) None (fun _ => quiet).

Lemma start_inv :
  exists T, engine_inv never start (new_InterleavedSearcher [mkBFS [7]; mkBFS [7]]) T.
Proof.
  destruct (new_PTree_spec 7) as (a & Hpt). exists (leaf a 0 7). split; simpl.
  - reflexivity.
  - split; simpl; [lia|lia| |].
    + repeat constructor; set_solver.
    + intros b b' Hb Hb'. assert (b = mkBFS [7]) as -> by set_solver.
      assert (b' = mkBFS [7]) as -> by set_solver. reflexivity.
  - unfold interleaved_contents. simpl. set_solver.
  - exact Hpt.
  - intros y. set_solver.
  - apply NoDup_nil_2.
  - set_solver.
  - apply NoDup_nil_2.
  - set_solver.
  - intros x _. split; [reflexivity|]. unfold isSuspended. simpl. by rewrite bool_decide_false by set_solver.
  - split; reflexivity.
  - reflexivity.
Qed.

Lemma example_ok : run_ok never [branching; ending] {[7]}.
Proof.
  intros x Hx. apply elem_of_singleton in Hx as ->. split.
  - eexists. exists [8], []. split; [|reflexivity]. econstructor; [|constructor].
    apply (effect_branch never {[7]} quiet 7 [8] [] []); [set_solver|apply NoDup_singleton|].
    intros n Hn. apply list_elem_of_singleton in Hn as ->. split; [set_solver|]. reflexivity.
  - intros next _ x Hx. split; [|intros; exact I]. eexists. exists [], [x]. split; [|reflexivity].
    econstructor; [|constructor].
    apply (effect_terminate never next x [] []); [exact Hx|set_solver|set_solver].
Qed.

Lemma main_loop_refines_witness :
  exists xs ex', run_loop always never true [branching; ending] start = Ret (xs, ex').
Proof.
  destruct start_inv as (T & Hinv).
  destruct (main_loop_refines always never true [branching; ending] start _ T Hinv eq_refl eq_refl example_ok)
    as ((xs & ex' & s' & T' & Hrun & _) & _).
  exists xs, ex'. exact Hrun.
Defined.

(** The same with the only state suspended. *)
Definition suspending : Executor (InterleavedSearcher BFSSearcher) :=
  mkExecutor (searcher start) (states start) [] [] [7] [] ∅ (processTree start) 0 0
    (simulation start).

Lemma suspending_pending :
  exists T, pending always never None suspending (new_InterleavedSearcher [mkBFS [7]; mkBFS [7]]) T.
Proof.
  destruct start_inv as (T & Hinv). exists T.
  destruct (engine_pending always never None _ _ _ Hinv ltac:(discriminate)).
  split; try assumption; simpl in *.
  - split; [apply NoDup_singleton|apply NoDup_nil_2].
  - intros x Hx. apply list_elem_of_singleton in Hx as ->. split; [|reflexivity].
    unfold after, interleaved_contents, filtered. simpl. set_solver.
  - set_solver.
Qed.

Lemma update_states_suspend_witness :
  exists ex' s', updateStates always never true (fun _ => quiet) false None suspending = Ret ex' /\
    searcher ex' = Some s' /\ live (R := normal never) s' = ∅ /\ states ex' = {[7]}.
Proof.
  destruct suspending_pending as (T & Hp).
  destruct (update_states_suspend always never true (fun _ => quiet) false None suspending _ T Hp)
    as (ex' & s' & T' & Hrun & Hs & Hl & Hst & _).
  exists ex', s'. split; [exact Hrun|]. split; [exact Hs|]. split.
  - rewrite Hl. unfold scheduled, after, filtered. simpl. unfold interleaved_contents. simpl. set_solver.
  - rewrite Hst. simpl. set_solver.
Defined.

(** The state 7 branches off the state 8, which is terminated at once. *)
Example new_state_terminated :
  perform_all always never true start [Branch quiet 7 [8]; Terminate 8] = Stop MemError.
Proof. vm_compute. reflexivity. Qed.

(** A simulation of the state 7 by the state -7, up to its end: the dependent
    state is resumed and the simulation state terminated, and then the loop
    over the states erases the simulation state. *)
Definition negative (x : sid) : bool := x <? 0.

Definition simulation_run : outcome (Executor (InterleavedSearcher BFSSearcher)) :=
  ex ← suspendState always start 7;
  ex ← startSimulationState always negative ex 7 (-7);
  updateStates always negative true (fun _ => quiet) false None ex.

Example simulation_ends_undefined :
  (ex ← simulation_run; ex ← notifyDependentState always negative ex (-7);
   ex ← terminate_normal always true ex (-7); Ret (addedStates ex, removedStates ex, states ex)) =
    Ret ([7], [-7], {[7; -7]}) /\
  (ex ← simulation_run;
   terminateState always negative true (with_simulation (with_simulating true (simulation ex)) ex) (-7)) =
    Stop MemError.
Proof. vm_compute. auto. Qed.
